(* ===== verification/_CoqProject ===== *)
-Q . S2P
Prelude.v
GoBinary.v
Code.v
RWMutex.v
Wire.v
Proto3.v
Descriptor.v
External.v
Sketch.v
SketchValue.v
Hll.v
Float64.v
Estimate.v
Rounding.v
EstimateProps.v
Bitmap.v
Algorithms.v
Engine.v
EngineProps.v
Handler.v
HandlerProps.v
Router.v
RouterProps.v
RouterLock.v
Store.v
RaftLib.v
Pb.v
Messages.v
MessagesProps.v
Raft.v
Main.v
RaftProps.v
Server.v
ServerProps.v
ServerTypes.v
Cluster.v
Observe.v
Telemetry.v
Rpc.v
GoNet.v
Gateway.v
GatewayProps.v
Generated.v
EndToEnd.v
Serve.v
MainProps.v
RaftRun.v
RaftLive.v
NodeSystem.v
EngineLock.v
