(* ===== verification/Prelude.v ===== *)
(** * Verification of the time-series cardinality tracker

    The program under [src/] is a sharded service written in Go that counts distinct
    64-bit ids per group. This library models its own code, from the sketches to the
    request handlers, the HTTP gateway and startup, and proves what makes each part
    correct.

    ** The program and the files

    A client sends Add, BatchAdd and Query requests to any server, over gRPC or as HTTP
    requests that the gateway turns into gRPC calls. The server asks a
    consistent-hash ring for the owner of the group and forwards the request if it is
    another node. The owner proposes the add to its Raft node, or without one adds it
    to the engine directly; the Raft node applies committed commands to the engine
    through a registry of handlers and saves the group's sketch in a Badger store. At
    startup the engine is rebuilt from the store.

    - [Prelude]: Go errors, panics, the state-passing monad and its notation, machine
      integers, and folds of commuting idempotent steps.
    - [GoBinary]: the parts of encoding/binary and math/bits the program uses (standard
      library).
    - [External], [RaftLib]: third-party packages as type classes with the documented
      behaviour the program relies on (murmur3, roaring64, gob, the order of a range
      over a map, Badger; protobuf, etcd raft), and stand-ins that satisfy them.
    - [Sketch]: the interfaces of internal/cardinality/sketch.go and the laws an
      algorithm keeps ([AlgorithmLaws]: a join-semilattice up to an equivalence).
    - [SketchValue], [Hll], [Float64], [Estimate], [Bitmap], [Algorithms]: hll/hll.go
      and bitmap/algorithm.go, every method, and the proof that both keep the laws. The
      estimator is written in IEEE binary64 arithmetic.
    - [Rounding], [EstimateProps]: bounds on rounded sums and quotients, and what they
      give for the estimator.
    - [Engine], [EngineProps]: engine.go, every method, over a memory of sketches that
      the group map points into; the abstract engine is a map from groups to sketches.
    - [Code]: code as the sequence of its accesses to shared state, which others may
      interleave with, and its run in one go.
    - [RWMutex]: objects behind a read-write lock, the interleavings of their calls, and
      linearizability from an interface ([LockedObject]) that such an object provides.
    - [EngineLock], [RouterLock]: the methods of the engine and of the ring as sequences
      of accesses under their locks, and the proof that both provide the interface.
    - [Handler], [HandlerProps]: internal/raft/handler, the registry and the handlers
      of ADD, BATCH_ADD and MERGE_SKETCH.
    - [Router], [RouterProps]: internal/router/router.go.
    - [Store]: internal/store.
    - [Raft], [RaftProps], [RaftRun]: internal/raft/node.go, first the state machine
      (applyEntries, maybeSnapshot, the Ready case of Run) as sequences of accesses and
      as functions, then the event loop, which makes one access at a time, the proposals
      and Stop as a step relation.
    - [RaftLive]: fair executions of that relation and their progress, as long as the Raft
      library again and again has a leader.
    - [NodeSystem]: the handlers of a server as threads over a running node.
    - [Main], [MainProps]: cmd/server/main.go up to the creation of the server.
    - [Serve]: the rest of main.go, the two HTTP listeners and [run] as the sequence of
      its effects and deferred calls.
    - [Wire], [Proto3]: the protobuf wire format and proto3 messages in it (a published
      format), with their round trip.
    - [Descriptor]: the raw descriptors in the generated files, byte for byte, a reader
      for them, and the struct tags.
    - [Pb], [Messages], [MessagesProps]: gen/cardinality/v1/cardinality.pb.go and
      command.pb.go: fields and getters, the methods of the messages, the registration
      of the files; a stand-in for the protobuf codec, driven by the descriptors.
    - [Generated]: stubs and gateway against the descriptor.
    - [EndToEnd]: gateway, stubs, server, engine and store of a standalone node composed.
    - [Server], [ServerProps], [ServerTypes], [Cluster]: internal/server/grpc.go; one
      server, on each branch of its handlers, and servers that forward to each other
      over connections that may lose requests and replies.
    - [Observe]: the collectors, the health endpoints and the interceptor of
      internal/server.
    - [Telemetry]: the metrics of internal/server and internal/store by name and their
      registration.
    - [Rpc]: cardinality_grpc.pb.go, the generated client, method handlers and service
      descriptor.
    - [GoNet]: the parts of net/url and net/http the program uses (standard library).
    - [Gateway], [GatewayProps]: cardinality.pb.gw.go, the REST routes.

    ** How the code is modelled

    A Go struct is a record and a method a function with the source's name (prefixed
    where several types have a method of that name). A method that changes state is a
    [prog S A]: from a state it returns a value and a new state, or panics. An error
    return is an [option error] or a [result]. Integers are [Z] with wrap-around where
    the code computes; bytes are [Byte.byte]; maps are [gmap]. A sketch behind a pointer
    is an entry of the engine's memory, so aliasing is visible. Code outside the
    repository is a class parameter.

    Loops that are not over a list have fuel: the id loop of applyBatchAdd gets one turn
    more than the payload has bytes, since each turn consumes a byte, and the binary
    search gets as many turns as the ring has points. That this is enough is part of
    [dispatch_total] and [resolve_total]. [cluster_peers] takes the number of hops a
    request may make; [requests_reach_owner] shows one is enough when the servers share a
    ring.

    Concurrency is a step relation: [RWMutex.mstep] for calls of an object under its
    lock, [RaftRun.step] for the node's loop with its goroutines and callers,
    [NodeSystem.sys_step] for the handlers on top of it. In the last two a call of the
    engine is one access, as [engine_linearizable] justifies, and everything else runs
    between any two accesses of the loop, so a query can see the middle of a BATCH_ADD
    entry. The library's Propose blocks while there is no leader ([RaftLib.rn_Propose] is
    [None]). Liveness is stated of infinite sequences of states under named assumptions:
    strong fairness of the scheduler ([RaftLive.fair]), a node that keeps running, and a
    leader again and again ([RaftLive.leader_again]).

    A remote call crosses code that is not here. [Rpc.serves] states what a unary gRPC
    call does, including lost requests and replies, and [Gateway.GatewayRuntime] what
    the runtime package of the gateway does; stand-ins show both can hold. Between the
    servers of a cluster [Cluster.link] says what becomes of a call. The codec
    parameters ([RaftLib.Proto], [Rpc.ProtoWire]) are instantiated with the wire format
    under the schemas read from the descriptors; loops over a buffer get one turn per byte
    ([Wire.consume_fields_loop_fuel]).

    ** What the theorems show

    - Sketches: HLL registers hold the maximum rank of the ids that hash to them, merge
      is union, bytes round-trip, Parse accepts exactly the well-formed buffers. The
      estimate is the number of registers in use while that is below 128, after all
      float64 roundings.
    - Engine: the pointer-level engine refines a map; the order and the repetition of
      adds and merges do not matter; no sketch is shared with a caller; a failed
      Unmarshal changes nothing; with the bitmap algorithm counts are exact;
      concurrent calls are linearizable, never panic and never deadlock, and concurrent
      writers leave the store in step with the engine.
    - Handlers: any payload is handled without panic or endless loop, and does exactly
      the calls it encodes.
    - Ring: a ring built at startup is described for any addresses, collisions of their
      virtual nodes included; servers agree on every group whose point does not collide;
      with removals the ring refines the set of its members if virtual nodes do not
      collide and nodes are added only when absent; only the groups that must move do when
      a node comes or goes; a Resolve never sees a change half done.
    - Store: saving and loading implement a map, and LoadAll traverses it.
    - Raft: applying a log refines its commands; replicas agree; a restart recovers the
      state and replay is harmless; a snapshot is taken exactly when it is due and holds the
      state; the event loop keeps all this under any interleaving, and an acknowledged
      proposal was accepted; after Stop nothing changes.
    - Server: acknowledgement by a standalone server means the sketch was stored; a batch
      is one request; a request through any server of a cluster does at the owner what the
      owner's own handler does; scrapes export the largest groups. Every handler is total
      and well typed on every branch, if ProposeAdd returns. On a Raft node an ok means
      every id was accepted (not that it is applied: [ack_before_apply]), a query answers
      from a prefix of the calls of the committed log, and no proposal hangs while there
      is a leader again and again.
    - Stubs and gateway: client stub, transport, method handler and interceptor make one
      remote call, counted once; an HTTP route is that call with the group of the path; malformed
      requests stop at the gateway. Names, types and routes are the descriptor's.
    - Messages: the tables of the generated files fit their descriptors, so registration
      succeeds; a message presents itself as its own type.
    - End to end: what a GET answers is the estimate for exactly the ids that the POSTs
      before it added, under any loss of requests and replies.
    - Startup and shutdown: the engine is what the store holds, and a corrupt store is
      refused; which path answers on which port; everything opened is closed in order on
      every way out.
    - Four theorems show behaviour that departs from the code's intent or comments:
      [remove_after_double_add], [snapshot_drops_tail], [self_addr_panics] and
      [batch_cut_short_not_persisted].

    ** What is not modelled

    Sockets, operating-system signals, timeouts, log output and measured durations (they
    are input and output of the runtime and of other packages); contexts, except that a
    caller of ProposeAdd may be cancelled at any time; gRPC reflection; what the
    protobuf runtime does with the descriptors it is given. The resources of
    [Serve.run_cleans_up] are the store, the Raft node, the server, the gateway's connection
    and the two HTTP servers; the gRPC listener and server are events of [Serve.run] but
    not among them, since a failed registration of the gateway leaves them open, and the
    gateway's connection counts as closed when its context is cancelled, though a goroutine
    closes it a moment later. Beyond 127 registers there is
    no theorem on the accuracy of the HLL estimate, which is a statistical property of the
    hash. *)

From Stdlib Require Export ZArith Lia.
From Stdlib.Strings Require Export Ascii String Byte.
From stdpp Require Export base tactics numbers list gmap fin_maps strings sorting.

#[export] Set Warnings "-clear-no-such-hyp".

(** ** Scopes and notations *)

Declare Scope go_scope.
Delimit Scope go_scope with go.
Open Scope go_scope.

(** ** Go errors

    One constructor per error the program creates, with the values its message
    prints; [fmt.Errorf] with the [%w] verb keeps the wrapped error as an argument.
    [EExternal] stands for an error returned by code outside the repository. *)
Inductive bad_payload :=
  | NotSingleVarint
  | MissingCount
  | IdTruncated (i n : Z)
  | MissingAlgoLen
  | AlgoLenExceeds (algoLen payload : Z).

#[export] Instance bad_payload_eq_dec : EqDecision bad_payload.
Proof. solve_decision. Defined.

Inductive error :=
  | ErrUnknownGroup (group : string)
  | ErrAlgoMismatch (engine got : string)
  | ErrNilRemote
  | ErrParse (group : string) (e : error)
  | EHllShort
  | EHllPrecision (got want : Z)
  | ErrUnknownCommand (type : option string)
  | ErrBadPayload (what : bad_payload)
  | ErrNilAdder
  | ErrNotFound
  | EStoreOpen (e : error)
  | EOpenStore (e : error)
  | ERestore (e : error)
  | EListenGrpc (e : error)
  | ERegisterGateway (e : error)
  | EStatus (code : Z) (what : string)
  | EStatusf (code : Z) (what : string) (cause : error)
  | ECtxDone
  | EExternal (what : string).

#[export] Instance error_eq_dec : EqDecision error.
Proof. solve_decision. Defined.

(** A Go function returning [(T, error)]: a value or an error. *)
Inductive result (A : Type) :=
  | Ok (a : A)
  | Err (e : error).
Arguments Ok {A} a.
Arguments Err {A} e.

(** ** Panics and state

    [outcome A] is what a Go call does when it is not an error value: it returns
    or it panics. [prog S A] is a call that reads and writes the state [S]. *)
Inductive outcome (A : Type) :=
  | Ret (a : A)
  | Panic (msg : string).
Arguments Ret {A} a.
Arguments Panic {A} msg.

Definition prog (S A : Type) : Type := S → outcome (A * S).

Definition ret {S A} (a : A) : prog S A := λ s, Ret (a, s).
Definition bind {S A B} (m : prog S A) (k : A → prog S B) : prog S B :=
  λ s, match m s with
       | Ret (a, s') => k a s'
       | Panic msg => Panic msg
       end.
Definition get {S} : prog S S := λ s, Ret (s, s).
Definition put {S} (s' : S) : prog S unit := λ _, Ret (tt, s').
Definition panic {S A} (msg : string) : prog S A := λ _, Panic msg.
Definition lift {S A} (o : outcome A) : prog S A :=
  λ s, match o with Ret a => Ret (a, s) | Panic msg => Panic msg end.

(** Running a call on one half of a larger state. *)
Definition on_fst {S T A} (m : prog S A) : prog (S * T) A :=
  λ st, match m st.1 with
        | Ret (a, s') => Ret (a, (s', st.2))
        | Panic msg => Panic msg
        end.
Definition on_snd {S T A} (m : prog T A) : prog (S * T) A :=
  λ st, match m st.2 with
        | Ret (a, t') => Ret (a, (st.1, t'))
        | Panic msg => Panic msg
        end.

Notation "'let*' x ':=' c 'in' k" := (bind c (λ x, k))
  (at level 10, x name, c at level 100, k at level 200) : go_scope.
Notation "'let*' ' p ':=' c 'in' k" := (bind c (λ x, match x with p => k end))
  (at level 10, p pattern, c at level 100, k at level 200) : go_scope.

(** ** Machine integers

    A Go [uint64], [uint32], [uint16] or [uint8] is a [Z] in range; wrap-around is
    written where the code computes. *)
Definition u64 (x : Z) : Prop := (0 ≤ x < 2 ^ 64)%Z.
Definition u32 (x : Z) : Prop := (0 ≤ x < 2 ^ 32)%Z.
Definition wrap64 (x : Z) : Z := (x mod 2 ^ 64)%Z.
Definition wrap8 (x : Z) : Z := (x mod 2 ^ 8)%Z.

(** Go's [byte] is its [uint8]; both are [Byte.byte] here. *)
Definition byte_to_Z (b : byte) : Z := Z.of_N (Byte.to_N b).
Definition Z_to_byte (x : Z) : byte :=
  match Byte.of_N (Z.to_N (wrap8 x)) with Some b => b | None => x00 end.

(** Go's [copy(dst, src)]: as many elements as both slices hold. *)
Definition go_copy {A} (dst src : list A) : list A :=
  take (length dst) src ++ drop (length src) dst.

#[global] Arguments Z.to_nat : simpl never.
#[global] Arguments Z.of_nat : simpl never.
#[global] Arguments Z.pow : simpl never.
#[global] Arguments Z.modulo : simpl never.
#[global] Arguments Z.shiftl : simpl never.
#[global] Arguments Z.shiftr : simpl never.
#[global] Arguments Z.lor : simpl never.
#[global] Arguments wrap8 : simpl never.
#[global] Arguments wrap64 : simpl never.
#[global] Arguments Z_to_byte : simpl never.
#[global] Arguments byte_to_Z : simpl never.

(** ** Automation *)

Create HintDb go.

(** Destruct every match on a state-passing step in a hypothesis or in the goal. *)
Ltac go_simpl :=
  unfold bind, ret, get, put, panic, lift, on_fst, on_snd in *; simpl in *.

Ltac split_and_go := repeat match goal with |- _ ∧ _ => split end.

Local Open Scope Z_scope.

(** ** Lemmas on bytes *)

Lemma byte_to_Z_range (b : byte) : 0 ≤ byte_to_Z b < 256.
Proof.
  unfold byte_to_Z. pose proof (Byte.to_N_bounded b). lia.
Qed.

Lemma Z_to_byte_to_Z (b : byte) : Z_to_byte (byte_to_Z b) = b.
Proof.
  unfold Z_to_byte, wrap8. pose proof (byte_to_Z_range b).
  rewrite Z.mod_small by (change (2 ^ 8) with 256; lia).
  unfold byte_to_Z. by rewrite N2Z.id, Byte.of_to_N.
Qed.

Lemma byte_to_Z_to_byte (x : Z) : byte_to_Z (Z_to_byte x) = wrap8 x.
Proof.
  unfold Z_to_byte.
  assert (0 ≤ wrap8 x < 256) as Hr by (unfold wrap8; apply Z.mod_pos_bound; lia).
  destruct (Byte.of_N (Z.to_N (wrap8 x))) as [b|] eqn:E.
  - apply Byte.to_of_N in E. unfold byte_to_Z. rewrite E. lia.
  - apply Byte.of_N_None_iff in E. lia.
Qed.

Lemma byte_to_Z_small (x : Z) : 0 ≤ x < 256 → byte_to_Z (Z_to_byte x) = x.
Proof. intros. rewrite byte_to_Z_to_byte. unfold wrap8. by apply Z.mod_small. Qed.

#[export] Instance byte_to_Z_inj : Inj (=) (=) byte_to_Z.
Proof. intros a b E. by rewrite <- (Z_to_byte_to_Z a), E, Z_to_byte_to_Z. Qed.

#[export] Instance byte_eq_dec : EqDecision byte := Byte.byte_eq_dec.

#[export] Program Instance byte_countable : Countable byte :=
  inj_countable Byte.to_N Byte.of_N _.
Next Obligation. intros b. apply Byte.of_to_N. Qed.

Lemma list_byte_of_string_inj (s t : string) :
  list_byte_of_string s = list_byte_of_string t → s = t.
Proof.
  intros E. by rewrite <- (string_of_list_byte_of_string s), E, string_of_list_byte_of_string.
Qed.

(** ** Lemmas on slices *)

Lemma go_copy_all {A} (dst src : list A) :
  length dst = length src → go_copy dst src = src.
Proof.
  intros E. unfold go_copy. rewrite take_ge, drop_ge by lia. apply app_nil_r.
Qed.

Lemma go_copy_long {A} (dst src : list A) :
  (length dst ≤ length src)%nat → go_copy dst src = take (length dst) src.
Proof. intros E. unfold go_copy. rewrite (drop_ge dst) by lia. apply app_nil_r. Qed.

Lemma length_go_copy {A} (dst src : list A) : length (go_copy dst src) = length dst.
Proof. unfold go_copy. rewrite length_app, length_take, length_drop. lia. Qed.

Lemma list_alter_as_insert {A} (f : A → A) (l : list A) (i : nat) (x : A) :
  l !! i = Some x → alter f i l = <[i := f x]> l.
Proof.
  intros E. apply list_eq. intros j. destruct (decide (j = i)) as [->|Hne].
  - rewrite list_lookup_alter_eq, E. simpl.
    symmetry. apply list_lookup_insert_eq. by eapply lookup_lt_Some.
  - by rewrite list_lookup_alter_ne, list_lookup_insert_ne by done.
Qed.

(** ** Lemmas on the state monad *)

Lemma bind_Ret {S A B} (m : prog S A) (k : A → prog S B) s a s' :
  m s = Ret (a, s') → bind m k s = k a s'.
Proof. unfold bind. by intros ->. Qed.

#[export] Hint Resolve byte_to_Z_range : go.

(** ** Total correctness of a call

    From a state that satisfies [P] the call returns, and [Q] holds of what it returns. *)
Definition triple {S A} (P : S → Prop) (m : prog S A) (Q : A → S → Prop) : Prop :=
  ∀ s, P s → ∃ a s', m s = Ret (a, s') ∧ Q a s'.

Lemma triple_ret {S A} (P : S → Prop) (Q : A → S → Prop) (a : A) :
  (∀ s, P s → Q a s) → triple P (ret a) Q.
Proof. intros HQ s HP. exists a, s. auto. Qed.

Lemma triple_bind {S A B} P (R : A → S → Prop) Q (m : prog S A) (k : A → prog S B) :
  triple P m R → (∀ a, triple (R a) (k a) Q) → triple P (bind m k) Q.
Proof.
  intros Hm Hk s HP. destruct (Hm s HP) as (a & s' & E & HR).
  rewrite (bind_Ret _ _ _ _ _ E). by apply Hk.
Qed.

Lemma triple_consequence {S A} (P P' : S → Prop) (Q Q' : A → S → Prop) (m : prog S A) :
  triple P' m Q' → (∀ s, P s → P' s) → (∀ a s, Q' a s → Q a s) → triple P m Q.
Proof.
  intros Hm HP HQ s Hs. destruct (Hm s (HP s Hs)) as (a & s' & E & Hq). exists a, s'. auto.
Qed.

(** ** Folds of commuting, idempotent steps

    States up to an equivalence [R], kept well formed ([P]) by steps on well-formed
    inputs ([Q]). When the steps commute and absorb themselves, a fold depends only
    on the set of its inputs. The sketches and the engine are both of this kind. *)
Section CommFold.
Context {A S : Type} (R : relation S) `{!Equivalence R}.
Context (P : S → Prop) (Q : A → Prop) (f : S → A → S).
Context (f_ok : ∀ s a, P s → Q a → P (f s a)).
Context (f_proper : ∀ s t a, P s → P t → Q a → R s t → R (f s a) (f t a)).
Context (f_comm : ∀ s a b, P s → Q a → Q b → R (f (f s a) b) (f (f s b) a)).
Context (f_idemp : ∀ s a, P s → Q a → R (f (f s a) a) (f s a)).
Implicit Types (l k : list A) (s t : S).

Lemma fold_ok l s : Forall Q l → P s → P (foldl f s l).
Proof using f_ok. intros Hl. revert s. induction Hl; intros s Hs; simpl; auto. Qed.

Lemma fold_proper l s t :
  Forall Q l → P s → P t → R s t → R (foldl f s l) (foldl f t l).
Proof using f_ok f_proper. intros Hl. revert s t. induction Hl; intros; simpl; auto. Qed.

Lemma fold_step l s a :
  Forall Q l → Q a → P s → R (foldl f (f s a) l) (f (foldl f s l) a).
Proof using All.
  intros Hl Ha. revert s. induction Hl as [|b l Hb Hl IH]; intros s Hs; simpl; [done|].
  etrans; [|by apply IH; auto]. apply fold_proper; auto.
Qed.

Lemma fold_perm l k s : l ≡ₚ k → Forall Q l → P s → R (foldl f s l) (foldl f s k).
Proof using All.
  intros E. revert s.
  induction E as [|a l k E IH|a b l|l1 l2 l3 E1 IH1 E2 IH2]; intros s Hl Hs; simpl.
  - done.
  - apply Forall_cons in Hl as [Ha Hl]. apply IH; auto.
  - apply Forall_cons in Hl as [Hb [Ha Hl]%Forall_cons]. apply fold_proper; auto.
  - etrans; [by apply IH1|]. apply IH2; [|done]. by rewrite <- E1.
Qed.

Lemma fold_absorb l s a :
  Forall Q l → a ∈ l → P s → R (f (foldl f s l) a) (foldl f s l).
Proof using All.
  intros Hl Ha. revert s.
  induction l as [|b l IH]; intros s Hs; simpl; [by apply not_elem_of_nil in Ha|].
  apply Forall_cons in Hl as [Hb Hl].
  apply elem_of_cons in Ha as [->|Ha]; [|by apply IH; auto].
  etrans; [symmetry; by apply fold_step; auto|]. apply fold_proper; auto.
Qed.

(** Repeating inputs of a fold, in any order and any number of times. *)
Lemma fold_replay l k s :
  Forall Q l → (∀ a, a ∈ k → a ∈ l) → P s → R (foldl f (foldl f s l) k) (foldl f s l).
Proof using All.
  intros Hl Hsub Hs. induction k as [|a k IH]; simpl; [done|].
  assert (Forall Q k) as Hk.
  { rewrite Forall_forall in *. intros x Hx. by apply Hl, Hsub, elem_of_cons; right. }
  assert (a ∈ l) as Ha by (apply Hsub; by left).
  assert (Q a) as HQ by (rewrite Forall_forall in Hl; by apply Hl).
  etrans; [by apply fold_step; auto using fold_ok|].
  etrans; [|by apply fold_absorb]. apply f_proper; auto using fold_ok.
  apply IH. intros x Hx. apply Hsub. by right.
Qed.

Lemma fold_set l k s :
  Forall Q l → (∀ a, a ∈ l ↔ a ∈ k) → P s → R (foldl f s l) (foldl f s k).
Proof using All.
  intros Hl E Hs.
  assert (Forall Q k) as Hk by (rewrite Forall_forall in *; intros x Hx; by apply Hl, E).
  etrans; [symmetry; apply (fold_replay l k); [done|intros x; apply E|done]|].
  etrans; [|apply (fold_replay k l); [done|intros x; apply E|done]].
  rewrite <- !foldl_app. apply fold_perm; [apply Permutation_app_comm| |done].
  by apply Forall_app.
Qed.
End CommFold.
