(* ===== verification/GoBinary.v ===== *)
(** * The Go standard library used for encodings

    What the program uses of [encoding/binary] and [math/bits]: little-endian
    integers, unsigned varints and [bits.LeadingZeros64], as the Go library
    implements them, with the lemmas the handlers and the HLL sketch rest on; and the
    bounds checks of slice expressions. *)

From S2P Require Import Prelude.
Local Open Scope Z_scope.

(** ** Slice expressions

    [buf[n:]] and [buf[:n]] on a slice of full capacity panic outside its bounds. *)
Definition slice_from {A} (buf : list A) (n : Z) : outcome (list A) :=
  if decide (0 ≤ n ≤ Z.of_nat (length buf)) then Ret (drop (Z.to_nat n) buf)
  else Panic "slice bounds out of range".
Definition slice_to {A} (buf : list A) (n : Z) : outcome (list A) :=
  if decide (0 ≤ n ≤ Z.of_nat (length buf)) then Ret (take (Z.to_nat n) buf)
  else Panic "slice bounds out of range".

Lemma slice_from_ok {A} (buf : list A) n :
  0 ≤ n ≤ Z.of_nat (length buf) → slice_from buf n = Ret (drop (Z.to_nat n) buf).
Proof. intros. unfold slice_from. by rewrite decide_True. Qed.
Lemma slice_to_ok {A} (buf : list A) n :
  0 ≤ n ≤ Z.of_nat (length buf) → slice_to buf n = Ret (take (Z.to_nat n) buf).
Proof. intros. unfold slice_to. by rewrite decide_True. Qed.

(** ** Little-endian integers *)

(** [binary.LittleEndian.PutUint16] and [PutUint64]: the bytes written. *)
Definition PutUint16 (v : Z) : list byte :=
  [Z_to_byte v; Z_to_byte (Z.shiftr v 8)].

Definition PutUint64 (v : Z) : list byte :=
  (λ i : nat, Z_to_byte (Z.shiftr v (8 * Z.of_nat i))) <$> seq 0 8.

#[global] Arguments PutUint16 : simpl never.
#[global] Arguments PutUint64 : simpl never.

(** [binary.LittleEndian.Uint16]: [None] is the index panic on a short slice. *)
Definition Uint16 (b : list byte) : option Z :=
  match b with
  | b0 :: b1 :: _ => Some (Z.lor (byte_to_Z b0) (Z.shiftl (byte_to_Z b1) 8))
  | _ => None
  end.

(** ** Varints *)

Definition MaxVarintLen64 : Z := 10.

(** The loop of [binary.Uvarint]: [i] is the index, [x] the value so far and [s]
    the shift. A positive second component is the number of bytes read, zero a
    truncated buffer, a negative one an overflow. *)
Fixpoint Uvarint_loop (buf : list byte) (i x s : Z) : Z * Z :=
  match buf with
  | [] => (0, 0)
  | b :: buf' =>
      if decide (i = MaxVarintLen64) then (0, - (i + 1))
      else if decide (byte_to_Z b < 128) then
        if decide (i = MaxVarintLen64 - 1 ∧ 1 < byte_to_Z b) then (0, - (i + 1))
        else (Z.lor x (wrap64 (Z.shiftl (byte_to_Z b) s)), i + 1)
      else
        Uvarint_loop buf' (i + 1)
          (Z.lor x (wrap64 (Z.shiftl (Z.land (byte_to_Z b) 127) s))) (s + 7)
  end.

Definition Uvarint (buf : list byte) : Z * Z := Uvarint_loop buf 0 0 0.

(** The loop of [binary.AppendUvarint]; it runs at most nine times on a [uint64],
    so a bound of ten iterations is never reached ([AppendUvarint_unfold]). *)
Fixpoint AppendUvarint_loop (fuel : nat) (buf : list byte) (x : Z) : list byte :=
  match fuel with
  | O => buf
  | S fuel' =>
      if decide (128 ≤ x) then
        AppendUvarint_loop fuel' (buf ++ [Z_to_byte (Z.lor (wrap8 x) 128)]) (Z.shiftr x 7)
      else buf ++ [Z_to_byte x]
  end.

Definition AppendUvarint (buf : list byte) (x : Z) : list byte :=
  AppendUvarint_loop 10 buf x.

(** ** math/bits *)

Definition Len64 (x : Z) : Z := if decide (x = 0) then 0 else Z.log2 x + 1.
Definition LeadingZeros64 (x : Z) : Z := 64 - Len64 x.

(** ** Bit-level arithmetic *)

Lemma land_low_high (a b s : Z) : 0 ≤ s → 0 ≤ a < 2 ^ s → Z.land a (Z.shiftl b s) = 0.
Proof.
  intros Hs Ha. apply Z.bits_inj'. intros n Hn.
  rewrite Z.land_spec, Z.shiftl_spec, Z.bits_0 by lia.
  destruct (Z.lt_ge_cases n s) as [Hlt|Hge].
  - rewrite (Z.testbit_neg_r b) by lia. by rewrite andb_false_r.
  - destruct (decide (a = 0)) as [->|Hne]; [by rewrite Z.bits_0|].
    rewrite (Z.bits_above_log2 a n); [done|lia|].
    apply Z.lt_le_trans with s; [|lia]. apply Z.log2_lt_pow2; lia.
Qed.

Lemma lor_low_high (a b s : Z) :
  0 ≤ s → 0 ≤ a < 2 ^ s → Z.lor a (Z.shiftl b s) = a + b * 2 ^ s.
Proof.
  intros Hs Ha. rewrite <- (Z.shiftl_mul_pow2 b s) by lia.
  pose proof (Z.add_lor_land a (Z.shiftl b s)) as E.
  rewrite land_low_high in E by lia. lia.
Qed.

Lemma lor_low_mul (a b s : Z) :
  0 ≤ s → 0 ≤ a < 2 ^ s → Z.lor a (b * 2 ^ s) = a + b * 2 ^ s.
Proof. intros. rewrite <- (Z.shiftl_mul_pow2 b s) at 1 by lia. by apply lor_low_high. Qed.

Lemma lor_128 (x : Z) : Z.lor (wrap8 x) 128 = 128 + x mod 128.
Proof.
  unfold wrap8. change (2 ^ 8) with 256.
  assert (0 ≤ x mod 256 < 256) as H by (apply Z.mod_pos_bound; lia).
  replace (x mod 128) with (x mod 256 mod 128).
  2: { change 256 with (128 * 2). rewrite Z.rem_mul_r by lia.
       rewrite Z.mul_comm, Z.mod_add by lia. apply Z.mod_mod; lia. }
  generalize dependent (x mod 256). intros y H.
  destruct (Z.lt_ge_cases y 128) as [Hlt|Hge].
  - rewrite (Z.mod_small y 128) by lia. change 128 with (Z.shiftl 1 7) at 1.
    rewrite lor_low_high by lia. lia.
  - replace y with ((y - 128) + 1 * 2 ^ 7) at 1 by lia.
    rewrite <- (lor_low_high (y - 128) 1 7) by lia.
    change (Z.shiftl 1 7) with 128.
    rewrite <- Z.lor_assoc, Z.lor_diag. change 128 with (Z.shiftl 1 7) at 2.
    rewrite lor_low_high by lia.
    replace (y mod 128) with (y - 128); [lia|].
    apply (Z.mod_unique _ _ 1); lia.
Qed.

Lemma land_127 (x : Z) : Z.land x 127 = x mod 128.
Proof. change 127 with (Z.ones 7). rewrite Z.land_ones by lia. reflexivity. Qed.

(** ** Little-endian lemmas *)

(** A two-byte header below 256 has its value in the first byte. *)
Lemma Uint16_inv (b0 b1 : byte) (b : list byte) (v : Z) :
  0 ≤ v < 256 → Uint16 (b0 :: b1 :: b) = Some v → b0 = Z_to_byte v ∧ b1 = x00.
Proof.
  intros Hv. simpl. pose proof (byte_to_Z_range b0). pose proof (byte_to_Z_range b1).
  rewrite lor_low_high by lia. intros [= E].
  assert (byte_to_Z b1 = 0 ∧ byte_to_Z b0 = v) as [E1 E0] by lia.
  split; apply (inj byte_to_Z); [by rewrite byte_to_Z_small|done].
Qed.

(** ** Varint lemmas *)

Lemma shiftr7_range (x B : Z) : 0 ≤ x < 128 * B → 0 ≤ Z.shiftr x 7 < B.
Proof.
  intros Hx. rewrite Z.shiftr_div_pow2 by lia. change (2 ^ 7) with 128.
  split; [apply Z.div_pos; lia|]. apply Z.div_lt_upper_bound; lia.
Qed.

Lemma u64_shiftr7 (x : Z) : u64 x → u64 (Z.shiftr x 7).
Proof. unfold u64. intros. apply shiftr7_range. lia. Qed.

Lemma pow2_seven (n : nat) : 2 ^ (7 * Z.of_nat (S n)) = 128 * 2 ^ (7 * Z.of_nat n).
Proof.
  replace (7 * Z.of_nat (S n)) with (7 + 7 * Z.of_nat n) by lia.
  by rewrite Z.pow_add_r by lia.
Qed.

(** The loop equation of [AppendUvarint], free of the iteration bound. *)
Lemma AppendUvarint_loop_fuel (n m : nat) (buf : list byte) (x : Z) :
  0 ≤ x < 2 ^ (7 * Z.of_nat n) → (n ≤ m)%nat → (0 < m)%nat →
  AppendUvarint_loop m buf x = AppendUvarint_loop (S n) buf x.
Proof.
  revert m buf x. induction n as [|n IH]; intros m buf x Hx Hm Hpos.
  - change (2 ^ (7 * Z.of_nat 0)) with 1 in Hx.
    destruct m as [|m]; [lia|]. simpl. by rewrite !decide_False by lia.
  - destruct m as [|m]; [lia|]. cbn [AppendUvarint_loop].
    destruct (decide (128 ≤ x)) as [Hge|]; [|done].
    assert (0 ≤ Z.shiftr x 7 < 2 ^ (7 * Z.of_nat n)) as Hs.
    { apply shiftr7_range. by rewrite <- pow2_seven. }
    destruct n as [|n].
    { change (2 ^ (7 * Z.of_nat 1)) with 128 in Hx. lia. }
    apply IH; [done|lia|lia].
Qed.

Lemma AppendUvarint_unfold (buf : list byte) (x : Z) :
  u64 x →
  AppendUvarint buf x =
    if decide (128 ≤ x) then
      AppendUvarint (buf ++ [Z_to_byte (128 + x mod 128)]) (Z.shiftr x 7)
    else buf ++ [Z_to_byte x].
Proof.
  intros Hx. unfold u64 in *. unfold AppendUvarint at 1.
  change (AppendUvarint_loop 10 buf x) with
    (if decide (128 ≤ x) then
       AppendUvarint_loop 9 (buf ++ [Z_to_byte (Z.lor (wrap8 x) 128)]) (Z.shiftr x 7)
     else buf ++ [Z_to_byte x]).
  rewrite lor_128. destruct (decide (128 ≤ x)) as [Hge|]; [|done].
  assert (0 ≤ Z.shiftr x 7 < 2 ^ (7 * Z.of_nat 9)) as Hs.
  { apply shiftr7_range. lia. }
  apply (AppendUvarint_loop_fuel 9 9); lia.
Qed.

(** Induction on a [uint64] by sevens of bits, the scheme of the varint loops. *)
Lemma varint_ind (P : Z → Prop) :
  (∀ x, 0 ≤ x < 128 → P x) →
  (∀ x, 128 ≤ x → u64 x → P (Z.shiftr x 7) → P x) →
  ∀ x, u64 x → P x.
Proof.
  intros Hb Hs x. unfold u64.
  induction (Z.lt_wf 0 x) as [x _ IH]. intros Hx.
  destruct (Z.lt_ge_cases x 128) as [Hlt|Hge]; [apply Hb; lia|].
  apply Hs; [lia|done|].
  assert (0 ≤ Z.shiftr x 7 < x) by (apply shiftr7_range; lia).
  apply IH; lia.
Qed.

Lemma AppendUvarint_app (x : Z) :
  u64 x → ∀ buf, AppendUvarint buf x = buf ++ AppendUvarint [] x.
Proof.
  revert x. apply (varint_ind (λ x, ∀ buf, AppendUvarint buf x = buf ++ AppendUvarint [] x)).
  - intros x Hx buf.
    rewrite (AppendUvarint_unfold buf), (AppendUvarint_unfold []) by (unfold u64; lia).
    rewrite !decide_False by lia. reflexivity.
  - intros x Hge Hx IH buf. rewrite (AppendUvarint_unfold buf), (AppendUvarint_unfold []) by done.
    rewrite !decide_True by done. rewrite IH, (IH ([] ++ _)). by rewrite <- app_assoc.
Qed.

(** [AppendUvarint] writes at least one byte and at most ten. *)
Lemma AppendUvarint_length_bound (x : Z) (n : nat) :
  u64 x → (0 < n)%nat → x < 2 ^ (7 * Z.of_nat n) →
  (1 ≤ length (AppendUvarint [] x) ≤ n)%nat.
Proof.
  intros Hx. revert n. revert x Hx.
  apply (varint_ind (λ x, ∀ n : nat, (0 < n)%nat → x < 2 ^ (7 * Z.of_nat n) →
    (1 ≤ length (AppendUvarint [] x) ≤ n)%nat)).
  - intros x Hx n Hn _. rewrite AppendUvarint_unfold by (unfold u64; lia).
    rewrite decide_False by lia. simpl. lia.
  - intros x Hge Hx IH n Hn Hb. rewrite AppendUvarint_unfold by done.
    rewrite decide_True by done.
    pose proof (u64_shiftr7 x Hx) as Hs.
    rewrite AppendUvarint_app, length_app by done. simpl.
    destruct n as [|[|n]]; [lia| |].
    { change (2 ^ (7 * Z.of_nat 1)) with 128 in Hb. lia. }
    assert (Z.shiftr x 7 < 2 ^ (7 * Z.of_nat (S n))) as Hlt.
    { apply shiftr7_range. rewrite <- pow2_seven. unfold u64 in Hx. lia. }
    specialize (IH (S n) ltac:(lia) Hlt). lia.
Qed.

Lemma AppendUvarint_length (x : Z) : u64 x → (1 ≤ length (AppendUvarint [] x) ≤ 10)%nat.
Proof.
  intros Hx. apply AppendUvarint_length_bound; [done|lia|].
  change (7 * Z.of_nat 10) with 70. unfold u64 in Hx. lia.
Qed.

(** The reading loop started in the middle of a value: [acc] holds the low [7 * i]
    bits, and the rest of the buffer encodes [y]. *)
Lemma Uvarint_loop_append (y : Z) :
  u64 y → ∀ (i acc : Z) (rest : list byte),
  0 ≤ i → 0 ≤ acc < 2 ^ (7 * i) → acc + y * 2 ^ (7 * i) < 2 ^ 64 → i ≤ 9 →
  Uvarint_loop (AppendUvarint [] y ++ rest) i acc (7 * i) =
    (acc + y * 2 ^ (7 * i), i + Z.of_nat (length (AppendUvarint [] y))).
Proof.
  revert y. apply (varint_ind (λ y, ∀ (i acc : Z) (rest : list byte),
    0 ≤ i → 0 ≤ acc < 2 ^ (7 * i) → acc + y * 2 ^ (7 * i) < 2 ^ 64 → i ≤ 9 →
    Uvarint_loop (AppendUvarint [] y ++ rest) i acc (7 * i) =
      (acc + y * 2 ^ (7 * i), i + Z.of_nat (length (AppendUvarint [] y))))).
  - intros y Hy i acc rest Hi Hacc Hov Hi9.
    rewrite AppendUvarint_unfold by (unfold u64; lia). rewrite decide_False by lia.
    cbn [app Uvarint_loop length]. unfold MaxVarintLen64.
    rewrite decide_False by lia. rewrite byte_to_Z_small by lia.
    rewrite decide_True by lia. rewrite decide_False.
    2: { intros [-> Hlt]. change (2 ^ (7 * (10 - 1))) with (2 ^ 63) in *. lia. }
    rewrite Z.shiftl_mul_pow2 by lia. unfold wrap64.
    rewrite Z.mod_small by (assert (0 < 2 ^ (7 * i)) by lia; nia).
    rewrite lor_low_mul by lia. f_equal; lia.
  - intros y Hge Hy IH i acc rest Hi Hacc Hov Hi9.
    rewrite AppendUvarint_unfold by done. rewrite decide_True by done.
    pose proof (u64_shiftr7 y Hy) as Hs.
    rewrite AppendUvarint_app by done. cbn [app Uvarint_loop length].
    unfold MaxVarintLen64. rewrite decide_False by lia.
    assert (0 ≤ y mod 128 < 128) as Hm by (apply Z.mod_pos_bound; lia).
    rewrite byte_to_Z_small by lia. rewrite decide_False by lia.
    rewrite land_127. replace ((128 + y mod 128) mod 128) with (y mod 128).
    2: { apply (Z.mod_unique _ _ 1); lia. }
    assert (0 < 2 ^ (7 * i)) as Hp by lia.
    assert (y = 128 * Z.shiftr y 7 + y mod 128) as Hdm.
    { rewrite Z.shiftr_div_pow2 by lia. change (2 ^ 7) with 128. apply Z.div_mod. lia. }
    assert (2 ^ (7 * (i + 1)) = 128 * 2 ^ (7 * i)) as Hpow.
    { replace (7 * (i + 1)) with (7 + 7 * i) by lia. by rewrite Z.pow_add_r by lia. }
    assert (i < 9) as Hi8.
    { destruct (decide (i = 9)) as [->|]; [|lia].
      change (2 ^ (7 * 9)) with (2 ^ 63) in *. lia. }
    rewrite Z.shiftl_mul_pow2 by lia. unfold wrap64.
    rewrite Z.mod_small by nia.
    rewrite lor_low_mul by lia.
    replace (7 * i + 7) with (7 * (i + 1)) by lia.
    rewrite IH; [|lia|rewrite Hpow; nia|rewrite Hpow; nia|lia].
    rewrite Hpow. f_equal; [nia|lia].
Qed.

(** Reading back what [AppendUvarint] wrote, whatever follows it. *)
Lemma Uvarint_AppendUvarint (x : Z) (rest : list byte) :
  u64 x →
  Uvarint (AppendUvarint [] x ++ rest) = (x, Z.of_nat (length (AppendUvarint [] x))).
Proof.
  intros Hx. unfold Uvarint. change 0 with (7 * 0) at 3.
  unfold u64 in *. rewrite Uvarint_loop_append by (unfold u64; lia).
  f_equal; lia.
Qed.

(** What a successful read means: a [uint64] from at most ten bytes of the buffer. *)
Lemma Uvarint_loop_bounds (buf : list byte) (i x y n : Z) :
  0 ≤ i ≤ 9 → 0 ≤ x < 2 ^ (7 * i) → Uvarint_loop buf i x (7 * i) = (y, n) → 0 < n →
  u64 y ∧ i < n ≤ 10 ∧ n - i ≤ Z.of_nat (length buf).
Proof.
  revert i x. induction buf as [|b buf IH]; intros i x Hi Hx; cbn [Uvarint_loop length].
  { intros [= <- <-] ?. lia. }
  unfold MaxVarintLen64. rewrite decide_False by lia. pose proof (byte_to_Z_range b) as Hb.
  destruct (decide (byte_to_Z b < 128)) as [Hlt|Hge].
  - case_decide as Hov; intros [= <- <-] Hn; [lia|].
    assert (0 < 2 ^ (7 * i)) by lia.
    assert (byte_to_Z b * 2 ^ (7 * i) ≤ 2 ^ 64 - 2 ^ (7 * i)) as Hub.
    { destruct (decide (i = 9)) as [->|Hne].
      - change (2 ^ (7 * 9)) with (2 ^ 63) in *. lia.
      - assert (2 ^ (7 * i) ≤ 2 ^ 56) by (apply Z.pow_le_mono_r; lia). nia. }
    rewrite Z.shiftl_mul_pow2 by lia. unfold wrap64. rewrite Z.mod_small by nia.
    rewrite lor_low_mul by lia. unfold u64. lia.
  - intros E Hn. destruct (decide (i = 9)) as [->|Hne].
    { destruct buf as [|b' buf]; simpl in E; simplify_eq; lia. }
    rewrite land_127, Z.shiftl_mul_pow2 in E by lia.
    assert (0 ≤ byte_to_Z b mod 128 < 128) as Hm by (apply Z.mod_pos_bound; lia).
    assert (2 ^ (7 * (i + 1)) = 128 * 2 ^ (7 * i)) as Hpow.
    { replace (7 * (i + 1)) with (7 + 7 * i) by lia. by rewrite Z.pow_add_r by lia. }
    assert (2 ^ (7 * (i + 1)) ≤ 2 ^ 63) by (apply Z.pow_le_mono_r; lia).
    assert (0 < 2 ^ (7 * i)) by lia.
    assert (0 ≤ byte_to_Z b mod 128 * 2 ^ (7 * i) < 2 ^ 64) as Hsm by nia.
    unfold wrap64 in E. rewrite (Z.mod_small _ _ Hsm), lor_low_mul in E by lia.
    replace (7 * i + 7) with (7 * (i + 1)) in E by lia.
    apply IH in E as [Hy Hb']; [|lia|rewrite Hpow; nia|done]. split; [done|lia].
Qed.

Lemma Uvarint_bounds (buf : list byte) (x n : Z) :
  Uvarint buf = (x, n) → 0 < n → u64 x ∧ 1 ≤ n ≤ 10 ∧ n ≤ Z.of_nat (length buf).
Proof.
  unfold Uvarint. change 0 with (7 * 0) at 3. intros E Hn.
  apply Uvarint_loop_bounds in E; [|lia|change (2 ^ (7 * 0)) with 1; lia|done].
  unfold u64 in *. lia.
Qed.
