(* ===== verification/Code.v ===== *)
(** * Programs that can be interrupted

    A [prog] runs from its start to its end in one step. A [code] makes its accesses to
    the shared state one at a time, so that other threads can run between two of them:
    the body of a method under a lock ([RWMutex]), or the event loop of the Raft node while
    it applies entries ([RaftRun]). [run_body] is the code run without interruption. *)

From S2P Require Import Prelude.

(** ** Codes *)

(** A code that is done with a result, has panicked, or makes an access: what it makes of
    the state, and how it goes on, depending on what it saw. *)
Inductive code (S R : Type) :=
  | Done (r : R)
  | Crash (msg : string)
  | Access (write : S → S) (next : S → code S R).
Arguments Done {S R} r.
Arguments Crash {S R} msg.
Arguments Access {S R} write next.

(** The code run without interruption. *)
Fixpoint run_body {S R} (k : code S R) : prog S R :=
  match k with
  | Done r => ret r
  | Crash msg => panic msg
  | Access write next => λ s, run_body (next s) (write s)
  end.

(** One access that executes a call of the sequential model. *)
Definition access {S A} (op : prog S A) : code S A :=
  Access (λ s, match op s with Ret (_, s') => s' | Panic _ => s end)
         (λ s, match op s with Ret (a, _) => Done a | Panic msg => Crash msg end).

(** One access that reads. *)
Definition reading {S A} (f : S → A) : code S A := Access (λ s, s) (λ s, Done (f s)).

Fixpoint and_then {S A R} (k : code S A) (f : A → code S R) : code S R :=
  match k with
  | Done a => f a
  | Crash msg => Crash msg
  | Access write next => Access write (λ s, and_then (next s) f)
  end.

Notation "'do!' x ':=' k 'in' f" := (and_then k (λ x, f))
  (at level 10, x name, k at level 100, f at level 200).

(** A computation without access to the state. *)
Definition of_outcome {S A} (o : outcome A) : code S A :=
  match o with Ret a => Done a | Panic msg => Crash msg end.

(** A code on one of two components. *)
Fixpoint at_fst {S T R} (k : code S R) : code (S * T) R :=
  match k with
  | Done r => Done r
  | Crash msg => Crash msg
  | Access write next => Access (λ st, (write st.1, st.2)) (λ st, at_fst (next st.1))
  end.

Fixpoint at_snd {S T R} (k : code T R) : code (S * T) R :=
  match k with
  | Done r => Done r
  | Crash msg => Crash msg
  | Access write next => Access (λ st, (st.1, write st.2)) (λ st, at_snd (next st.2))
  end.

Lemma run_access {S A} (op : prog S A) s : run_body (access op) s = op s.
Proof. cbn. by destruct (op s) as [[a s']|msg]. Qed.

Lemma run_reading {S A} (f : S → A) s : run_body (reading f) s = Ret (f s, s).
Proof. done. Qed.

Lemma run_and_then {S A R} (k : code S A) (f : A → code S R) s :
  run_body (and_then k f) s = bind (run_body k) (λ a, run_body (f a)) s.
Proof.
  revert s. induction k as [a|msg|write next IH]; intros s; cbn; [done|done|]. apply IH.
Qed.

Lemma run_at_fst {S T R} (k : code S R) (st : S * T) : run_body (at_fst k) st = on_fst (run_body k) st.
Proof.
  revert st. induction k as [r|msg|write next IH]; intros [s t]; cbn; [done|done|].
  by rewrite IH.
Qed.

Lemma run_at_snd {S T R} (k : code T R) (st : S * T) : run_body (at_snd k) st = on_snd (run_body k) st.
Proof.
  revert st. induction k as [r|msg|write next IH]; intros [s t]; cbn; [done|done|].
  by rewrite IH.
Qed.

Lemma run_of_outcome {S A} (o : outcome A) (s : S) : run_body (of_outcome o) s = lift o s.
Proof. by destruct o. Qed.

Lemma bind_access {S B R} (op : prog S B) (k : B → code S R) s a s' :
  op s = Ret (a, s') → run_body (and_then (access op) k) s = run_body (k a) s'.
Proof. intros E. rewrite run_and_then. unfold bind. by rewrite run_access, E. Qed.

Lemma bind_of_outcome {S A R} (o : outcome A) (k : A → code S R) a :
  o = Ret a → and_then (of_outcome o) k = k a.
Proof. by intros ->. Qed.

(** ** Codes that do not write *)

Fixpoint read_only {S R} (k : code S R) : Prop :=
  match k with
  | Done _ | Crash _ => True
  | Access write next => (∀ s, write s = s) ∧ ∀ s, read_only (next s)
  end.

Lemma read_only_and_then {S A R} (k : code S A) (f : A → code S R) :
  read_only k → (∀ a, read_only (f a)) → read_only (and_then k f).
Proof.
  intros Hk Hf. induction k as [a|msg|write next IH]; cbn in *; [auto|done|]. destruct Hk. auto.
Qed.

Lemma read_only_access {S A} (op : prog S A) :
  (∀ s a s', op s = Ret (a, s') → s' = s) → read_only (access op).
Proof.
  intros Hop. split; intros s; destruct (op s) as [[a s']|msg] eqn:E; [by eapply Hop|done..].
Qed.

Lemma read_only_reading {S A} (f : S → A) : read_only (reading f).
Proof. done. Qed.

Lemma read_only_at_fst {S T R} (k : code S R) : read_only k → read_only (at_fst (T := T) k).
Proof.
  induction k as [r|msg|write next IH]; cbn; [done|done|]. intros [Hw Hn].
  split; [|auto]. intros [s t]. cbn. by rewrite Hw.
Qed.

Create HintDb read_only.
#[export] Hint Resolve read_only_and_then read_only_reading read_only_at_fst : read_only.

Lemma run_read_only {S R} (k : code S R) s r s' : read_only k → run_body k s = Ret (r, s') → s' = s.
Proof.
  revert s. induction k as [r0|msg|write next IH]; intros s; cbn; [by intros _ [= _ <-]|done|].
  intros [Hw Hn]. rewrite Hw. by apply IH.
Qed.
