(* ===== verification/RWMutex.v ===== *)
(** * Objects behind a read-write lock (sync.RWMutex)

    The engine and the ring each guard their fields with a [sync.RWMutex]: a method takes
    the lock for reading or for writing, works on the fields one access at a time, and
    releases it. Here calls interleave access by access.

    [LockedObject] is what such a type provides: for every call the accesses its body
    makes, and the sequential specification of the call on an abstract state, with the
    proof that the body run alone implements the specification and that a body under the
    read lock writes nothing. [locked_linearizable] is what a client gets in return: every
    concurrent execution is the sequential one in the order in which the lock was taken,
    which is compatible with the order of the calls in real time. [no_deadlock] adds that
    no call panics inside the lock or waits for it while nothing else can move. *)

From S2P Require Import Prelude Code.

(** ** Plans *)

(** What a call does: return at once, or take the lock and run a body. *)
Inductive mode := Rd | Wr.
Inductive plan (S R : Type) :=
  | Immediate (r : R)
  | Locked (m : mode) (k : code S R).
Arguments Immediate {S R} r.
Arguments Locked {S R} m k.

Definition plan_run {S R} (p : plan S R) : prog S R :=
  match p with Immediate r => ret r | Locked _ k => run_body k end.

Definition plan_reads {S R} (p : plan S R) : Prop :=
  match p with Locked Rd k => read_only k | _ => True end.

(** ** The interface *)

Class LockedObject (S A C R : Type) := {
  lo_plan : C → plan S R;
  lo_abs : S → A;
  lo_spec : C → A → R * A;
  lo_inv : S → Prop;
  lo_ok : C → Prop;
  lo_reads c : plan_reads (lo_plan c);
  lo_correct c s :
    lo_inv s → lo_ok c →
    ∃ r s', plan_run (lo_plan c) s = Ret (r, s') ∧ lo_spec c (lo_abs s) = (r, lo_abs s') ∧ lo_inv s';
}.

Section Threads.
Context {S A C R : Type} `{!LockedObject S A C R}.

(** Where a call is. *)
Inductive phase :=
  | Started
  | Inside (m : mode) (k : code S R)
  | Finished (r : R)
  | Returned (r : R).

Record mstate := mkM {
  shared : S;
  writer : option nat;
  readers : gset nat;
  threads : gmap nat (C * phase);
}.

Inductive label := LCall (t : nat) (c : C) | LTake (t : nat) | LReturn (t : nat) (r : R) | LTau.

Definition move (s : mstate) (t : nat) (c : C) (p : phase) : gmap nat (C * phase) :=
  <[t := (c, p)]> (threads s).

Inductive mstep (s : mstate) : label → mstate → Prop :=
  | m_call t c :
      threads s !! t = None → lo_ok c →
      mstep s (LCall t c) (mkM (shared s) (writer s) (readers s) (move s t c Started))
  | m_immediate t c r :
      threads s !! t = Some (c, Started) → lo_plan c = Immediate r →
      mstep s (LTake t) (mkM (shared s) (writer s) (readers s) (move s t c (Finished r)))
  | m_rlock t c k :
      threads s !! t = Some (c, Started) → lo_plan c = Locked Rd k → writer s = None →
      mstep s (LTake t) (mkM (shared s) None ({[t]} ∪ readers s) (move s t c (Inside Rd k)))
  | m_lock t c k :
      threads s !! t = Some (c, Started) → lo_plan c = Locked Wr k → writer s = None → readers s = ∅ →
      mstep s (LTake t) (mkM (shared s) (Some t) ∅ (move s t c (Inside Wr k)))
  | m_access t c m write next :
      threads s !! t = Some (c, Inside m (Access write next)) →
      mstep s LTau (mkM (write (shared s)) (writer s) (readers s) (move s t c (Inside m (next (shared s)))))
  | m_runlock t c r :
      threads s !! t = Some (c, Inside Rd (Done r)) →
      mstep s LTau (mkM (shared s) (writer s) (readers s ∖ {[t]}) (move s t c (Finished r)))
  | m_unlock t c r :
      threads s !! t = Some (c, Inside Wr (Done r)) →
      mstep s LTau (mkM (shared s) None (readers s) (move s t c (Finished r)))
  | m_return t c r :
      threads s !! t = Some (c, Finished r) →
      mstep s (LReturn t r) (mkM (shared s) (writer s) (readers s) (move s t c (Returned r))).

Definition m_initial (s0 : S) : mstate := mkM s0 None ∅ ∅.

(** An execution with its labels. *)
Inductive exec (s : mstate) : list label → mstate → Prop :=
  | exec_nil : exec s [] s
  | exec_snoc tr s1 l s2 : exec s tr s1 → mstep s1 l s2 → exec s (tr ++ [l]) s2.

(** ** Sequential executions *)

Fixpoint sequential (cs : list C) (a : A) : list R * A :=
  match cs with
  | [] => ([], a)
  | c :: cs' =>
      let '(r, a') := lo_spec c a in
      let '(rs, a'') := sequential cs' a' in (r :: rs, a'')
  end.

Lemma sequential_snoc cs c a rs a' r a'' :
  sequential cs a = (rs, a') → lo_spec c a' = (r, a'') → sequential (cs ++ [c]) a = (rs ++ [r], a'').
Proof.
  revert a rs. induction cs as [|c0 cs IH]; intros a rs; cbn [sequential app].
  { by intros [= <- <-] ->. }
  destruct (lo_spec c0 a) as [r1 a1]. destruct (sequential cs a1) as [rs1 a2] eqn:E1.
  intros [= <- <-] E2. by rewrite (IH _ _ E1 E2).
Qed.

(** ** The invariant *)

(** The order in which the calls took effect. *)
Definition taken (tr : list label) : list nat := omap (λ l, match l with LTake t => Some t | _ => None end) tr.

(** An entry of the history: thread, call and result. *)
Definition entry : Type := nat * (C * R).
Definition hist_calls (log : list entry) : list C := (λ e, e.2.1) <$> log.
Definition hist_results (log : list entry) : list R := (λ e, e.2.2) <$> log.

(** What the phase of a call says about the history; [x] is the shared state, and [y] the
    state when the call inside is done. *)
Definition phase_ok (log : list entry) (x : S) (wr : option nat) (rd : gset nat) (t : nat)
    (c : C) (p : phase) : Prop :=
  match p with
  | Started => t ∉ log.*1
  | Inside m k =>
      (∃ r y, run_body k x = Ret (r, y) ∧ (t, (c, r)) ∈ log) ∧
      match m with
      | Rd => read_only k ∧ t ∈ rd ∧ wr = None
      | Wr => wr = Some t ∧ rd = ∅
      end
  | Finished r | Returned r => (t, (c, r)) ∈ log
  end.

(** The fields, while [wr] is inside: what its body will make of them is [y]. *)
Definition when_done (ths : gmap nat (C * phase)) (wr : option nat) (x y : S) : Prop :=
  match wr with
  | None => x = y
  | Some w => ∃ c k r, ths !! w = Some (c, Inside Wr k) ∧ run_body k x = Ret (r, y)
  end.

Record minv (s0 : S) (tr : list label) (s : mstate) (log : list entry) (y : S) : Prop := {
  mi_order : log.*1 = taken tr;
  mi_nodup : NoDup log.*1;
  mi_seq : sequential (hist_calls log) (lo_abs s0) = (hist_results log, lo_abs y);
  mi_inv : lo_inv y;
  mi_ok t c p : threads s !! t = Some (c, p) → lo_ok c;
  mi_phase t c p : threads s !! t = Some (c, p) → phase_ok log (shared s) (writer s) (readers s) t c p;
  mi_known t c r : (t, (c, r)) ∈ log → ∃ p, threads s !! t = Some (c, p);
  mi_readers t : t ∈ readers s → ∃ c k, threads s !! t = Some (c, Inside Rd k);
  mi_shared : when_done (threads s) (writer s) (shared s) y;
}.

Arguments mi_order {s0 tr s log y} _.
Arguments mi_nodup {s0 tr s log y} _.
Arguments mi_seq {s0 tr s log y} _.
Arguments mi_inv {s0 tr s log y} _.
Arguments mi_ok {s0 tr s log y} _ {t c p} _.
Arguments mi_phase {s0 tr s log y} _ {t c p} _.
Arguments mi_known {s0 tr s log y} _ {t c r} _.
Arguments mi_readers {s0 tr s log y} _ {t} _.
Arguments mi_shared {s0 tr s log y} _.

(** ** Preservation *)

Implicit Types (log : list entry) (tr : list label) (x y : S).

Lemma taken_app tr tr' : taken (tr ++ tr') = taken tr ++ taken tr'.
Proof. apply omap_app. Qed.

Lemma taken_quiet tr l : (∀ t, l ≠ LTake t) → taken (tr ++ [l]) = taken tr.
Proof.
  intros Hl. rewrite taken_app. destruct l as [t c|t|t r|]; cbn; rewrite ?app_nil_r; [done| |done|done].
  by destruct (Hl t).
Qed.

Lemma taken_take tr t : taken (tr ++ [LTake t]) = taken tr ++ [t].
Proof. by rewrite taken_app. Qed.

(** The call that moves is the one that was there. *)
Lemma same_call s t c p : threads s !! t = Some (c, p) → ∀ z, threads s !! t = Some z → z.1 = c.
Proof. by intros -> z [= <-]. Qed.

(** What a call inside relies on: the fields and the lock stay as it saw them. *)
Definition undisturbed s x (wr : option nat) (rd : gset nat) (t : nat) (m : mode) : Prop :=
  x = shared s ∧ wr = writer s ∧ match m with Rd => t ∈ rd | Wr => rd = ∅ end.

(** A call that did not move. *)
Lemma phase_frame log log' s x wr rd t c p :
  phase_ok log (shared s) (writer s) (readers s) t c p → (∀ e, e ∈ log → e ∈ log') →
  (p = Started → t ∉ log'.*1) → (∀ m k, p = Inside m k → undisturbed s x wr rd t m) →
  phase_ok log' x wr rd t c p.
Proof.
  intros Hp Hlog Hst Hin. destruct p as [|m k|r|r]; cbn [phase_ok] in *; [auto| |auto|auto].
  destruct (Hin m k eq_refl) as (-> & -> & Hrd). destruct m; naive_solver.
Qed.

(** One call moves: what remains to show is the new phase, that calls inside are not
    disturbed, and the state of the lock. *)
Lemma minv_move s0 tr l s log log' y y' t c p x wr rd :
  minv s0 tr s log y → lo_ok c → (∀ z, threads s !! t = Some z → z.1 = c) →
  log'.*1 = taken (tr ++ [l]) → NoDup log'.*1 →
  sequential (hist_calls log') (lo_abs s0) = (hist_results log', lo_abs y') → lo_inv y' →
  (∀ e, e ∈ log → e ∈ log') → (∀ t' z, (t', z) ∈ log' → (t' = t ∧ z.1 = c) ∨ (t', z) ∈ log) →
  phase_ok log' x wr rd t c p →
  (∀ t', t' ∈ rd → t' = t ∧ (∃ k, p = Inside Rd k) ∨ t' ≠ t ∧ t' ∈ readers s) →
  (∀ t' c' m k, t' ≠ t → threads s !! t' = Some (c', Inside m k) → undisturbed s x wr rd t' m) →
  when_done (move s t c p) wr x y' →
  minv s0 (tr ++ [l]) (mkM x wr rd (move s t c p)) log' y'.
Proof.
  intros Hi Hc Hold Horder Hnd Hseq Hinv Hsub Hnew Hp Hrds Hfr Hsh. unfold move in *.
  split; cbn [threads shared writer readers]; [done|done|done|done| | | | |done].
  - intros t' c' p'. rewrite lookup_insert. case_decide as E; [by intros [= <- _]|]. apply (mi_ok Hi).
  - intros t' c' p'. rewrite lookup_insert. case_decide as E; [subst; by intros [= <- <-]|]. intros Ht'.
    pose proof (mi_phase Hi Ht') as Hp'. apply (phase_frame log log' s x wr rd t' c' p' Hp' Hsub).
    + intros -> ([t1 z] & -> & [[? _]|Hin]%Hnew)%list_elem_of_fmap; [done|].
      apply Hp', (list_elem_of_fmap_2 fst _ _ Hin).
    + intros m k ->. apply (Hfr t' c' m k); [congruence|done].
  - intros t' c' r' [[-> Hz]|Hin]%Hnew; rewrite lookup_insert.
    { rewrite decide_True by done. cbn in Hz. subst. eauto. }
    destruct (mi_known Hi Hin) as [p' Hp']. case_decide; [|eauto].
    subst. apply Hold in Hp' as <-. eauto.
  - intros t' [[-> [k ->]]|[Hne Hin]]%Hrds; [rewrite lookup_insert_eq; eauto|].
    rewrite lookup_insert_ne by done. by apply (mi_readers Hi).
Qed.

Lemma NoDup_snoc {B} (l : list B) (b : B) : NoDup l → b ∉ l → NoDup (l ++ [b]).
Proof. intros Hl Hb. apply NoDup_app. split_and!; [done|set_solver|apply NoDup_singleton]. Qed.

(** The history grows by the call that takes effect. *)
Lemma log_snoc s0 tr s log y t c r y' :
  minv s0 tr s log y → lo_spec c (lo_abs y) = (r, lo_abs y') →
  let log' := log ++ [(t, (c, r))] in
  sequential (hist_calls log') (lo_abs s0) = (hist_results log', lo_abs y').
Proof.
  intros Hi Hspec log'. unfold log', hist_calls, hist_results. rewrite !fmap_app.
  by apply (sequential_snoc _ _ _ _ (lo_abs y)); [apply (mi_seq Hi)|].
Qed.

Lemma log_snoc_fst log t (e : C * R) : (log ++ [(t, e)]).*1 = log.*1 ++ [t].
Proof. by rewrite fmap_app. Qed.

Lemma log_snoc_new log t (e : C * R) t' z :
  (t', z) ∈ log ++ [(t, e)] → (t' = t ∧ z.1 = e.1) ∨ (t', z) ∈ log.
Proof. rewrite elem_of_app, list_elem_of_singleton. naive_solver. Qed.

(** The calls inside, as long as neither fields nor lock change. *)
Lemma inside_kept s0 tr s log y t' c' m k :
  minv s0 tr s log y → threads s !! t' = Some (c', Inside m k) →
  undisturbed s (shared s) (writer s) (readers s) t' m.
Proof.
  intros Hi Ht. destruct (mi_phase Hi Ht) as [_ Hm].
  split; [done|]. split; [done|]. destruct m; apply Hm.
Qed.

(** While one call holds the lock for writing no other is inside. *)
Lemma alone_inside s0 tr s log y t t' c' m k :
  minv s0 tr s log y → writer s = Some t → t' ≠ t → threads s !! t' ≠ Some (c', Inside m k).
Proof.
  intros Hi Hw Hne Ht. destruct (mi_phase Hi Ht) as [_ Hm]. destruct m; naive_solver congruence.
Qed.

Lemma nobody_inside s0 tr s log y t' c' m k :
  minv s0 tr s log y → writer s = None → readers s = ∅ → threads s !! t' ≠ Some (c', Inside m k).
Proof.
  intros Hi Hw Hr Ht. destruct (mi_phase Hi Ht) as [_ Hm]. destruct m; [set_solver|naive_solver congruence].
Qed.

(** Without a writer the calls inside are readers. *)
Lemma only_readers s0 tr s log y t' c' m k :
  minv s0 tr s log y → writer s = None → threads s !! t' = Some (c', Inside m k) →
  m = Rd ∧ t' ∈ readers s.
Proof.
  intros Hi Hw Ht. destruct (mi_phase Hi Ht) as [_ Hm]. destruct m; naive_solver congruence.
Qed.

(** The writer is still inside when another call moves. *)
Lemma writer_kept s0 tr s log y t c p :
  minv s0 tr s log y → (∀ c' k, threads s !! t ≠ Some (c', Inside Wr k)) →
  when_done (move s t c p) (writer s) (shared s) y.
Proof.
  intros Hi Ht. pose proof (mi_shared Hi) as Hs. unfold when_done in *.
  destruct (writer s) as [w|]; [|done]. destruct Hs as (c' & k & r & Hw & Hr).
  exists c', k, r. unfold move. rewrite lookup_insert_ne; [done|]. intros ->. by destruct (Ht c' k).
Qed.

(** Steps that change neither the history nor the fields nor the lock. *)
Lemma minv_quiet s0 tr l s log y t c p :
  minv s0 tr s log y → lo_ok c → (∀ z, threads s !! t = Some z → z.1 = c) → (∀ t', l ≠ LTake t') →
  (∀ c' k, threads s !! t ≠ Some (c', Inside Wr k)) →
  (∀ c' k, threads s !! t = Some (c', Inside Rd k) → ∃ k', p = Inside Rd k') →
  phase_ok log (shared s) (writer s) (readers s) t c p →
  minv s0 (tr ++ [l]) (mkM (shared s) (writer s) (readers s) (move s t c p)) log y.
Proof.
  intros Hi Hc Hold Ht Hnw Hrd Hp.
  apply (minv_move s0 tr l s log log y y);
    [done|done|done|by rewrite taken_quiet; [apply Hi|]|apply Hi..|done|auto|done| | |].
  - intros t' Hin. destruct (decide (t' = t)) as [->|]; [|by right].
    destruct (mi_readers Hi Hin) as (c' & k & Hk). left. eauto.
  - intros t' c' m k _. by apply (inside_kept s0 tr s log y).
  - by eapply writer_kept.
Qed.

(** A call takes effect while the fields stay as they are. *)
Lemma minv_take s0 tr s log y t c p wr rd :
  minv s0 tr s log y → threads s !! t = Some (c, Started) →
  (∀ log' r y', plan_run (lo_plan c) y = Ret (r, y') → (t, (c, r)) ∈ log' →
     phase_ok log' (shared s) wr rd t c p ∧ when_done (move s t c p) wr (shared s) y') →
  (∀ t', t' ∈ rd → t' = t ∧ (∃ k, p = Inside Rd k) ∨ t' ∈ readers s) →
  (∀ t' c' m k, t' ≠ t → threads s !! t' = Some (c', Inside m k) → undisturbed s (shared s) wr rd t' m) →
  ∃ log' y', minv s0 (tr ++ [LTake t]) (mkM (shared s) wr rd (move s t c p)) log' y'.
Proof.
  intros Hi Ht Hnew Hrds Hfr. pose proof (mi_ok Hi Ht) as Hc.
  destruct (lo_correct c y (mi_inv Hi) Hc) as (r & y' & Hrun & Hspec & Hinv).
  pose proof (log_snoc s0 tr s log y t c r y' Hi Hspec) as Hseq.
  destruct (Hnew (log ++ [(t, (c, r))]) r y' Hrun) as [Hp Hcm]; [set_solver|].
  exists (log ++ [(t, (c, r))]), y'.
  apply (minv_move s0 tr (LTake t) s log _ y y' t c p _ _ _ Hi Hc);
    [by eapply same_call| | |exact Hseq|exact Hinv|set_solver|apply log_snoc_new|exact Hp| |exact Hfr|exact Hcm].
  - by rewrite log_snoc_fst, taken_take, (mi_order Hi).
  - rewrite log_snoc_fst. apply NoDup_snoc; [apply Hi|]. apply (mi_phase Hi Ht).
  - intros t' [Ht'|Ht']%Hrds; [by left|right]. split; [|done]. intros ->.
    destruct (mi_readers Hi Ht') as (c' & k & Hk). congruence.
Qed.

(** A step of the writer inside the lock, or out of it. *)
Lemma minv_writer s0 tr s log y t c k p x wr :
  minv s0 tr s log y → threads s !! t = Some (c, Inside Wr k) →
  (∃ write next, k = Access write next ∧ wr = Some t ∧ p = Inside Wr (next (shared s)) ∧
     x = write (shared s)) ∨
  (∃ r, k = Done r ∧ wr = None ∧ p = Finished r ∧ x = shared s) →
  minv s0 (tr ++ [LTau]) (mkM x wr (readers s) (move s t c p)) log y.
Proof.
  intros Hi Ht Hcase. destruct (mi_phase Hi Ht) as [(r & y1 & Hrun & Hin) [Hw Hrd]].
  assert (y1 = y) as ->.
  { pose proof (mi_shared Hi) as Hs. rewrite Hw in Hs. destruct Hs as (c' & k' & r' & Hk' & Hrun').
    rewrite Ht in Hk'. injection Hk' as <- <-. congruence. }
  apply (minv_move s0 tr _ s log log y y _ _ _ _ _ _ Hi (mi_ok Hi Ht) (same_call _ _ _ _ Ht));
    [by rewrite taken_quiet; [apply Hi|]|apply Hi..|done|auto| |set_solver| |].
  - destruct Hcase as [(write & next & -> & -> & -> & ->)|(r' & -> & -> & -> & ->)]; cbn in *; [by eauto 7|].
    unfold ret in Hrun. by simplify_eq.
  - intros t' c' m k' Hne Ht'. by destruct (alone_inside _ _ _ _ _ _ _ _ _ _ Hi Hw Hne Ht').
  - destruct Hcase as [(write & next & -> & -> & -> & ->)|(r' & -> & -> & -> & ->)]; cbn in *.
    + eexists _, _, _. unfold move. by rewrite lookup_insert_eq.
    + unfold ret in Hrun. by simplify_eq.
Qed.

(** A reader leaves. *)
Lemma minv_runlock s0 tr s log y t c r :
  minv s0 tr s log y → threads s !! t = Some (c, Inside Rd (Done r)) →
  minv s0 (tr ++ [LTau]) (mkM (shared s) (writer s) (readers s ∖ {[t]}) (move s t c (Finished r))) log y.
Proof.
  intros Hi Ht. destruct (mi_phase Hi Ht) as [(r' & y1 & [= -> <-] & Hin) (_ & Hrd & Hw)].
  apply (minv_move s0 tr _ s log log y y _ _ _ _ _ _ Hi (mi_ok Hi Ht) (same_call _ _ _ _ Ht));
    [by rewrite taken_quiet; [apply Hi|]|apply Hi..|done|auto|done|set_solver| |].
  - intros t' c' m k' Hne Ht'. split; [done|]. split; [done|].
    destruct (only_readers _ _ _ _ _ _ _ _ _ Hi Hw Ht') as [-> ?]. set_solver.
  - eapply writer_kept; [done|]. congruence.
Qed.

(** Taking the lock for reading, and for writing. *)
Lemma minv_rlock s0 tr s log y t c k :
  minv s0 tr s log y → threads s !! t = Some (c, Started) → lo_plan c = Locked Rd k → writer s = None →
  ∃ log' y', minv s0 (tr ++ [LTake t])
    (mkM (shared s) None ({[t]} ∪ readers s) (move s t c (Inside Rd k))) log' y'.
Proof.
  intros Hi Ht Hpl Hw. pose proof (mi_shared Hi) as Hs. rewrite Hw in Hs. cbn in Hs.
  pose proof (lo_reads c) as Hro. rewrite Hpl in Hro. cbn in Hro.
  apply (minv_take s0 tr s log y t c _ _ _ Hi Ht).
  - intros log' r y'. rewrite Hpl. cbn [plan_run]. intros Hrun Hin. split.
    + cbn. rewrite Hs. split; [eauto|]. set_solver.
    + cbn. rewrite (run_read_only k y r y' Hro Hrun). done.
  - set_solver.
  - intros t' c' m k' _ Ht'. destruct (only_readers _ _ _ _ _ _ _ _ _ Hi Hw Ht') as [-> ?].
    split; [done|]. split; [done|set_solver].
Qed.

Lemma minv_lock s0 tr s log y t c k :
  minv s0 tr s log y → threads s !! t = Some (c, Started) → lo_plan c = Locked Wr k →
  writer s = None → readers s = ∅ →
  ∃ log' y', minv s0 (tr ++ [LTake t]) (mkM (shared s) (Some t) ∅ (move s t c (Inside Wr k))) log' y'.
Proof.
  intros Hi Ht Hpl Hw Hr. pose proof (mi_shared Hi) as Hs. rewrite Hw in Hs. cbn in Hs.
  apply (minv_take s0 tr s log y t c _ _ _ Hi Ht).
  - intros log' r y'. rewrite Hpl. cbn [plan_run]. intros Hrun Hin. rewrite Hs. split; [cbn; eauto 7|].
    unfold when_done, move. exists c, k, r. by rewrite lookup_insert_eq.
  - set_solver.
  - intros t' c' m k' _ Ht'. by destruct (nobody_inside _ _ _ _ _ _ _ _ _ Hi Hw Hr Ht').
Qed.

(** A call that needs no lock. *)
Lemma minv_immediate s0 tr s log y t c r :
  minv s0 tr s log y → threads s !! t = Some (c, Started) → lo_plan c = Immediate r →
  ∃ log' y', minv s0 (tr ++ [LTake t])
    (mkM (shared s) (writer s) (readers s) (move s t c (Finished r))) log' y'.
Proof.
  intros Hi Ht Hpl. apply (minv_take s0 tr s log y t c _ _ _ Hi Ht).
  - intros log' r' y'. rewrite Hpl. intros [= <- <-] Hin. split; [done|].
    eapply writer_kept; [done|]. congruence.
  - auto.
  - intros t' c' m k _ Ht'. apply (inside_kept _ _ _ _ _ _ _ _ _ Hi Ht').
Qed.

Lemma mstep_inv s0 tr s log y l s' :
  minv s0 tr s log y → mstep s l s' → ∃ log' y', minv s0 (tr ++ [l]) s' log' y'.
Proof.
  intros Hi Hstep. destruct Hstep as [t c Ht Hc|t c r Ht Hpl|t c k Ht Hpl Hw|t c k Ht Hpl Hw Hr
    |t c m write next Ht|t c r Ht|t c r Ht|t c r Ht].
  - exists log, y. apply minv_quiet; [done|done|congruence|done|congruence|congruence|].
    cbn. intros ([t1 [c1 r1]] & -> & Hin)%list_elem_of_fmap. destruct (mi_known Hi Hin). cbn in *. congruence.
  - by apply (minv_immediate s0 tr s log y).
  - by apply (minv_rlock s0 tr s log y).
  - by apply (minv_lock s0 tr s log y).
  - exists log, y. destruct m; destruct (mi_phase Hi Ht) as [(r & y1 & Hrun & Hin) Hm].
    + destruct Hm as ([Hid Hro] & Hrd & Hw). cbn in Hrun. rewrite Hid in Hrun |- *.
      apply minv_quiet; [done|by eapply (mi_ok Hi)|by eapply same_call|done|congruence|eauto|].
      split; eauto.
    + destruct Hm as (Hw & _). rewrite Hw. eapply minv_writer; [done|done|left]. by eexists _, _.
  - exists log, y. by apply minv_runlock.
  - exists log, y. eapply minv_writer; [done|done|right]. by eexists.
  - exists log, y. apply minv_quiet;
      [done|by eapply (mi_ok Hi)|by eapply same_call|done|congruence|congruence|apply (mi_phase Hi Ht)].
Qed.

(** ** Executions *)

Lemma minv_initial s0 : lo_inv s0 → minv s0 [] (m_initial s0) [] s0.
Proof.
  intros Hs. split; try done; cbn [m_initial threads]; try constructor; intros; try done; set_solver.
Qed.

Lemma mexec_inv s0 tr s : lo_inv s0 → exec (m_initial s0) tr s → ∃ log y, minv s0 tr s log y.
Proof.
  intros Hs He. induction He as [|tr s1 l s2 _ (log & y & Hi) Hstep]; [eauto using minv_initial|].
  by eapply mstep_inv.
Qed.

Lemma exec_app s tr tr' s2 : exec s (tr ++ tr') s2 → ∃ s1, exec s tr s1 ∧ exec s1 tr' s2.
Proof.
  revert s2. induction tr' as [|l tr' IH] using rev_ind; intros s2 He.
  { rewrite app_nil_r in He. eauto using exec_nil. }
  rewrite (assoc_L (++)) in He. inversion He as [E|tr1 s1 l' s2' He1 Hstep E]; [by destruct (tr ++ tr')|].
  apply app_inj_tail in E as [-> ->]. destruct (IH _ He1) as (s' & Ha & Hb). eauto using exec_snoc.
Qed.

Lemma exec_cons s l s1 tr s2 : mstep s l s1 → exec s1 tr s2 → exec s (l :: tr) s2.
Proof.
  intros Hl He. induction He as [|tr s2 l' s3 _ IH Hstep].
  - apply (exec_snoc _ [] s); [apply exec_nil|done].
  - rewrite app_comm_cons. by eapply exec_snoc.
Qed.

(** *** A scheduler, to run executions *)

Inductive turn := TCall (t : nat) (c : C) | TGo (t : nat).

Definition mnext (s : mstate) (h : turn) : option (label * mstate) :=
  match h with
  | TCall t c =>
      match threads s !! t with
      | None => Some (LCall t c, mkM (shared s) (writer s) (readers s) (move s t c Started))
      | Some _ => None
      end
  | TGo t =>
      match threads s !! t with
      | Some (c, Started) =>
          match lo_plan c, writer s with
          | Immediate r, _ => Some (LTake t, mkM (shared s) (writer s) (readers s) (move s t c (Finished r)))
          | Locked Rd k, None =>
              Some (LTake t, mkM (shared s) None ({[t]} ∪ readers s) (move s t c (Inside Rd k)))
          | Locked Wr k, None =>
              if decide (readers s = ∅)
              then Some (LTake t, mkM (shared s) (Some t) ∅ (move s t c (Inside Wr k)))
              else None
          | Locked _ _, Some _ => None
          end
      | Some (c, Inside m (Access write next)) =>
          Some (LTau, mkM (write (shared s)) (writer s) (readers s) (move s t c (Inside m (next (shared s)))))
      | Some (c, Inside Rd (Done r)) =>
          Some (LTau, mkM (shared s) (writer s) (readers s ∖ {[t]}) (move s t c (Finished r)))
      | Some (c, Inside Wr (Done r)) => Some (LTau, mkM (shared s) None (readers s) (move s t c (Finished r)))
      | Some (c, Finished r) =>
          Some (LReturn t r, mkM (shared s) (writer s) (readers s) (move s t c (Returned r)))
      | _ => None
      end
  end.

Fixpoint schedule (s : mstate) (hs : list turn) : option (list label * mstate) :=
  match hs with
  | [] => Some ([], s)
  | h :: hs' =>
      '(l, s1) ← mnext s h;
      '(tr, s2) ← schedule s1 hs';
      Some (l :: tr, s2)
  end.

Definition turn_ok (h : turn) : Prop := match h with TCall _ c => lo_ok c | TGo _ => True end.

Lemma mnext_step s h l s' : turn_ok h → mnext s h = Some (l, s') → mstep s l s'.
Proof.
  destruct h as [t c|t]; cbn [mnext turn_ok]; intros Hh.
  { destruct (threads s !! t) eqn:Ht; [done|]. intros [= <- <-]. by constructor. }
  destruct (threads s !! t) as [[c [|[] [r|msg|write next]|r|r]]|] eqn:Ht; try done;
    try (intros [= <- <-]; by econstructor).
  destruct (lo_plan c) as [r|[] k] eqn:Hp; [intros [= <- <-]; by econstructor|..];
    destruct (writer s) eqn:Hw; try done; [|case_decide; [|done]]; intros [= <- <-]; by econstructor.
Qed.

Lemma schedule_exec s hs tr s' : Forall turn_ok hs → schedule s hs = Some (tr, s') → exec s tr s'.
Proof.
  intros Hhs. revert s tr. induction Hhs as [|h hs Hh _ IH]; intros s tr; cbn [schedule].
  { intros [= <- <-]. apply exec_nil. }
  destruct (mnext s h) as [[l s1]|] eqn:E1; cbn; [|done].
  destruct (schedule s1 hs) as [[tr1 s2]|] eqn:E2; cbn; [|done]. intros [= <- <-].
  eapply exec_cons; [by eapply mnext_step|by apply IH].
Qed.

(** The call of thread [t] and its result, once it has returned. *)
Definition returned_call (s : mstate) (t : nat) : option (C * R) :=
  match threads s !! t with Some (c, Returned r) => Some (c, r) | _ => None end.

(** The execution a schedule gives; none if a turn cannot be taken. *)
Definition scheduled (s : mstate) (hs : list turn) : list label * mstate := default ([], s) (schedule s hs).

Lemma scheduled_exec s hs : Forall turn_ok hs → exec s (scheduled s hs).1 (scheduled s hs).2.
Proof.
  intros Hhs. unfold scheduled. destruct (schedule s hs) as [[tr s']|] eqn:E; cbn; [|apply exec_nil].
  by eapply schedule_exec.
Qed.

(** The labels tell of the threads. *)
Lemma exec_threads s0 tr s :
  exec (m_initial s0) tr s →
  (∀ t c p, threads s !! t = Some (c, p) → LCall t c ∈ tr) ∧
  (∀ t r, LReturn t r ∈ tr → ∃ c, threads s !! t = Some (c, Returned r)).
Proof.
  induction 1 as [|tr s1 l s2 _ [IH1 IH2] Hstep]; [split; [done|set_solver]|]. split.
  - intros t c p Ht. rewrite elem_of_app, list_elem_of_singleton.
    destruct Hstep; cbn [threads] in Ht; unfold move in Ht; rewrite lookup_insert in Ht;
      case_decide; naive_solver.
  - intros t r. rewrite elem_of_app, list_elem_of_singleton. intros [Hin|Hl].
    + destruct (IH2 t r Hin) as [c Hc].
      destruct Hstep; cbn [threads]; unfold move; rewrite lookup_insert; case_decide; naive_solver congruence.
    + destruct Hstep; try done. injection Hl as -> ->. eexists. cbn [threads].
      unfold move. by rewrite lookup_insert_eq.
Qed.

(** ** Progress *)

(** A call that has not returned. *)
Definition unreturned s : Prop := ∃ t c p, threads s !! t = Some (c, p) ∧ ∀ r, p ≠ Returned r.

(** A call inside the lock can go on: its body does not panic. *)
Lemma inside_moves s0 tr s log y t c m k :
  minv s0 tr s log y → threads s !! t = Some (c, Inside m k) → ∃ l s', mstep s l s'.
Proof.
  intros Hi Ht. destruct (mi_phase Hi Ht) as [(r & y1 & Hrun & _) _].
  destruct k as [r'|msg|write next]; [destruct m|done|]; eauto using m_access, m_runlock, m_unlock.
Qed.

(** The lock never blocks for good: as long as a call has not returned, some call can
    move. *)
Lemma no_deadlock s0 tr s :
  lo_inv s0 → exec (m_initial s0) tr s → unreturned s → ∃ l s', mstep s l s'.
Proof.
  intros Hs He (t & c & p & Ht & Hp). destruct (mexec_inv _ _ _ Hs He) as (log & y & Hi).
  destruct p as [|m k|r|r]; [|by eapply inside_moves|eauto using m_return|by destruct (Hp r)].
  destruct (lo_plan c) as [r|m k] eqn:Hpl; [eauto using m_immediate|].
  pose proof (mi_shared Hi) as Hsh. destruct (writer s) as [w|] eqn:Hw.
  { destruct Hsh as (c' & k' & r & Hk' & _). by eapply inside_moves. }
  destruct m; [eauto using m_rlock|].
  destruct (decide (readers s = ∅)) as [|[t1 Ht1]%set_choose_L]; [eauto using m_lock|].
  destruct (mi_readers Hi Ht1) as (c1 & k1 & Hk1). by eapply inside_moves.
Qed.

(** Two calls are inside together only to read. *)
Lemma lock_excludes s0 tr s t c k t' c' m' k' :
  lo_inv s0 → exec (m_initial s0) tr s →
  threads s !! t = Some (c, Inside Wr k) → threads s !! t' = Some (c', Inside m' k') → t' = t.
Proof.
  intros Hs He Ht Ht'. destruct (mexec_inv _ _ _ Hs He) as (log & y & Hi).
  destruct (mi_phase Hi Ht) as [_ [Hw _]]. destruct (decide (t' = t)) as [|Hne]; [done|].
  by destruct (alone_inside _ _ _ _ _ _ _ _ _ _ Hi Hw Hne Ht').
Qed.

(** ** Linearizability *)

Definition precedes {B} (l : list B) (b b' : B) : Prop := ∃ l1 l2 l3, l = l1 ++ b :: l2 ++ b' :: l3.

(** A sequential execution [log] of the specification that explains a concurrent one:
    every call that returned is in it with the result it returned, it contains only calls
    that were made, its end state is the object's whenever no writer is inside, and a call
    that began after another had returned comes after it. *)
Record linearizes (s0 : S) tr s log : Prop := {
  lin_once : NoDup log.*1;
  lin_legal : ∃ y, sequential (hist_calls log) (lo_abs s0) = (hist_results log, lo_abs y) ∧
    lo_inv y ∧ (writer s = None → shared s = y);
  lin_calls t c r : (t, (c, r)) ∈ log → LCall t c ∈ tr ∧ lo_ok c;
  lin_returns t c r : threads s !! t = Some (c, Returned r) → (t, (c, r)) ∈ log;
  lin_results t r : LReturn t r ∈ tr → ∃ c, (t, (c, r)) ∈ log;
  lin_order tr1 tr2 t r t' c' :
    tr = tr1 ++ LReturn t r :: tr2 → LCall t' c' ∈ tr2 → t' ∈ log.*1 → precedes log.*1 t t';
}.

(** The order of the lock respects real time. *)
Lemma real_time s0 tr1 tr2 s t r t' c' :
  lo_inv s0 → exec (m_initial s0) (tr1 ++ LReturn t r :: tr2) s → LCall t' c' ∈ tr2 →
  t' ∈ taken (tr1 ++ LReturn t r :: tr2) → precedes (taken (tr1 ++ LReturn t r :: tr2)) t t'.
Proof.
  intros Hs He (x & y & ->)%list_elem_of_split Hin. rewrite cons_middle, (assoc_L (++)) in He.
  destruct (exec_app _ _ _ _ He) as (s1 & He1 & _).
  assert (t ∈ taken tr1) as Ht.
  { destruct (mexec_inv _ _ _ Hs He1) as (log1 & a1 & Hi1).
    destruct (proj2 (exec_threads _ _ _ He1) t r) as [c Hc]; [set_solver|].
    pose proof (mi_phase Hi1 Hc) as Hlog. cbn in Hlog.
    apply (list_elem_of_fmap_2 fst) in Hlog. rewrite (mi_order Hi1), taken_quiet in Hlog; done. }
  assert (t' ∉ taken ((tr1 ++ [LReturn t r]) ++ x)) as Hx.
  { rewrite (cons_middle (LCall t' c')), !(assoc_L (++)) in He.
    destruct (exec_app _ _ _ _ He) as (s3 & He3 & _).
    inversion He3 as [E|tr3 s2 l s3' He2 Hstep E]; [by apply app_cons_not_nil in E|].
    apply app_inj_tail in E as [-> ->]. inversion Hstep as [? ? Hnone| | | | | | |]; subst.
    destruct (mexec_inv _ _ _ Hs He2) as (log2 & a2 & Hi2). rewrite <- (mi_order Hi2).
    intros ([t1 [c1 r1]] & -> & Hin2)%list_elem_of_fmap. destruct (mi_known Hi2 Hin2).
    cbn in *. congruence. }
  rewrite !taken_app in *. cbn [taken omap list_omap] in *. fold (taken (x ++ LCall t' c' :: y)) in *.
  rewrite taken_app in *. cbn [taken omap list_omap] in *. fold (taken y) in *.
  assert (t' ∈ taken y) as (y1 & y2 & ->)%list_elem_of_split by set_solver.
  apply list_elem_of_split in Ht as (l1 & l2 & ->). exists l1, (l2 ++ taken x ++ y1), y2.
  by rewrite <- !(assoc_L (++)).
Qed.

Lemma locked_linearizable s0 tr s :
  lo_inv s0 → exec (m_initial s0) tr s → ∃ log, linearizes s0 tr s log.
Proof.
  intros Hs He. destruct (mexec_inv _ _ _ Hs He) as (log & y & Hi).
  destruct (exec_threads _ _ _ He) as [Hcalls Hret]. exists log. split.
  - apply Hi.
  - exists y. split; [apply Hi|]. split; [apply Hi|]. intros Hw.
    pose proof (mi_shared Hi) as Hsh. by rewrite Hw in Hsh.
  - intros t c r [p Hp]%(mi_known Hi). split; [by eapply Hcalls|by eapply (mi_ok Hi)].
  - intros t c r Ht. apply (mi_phase Hi Ht).
  - intros t r [c Hc]%Hret. exists c. apply (mi_phase Hi Hc).
  - intros tr1 tr2 t r t' c' -> Hc Hin. rewrite (mi_order Hi) in *. by eapply real_time.
Qed.
End Threads.
Arguments mstate S C R : clear implicits.
Arguments label C R : clear implicits.
Arguments entry C R : clear implicits.
Arguments phase S R : clear implicits.
Arguments turn C : clear implicits.
