(* ===== verification/Wire.v ===== *)
(** * The protobuf wire format

    The published encoding of protobuf messages, as far as the messages of this program
    and the descriptors in the generated files use it: a message is a sequence of tagged
    fields; proto3 leaves out a field with its zero value, packs repeated numbers and
    wants strings in UTF-8; a reader skips fields it does not know and lets the last
    occurrence of a field win.

    The generated files carry their schema in this format ([Descriptor]), and it
    instantiates the codec parameters of the model ([RaftLib.Proto], [Rpc.ProtoWire]). *)

From S2P Require Import Prelude GoBinary.
Local Open Scope Z_scope.

(** ** Tagged fields *)

(** The payload of a field: wire types 0, 1, 2 and 5. The deprecated groups (3 and 4) do
    not occur in proto3. *)
Inductive wire_value :=
  | WVarint (n : Z)
  | WFixed64 (b : list byte)
  | WBytes (b : list byte)
  | WFixed32 (b : list byte).

Definition wire_type (v : wire_value) : Z :=
  match v with WVarint _ => 0 | WFixed64 _ => 1 | WBytes _ => 2 | WFixed32 _ => 5 end.

Definition MaxFieldNumber : Z := 2 ^ 29 - 1.

Definition varint (x : Z) : list byte := AppendUvarint [] x.

Definition append_payload (v : wire_value) : list byte :=
  match v with
  | WVarint n => varint n
  | WBytes b => varint (Z.of_nat (length b)) ++ b
  | WFixed64 b | WFixed32 b => b
  end.

Definition append_field (f : Z * wire_value) : list byte :=
  varint (8 * f.1 + wire_type f.2) ++ append_payload f.2.

Definition append_fields (fs : list (Z * wire_value)) : list byte := concat (append_field <$> fs).

(** A varint at the front of a buffer, and the rest. *)
Definition consume_varint (b : list byte) : option (Z * list byte) :=
  let '(x, n) := Uvarint b in
  if decide (0 < n) then Some (x, drop (Z.to_nat n) b) else None.

Definition consume_bytes (n : Z) (b : list byte) : option (list byte * list byte) :=
  if decide (n ≤ Z.of_nat (length b)) then Some (take (Z.to_nat n) b, drop (Z.to_nat n) b) else None.

Definition consume_payload (typ : Z) (b : list byte) : option (wire_value * list byte) :=
  if decide (typ = 0) then prod_map WVarint id <$> consume_varint b
  else if decide (typ = 1) then prod_map WFixed64 id <$> consume_bytes 8 b
  else if decide (typ = 2) then
    consume_varint b ≫= λ '(n, b'), prod_map WBytes id <$> consume_bytes n b'
  else if decide (typ = 5) then prod_map WFixed32 id <$> consume_bytes 4 b
  else None.

Definition consume_field (b : list byte) : option ((Z * wire_value) * list byte) :=
  consume_varint b ≫= λ '(tag, b'),
  let num := tag / 8 in
  if decide (1 ≤ num ≤ MaxFieldNumber) then prod_map (pair num) id <$> consume_payload (tag mod 8) b'
  else None.

(** Every field takes a byte, so the length of the buffer bounds the number of turns. *)
Fixpoint consume_fields_loop (fuel : nat) (b : list byte) : option (list (Z * wire_value)) :=
  match b, fuel with
  | [], _ => Some []
  | _, O => None
  | _, S fuel' =>
      consume_field b ≫= λ '(f, b'), cons f <$> consume_fields_loop fuel' b'
  end.

Definition consume_fields (b : list byte) : option (list (Z * wire_value)) :=
  consume_fields_loop (length b) b.

(** Fields that a buffer can hold. *)
Definition wire_value_ok (v : wire_value) : Prop :=
  match v with
  | WVarint n => u64 n
  | WBytes b => Z.of_nat (length b) < 2 ^ 63
  | WFixed64 b => length b = 8%nat
  | WFixed32 b => length b = 4%nat
  end.
Definition wire_field_ok (f : Z * wire_value) : Prop :=
  1 ≤ f.1 ≤ MaxFieldNumber ∧ wire_value_ok f.2.

(** *** Reading back *)

Lemma consume_varint_app x rest : u64 x → consume_varint (varint x ++ rest) = Some (x, rest).
Proof.
  intros Hx. unfold consume_varint, varint. rewrite Uvarint_AppendUvarint by done.
  pose proof (AppendUvarint_length x Hx). rewrite decide_True by lia.
  by rewrite Nat2Z.id, drop_app_length.
Qed.

Lemma consume_bytes_app b rest :
  consume_bytes (Z.of_nat (length b)) (b ++ rest) = Some (b, rest).
Proof.
  unfold consume_bytes. rewrite length_app, decide_True by lia.
  by rewrite Nat2Z.id, take_app_length, drop_app_length.
Qed.

Lemma consume_payload_app v rest :
  wire_value_ok v → consume_payload (wire_type v) (append_payload v ++ rest) = Some (v, rest).
Proof.
  intros Hv. destruct v as [n|b|b|b]; cbn [append_payload wire_type wire_value_ok] in *; unfold consume_payload;
    repeat (rewrite decide_False by lia); rewrite decide_True by done.
  - by rewrite consume_varint_app.
  - pose proof (consume_bytes_app b rest) as E. rewrite Hv in E. change (Z.of_nat 8) with 8 in E. by rewrite E.
  - rewrite <- (assoc_L (++)), consume_varint_app by (unfold u64; lia). cbn.
    by rewrite consume_bytes_app.
  - pose proof (consume_bytes_app b rest) as E. rewrite Hv in E. change (Z.of_nat 4) with 4 in E. by rewrite E.
Qed.

Lemma wire_type_range v : 0 ≤ wire_type v < 8.
Proof. destruct v; cbn; lia. Qed.

Lemma consume_field_app f rest :
  wire_field_ok f → consume_field (append_field f ++ rest) = Some (f, rest).
Proof.
  destruct f as [num v]. intros [Hn Hv]. unfold consume_field, append_field, MaxFieldNumber in *. cbn [fst snd] in *.
  pose proof (wire_type_range v).
  rewrite <- (assoc_L (++)), consume_varint_app by (unfold u64; lia). cbn [mbind option_bind].
  assert ((8 * num + wire_type v) / 8 = num) as -> by (symmetry; apply (Z.div_unique_pos _ _ _ (wire_type v)); lia).
  assert ((8 * num + wire_type v) mod 8 = wire_type v) as -> by (symmetry; apply (Z.mod_unique_pos _ _ num); lia).
  rewrite decide_True by lia. by rewrite consume_payload_app.
Qed.

Lemma append_field_nonempty f : wire_field_ok f → (1 ≤ length (append_field f))%nat.
Proof.
  destruct f as [num v]. intros [Hn _]. unfold append_field, varint, MaxFieldNumber in *. cbn [fst snd] in *.
  pose proof (wire_type_range v).
  pose proof (AppendUvarint_length (8 * num + wire_type v) ltac:(unfold u64; lia)). rewrite length_app. lia.
Qed.

Lemma consume_fields_loop_append fs fuel :
  Forall wire_field_ok fs → (length (append_fields fs) ≤ fuel)%nat →
  consume_fields_loop fuel (append_fields fs) = Some fs.
Proof.
  intros Hfs. revert fuel. induction Hfs as [|f fs Hf _ IH]; intros fuel Hlen; [by destruct fuel|].
  unfold append_fields in *. cbn [fmap list_fmap concat] in *.
  pose proof (append_field_nonempty f Hf) as Hne. rewrite length_app in Hlen.
  destruct (append_field f ++ concat (append_field <$> fs)) as [|c b] eqn:E.
  { apply (f_equal length) in E. rewrite length_app in E. cbn [length] in E. lia. }
  destruct fuel as [|fuel]; [lia|]. cbn [consume_fields_loop]. rewrite <- E, consume_field_app by done.
  cbn [mbind option_bind]. by rewrite IH by lia.
Qed.

Lemma consume_append_fields fs :
  Forall wire_field_ok fs → consume_fields (append_fields fs) = Some fs.
Proof. intros. unfold consume_fields. by apply consume_fields_loop_append. Qed.

(** *** The bound of the loop *)

Lemma consume_varint_shorter b x b' :
  consume_varint b = Some (x, b') → u64 x ∧ (length b' < length b)%nat.
Proof.
  unfold consume_varint. destruct (Uvarint b) as [y n] eqn:E. case_decide as Hn; [|done]. intros [= <- <-].
  apply Uvarint_bounds in E as (Hy & ? & ?); [|done]. split; [done|]. rewrite length_drop. lia.
Qed.

Lemma consume_bytes_shorter n b c b' : consume_bytes n b = Some (c, b') → (length b' ≤ length b)%nat.
Proof. unfold consume_bytes. case_decide; [|done]. intros [= <- <-]. rewrite length_drop. lia. Qed.

Lemma consume_payload_shorter typ b v b' :
  consume_payload typ b = Some (v, b') → (length b' ≤ length b)%nat.
Proof.
  unfold consume_payload. repeat case_decide; try done.
  - intros ([x b1] & [_ ?]%consume_varint_shorter & [= -> ->])%fmap_Some. cbn. lia.
  - intros ([x b1] & ?%consume_bytes_shorter & [= -> ->])%fmap_Some. done.
  - intros ([x b1] & [_ ?]%consume_varint_shorter & ([c b2] & ?%consume_bytes_shorter & [= -> ->])%fmap_Some)%bind_Some.
    cbn. lia.
  - intros ([x b1] & ?%consume_bytes_shorter & [= -> ->])%fmap_Some. done.
Qed.

Lemma consume_field_shorter b f b' : consume_field b = Some (f, b') → (length b' < length b)%nat.
Proof.
  unfold consume_field. intros ([tag b1] & [_ ?]%consume_varint_shorter & E)%bind_Some.
  cbn in E. case_decide; [|done].
  apply fmap_Some in E as ([v b2] & E & [= -> ->]). apply consume_payload_shorter in E. cbn. lia.
Qed.

(** More turns give the same result: a refusal is never for want of turns. *)
Lemma consume_fields_loop_fuel m n b :
  (length b ≤ m)%nat → (length b ≤ n)%nat → consume_fields_loop m b = consume_fields_loop n b.
Proof.
  revert n b. induction m as [|m IH]; intros n b Hm Hn.
  - destruct b; [by destruct n|cbn [length] in *; lia].
  - destruct b as [|c b]; [by destruct n|]. destruct n as [|n]; [cbn [length] in *; lia|].
    cbn [consume_fields_loop]. destruct (consume_field (c :: b)) as [[f b']|] eqn:E; [|done].
    apply consume_field_shorter in E. cbn [mbind option_bind]. rewrite (IH n) by lia. done.
Qed.
