(* ===== verification/Proto3.v ===== *)
(** * proto3 messages on the wire

    A message is the list of its fields by number, each with a value of the kind its
    schema gives. [marshal] and [unmarshal] are the documented encoding for the kinds the
    program's messages use; [unmarshal_marshal] is the round trip for any schema with
    distinct field numbers. *)

From S2P Require Import Prelude GoBinary Wire.
Local Open Scope Z_scope.

(** ** unicode/utf8 *)

Definition byte_between (lo hi : Z) (c : byte) : bool := bool_decide (lo ≤ byte_to_Z c ≤ hi).

(** The bounds of the second byte of a sequence, by its first byte. *)
Definition second_byte (x : Z) : Z * Z :=
  if decide (x = 224) then (160, 191)
  else if decide (x = 237) then (128, 159)
  else if decide (x = 240) then (144, 191)
  else if decide (x = 244) then (128, 143)
  else (128, 191).

Definition continuation : byte → bool := byte_between 128 191.

Fixpoint utf8_Valid (b : list byte) : bool :=
  match b with
  | [] => true
  | c0 :: b1 =>
      let x := byte_to_Z c0 in
      let second c := byte_between (second_byte x).1 (second_byte x).2 c in
      if decide (x < 128) then utf8_Valid b1
      else match b1 with
      | [] => false
      | c1 :: b2 =>
          if decide (194 ≤ x ≤ 223) then second c1 && utf8_Valid b2
          else match b2 with
          | [] => false
          | c2 :: b3 =>
              if decide (224 ≤ x ≤ 239) then second c1 && continuation c2 && utf8_Valid b3
              else match b3 with
              | [] => false
              | c3 :: b4 =>
                  if decide (240 ≤ x ≤ 244)
                  then second c1 && continuation c2 && continuation c3 && utf8_Valid b4
                  else false
              end
          end
      end
  end.

(** ** Values *)

Inductive value :=
  | VUint64 (n : Z)
  | VBool (b : bool)
  | VString (s : string)
  | VBytes (b : list byte)
  | VUint64s (ns : list Z).

#[export] Instance value_eq_dec : EqDecision value.
Proof. solve_decision. Defined.

(** The value of a field that is not set. *)
Definition zero_value (v : value) : value :=
  match v with
  | VUint64 _ => VUint64 0
  | VBool _ => VBool false
  | VString _ => VString EmptyString
  | VBytes _ => VBytes []
  | VUint64s _ => VUint64s []
  end.

Definition fields : Type := list (Z * value).
Definition zero_fields (l : fields) : fields := prod_map id zero_value <$> l.

(** A Go value is a [uint64] or a slice that fits in memory ([go_value]); what is left to
    check is that a string is UTF-8 ([valid_text]). *)
Definition short (b : list byte) : bool := bool_decide (Z.of_nat (length b) < 2 ^ 63).
Definition packed (ns : list Z) : list byte := concat (varint <$> ns).
Definition is_u64 (n : Z) : bool := bool_decide (0 ≤ n < 2 ^ 64).

Definition go_value (v : value) : bool :=
  match v with
  | VUint64 n => is_u64 n
  | VBool _ => true
  | VString s => short (list_byte_of_string s)
  | VBytes b => short b
  | VUint64s ns => forallb is_u64 ns && short (packed ns)
  end.
Definition valid_text (v : value) : bool :=
  match v with VString s => utf8_Valid (list_byte_of_string s) | _ => true end.
Definition value_ok (v : value) : bool := valid_text v && go_value v.

(** The field on the wire, if it is written at all. *)
Definition encode_value (v : value) : option wire_value :=
  if decide (v = zero_value v) then None
  else Some match v with
  | VUint64 n => WVarint n
  | VBool b => WVarint (if b then 1 else 0)
  | VString s => WBytes (list_byte_of_string s)
  | VBytes b => WBytes b
  | VUint64s ns => WBytes (packed ns)
  end.

Definition encode_field (f : Z * value) : option (Z * wire_value) := pair f.1 <$> encode_value f.2.

Definition errInvalidUTF8 : error := EExternal "string field contains invalid UTF-8".
Definition errDecode : error := EExternal "cannot parse invalid wire-format data".

Definition marshal (l : fields) : result (list byte) :=
  if forallb (λ f, value_ok f.2) l then Ok (append_fields (omap encode_field l)) else Err errInvalidUTF8.

(** ** Reading *)

Fixpoint unpack_loop (fuel : nat) (b : list byte) : option (list Z) :=
  match b, fuel with
  | [], _ => Some []
  | _, O => None
  | _, S fuel' => consume_varint b ≫= λ '(x, b'), cons x <$> unpack_loop fuel' b'
  end.
Definition unpack (b : list byte) : option (list Z) := unpack_loop (length b) b.

(** A field that was read, into the value held so far; a wire type that does not fit the
    kind makes it an unknown field. *)
Definition merge_value (v : value) (w : wire_value) : result value :=
  match v, w with
  | VUint64 _, WVarint n => Ok (VUint64 n)
  | VBool _, WVarint n => Ok (VBool (bool_decide (n ≠ 0)))
  | VString _, WBytes b => if utf8_Valid b then Ok (VString (string_of_list_byte b)) else Err errInvalidUTF8
  | VBytes _, WBytes b => Ok (VBytes b)
  | VUint64s ns, WBytes b => match unpack b with Some ms => Ok (VUint64s (ns ++ ms)) | None => Err errDecode end
  | VUint64s ns, WVarint n => Ok (VUint64s (ns ++ [n]))
  | _, _ => Ok v
  end.

Fixpoint merge_field (l : fields) (f : Z * wire_value) : result fields :=
  match l with
  | [] => Ok []
  | (num, v) :: l' =>
      if decide (num = f.1) then
        match merge_value v f.2 with Ok v' => Ok ((num, v') :: l') | Err e => Err e end
      else match merge_field l' f with Ok l'' => Ok ((num, v) :: l'') | Err e => Err e end
  end.

Fixpoint merge_fields (l : fields) (fs : list (Z * wire_value)) : result fields :=
  match fs with
  | [] => Ok l
  | f :: fs' => match merge_field l f with Ok l' => merge_fields l' fs' | Err e => Err e end
  end.

(** [l] are the fields of the target after it was reset. *)
Definition unmarshal (l : fields) (b : list byte) : result fields :=
  match consume_fields b with
  | Some fs => merge_fields (zero_fields l) fs
  | None => Err errDecode
  end.

(** ** The round trip *)

Lemma unpack_packed ns : forallb is_u64 ns = true → unpack (packed ns) = Some ns.
Proof.
  intros Hns. unfold unpack. generalize (le_n (length (packed ns))). generalize (length (packed ns)) at 2 3.
  induction ns as [|n ns IH]; intros fuel Hlen; [by destruct fuel|].
  cbn [forallb] in Hns. apply andb_prop in Hns as [Hn Hns]. apply bool_decide_eq_true in Hn.
  unfold packed in *. cbn [fmap list_fmap concat] in *.
  pose proof (AppendUvarint_length n Hn) as Hne. unfold varint at 1 in Hlen. rewrite length_app in Hlen.
  destruct (varint n ++ concat (varint <$> ns)) as [|c b] eqn:E.
  { apply (f_equal length) in E. rewrite length_app in E. unfold varint at 1 in E. cbn [length] in E. lia. }
  destruct fuel as [|fuel]; [lia|]. cbn [unpack_loop]. rewrite <- E, consume_varint_app by done.
  cbn [mbind option_bind]. by rewrite IH by (done || lia).
Qed.

Lemma encode_value_None v : encode_value v = None → v = zero_value v.
Proof. unfold encode_value. case_decide; [done|discriminate]. Qed.

Lemma merge_encode_value v w :
  value_ok v = true → encode_value v = Some w → merge_value (zero_value v) w = Ok v ∧ wire_value_ok w.
Proof.
  unfold encode_value. case_decide as Hz; [done|]. intros Hok [= <-].
  unfold value_ok in Hok.
  destruct v as [n|b|s|b|ns]; cbn [go_value valid_text zero_value merge_value wire_value_ok andb] in *.
  - split; [done|]. by apply bool_decide_eq_true in Hok.
  - destruct b; [|done]. split; [done|]. unfold u64. lia.
  - apply andb_prop in Hok as [Hu Hs]. rewrite Hu, string_of_list_byte_of_string.
    split; [done|]. by apply bool_decide_eq_true in Hs.
  - split; [done|]. by apply bool_decide_eq_true in Hok.
  - apply andb_prop in Hok as [Hu Hs]. rewrite unpack_packed by done.
    split; [done|]. by apply bool_decide_eq_true in Hs.
Qed.

Lemma merge_field_app l1 l2 f :
  f.1 ∉ l1.*1 →
  merge_field (l1 ++ l2) f =
    match merge_field l2 f with Ok l2' => Ok (l1 ++ l2') | Err e => Err e end.
Proof.
  induction l1 as [|[num v] l1 IH]; intros Hf; cbn [app merge_field]; [by destruct (merge_field l2 f)|].
  cbn in Hf. apply not_elem_of_cons in Hf as [? Hf].
  rewrite decide_False by done. rewrite IH by done. by destruct (merge_field l2 f).
Qed.

(** Field numbers that a schema may use, each once. *)
Definition schema_ok (l : fields) : Prop :=
  NoDup l.*1 ∧ Forall (λ n, 1 ≤ n ≤ MaxFieldNumber) l.*1.

Lemma merge_fields_encoded l1 l2 :
  NoDup (l1 ++ l2).*1 → forallb (λ f, value_ok f.2) l2 = true →
  merge_fields (l1 ++ zero_fields l2) (omap encode_field l2) = Ok (l1 ++ l2).
Proof.
  revert l1. induction l2 as [|[num v] l2 IH]; intros l1 Hnd Hok; [done|].
  cbn [forallb] in Hok. apply andb_prop in Hok as [Hv Hok]. cbn [snd] in Hv.
  specialize (IH (l1 ++ [(num, v)])). rewrite <- !(assoc_L (++)) in IH. cbn [app] in IH.
  cbn [zero_fields fmap list_fmap omap list_omap]. fold (zero_fields l2). unfold encode_field at 1. cbn [fst snd].
  destruct (encode_value v) as [w|] eqn:E; cbn [fmap option_fmap option_map].
  - destruct (merge_encode_value v w Hv E) as [Hm _]. cbn [merge_fields].
    rewrite merge_field_app.
    + cbn [merge_field prod_map fst snd]. rewrite decide_True by done. cbn [prod_map fst snd]. rewrite Hm. by apply IH.
    + cbn. rewrite fmap_app in Hnd. apply NoDup_app in Hnd as (_ & Hd & _). intros Hin. eapply Hd; [done|]. by left.
  - apply encode_value_None in E. cbn [prod_map id fst snd]. rewrite <- E. by apply IH.
Qed.

Lemma encoded_ok l :
  Forall (λ n, 1 ≤ n ≤ MaxFieldNumber) l.*1 → forallb (λ f, value_ok f.2) l = true →
  Forall wire_field_ok (omap encode_field l).
Proof.
  induction l as [|[num v] l IH]; intros Hn Hok; [constructor|].
  cbn [fmap list_fmap fst] in Hn. apply Forall_cons in Hn as [Hnum Hn].
  cbn [forallb] in Hok. apply andb_prop in Hok as [Hv Hok]. cbn [omap list_omap]. unfold encode_field at 1. cbn [fst snd].
  destruct (encode_value v) as [w|] eqn:E; cbn [fmap option_fmap option_map]; [|by apply IH].
  constructor; [|by apply IH]. split; [done|]. by apply (merge_encode_value v w Hv E).
Qed.

Lemma merge_fields_app l fs gs :
  merge_fields l (fs ++ gs) = match merge_fields l fs with Ok l' => merge_fields l' gs | Err e => Err e end.
Proof.
  revert l. induction fs as [|f fs IH]; intros l; cbn [app merge_fields]; [done|].
  destruct (merge_field l f); [apply IH|done].
Qed.

(** Unknown fields are skipped. *)
Lemma merge_field_unknown l f : f.1 ∉ l.*1 → merge_field l f = Ok l.
Proof.
  intros Hf. rewrite <- (app_nil_r l) at 1. rewrite merge_field_app by done. cbn. by rewrite app_nil_r.
Qed.
Lemma merge_fields_unknown l fs : Forall (λ f, f.1 ∉ l.*1) fs → merge_fields l fs = Ok l.
Proof. induction 1 as [|f fs Hf _ IH]; cbn [merge_fields]; [done|]. by rewrite merge_field_unknown. Qed.

(** What was marshalled is read back, also when fields of a newer schema follow it. *)
Lemma unmarshal_marshal l t b fs :
  schema_ok l → zero_fields t = zero_fields l → marshal l = Ok b →
  Forall wire_field_ok fs → Forall (λ f, f.1 ∉ l.*1) fs → unmarshal t (b ++ append_fields fs) = Ok l.
Proof.
  intros [Hnd Hnum] Ht. unfold marshal, unmarshal. destruct (forallb _ l) eqn:Hok; [|done]. intros [= <-] Hfs Hnew.
  unfold append_fields. rewrite <- concat_app, <- fmap_app. fold (append_fields (omap encode_field l ++ fs)).
  rewrite consume_append_fields by (apply Forall_app; split; [by apply encoded_ok|done]).
  rewrite Ht, merge_fields_app. pose proof (merge_fields_encoded [] l Hnd Hok) as E. cbn [app] in E.
  rewrite E. by apply merge_fields_unknown.
Qed.

(** A Go value is refused only for its text. *)
Lemma marshal_result l :
  forallb (λ f, go_value f.2) l = true →
  if forallb (λ f, valid_text f.2) l then ∃ b, marshal l = Ok b else marshal l = Err errInvalidUTF8.
Proof.
  intros Hg. unfold marshal. enough (forallb (λ f, value_ok f.2) l = forallb (λ f, valid_text f.2) l) as ->.
  { by destruct (forallb (λ f, valid_text f.2) l); [eexists|]. }
  induction l as [|[n v] l IH]; [done|]. cbn [forallb snd] in *. apply andb_prop in Hg as [Hv Hg].
  rewrite IH by done. unfold value_ok. by rewrite Hv, andb_true_r.
Qed.

(** A message with a field set is not empty on the wire. *)
Lemma marshal_nonempty l b num v :
  schema_ok l → (num, v) ∈ l → v ≠ zero_value v → marshal l = Ok b → b ≠ [].
Proof.
  intros [Hnd Hnum] Hin Hv. unfold marshal. destruct (forallb _ l) eqn:Hok; [|done]. intros [= <-] E.
  pose proof (encoded_ok l Hnum Hok) as Hfs. pose proof (consume_append_fields _ Hfs) as Hc. rewrite E in Hc.
  injection Hc as Hc. assert (∃ w, encode_value v = Some w) as [w Hw].
  { unfold encode_value. rewrite decide_False by done. eauto. }
  assert ((num, w) ∈ omap encode_field l) as Hw'.
  { apply list_elem_of_omap. exists (num, v). split; [done|]. unfold encode_field. cbn. by rewrite Hw. }
  rewrite <- Hc in Hw'. by apply not_elem_of_nil in Hw'.
Qed.
