(* ===== verification/Descriptor.v ===== *)
(** * The descriptors in the generated files (gen/cardinality/v1/*.pb.go)

    Each generated file carries the description of its .proto file as a constant in the
    wire format, and repeats parts of it as struct tags. Here are the constants, byte for
    byte, a reader for them (the published messages of google/protobuf/descriptor.proto
    and of third_party/google/api/http.proto), and the struct tags. *)

From stdpp Require Import pretty.
From S2P Require Import Prelude GoBinary Wire Proto3.
Local Open Scope Z_scope.

(** ** Descriptor messages *)

Record FieldDescriptor := mkField {
  fd_Name : string; fd_Number : Z; fd_Label : Z; fd_Type : Z; fd_JsonName : string }.
Record MessageDescriptor := mkMessage { md_Name : string; md_Fields : list FieldDescriptor }.
Record HttpRule := mkHttpRule { hr_Get : string; hr_Post : string; hr_Body : string }.
Record MethodDescriptor := mkMethod {
  mt_Name : string; mt_Input : string; mt_Output : string; mt_Http : option HttpRule }.
Record ServiceDescriptor := mkServiceDescriptor { sd_Name : string; sd_Methods : list MethodDescriptor }.
Record FileDescriptorProto := mkFile {
  file_Name : string; file_Package : string; file_Dependency : list string;
  file_Messages : list MessageDescriptor; file_Services : list ServiceDescriptor;
  file_GoPackage : string; file_Syntax : string }.

(** ** Reading them *)

(** The occurrences of a length-delimited field, and the last value of a field. *)
Definition all_bytes (num : Z) (fs : list (Z * wire_value)) : list (list byte) :=
  omap (λ f, match f with (n, WBytes b) => if decide (n = num) then Some b else None | _ => None end) fs.
Definition get_string (num : Z) (fs : list (Z * wire_value)) : string :=
  string_of_list_byte (default [] (last (all_bytes num fs))).
Definition get_varint (num : Z) (fs : list (Z * wire_value)) : Z :=
  default 0 (last (omap (λ f, match f with (n, WVarint x) => if decide (n = num) then Some x else None | _ => None end) fs)).

Definition parse_Field (b : list byte) : option FieldDescriptor :=
  fs ← consume_fields b;
  Some (mkField (get_string 1 fs) (get_varint 3 fs) (get_varint 4 fs) (get_varint 5 fs) (get_string 10 fs)).

Definition parse_Message (b : list byte) : option MessageDescriptor :=
  fs ← consume_fields b; fields ← mapM parse_Field (all_bytes 2 fs);
  Some (mkMessage (get_string 1 fs) fields).

Definition parse_HttpRule (b : list byte) : option HttpRule :=
  fs ← consume_fields b; Some (mkHttpRule (get_string 2 fs) (get_string 4 fs) (get_string 7 fs)).

(** The extension google.api.http of the method options. *)
Definition http_extension : Z := 72295728.

Definition parse_MethodOptions (b : list byte) : option (option HttpRule) :=
  fs ← consume_fields b;
  match last (all_bytes http_extension fs) with
  | Some r => Some <$> parse_HttpRule r
  | None => Some None
  end.

Definition parse_Method (b : list byte) : option MethodDescriptor :=
  fs ← consume_fields b;
  http ← match last (all_bytes 4 fs) with Some o => parse_MethodOptions o | None => Some None end;
  Some (mkMethod (get_string 1 fs) (get_string 2 fs) (get_string 3 fs) http).

Definition parse_Service (b : list byte) : option ServiceDescriptor :=
  fs ← consume_fields b; methods ← mapM parse_Method (all_bytes 2 fs);
  Some (mkServiceDescriptor (get_string 1 fs) methods).

Definition parse_File (b : list byte) : option FileDescriptorProto :=
  fs ← consume_fields b;
  messages ← mapM parse_Message (all_bytes 4 fs);
  services ← mapM parse_Service (all_bytes 6 fs);
  options ← consume_fields (default [] (last (all_bytes 8 fs)));
  Some (mkFile (get_string 1 fs) (get_string 2 fs) (string_of_list_byte <$> all_bytes 3 fs)
    messages services (get_string 11 options) (get_string 12 fs)).

(** ** The constants *)

Definition txt : string → list byte := list_byte_of_string.

Definition file_cardinality_v1_cardinality_proto_rawDesc : list byte :=
  [x0a] ++
  txt " cardinality/v1/cardinality.proto" ++ [x12; x0e] ++ txt "cardinality.v1" ++ [x1a; x1c] ++
    txt "google/api/annotations.proto" ++ [x22; x32; x0a] ++
  [x0a] ++
  txt "AddRequest" ++ [x12; x14; x0a] ++
  [x05] ++ txt "group" ++ [x18; x01; x20; x01; x28; x09; x52; x05] ++ txt "group" ++ [x12; x0e; x0a] ++
  [x02; x69; x64; x18; x02; x20; x01; x28; x04; x52; x02; x69; x64; x22; x39; x0a] ++
  [x0f] ++ txt "BatchAddRequest" ++ [x12; x14; x0a] ++
  [x05] ++ txt "group" ++ [x18; x01; x20; x01; x28; x09; x52; x05] ++ txt "group" ++ [x12; x10; x0a] ++
  [x03] ++ txt "ids" ++ [x18; x02; x20; x03; x28; x04; x52; x03] ++ txt "ids" ++ [x22; x1d; x0a] ++
  [x0b] ++ txt "AddResponse" ++ [x12; x0e; x0a] ++
  [x02; x6f; x6b; x18; x01; x20; x01; x28; x08; x52; x02; x6f; x6b; x22; x3f; x0a] ++
  [x0c] ++ txt "QueryRequest" ++ [x12; x14; x0a] ++
  [x05] ++ txt "group" ++ [x18; x01; x20; x01; x28; x09; x52; x05] ++ txt "group" ++ [x12; x19; x0a] ++
  [x08] ++ txt "stale_ok" ++ [x18; x02; x20; x01; x28; x08; x52; x07] ++ txt "staleOk" ++ [x22; x47; x0a] ++
  [x0d] ++ txt "QueryResponse" ++ [x12; x14; x0a] ++
  [x05] ++ txt "group" ++ [x18; x01; x20; x01; x28; x09; x52; x05] ++ txt "group" ++ [x12; x20; x0a] ++
  [x0b] ++ txt "cardinality" ++ [x18; x02; x20; x01; x28; x04; x52; x0b] ++ txt "cardinality2" ++
    [xd1; x02; x0a] ++
  [x12] ++ txt "CardinalityService" ++ [x12; x60; x0a] ++
  [x03] ++ txt "Add" ++ [x12; x1a] ++ txt ".cardinality.v1.AddRequest" ++ [x1a; x1b] ++
    txt ".cardinality.v1.AddResponse" ++
    [x22; x20; x82; xd3; xe4; x93; x02; x1a; x3a; x01; x2a; x22; x15] ++ txt "/v1/group/{group}/add" ++
    [x12; x6c; x0a] ++
  [x08] ++ txt "BatchAdd" ++ [x12; x1f] ++ txt ".cardinality.v1.BatchAddRequest" ++ [x1a; x1b] ++
    txt ".cardinality.v1.AddResponse" ++
    [x22; x22; x82; xd3; xe4; x93; x02; x1c; x3a; x01; x2a; x22; x17] ++ txt "/v1/group/{group}/batch" ++
    [x12; x6b; x0a] ++
  [x05] ++ txt "Query" ++ [x12; x1c] ++ txt ".cardinality.v1.QueryRequest" ++ [x1a; x1d] ++
    txt ".cardinality.v1.QueryResponse" ++ [x22; x25; x82; xd3; xe4; x93; x02; x1f; x12; x1d] ++
    txt "/v1/group/{group}/cardinalityBXZVgithub.com/BlaCkinkGJ/time-series-cardinality-tracker/gen/cardinality/v1;cardinalityv1b" ++ [x06] ++ txt "proto3".

Definition file_cardinality_v1_command_proto_rawDesc : list byte :=
  [x0a] ++
  [x1c] ++ txt "cardinality/v1/command.proto" ++ [x12; x0e] ++ txt "cardinality.v1" ++ [x22; x4d; x0a] ++
  [x07] ++ txt "Command" ++ [x12; x12; x0a] ++
  [x04] ++ txt "type" ++ [x18; x01; x20; x01; x28; x09; x52; x04] ++ txt "type" ++ [x12; x14; x0a] ++
  [x05] ++ txt "group" ++ [x18; x02; x20; x01; x28; x09; x52; x05] ++ txt "group" ++ [x12; x18; x0a] ++
  [x07] ++ txt "payload" ++ [x18; x03; x20; x01; x28; x0c; x52; x07] ++
    txt "payloadBXZVgithub.com/BlaCkinkGJ/time-series-cardinality-tracker/gen/cardinality/v1;cardinalityv1b" ++ [x06] ++ txt "proto3".

(** ** What the code generators derive from a descriptor *)

(** The kind of a field: types uint64, bool, string and bytes, and repeated uint64, which
    proto3 packs. *)
Definition TYPE_UINT64 : Z := 4.
Definition TYPE_BOOL : Z := 8.
Definition TYPE_STRING : Z := 9.
Definition TYPE_BYTES : Z := 12.
Definition LABEL_OPTIONAL : Z := 1.
Definition LABEL_REPEATED : Z := 3.

Definition field_zero (f : FieldDescriptor) : option value :=
  if decide (fd_Label f = LABEL_REPEATED ∧ fd_Type f = TYPE_UINT64) then Some (VUint64s [])
  else if decide (fd_Label f ≠ LABEL_OPTIONAL) then None
  else if decide (fd_Type f = TYPE_UINT64) then Some (VUint64 0)
  else if decide (fd_Type f = TYPE_BOOL) then Some (VBool false)
  else if decide (fd_Type f = TYPE_STRING) then Some (VString EmptyString)
  else if decide (fd_Type f = TYPE_BYTES) then Some (VBytes [])
  else None.

(** The fields of an unset message. *)
Definition message_zero (m : MessageDescriptor) : option fields :=
  mapM (λ f, pair (fd_Number f) <$> field_zero f) (md_Fields m).

(** A field of a generated struct: its Go name and its two tags. *)
Record StructField := mkStructField { sf_Name : string; sf_Protobuf : string; sf_Json : string }.

(** A lower-case ASCII letter as upper case. *)
Definition upper (c : ascii) : ascii :=
  let n := nat_of_ascii c in if decide (97 ≤ n ≤ 122)%nat then ascii_of_nat (n - 32) else c.

(** The Go name of a field: words separated by underscores, capitalised. *)
Fixpoint GoCamelCase (start : bool) (s : string) : string :=
  match s with
  | EmptyString => EmptyString
  | String c s' =>
      if decide (c = "_"%char) then GoCamelCase true s'
      else String (if start then upper c else c) (GoCamelCase false s')
  end.

Definition struct_field (f : FieldDescriptor) : StructField :=
  mkStructField (GoCamelCase true (fd_Name f))
    ((if decide (fd_Type f = TYPE_UINT64 ∨ fd_Type f = TYPE_BOOL) then "varint" else "bytes") +:+ "," +:+
     pretty (Z.to_N (fd_Number f)) +:+
     (if decide (fd_Label f = LABEL_REPEATED) then ",rep,packed" else ",opt") +:+
     ",name=" +:+ fd_Name f +:+
     (if decide (fd_JsonName f = fd_Name f) then EmptyString else ",json=" +:+ fd_JsonName f) +:+
     ",proto3")
    (fd_Name f +:+ ",omitempty").

(** ** The structs, with their tags *)

Definition AddRequest_struct : list StructField :=
  [mkStructField "Group" "bytes,1,opt,name=group,proto3" "group,omitempty";
   mkStructField "Id" "varint,2,opt,name=id,proto3" "id,omitempty"].
Definition BatchAddRequest_struct : list StructField :=
  [mkStructField "Group" "bytes,1,opt,name=group,proto3" "group,omitempty";
   mkStructField "Ids" "varint,2,rep,packed,name=ids,proto3" "ids,omitempty"].
Definition AddResponse_struct : list StructField :=
  [mkStructField "Ok" "varint,1,opt,name=ok,proto3" "ok,omitempty"].
Definition QueryRequest_struct : list StructField :=
  [mkStructField "Group" "bytes,1,opt,name=group,proto3" "group,omitempty";
   mkStructField "StaleOk" "varint,2,opt,name=stale_ok,json=staleOk,proto3" "stale_ok,omitempty"].
Definition QueryResponse_struct : list StructField :=
  [mkStructField "Group" "bytes,1,opt,name=group,proto3" "group,omitempty";
   mkStructField "Cardinality" "varint,2,opt,name=cardinality,proto3" "cardinality,omitempty"].
Definition Command_struct : list StructField :=
  [mkStructField "Type" "bytes,1,opt,name=type,proto3" "type,omitempty";
   mkStructField "Group" "bytes,2,opt,name=group,proto3" "group,omitempty";
   mkStructField "Payload" "bytes,3,opt,name=payload,proto3" "payload,omitempty"].
