(* ===== verification/External.v ===== *)
(** * Code outside the repository

    The third-party packages the program calls, as type classes: an abstract
    state, the operations the program uses, and the documented behaviour the
    program relies on. Every component that calls such a package takes the class
    as a parameter. The [Instance]s at the end of a section are stand-ins that
    show the assumptions can hold together; they are not the packages' code. *)

From S2P Require Import Prelude GoBinary.
Local Open Scope Z_scope.

(** ** github.com/spaolacci/murmur3

    Two deterministic hash functions of a byte slice into [uint64] and [uint32]. *)
Class Murmur3 := {
  Sum64 : list byte → Z;
  Sum32 : list byte → Z;
  Sum64_u64 : ∀ b, u64 (Sum64 b);
  Sum32_u32 : ∀ b, u32 (Sum32 b);
}.

(** ** github.com/RoaringBitmap/roaring/roaring64

    A bitmap stands for a finite set of [uint64]s ([rb_set]). *)
Class Roaring64 := {
  Bitmap : Type;
  rb_set : Bitmap → gset Z;
  rb_New : Bitmap;
  rb_Add : Bitmap → Z → Bitmap;
  rb_GetCardinality : Bitmap → Z;
  rb_Or : Bitmap → Bitmap → Bitmap;
  rb_Clone : Bitmap → Bitmap;
  rb_MarshalBinary : Bitmap → list byte * option error;
  rb_UnmarshalBinary : list byte → result Bitmap;
  rb_New_set : rb_set rb_New = ∅;
  rb_Add_set : ∀ b x, u64 x → rb_set (rb_Add b x) = {[x]} ∪ rb_set b;
  rb_GetCardinality_set : ∀ b,
    rb_GetCardinality b = wrap64 (Z.of_nat (size (rb_set b)));
  rb_Or_set : ∀ b c, rb_set (rb_Or b c) = rb_set b ∪ rb_set c;
  rb_Clone_set : ∀ b, rb_set (rb_Clone b) = rb_set b;
  rb_Marshal_ok : ∀ b, (rb_MarshalBinary b).2 = None;
  rb_roundtrip : ∀ b bs, rb_MarshalBinary b = (bs, None) →
    ∃ c, rb_UnmarshalBinary bs = Ok c ∧ rb_set c = rb_set b;
}.

(** ** encoding/gob, at the one type the engine encodes *)
Class Gob := {
  gob_Encode : gmap string (list byte) → result (list byte);
  gob_Decode : list byte → result (gmap string (list byte));
  gob_roundtrip : ∀ m b, gob_Encode m = Ok b → gob_Decode b = Ok m;
}.

(** ** The order of a [range] over a Go map

    Go leaves the iteration order of a map unspecified; a program sees some
    enumeration of its entries. *)
Class MapRange := {
  map_range : ∀ V : Type, gmap string V → list (string * V);
  map_range_perm : ∀ V (m : gmap string V), map_range V m ≡ₚ map_to_list m;
}.
Arguments map_range {_ V} m.
Arguments map_range_perm {_ V} m.

(** ** github.com/dgraph-io/badger/v4

    A database and its transactions hold a map from keys to values ([db_map],
    [txn_map]). [Update] runs a function on a read-write transaction and commits it
    when the function returns nil; a failed [Update] changes nothing. Values are read
    from an item on demand, which can fail. An iterator over a prefix goes through
    the keys with that prefix in byte order. *)
Definition has_prefix (p k : list byte) : bool := bool_decide (take (length p) k = p).

Fixpoint bytes_leb (a b : list byte) : bool :=
  match a, b with
  | [], _ => true
  | _ :: _, [] => false
  | x :: a', y :: b' =>
      (byte_to_Z x <? byte_to_Z y) || ((byte_to_Z x =? byte_to_Z y) && bytes_leb a' b')
  end.
Definition bytes_le (a b : list byte) : Prop := bytes_leb a b = true.

Class Badger := {
  DB : Type;
  Txn : Type;
  Item : Type;
  db_Open : string → result DB;
  db_Close : DB → option error * DB;
  db_Update : (Txn → option error * Txn) → DB → option error * DB;
  db_View : DB → Txn;
  ErrKeyNotFound : error;
  txn_Set : list byte → list byte → Txn → option error * Txn;
  txn_Get : list byte → Txn → result Item;
  txn_Items : list byte → Txn → list Item;
  item_Key : Item → list byte;
  item_Value : Item → result (list byte);
  db_map : DB → gmap (list byte) (list byte);
  txn_map : Txn → gmap (list byte) (list byte);
  db_View_map : ∀ db, txn_map (db_View db) = db_map db;
  db_Update_Set : ∀ k v db err db', db_Update (txn_Set k v) db = (err, db') →
    db_map db' = match err with None => <[k := v]> (db_map db) | Some _ => db_map db end;
  txn_Get_spec : ∀ k t, match txn_map t !! k with
    | None => txn_Get k t = Err ErrKeyNotFound
    | Some v => match txn_Get k t with
                | Ok it => item_Value it = Ok v ∨ ∃ e, item_Value it = Err e
                | Err e => e ≠ ErrKeyNotFound
                end
    end;
  txn_Items_keys : ∀ p t, item_Key <$> txn_Items p t ≡ₚ
    filter (λ k, has_prefix p k = true) (map_to_list (txn_map t)).*1;
  txn_Items_order : ∀ p t, StronglySorted bytes_le (item_Key <$> txn_Items p t);
  txn_Items_value : ∀ p t it, it ∈ txn_Items p t →
    (∃ e, item_Value it = Err e) ∨
    ∃ v, item_Value it = Ok v ∧ txn_map t !! item_Key it = Some v;
}.

#[export] Instance bytes_le_dec : RelDecision bytes_le.
Proof. intros a b. unfold bytes_le. apply _. Defined.

#[export] Instance bytes_le_total : Total bytes_le.
Proof.
  intros a. induction a as [|x a IH]; intros [|y b]; unfold bytes_le; simpl; auto.
  destruct (IH b) as [E|E]; unfold bytes_le in E; rewrite E, !andb_true_r;
    rewrite !orb_true_iff, ?Z.ltb_lt, ?Z.eqb_eq; lia.
Qed.

#[export] Instance bytes_le_trans : Transitive bytes_le.
Proof.
  intros a. induction a as [|x a IH]; intros [|y b] [|z c]; unfold bytes_le; simpl; auto; try done.
  rewrite !orb_true_iff, !andb_true_iff, !Z.ltb_lt, !Z.eqb_eq.
  intros [?|[? Hab]] [?|[? Hbc]]; [left; lia..|].
  right. split; [lia|]. by apply (IH b c).
Qed.

(** ** Stand-ins

    Concrete functions that satisfy the assumptions above, used where a theorem
    is evaluated on an input. *)
Module StandIn.

(** A multiplicative byte hash. *)
Definition hash (modulus prime : Z) (b : list byte) : Z :=
  foldl (λ h c, (Z.lxor h (byte_to_Z c) * prime) mod modulus) (14695981039346656037 mod modulus) b.

(** Any countable value as bytes, one per bit of its code. *)
Fixpoint bits (p : positive) : list byte :=
  match p with
  | xH => []
  | xO p' => x00 :: bits p'
  | xI p' => x01 :: bits p'
  end.
Fixpoint unbits (l : list byte) : positive :=
  match l with
  | [] => xH
  | b :: l' => if decide (b = x00) then xO (unbits l') else xI (unbits l')
  end.

Definition enc `{Countable A} (a : A) : list byte := bits (encode a).
Definition dec `{Countable A} (l : list byte) : result A :=
  match decode (unbits l) with Some a => Ok a | None => Err (EExternal "decode") end.

Lemma hash_range (m prime : Z) (b : list byte) : 0 < m → 0 ≤ hash m prime b < m.
Proof.
  intros Hm. unfold hash. generalize (14695981039346656037).
  induction b as [|c b IH] using rev_ind; intros x; simpl.
  - by apply Z.mod_pos_bound.
  - rewrite foldl_app. simpl. by apply Z.mod_pos_bound.
Qed.

Lemma unbits_bits (p : positive) : unbits (bits p) = p.
Proof. induction p; simpl; congruence. Qed.

Lemma dec_enc `{Countable A} (a : A) : dec (enc a) = Ok a.
Proof. unfold dec, enc. by rewrite unbits_bits, decode_encode. Qed.

#[export] Instance murmur3 : Murmur3 := {
  Sum64 := hash (2 ^ 64) 1099511628211;
  Sum32 := hash (2 ^ 32) 16777619;
  Sum64_u64 b := hash_range (2 ^ 64) _ b eq_refl;
  Sum32_u32 b := hash_range (2 ^ 32) _ b eq_refl;
}.

#[export] Program Instance roaring64 : Roaring64 := {
  Bitmap := gset Z;
  rb_set b := b;
  rb_New := ∅;
  rb_Add b x := {[x]} ∪ b;
  rb_GetCardinality b := wrap64 (Z.of_nat (size b));
  rb_Or b c := b ∪ c;
  rb_Clone b := b;
  rb_MarshalBinary b := (enc b, None);
  rb_UnmarshalBinary l := dec l;
}.
Solve Obligations with (try done).
Next Obligation. intros b bs [= <-]. exists b. by rewrite dec_enc. Qed.

#[export] Program Instance gob : Gob := {
  gob_Encode m := Ok (enc m);
  gob_Decode l := dec l;
}.
Next Obligation. intros m b [= <-]. apply dec_enc. Qed.

#[export] Instance range : MapRange := {
  map_range V m := map_to_list m;
  map_range_perm V m := reflexivity _;
}.

(** A database that is its map; writes to keys longer than a limit are refused. *)
Definition badger_Set (limit : Z) (k v : list byte) (t : gmap (list byte) (list byte))
    : option error * gmap (list byte) (list byte) :=
  if decide (limit < Z.of_nat (length k)) then (Some (EExternal "Key exceeds size"), t)
  else (None, <[k := v]> t).

Definition item_le (x y : list byte * list byte) : Prop := bytes_le x.1 y.1.
#[export] Instance item_le_dec : RelDecision item_le := λ x y, bytes_le_dec x.1 y.1.

Definition badger_Items (p : list byte) (t : gmap (list byte) (list byte))
    : list (list byte * list byte) :=
  merge_sort item_le
    (filter (λ kv, has_prefix p kv.1 = true) (map_to_list t)).

Lemma filter_fst (p : list byte) (l : list (list byte * list byte)) :
  (filter (λ kv, has_prefix p kv.1 = true) l).*1 = filter (λ k, has_prefix p k = true) l.*1.
Proof.
  induction l as [|[k v] l IH]; [done|]. rewrite filter_cons. cbn [fst fmap list_fmap].
  rewrite filter_cons. case_decide; cbn [fmap list_fmap]; [f_equal|]; exact IH.
Qed.

Lemma StronglySorted_fst (l : list (list byte * list byte)) :
  StronglySorted item_le l → StronglySorted bytes_le l.*1.
Proof.
  induction 1 as [|x l Hs IH Hx]; simpl; constructor; [done|]. by apply Forall_fmap.
Qed.

Program Definition badger_limit (limit : Z) : Badger := {|
  DB := gmap (list byte) (list byte);
  Txn := gmap (list byte) (list byte);
  Item := list byte * list byte;
  db_Open _ := Ok ∅;
  db_Close db := (None, db);
  db_Update f db := match f db with (None, t) => (None, t) | (Some e, _) => (Some e, db) end;
  db_View db := db;
  ErrKeyNotFound := EExternal "Key not found";
  txn_Set := badger_Set limit;
  txn_Get k t := match t !! k with Some v => Ok (k, v) | None => Err (EExternal "Key not found") end;
  txn_Items := badger_Items;
  item_Key := fst;
  item_Value it := Ok it.2;
  db_map db := db;
  txn_map t := t;
|}.
Next Obligation. done. Qed.
Next Obligation.
  intros limit k v db err db'. unfold badger_Set. by case_decide; intros [= <- <-].
Qed.
Next Obligation. intros limit k t. simpl. destruct (t !! k); auto. Qed.
Next Obligation.
  intros limit p t. simpl. unfold badger_Items. by rewrite merge_sort_Permutation, filter_fst.
Qed.
Next Obligation.
  intros limit p t. apply StronglySorted_fst. apply StronglySorted_merge_sort.
  - intros x y z. apply bytes_le_trans.
  - intros x y. apply bytes_le_total.
Qed.
Next Obligation.
  intros limit p t [k v] Hit. right. exists v. split; [done|]. simpl. unfold badger_Items in Hit.
  rewrite merge_sort_Permutation in Hit. apply list_elem_of_filter in Hit as [_ Hit].
  by apply elem_of_map_to_list in Hit.
Qed.

#[export] Instance badger : Badger := badger_limit 65000.

End StandIn.
