(* ===== verification/Sketch.v ===== *)
(** * The sketch contract (internal/cardinality/sketch.go)

    The two Go interfaces as type classes of operations: [Sketch], the methods of
    a sketch value, and [Algorithm], the factory the engine is built with. A Go
    interface value carries its dynamic type, so the methods work on one type of
    values [Sk] that holds every kind of sketch; a method that asserts a dynamic
    type and panics otherwise returns an [outcome].

    [AlgorithmLaws] is what an algorithm promises to the engine. The sketches of
    an algorithm form a join-semilattice up to an equivalence, inserting an id is
    commutative and idempotent, and the bytes of a sketch parse back to an
    equivalent one. The HLL and bitmap files discharge it; the engine and every
    client of the engine are verified against it. *)

From S2P Require Import Prelude.
Local Open Scope Z_scope.

(** ** The interfaces *)

Class Sketch (Sk : Type) := {
  sk_AlgoName : Sk → string;
  sk_Add : Sk → Z → outcome Sk;
  sk_Cardinality : Sk → Z;
  sk_Merge : Sk → Sk → outcome Sk;
  sk_Bytes : Sk → list byte;
  sk_Clone : Sk → Sk;
}.

Class Algorithm (Sk : Type) := {
  alg_Name : string;
  alg_New : Sk;
  alg_Parse : list byte → result Sk;
}.
Arguments alg_Name Sk {_}.

(** ** The contract *)

(** [sk_valid] is the representation invariant of a sketch of any kind; [sk_insert]
    and [sk_join] are the values [Add] and [Merge] leave in the receiver. *)
Class AlgorithmLaws (Sk : Type) `{!Sketch Sk, !Algorithm Sk, !Equiv Sk} := {
  sk_valid : Sk → Prop;
  sk_insert : Sk → Z → Sk;
  sk_join : Sk → Sk → Sk;
  sk_ok (s : Sk) : Prop := sk_valid s ∧ sk_AlgoName s = alg_Name Sk;

  law_equivalence :: Equivalence (≡@{Sk});
  law_new : sk_ok alg_New;
  law_parse b s : alg_Parse b = Ok s → sk_ok s;
  law_add s id : sk_ok s → u64 id → sk_Add s id = Ret (sk_insert s id);
  law_insert s id : sk_ok s → u64 id → sk_ok (sk_insert s id);
  law_merge s t : sk_ok s → sk_ok t → sk_Merge s t = Ret (sk_join s t);
  law_join s t : sk_ok s → sk_ok t → sk_ok (sk_join s t);
  law_clone s : sk_ok s → sk_ok (sk_Clone s) ∧ sk_Clone s ≡ s;
  law_roundtrip s : sk_ok s → ∃ s', alg_Parse (sk_Bytes s) = Ok s' ∧ s' ≡ s;
  law_cardinality s t : s ≡ t → sk_Cardinality s = sk_Cardinality t;
  law_cardinality_u64 s : u64 (sk_Cardinality s);

  law_insert_proper s t id : sk_ok s → sk_ok t → u64 id → s ≡ t →
    sk_insert s id ≡ sk_insert t id;
  law_insert_comm s a b : sk_ok s → u64 a → u64 b →
    sk_insert (sk_insert s a) b ≡ sk_insert (sk_insert s b) a;
  law_insert_idemp s a : sk_ok s → u64 a →
    sk_insert (sk_insert s a) a ≡ sk_insert s a;
  law_join_proper s s' t t' : sk_ok s → sk_ok s' → sk_ok t → sk_ok t' →
    s ≡ s' → t ≡ t' → sk_join s t ≡ sk_join s' t';
  law_join_comm s t : sk_ok s → sk_ok t → sk_join s t ≡ sk_join t s;
  law_join_assoc s t u : sk_ok s → sk_ok t → sk_ok u →
    sk_join s (sk_join t u) ≡ sk_join (sk_join s t) u;
  law_join_idemp s : sk_ok s → sk_join s s ≡ s;
  law_join_new s : sk_ok s → sk_join s alg_New ≡ s;
  law_join_insert s t a : sk_ok s → sk_ok t → u64 a →
    sk_join s (sk_insert t a) ≡ sk_insert (sk_join s t) a;
}.

#[export] Hint Resolve law_new law_parse law_insert law_join : go.

(** ** Facts every algorithm has *)

Section Laws.
Context {Sk : Type} `{AlgorithmLaws Sk}.

(** The sketch that a list of ids added to an empty sketch leaves. *)
Definition sk_of_ids (ids : list Z) : Sk := foldl sk_insert alg_New ids.

Lemma sk_foldl_ok (ids : list Z) (s : Sk) :
  Forall u64 ids → sk_ok s → sk_ok (foldl sk_insert s ids).
Proof. apply fold_ok. apply law_insert. Qed.

Lemma sk_foldl_proper (ids : list Z) (s t : Sk) :
  Forall u64 ids → sk_ok s → sk_ok t → s ≡ t →
  foldl sk_insert s ids ≡ foldl sk_insert t ids.
Proof. apply fold_proper; auto using law_insert, law_insert_proper. Qed.

(** The sketch depends on the set of the ids only. *)
Lemma sk_foldl_set (ids ids' : list Z) (s : Sk) :
  Forall u64 ids → (∀ x, x ∈ ids ↔ x ∈ ids') → sk_ok s →
  foldl sk_insert s ids ≡ foldl sk_insert s ids'.
Proof.
  apply (fold_set (≡) sk_ok u64);
    auto using law_insert, law_insert_proper, law_insert_comm, law_insert_idemp.
Qed.

(** Joining with a sketch built from ids is inserting those ids. *)
Lemma sk_join_foldl (ids : list Z) (s t : Sk) :
  Forall u64 ids → sk_ok s → sk_ok t →
  sk_join s (foldl sk_insert t ids) ≡ foldl sk_insert (sk_join s t) ids.
Proof.
  intros Hids Hs. revert t. induction Hids as [|a ids Ha Hids IH]; intros t Ht; simpl; [done|].
  rewrite IH by auto using law_insert.
  apply sk_foldl_proper; auto using law_insert, law_join, law_join_insert.
Qed.

End Laws.
