(* ===== verification/SketchValue.v ===== *)
(** * Sketch values

    The two concrete sketch structs of the repository, and the values a variable
    of Go type [cardinality.Sketch] can hold: a pointer to one of them, tagged with
    its dynamic type. *)

From S2P Require Import Prelude GoBinary External.
Local Open Scope Z_scope.

(** [hll.sketch]: the register array and the reusable id buffer of [Add]. *)
Record hll_sketch := mkHll {
  regs : list byte;
  idBuf : list byte;
}.

(** [bitmap.sketch]: a pointer to a roaring bitmap. *)
Record bitmap_sketch `{!Roaring64} := mkBitmap {
  rb : Bitmap;
}.
Arguments mkBitmap {_} rb.

Inductive SketchV `{!Roaring64} :=
  | SHll (s : hll_sketch)
  | SBitmap (s : bitmap_sketch).
Arguments SHll {_} s.
Arguments SBitmap {_} s.

(** The type assertion of [other] to the package's own sketch pointer. *)
Definition as_hll `{!Roaring64} (v : SketchV) : option hll_sketch :=
  match v with SHll s => Some s | _ => None end.
Definition as_bitmap `{!Roaring64} (v : SketchV) : option bitmap_sketch :=
  match v with SBitmap s => Some s | _ => None end.
