(* ===== verification/Hll.v ===== *)
(** * HyperLogLog sketches (internal/cardinality/hll/hll.go)

    The registers, the insertion of an id, the union of two sketches and the wire
    format, over an abstract [murmur3.Sum64]. The estimator is in [Estimate]. *)

From S2P Require Import Prelude GoBinary External SketchValue.
Local Open Scope Z_scope.

Definition hll_algoName : string := "hll".
Definition precision : Z := 14.
Definition numRegs : Z := Z.shiftl 1 precision.
Arguments numRegs : simpl never.

(** The zero value [&sketch{}]. *)
Definition hll_zero : hll_sketch :=
  {| regs := replicate (Z.to_nat numRegs) x00; idBuf := replicate 8 x00 |}.

Definition hll_New : hll_sketch := hll_zero.

(** [b[:2]] cannot fail after the length check, so the [None] of [Uint16] is the
    slice panic that the check rules out. *)
Definition hll_Parse (b : list byte) : result hll_sketch :=
  if decide (Z.of_nat (length b) < 2 + numRegs) then Err EHllShort
  else match Uint16 (take 2 b) with
       | None => Err EHllShort
       | Some p =>
           if decide (p ≠ precision) then Err (EHllPrecision p precision)
           else Ok {| regs := go_copy (regs hll_zero) (drop 2 b); idBuf := idBuf hll_zero |}
       end.

Section Add.
Context `{!Murmur3}.

(** The register an id falls in, and its rank, from the id's hash. *)
Definition hll_idx (hash : Z) : Z := Z.shiftr hash (64 - precision).
Definition hll_w (hash : Z) : Z :=
  Z.lor (wrap64 (Z.shiftl hash precision)) (Z.shiftl 1 precision - 1).
Definition hll_rho (hash : Z) : Z := wrap8 (wrap8 (LeadingZeros64 (hll_w hash)) + 1).

Definition hll_Add (s : hll_sketch) (id : Z) : outcome hll_sketch :=
  let buf := PutUint64 id in
  let hash := Sum64 buf in
  let idx := hll_idx hash in
  let rho := hll_rho hash in
  match regs s !! Z.to_nat idx with
  | None => Panic "index out of range"
  | Some r =>
      if decide (byte_to_Z r < rho) then
        Ret {| regs := <[Z.to_nat idx := Z_to_byte rho]> (regs s); idBuf := buf |}
      else Ret {| regs := regs s; idBuf := buf |}
  end.
End Add.

(** The element of [Merge]'s loop: the larger register. *)
Definition reg_max (a b : byte) : byte :=
  if decide (byte_to_Z a < byte_to_Z b) then b else a.

Definition hll_Merge `{!Roaring64} (s : hll_sketch) (other : SketchV) : outcome hll_sketch :=
  match as_hll other with
  | None => Panic "hll: merge with non-hll sketch"
  | Some o => Ret {| regs := zip_with reg_max (regs s) (regs o); idBuf := idBuf s |}
  end.

Definition hll_AlgoName (s : hll_sketch) : string := hll_algoName.

Definition hll_Bytes (s : hll_sketch) : list byte :=
  PutUint16 precision ++ go_copy (replicate (Z.to_nat numRegs) x00) (regs s).

Definition hll_Clone (s : hll_sketch) : hll_sketch :=
  {| regs := go_copy (regs hll_zero) (regs s); idBuf := idBuf hll_zero |}.

Arguments reg_max : simpl never.

(** ** Well-formed sketches *)

Definition hll_valid (s : hll_sketch) : Prop :=
  length (regs s) = Z.to_nat numRegs ∧ length (idBuf s) = 8%nat.

#[export] Instance hll_valid_dec (s : hll_sketch) : Decision (hll_valid s).
Proof. unfold hll_valid. apply _. Defined.

(** What [Add] leaves in a well-formed sketch. *)
Definition hll_insert `{!Murmur3} (s : hll_sketch) (id : Z) : hll_sketch :=
  let hash := Sum64 (PutUint64 id) in
  {| regs := alter (λ r, reg_max r (Z_to_byte (hll_rho hash))) (Z.to_nat (hll_idx hash)) (regs s);
     idBuf := PutUint64 id |}.

(** What [Merge] leaves in the receiver. *)
Definition hll_join (s o : hll_sketch) : hll_sketch :=
  {| regs := zip_with reg_max (regs s) (regs o); idBuf := idBuf s |}.

(** Adding a list of ids one after the other. *)
Fixpoint hll_AddAll `{!Murmur3} (s : hll_sketch) (ids : list Z) : outcome hll_sketch :=
  match ids with
  | [] => Ret s
  | id :: ids' => match hll_Add s id with
                  | Ret s' => hll_AddAll s' ids'
                  | Panic msg => Panic msg
                  end
  end.

(** The reference definition of a register: the largest rank of the ids whose hash
    falls in it, zero when there is none. *)
Definition hll_register `{!Murmur3} (ids : list Z) (i : nat) : Z :=
  foldr Z.max 0
    ((λ id, hll_rho (Sum64 (PutUint64 id))) <$>
       filter (λ id, Z.to_nat (hll_idx (Sum64 (PutUint64 id))) = i) ids).

(** ** Ranks and indices *)

Lemma numRegs_val : numRegs = 16384.
Proof. reflexivity. Qed.

Lemma hll_idx_div (hash : Z) : hll_idx hash = hash / 2 ^ 50.
Proof. unfold hll_idx. change (64 - precision) with 50. by apply Z.shiftr_div_pow2. Qed.

Lemma hll_idx_range (hash : Z) : u64 hash → 0 ≤ hll_idx hash < numRegs.
Proof.
  unfold u64. intros Hh. rewrite hll_idx_div, numRegs_val.
  split; [apply Z.div_pos; lia|apply Z.div_lt_upper_bound; lia].
Qed.

(** The word whose leading zeros are counted is the low 50 bits of the hash,
    moved to the top, above fourteen ones. *)
Lemma hll_w_val (hash : Z) :
  u64 hash → hll_w hash = (hash mod 2 ^ 50) * 2 ^ 14 + (2 ^ 14 - 1).
Proof.
  intros Hh. unfold hll_w, wrap64. change precision with 14.
  change (Z.shiftl 1 14 - 1) with (2 ^ 14 - 1). rewrite Z.shiftl_mul_pow2 by lia.
  change (2 ^ 64) with (2 ^ 50 * 2 ^ 14). rewrite Z.mul_mod_distr_r by lia.
  rewrite Z.lor_comm, lor_low_mul by lia. lia.
Qed.

Lemma log2_shift_ones (y k : Z) : 0 < y → 0 ≤ k → Z.log2 (y * 2 ^ k + (2 ^ k - 1)) = Z.log2 y + k.
Proof.
  intros Hy Hk. pose proof (Z.log2_spec y Hy) as [Hl Hu].
  assert (0 < 2 ^ k) by lia. pose proof (Z.log2_nonneg y).
  apply Z.log2_unique; [lia|].
  replace (Z.succ (Z.log2 y + k)) with (Z.succ (Z.log2 y) + k) by lia.
  rewrite !Z.pow_add_r by lia. nia.
Qed.

Lemma hll_rho_unfold (hash : Z) :
  u64 hash →
  hll_rho hash = if decide (hash mod 2 ^ 50 = 0) then 51 else 50 - Z.log2 (hash mod 2 ^ 50).
Proof.
  intros Hh. unfold hll_rho, LeadingZeros64, Len64. rewrite hll_w_val by done.
  assert (0 ≤ hash mod 2 ^ 50 < 2 ^ 50) as Hm by (apply Z.mod_pos_bound; lia).
  rewrite (decide_False (P := _ * _ + _ = 0)) by lia.
  destruct (decide (hash mod 2 ^ 50 = 0)) as [->|Hne].
  - reflexivity.
  - rewrite log2_shift_ones by lia.
    assert (0 ≤ Z.log2 (hash mod 2 ^ 50) < 50) as Hl.
    { split; [apply Z.log2_nonneg|]. apply Z.log2_lt_pow2; lia. }
    unfold wrap8. change (2 ^ 8) with 256.
    rewrite (Z.mod_small (64 - _)) by lia. rewrite Z.mod_small by lia. lia.
Qed.

Lemma hll_rho_range (hash : Z) : u64 hash → 1 ≤ hll_rho hash ≤ 51.
Proof.
  intros Hh. rewrite hll_rho_unfold by done.
  destruct (decide (hash mod 2 ^ 50 = 0)); [lia|].
  assert (0 ≤ hash mod 2 ^ 50 < 2 ^ 50) by (apply Z.mod_pos_bound; lia).
  assert (0 ≤ Z.log2 (hash mod 2 ^ 50) < 50).
  { split; [apply Z.log2_nonneg|]. apply Z.log2_lt_pow2; lia. }
  lia.
Qed.

#[global] Opaque numRegs hll_idx hll_w hll_rho.

(** ** The largest of two registers *)

Lemma reg_max_Z (a b : byte) : byte_to_Z (reg_max a b) = Z.max (byte_to_Z a) (byte_to_Z b).
Proof. unfold reg_max. case_decide; lia. Qed.

#[export] Instance reg_max_comm : Comm (=) reg_max.
Proof. intros a b. apply (inj byte_to_Z). rewrite !reg_max_Z. lia. Qed.
#[export] Instance reg_max_assoc : Assoc (=) reg_max.
Proof. intros a b c. apply (inj byte_to_Z). rewrite !reg_max_Z. lia. Qed.
#[export] Instance reg_max_idemp : IdemP (=) reg_max.
Proof. intros a. apply (inj byte_to_Z). rewrite !reg_max_Z. lia. Qed.
#[export] Instance reg_max_right_id : RightId (=) x00 reg_max.
Proof.
  intros a. apply (inj byte_to_Z). rewrite reg_max_Z.
  pose proof (byte_to_Z_range a). change (byte_to_Z x00) with 0. lia.
Qed.

(** ** Operations on well-formed sketches *)

Lemma hll_New_valid : hll_valid hll_New.
Proof. split; [apply length_replicate|reflexivity]. Qed.

Lemma length_PutUint64 (v : Z) : length (PutUint64 v) = 8%nat.
Proof. reflexivity. Qed.

Section HllFacts.
Context `{!Murmur3}.
Implicit Types (s t u : hll_sketch) (a b id : Z).

Lemma hll_insert_valid s id : hll_valid s → hll_valid (hll_insert s id).
Proof.
  intros [Hr _]. split; [|apply length_PutUint64].
  unfold hll_insert. cbn [regs]. rewrite length_alter. exact Hr.
Qed.

(** [Add] on a well-formed sketch never indexes out of range. *)
Lemma hll_Add_insert s id : hll_valid s → hll_Add s id = Ret (hll_insert s id).
Proof.
  intros [Hr _]. unfold hll_Add, hll_insert. set (h := Sum64 (PutUint64 id)).
  pose proof (hll_idx_range h (Sum64_u64 _)) as Hidx.
  pose proof (hll_rho_range h (Sum64_u64 _)) as Hrho.
  destruct (regs s !! Z.to_nat (hll_idx h)) as [r|] eqn:E.
  2: { apply lookup_ge_None in E. lia. }
  rewrite (list_alter_as_insert _ _ _ r) by done.
  unfold reg_max. rewrite byte_to_Z_small by lia. case_decide; [done|].
  by rewrite list_insert_id.
Qed.

Lemma hll_AddAll_foldl s ids :
  hll_valid s → hll_AddAll s ids = Ret (foldl hll_insert s ids).
Proof.
  revert s. induction ids as [|id ids IH]; intros s Hs; simpl; [done|].
  rewrite hll_Add_insert by done. apply IH, hll_insert_valid, Hs.
Qed.

Lemma hll_insert_comm s a b :
  regs (hll_insert (hll_insert s a) b) = regs (hll_insert (hll_insert s b) a).
Proof.
  unfold hll_insert. simpl.
  destruct (decide (Z.to_nat (hll_idx (Sum64 (PutUint64 a))) =
                    Z.to_nat (hll_idx (Sum64 (PutUint64 b))))) as [->|Hne].
  - rewrite !list_alter_alter_eq. apply list_alter_ext; [|done].
    intros r _. simpl. rewrite <- !(assoc_L reg_max). f_equal. apply (comm_L reg_max).
  - by rewrite list_alter_alter_ne.
Qed.

Lemma hll_insert_idemp s a : regs (hll_insert (hll_insert s a) a) = regs (hll_insert s a).
Proof.
  unfold hll_insert. simpl. rewrite list_alter_alter_eq. apply list_alter_ext; [|done].
  intros r _. simpl. by rewrite <- (assoc_L reg_max), (idemp_L reg_max).
Qed.

Lemma hll_insert_regs s t id : regs s = regs t → regs (hll_insert s id) = regs (hll_insert t id).
Proof. unfold hll_insert. simpl. by intros ->. Qed.

Lemma hll_join_insert s t a :
  hll_valid s → hll_valid t →
  regs (hll_join s (hll_insert t a)) = regs (hll_insert (hll_join s t) a).
Proof.
  intros [Hs _] [Ht _]. unfold hll_join, hll_insert. simpl. apply list_eq. intros i.
  set (j := Z.to_nat _). destruct (decide (i = j)) as [->|Hne].
  - rewrite lookup_zip_with, !list_lookup_alter_eq, lookup_zip_with.
    destruct (regs s !! j); simpl; [|done]. destruct (regs t !! j); simpl; [|done].
    by rewrite (assoc_L reg_max).
  - rewrite list_lookup_alter_ne, !lookup_zip_with, list_lookup_alter_ne by done. done.
Qed.
End HllFacts.

Lemma hll_join_valid s t : hll_valid s → hll_valid t → hll_valid (hll_join s t).
Proof.
  intros [Hs Hb] [Ht _]. split; [|done]. simpl. rewrite length_zip_with. lia.
Qed.

(** Pointwise reasoning on the registers of a union. *)
Ltac by_register :=
  unfold hll_join; cbn [regs]; apply list_eq; intros ?;
  rewrite ?lookup_zip_with;
  repeat match goal with |- context [?l !! ?i] => destruct (l !! i); simpl; try done end.

Lemma hll_join_comm s t : regs (hll_join s t) = regs (hll_join t s).
Proof. by_register. f_equal. apply (comm_L reg_max). Qed.

Lemma hll_join_assoc s t u :
  regs (hll_join s (hll_join t u)) = regs (hll_join (hll_join s t) u).
Proof. by_register. f_equal. apply (assoc_L reg_max). Qed.

Lemma hll_join_idemp s : regs (hll_join s s) = regs s.
Proof. by_register. f_equal. apply (idemp_L reg_max). Qed.

Lemma hll_join_new s : hll_valid s → regs (hll_join s hll_New) = regs s.
Proof.
  intros [Hs _]. unfold hll_join. simpl. rewrite zip_with_replicate_r by lia.
  rewrite <- (list_fmap_id (regs s)) at 2. apply list_fmap_ext.
  intros _ x _. apply (right_id_L x00 reg_max).
Qed.

(** ** The wire format *)

Lemma length_hll_Bytes s : length (hll_Bytes s) = (2 + Z.to_nat numRegs)%nat.
Proof. unfold hll_Bytes. rewrite length_app, length_go_copy, length_replicate. done. Qed.

Lemma hll_Bytes_valid s : hll_valid s → hll_Bytes s = PutUint16 precision ++ regs s.
Proof.
  intros [Hs _]. unfold hll_Bytes. rewrite go_copy_all; [done|]. rewrite length_replicate. lia.
Qed.

Lemma hll_Clone_regs s : hll_valid s → regs (hll_Clone s) = regs s.
Proof.
  intros [Hs _]. unfold hll_Clone. simpl. apply go_copy_all. rewrite length_replicate. lia.
Qed.

Lemma hll_Clone_valid s : hll_valid (hll_Clone s).
Proof.
  split; [|reflexivity]. simpl. rewrite length_go_copy. apply length_replicate.
Qed.

(** Exactly which buffers [Parse] accepts, and the registers it reads. *)
Lemma hll_Parse_inv (b : list byte) s :
  hll_Parse b = Ok s ↔
    2 + numRegs ≤ Z.of_nat (length b) ∧ Uint16 b = Some precision ∧
    s = {| regs := take (Z.to_nat numRegs) (drop 2 b); idBuf := replicate 8 x00 |}.
Proof.
  unfold hll_Parse. destruct (decide (Z.of_nat (length b) < 2 + numRegs)) as [Hlt|Hge].
  { split; [done|]. intros [? _]. lia. }
  assert (Uint16 (take 2 b) = Uint16 b) as ->.
  { destruct b as [|b0 [|b1 b]]; done. }
  destruct b as [|b0 [|b1 b]]; [cbn [length] in Hge; pose proof numRegs_val; lia..|].
  assert (go_copy (regs hll_zero) (drop 2 (b0 :: b1 :: b)) =
          take (Z.to_nat numRegs) (drop 2 (b0 :: b1 :: b))) as E.
  { cbn [length drop regs hll_zero] in *. rewrite go_copy_long; rewrite length_replicate; [done|]. rewrite drop_0. lia. }
  rewrite E. unfold hll_zero. cbn [idBuf Uint16]. case_decide as Hp.
  - split; [done|]. intros (_ & [=] & _). done.
  - rewrite Hp. split; [|by intros (_ & _ & ->)].
    intros [= <-]. split; [lia|done].
Qed.

Lemma hll_Parse_valid (b : list byte) s : hll_Parse b = Ok s → hll_valid s.
Proof.
  intros (Hl & _ & ->)%hll_Parse_inv. split; simpl; [|reflexivity].
  rewrite length_take, length_drop. lia.
Qed.

Lemma hll_Parse_Bytes s :
  hll_valid s → hll_Parse (hll_Bytes s) = Ok {| regs := regs s; idBuf := replicate 8 x00 |}.
Proof.
  intros Hs. apply hll_Parse_inv. rewrite length_hll_Bytes.
  split_and_go; [lia| |].
  - rewrite hll_Bytes_valid by done. reflexivity.
  - rewrite hll_Bytes_valid by done. unfold PutUint16. cbn [drop app]. rewrite drop_0.
    destruct Hs as [Hs _]. by rewrite take_ge by lia.
Qed.

(** ** Registers as maxima *)

Section Registers.
Context `{!Murmur3}.

Lemma hll_register_cons id ids i :
  hll_register (id :: ids) i =
    if decide (Z.to_nat (hll_idx (Sum64 (PutUint64 id))) = i)
    then Z.max (hll_rho (Sum64 (PutUint64 id))) (hll_register ids i)
    else hll_register ids i.
Proof. unfold hll_register. rewrite filter_cons. by case_decide. Qed.

Lemma hll_register_nonneg ids i : 0 ≤ hll_register ids i.
Proof. unfold hll_register. induction (_ <$> _); simpl; lia. Qed.

Lemma hll_insert_lookup s id i r :
  regs s !! i = Some r →
  ∃ r', regs (hll_insert s id) !! i = Some r' ∧
    byte_to_Z r' = if decide (Z.to_nat (hll_idx (Sum64 (PutUint64 id))) = i)
                   then Z.max (byte_to_Z r) (hll_rho (Sum64 (PutUint64 id))) else byte_to_Z r.
Proof.
  intros Hr. unfold hll_insert. cbn [regs]. set (h := Sum64 (PutUint64 id)).
  pose proof (hll_rho_range h (Sum64_u64 _)) as Hrho.
  destruct (decide (Z.to_nat (hll_idx h) = i)) as [<-|Hne].
  - rewrite list_lookup_alter_eq, Hr. eexists. split; [done|].
    rewrite reg_max_Z, byte_to_Z_small by lia. done.
  - rewrite list_lookup_alter_ne by done. eauto.
Qed.

Lemma hll_foldl_lookup ids s i r :
  regs s !! i = Some r →
  ∃ r', regs (foldl hll_insert s ids) !! i = Some r' ∧
    byte_to_Z r' = Z.max (byte_to_Z r) (hll_register ids i).
Proof.
  revert s r. induction ids as [|id ids IH]; intros s r Hr; simpl.
  { exists r. pose proof (byte_to_Z_range r). split; [done|]. change (hll_register [] i) with 0. lia. }
  destruct (hll_insert_lookup s id i r Hr) as (r1 & Hr1 & E1).
  destruct (IH _ _ Hr1) as (r' & Hr' & E'). exists r'. split; [done|].
  rewrite E', E1, hll_register_cons. case_decide; lia.
Qed.

Lemma hll_foldl_valid ids s : hll_valid s → hll_valid (foldl hll_insert s ids).
Proof. revert s. induction ids; intros s Hs; simpl; auto using hll_insert_valid. Qed.

Lemma hll_foldl_regs ids s t :
  regs s = regs t → regs (foldl hll_insert s ids) = regs (foldl hll_insert t ids).
Proof.
  revert s t. induction ids as [|a ids IH]; simpl; [done|].
  intros s t E. by apply IH, hll_insert_regs.
Qed.

Lemma hll_join_foldl ids s t :
  hll_valid s → hll_valid t →
  regs (hll_join s (foldl hll_insert t ids)) = regs (foldl hll_insert (hll_join s t) ids).
Proof.
  intros Hs. revert t. induction ids as [|id ids IH]; intros t Ht; cbn [foldl]; [done|].
  rewrite IH by auto using hll_insert_valid. by apply hll_foldl_regs, hll_join_insert.
Qed.
End Registers.

(** ** Properties *)

#[local] Existing Instances StandIn.murmur3 StandIn.roaring64.

(** C6: after any sequence of ids, no [Add] has indexed out of range, and every
    register holds the largest rank of the ids that hash to it. *)
Theorem hll_add_registers `{!Murmur3} (ids : list Z) :
  ∃ s, hll_AddAll hll_New ids = Ret s ∧ hll_valid s ∧
    ∀ i : nat, (i < Z.to_nat numRegs)%nat →
      ∃ r, regs s !! i = Some r ∧ byte_to_Z r = hll_register ids i.
Proof.
  exists (foldl hll_insert hll_New ids).
  split; [apply hll_AddAll_foldl, hll_New_valid|].
  split; [apply hll_foldl_valid, hll_New_valid|]. intros i Hi.
  destruct (hll_foldl_lookup ids hll_New i x00) as (r & Hr & E).
  { by apply lookup_replicate_2. }
  exists r. split; [done|]. rewrite E. pose proof (hll_register_nonneg ids i).
  change (byte_to_Z x00) with 0. lia.
Qed.

Lemma hll_add_registers_witness :
  ∃ s, hll_AddAll hll_New [7; 7; 42] = Ret s ∧ hll_valid s ∧
    ∀ i : nat, (i < Z.to_nat numRegs)%nat →
      ∃ r, regs s !! i = Some r ∧ byte_to_Z r = hll_register [7; 7; 42] i.
Proof. apply (@hll_add_registers StandIn.murmur3 [7; 7; 42]). Defined.

(** C29: the index is the top 14 bits of the hash and within the register array, and
    the rank is the position of the first one among the other 50 bits, counted from
    one, or 51 when they are all zero; the [uint8] arithmetic does not wrap. *)
Theorem hll_rank_spec (hash : Z) :
  u64 hash →
  hll_idx hash = hash / 2 ^ 50 ∧ 0 ≤ hll_idx hash < numRegs ∧ 1 ≤ hll_rho hash ≤ 51 ∧
  (hash mod 2 ^ 50 = 0 → hll_rho hash = 51) ∧
  (hash mod 2 ^ 50 ≠ 0 →
     2 ^ (50 - hll_rho hash) ≤ hash mod 2 ^ 50 < 2 ^ (51 - hll_rho hash)).
Proof.
  intros Hh. split_and_go.
  - apply hll_idx_div.
  - apply hll_idx_range, Hh.
  - apply hll_idx_range, Hh.
  - apply hll_rho_range, Hh.
  - apply hll_rho_range, Hh.
  - intros E. rewrite hll_rho_unfold by done. by rewrite decide_True.
  - intros Hne. rewrite hll_rho_unfold, decide_False by done.
    assert (0 ≤ hash mod 2 ^ 50 < 2 ^ 50) by (apply Z.mod_pos_bound; lia).
    replace (50 - (50 - Z.log2 (hash mod 2 ^ 50))) with (Z.log2 (hash mod 2 ^ 50)) by lia.
    replace (51 - (50 - Z.log2 (hash mod 2 ^ 50))) with (Z.succ (Z.log2 (hash mod 2 ^ 50))) by lia.
    apply Z.log2_spec. lia.
Qed.

Lemma hll_rank_spec_witness :
  u64 (2 ^ 63 + 5) ∧
  hll_idx (2 ^ 63 + 5) = (2 ^ 63 + 5) / 2 ^ 50 ∧ 0 ≤ hll_idx (2 ^ 63 + 5) < numRegs ∧
  1 ≤ hll_rho (2 ^ 63 + 5) ≤ 51 ∧
  ((2 ^ 63 + 5) mod 2 ^ 50 = 0 → hll_rho (2 ^ 63 + 5) = 51) ∧
  ((2 ^ 63 + 5) mod 2 ^ 50 ≠ 0 →
     2 ^ (50 - hll_rho (2 ^ 63 + 5)) ≤ (2 ^ 63 + 5) mod 2 ^ 50 < 2 ^ (51 - hll_rho (2 ^ 63 + 5))).
Proof.
  assert (u64 (2 ^ 63 + 5)) as H by (split; [discriminate|reflexivity]).
  split; [exact H|]. exact (hll_rank_spec (2 ^ 63 + 5) H).
Defined.

(** C7: merging the sketches of two lists of ids gives the registers of the sketch
    of all the ids: a merge loses nothing and invents nothing. *)
Theorem hll_merge_union `{!Murmur3, !Roaring64} (ids1 ids2 : list Z) :
  ∃ s1 s2 s t, hll_AddAll hll_New ids1 = Ret s1 ∧ hll_AddAll hll_New ids2 = Ret s2 ∧
    hll_Merge s1 (SHll s2) = Ret s ∧ hll_AddAll hll_New (ids1 ++ ids2) = Ret t ∧
    hll_valid s ∧ regs s = regs t.
Proof.
  pose proof hll_New_valid as HN.
  exists (foldl hll_insert hll_New ids1), (foldl hll_insert hll_New ids2).
  eexists _, _. rewrite !hll_AddAll_foldl by done. split_and_go; try done.
  - apply (hll_join_valid (foldl hll_insert hll_New ids1)); auto using hll_foldl_valid.
  - change (regs (hll_join (foldl hll_insert hll_New ids1) (foldl hll_insert hll_New ids2))
            = regs (foldl hll_insert hll_New (ids1 ++ ids2))).
    rewrite hll_join_foldl by auto using hll_foldl_valid. rewrite foldl_app.
    by apply hll_foldl_regs, hll_join_new, hll_foldl_valid.
Qed.

Lemma hll_merge_union_witness :
  ∃ s1 s2 s t, hll_AddAll hll_New [1; 2] = Ret s1 ∧
    hll_AddAll hll_New [2; 3] = Ret s2 ∧
    hll_Merge s1 (SHll s2) = Ret s ∧
    hll_AddAll hll_New ([1; 2] ++ [2; 3]) = Ret t ∧
    hll_valid s ∧ regs s = regs t.
Proof. apply (@hll_merge_union StandIn.murmur3 StandIn.roaring64 [1; 2] [2; 3]). Defined.

(** The bytes of a sketch parse back to a sketch with the same registers. *)
Lemma hll_bytes_parse (s : hll_sketch) :
  hll_valid s →
  ∃ s', hll_Parse (hll_Bytes s) = Ok s' ∧ hll_valid s' ∧ regs s' = regs s.
Proof.
  intros Hs. eexists. rewrite hll_Parse_Bytes by done. split; [done|].
  split; [|done]. split; [apply Hs|reflexivity].
Qed.

(** [Parse] accepts exactly the buffers that hold at least the header and all the
    registers and whose header is the precision; what it accepts is a well-formed
    sketch whose own bytes are the first [2 + numRegs] bytes of the buffer, so any
    bytes after those are ignored. *)
Lemma hll_parse_accepts (b : list byte) :
  (2 + numRegs ≤ Z.of_nat (length b) ∧ Uint16 b = Some precision →
     ∃ s, hll_Parse b = Ok s ∧ hll_valid s ∧ hll_Bytes s = take (2 + Z.to_nat numRegs) b) ∧
  (Z.of_nat (length b) < 2 + numRegs → hll_Parse b = Err EHllShort) ∧
  (∀ p, 2 + numRegs ≤ Z.of_nat (length b) → Uint16 b = Some p → p ≠ precision →
     hll_Parse b = Err (EHllPrecision p precision)).
Proof.
  split; [|split].
  - intros [Hl Hp]. eexists. rewrite (proj2 (hll_Parse_inv b _)) by done.
    split; [done|]. assert (hll_valid {| regs := take (Z.to_nat numRegs) (drop 2 b);
      idBuf := replicate 8 x00 |}) as Hv.
    { split; [|reflexivity]. simpl. rewrite length_take, length_drop. lia. }
    split; [done|]. rewrite hll_Bytes_valid by done. simpl.
    destruct b as [|b0 [|b1 b]]; [done..|].
    apply Uint16_inv in Hp as [-> ->]; [|done]. cbn [drop take plus]. rewrite drop_0. reflexivity.
  - intros Hl. unfold hll_Parse. by rewrite decide_True.
  - intros p Hl Hp Hne. unfold hll_Parse. rewrite decide_False by lia.
    destruct b as [|b0 [|b1 b]]; [done..|]. simpl in *. simplify_eq. by rewrite decide_True.
Qed.
