(* ===== verification/Float64.v ===== *)
(** * Go's float64 and the parts of package math the estimator uses

    A [float64] is an IEEE 754 binary64 number, [spec_float] of the standard
    library's specification of floating point, with the arithmetic that rounds to
    the nearest even number. [math.Log] is the portable algorithm of Go's
    math/log.go, constant for constant; a platform may compute it in assembly and a
    compiler may fuse a product and a sum, which can change the last bit. *)

From Stdlib Require Import SpecFloat.
From S2P Require Import Prelude.
Local Open Scope Z_scope.

Definition f64 : Type := spec_float.
Definition f64_zero : f64 := S754_zero false.

(** ** Arithmetic *)

Definition f64_add (x y : f64) : f64 := SFadd 53 1024 x y.
Definition f64_sub (x y : f64) : f64 := SFsub 53 1024 x y.
Definition f64_mul (x y : f64) : f64 := SFmul 53 1024 x y.
Definition f64_div (x y : f64) : f64 := SFdiv 53 1024 x y.
Definition f64_leb (x y : f64) : bool := SFleb x y.
Definition f64_ltb (x y : f64) : bool := SFltb x y.

(** [float64(n)] of an integer, rounded to nearest even. *)
Definition f64_of_Z (n : Z) : f64 := binary_normalize 53 1024 n 0 false.

(** A decimal literal [n / d]: the float nearest to the quotient. *)
Definition f64_lit (n d : Z) : f64 := f64_div (f64_of_Z n) (f64_of_Z d).

(** A positive normal number from the 64 bits of its IEEE encoding. *)
Definition f64_of_bits (w : Z) : f64 :=
  binary_normalize 53 1024 (w mod 2 ^ 52 + 2 ^ 52) (Z.shiftr w 52 - 1075) false.

(** ** Package math *)

(** [math.Pow(2, y)] for an integer [y]: the power of two itself. *)
Definition math_Pow2 (y : Z) : f64 := binary_normalize 53 1024 1 y false.

Definition math_Log (x : f64) : f64 :=
  match x with
  | S754_nan => S754_nan
  | S754_infinity false => x
  | S754_infinity true | S754_finite true _ _ => S754_nan
  | S754_zero _ => S754_infinity true
  | S754_finite false _ _ =>
      let Ln2Hi := f64_of_bits 0x3fe62e42fee00000 in
      let Ln2Lo := f64_of_bits 0x3dea39ef35793c76 in
      let L1 := f64_of_bits 0x3FE5555555555593 in
      let L2 := f64_of_bits 0x3FD999999997FA04 in
      let L3 := f64_of_bits 0x3FD2492494229359 in
      let L4 := f64_of_bits 0x3FCC71C51D8E78AF in
      let L5 := f64_of_bits 0x3FC7466496CB03DE in
      let L6 := f64_of_bits 0x3FC39A09D078C69F in
      let L7 := f64_of_bits 0x3FC2F112DF3E5244 in
      let '(g, ki0) := SFfrexp 53 1024 x in
      let '(f1, ki) :=
        if f64_ltb g (f64_of_bits 0x3FE6A09E667F3BCD)
        then (f64_mul g (f64_of_Z 2), ki0 - 1) else (g, ki0) in
      let f := f64_sub f1 (f64_of_Z 1) in
      let k := f64_of_Z ki in
      let s := f64_div f (f64_add (f64_of_Z 2) f) in
      let s2 := f64_mul s s in
      let s4 := f64_mul s2 s2 in
      let t1 := f64_mul s2 (f64_add L1 (f64_mul s4 (f64_add L3
                  (f64_mul s4 (f64_add L5 (f64_mul s4 L7)))))) in
      let t2 := f64_mul s4 (f64_add L2 (f64_mul s4 (f64_add L4 (f64_mul s4 L6)))) in
      let R := f64_add t1 t2 in
      let hfsq := f64_mul (f64_mul (f64_lit 1 2) f) f in
      f64_sub (f64_mul k Ln2Hi)
        (f64_sub (f64_sub hfsq (f64_add (f64_mul s (f64_add hfsq R)) (f64_mul k Ln2Lo))) f)
  end.

(** [math.Round]: the nearest integer, halves away from zero. *)
Definition math_Round (x : f64) : f64 :=
  match x with
  | S754_finite sgn m e =>
      if 0 <=? e then x
      else binary_normalize 53 1024
             ((if sgn then -1 else 1) * ((Zpos m + 2 ^ (- e - 1)) / 2 ^ (- e))) 0 sgn
  | _ => x
  end.

(** The integer a finite float denotes, rounded towards zero. *)
Definition f64_trunc (x : f64) : option Z :=
  match x with
  | S754_zero _ => Some 0
  | S754_finite sgn m e =>
      Some ((if sgn then -1 else 1) *
            (if 0 <=? e then Zpos m * 2 ^ e else Zpos m / 2 ^ (- e)))
  | _ => None
  end.

(** [uint64(x)]: the truncated value; what a value out of range converts to is
    left to the implementation by the language, so it is a parameter; it is a value of
    the type all the same. *)
Class FloatConv := {
  u64_out_of_range : f64 → Z;
  u64_out_of_range_u64 : ∀ x, u64 (u64_out_of_range x);
}.

Definition u64_of_f64 `{!FloatConv} (x : f64) : Z :=
  match f64_trunc x with
  | Some n => if decide (0 ≤ n < 2 ^ 64) then n else u64_out_of_range x
  | None => u64_out_of_range x
  end.

Lemma u64_of_f64_u64 `{!FloatConv} x : u64 (u64_of_f64 x).
Proof.
  unfold u64_of_f64. destruct (f64_trunc x) as [n|]; [case_decide; [done|]|]; apply u64_out_of_range_u64.
Qed.
