(* ===== verification/Estimate.v ===== *)
(** * The HyperLogLog estimator (internal/cardinality/hll/hll.go, Cardinality)

    The harmonic-mean estimate in float64 with the linear-counting correction. *)

From Stdlib Require Import SpecFloat.
From S2P Require Import Prelude Float64 SketchValue Hll.
Local Open Scope Z_scope.

Definition alphaMM : f64 :=
  f64_mul (f64_mul
    (f64_div (f64_lit 7213 10000)
       (f64_add (f64_of_Z 1) (f64_div (f64_lit 1079 1000) (f64_of_Z numRegs))))
    (f64_of_Z numRegs)) (f64_of_Z numRegs).

(** One turn of the loop over the registers: the sum and the count of zeros. *)
Definition hll_Cardinality_step (acc : f64 * Z) (v : byte) : f64 * Z :=
  (f64_add acc.1 (math_Pow2 (- byte_to_Z v)),
   if decide (byte_to_Z v = 0) then acc.2 + 1 else acc.2).

Definition hll_Cardinality_loop (rs : list byte) : f64 * Z :=
  foldl hll_Cardinality_step (f64_zero, 0) rs.

(** The small-range estimate: linear counting over the empty registers. *)
Definition hll_linear (zeros : Z) : f64 :=
  f64_mul (f64_of_Z numRegs) (math_Log (f64_div (f64_of_Z numRegs) (f64_of_Z zeros))).

Definition hll_Cardinality `{!FloatConv} (s : hll_sketch) : Z :=
  let '(sum, zeros) := hll_Cardinality_loop (regs s) in
  let est := f64_div alphaMM sum in
  let est' :=
    if f64_leb est (f64_mul (f64_lit 5 2) (f64_of_Z numRegs)) && bool_decide (0 < zeros)
    then hll_linear zeros else est in
  u64_of_f64 (math_Round est').

Lemma hll_Cardinality_u64 `{!FloatConv} s : u64 (hll_Cardinality s).
Proof. unfold hll_Cardinality. destruct (hll_Cardinality_loop (regs s)). apply u64_of_f64_u64. Qed.
