(* ===== verification/Rounding.v ===== *)
(** * Bounds on rounded arithmetic

    What the estimator's correctness needs of binary64 rounding: a sum of positive
    numbers stays above an integer bound and below a slack one, and a quotient has a
    bounded exponent. A non-negative number is a mantissa [m] and an exponent [e]; for
    [e ≤ 0] its value is at least the integer [K] when [K * 2 ^ (- e) ≤ m]. *)

From Stdlib Require Import SpecFloat.
From S2P Require Import Prelude Float64.
Local Open Scope Z_scope.

(** ** Digits *)

Lemma digits2_pos_log2 p : Zpos (digits2_pos p) = Z.log2 (Zpos p) + 1.
Proof.
  assert (digits2_pos p = Pos.size p) as -> by (induction p; simpl; congruence).
  destruct p; simpl; lia.
Qed.

Lemma Zdigits2_log2 m : 0 < m → Zdigits2 m = Z.log2 m + 1.
Proof. intros Hm. destruct m as [|p|p]; try lia. apply digits2_pos_log2. Qed.

(** A mantissa below a power of two has at most that many digits. *)
Lemma Zdigits2_le m d : 0 ≤ d → 0 ≤ m < 2 ^ d → Zdigits2 m ≤ d.
Proof.
  intros Hd [Hm Hlt]. destruct (decide (m = 0)) as [->|Hne]; [done|].
  rewrite Zdigits2_log2 by lia. apply Z.log2_lt_pow2 in Hlt; lia.
Qed.

Lemma Zdigits2_ge m d : 0 ≤ d → 2 ^ d ≤ m → d + 1 ≤ Zdigits2 m.
Proof.
  intros Hd Hm. pose proof (Z.pow_pos_nonneg 2 d). rewrite Zdigits2_log2 by lia.
  apply Z.log2_le_pow2 in Hm; lia.
Qed.

(** ** Shifting right *)

Lemma shr_1_m mrs : 0 ≤ shr_m mrs → shr_m (shr_1 mrs) = shr_m mrs / 2.
Proof.
  destruct mrs as [m r s]. cbn [shr_m]. intros Hm. destruct m as [|[p|p|]|p]; try done; cbn [shr_1 shr_m].
  - rewrite (Pos2Z.inj_xI p). apply (Z.div_unique _ _ _ 1); lia.
  - rewrite (Pos2Z.inj_xO p). apply (Z.div_unique _ _ _ 0); lia.
Qed.

Lemma shr_iter_m p mrs : 0 ≤ shr_m mrs → shr_m (SpecFloat.iter_pos shr_1 p mrs) = shr_m mrs / 2 ^ Zpos p.
Proof.
  revert mrs. induction p as [p IH|p IH|]; intros mrs Hm; cbn [SpecFloat.iter_pos].
  - assert (0 ≤ shr_m (shr_1 mrs)) by (rewrite shr_1_m by done; apply Z.div_pos; lia).
    assert (0 ≤ shr_m (SpecFloat.iter_pos shr_1 p (shr_1 mrs))) by (rewrite IH by done; apply Z.div_pos; [done|apply Z.pow_pos_nonneg; lia]).
    rewrite !IH, shr_1_m, !Z.div_div by (done || (try apply Z.pow_nonzero); try apply Z.pow_pos_nonneg; lia).
    f_equal. rewrite (Pos2Z.inj_xI p). replace (2 * Zpos p + 1) with (1 + (Zpos p + Zpos p)) by lia.
    rewrite !Z.pow_add_r by lia. lia.
  - assert (0 ≤ shr_m (SpecFloat.iter_pos shr_1 p mrs)) by (rewrite IH by done; apply Z.div_pos; [done|apply Z.pow_pos_nonneg; lia]).
    rewrite !IH, Z.div_div by (done || (try apply Z.pow_nonzero); try apply Z.pow_pos_nonneg; lia).
    f_equal. rewrite (Pos2Z.inj_xO p). replace (2 * Zpos p) with (Zpos p + Zpos p) by lia.
    by rewrite Z.pow_add_r by lia.
  - by apply shr_1_m.
Qed.

(** The exponent a mantissa is brought to, and the mantissa there. *)
Definition target (m e : Z) : Z := Z.max e (fexp 53 1024 (Zdigits2 m + e)).

Lemma shr_fexp_spec m e l :
  0 ≤ m → ∃ mrs, shr_fexp 53 1024 m e l = (mrs, target m e) ∧ shr_m mrs = m / 2 ^ (target m e - e).
Proof.
  intros Hm. unfold shr_fexp, shr, target. set (f := fexp 53 1024 (Zdigits2 m + e)).
  assert (shr_m (shr_record_of_loc m l) = m) as Hr by (by destruct l as [|[]]).
  destruct (f - e) as [|p|p] eqn:Ed.
  - eexists. rewrite Z.max_l by lia. split; [done|]. by rewrite Hr, Z.sub_diag, Z.div_1_r.
  - eexists. rewrite Z.max_r by lia. split; [by rewrite <- Ed; f_equal; lia|].
    rewrite shr_iter_m by lia. by rewrite Hr, Ed.
  - eexists. rewrite Z.max_l by lia. split; [done|]. by rewrite Hr, Z.sub_diag, Z.div_1_r.
Qed.

Lemma round_nearest_even_range m l : m ≤ round_nearest_even m l ≤ m + 1.
Proof. destruct l as [|[]]; simpl; try lia. destruct (Z.even m); lia. Qed.

(** ** Rounding *)

(** The result with a mantissa and an exponent. *)
Definition pack (m e : Z) : f64 :=
  match m with
  | Z0 => S754_zero false
  | Zpos p => if e <=? 971 then S754_finite false p e else S754_infinity false
  | Zneg _ => S754_nan
  end.

Lemma div_pow_lower m n a : 0 ≤ n → a * 2 ^ n ≤ m → a ≤ m / 2 ^ n.
Proof. intros Hn Ha. pose proof (Z.pow_pos_nonneg 2 n). apply Z.div_le_lower_bound; lia. Qed.

Lemma div_pow_upper m n a : 0 ≤ n → m ≤ a * 2 ^ n → m / 2 ^ n ≤ a.
Proof. intros Hn Ha. pose proof (Z.pow_pos_nonneg 2 n). apply Z.div_le_upper_bound; lia. Qed.

(** Moving a bound between exponents. *)
Lemma pow_split e e1 : e ≤ e1 → e1 ≤ 0 → 2 ^ (- e) = 2 ^ (- e1) * 2 ^ (e1 - e).
Proof. intros H1 H2. rewrite <- Z.pow_add_r by lia. f_equal. lia. Qed.

Lemma target_le m e D : e ≤ D → -1021 ≤ D → 0 ≤ m < 2 ^ (D - e) → target m e ≤ Z.max e (D - 53).
Proof.
  intros He HD Hm. apply Zdigits2_le in Hm; [|lia]. unfold target, fexp, emin. lia.
Qed.

(** Rounding keeps an integer lower bound, at most adds one to an upper bound, and
    brings the exponent close to that of the magnitude. *)
Lemma binary_round_aux_spec m e l D :
  0 ≤ m < 2 ^ (D - e) → e ≤ D → -1021 ≤ D →
  ∃ m' e', binary_round_aux 53 1024 false m e l = pack m' e' ∧ 0 ≤ m' ∧
    e ≤ e' ≤ Z.max e (D - 52) ∧
    (e' ≤ 0 → ∀ K, 0 ≤ K → K * 2 ^ (- e) ≤ m → K * 2 ^ (- e') ≤ m') ∧
    (e' ≤ 0 → ∀ U, m ≤ U * 2 ^ (- e) → m' ≤ (U + 1) * 2 ^ (- e')).
Proof.
  intros Hm He HD. unfold binary_round_aux.
  destruct (shr_fexp_spec m e l) as (mrs & -> & Em); [lia|].
  pose proof (target_le m e D He HD Hm) as Ht. assert (e ≤ target m e) as Het by (unfold target; lia).
  set (e1 := target m e) in *. set (m1 := shr_m mrs) in *.
  pose proof (round_nearest_even_range m1 (loc_of_shr_record mrs)) as Hr.
  set (r := round_nearest_even m1 (loc_of_shr_record mrs)) in *.
  assert (0 ≤ m1) as Hm1 by (rewrite Em; apply Z.div_pos; [lia|apply Z.pow_pos_nonneg; lia]).
  assert (m1 < 2 ^ (D - e1)) as Hlt.
  { rewrite Em. apply Z.div_lt_upper_bound; [apply Z.pow_pos_nonneg; lia|].
    rewrite <- Z.pow_add_r by lia. replace (e1 - e + (D - e1)) with (D - e) by lia. lia. }
  assert (0 ≤ r < 2 ^ (D + 1 - e1)) as Hr'.
  { split; [lia|]. replace (D + 1 - e1) with (1 + (D - e1)) by lia. rewrite Z.pow_add_r by lia. lia. }
  destruct (shr_fexp_spec r e1 loc_Exact) as (mrs2 & -> & Em2); [lia|].
  pose proof (target_le r e1 (D + 1) ltac:(lia) ltac:(lia) Hr') as Ht2.
  assert (e1 ≤ target r e1) as Het2 by (unfold target; lia). set (e2 := target r e1) in *.
  assert (0 ≤ shr_m mrs2) as Hm2 by (rewrite Em2; apply Z.div_pos; [lia|apply Z.pow_pos_nonneg; lia]).
  exists (shr_m mrs2), e2. split; [by destruct (shr_m mrs2)|]. split; [done|]. split; [lia|]. split.
  - intros He2 K HK HKm. rewrite Em2. apply div_pow_lower; [lia|].
    rewrite <- Z.mul_assoc, <- pow_split by lia. transitivity m1; [|lia].
    rewrite Em. apply div_pow_lower; [lia|]. by rewrite <- Z.mul_assoc, <- pow_split by lia.
  - intros He2 U HU. rewrite Em2. apply div_pow_upper; [lia|].
    rewrite <- Z.mul_assoc, <- pow_split by lia. transitivity (m1 + 1); [lia|].
    rewrite Z.mul_add_distr_r. apply Z.add_le_mono; [|pose proof (Z.pow_pos_nonneg 2 (- e1)); lia].
    rewrite Em. apply div_pow_upper; [lia|]. by rewrite <- Z.mul_assoc, <- pow_split by lia.
Qed.

(** ** Sums *)

Lemma iter_xO m d : Zpos (Pos.iter xO m d) = Zpos m * 2 ^ Zpos d.
Proof.
  revert d. apply Pos.peano_ind; [by rewrite Z.mul_comm|]. intros d IH.
  rewrite Pos.iter_succ, Pos2Z.inj_xO, IH, Pos2Z.inj_succ, Z.pow_succ_r by lia. lia.
Qed.

Lemma shl_align_spec m e e' :
  ∃ m', shl_align m e e' = (m', Z.min e e') ∧ Zpos m' = Zpos m * 2 ^ (e - Z.min e e').
Proof.
  unfold shl_align. destruct (e' - e) as [|d|d] eqn:Ed.
  - exists m. rewrite Z.min_l, Z.sub_diag by lia. split; [done|lia].
  - exists m. rewrite Z.min_l, Z.sub_diag by lia. split; [done|lia].
  - eexists. rewrite Z.min_r by lia. split; [done|]. rewrite iter_xO. do 2 f_equal. lia.
Qed.

(** Between the integers [K] and [U]. *)
Definition between (K U : Z) (x : f64) : Prop :=
  ∃ m e, x = S754_finite false m e ∧ e ≤ 0 ∧ K * 2 ^ (- e) ≤ Zpos m ≤ U * 2 ^ (- e).

(** A bound at one exponent is the same bound at a smaller one. *)
Lemma scale_bounds K U m e ez :
  ez ≤ e → e ≤ 0 → K * 2 ^ (- e) ≤ m ≤ U * 2 ^ (- e) →
  K * 2 ^ (- ez) ≤ m * 2 ^ (e - ez) ≤ U * 2 ^ (- ez).
Proof.
  intros H1 H2 [HK HU]. rewrite (pow_split ez e), !Z.mul_assoc by lia.
  pose proof (Z.pow_pos_nonneg 2 (e - ez)). split; apply Z.mul_le_mono_nonneg_r; lia.
Qed.

(** Rounding a positive number between two integers. *)
Lemma binary_round_between K U m e :
  0 ≤ K → U < 2 ^ 20 → e ≤ 0 → K * 2 ^ (- e) ≤ Zpos m ≤ U * 2 ^ (- e) →
  between K (U + 1) (binary_round 53 1024 false m e) ∨
  (binary_round 53 1024 false m e = S754_zero false ∧ K = 0).
Proof.
  intros HK HU He Hm. unfold binary_round. set (f := fexp _ _ _).
  destruct (shl_align_spec m e f) as (a & -> & Ea). set (ez := Z.min e f) in *.
  apply (scale_bounds K U (Zpos m) e ez) in Hm; [|lia..]. rewrite <- Ea in Hm.
  destruct (binary_round_aux_spec (Zpos a) ez loc_Exact 20) as (m' & e' & -> & Hm' & He' & HL & HH); [|lia..|].
  { split; [lia|]. replace (20 - ez) with (20 + - ez) by lia. rewrite Z.pow_add_r by lia.
    eapply Z.le_lt_trans; [apply Hm|]. apply Z.mul_lt_mono_pos_r; [apply Z.pow_pos_nonneg; lia|done]. }
  assert (e' ≤ 0) as Hle by lia. specialize (HL Hle K HK (proj1 Hm)). specialize (HH Hle U (proj2 Hm)).
  destruct m' as [|p|p]; [|left|lia]; cbn [pack].
  - right. split; [done|]. pose proof (Z.pow_pos_nonneg 2 (- e')). nia.
  - destruct (Z.leb_spec e' 971); [|lia]. by exists p, e'.
Qed.

(** The sum of two positive numbers, rounded. *)
Lemma f64_add_between K U K' U' x y :
  0 ≤ K → 0 ≤ K' → U + U' < 2 ^ 20 → between K U x → between K' U' y →
  between (K + K') (U + U' + 1) (f64_add x y) ∨ (f64_add x y = S754_zero false ∧ K + K' = 0).
Proof.
  intros HK HK' HU (m & e & -> & He & Hm) (m' & e' & -> & He' & Hm').
  unfold f64_add, SFadd. cbn [cond_Zopp]. set (ez := Z.min e e').
  destruct (shl_align_spec m e ez) as (a & -> & Ea). destruct (shl_align_spec m' e' ez) as (b & -> & Eb).
  cbn [fst]. rewrite Z.min_r in Ea, Eb by lia.
  apply (scale_bounds K U (Zpos m) e ez) in Hm; [|lia..].
  apply (scale_bounds K' U' (Zpos m') e' ez) in Hm'; [|lia..].
  cbn [Z.add binary_normalize]. apply binary_round_between; lia.
Qed.

(** ** Quotients *)

(** Dividing by a number above [K] gives a number whose exponent shows it is small. *)
Lemma f64_div_exponent A K U x :
  0 < K → 2 ^ 13 ≤ K → Z.log2 (Zpos A) = 52 → Zpos A < K * 2 ^ 39 → between K U x →
  f64_div (S754_finite false A (-25)) x = S754_zero false ∨
  ∃ m e, f64_div (S754_finite false A (-25)) x = S754_finite false m e ∧ e ≤ -38.
Proof.
  intros HK0 HK HA HAK (m & e & -> & He & Hm & _). unfold f64_div, SFdiv, SFdiv_core_binary. cbn [xorb].
  rewrite !Zdigits2_log2, HA by lia.
  assert (14 ≤ Z.log2 (Zpos m) + 1 + e) as Hd.
  { rewrite <- Zdigits2_log2 by lia.
    pose proof (Zdigits2_ge (Zpos m) (13 - e)) as Hg. enough (2 ^ (13 - e) ≤ Zpos m) by lia.
    replace (13 - e) with (13 + - e) by lia. rewrite Z.pow_add_r by lia.
    etrans; [|exact Hm]. apply Z.mul_le_mono_nonneg_r; [apply Z.pow_nonneg; lia|done]. }
  set (e' := Z.min _ _). assert (e' ≤ -39) as He' by (unfold e', fexp, emin; lia).
  set (s := -25 - e - e'). assert (0 < s) as Hs by (unfold s, e'; lia).
  assert (match s with Z0 => Zpos A | Zpos _ => Z.shiftl (Zpos A) s | Zneg _ => 0 end = Zpos A * 2 ^ s) as ->.
  { destruct s as [|p|p]; [lia| |lia]. by apply Z.shiftl_mul_pow2. }
  pose proof (Z.div_mod (Zpos A * 2 ^ s) (Zpos m) ltac:(lia)) as Hq.
  pose proof (Z.mod_pos_bound (Zpos A * 2 ^ s) (Zpos m) ltac:(lia)) as Hr.
  unfold Z.div, Z.modulo in Hq, Hr. destruct (Z.div_eucl (Zpos A * 2 ^ s) (Zpos m)) as [q r].
  assert (0 ≤ q < 2 ^ (14 - e')) as Hq'.
  { pose proof (Z.pow_pos_nonneg 2 s). split; [nia|]. apply (Z.mul_lt_mono_pos_r (Zpos m)); [lia|].
    apply (Z.le_lt_trans _ (Zpos A * 2 ^ s)); [lia|].
    apply (Z.lt_le_trans _ (K * 2 ^ 39 * 2 ^ s)); [apply Z.mul_lt_mono_pos_r; lia|].
    apply (Z.le_trans _ (2 ^ (14 - e') * (K * 2 ^ (- e)))); [|apply Z.mul_le_mono_nonneg_l; [apply Z.pow_nonneg; lia|done]].
    rewrite <- Z.mul_assoc, <- Z.pow_add_r by lia. rewrite Z.mul_comm, (Z.mul_comm K), Z.mul_assoc.
    rewrite <- Z.pow_add_r by lia. apply Z.mul_le_mono_nonneg_r; [lia|]. apply Z.pow_le_mono_r; lia. }
  destruct (binary_round_aux_spec q e' (new_location (Zpos m) r) 14 Hq') as (m2 & e2 & -> & Hm2 & He2 & _); [lia..|].
  destruct m2 as [|p|p]; [by left|right|lia]. exists p, e2. cbn [pack].
  destruct (Z.leb_spec e2 971); [|lia]. split; [done|lia].
Qed.
