(* ===== verification/EstimateProps.v ===== *)
(** * The estimator counts small sets exactly

    While fewer than 128 registers are in use the estimate is the number of registers in
    use: the raw estimate stays in the small range whatever the ranks are, and linear
    counting, in float64 and rounded, gives back the number of registers. So up to
    collisions of their hashes the first 127 ids of a group are counted exactly. *)

From Stdlib Require Import SpecFloat.
From S2P Require Import Prelude GoBinary External SketchValue Float64 Hll Estimate Rounding.
Local Open Scope Z_scope.

(** The empty registers. *)
Definition zero_regs (rs : list byte) : nat := length (filter (λ b, b = x00) rs).

(** ** The sum of the loop *)

Lemma pow2_byte (b : byte) :
  math_Pow2 (- byte_to_Z b) = S754_finite false 4503599627370496 (- 52 - byte_to_Z b).
Proof. destruct b; vm_compute; reflexivity. Qed.

Lemma pow2_between (b : byte) : between (if decide (b = x00) then 1 else 0) 1 (math_Pow2 (- byte_to_Z b)).
Proof.
  exists 4503599627370496%positive, (- 52 - byte_to_Z b). split; [apply pow2_byte|].
  pose proof (byte_to_Z_range b). split; [lia|].
  assert (2 ^ 52 ≤ 2 ^ (- (-52 - byte_to_Z b))) as Hp by (apply Z.pow_le_mono_r; lia).
  split; [|by rewrite Z.mul_1_l]. case_decide as Hb; [subst; done|lia].
Qed.

(** The float sum after [n] registers, [k] of them empty. *)
Definition sum_inv (k n : Z) (x : f64) : Prop := between k (2 * n) x ∨ (x = S754_zero false ∧ k = 0).

Lemma between_weaken K U U' x : U ≤ U' → between K U x → between K U' x.
Proof.
  intros HU (m & e & -> & He & Hm). exists m, e. split; [done|]. split; [done|]. split; [lia|].
  etrans; [apply Hm|]. apply Z.mul_le_mono_nonneg_r; [apply Z.pow_nonneg; lia|done].
Qed.

Lemma sum_step k n b x :
  0 ≤ k → 0 ≤ n < 2 ^ 18 → sum_inv k n x →
  sum_inv (k + if decide (b = x00) then 1 else 0) (n + 1) (f64_add x (math_Pow2 (- byte_to_Z b))).
Proof.
  intros Hk Hn [Hx|[-> ->]].
  - destruct (f64_add_between k (2 * n) (if decide (b = x00) then 1 else 0) 1 x (math_Pow2 (- byte_to_Z b)))
      as [Hs|[Hs Hz]]; [done|case_decide; lia|lia|done|apply pow2_between| |].
    + left. eapply between_weaken; [|exact Hs]. lia.
    + right. auto.
  - left. rewrite pow2_byte. cbn [f64_add SFadd]. rewrite <- pow2_byte, Z.add_0_l.
    eapply between_weaken; [|apply pow2_between]. lia.
Qed.

Lemma byte_zero (b : byte) : byte_to_Z b = 0 ↔ b = x00.
Proof. split; [|by intros ->]. intros E. by apply (inj byte_to_Z). Qed.

Lemma loop_spec rs acc k n :
  0 ≤ k → 0 ≤ n → n + Z.of_nat (length rs) < 2 ^ 18 → sum_inv k n acc.1 →
  let r := foldl hll_Cardinality_step acc rs in
  sum_inv (k + Z.of_nat (zero_regs rs)) (n + Z.of_nat (length rs)) r.1 ∧
  r.2 = acc.2 + Z.of_nat (zero_regs rs).
Proof.
  unfold zero_regs. revert acc k n. induction rs as [|b rs IH]; intros acc k n Hk Hn Hlen Hs; cbn [foldl].
  - cbn [filter list_filter length]. rewrite !Z.add_0_r. done.
  - rewrite filter_cons. cbn [length] in Hlen |- *.
    destruct (IH (hll_Cardinality_step acc b) (k + if decide (b = x00) then 1 else 0) (n + 1)) as [H1 H2];
      [case_decide; lia|lia|lia|apply sum_step; [lia|lia|done]|].
    split.
    + replace (k + Z.of_nat (length (if decide (b = x00) then b :: filter (λ b, b = x00) rs else filter (λ b, b = x00) rs)))
        with (k + (if decide (b = x00) then 1 else 0) + Z.of_nat (length (filter (λ b, b = x00) rs)))
        by (repeat case_decide; cbn [length]; try done; lia).
      replace (n + Z.of_nat (S (length rs))) with (n + 1 + Z.of_nat (length rs)) by lia. done.
    + rewrite H2. unfold hll_Cardinality_step. cbn [snd]. pose proof (byte_zero b) as Hb. repeat case_decide; cbn [length]; try lia; naive_solver.
Qed.

(** ** The estimate in the small range *)

Definition alpha_m : positive := Eval vm_compute in match alphaMM with S754_finite _ m _ => m | _ => 1%positive end.

Lemma alphaMM_eq : alphaMM = S754_finite false alpha_m (-25).
Proof. vm_compute. reflexivity. Qed.

Lemma alpha_bound : Zpos alpha_m < 16257 * 2 ^ 39.
Proof. reflexivity. Qed.

Lemma threshold_eq :
  f64_mul (f64_lit 5 2) (f64_of_Z numRegs) = S754_finite false 5629499534213120 (-37).
Proof. vm_compute. reflexivity. Qed.

(** Linear counting, for each number of registers in use. *)
Definition linear_count (n : Z) : bool :=
  match f64_trunc (math_Round (hll_linear (numRegs - n))) with Some k => k =? n | None => false end.

Lemma linear_table : forallb (λ n, linear_count (Z.of_nat n)) (seq 0 128) = true.
Proof. vm_compute. reflexivity. Qed.

Lemma linear_exact n : 0 ≤ n < 128 → f64_trunc (math_Round (hll_linear (numRegs - n))) = Some n.
Proof.
  intros Hn. pose proof linear_table as Ht. rewrite forallb_forall in Ht.
  specialize (Ht (Z.to_nat n)). rewrite Z2Nat.id in Ht by lia.
  unfold linear_count in Ht. destruct (f64_trunc _) as [k|].
  - f_equal. apply Z.eqb_eq, Ht, in_seq. lia.
  - discriminate Ht. apply in_seq. lia.
Qed.

Section Estimate.
Context `{!FloatConv}.

Lemma hll_Cardinality_small s n :
  length (regs s) = Z.to_nat numRegs → 0 ≤ n < 128 → Z.of_nat (zero_regs (regs s)) = numRegs - n →
  hll_Cardinality s = n.
Proof.
  intros Hlen Hn Hz. unfold hll_Cardinality, hll_Cardinality_loop. rewrite numRegs_val in *.
  destruct (loop_spec (regs s) (f64_zero, 0) 0 0) as [Hs Hc]; [lia|lia|lia|by right|].
  destruct (foldl hll_Cardinality_step (f64_zero, 0) (regs s)) as [sum zeros]. cbn [fst snd] in Hs, Hc.
  rewrite Hz in Hs, Hc. rewrite !Z.add_0_l in *. subst zeros.
  assert (f64_leb (f64_div alphaMM sum) (f64_mul (f64_lit 5 2) (f64_of_Z 16384)) = true) as ->.
  { change 16384 with numRegs. rewrite threshold_eq, alphaMM_eq. destruct Hs as [Hs|[_ Hs]]; [|lia].
    destruct (f64_div_exponent alpha_m (16384 - n) (2 * Z.of_nat (length (regs s))) sum) as [->|(m & e & -> & He)];
      [lia|lia|reflexivity|pose proof alpha_bound; nia|done|done|].
    unfold f64_leb, SFleb, SFcompare. by destruct (Z.compare_spec e (-37)); [lia| |lia]. }
  rewrite bool_decide_eq_true_2 by lia. cbn [andb]. unfold u64_of_f64.
  pose proof (linear_exact n Hn) as Hl. rewrite numRegs_val in Hl. rewrite Hl.
  by rewrite decide_True by lia.
Qed.
End Estimate.

(** ** Registers in use *)

Section Registers.
Context `{!Murmur3}.

Definition idx_of (id : Z) : nat := Z.to_nat (hll_idx (Sum64 (PutUint64 id))).

(** The registers the ids fall in. *)
Definition index_set (ids : list Z) : gset nat := list_to_set (idx_of <$> ids).

Lemma hll_register_zero ids i : hll_register ids i = 0 ↔ i ∉ index_set ids.
Proof.
  unfold index_set. induction ids as [|id ids IH]; [split; [set_solver|done]|].
  rewrite hll_register_cons. cbn [fmap list_fmap list_to_set_cons list_to_set].
  rewrite not_elem_of_union, not_elem_of_singleton.
  pose proof (hll_rho_range (Sum64 (PutUint64 id)) (Sum64_u64 _)) as Hr.
  change (Z.to_nat (hll_idx (Sum64 (PutUint64 id)))) with (idx_of id). case_decide as Hi.
  - split; [lia|]. by intros [? _].
  - rewrite IH. naive_solver.
Qed.

(** Writing a non-zero value uses up an empty register, if it was one. *)
Lemma zero_regs_alter f (l : list byte) i r :
  l !! i = Some r → f r ≠ x00 →
  (zero_regs (alter f i l) + (if decide (r = x00) then 1 else 0) = zero_regs l)%nat.
Proof.
  intros Hi Hf. rewrite (list_alter_as_insert f l i r Hi), (insert_take_drop l i (f r)) by (by eapply lookup_lt_Some).
  rewrite <- (take_drop_middle l i r Hi) at 3. unfold zero_regs.
  rewrite !filter_app, !filter_cons, !length_app. repeat case_decide; simpl; try done; lia.
Qed.

Lemma reg_max_nonzero r v : 1 ≤ v < 256 → reg_max r (Z_to_byte v) ≠ x00.
Proof.
  intros Hv E. apply byte_zero in E. rewrite reg_max_Z, byte_to_Z_small in E by lia.
  pose proof (byte_to_Z_range r). lia.
Qed.

Lemma zero_regs_replicate n : zero_regs (replicate n x00) = n.
Proof. unfold zero_regs. induction n as [|n IH]; [done|]. cbn [replicate]. rewrite filter_cons_True by done. cbn [length]. by rewrite IH. Qed.

Lemma index_set_snoc ids id : index_set (ids ++ [id]) = index_set ids ∪ {[idx_of id]}.
Proof. unfold index_set. rewrite fmap_app, list_to_set_app_L. cbn. set_solver. Qed.

(** Ids that do not collide are as many as their registers. *)
Lemma index_set_size ids :
  (∀ a b, a ∈ ids → b ∈ ids → idx_of a = idx_of b → a = b) →
  size (index_set ids) = size (list_to_set (C := gset Z) ids).
Proof.
  unfold index_set. induction ids as [|id ids IH]; intros Hinj; [done|].
  rewrite fmap_cons, !list_to_set_cons.
  assert (size (list_to_set (C := gset nat) (idx_of <$> ids)) = size (list_to_set (C := gset Z) ids)) as E.
  { apply IH. intros a b Ha Hb. apply Hinj; by right. }
  destruct (decide (id ∈ ids)) as [Hin|Hin].
  - assert (idx_of id ∈ idx_of <$> ids) as Hix by (by apply list_elem_of_fmap_2).
    rewrite !subseteq_union_1_L; [done|set_solver..].
  - rewrite !size_union, !size_singleton, E; [done|set_solver|].
    rewrite disjoint_singleton_l, elem_of_list_to_set, list_elem_of_fmap. intros (b & Eb & Hb).
    apply Hin. replace id with b; [done|]. symmetry. apply Hinj; [left|by right|done].
Qed.

Lemma registers_in_use ids :
  Z.of_nat (zero_regs (regs (foldl hll_insert hll_New ids))) = numRegs - Z.of_nat (size (index_set ids)).
Proof.
  induction ids as [|id ids IH] using rev_ind.
  { change (regs (foldl hll_insert hll_New [])) with (replicate (Z.to_nat numRegs) x00).
    change (index_set []) with (∅ : gset nat). rewrite zero_regs_replicate, size_empty, numRegs_val. done. }
  rewrite foldl_snoc, index_set_snoc.
  set (s := foldl hll_insert hll_New ids) in *.
  pose proof (hll_rho_range (Sum64 (PutUint64 id)) (Sum64_u64 _)) as Hrho.
  pose proof (hll_idx_range (Sum64 (PutUint64 id)) (Sum64_u64 _)) as Hidx.
  destruct (hll_foldl_lookup ids hll_New (idx_of id) x00) as (r & Hr & Er).
  { apply lookup_replicate_2. unfold idx_of. apply Z2Nat.inj_lt; rewrite ?numRegs_val in *; lia. }
  fold s in Hr. change (byte_to_Z x00) with 0 in Er. pose proof (hll_register_nonneg ids (idx_of id)) as Hn.
  pose proof (zero_regs_alter (λ r, reg_max r (Z_to_byte (hll_rho (Sum64 (PutUint64 id))))) (regs s) (idx_of id) r Hr)
    as Hz.   assert (1 ≤ hll_rho (Sum64 (PutUint64 id)) < 256) as Hv by lia.
  specialize (Hz (reg_max_nonzero r _ Hv)).
  change (regs (hll_insert s id)) with
    (alter (λ r, reg_max r (Z_to_byte (hll_rho (Sum64 (PutUint64 id))))) (idx_of id) (regs s)).
  pose proof (hll_register_zero ids (idx_of id)) as Hreg. pose proof (byte_zero r) as Hbz.
  destruct (decide (idx_of id ∈ index_set ids)) as [Hin|Hin].
  - rewrite decide_False in Hz by (intros Hzero%Hbz; apply Hreg; [lia|done]).
    replace (index_set ids ∪ {[idx_of id]}) with (index_set ids) by set_solver. lia.
  - rewrite decide_True in Hz by (apply Hbz; apply Hreg in Hin; lia).
    rewrite size_union by set_solver. rewrite size_singleton. lia.
Qed.

(** C8: Small sets are counted exactly: after any sequence of Adds the estimate, computed in
    float64 with all its roundings, is the number of distinct registers the ids hash to,
    as long as that is below 128; in particular it is the number of distinct ids when
    their hashes do not collide in the register index. *)
Theorem hll_small_sets_exact `{!FloatConv} (ids : list Z) :
  (size (index_set ids) < 128)%nat →
  ∃ s, hll_AddAll hll_New ids = Ret s ∧ hll_Cardinality s = Z.of_nat (size (index_set ids)) ∧
    ((∀ a b, a ∈ ids → b ∈ ids → idx_of a = idx_of b → a = b) →
     hll_Cardinality s = Z.of_nat (size (list_to_set (C := gset Z) ids))).
Proof.
  intros Hs. exists (foldl hll_insert hll_New ids). split; [apply hll_AddAll_foldl, hll_New_valid|].
  assert (hll_Cardinality (foldl hll_insert hll_New ids) = Z.of_nat (size (index_set ids))) as E.
  { apply hll_Cardinality_small; [apply (hll_foldl_valid ids hll_New hll_New_valid)|lia|apply registers_in_use]. }
  split; [done|]. intros Hinj. rewrite E. f_equal. by apply index_set_size.
Qed.
End Registers.

#[local] Existing Instance StandIn.murmur3.

(** A conversion that gives zero out of range. *)
#[local] Program Instance zero_conv : FloatConv := {| u64_out_of_range _ := 0 |}.
Solve Obligations with (intros; split; lia).

(** Three ids, one of them twice: the estimate is 2. *)
Lemma hll_small_sets_exact_witness :
  ∃ s, hll_AddAll hll_New [7; 7; 42] = Ret s ∧ hll_Cardinality s = 2.
Proof.
  assert (size (index_set [7; 7; 42]) = 2%nat) as E by (vm_compute; reflexivity).
  destruct (hll_small_sets_exact [7; 7; 42]) as (s & Hs & Hc & _); [rewrite E; lia|].
  exists s. split; [exact Hs|]. rewrite E in Hc. exact Hc.
Defined.
