(* ===== verification/Bitmap.v ===== *)
(** * Exact bitmap sketches (internal/cardinality/bitmap/algorithm.go)

    A thin wrapper around a roaring bitmap, over the [Roaring64] interface. *)

From S2P Require Import Prelude External SketchValue.
Local Open Scope Z_scope.

Definition bitmap_algoName : string := "bitmap".

Section Bitmap.
Context `{!Roaring64}.

Definition newSketch (b : Bitmap) : bitmap_sketch := {| rb := b |}.

Definition bitmap_New : bitmap_sketch := newSketch rb_New.

Definition bitmap_Parse (b : list byte) : result bitmap_sketch :=
  match rb_UnmarshalBinary b with
  | Err e => Err e
  | Ok r => Ok (newSketch r)
  end.

Definition bitmap_Add (s : bitmap_sketch) (id : Z) : bitmap_sketch :=
  newSketch (rb_Add (rb s) id).

Definition bitmap_Cardinality (s : bitmap_sketch) : Z := rb_GetCardinality (rb s).

Definition bitmap_AlgoName (s : bitmap_sketch) : string := bitmap_algoName.

(** The error of [MarshalBinary] is dropped by the code. *)
Definition bitmap_Bytes (s : bitmap_sketch) : list byte := (rb_MarshalBinary (rb s)).1.

Definition bitmap_Clone (s : bitmap_sketch) : bitmap_sketch := newSketch (rb_Clone (rb s)).

Definition bitmap_Merge (s : bitmap_sketch) (other : SketchV) : outcome bitmap_sketch :=
  match as_bitmap other with
  | None => Panic "bitmap: merge with non-bitmap sketch"
  | Some o => Ret (newSketch (rb_Or (rb s) (rb o)))
  end.

(** The set of ids a bitmap sketch stands for. *)
Definition bitmap_ids (s : bitmap_sketch) : gset Z := rb_set (rb s).

Lemma bitmap_Parse_Bytes (s : bitmap_sketch) :
  ∃ s', bitmap_Parse (bitmap_Bytes s) = Ok s' ∧ bitmap_ids s' = bitmap_ids s.
Proof.
  unfold bitmap_Parse, bitmap_Bytes.
  destruct (rb_MarshalBinary (rb s)) as [bs e] eqn:E.
  pose proof (rb_Marshal_ok (rb s)) as Hok. rewrite E in Hok. simpl in *. subst e.
  destruct (rb_roundtrip _ _ E) as (c & -> & Hc). by exists (newSketch c).
Qed.

Lemma bitmap_ids_foldl (ids : list Z) (s : bitmap_sketch) :
  Forall u64 ids → bitmap_ids (foldl bitmap_Add s ids) = list_to_set ids ∪ bitmap_ids s.
Proof.
  intros Hids. revert s. induction Hids as [|a ids Ha Hids IH]; intros s; simpl; [set_solver|].
  rewrite IH. unfold bitmap_Add, bitmap_ids. simpl. rewrite rb_Add_set by done. set_solver.
Qed.

End Bitmap.
