(* ===== verification/Algorithms.v ===== *)
(** * The two algorithms behind the sketch interface

    The dynamic dispatch of the [Sketch] methods on a sketch value, the factories
    [hll.Algorithm] and [bitmap.Algorithm], and the proof that each keeps the
    promises of [AlgorithmLaws]. *)

From S2P Require Import Prelude GoBinary External Sketch SketchValue Float64 Hll Estimate Bitmap.
Local Open Scope Z_scope.

Section Values.
Context `{!Murmur3, !Roaring64, !FloatConv}.

Definition outcome_map {A B} (f : A → B) (o : outcome A) : outcome B :=
  match o with Ret a => Ret (f a) | Panic msg => Panic msg end.

Definition result_map {A B} (f : A → B) (r : result A) : result B :=
  match r with Ok a => Ok (f a) | Err e => Err e end.

#[export] Instance sketch_value : Sketch SketchV := {
  sk_AlgoName v := match v with SHll s => hll_AlgoName s | SBitmap s => bitmap_AlgoName s end;
  sk_Add v id := match v with
                 | SHll s => outcome_map SHll (hll_Add s id)
                 | SBitmap s => Ret (SBitmap (bitmap_Add s id))
                 end;
  sk_Cardinality v := match v with
                      | SHll s => hll_Cardinality s
                      | SBitmap s => bitmap_Cardinality s
                      end;
  sk_Merge v other := match v with
                      | SHll s => outcome_map SHll (hll_Merge s other)
                      | SBitmap s => outcome_map SBitmap (bitmap_Merge s other)
                      end;
  sk_Bytes v := match v with SHll s => hll_Bytes s | SBitmap s => bitmap_Bytes s end;
  sk_Clone v := match v with
                | SHll s => SHll (hll_Clone s)
                | SBitmap s => SBitmap (bitmap_Clone s)
                end;
}.

Definition hll_Algorithm : Algorithm SketchV := {|
  alg_Name := hll_algoName;
  alg_New := SHll hll_New;
  alg_Parse b := result_map SHll (hll_Parse b);
|}.

Definition bitmap_Algorithm : Algorithm SketchV := {|
  alg_Name := bitmap_algoName;
  alg_New := SBitmap bitmap_New;
  alg_Parse b := result_map SBitmap (bitmap_Parse b);
|}.

(** Sketches that no operation of the interface tells apart by what it keeps: the
    same registers, or the same set of ids. The id buffer of an HLL sketch and the
    layout of a bitmap do not count. *)
#[export] Instance sketch_equiv : Equiv SketchV := λ v w,
  match v, w with
  | SHll s, SHll t => regs s = regs t
  | SBitmap s, SBitmap t => bitmap_ids s = bitmap_ids t
  | _, _ => False
  end.

#[export] Instance sketch_equivalence : Equivalence (≡@{SketchV}).
Proof.
  split.
  - intros [s|s]; reflexivity.
  - intros [s|s] [t|t]; unfold equiv; simpl; auto.
  - intros [s|s] [t|t] [u|u]; unfold equiv; simpl; try done; congruence.
Qed.

Lemma value_Cardinality_u64 (v : SketchV) : u64 (sk_Cardinality v).
Proof.
  destruct v as [s|s]; simpl; [apply hll_Cardinality_u64|].
  unfold bitmap_Cardinality. rewrite rb_GetCardinality_set. by apply Z.mod_pos_bound.
Qed.

Definition valid_value (v : SketchV) : Prop :=
  match v with SHll s => hll_valid s | SBitmap _ => True end.

Definition insert_value (v : SketchV) (id : Z) : SketchV :=
  match v with
  | SHll s => SHll (hll_insert s id)
  | SBitmap s => SBitmap (bitmap_Add s id)
  end.

Definition join_value (v w : SketchV) : SketchV :=
  match v, w with
  | SHll s, SHll t => SHll (hll_join s t)
  | SBitmap s, SBitmap t => SBitmap (newSketch (rb_Or (rb s) (rb t)))
  | _, _ => v
  end.

Lemma hll_Cardinality_regs (s t : hll_sketch) :
  regs s = regs t → hll_Cardinality s = hll_Cardinality t.
Proof. unfold hll_Cardinality. by intros ->. Qed.

#[export] Program Instance hll_laws : @AlgorithmLaws SketchV _ hll_Algorithm _ := {
  sk_valid := valid_value;
  sk_insert := insert_value;
  sk_join := join_value;
}.
Next Obligation. split; [apply hll_New_valid|done]. Qed.
Next Obligation.
  simpl. intros b s E. destruct (hll_Parse b) eqn:Hp; simplify_eq/=.
  split; [by eapply hll_Parse_valid|done].
Qed.
Next Obligation. intros [s|s] id [Hs E] _; simplify_eq/=. by rewrite hll_Add_insert. Qed.
Next Obligation. intros [s|s] id [Hs E] _; simplify_eq/=. split; [by apply hll_insert_valid|done]. Qed.
Next Obligation. intros [s|s] [t|t] [Hs E] [Ht E']; simplify_eq/=. done. Qed.
Next Obligation.
  intros [s|s] [t|t] [Hs E] [Ht E']; simplify_eq/=. split; [by apply hll_join_valid|done].
Qed.
Next Obligation.
  intros [s|s] [Hs E]; simplify_eq/=.
  split; [split; [apply hll_Clone_valid|done]|by apply hll_Clone_regs].
Qed.
Next Obligation.
  intros [s|s] [Hs E]; simplify_eq/=. rewrite hll_Parse_Bytes by done. by eexists.
Qed.
Next Obligation.
  intros [s|s] [t|t] E; try done; simpl; [by apply hll_Cardinality_regs|].
  unfold bitmap_Cardinality. rewrite !rb_GetCardinality_set. by do 3 f_equal.
Qed.
Next Obligation. apply value_Cardinality_u64. Qed.
Next Obligation.
  intros [s|s] [t|t] id [Hs E] [Ht E'] _ Hst; simplify_eq/=. by apply hll_insert_regs.
Qed.
Next Obligation. intros [s|s] a b [Hs E] _ _; simplify_eq/=. apply hll_insert_comm. Qed.
Next Obligation. intros [s|s] a [Hs E] _; simplify_eq/=. apply hll_insert_idemp. Qed.
Next Obligation.
  intros [s|s] [s'|s'] [t|t] [t'|t'] [? E1] [? E2] [? E3] [? E4] Hs Ht; simplify_eq/=.
  unfold equiv, sketch_equiv in *. unfold hll_join. simpl. congruence.
Qed.
Next Obligation. intros [s|s] [t|t] [? E1] [? E2]; simplify_eq/=. apply hll_join_comm. Qed.
Next Obligation.
  intros [s|s] [t|t] [u|u] [? E1] [? E2] [? E3]; simplify_eq/=. apply hll_join_assoc.
Qed.
Next Obligation. intros [s|s] [? E1]; simplify_eq/=. apply hll_join_idemp. Qed.
Next Obligation. intros [s|s] [? E1]; simplify_eq/=. by apply hll_join_new. Qed.
Next Obligation.
  intros [s|s] [t|t] a [? E1] [? E2] _; simplify_eq/=. by apply hll_join_insert.
Qed.

(** Equality of the sets of bitmap sketches built by the operations. *)
Ltac bitmap_set :=
  unfold equiv, sketch_equiv, bitmap_ids, bitmap_Add, bitmap_New in *; simpl in *;
  repeat first [rewrite rb_Or_set | rewrite rb_Add_set by done | rewrite rb_New_set | progress simpl];
  set_solver.

#[export] Program Instance bitmap_laws : @AlgorithmLaws SketchV _ bitmap_Algorithm _ := {
  sk_valid := valid_value;
  sk_insert := insert_value;
  sk_join := join_value;
}.
Next Obligation. done. Qed.
Next Obligation.
  simpl. intros b s E. destruct (bitmap_Parse b) eqn:Hp; simplify_eq/=. done.
Qed.
Next Obligation. intros [s|s] id [Hs E] _; simplify_eq/=. done. Qed.
Next Obligation. intros [s|s] id [Hs E] _; simplify_eq/=. done. Qed.
Next Obligation. intros [s|s] [t|t] [Hs E] [Ht E']; simplify_eq/=. done. Qed.
Next Obligation. intros [s|s] [t|t] [Hs E] [Ht E']; simplify_eq/=. done. Qed.
Next Obligation.
  intros [s|s] [Hs E]; simplify_eq/=. split; [done|]. apply rb_Clone_set.
Qed.
Next Obligation.
  intros [s|s] [Hs E]; simplify_eq/=.
  destruct (bitmap_Parse_Bytes s) as (s' & -> & E'). by exists (SBitmap s').
Qed.
Next Obligation. apply (law_cardinality (AlgorithmLaws := hll_laws)). Qed.
Next Obligation. apply value_Cardinality_u64. Qed.
Next Obligation. intros [s|s] [t|t] id [? E] [? E'] Hid Hst; simplify_eq/=. bitmap_set. Qed.
Next Obligation. intros [s|s] a b [? E] Ha Hb; simplify_eq/=. bitmap_set. Qed.
Next Obligation. intros [s|s] a [? E] Ha; simplify_eq/=. bitmap_set. Qed.
Next Obligation.
  intros [s|s] [s'|s'] [t|t] [t'|t'] [? E1] [? E2] [? E3] [? E4] Hs Ht; simplify_eq/=. bitmap_set.
Qed.
Next Obligation. intros [s|s] [t|t] [? E1] [? E2]; simplify_eq/=. bitmap_set. Qed.
Next Obligation. intros [s|s] [t|t] [u|u] [? E1] [? E2] [? E3]; simplify_eq/=. bitmap_set. Qed.
Next Obligation. intros [s|s] [? E1]; simplify_eq/=. bitmap_set. Qed.
Next Obligation. intros [s|s] [? E1]; simplify_eq/=. bitmap_set. Qed.
Next Obligation. intros [s|s] [t|t] a [? E1] [? E2] Ha; simplify_eq/=. bitmap_set. Qed.

End Values.
