(* ===== verification/Engine.v ===== *)
(** * The cardinality engine (internal/cardinality/engine.go)

    The engine keeps a map from group names to pointers to sketches, and the
    sketches are mutated in place. The model has the memory the pointers refer to,
    so two groups could share a sketch, or a caller could hold a pointer into the
    engine; that neither happens is a theorem and not a convention of the model.

    Every operation here is one call with its lock held. The interleavings of
    concurrent calls are in [EngineLock].

    [view] is the engine as its callers see it, a map from groups to sketches;
    [spec_Add] and the like are the operations on that map, and the [_refines]
    lemmas say that each method implements its specification, never panics, and
    keeps the invariant [engine_ok]. *)

From S2P Require Import Prelude External Sketch.
Local Open Scope Z_scope.

Abbreviation loc := positive.

Section Engine.
Context {Sk : Type} `{!Sketch Sk, !Algorithm Sk}.

Record Engine := mkEngine {
  mem : gmap loc Sk;
  groups : gmap string loc;
}.

(** [make(map[string]Sketch)] over the sketches that already exist. *)
Definition NewEngine (m : gmap loc Sk) : Engine := {| mem := m; groups := ∅ |}.

(** ** Memory *)

Definition load (l : loc) : prog Engine Sk := λ e,
  match mem e !! l with
  | Some s => Ret (s, e)
  | None => Panic "invalid memory address or nil pointer dereference"
  end.

Definition store (l : loc) (s : Sk) : prog Engine unit := λ e,
  Ret (tt, {| mem := <[l := s]> (mem e); groups := groups e |}).

Definition alloc (s : Sk) : prog Engine loc := λ e,
  let l := fresh (dom (mem e)) in
  Ret (l, {| mem := <[l := s]> (mem e); groups := groups e |}).

Definition set_group (group : string) (l : loc) : prog Engine unit := λ e,
  Ret (tt, {| mem := mem e; groups := <[group := l]> (groups e) |}).

(** ** The methods *)

(** The start of [Add] and [AddAndPersist]: the group's sketch, made if absent. *)
Definition engine_sketch (group : string) : prog Engine loc := λ e,
  match groups e !! group with
  | Some l => Ret (l, e)
  | None =>
      (let* l := alloc alg_New in
       let* _ := set_group group l in
       ret l) e
  end.

Definition engine_Add (group : string) (id : Z) : prog Engine (option error) :=
  let* l := engine_sketch group in
  let* sk := load l in
  let* sk' := lift (sk_Add sk id) in
  let* _ := store l sk' in
  ret None.

Definition engine_Cardinality (group : string) : prog Engine (result Z) := λ e,
  match groups e !! group with
  | None => Ret (Err (ErrUnknownGroup group), e)
  | Some l => (let* sk := load l in ret (Ok (sk_Cardinality sk))) e
  end.

(** The loop [for group, sk := range e.groups] of [CardinalityAll] and [Marshal],
    with [f] the method called on each sketch. *)
Fixpoint engine_collect {V} (f : Sk → V) (es : list (string * loc)) (out : gmap string V)
    : prog Engine (gmap string V) :=
  match es with
  | [] => ret out
  | (group, l) :: es' =>
      let* sk := load l in
      engine_collect f es' (<[group := f sk]> out)
  end.

Definition engine_CardinalityAll `{!MapRange} : prog Engine (gmap string Z) :=
  let* e := get in
  engine_collect sk_Cardinality (map_range (groups e)) ∅.

(** [save] runs on its own state [W], with the engine's lock held. *)
Definition engine_AddAndPersist {W} (group : string) (id : Z)
    (save : list byte → prog W (option error)) : prog (Engine * W) (option error) :=
  let* l := on_fst (engine_sketch group) in
  let* sk := on_fst (load l) in
  let* sk' := lift (sk_Add sk id) in
  let* _ := on_fst (store l sk') in
  on_snd (save (sk_Bytes sk')).

Definition engine_Persist {W} (group : string)
    (save : list byte → prog W (option error)) : prog (Engine * W) (option error) := λ st,
  match groups st.1 !! group with
  | None => Ret (Some (ErrUnknownGroup group), st)
  | Some l =>
      (let* sk := on_fst (load l) in
       on_snd (save (sk_Bytes sk))) st
  end.

Definition engine_Restore (group : string) (b : list byte) : prog Engine (option error) :=
  match alg_Parse b with
  | Err err => ret (Some (ErrParse group err))
  | Ok sk =>
      let* l := alloc sk in
      let* _ := set_group group l in
      ret None
  end.

(** [remote] is [None] for a nil interface value. *)
Definition engine_Merge (group : string) (remote : option loc) : prog Engine (option error) :=
  match remote with
  | None => ret (Some ErrNilRemote)
  | Some r =>
      let* o := load r in
      if decide (sk_AlgoName o ≠ alg_Name Sk) then
        ret (Some (ErrAlgoMismatch (alg_Name Sk) (sk_AlgoName o)))
      else λ e,
        match groups e !! group with
        | None =>
            (let* l := alloc (sk_Clone o) in
             let* _ := set_group group l in
             ret None) e
        | Some l =>
            (let* sk := load l in
             let* sk' := lift (sk_Merge sk o) in
             let* _ := store l sk' in
             ret None) e
        end
  end.

Definition engine_MergeBytes (group algoName : string) (b : list byte)
    : prog Engine (option error) :=
  if decide (algoName ≠ alg_Name Sk) then
    ret (Some (ErrAlgoMismatch (alg_Name Sk) algoName))
  else match alg_Parse b with
       | Err err => ret (Some (ErrParse group err))
       | Ok sk => let* remote := alloc sk in engine_Merge group (Some remote)
       end.

Definition engine_Marshal `{!MapRange, !Gob} : prog Engine (result (list byte)) :=
  let* e := get in
  let* wire := engine_collect sk_Bytes (map_range (groups e)) ∅ in
  ret (gob_Encode wire).

(** The loop of [Unmarshal]: the fresh sketches and the new group map, or the first
    parse error in iteration order. *)
Fixpoint engine_parse_all (wire : list (string * list byte)) (gs : gmap string loc)
    : prog Engine (result (gmap string loc)) :=
  match wire with
  | [] => ret (Ok gs)
  | (g, b) :: wire' =>
      match alg_Parse b with
      | Err err => ret (Err (ErrParse g err))
      | Ok sk => let* l := alloc sk in engine_parse_all wire' (<[g := l]> gs)
      end
  end.

Definition engine_Unmarshal `{!MapRange, !Gob} (data : list byte) : prog Engine (option error) :=
  match gob_Decode data with
  | Err err => ret (Some err)
  | Ok wire =>
      let* r := engine_parse_all (map_range wire) ∅ in
      match r with
      | Err err => ret (Some err)
      | Ok gs => λ e, Ret (None, {| mem := mem e; groups := gs |})
      end
  end.

(** ** What callers see *)

Definition view (e : Engine) : gmap string Sk := omap (λ l, mem e !! l) (groups e).

(** A pointer held by the engine. *)
Definition owned (e : Engine) (l : loc) : Prop := ∃ g, groups e !! g = Some l.

End Engine.
Arguments Engine Sk : clear implicits.
Arguments engine_Add {_ _ _} group id _.

(** ** Specification *)

Section Spec.
Context {Sk : Type} `{AlgorithmLaws Sk}.
Implicit Types (e : Engine Sk) (m : gmap string Sk) (g : string) (l : loc).

Definition spec_sketch g m : Sk := default alg_New (m !! g).
Definition spec_Add g (id : Z) m : gmap string Sk := <[g := sk_insert (spec_sketch g m) id]> m.
Definition spec_Merge g (o : Sk) m : gmap string Sk :=
  <[g := match m !! g with Some s => sk_join s o | None => sk_Clone o end]> m.

(** The invariant: every group's pointer is to a well-formed sketch of the engine's
    algorithm, and no two groups share a sketch. *)
Record engine_ok e : Prop := {
  ok_ptr g l : groups e !! g = Some l → ∃ s, mem e !! l = Some s ∧ sk_ok s;
  ok_inj g1 g2 l : groups e !! g1 = Some l → groups e !! g2 = Some l → g1 = g2;
}.

(** Sketches that are not the engine's stay as they are, and stay so. *)
Definition frame e e' : Prop :=
  ∀ l, l ∈ dom (mem e) → ¬ owned e l → mem e' !! l = mem e !! l ∧ ¬ owned e' l.

(** [implements op f r e]: from [e], [op] returns [r] and leaves the view [f]
    computes from the view of [e], with the invariant and the frame. *)
Definition implements {A} (op : prog (Engine Sk) A) (r : A)
    (f : gmap string Sk → gmap string Sk) e : Prop :=
  ∃ e', op e = Ret (r, e') ∧ engine_ok e' ∧ view e' = f (view e) ∧ frame e e'.

Lemma view_lookup e g : view e !! g = (groups e !! g ≫= (λ l, mem e !! l)).
Proof. unfold view. apply lookup_omap. Qed.

Lemma view_Some e g s :
  view e !! g = Some s ↔ (∃ l, groups e !! g = Some l ∧ mem e !! l = Some s).
Proof. rewrite view_lookup. apply bind_Some. Qed.

Lemma view_None e g : engine_ok e → view e !! g = None ↔ groups e !! g = None.
Proof.
  intros Hok. rewrite view_lookup. destruct (groups e !! g) as [l|] eqn:E; simpl; [|done].
  destruct (ok_ptr _ Hok _ _ E) as (s & -> & _). done.
Qed.

Lemma view_ok e g s : engine_ok e → view e !! g = Some s → sk_ok s.
Proof.
  intros Hok (l & Hg & Hm)%view_Some. destruct (ok_ptr _ Hok _ _ Hg) as (s' & Hm' & Hs).
  congruence.
Qed.

Lemma dom_view e : engine_ok e → dom (view e) = dom (groups e).
Proof.
  intros Hok. apply set_eq. intros g. rewrite !elem_of_dom. unfold is_Some.
  destruct (groups e !! g) as [l|] eqn:E.
  - destruct (ok_ptr _ Hok _ _ E) as (s & Hm & _).
    split; intros _; [by eexists|]. exists s. apply view_Some. eauto.
  - apply view_None in E; [|done]. rewrite E. naive_solver.
Qed.

Lemma frame_refl e : frame e e.
Proof. intros l _ Hl. done. Qed.

Lemma frame_trans e1 e2 e3 : frame e1 e2 → frame e2 e3 → frame e1 e3.
Proof.
  intros H12 H23 l Hd Hl. destruct (H12 l Hd Hl) as [E12 Hl2].
  destruct (H23 l) as [E23 Hl3]; [|done|split; [congruence|done]].
  apply elem_of_dom in Hd as [s Hs]. apply elem_of_dom. exists s. congruence.
Qed.

Lemma owned_dom e l : engine_ok e → owned e l → l ∈ dom (mem e).
Proof.
  intros Hok [g Hg]. destruct (ok_ptr _ Hok _ _ Hg) as (s & Hm & _).
  by apply elem_of_dom_2 in Hm.
Qed.

(** Writing a group's sketch in place. *)
Lemma store_spec e g l s :
  engine_ok e → groups e !! g = Some l → sk_ok s →
  implements (store l s) tt (λ m, <[g := s]> m) e.
Proof.
  intros Hok Hg Hs. eexists. split; [done|]. split_and_go.
  - split; simpl; [|by apply ok_inj].
    intros g' l' Hg'. destruct (decide (l = l')) as [->|Hne].
    + exists s. by rewrite lookup_insert_eq.
    + rewrite lookup_insert_ne by done. by eapply ok_ptr.
  - apply map_eq. intros g'. rewrite view_lookup. simpl.
    destruct (decide (g = g')) as [->|Hne].
    + by rewrite Hg, lookup_insert_eq; simpl; rewrite lookup_insert_eq.
    + rewrite lookup_insert_ne, view_lookup by done.
      destruct (groups e !! g') as [l'|] eqn:Hg'; simpl; [|done].
      rewrite lookup_insert_ne; [done|]. intros ->. by pose proof (ok_inj _ Hok _ _ _ Hg Hg').
  - intros l' _ Hl'. simpl. split; [|done]. apply lookup_insert_ne.
    intros ->. apply Hl'. by exists g.
Qed.

(** Allocating a sketch leaves the view alone. *)
Lemma alloc_spec e s :
  engine_ok e →
  ∃ l e', alloc s e = Ret (l, e') ∧ engine_ok e' ∧ view e' = view e ∧ groups e' = groups e ∧
    mem e' = <[l := s]> (mem e) ∧ (l ∉ dom (mem e)) ∧ ¬ owned e' l ∧ frame e e'.
Proof.
  intros Hok. set (l := fresh (dom (mem e))).
  assert (l ∉ dom (mem e)) as Hfresh by apply is_fresh.
  assert (∀ g l', groups e !! g = Some l' → l' ≠ l) as Hne.
  { intros g l' Hg ->. apply Hfresh, owned_dom; [done|]. by exists g. }
  exists l. eexists. split; [done|]. split_and_go; simpl; try done.
  - split; simpl; [|by apply ok_inj]. intros g l' Hg.
    rewrite lookup_insert_ne by (symmetry; by eapply Hne). by eapply ok_ptr.
  - apply map_eq. intros g. rewrite !view_lookup. simpl.
    destruct (groups e !! g) as [l'|] eqn:Hg; simpl; [|done].
    rewrite lookup_insert_ne; [done|]. symmetry. by eapply Hne.
  - intros [g Hg]. simpl in Hg. by apply Hne in Hg.
  - intros l' Hd Hl'. simpl. split; [|done]. apply lookup_insert_ne. set_solver.
Qed.

(** Pointing a group at a sketch nothing else of the engine points to. *)
Lemma set_group_spec e g l s :
  engine_ok e → mem e !! l = Some s → sk_ok s → ¬ owned e l →
  ∃ e', set_group g l e = Ret (tt, e') ∧ engine_ok e' ∧ view e' = <[g := s]> (view e) ∧
    mem e' = mem e ∧ groups e' = <[g := l]> (groups e).
Proof.
  intros Hok Hm Hs Hl. eexists. split; [done|]. split_and_go; simpl; try done.
  - split; simpl.
    + intros g' l'. rewrite lookup_insert. case_decide; [|by apply ok_ptr].
      intros [= <-]. eauto.
    + intros g1 g2 l'. rewrite !lookup_insert. repeat case_decide; subst; try done.
      * intros [= <-] Hg2. exfalso. apply Hl. by exists g2.
      * intros Hg1 [= <-]. exfalso. apply Hl. by exists g1.
      * by apply ok_inj.
  - apply map_eq. intros g'. rewrite view_lookup. simpl. rewrite !lookup_insert.
    case_decide; simpl; [done|]. by rewrite view_lookup.
Qed.

(** Allocating a sketch and making it a group's. *)
Lemma install_spec e g s :
  engine_ok e → sk_ok s →
  ∃ l e1 e2, alloc s e = Ret (l, e1) ∧ set_group g l e1 = Ret (tt, e2) ∧
    groups e2 !! g = Some l ∧ mem e2 !! l = Some s ∧
    engine_ok e2 ∧ view e2 = <[g := s]> (view e) ∧ frame e e2.
Proof.
  intros Hok Hs.
  destruct (alloc_spec e s Hok) as (l & e1 & E1 & Hok1 & Hv1 & Hg1 & Hm1 & Hfr & Hl & F1).
  assert (mem e1 !! l = Some s) as Hml by (rewrite Hm1; apply lookup_insert_eq).
  destruct (set_group_spec e1 g l s Hok1 Hml Hs Hl) as (e2 & E2 & Hok2 & Hv2 & Hm2 & Hg2).
  exists l, e1, e2. rewrite Hg2, Hm2, Hv2, Hv1. split_and_go; try done; [apply lookup_insert_eq|].
  intros l' Hd Hl'. rewrite Hm2. destruct (F1 l' Hd Hl') as [Em Ho]. split; [done|].
  intros [g' Hg']. rewrite Hg2, lookup_insert in Hg'. case_decide; [by simplify_eq|].
  apply Ho. by exists g'.
Qed.

(** The group's sketch, created empty when the group is new. *)
Lemma engine_sketch_spec e g :
  engine_ok e →
  ∃ l e1, engine_sketch g e = Ret (l, e1) ∧ engine_ok e1 ∧ groups e1 !! g = Some l ∧
    mem e1 !! l = Some (spec_sketch g (view e)) ∧ sk_ok (spec_sketch g (view e)) ∧
    view e1 = <[g := spec_sketch g (view e)]> (view e) ∧ frame e e1.
Proof.
  intros Hok. unfold engine_sketch, spec_sketch.
  destruct (groups e !! g) as [l|] eqn:Hg.
  - destruct (ok_ptr _ Hok _ _ Hg) as (s & Hm & Hs).
    assert (view e !! g = Some s) as Hv by (apply view_Some; eauto).
    exists l, e. rewrite Hv. simpl. split_and_go; try done. by rewrite insert_id.
  - pose proof Hg as Hv. apply view_None in Hv; [|done]. rewrite Hv. simpl.
    destruct (install_spec e g alg_New Hok law_new)
      as (l & e1 & e2 & E1 & E2 & Hg2 & Hm2 & Hok2 & Hv2 & F).
    exists l, e2. rewrite (bind_Ret _ _ _ _ _ E1), (bind_Ret _ _ _ _ _ E2).
    split_and_go; auto using law_new.
Qed.

Lemma load_Ret e l s : mem e !! l = Some s → load l e = Ret (s, e).
Proof. unfold load. by intros ->. Qed.

(** [Add] inserts the id in the group's sketch, creating the group if absent. *)
Lemma engine_Add_refines e g id :
  engine_ok e → u64 id → implements (engine_Add g id) None (spec_Add g id) e.
Proof.
  intros Hok Hid.
  destruct (engine_sketch_spec e g Hok) as (l & e1 & E1 & Hok1 & Hg1 & Hm1 & Hs & Hv1 & F1).
  destruct (store_spec e1 g l (sk_insert (spec_sketch g (view e)) id) Hok1 Hg1)
    as (e2 & E2 & Hok2 & Hv2 & F2); [by apply law_insert|].
  exists e2. split_and_go; try done; [| |by eapply frame_trans].
  - unfold engine_Add. rewrite (bind_Ret _ _ _ _ _ E1), (bind_Ret _ _ _ _ _ (load_Ret _ _ _ Hm1)).
    rewrite law_add by done. by rewrite (bind_Ret _ _ _ _ e1 eq_refl), (bind_Ret _ _ _ _ _ E2).
  - rewrite Hv2, Hv1. unfold spec_Add. by rewrite insert_insert_eq.
Qed.

Lemma engine_Cardinality_spec e g :
  engine_ok e →
  engine_Cardinality g e =
    Ret (match view e !! g with
         | Some s => Ok (sk_Cardinality s)
         | None => Err (ErrUnknownGroup g)
         end, e).
Proof.
  intros Hok. unfold engine_Cardinality. rewrite view_lookup.
  destruct (groups e !! g) as [l|] eqn:Hg; simpl; [|done].
  destruct (ok_ptr _ Hok _ _ Hg) as (s & Hm & _).
  by rewrite (bind_Ret _ _ _ _ _ (load_Ret _ _ _ Hm)), Hm.
Qed.

Lemma engine_Restore_refines e g b s :
  engine_ok e → alg_Parse b = Ok s →
  implements (engine_Restore g b) None (λ m, <[g := s]> m) e.
Proof.
  intros Hok Hp. unfold engine_Restore. rewrite Hp.
  destruct (install_spec e g s Hok (law_parse _ _ Hp))
    as (l & e1 & e2 & E1 & E2 & _ & _ & Hok2 & Hv2 & F).
  exists e2. split_and_go; try done.
  by rewrite (bind_Ret _ _ _ _ _ E1), (bind_Ret _ _ _ _ _ E2).
Qed.

Lemma engine_Restore_error e g b err :
  alg_Parse b = Err err → engine_Restore g b e = Ret (Some (ErrParse g err), e).
Proof. unfold engine_Restore. by intros ->. Qed.

(** [Merge] on a sketch of the engine's own algorithm unions it into the group, or
    seeds the group with a clone. *)
Lemma engine_Merge_refines e g r o :
  engine_ok e → mem e !! r = Some o → sk_ok o →
  implements (engine_Merge g (Some r)) None (spec_Merge g o) e.
Proof.
  intros Hok Hr Ho. unfold engine_Merge, implements.
  rewrite (bind_Ret _ _ _ _ _ (load_Ret _ _ _ Hr)), decide_False by (destruct Ho; naive_solver).
  unfold spec_Merge. destruct (groups e !! g) as [l|] eqn:Hg.
  - destruct (ok_ptr _ Hok _ _ Hg) as (s & Hm & Hs).
    assert (view e !! g = Some s) as -> by (apply view_Some; eauto).
    destruct (store_spec e g l (sk_join s o) Hok Hg) as (e2 & E2 & Hok2 & Hv2 & F2);
      [by apply law_join|].
    exists e2. split_and_go; try done.
    rewrite (bind_Ret _ _ _ _ _ (load_Ret _ _ _ Hm)), law_merge by done.
    by rewrite (bind_Ret _ _ _ _ e eq_refl), (bind_Ret _ _ _ _ _ E2).
  - assert (view e !! g = None) as -> by (by apply view_None).
    destruct (install_spec e g (sk_Clone o) Hok)
      as (l & e1 & e2 & E1 & E2 & _ & _ & Hok2 & Hv2 & F); [by apply law_clone|].
    exists e2. split_and_go; try done.
    by rewrite (bind_Ret _ _ _ _ _ E1), (bind_Ret _ _ _ _ _ E2).
Qed.

Lemma engine_Merge_mismatch e g r o :
  mem e !! r = Some o → sk_AlgoName o ≠ alg_Name Sk →
  engine_Merge g (Some r) e = Ret (Some (ErrAlgoMismatch (alg_Name Sk) (sk_AlgoName o)), e).
Proof.
  intros Hr Hn. unfold engine_Merge.
  by rewrite (bind_Ret _ _ _ _ _ (load_Ret _ _ _ Hr)), decide_True.
Qed.

(** [MergeBytes] on each of its branches. *)
Lemma engine_MergeBytes_refines e g b s :
  engine_ok e → alg_Parse b = Ok s →
  implements (engine_MergeBytes g (alg_Name Sk) b) None (spec_Merge g s) e.
Proof.
  intros Hok Hp. unfold engine_MergeBytes, implements. rewrite decide_False, Hp by naive_solver.
  destruct (alloc_spec e s Hok) as (l & e1 & E1 & Hok1 & Hv1 & Hg1 & Hm1 & Hfr & Hl & F1).
  destruct (engine_Merge_refines e1 g l s Hok1) as (e2 & E2 & Hok2 & Hv2 & F2).
  { rewrite Hm1. apply lookup_insert_eq. }
  { by eapply law_parse. }
  exists e2. rewrite (bind_Ret _ _ _ _ _ E1). split_and_go; try done; [by rewrite Hv2, Hv1|].
  by eapply frame_trans.
Qed.

Lemma engine_MergeBytes_mismatch e g algo b :
  algo ≠ alg_Name Sk →
  engine_MergeBytes g algo b e = Ret (Some (ErrAlgoMismatch (alg_Name Sk) algo), e).
Proof. intros Hn. unfold engine_MergeBytes. by rewrite decide_True. Qed.

Lemma engine_MergeBytes_unparsable e g b err :
  alg_Parse b = Err err →
  engine_MergeBytes g (alg_Name Sk) b e = Ret (Some (ErrParse g err), e).
Proof. intros Hp. unfold engine_MergeBytes. by rewrite decide_False, Hp by naive_solver. Qed.

(** [Persist] hands the group's current bytes to [save], once. *)
Lemma engine_Persist_spec {W} e (w : W) g (save : list byte → prog W (option error)) :
  engine_ok e →
  engine_Persist g save (e, w) =
    match view e !! g with
    | None => Ret (Some (ErrUnknownGroup g), (e, w))
    | Some s => match save (sk_Bytes s) w with
                | Ret (r, w') => Ret (r, (e, w'))
                | Panic msg => Panic msg
                end
    end.
Proof.
  intros Hok. unfold engine_Persist. simpl. rewrite view_lookup.
  destruct (groups e !! g) as [l|] eqn:Hg; simpl; [|done].
  destruct (ok_ptr _ Hok _ _ Hg) as (s & Hm & _). rewrite Hm.
  unfold bind, on_fst, on_snd. simpl. by rewrite (load_Ret _ _ _ Hm).
Qed.

(** [AddAndPersist] is [Add] followed, under the same lock, by [save] on the bytes
    of the sketch just written. *)
Lemma engine_AddAndPersist_spec {W} e (w : W) g id (save : list byte → prog W (option error)) :
  engine_ok e → u64 id →
  ∃ e', engine_Add g id e = Ret (None, e') ∧ engine_ok e' ∧
    view e' = spec_Add g id (view e) ∧ frame e e' ∧
    engine_AddAndPersist g id save (e, w) =
      match save (sk_Bytes (sk_insert (spec_sketch g (view e)) id)) w with
      | Ret (r, w') => Ret (r, (e', w'))
      | Panic msg => Panic msg
      end.
Proof.
  intros Hok Hid. destruct (engine_Add_refines e g id Hok Hid) as (e' & E & Hok' & Hv & F).
  exists e'. split_and_go; try done.
  destruct (engine_sketch_spec e g Hok) as (l & e1 & E1 & Hok1 & Hg1 & Hm1 & Hs & Hv1 & F1).
  unfold engine_Add, engine_AddAndPersist in *.
  rewrite (bind_Ret _ _ _ _ _ E1), (bind_Ret _ _ _ _ _ (load_Ret _ _ _ Hm1)), law_add in E by done.
  unfold bind, lift, store, ret in E. simplify_eq/=.
  unfold bind, on_fst, on_snd, lift. simpl. rewrite E1. simpl. rewrite (load_Ret _ _ _ Hm1).
  by rewrite law_add.
Qed.

(** The loops over all groups. *)
Lemma engine_collect_spec {V} (f : Sk → V) e (es : list (string * loc)) (out : gmap string V) :
  engine_ok e → Forall (λ p, groups e !! p.1 = Some p.2) es →
  ∃ res : gmap string V, engine_collect f es out e = Ret (res, e) ∧
    ∀ g, res !! g = if decide (g ∈ es.*1) then f <$> view e !! g else out !! g.
Proof.
  intros Hok. revert out. induction es as [|[g l] es IH]; intros out Hes.
  { exists out. split; [done|]. intros g. by rewrite decide_False by set_solver. }
  apply Forall_cons in Hes as [Hg Hes]. simpl in Hg.
  destruct (ok_ptr _ Hok _ _ Hg) as (s & Hm & Hs).
  destruct (IH (<[g := f s]> out) Hes) as (m & E & Hlook).
  exists m. simpl. rewrite (bind_Ret _ _ _ _ _ (load_Ret _ _ _ Hm)). split; [done|].
  intros g'. rewrite Hlook, lookup_insert.
  destruct (decide (g' ∈ es.*1)); [by rewrite decide_True by set_solver|].
  case_decide; subst; [|by rewrite decide_False by set_solver].
  rewrite decide_True by set_solver. rewrite view_lookup, Hg. simpl. by rewrite Hm.
Qed.

Lemma engine_collect_all {V} `{!MapRange} (f : Sk → V) e :
  engine_ok e → engine_collect f (map_range (groups e)) ∅ e = Ret (f <$> view e, e).
Proof.
  intros Hok. destruct (engine_collect_spec f e (map_range (groups e)) ∅ Hok) as (m & E & Hl).
  { apply Forall_forall. intros [g l] Hin. rewrite map_range_perm in Hin.
    by apply elem_of_map_to_list in Hin. }
  rewrite E. repeat f_equal. apply map_eq. intros g. rewrite Hl, lookup_fmap.
  destruct (decide _) as [|Hn]; [done|].
  destruct (groups e !! g) as [l|] eqn:Hg; [|apply view_None in Hg; [by rewrite Hg|done]].
  exfalso. apply Hn. apply list_elem_of_fmap. exists (g, l). split; [done|].
  rewrite map_range_perm. by apply elem_of_map_to_list.
Qed.

Lemma engine_Marshal_spec `{!MapRange, !Gob} e :
  engine_ok e → engine_Marshal e = Ret (gob_Encode (sk_Bytes <$> view e), e).
Proof.
  intros Hok. unfold engine_Marshal. rewrite (bind_Ret _ _ _ _ e eq_refl).
  by rewrite (bind_Ret _ _ _ _ _ (engine_collect_all sk_Bytes e Hok)).
Qed.

(** The loop of [Unmarshal] works on memory only: whatever it returns, what callers
    see is unchanged. *)
Lemma engine_parse_all_view e wire gs :
  engine_ok e →
  ∃ r e', engine_parse_all wire gs e = Ret (r, e') ∧ engine_ok e' ∧ view e' = view e ∧ frame e e'.
Proof.
  revert e gs. induction wire as [|[g b] wire IH]; intros e gs Hok; simpl.
  { eauto 10 using frame_refl. }
  destruct (alg_Parse b) as [s|err] eqn:Hp; [|eauto 10 using frame_refl].
  destruct (alloc_spec e s Hok) as (l & e1 & E1 & Hok1 & Hv1 & _ & _ & _ & _ & F1).
  destruct (IH e1 (<[g := l]> gs) Hok1) as (r & e' & E & Hok' & Hv' & F').
  exists r, e'. rewrite (bind_Ret _ _ _ _ _ E1). split_and_go; try done; [congruence|].
  by eapply frame_trans.
Qed.

(** When every entry parses, the new group map points to the parsed sketches. *)
Lemma engine_parse_all_ok e wire gs :
  engine_ok (mkEngine (mem e) gs) → NoDup wire.*1 →
  Forall (λ p, ∃ s, alg_Parse p.2 = Ok s) wire →
  ∃ gs' e', engine_parse_all wire gs e = Ret (Ok gs', e') ∧
    engine_ok (mkEngine (mem e') gs') ∧
    (∀ g b s, (g, b) ∈ wire → alg_Parse b = Ok s → view (mkEngine (mem e') gs') !! g = Some s) ∧
    (∀ g, g ∉ wire.*1 → view (mkEngine (mem e') gs') !! g = view (mkEngine (mem e) gs) !! g).
Proof.
  revert e gs. induction wire as [|[g b] wire IH]; intros e gs Hok Hnd Hp; simpl.
  { exists gs, e. split_and_go; try done. set_solver. }
  apply Forall_cons in Hp as [[s Hs] Hp]. simpl in Hs. rewrite Hs.
  apply NoDup_cons in Hnd as [Hnin Hnd].
  destruct (install_spec _ g s Hok (law_parse _ _ Hs))
    as (l & e1 & e2 & E1 & E2 & _ & _ & Hok2 & Hv2 & _).
  unfold alloc in E1. unfold set_group in E2. simplify_eq/=.
  edestruct (IH (mkEngine (<[fresh (dom (mem e)) := s]> (mem e)) (groups e)) _ Hok2 Hnd Hp)
    as (gs' & e' & E & Hok' & Hin & Hout).
  exists gs', e'. unfold bind, alloc. split_and_go; [done|done| |].
  - intros g' b' s' [Heq|Hin']%elem_of_cons Hs'; [|by eapply Hin].
    simplify_eq. rewrite Hout by done. simpl. rewrite Hv2. rewrite Hs in Hs'. simplify_eq.
    apply lookup_insert_eq.
  - intros g' [Hne Hn']%not_elem_of_cons. rewrite Hout by done. simpl. rewrite Hv2.
    by rewrite lookup_insert_ne.
Qed.

Lemma empty_engine_ok (mm : gmap loc Sk) : engine_ok (mkEngine mm ∅).
Proof. split; simpl; [intros g l|intros g1 g2 l]; by rewrite lookup_empty. Qed.

(** [Unmarshal] of a snapshot whose entries all parse replaces the whole state. *)
Lemma engine_Unmarshal_ok `{!MapRange, !Gob} e data wire :
  gob_Decode data = Ok wire →
  (∀ g b, wire !! g = Some b → ∃ s, alg_Parse b = Ok s) →
  ∃ e', engine_Unmarshal data e = Ret (None, e') ∧ engine_ok e' ∧
    (∀ g b s, wire !! g = Some b → alg_Parse b = Ok s → view e' !! g = Some s) ∧
    (∀ g, wire !! g = None → view e' !! g = None).
Proof.
  intros Hd Hp. unfold engine_Unmarshal. rewrite Hd.
  destruct (engine_parse_all_ok e (map_range wire) ∅) as (gs & e1 & E & Hok & Hin & Hout).
  - apply empty_engine_ok.
  - rewrite map_range_perm. apply NoDup_fst_map_to_list.
  - apply Forall_forall. intros [g b] Hin. rewrite map_range_perm in Hin.
    apply elem_of_map_to_list in Hin. by eapply Hp.
  - exists (mkEngine (mem e1) gs). rewrite (bind_Ret _ _ _ _ _ E). split_and_go; try done.
    + intros g b s Hg Hs. eapply Hin; [|done]. rewrite map_range_perm.
      by apply elem_of_map_to_list.
    + intros g Hg. rewrite Hout; [rewrite view_lookup; simpl; by rewrite lookup_empty|].
      intros ([g' b] & -> & Hin')%list_elem_of_fmap. rewrite map_range_perm in Hin'.
      apply elem_of_map_to_list in Hin'. simpl in *. congruence.
Qed.

(** Any other outcome of [Unmarshal] leaves what callers see as it was. *)
Lemma engine_Unmarshal_total `{!MapRange, !Gob} e data :
  engine_ok e →
  ∃ r e', engine_Unmarshal data e = Ret (r, e') ∧ (is_Some r → engine_ok e' ∧ view e' = view e).
Proof.
  intros Hok. unfold engine_Unmarshal. destruct (gob_Decode data) as [wire|err]; [|by eauto 10].
  destruct (engine_parse_all_view e (map_range wire) ∅ Hok) as (r & e' & E & Hok' & Hv & _).
  rewrite (bind_Ret _ _ _ _ _ E). destruct r as [gs|err]; [|by eauto 10].
  eexists _, _. split; [done|]. by intros [? ?].
Qed.

(** ** Calls as joins

    On the view, adding an id and merging a sketch are both the join of a group's
    sketch with a delta. Joins commute and absorb themselves, which is what makes
    the order and the repetition of calls irrelevant. *)

Definition map_ok m : Prop := map_Forall (λ _ s, sk_ok s) m.

Definition spec_join g (d : Sk) m : gmap string Sk := <[g := sk_join (spec_sketch g m) d]> m.

(** An engine call of a log: an id to add, or sketch bytes to merge. *)
Inductive call :=
  | CAdd (g : string) (id : Z)
  | CMerge (g algo : string) (b : list byte).

Definition call_ok (c : call) : Prop :=
  match c with CAdd _ id => u64 id | CMerge _ _ _ => True end.

Definition engine_call (c : call) : prog (Engine Sk) (option error) :=
  match c with
  | CAdd g id => engine_Add g id
  | CMerge g algo b => engine_MergeBytes g algo b
  end.

(** What a call returns and what it does to the view. *)
Definition spec_result (c : call) : option error :=
  match c with
  | CAdd _ _ => None
  | CMerge g algo b =>
      if decide (algo ≠ alg_Name Sk) then Some (ErrAlgoMismatch (alg_Name Sk) algo)
      else match alg_Parse b with Err err => Some (ErrParse g err) | Ok _ => None end
  end.

Definition spec_call (c : call) m : gmap string Sk :=
  match c with
  | CAdd g id => spec_Add g id m
  | CMerge g algo b =>
      if decide (algo ≠ alg_Name Sk) then m
      else match alg_Parse b with Err _ => m | Ok s => spec_Merge g s m end
  end.

Definition delta (c : call) : option (string * Sk) :=
  match c with
  | CAdd g id => Some (g, sk_insert alg_New id)
  | CMerge g algo b =>
      if decide (algo ≠ alg_Name Sk) then None
      else match alg_Parse b with Err _ => None | Ok s => Some (g, s) end
  end.

Definition spec_delta (d : option (string * Sk)) m : gmap string Sk :=
  match d with None => m | Some (g, s) => spec_join g s m end.

Fixpoint engine_calls (cs : list call) : prog (Engine Sk) (list (option error)) :=
  match cs with
  | [] => ret []
  | c :: cs' => let* r := engine_call c in let* rs := engine_calls cs' in ret (r :: rs)
  end.

Definition spec_calls (cs : list call) m : gmap string Sk := foldl (λ m c, spec_call c m) m cs.

Lemma engine_ok_view e : engine_ok e → map_ok (view e).
Proof. intros Hok g s Hg. by eapply view_ok. Qed.

(** A call that only reads, or fails before it writes. *)
Lemma implements_id {A} (op : prog (Engine Sk) A) (r : A) f e :
  engine_ok e → op e = Ret (r, e) → f (view e) = view e → implements op r f e.
Proof. intros Hok E Ef. exists e. rewrite Ef. auto using frame_refl. Qed.

Lemma engine_call_refines e c :
  engine_ok e → call_ok c → implements (engine_call c) (spec_result c) (spec_call c) e.
Proof.
  intros Hok Hc. destruct c as [g id|g algo b]; [by apply engine_Add_refines|].
  destruct (decide (algo = alg_Name Sk)) as [->|Hn].
  - destruct (alg_Parse b) as [s|err] eqn:Hp.
    + destruct (engine_MergeBytes_refines e g b s Hok Hp) as (e' & E & Hok' & Hv & F).
      exists e'. simpl. rewrite !decide_False, Hp by naive_solver. done.
    + apply implements_id; simpl; rewrite ?decide_False, ?Hp by naive_solver; [done| |done].
      by apply engine_MergeBytes_unparsable.
  - apply implements_id; simpl; rewrite ?decide_True by done; [done| |done].
    by apply engine_MergeBytes_mismatch.
Qed.

Lemma engine_calls_refines e cs :
  engine_ok e → Forall call_ok cs →
  implements (engine_calls cs) (spec_result <$> cs) (spec_calls cs) e.
Proof.
  intros Hok Hcs. revert e Hok. induction Hcs as [|c cs Hc Hcs IH]; intros e Hok.
  { by apply implements_id. }
  destruct (engine_call_refines e c Hok Hc) as (e1 & E1 & Hok1 & Hv1 & F1).
  destruct (IH e1 Hok1) as (e2 & E2 & Hok2 & Hv2 & F2).
  exists e2. simpl. rewrite (bind_Ret _ _ _ _ _ E1), (bind_Ret _ _ _ _ _ E2).
  split_and_go; try done; [by rewrite Hv2, Hv1|by eapply frame_trans].
Qed.

(** ** Order and repetition of calls *)

Lemma spec_sketch_ok g m : map_ok m → sk_ok (spec_sketch g m).
Proof.
  intros Hm. unfold spec_sketch. destruct (m !! g) eqn:E; simpl; [by eapply Hm|apply law_new].
Qed.

Lemma spec_sketch_proper g m m' : m ≡ m' → spec_sketch g m ≡ spec_sketch g m'.
Proof. intros E. unfold spec_sketch. specialize (E g). by destruct E. Qed.

Lemma map_ok_insert g s m : map_ok m → sk_ok s → map_ok (<[g := s]> m).
Proof. intros Hm Hs. by apply map_Forall_insert_2. Qed.

Lemma spec_join_ok g d m : map_ok m → sk_ok d → map_ok (spec_join g d m).
Proof. intros Hm Hd. apply map_ok_insert; auto using law_join, spec_sketch_ok. Qed.

Lemma insert_equiv g (s t : Sk) m m' : s ≡ t → m ≡ m' → <[g := s]> m ≡ <[g := t]> m'.
Proof. intros Es Em i. rewrite !lookup_insert. case_decide; [by constructor|apply Em]. Qed.

Lemma spec_join_proper g d m m' :
  map_ok m → map_ok m' → sk_ok d → m ≡ m' → spec_join g d m ≡ spec_join g d m'.
Proof.
  intros Hm Hm' Hd E. apply insert_equiv; [|done].
  apply law_join_proper; auto using spec_sketch_ok, spec_sketch_proper.
Qed.

Lemma spec_sketch_insert_eq g s m : spec_sketch g (<[g := s]> m) = s.
Proof. unfold spec_sketch. by rewrite lookup_insert_eq. Qed.

Lemma spec_sketch_insert_ne g g' s m :
  g ≠ g' → spec_sketch g' (<[g := s]> m) = spec_sketch g' m.
Proof. intros. unfold spec_sketch. by rewrite lookup_insert_ne. Qed.

Lemma spec_join_comm g g' d d' m :
  map_ok m → sk_ok d → sk_ok d' →
  spec_join g d (spec_join g' d' m) ≡ spec_join g' d' (spec_join g d m).
Proof.
  intros Hm Hd Hd'. unfold spec_join. destruct (decide (g = g')) as [->|Hne].
  - rewrite !spec_sketch_insert_eq, !insert_insert_eq. apply insert_equiv; [|done].
    assert (sk_ok (spec_sketch g' m)) as Hs by by apply spec_sketch_ok.
    rewrite <- !law_join_assoc by done.
    apply law_join_proper; auto using law_join, law_join_comm.
  - rewrite !spec_sketch_insert_ne by done. by rewrite insert_insert_ne.
Qed.

Lemma spec_join_idemp g d m :
  map_ok m → sk_ok d → spec_join g d (spec_join g d m) ≡ spec_join g d m.
Proof.
  intros Hm Hd. unfold spec_join. rewrite spec_sketch_insert_eq, insert_insert_eq.
  apply insert_equiv; [|done].
  assert (sk_ok (spec_sketch g m)) as Hs by by apply spec_sketch_ok.
  rewrite <- law_join_assoc by done. apply law_join_proper; auto using law_join, law_join_idemp.
Qed.

Lemma delta_ok c g d : call_ok c → delta c = Some (g, d) → sk_ok d.
Proof.
  destruct c as [g' id|g' algo b]; simpl.
  - intros Hid [= <- <-]. auto using law_insert, law_new.
  - intros _. case_decide; [done|]. destruct (alg_Parse b) eqn:Hp; [|done].
    intros [= <- <-]. by eapply law_parse.
Qed.

(** Inserting an id is joining with the sketch of that id alone. *)
Lemma insert_as_join (s : Sk) id :
  sk_ok s → u64 id → sk_insert s id ≡ sk_join s (sk_insert alg_New id).
Proof.
  intros Hs Hid. rewrite law_join_insert by auto using law_new.
  apply law_insert_proper; auto using law_join, law_new. symmetry. by apply law_join_new.
Qed.

Lemma spec_call_delta c m :
  map_ok m → call_ok c → spec_call c m ≡ spec_delta (delta c) m.
Proof.
  intros Hm Hc. destruct c as [g id|g algo b]; simpl.
  - apply insert_equiv; [|done]. by apply insert_as_join, Hc; apply spec_sketch_ok.
  - case_decide; [done|]. destruct (alg_Parse b) as [s|] eqn:Hp; [|done].
    assert (sk_ok s) as Hs by by eapply law_parse.
    apply insert_equiv; [|done]. unfold spec_sketch.
    destruct (m !! g); simpl; [done|]. destruct (law_clone s Hs) as [Hc' E]. rewrite E.
    rewrite law_join_comm by auto using law_new. symmetry. by apply law_join_new.
Qed.

Lemma spec_call_ok c m : map_ok m → call_ok c → map_ok (spec_call c m).
Proof.
  intros Hm Hc. destruct c as [g id|g algo b]; simpl.
  - apply map_ok_insert; auto using law_insert, spec_sketch_ok.
  - case_decide; [done|]. destruct (alg_Parse b) as [s|] eqn:Hp; [|done].
    apply law_parse in Hp. apply map_ok_insert; [done|].
    destruct (m !! g) eqn:E; [apply law_join; [by eapply Hm|done]|by apply law_clone].
Qed.

Lemma spec_delta_ok c m : map_ok m → call_ok c → map_ok (spec_delta (delta c) m).
Proof.
  intros Hm Hc. destruct (delta c) as [[g d]|] eqn:E; simpl; [|done].
  eauto using spec_join_ok, delta_ok.
Qed.

Lemma spec_call_proper c m m' :
  map_ok m → map_ok m' → call_ok c → m ≡ m' → spec_call c m ≡ spec_call c m'.
Proof.
  intros Hm Hm' Hc E. rewrite !spec_call_delta by done.
  destruct (delta c) as [[g d]|] eqn:Ed; simpl; [|done].
  eauto using spec_join_proper, delta_ok.
Qed.

(** Two calls commute. *)
Lemma spec_call_comm c c' m :
  map_ok m → call_ok c → call_ok c' →
  spec_call c (spec_call c' m) ≡ spec_call c' (spec_call c m).
Proof.
  intros Hm Hc Hc'.
  assert (∀ a b, call_ok a → call_ok b →
    spec_call a (spec_call b m) ≡ spec_delta (delta a) (spec_delta (delta b) m)) as Hd.
  { intros a b Ha Hb. rewrite (spec_call_proper a _ (spec_delta (delta b) m));
      auto using spec_call_ok, spec_delta_ok, spec_call_delta. }
  rewrite !Hd by done.
  destruct (delta c) as [[g d]|] eqn:E; simpl; [|done].
  destruct (delta c') as [[g' d']|] eqn:E'; simpl; [|done].
  eauto using spec_join_comm, delta_ok.
Qed.

(** A call repeated changes nothing more. *)
Lemma spec_call_idemp c m :
  map_ok m → call_ok c → spec_call c (spec_call c m) ≡ spec_call c m.
Proof.
  intros Hm Hc.
  rewrite (spec_call_proper c _ (spec_delta (delta c) m));
    auto using spec_call_ok, spec_delta_ok, spec_call_delta.
  rewrite !spec_call_delta by auto using spec_delta_ok.
  destruct (delta c) as [[g d]|] eqn:E; simpl; [|done]. eauto using spec_join_idemp, delta_ok.
Qed.

Lemma spec_calls_ok cs m : Forall call_ok cs → map_ok m → map_ok (spec_calls cs m).
Proof. apply fold_ok. auto using spec_call_ok. Qed.

Lemma spec_calls_perm cs cs' m :
  cs ≡ₚ cs' → Forall call_ok cs → map_ok m → spec_calls cs m ≡ spec_calls cs' m.
Proof.
  apply (fold_perm (≡) map_ok call_ok);
    auto using spec_call_ok, spec_call_proper, spec_call_comm, spec_call_idemp.
Qed.

Lemma spec_calls_set cs cs' m :
  Forall call_ok cs → (∀ c, c ∈ cs ↔ c ∈ cs') → map_ok m →
  spec_calls cs m ≡ spec_calls cs' m.
Proof.
  apply (fold_set (≡) map_ok call_ok);
    auto using spec_call_ok, spec_call_proper, spec_call_comm, spec_call_idemp.
Qed.

Lemma spec_calls_replay cs cs' m :
  Forall call_ok cs → (∀ c, c ∈ cs' → c ∈ cs) → map_ok m →
  spec_calls cs' (spec_calls cs m) ≡ spec_calls cs m.
Proof.
  apply (fold_replay (≡) map_ok call_ok);
    auto using spec_call_ok, spec_call_proper, spec_call_comm, spec_call_idemp.
Qed.

End Spec.
