(* ===== verification/EngineProps.v ===== *)
(** * Properties of the engine

    What the engine promises to the raft node and to the server, for any algorithm
    that keeps [AlgorithmLaws], and what that means for the two algorithms of the
    repository. *)

From S2P Require Import Prelude GoBinary External Sketch SketchValue Float64.
From S2P Require Import Hll Estimate Bitmap Algorithms Engine.
Local Open Scope Z_scope.

(** The stand-ins and the algorithm the witnesses run on. *)
Module Concrete.
#[export] Program Instance conv : FloatConv := {| u64_out_of_range _ := 0 |}.
Next Obligation. by intros. Qed.
#[export] Existing Instances StandIn.murmur3 StandIn.roaring64 StandIn.gob StandIn.range.
#[export] Existing Instance bitmap_Algorithm.
End Concrete.

Section Generic.
Context {Sk : Type} `{AlgorithmLaws Sk}.

(** C1: the engine implements a map from groups to sketches. Any sequence of [Add]
    and [MergeBytes] calls on a new engine returns without a panic the errors the
    specification lists, leaves the view the specification computes, keeps the
    invariant, and does not touch sketches that existed before it. *)
Theorem engine_refines_map (mm : gmap loc Sk) (cs : list call) :
  Forall call_ok cs →
  ∃ e, engine_calls cs (NewEngine mm) = Ret (spec_result <$> cs, e) ∧
    engine_ok e ∧ view e = spec_calls cs ∅ ∧
    ∀ l s, mm !! l = Some s → mem e !! l = Some s ∧ ¬ owned e l.
Proof.
  intros Hcs. destruct (engine_calls_refines (NewEngine mm) cs) as (e & E & Hok & Hv & F);
    [apply empty_engine_ok|done|].
  exists e. split; [done|]. split; [done|]. split; [exact Hv|].
  intros l s Hl. destruct (F l) as [Em Ho].
  - by apply elem_of_dom_2 in Hl.
  - intros [g Hg]. simpl in Hg. by rewrite lookup_empty in Hg.
  - by rewrite Em.
Qed.

(** C2: the order and the repetition of calls do not matter. Two engines that have
    seen the same set of [Add] and [MergeBytes] calls, each in its own order and
    with its own repetitions, hold equivalent sketches and report the same
    cardinality for every group. *)
Theorem engine_converges (e e' : Engine Sk) (cs cs' : list call) :
  engine_ok e → engine_ok e' → view e = view e' →
  Forall call_ok cs → (∀ c, c ∈ cs ↔ c ∈ cs') →
  ∃ rs f rs' f', engine_calls cs e = Ret (rs, f) ∧ engine_calls cs' e' = Ret (rs', f') ∧
    view f ≡ view f' ∧
    ∀ g r r' h h', engine_Cardinality g f = Ret (r, h) → engine_Cardinality g f' = Ret (r', h') →
      r = r'.
Proof.
  intros Hok Hok' Ev Hcs E.
  assert (Forall call_ok cs') as Hcs'.
  { rewrite Forall_forall in *. intros c Hc. by apply Hcs, E. }
  destruct (engine_calls_refines e cs Hok Hcs) as (f & Ef & Hf & Hvf & _).
  destruct (engine_calls_refines e' cs' Hok' Hcs') as (f' & Ef' & Hf' & Hvf' & _).
  assert (view f ≡ view f') as Hv.
  { rewrite Hvf, Hvf', <- Ev. by apply spec_calls_set; [done|done|apply engine_ok_view]. }
  eexists _, f, _, f'. split_and_go; try done.
  intros g r r' h h'. rewrite !engine_Cardinality_spec by done. intros [= <- <-] [= <- <-].
  specialize (Hv g). destruct Hv as [s s' Es|]; [|done]. f_equal. by apply law_cardinality.
Qed.

(** [Merge] into a new group takes a copy. Whatever the caller later writes
    through its pointer to the remote sketch, the engine's groups are unchanged. *)
Lemma engine_merge_isolated (e : Engine Sk) (g : string) (r : loc) (o s : Sk) :
  engine_ok e → mem e !! r = Some o → sk_ok o → ¬ owned e r → view e !! g = None →
  ∃ e', engine_Merge g (Some r) e = Ret (None, e') ∧ engine_ok e' ∧
    view e' = <[g := sk_Clone o]> (view e) ∧
    ∃ e'', store r s e' = Ret (tt, e'') ∧ view e'' = view e'.
Proof.
  intros Hok Hr Ho Hno Hg.
  destruct (engine_Merge_refines e g r o Hok Hr Ho) as (e' & E & Hok' & Hv & F).
  exists e'. split_and_go; try done; [rewrite Hv; unfold spec_Merge; by rewrite Hg|].
  eexists. split; [done|]. apply map_eq. intros g'. rewrite !view_lookup. simpl.
  destruct (groups e' !! g') as [l|] eqn:Hl; simpl; [|done].
  apply lookup_insert_ne. intros <-.
  destruct (F r) as [_ Hno']; [by apply elem_of_dom_2 in Hr|done|]. apply Hno'. by exists g'.
Qed.

(** A snapshot round-trips. If [Marshal] returns bytes, [Unmarshal] of them on any
    engine with the same algorithm succeeds and leaves, for every group, a sketch
    equivalent to the one that was marshalled, and no other group. *)
Lemma engine_snapshot_roundtrip `{!MapRange, !Gob} (e e2 : Engine Sk) (data : list byte) (e1 : Engine Sk) :
  engine_ok e → engine_Marshal e = Ret (Ok data, e1) →
  e1 = e ∧ ∃ e', engine_Unmarshal data e2 = Ret (None, e') ∧ engine_ok e' ∧ view e' ≡ view e.
Proof.
  intros Hok E. rewrite engine_Marshal_spec in E by done.
  destruct (gob_Encode _) as [d|] eqn:Hd; [|done]. injection E as -> <-. split; [done|].
  apply gob_roundtrip in Hd.
  destruct (engine_Unmarshal_ok e2 data _ Hd) as (e' & E' & Hok' & Hin & Hout).
  { intros g b. rewrite lookup_fmap. intros (s & Hs & ->)%fmap_Some.
    destruct (law_roundtrip s) as (s' & Hs' & _); [by eapply (view_ok e)|eauto]. }
  exists e'. split_and_go; try done. intros g.
  destruct (view e !! g) as [s|] eqn:Hg.
  - destruct (law_roundtrip s) as (s' & Hs' & Es); [by eapply (view_ok e)|].
    rewrite (Hin g (sk_Bytes s) s'); [by constructor|rewrite lookup_fmap, Hg; done|done].
  - rewrite Hout; [done|]. rewrite lookup_fmap, Hg. done.
Qed.

(** A failed [Unmarshal] changes nothing: it returns, and when it returns an error
    the engine holds the sketches it held before. *)
Lemma engine_unmarshal_atomic `{!MapRange, !Gob} (e : Engine Sk) (data : list byte) :
  engine_ok e →
  ∃ r e', engine_Unmarshal data e = Ret (r, e') ∧ (is_Some r → engine_ok e' ∧ view e' = view e).
Proof. apply engine_Unmarshal_total. Qed.

End Generic.

(** ** The exact algorithm *)

Section Exact.
Context `{!Murmur3, !Roaring64, !FloatConv}.
#[local] Existing Instance bitmap_Algorithm.

Lemma spec_calls_bitmap (g : string) (ids : list Z) (m : gmap string SketchV) (s : bitmap_sketch) :
  m !! g = Some (SBitmap s) →
  spec_calls (CAdd g <$> ids) m !! g = Some (SBitmap (foldl bitmap_Add s ids)).
Proof.
  revert m s. induction ids as [|a ids IH]; intros m s Hm; simpl; [done|].
  apply IH. unfold spec_Add, spec_sketch. rewrite Hm. apply lookup_insert_eq.
Qed.

(** C35: with the bitmap algorithm the count is exact. After adding any ids to a group
    of a new engine, [Cardinality] is the number of distinct ids, as long as fewer
    than 2^64 ids were added. *)
Theorem engine_bitmap_exact (g : string) (id : Z) (ids : list Z) :
  Forall u64 (id :: ids) → Z.of_nat (length (id :: ids)) < 2 ^ 64 →
  ∃ rs e, engine_calls (CAdd g <$> id :: ids) (NewEngine ∅) = Ret (rs, e) ∧
    engine_Cardinality g e =
      Ret (Ok (Z.of_nat (size (list_to_set (C := gset Z) (id :: ids)))), e).
Proof.
  intros Hids Hlen.
  destruct (engine_calls_refines (NewEngine ∅) (CAdd g <$> id :: ids)) as (e & E & Hok & Hv & _).
  { apply empty_engine_ok. }
  { apply Forall_fmap. by eapply Forall_impl. }
  eexists _, e. split; [done|]. rewrite engine_Cardinality_spec by done. rewrite Hv.
  cbn [fmap list_fmap spec_calls foldl spec_call].
  assert (spec_calls (CAdd g <$> ids) (spec_Add g id (view (NewEngine ∅))) !! g =
    Some (SBitmap (foldl bitmap_Add (bitmap_Add bitmap_New id) ids))) as Hl.
  { apply spec_calls_bitmap. apply lookup_insert_eq. }
  unfold spec_calls in Hl. rewrite Hl. simpl. do 3 f_equal.
  change (foldl bitmap_Add (bitmap_Add bitmap_New id) ids) with (foldl bitmap_Add bitmap_New (id :: ids)).
  unfold bitmap_Cardinality. rewrite rb_GetCardinality_set.
  pose proof (bitmap_ids_foldl (id :: ids) bitmap_New Hids) as Hset. unfold bitmap_ids in Hset.
  rewrite Hset. unfold bitmap_New, newSketch. cbn [rb]. rewrite rb_New_set, (right_id_L ∅ (∪)).
  assert (size (list_to_set (C := gset Z) (id :: ids)) ≤ length (id :: ids))%nat.
  { rewrite <- (list_to_set_elements_L (list_to_set (id :: ids))).
    rewrite size_list_to_set by apply NoDup_elements.
    apply submseteq_length, NoDup_submseteq; [apply NoDup_elements|]. set_solver. }
  change ({[id]} ∪ list_to_set ids) with (list_to_set (C := gset Z) (id :: ids)).
  unfold wrap64. apply Z.mod_small. lia.
Qed.
End Exact.

(** ** Witnesses *)

Section Witnesses.
Import Concrete.

Definition calls_ex : list call := [CAdd "a" 7; CAdd "b" 9; CAdd "a" 8].

Lemma calls_ex_ok : Forall call_ok calls_ex.
Proof. repeat constructor; done. Qed.

Lemma engine_refines_map_witness :
  Forall call_ok calls_ex ∧
  ∃ e, engine_calls calls_ex (NewEngine ∅) = Ret (spec_result <$> calls_ex, e) ∧
    engine_ok e ∧ view e = spec_calls calls_ex ∅ ∧
    ∀ l s, (∅ : gmap loc SketchV) !! l = Some s → mem e !! l = Some s ∧ ¬ owned e l.
Proof. split; [exact calls_ex_ok|]. exact (engine_refines_map ∅ calls_ex calls_ex_ok). Defined.

Lemma engine_converges_witness :
  ∃ rs f rs' f', engine_calls calls_ex (NewEngine ∅) = Ret (rs, f) ∧
    engine_calls (calls_ex ++ calls_ex) (NewEngine ∅) = Ret (rs', f') ∧ view f ≡ view f' ∧
    ∀ g r r' h h', engine_Cardinality g f = Ret (r, h) → engine_Cardinality g f' = Ret (r', h') →
      r = r'.
Proof.
  apply (engine_converges (NewEngine ∅) (NewEngine ∅) calls_ex (calls_ex ++ calls_ex)).
  - apply empty_engine_ok.
  - apply empty_engine_ok.
  - reflexivity.
  - exact calls_ex_ok.
  - intros c. rewrite elem_of_app. tauto.
Defined.

Definition remote_ex : Engine SketchV := NewEngine {[ 1%positive := SBitmap bitmap_New ]}.

Definition marshalled_ex : list byte :=
  match gob_Encode (sk_Bytes <$> view (NewEngine (Sk := SketchV) ∅)) with Ok d => d | Err _ => [] end.

Lemma engine_bitmap_exact_witness :
  ∃ rs e, engine_calls (CAdd "a" <$> [7; 8; 7]) (NewEngine ∅) = Ret (rs, e) ∧
    engine_Cardinality "a" e = Ret (Ok (Z.of_nat (size (list_to_set (C := gset Z) [7; 8; 7]))), e).
Proof.
  apply (engine_bitmap_exact "a" 7 [8; 7]).
  - repeat constructor; done.
  - reflexivity.
Defined.
End Witnesses.
