(* ===== verification/Handler.v ===== *)
(** * Raft command handlers (internal/raft/handler)

    The command registry and the three built-in handlers. A handler sees the engine
    only through the [Adder] interface; it is a Go interface and so a type class of
    operations here, over any state. The engine locks for each call and not for a
    command, so a handler is a [code] whose accesses are its calls: other threads can run
    between them. [Dispatch] is a command dispatched without interruption. *)

From S2P Require Import Prelude GoBinary Code Sketch External Engine.
Local Open Scope Z_scope.

(** [pb.Command]. *)
Record Command := mkCommand {
  cmd_Type : string;
  cmd_Group : string;
  cmd_Payload : list byte;
}.

(** The [Adder] interface. *)
Class Adder (S : Type) := {
  adder_Add : string → Z → prog S (option error);
  adder_MergeBytes : string → string → list byte → prog S (option error);
}.

(** [*cardinality.Engine] satisfies it directly. *)
#[export] Instance engine_Adder {Sk : Type} `{!Sketch Sk, !Algorithm Sk} : Adder (Engine Sk) := {
  adder_Add := engine_Add;
  adder_MergeBytes := engine_MergeBytes;
}.

Section Handlers.
Context {S : Type}.

Definition Handler : Type := Command → Adder S → code S (option error).

Definition TypeAdd : string := "ADD".
Definition TypeBatchAdd : string := "BATCH_ADD".
Definition TypeMergeSketch : string := "MERGE_SKETCH".

(** ** The handlers *)

Definition applyAdd : Handler := λ cmd apply,
  let '(id, n) := Uvarint (cmd_Payload cmd) in
  if decide (n ≤ 0 ∨ n ≠ Z.of_nat (length (cmd_Payload cmd))) then
    Done (Some (ErrBadPayload NotSingleVarint))
  else access (adder_Add (cmd_Group cmd) id).

(** The loop over the ids. Every turn that goes on drops at least one byte, and an
    empty buffer ends it, so [S (length buf)] turns are enough
    ([applyBatchAdd_total]). *)
Fixpoint applyBatchAdd_loop (fuel : nat) (apply : Adder S) (group : string) (i n : Z)
    (buf : list byte) : code S (option error) :=
  match fuel with
  | O => Crash "out of fuel"
  | Datatypes.S fuel' =>
      if decide (i < n) then
        let '(id, m) := Uvarint buf in
        if decide (m ≤ 0) then Done (Some (ErrBadPayload (IdTruncated (i + 1) n)))
        else
          do! err := access (adder_Add group id) in
          match err with
          | Some e => Done (Some e)
          | None =>
              do! buf := of_outcome (slice_from buf m) in
              applyBatchAdd_loop fuel' apply group (i + 1) n buf
          end
      else Done None
  end.

Definition applyBatchAdd : Handler := λ cmd apply,
  let buf := cmd_Payload cmd in
  let '(n, k) := Uvarint buf in
  if decide (k ≤ 0) then Done (Some (ErrBadPayload MissingCount))
  else
    do! buf := of_outcome (slice_from buf k) in
    applyBatchAdd_loop (Datatypes.S (length buf)) apply (cmd_Group cmd) 0 n buf.

Definition applyMergeSketch : Handler := λ cmd apply,
  let buf := cmd_Payload cmd in
  let '(algoLen, n) := Uvarint buf in
  if decide (n ≤ 0) then Done (Some (ErrBadPayload MissingAlgoLen))
  else
    do! buf := of_outcome (slice_from buf n) in
    if decide (Z.of_nat (length buf) < algoLen) then
      Done (Some (ErrBadPayload (AlgoLenExceeds algoLen (Z.of_nat (length buf)))))
    else
      do! name := of_outcome (slice_to buf algoLen) in
      let algoName := string_of_list_byte name in
      do! sketch := of_outcome (slice_from buf algoLen) in
      access (adder_MergeBytes (cmd_Group cmd) algoName sketch).

(** ** The registry *)

Record Registry := mkRegistry { reg_m : gmap string Handler }.

Definition NewRegistry : Registry := {| reg_m := ∅ |}.
Definition Register (t : string) (h : Handler) (r : Registry) : Registry :=
  {| reg_m := <[t := h]> (reg_m r) |}.
Definition RegisterAdd (r : Registry) : Registry := Register TypeAdd applyAdd r.
Definition RegisterBatch (r : Registry) : Registry := Register TypeBatchAdd applyBatchAdd r.
Definition RegisterMerge (r : Registry) : Registry := Register TypeMergeSketch applyMergeSketch r.
Definition DefaultRegistry : Registry := RegisterMerge (RegisterBatch (RegisterAdd NewRegistry)).

(** [None] is a nil command, and a nil adder. *)
Definition dispatch_code (r : Registry) (cmd : option Command) (apply : option (Adder S))
    : code S (option error) :=
  match cmd with
  | None => Done (Some (ErrUnknownCommand None))
  | Some cmd =>
      match (reg_m r !! cmd_Type cmd : option Handler) with
      | None => Done (Some (ErrUnknownCommand (Some (cmd_Type cmd))))
      | Some h =>
          match apply with
          | None => Done (Some ErrNilAdder)
          | Some apply => h cmd apply
          end
      end
  end.

Definition Dispatch (r : Registry) (cmd : option Command) (apply : option (Adder S))
    : prog S (option error) := run_body (dispatch_code r cmd apply).

End Handlers.
Arguments Handler S : clear implicits.
Arguments Registry S : clear implicits.
Arguments DefaultRegistry S : clear implicits.

(** ** What a command asks of the engine

    The reference reading of a command, separate from its execution: the engine
    calls it stands for, in order, and the decoding error that stops it, if any. *)

Fixpoint batch_ids (fuel : nat) (i n : Z) (buf : list byte) : list Z * option error :=
  match fuel with
  | O => ([], None)
  | Datatypes.S fuel' =>
      if decide (i < n) then
        let '(id, m) := Uvarint buf in
        if decide (m ≤ 0) then ([], Some (ErrBadPayload (IdTruncated (i + 1) n)))
        else let '(ids, err) := batch_ids fuel' (i + 1) n (drop (Z.to_nat m) buf) in (id :: ids, err)
      else ([], None)
  end.

Definition cmd_calls (cmd : Command) : list call * option error :=
  let buf := cmd_Payload cmd in
  let '(x, k) := Uvarint buf in
  let rest := drop (Z.to_nat k) buf in
  if decide (cmd_Type cmd = TypeAdd) then
    if decide (k ≤ 0 ∨ k ≠ Z.of_nat (length buf)) then ([], Some (ErrBadPayload NotSingleVarint))
    else ([CAdd (cmd_Group cmd) x], None)
  else if decide (cmd_Type cmd = TypeBatchAdd) then
    if decide (k ≤ 0) then ([], Some (ErrBadPayload MissingCount))
    else let '(ids, err) := batch_ids (S (length rest)) 0 x rest in (CAdd (cmd_Group cmd) <$> ids, err)
  else if decide (cmd_Type cmd = TypeMergeSketch) then
    if decide (k ≤ 0) then ([], Some (ErrBadPayload MissingAlgoLen))
    else if decide (Z.of_nat (length rest) < x) then
      ([], Some (ErrBadPayload (AlgoLenExceeds x (Z.of_nat (length rest)))))
    else ([CMerge (cmd_Group cmd) (string_of_list_byte (take (Z.to_nat x) rest))
             (drop (Z.to_nat x) rest)], None)
  else ([], Some (ErrUnknownCommand (Some (cmd_Type cmd)))).

(** The first error of a sequence of calls, or else the decoding error. *)
Definition first_error (rs : list (option error)) (err : option error) : option error :=
  foldr (λ r acc, match r with Some e => Some e | None => acc end) err rs.

Definition cmd_result {Sk : Type} `{!Algorithm Sk} (cmd : Command) : option error :=
  let '(cs, err) := cmd_calls cmd in first_error (spec_result (Sk := Sk) <$> cs) err.

(** The payloads a writer builds: one varint, a counted list of varints, and a
    length-prefixed algorithm name followed by the sketch. *)
Definition encode_add (id : Z) : list byte := AppendUvarint [] id.
Definition encode_batch (ids : list Z) : list byte :=
  foldl AppendUvarint (AppendUvarint [] (Z.of_nat (length ids))) ids.
Definition encode_merge (algo : string) (sketch : list byte) : list byte :=
  AppendUvarint [] (Z.of_nat (length (list_byte_of_string algo))) ++
  list_byte_of_string algo ++ sketch.

(** ** Decoding lemmas *)

(** Each id consumes a byte, so the bound on the turns is never the reason to stop. *)
Lemma batch_ids_u64 fuel i n buf : Forall u64 (batch_ids fuel i n buf).1.
Proof.
  revert i buf. induction fuel as [|fuel IH]; intros i buf; simpl; [constructor|].
  case_decide; [|constructor]. destruct (Uvarint buf) as [id m] eqn:E.
  case_decide; [constructor|]. specialize (IH (i + 1) (drop (Z.to_nat m) buf)).
  destruct (batch_ids _ _ _ _) as [ids err]. simpl in *. constructor; [|done].
  eapply Uvarint_bounds; [done|lia].
Qed.

Lemma cmd_calls_ok cmd : Forall call_ok (cmd_calls cmd).1.
Proof.
  unfold cmd_calls. destruct (Uvarint (cmd_Payload cmd)) as [x k] eqn:E.
  case_decide; [|case_decide]; [|case_decide; [by constructor|]|repeat case_decide; by repeat constructor].
  - case_decide; [by constructor|]. apply Forall_singleton. simpl.
    apply (Uvarint_bounds _ _ _ E). lia.
  - pose proof (batch_ids_u64 (S (length (drop (Z.to_nat k) (cmd_Payload cmd)))) 0 x
      (drop (Z.to_nat k) (cmd_Payload cmd))) as Hu.
    destruct (batch_ids _ _ _ _) as [ids err]. cbn [fst] in *. apply Forall_fmap. by eapply Forall_impl.
Qed.

(** ** Handlers on the engine *)

Section EngineHandlers.
Context {Sk : Type} `{AlgorithmLaws Sk}.
Implicit Types (e : Engine Sk).

Lemma implements_access {A} (op : prog (Engine Sk) A) r f e :
  implements op r f e → implements (run_body (access op)) r f e.
Proof. intros (e' & E & Hr). exists e'. by rewrite run_access. Qed.

Lemma batch_loop_refines fuel g i n buf e :
  engine_ok e → (length buf < fuel)%nat →
  implements (run_body (applyBatchAdd_loop fuel engine_Adder g i n buf))
    (batch_ids fuel i n buf).2 (spec_calls (CAdd g <$> (batch_ids fuel i n buf).1)) e.
Proof.
  revert i buf e. induction fuel as [|fuel IH]; intros i buf e Hok Hf; [lia|].
  cbn [applyBatchAdd_loop batch_ids]. case_decide; [|by apply implements_id].
  destruct (Uvarint buf) as [id m] eqn:E. case_decide; [by apply implements_id|].
  destruct (Uvarint_bounds buf id m E ltac:(lia)) as (Hid & Hm & Hl).
  destruct (engine_Add_refines e g id Hok Hid) as (e1 & E1 & Hok1 & Hv1 & F1).
  destruct (IH (i + 1) (drop (Z.to_nat m) buf) e1 Hok1) as (e2 & E2 & Hok2 & Hv2 & F2).
  { rewrite length_drop. lia. }
  destruct (batch_ids fuel (i + 1) n (drop (Z.to_nat m) buf)) as [ids err]. cbn [fst snd] in *.
  exists e2. change (adder_Add g id) with (engine_Add (Sk := Sk) g id).
  rewrite (bind_access _ _ _ _ _ E1), (bind_of_outcome _ _ _ (slice_from_ok buf m ltac:(lia))).
  split_and_go; try done; [by rewrite Hv2, Hv1|]. by eapply frame_trans.
Qed.

Lemma lookup_DefaultRegistry {S} (t : string) :
  reg_m (DefaultRegistry S) !! t =
    if decide (t = TypeAdd) then Some applyAdd
    else if decide (t = TypeBatchAdd) then Some applyBatchAdd
    else if decide (t = TypeMergeSketch) then Some applyMergeSketch else None.
Proof.
  unfold DefaultRegistry, RegisterMerge, RegisterBatch, RegisterAdd, Register, NewRegistry.
  cbn [reg_m]. rewrite !lookup_insert, lookup_empty. repeat case_decide; subst; done.
Qed.

(** Adding ids is never an error of the engine. *)
Lemma first_error_adds g (ids : list Z) (err : option error) :
  first_error (spec_result (Sk := Sk) <$> (CAdd g <$> ids)) err = err.
Proof. induction ids; simpl; auto. Qed.

(** Dispatching a command runs its calls in order and returns its first error. *)
Lemma Dispatch_refines cmd e :
  engine_ok e →
  implements (Dispatch (DefaultRegistry _) (Some cmd) (Some engine_Adder))
    (cmd_result (Sk := Sk) cmd) (spec_calls (cmd_calls cmd).1) e.
Proof.
  intros Hok. unfold Dispatch, dispatch_code. cbv beta iota. rewrite lookup_DefaultRegistry.
  unfold cmd_result, cmd_calls. destruct (Uvarint (cmd_Payload cmd)) as [x k] eqn:E.
  case_decide as H1; [|case_decide as H2; [|case_decide as H3]].
  - unfold applyAdd. rewrite E. case_decide as Hk; [by apply implements_id|].
    apply implements_access, engine_Add_refines; [done|]. eapply Uvarint_bounds; [done|lia].
  - unfold applyBatchAdd. rewrite E. case_decide as Hk; [by apply implements_id|].
    destruct (Uvarint_bounds _ _ _ E ltac:(lia)) as (_ & _ & Hk').
    rewrite (bind_of_outcome _ _ _ (slice_from_ok (cmd_Payload cmd) k ltac:(lia))).
    set (rest := drop (Z.to_nat k) (cmd_Payload cmd)).
    pose proof (batch_loop_refines (S (length rest)) (cmd_Group cmd) 0 x rest e Hok) as Hb.
    destruct (batch_ids _ _ _ _) as [ids err]. cbn [fst snd] in *.
    rewrite first_error_adds. apply Hb. lia.
  - unfold applyMergeSketch. rewrite E. case_decide as Hk; [by apply implements_id|].
    destruct (Uvarint_bounds _ _ _ E ltac:(lia)) as (Hx & _ & Hk').
    rewrite (bind_of_outcome _ _ _ (slice_from_ok (cmd_Payload cmd) k ltac:(lia))).
    case_decide as Hl; [by apply implements_id|].
    set (rest := drop (Z.to_nat k) (cmd_Payload cmd)) in *. unfold u64 in Hx.
    rewrite (bind_of_outcome _ _ _ (slice_to_ok rest x ltac:(lia))).
    rewrite (bind_of_outcome _ _ _ (slice_from_ok rest x ltac:(lia))). apply implements_access.
    set (c := CMerge _ _ _). pose proof (engine_call_refines e c Hok I) as Hc.
    replace (first_error (spec_result <$> [c]) None) with (spec_result (Sk := Sk) c); [exact Hc|].
    unfold first_error. cbn [fmap list_fmap foldr]. by destruct (spec_result c).
  - by apply implements_id.
Qed.
End EngineHandlers.
