(* ===== verification/HandlerProps.v ===== *)
(** * Properties of the command handlers

    What dispatching a command does to an engine, for the payloads the program
    writes and for arbitrary bytes. *)

From S2P Require Import Prelude GoBinary Code External Sketch SketchValue Float64.
From S2P Require Import Hll Estimate Bitmap Algorithms Engine EngineProps Handler.
Local Open Scope Z_scope.

(** ** Decoding what was encoded *)

Lemma cmd_calls_add g id :
  u64 id → cmd_calls (mkCommand TypeAdd g (encode_add id)) = ([CAdd g id], None).
Proof.
  intros Hid. unfold cmd_calls, encode_add. simpl.
  pose proof (Uvarint_AppendUvarint id [] Hid) as E. rewrite app_nil_r in E. rewrite E.
  rewrite decide_False; [done|].
  pose proof (AppendUvarint_length id Hid). intros [|]; [lia|done].
Qed.

Lemma encode_batch_concat ids :
  Forall u64 ids → Z.of_nat (length ids) < 2 ^ 64 →
  encode_batch ids =
    AppendUvarint [] (Z.of_nat (length ids)) ++ concat (AppendUvarint [] <$> ids).
Proof.
  intros Hids _. unfold encode_batch. generalize (AppendUvarint [] (Z.of_nat (length ids))).
  induction Hids as [|id ids Hid Hids IH]; intros buf; simpl; [by rewrite app_nil_r|].
  by rewrite IH, AppendUvarint_app, <- app_assoc.
Qed.

(** Reading a run of ids off the front of a buffer. *)
Lemma batch_ids_concat ids rest fuel i n :
  Forall u64 ids → i + Z.of_nat (length ids) ≤ n →
  (length (concat (AppendUvarint [] <$> ids) ++ rest) < fuel)%nat →
  batch_ids fuel i n (concat (AppendUvarint [] <$> ids) ++ rest) =
    let '(ids', err) := batch_ids (fuel - length ids) (i + Z.of_nat (length ids)) n rest in
    (ids ++ ids', err).
Proof.
  intros Hids. revert fuel i. induction Hids as [|id ids Hid Hids IH]; intros fuel i Hn Hf.
  { cbn [length fmap list_fmap concat app]. rewrite Z.add_0_r, Nat.sub_0_r.
    by destruct (batch_ids _ _ _ _). }
  cbn [length fmap list_fmap concat] in *. rewrite <- app_assoc in *.
  destruct fuel as [|fuel]; [lia|]. cbn [batch_ids]. rewrite decide_True by lia.
  rewrite Uvarint_AppendUvarint by done.
  pose proof (AppendUvarint_length id Hid) as Hpos.
  rewrite decide_False by lia. rewrite Nat2Z.id, drop_app_length.
  rewrite length_app in Hf. rewrite IH by lia.
  replace (i + 1 + Z.of_nat (length ids)) with (i + Z.of_nat (S (length ids))) by lia.
  rewrite Nat.sub_succ. by destruct (batch_ids _ _ _ _).
Qed.

Lemma cmd_calls_batch g ids (n : Z) :
  Forall u64 ids → u64 n → Z.of_nat (length ids) ≤ n →
  cmd_calls (mkCommand TypeBatchAdd g
    (AppendUvarint [] n ++ concat (AppendUvarint [] <$> ids))) =
  (CAdd g <$> ids,
   if decide (Z.of_nat (length ids) < n)
   then Some (ErrBadPayload (IdTruncated (Z.of_nat (length ids) + 1) n)) else None).
Proof.
  intros Hids Hn Hle. unfold cmd_calls. cbn [cmd_Payload cmd_Type cmd_Group].
  rewrite Uvarint_AppendUvarint by done.
  rewrite (decide_False (P := TypeBatchAdd = TypeAdd)), (decide_True (P := TypeBatchAdd = TypeBatchAdd)) by done.
  pose proof (AppendUvarint_length n Hn).
  rewrite decide_False by lia. rewrite Nat2Z.id, drop_app_length.
  pose proof (batch_ids_concat ids [] (S (length (concat (AppendUvarint [] <$> ids)))) 0 n Hids) as Hb.
  rewrite app_nil_r in Hb. rewrite Hb by lia.
  assert (length ids ≤ length (concat (AppendUvarint [] <$> ids)))%nat as Hlen.
  { clear -Hids. induction Hids as [|id ids Hid Hids IH]; [simpl; lia|].
    rewrite fmap_cons. cbn [concat length]. rewrite length_app. pose proof (AppendUvarint_length id Hid). lia. }
  replace (S (length (concat (AppendUvarint [] <$> ids))) - length ids)%nat
    with (S (length (concat (AppendUvarint [] <$> ids)) - length ids)) by lia.
  cbn [batch_ids]. rewrite Z.add_0_l. change (Uvarint []) with (0, 0).
  case_decide; [rewrite (decide_True (P := 0 ≤ 0)) by done|]; by rewrite app_nil_r.
Qed.

Lemma cmd_calls_merge g algo sketch :
  Z.of_nat (length (list_byte_of_string algo)) < 2 ^ 64 →
  cmd_calls (mkCommand TypeMergeSketch g (encode_merge algo sketch)) =
    ([CMerge g algo sketch], None).
Proof.
  intros Hl. unfold cmd_calls, encode_merge. cbn [cmd_Payload cmd_Type cmd_Group].
  set (al := list_byte_of_string algo) in *.
  assert (u64 (Z.of_nat (length al))) as Hu by (unfold u64; lia).
  rewrite Uvarint_AppendUvarint by done.
  pose proof (AppendUvarint_length _ Hu).
  rewrite (decide_False (P := TypeMergeSketch = TypeAdd)),
    (decide_False (P := TypeMergeSketch = TypeBatchAdd)),
    (decide_True (P := TypeMergeSketch = TypeMergeSketch)) by done.
  rewrite decide_False by lia. rewrite Nat2Z.id, drop_app_length.
  rewrite decide_False by (rewrite length_app; lia).
  rewrite Nat2Z.id, take_app_length, drop_app_length. unfold al.
  by rewrite string_of_list_byte_of_string.
Qed.

(** ** Properties *)

Section Generic.
Context {Sk : Type} `{AlgorithmLaws Sk}.
Implicit Types (e : Engine Sk) (g : string).

(** C22: dispatching any command at all, with any bytes as its payload, returns: no
    panic and no endless loop. It runs the calls the command stands for, in order,
    returns the first error, and leaves the engine well formed. *)
Theorem dispatch_total (cmd : Command) e :
  engine_ok e →
  ∃ e', Dispatch (DefaultRegistry _) (Some cmd) (Some engine_Adder) e =
      Ret (cmd_result (Sk := Sk) cmd, e') ∧
    engine_ok e' ∧ view e' = spec_calls (cmd_calls cmd).1 (view e).
Proof.
  intros Hok. destruct (Dispatch_refines cmd e Hok) as (e' & E & Hok' & Hv & _). eauto.
Qed.

(** The ADD payload written for an id is read back as that id: dispatching it
    adds exactly the id to the group. *)
Lemma dispatch_add_roundtrip g (id : Z) e :
  engine_ok e → u64 id →
  ∃ e', Dispatch (DefaultRegistry _) (Some (mkCommand TypeAdd g (encode_add id)))
      (Some engine_Adder) e = Ret (None, e') ∧
    engine_ok e' ∧ view e' = spec_Add g id (view e).
Proof.
  intros Hok Hid. destruct (Dispatch_refines (mkCommand TypeAdd g (encode_add id)) e Hok)
    as (e' & E & Hok' & Hv & _).
  unfold cmd_result in E. rewrite cmd_calls_add in E, Hv by done. eauto.
Qed.

(** A BATCH_ADD payload that announces [n] ids and holds the first [length ids] of
    them adds those ids in order. With all [n] present it succeeds; with fewer it
    reports the first missing id, after the others have been added. *)
Lemma dispatch_batch_prefix g (ids : list Z) (n : Z) e :
  engine_ok e → Forall u64 ids → u64 n → Z.of_nat (length ids) ≤ n →
  ∃ e', Dispatch (DefaultRegistry _)
      (Some (mkCommand TypeBatchAdd g (AppendUvarint [] n ++ concat (AppendUvarint [] <$> ids))))
      (Some engine_Adder) e =
      Ret (if decide (Z.of_nat (length ids) < n)
           then Some (ErrBadPayload (IdTruncated (Z.of_nat (length ids) + 1) n)) else None, e') ∧
    engine_ok e' ∧ view e' = spec_calls (CAdd g <$> ids) (view e).
Proof.
  intros Hok Hids Hn Hle. set (cmd := mkCommand _ _ _).
  destruct (Dispatch_refines cmd e Hok) as (e' & E & Hok' & Hv & _).
  unfold cmd_result, cmd in E, Hv. rewrite cmd_calls_batch in E, Hv by done.
  rewrite first_error_adds in E. eauto.
Qed.

(** The MERGE_SKETCH payload written for an algorithm name and a sketch is read
    back as those: the sketch is merged into the group when the name is the
    engine's, and refused with [ErrAlgoMismatch] and no change when it is not. *)
Lemma dispatch_merge_roundtrip g algo (b : list byte) (s : Sk) e :
  engine_ok e → Z.of_nat (length (list_byte_of_string algo)) < 2 ^ 64 → alg_Parse b = Ok s →
  ∃ r e', Dispatch (DefaultRegistry _) (Some (mkCommand TypeMergeSketch g (encode_merge algo b)))
      (Some engine_Adder) e = Ret (r, e') ∧ engine_ok e' ∧
    (algo = alg_Name Sk → r = None ∧ view e' = spec_Merge g s (view e)) ∧
    (algo ≠ alg_Name Sk → r = Some (ErrAlgoMismatch (alg_Name Sk) algo) ∧ view e' = view e).
Proof.
  intros Hok Hl Hp.
  destruct (Dispatch_refines (mkCommand TypeMergeSketch g (encode_merge algo b)) e Hok)
    as (e' & E & Hok' & Hv & _).
  unfold cmd_result in E. rewrite cmd_calls_merge in E, Hv by done.
  eexists _, e'. split; [exact E|]. split; [done|]. rewrite Hv. simpl.
  split; intros Ha; [rewrite !decide_False by naive_solver; by rewrite Hp|].
  by rewrite !decide_True by done.
Qed.
End Generic.

(** Dispatching a nil command, an unregistered type or a nil adder is an error
    that leaves the state of any adder alone, whatever the registry holds. *)
Lemma dispatch_rejects {S : Type} (r : Registry S) (cmd : Command) (A : Adder S) (s : S) :
  Dispatch r None (Some A) s = Ret (Some (ErrUnknownCommand None), s) ∧
  (reg_m r !! cmd_Type cmd = None →
     Dispatch r (Some cmd) (Some A) s = Ret (Some (ErrUnknownCommand (Some (cmd_Type cmd))), s)) ∧
  (is_Some (reg_m r !! cmd_Type cmd) → Dispatch r (Some cmd) None s = Ret (Some ErrNilAdder, s)).
Proof.
  unfold Dispatch, dispatch_code. split; [done|]. split; [by intros ->|]. by intros [h ->].
Qed.

(** An ADD payload can be ten bytes long, one more than the comment on [TypeAdd]
    allows for. *)
Theorem add_payload_ten_bytes : u64 (2 ^ 63) ∧ length (encode_add (2 ^ 63)) = 10%nat.
Proof. split; [split; [done|reflexivity]|vm_compute; reflexivity]. Qed.

(** ** Witnesses *)

Section Witnesses.
Import Concrete.

Definition new_ex : Engine SketchV := NewEngine ∅.
Lemma new_ex_ok : engine_ok new_ex.
Proof. apply empty_engine_ok. Qed.

Lemma dispatch_total_witness :
  let cmd := mkCommand "BATCH_ADD" "a" [x05; x80] in
  ∃ e', Dispatch (DefaultRegistry _) (Some cmd) (Some engine_Adder) new_ex =
      Ret (cmd_result (Sk := SketchV) cmd, e') ∧
    engine_ok e' ∧ view e' = spec_calls (cmd_calls cmd).1 (view new_ex).
Proof. exact (dispatch_total (mkCommand "BATCH_ADD" "a" [x05; x80]) new_ex new_ex_ok). Defined.

End Witnesses.
