(* ===== verification/Router.v ===== *)
(** * The consistent-hash ring (internal/router/router.go)

    A ring is the sorted slice of hash points and the map from points to node
    addresses. [Resolve] is modelled with the binary search of [sort.Search] and
    with the bounds checks of its slice accesses; [successor] is the point a
    consistent hash promises, defined on the set of points, and [Resolve_successor]
    shows the search finds it. The theorems on adding and removing nodes follow
    from lemmas on [successor].

    The methods hold the ring's lock from their first to their last statement, so
    a method is one step on the ring here; [RouterLock] has their interleavings. *)

From stdpp Require Import pretty.
From S2P Require Import Prelude External.
Local Open Scope Z_scope.

Record Ring := mkRing {
  ring : list Z;
  nodeMap : gmap Z string;
}.

Definition New : Ring := {| ring := []; nodeMap := ∅ |}.

Definition vnodesPerNode : nat := 150.

(** ** [sort.Search]: the least index in [[i, j)] at which [f] holds, for monotone [f] *)
Fixpoint sort_Search_loop (fuel : nat) (f : nat → outcome bool) (i j : nat) : outcome nat :=
  if decide (i < j)%nat then
    match fuel with
    | O => Panic "sort.Search: out of fuel"
    | S fuel' =>
        let h := Nat.div2 (i + j) in
        match f h with
        | Panic msg => Panic msg
        | Ret b => if b then sort_Search_loop fuel' f i h
                   else sort_Search_loop fuel' f (S h) j
        end
    end
  else Ret i.

Definition sort_Search (n : nat) (f : nat → outcome bool) : outcome nat :=
  sort_Search_loop n f 0 n.

(** A slice access. *)
Definition index_slice {A} (l : list A) (i : nat) : outcome A :=
  match l !! i with
  | Some x => Ret x
  | None => Panic "index out of range"
  end.

Section Ring.
Context `{!Murmur3}.

(** [murmur3.Sum32] of [fmt.Sprintf] with format [%s#%d] *)
Definition vnode (addr : string) (i : nat) : Z :=
  Sum32 (list_byte_of_string (addr +:+ "#" +:+ pretty (Z.of_nat i))).

Fixpoint AddNode_loop (addr : string) (ids : list nat) (r : Ring) : Ring :=
  match ids with
  | [] => r
  | i :: ids' =>
      let h := vnode addr i in
      AddNode_loop addr ids'
        {| ring := ring r ++ [h]; nodeMap := <[h := addr]> (nodeMap r) |}
  end.

Definition AddNode (addr : string) (r : Ring) : Ring :=
  let r' := AddNode_loop addr (seq 0 vnodesPerNode) r in
  {| ring := merge_sort Z.le (ring r'); nodeMap := nodeMap r' |}.

(** A missing key reads as the empty string. *)
Definition node_at (m : gmap Z string) (h : Z) : string := default EmptyString (m !! h).

Fixpoint RemoveNode_loop (addr : string) (hs keep : list Z) (m : gmap Z string)
    : list Z * gmap Z string :=
  match hs with
  | [] => (keep, m)
  | h :: hs' =>
      if decide (node_at m h ≠ addr) then RemoveNode_loop addr hs' (keep ++ [h]) m
      else RemoveNode_loop addr hs' keep (delete h m)
  end.

Definition RemoveNode (addr : string) (r : Ring) : Ring :=
  let km := RemoveNode_loop addr (ring r) [] (nodeMap r) in
  {| ring := km.1; nodeMap := km.2 |}.

Definition Resolve (group : string) (r : Ring) : outcome string :=
  if decide (length (ring r) = 0%nat) then Ret EmptyString
  else
    let h := Sum32 (list_byte_of_string group) in
    match sort_Search (length (ring r)) (λ i,
            match index_slice (ring r) i with
            | Ret x => Ret (bool_decide (h ≤ x))
            | Panic msg => Panic msg
            end) with
    | Panic msg => Panic msg
    | Ret idx =>
        let idx := if decide (idx = length (ring r)) then 0%nat else idx in
        match index_slice (ring r) idx with
        | Ret p => Ret (node_at (nodeMap r) p)
        | Panic msg => Panic msg
        end
    end.

(** ** The point that owns a hash: the first one clockwise *)

Definition successor (pts : list Z) (h p : Z) : Prop :=
  p ∈ pts ∧
  ((h ≤ p ∧ ∀ q, q ∈ pts → h ≤ q → p ≤ q) ∨
   ((∀ q, q ∈ pts → q < h) ∧ ∀ q, q ∈ pts → p ≤ q)).

Lemma successor_unique pts h p q : successor pts h p → successor pts h q → p = q.
Proof.
  intros [Hp [[Hp1 Hp2]|[Hp1 Hp2]]] [Hq [[Hq1 Hq2]|[Hq1 Hq2]]].
  - pose proof (Hp2 _ Hq Hq1). pose proof (Hq2 _ Hp Hp1). lia.
  - pose proof (Hq1 _ Hp). lia.
  - pose proof (Hp1 _ Hq). lia.
  - pose proof (Hp2 _ Hq). pose proof (Hq2 _ Hp). lia.
Qed.

(** A smaller set of points that keeps the owner keeps the ownership. *)
Lemma successor_shrink pts pts' h p :
  pts' ⊆ pts → p ∈ pts' → successor pts h p → successor pts' h p.
Proof.
  intros Hsub Hp [_ [[Hp1 Hp2]|[Hp1 Hp2]]]; split; try done; [left|right]; split; eauto.
Qed.

(** ** The binary search *)

(** [f] is false below [k] and true from [k] on. *)
Definition threshold (n k : nat) (f : nat → outcome bool) : Prop :=
  (k ≤ n)%nat ∧ ∀ i, (i < n)%nat → f i = Ret (bool_decide (k ≤ i)%nat).

Lemma sort_Search_loop_spec n k f fuel i j :
  threshold n k f → (i ≤ k)%nat → (k ≤ j)%nat → (j ≤ n)%nat → (j - i ≤ fuel)%nat →
  sort_Search_loop fuel f i j = Ret k.
Proof.
  intros [Hk Hf]. revert i j.
  induction fuel as [|fuel IH]; intros i j Hi Hj Hn Hfuel; simpl.
  - rewrite decide_False by lia. f_equal. lia.
  - destruct (decide (i < j)%nat) as [Hlt|]; [|f_equal; lia].
    pose proof (Nat.div2_odd (i + j)) as Hd.
    assert (Nat.b2n (Nat.odd (i + j)) ≤ 1)%nat by (destruct (Nat.odd (i + j)); simpl; lia).
    set (h := Nat.div2 (i + j)) in *. rewrite Hf by lia.
    case_bool_decide; apply IH; lia.
Qed.

Lemma sort_Search_spec n k f : threshold n k f → sort_Search n f = Ret k.
Proof. intros Hf. destruct (Hf) as [Hk _]. eapply sort_Search_loop_spec; [done|lia..]. Qed.

(** ** [Resolve] *)

(** Where a hash falls in a sorted slice. *)
Lemma sorted_threshold (pts : list Z) (h : Z) :
  StronglySorted Z.le pts →
  ∃ k, (k ≤ length pts)%nat ∧ ∀ i x, pts !! i = Some x → (h ≤ x ↔ (k ≤ i)%nat).
Proof.
  induction 1 as [|x pts Hs (k & Hk & IH) Hx]; [by exists 0%nat|].
  destruct (decide (h ≤ x)).
  - exists 0%nat. split; [lia|]. intros [|i] y Hy; simpl in Hy; [by simplify_eq|].
    rewrite Forall_lookup in Hx. pose proof (Hx _ _ Hy). lia.
  - exists (S k). split; [simpl; lia|]. intros [|i] y Hy; simpl in Hy; [simplify_eq; lia|].
    rewrite (IH _ _ Hy). lia.
Qed.

Lemma sorted_head_le (pts : list Z) p q :
  StronglySorted Z.le pts → pts !! 0%nat = Some p → q ∈ pts → p ≤ q.
Proof.
  intros Hs Hp Hq. destruct Hs as [|x pts Hs Hx]; [done|]. simplify_eq/=.
  apply elem_of_cons in Hq as [->|Hq]; [done|]. rewrite Forall_forall in Hx. by apply Hx.
Qed.

Lemma sorted_lookup_le (pts : list Z) i j p q :
  StronglySorted Z.le pts → pts !! i = Some p → pts !! j = Some q → (i ≤ j)%nat → p ≤ q.
Proof.
  intros Hs. revert i j. induction Hs as [|x pts Hs IH Hx]; intros i j Hi Hj Hij; [done|].
  destruct i as [|i], j as [|j]; simplify_eq/=; try lia.
  - rewrite Forall_lookup in Hx. by eapply Hx.
  - apply (IH i j); auto with lia.
Qed.

Definition ring_sorted (r : Ring) : Prop := StronglySorted Z.le (ring r).

Lemma Resolve_successor r group :
  ring_sorted r → ring r ≠ [] →
  ∃ p, successor (ring r) (Sum32 (list_byte_of_string group)) p ∧
       Resolve group r = Ret (node_at (nodeMap r) p).
Proof.
  intros Hs Hne. unfold Resolve. set (h := Sum32 _).
  destruct (sorted_threshold (ring r) h Hs) as (k & Hk & Hth).
  assert (0 < length (ring r))%nat as Hlen by (by destruct (ring r); simpl; [|lia]).
  rewrite decide_False by lia.
  rewrite (sort_Search_spec _ k).
  2:{ split; [done|]. intros i Hi. apply lookup_lt_is_Some in Hi as [x Hx].
      unfold index_slice. rewrite Hx. f_equal. apply bool_decide_ext. by apply Hth. }
  unfold index_slice. destruct (decide (k = _)) as [->|Hlt].
  - destruct (lookup_lt_is_Some_2 (ring r) 0 Hlen) as [p Hp]. rewrite Hp.
    exists p. split; [|done]. split; [by eapply list_elem_of_lookup_2|]. right.
    split; [|by intros; eapply sorted_head_le].
    intros q [i Hi]%list_elem_of_lookup_1. apply Z.nle_gt. intros Hle%(Hth _ _ Hi).
    apply lookup_lt_Some in Hi. lia.
  - destruct (lookup_lt_is_Some_2 (ring r) k) as [p Hp]; [lia|]. rewrite Hp.
    exists p. split; [|done]. split; [by eapply list_elem_of_lookup_2|]. left.
    split; [by apply (Hth _ _ Hp)|].
    intros q [i Hi]%list_elem_of_lookup_1 Hq%(Hth _ _ Hi). by eapply sorted_lookup_le.
Qed.

(** A known owner determines the answer. *)
Lemma Resolve_at r group p :
  ring_sorted r → successor (ring r) (Sum32 (list_byte_of_string group)) p →
  Resolve group r = Ret (node_at (nodeMap r) p).
Proof.
  intros Hs Hp.
  assert (ring r ≠ []) as Hne by (intros E; destruct Hp as [Hp _]; by rewrite E in Hp; apply not_elem_of_nil in Hp).
  destruct (Resolve_successor r group Hs Hne) as (q & Hq & ->).
  by rewrite (successor_unique _ _ _ _ Hp Hq).
Qed.

(** ** What [AddNode] and [RemoveNode] do to the points *)

#[local] Opaque vnodesPerNode.

Definition vnodes (addr : string) : list Z := vnode addr <$> seq 0 vnodesPerNode.

Lemma AddNode_loop_spec addr ids r :
  ring (AddNode_loop addr ids r) = ring r ++ (vnode addr <$> ids) ∧
  ∀ h, nodeMap (AddNode_loop addr ids r) !! h =
       if decide (h ∈ vnode addr <$> ids) then Some addr else nodeMap r !! h.
Proof.
  revert r. induction ids as [|i ids IH]; intros r; simpl.
  - split; [by rewrite app_nil_r|done].
  - destruct (IH {| ring := ring r ++ [vnode addr i];
                    nodeMap := <[vnode addr i := addr]> (nodeMap r) |}) as [-> Hm].
    split; [simpl; by rewrite <- app_assoc|]. intros h. rewrite Hm. simpl.
    destruct (decide (h = vnode addr i)) as [->|Hne].
    + rewrite lookup_insert_eq, (decide_True (P := _ ∈ _ :: _)) by left. by case_decide.
    + rewrite lookup_insert_ne by done. apply decide_ext. rewrite elem_of_cons. tauto.
Qed.

Lemma AddNode_ring addr r : ring (AddNode addr r) ≡ₚ ring r ++ vnodes addr.
Proof.
  unfold AddNode. cbn [ring]. rewrite merge_sort_Permutation.
  by destruct (AddNode_loop_spec addr (seq 0 vnodesPerNode) r) as [-> _].
Qed.

Lemma AddNode_nodeMap addr r h :
  nodeMap (AddNode addr r) !! h =
  if decide (h ∈ vnodes addr) then Some addr else nodeMap r !! h.
Proof.
  unfold AddNode, vnodes. cbn [nodeMap].
  destruct (AddNode_loop_spec addr (seq 0 vnodesPerNode) r) as [_ ->]. done.
Qed.

Lemma AddNode_sorted addr r : ring_sorted (AddNode addr r).
Proof. apply StronglySorted_merge_sort; apply _. Qed.

Lemma AddNode_elem addr r h : h ∈ ring (AddNode addr r) ↔ h ∈ ring r ∨ h ∈ vnodes addr.
Proof. by rewrite AddNode_ring, elem_of_app. Qed.

Lemma RemoveNode_loop_keep addr hs keep m :
  ∃ K, (RemoveNode_loop addr hs keep m).1 = keep ++ K ∧ K `sublist_of` hs ∧
       ∀ h, h ∈ hs → node_at m h ≠ addr → h ∈ K.
Proof.
  revert keep m. induction hs as [|x hs IH]; intros keep m; simpl.
  - exists []. split_and!; [by rewrite app_nil_r|done|done].
  - destruct (decide (node_at m x ≠ addr)) as [Hx|Hx].
    + destruct (IH (keep ++ [x]) m) as (K & E & Hsub & HK). exists (x :: K).
      rewrite E, <- app_assoc. split_and!; [done|by constructor|].
      intros h [->|Hh]%elem_of_cons Hn; [by left|right; by apply HK].
    + destruct (IH keep (delete x m)) as (K & E & Hsub & HK). exists K.
      split_and!; [done|by constructor|]. intros h [->|Hh]%elem_of_cons Hn; [done|].
      apply HK; [done|]. unfold node_at. rewrite lookup_delete_ne; [done|]. by intros ->.
Qed.

Lemma RemoveNode_loop_map addr hs keep m h :
  (RemoveNode_loop addr hs keep m).2 !! h =
  if decide (h ∈ hs ∧ node_at m h = addr) then None else m !! h.
Proof.
  revert keep m. induction hs as [|x hs IH]; intros keep m;
    cbn [RemoveNode_loop snd].
  - rewrite decide_False; [done|]. by intros [[]%not_elem_of_nil _].
  - destruct (decide (node_at m x ≠ addr)) as [Hx|Hx]; rewrite IH.
    + apply decide_ext. rewrite elem_of_cons. naive_solver.
    + apply dec_stable in Hx. destruct (decide (h = x)) as [->|Hne].
      * rewrite lookup_delete_eq. rewrite (decide_True (P := x ∈ x :: hs ∧ _)) by (split; [by left|done]).
        by destruct (decide _).
      * unfold node_at. rewrite lookup_delete_ne by done. apply decide_ext.
        rewrite elem_of_cons. tauto.
Qed.

Lemma RemoveNode_sub addr r : ring (RemoveNode addr r) `sublist_of` ring r.
Proof.
  unfold RemoveNode. cbn [ring].
  by destruct (RemoveNode_loop_keep addr (ring r) [] (nodeMap r)) as (K & -> & ? & _).
Qed.

Lemma RemoveNode_keep addr r h :
  h ∈ ring r → node_at (nodeMap r) h ≠ addr → h ∈ ring (RemoveNode addr r).
Proof.
  destruct (RemoveNode_loop_keep addr (ring r) [] (nodeMap r)) as (K & E & _ & HK).
  unfold RemoveNode. cbn [ring]. rewrite E. apply HK.
Qed.

Lemma RemoveNode_nodeMap addr r h :
  nodeMap (RemoveNode addr r) !! h =
  if decide (h ∈ ring r ∧ node_at (nodeMap r) h = addr) then None else nodeMap r !! h.
Proof. apply RemoveNode_loop_map. Qed.

Lemma StronglySorted_sublist (l k : list Z) :
  l `sublist_of` k → StronglySorted Z.le k → StronglySorted Z.le l.
Proof.
  induction 1 as [|x l k Hs IH|x l k Hs IH]; intros Hk; [done| |];
    apply StronglySorted_inv in Hk as [Hk Hx]; [|by apply IH].
  constructor; [by apply IH|].
  rewrite Forall_forall in *. intros y Hy. by eapply Hx, elem_of_sublist.
Qed.

Lemma RemoveNode_sorted addr r : ring_sorted r → ring_sorted (RemoveNode addr r).
Proof. apply StronglySorted_sublist, RemoveNode_sub. Qed.

(** Without duplicate points exactly the node's points go. *)
Lemma RemoveNode_elem addr r h :
  NoDup (ring r) →
  h ∈ ring (RemoveNode addr r) ↔ h ∈ ring r ∧ node_at (nodeMap r) h ≠ addr.
Proof.
  intros Hnd. split; [|by intros [??]; apply RemoveNode_keep].
  unfold RemoveNode. cbn [ring].
  assert (∀ hs keep m, NoDup hs →
    h ∈ (RemoveNode_loop addr hs keep m).1 → h ∈ keep ∨ (h ∈ hs ∧ node_at m h ≠ addr)) as HL.
  { clear. induction hs as [|x hs IH]; intros keep m Hnd Hh; simpl in Hh; [by left|].
    apply NoDup_cons in Hnd as [Hx Hnd]. rewrite elem_of_cons.
    destruct (decide (node_at m x ≠ addr)); apply IH in Hh as [Hh|[Hh Hn]]; try done; auto.
    - apply elem_of_app in Hh as [Hh|Hh%list_elem_of_singleton]; subst; auto.
    - right. split; [by right|]. unfold node_at in Hn. rewrite lookup_delete_ne in Hn; [done|].
      by intros ->. }
  intros Hh. by destruct (HL _ _ _ Hnd Hh) as [[]%not_elem_of_nil|].
Qed.

(** ** Histories of a ring *)

Inductive ring_op := RAdd (addr : string) | RRemove (addr : string).

Definition ring_step (r : Ring) (o : ring_op) : Ring :=
  match o with RAdd addr => AddNode addr r | RRemove addr => RemoveNode addr r end.

Definition ring_run (os : list ring_op) : Ring := foldl ring_step New os.

Lemma ring_run_sorted os : ring_sorted (ring_run os).
Proof.
  unfold ring_run. induction os as [|o os IH] using rev_ind; [constructor|].
  rewrite foldl_snoc. destruct o; [apply AddNode_sorted|by apply RemoveNode_sorted].
Qed.

Lemma Resolve_empty r group : ring r = [] → Resolve group r = Ret EmptyString.
Proof. unfold Resolve. by intros ->. Qed.

End Ring.
