(* ===== verification/RouterProps.v ===== *)
(** * Theorems on the consistent-hash ring

    A ring built by additions alone is described for any addresses, also if their virtual
    nodes collide ([added_points], [added_map]). [ring_represents] relates a ring to the
    set of its members; if the virtual nodes of the addresses used do not collide and
    nodes are added only when absent, adding and removing nodes refines adding to and
    removing from that set, whatever the order. The other theorems hold for every history
    of a ring. *)

From S2P Require Import Prelude External Router.
Local Open Scope Z_scope.

Section Props.
Context `{!Murmur3}.
Implicit Types (r : Ring) (M : gset string) (U : list string) (os : list ring_op).
Local Opaque vnodesPerNode.

(** ** Rings as sets of members *)

Record ring_represents r M : Prop := {
  rep_sorted : ring_sorted r;
  rep_nodup : NoDup (ring r);
  rep_map h a : nodeMap r !! h = Some a ↔ a ∈ M ∧ h ∈ vnodes a;
  rep_ring h : h ∈ ring r ↔ is_Some (nodeMap r !! h);
}.

(** The virtual nodes of the addresses [U] are pairwise distinct. *)
Definition collision_free U : Prop := NoDup (U ≫= vnodes).

Definition members_step M (o : ring_op) : gset string :=
  match o with RAdd a => {[a]} ∪ M | RRemove a => M ∖ {[a]} end.
Definition members os : gset string := foldl members_step ∅ os.

(** Only addresses of [U] are added, and only when they are not members. *)
Fixpoint ops_ok U M os : Prop :=
  match os with
  | [] => True
  | o :: os' =>
      match o with RAdd a => a ∈ U ∧ a ∉ M | RRemove _ => True end ∧
      ops_ok U (members_step M o) os'
  end.

Lemma collision_free_elim U a b h :
  collision_free U → a ∈ U → b ∈ U → h ∈ vnodes a → h ∈ vnodes b → a = b.
Proof.
  unfold collision_free.
  induction U as [|c U IH]; simpl; intros Hnd Ha Hb Hha Hhb; [by apply not_elem_of_nil in Ha|].
  apply NoDup_app in Hnd as (_ & Hdis & Hnd).
  apply elem_of_cons in Ha as [->|Ha], Hb as [->|Hb]; [done| | |by apply IH].
  - destruct (Hdis _ Hha). apply list_elem_of_bind. eauto.
  - destruct (Hdis _ Hhb). apply list_elem_of_bind. eauto.
Qed.

Lemma collision_free_NoDup U a : collision_free U → a ∈ U → NoDup (vnodes a).
Proof.
  unfold collision_free.
  induction U as [|c U IH]; simpl; intros Hnd Ha; [by apply not_elem_of_nil in Ha|].
  apply NoDup_app in Hnd as (Hc & _ & Hnd). apply elem_of_cons in Ha as [->|Ha]; auto.
Qed.

Lemma represents_unique r1 r2 M : ring_represents r1 M → ring_represents r2 M → r1 = r2.
Proof.
  intros H1 H2.
  assert (nodeMap r1 = nodeMap r2) as Em.
  { apply map_eq. intros h. apply option_eq. intros a.
    by rewrite (rep_map _ _ H1), (rep_map _ _ H2). }
  assert (ring r1 = ring r2) as Er.
  { apply (StronglySorted_unique Z.le); [apply H1|apply H2|].
    apply NoDup_Permutation; [apply H1|apply H2|].
    intros h. by rewrite (rep_ring _ _ H1), (rep_ring _ _ H2), Em. }
  destruct r1, r2; simpl in *; by subst.
Qed.

Lemma AddNode_represents U r M a :
  collision_free U → (∀ b, b ∈ M → b ∈ U) → a ∈ U → a ∉ M →
  ring_represents r M → ring_represents (AddNode a r) ({[a]} ∪ M).
Proof.
  intros HU HM Ha Hna [Hs Hnd Hmap Hring]. split.
  - apply AddNode_sorted.
  - rewrite AddNode_ring. apply NoDup_app. split_and!; [done| |by eapply collision_free_NoDup].
    intros h [b [Hb Hh]%Hmap]%Hring Hh'. apply Hna.
    by rewrite (collision_free_elim U a b h) by auto.
  - intros h b. rewrite AddNode_nodeMap, elem_of_union, elem_of_singleton. case_decide as Hh.
    + split; [intros [= <-]; auto|]. intros [[->|Hb] Hhb]; [done|].
      by rewrite (collision_free_elim U a b h) by auto.
    + rewrite Hmap. naive_solver.
  - intros h. rewrite AddNode_elem, AddNode_nodeMap, Hring. case_decide; naive_solver.
Qed.

Lemma node_at_represents r M h a :
  ring_represents r M → h ∈ ring r → node_at (nodeMap r) h = a ↔ nodeMap r !! h = Some a.
Proof.
  intros Hr [b Hb]%(rep_ring _ _ Hr). unfold node_at. rewrite Hb. simpl. split; congruence.
Qed.

Lemma RemoveNode_represents r M a :
  ring_represents r M → ring_represents (RemoveNode a r) (M ∖ {[a]}).
Proof.
  intros Hr. destruct (Hr) as [Hs Hnd Hmap Hring].
  assert (∀ h, nodeMap (RemoveNode a r) !! h =
    if decide (nodeMap r !! h = Some a) then None else nodeMap r !! h) as Hm.
  { intros h. rewrite RemoveNode_nodeMap. apply decide_ext. split.
    - intros [Hh E]. by apply (node_at_represents r M).
    - intros E. assert (h ∈ ring r) as Hh by (apply Hring; eauto).
      split; [done|]. by apply (node_at_represents r M). }
  split.
  - by apply RemoveNode_sorted.
  - eapply sublist_NoDup; [done|apply RemoveNode_sub].
  - intros h b. rewrite Hm, elem_of_difference, elem_of_singleton. case_decide as E.
    + split; [done|]. intros [[Hb Hne] Hh]. assert (nodeMap r !! h = Some b) by (by apply Hmap).
      congruence.
    + rewrite Hmap. split; [|tauto]. intros [Hb Hh]. split; [|done]. split; [done|].
      intros ->. apply E. by apply Hmap.
  - intros h. rewrite RemoveNode_elem, Hm by done. rewrite Hring. case_decide as E.
    + split; [|by intros []]. intros [_ Hn]. unfold node_at in Hn. by rewrite E in Hn.
    + split; [tauto|]. intros [b Hb]. split; [by eexists|].
      unfold node_at. rewrite Hb. simpl. congruence.
Qed.

Lemma ring_run_represents U os :
  collision_free U → ops_ok U ∅ os → ring_represents (ring_run os) (members os).
Proof.
  intros HU. unfold ring_run, members.
  assert (∀ r M, (∀ b, b ∈ M → b ∈ U) → ring_represents r M → ops_ok U M os →
    ring_represents (foldl ring_step r os) (foldl members_step M os)) as HG.
  { induction os as [|o os IH]; intros r M HM Hr Hos; simpl; [done|].
    destruct Hos as [Ho Hos]. destruct o as [a|a]; simpl in *.
    - destruct Ho. apply IH; [set_solver|by eapply AddNode_represents|done].
    - apply IH; [set_solver|by apply RemoveNode_represents|done]. }
  apply HG; [set_solver|]. split; simpl; [constructor|constructor| |].
  - intros h a. rewrite lookup_empty. set_solver.
  - intros h. rewrite lookup_empty. split; [by intros []%not_elem_of_nil|by intros []].
Qed.

Lemma vnodes_nonempty a : ∃ h, h ∈ vnodes a.
Proof.
  exists (vnode a 0). unfold vnodes. apply list_elem_of_fmap. exists 0%nat. split; [done|].
  apply elem_of_seq. Local Transparent vnodesPerNode. unfold vnodesPerNode. lia.
  Local Opaque vnodesPerNode.
Qed.

Lemma represents_resolve r M group :
  ring_represents r M → M ≠ ∅ →
  ∃ a h, a ∈ M ∧ h ∈ vnodes a ∧
    successor (elements M ≫= vnodes) (Sum32 (list_byte_of_string group)) h ∧
    Resolve group r = Ret a.
Proof.
  intros Hr Hne. destruct (Hr) as [Hs Hnd Hmap Hring].
  assert (∀ h, h ∈ elements M ≫= vnodes ↔ h ∈ ring r) as Hel.
  { intros h. rewrite list_elem_of_bind, Hring. split.
    - intros (a & Hh & Ha%elem_of_elements). exists a. by apply Hmap.
    - intros [a [Ha Hh]%Hmap]. exists a. split; [done|]. by apply elem_of_elements. }
  apply set_choose_L in Hne as [b Hb]. destruct (vnodes_nonempty b) as [hb Hhb].
  assert (hb ∈ ring r) as Hb' by (apply Hring; exists b; by apply Hmap).
  destruct (Resolve_successor r group Hs) as (p & Hp & HR).
  { intros E. rewrite E in Hb'. by apply not_elem_of_nil in Hb'. }
  assert (p ∈ ring r) as Hpr by apply Hp.
  destruct (proj1 (Hring p) Hpr) as [a Ha]. destruct (proj1 (Hmap p a) Ha) as [HaM Hpa].
  exists a, p. split_and!; [done|done| |].
  - eapply successor_shrink; [|by apply Hel|exact Hp]. intros h. apply Hel.
  - rewrite HR. f_equal. by apply (node_at_represents r M).
Qed.

(** ** Rings built by additions, collisions included *)

(** The node a point leads to: the last one added that has it. *)
Definition last_owner (addrs : list string) (h : Z) : option string := last (filter (λ a, h ∈ vnodes a) addrs).

Lemma last_owner_in addrs h a : last_owner addrs h = Some a → a ∈ addrs ∧ h ∈ vnodes a.
Proof. intros Hl%last_Some_elem_of. by apply list_elem_of_filter in Hl as [? ?]. Qed.

Lemma added_points addrs : ring (ring_run (RAdd <$> addrs)) ≡ₚ addrs ≫= vnodes.
Proof.
  unfold ring_run. induction addrs as [|a addrs IH] using rev_ind; [done|].
  rewrite fmap_app, foldl_app, bind_app. cbn [fmap list_fmap foldl ring_step].
  rewrite AddNode_ring, IH. cbn. by rewrite app_nil_r.
Qed.

Lemma added_map addrs h : nodeMap (ring_run (RAdd <$> addrs)) !! h = last_owner addrs h.
Proof.
  unfold ring_run, last_owner. induction addrs as [|a addrs IH] using rev_ind; [apply lookup_empty|].
  rewrite fmap_app, foldl_app, filter_app. cbn [fmap list_fmap foldl ring_step].
  rewrite AddNode_nodeMap, IH, filter_cons, filter_nil. case_decide; [by rewrite last_snoc|by rewrite app_nil_r].
Qed.

Lemma added_resolve addrs group :
  addrs ≠ [] → ∃ a h, last_owner addrs h = Some a ∧
    successor (addrs ≫= vnodes) (Sum32 (list_byte_of_string group)) h ∧
    Resolve group (ring_run (RAdd <$> addrs)) = Ret a.
Proof.
  intros Hne. set (r := ring_run (RAdd <$> addrs)).
  assert (∀ h, h ∈ ring r ↔ h ∈ addrs ≫= vnodes) as Hel by (intros h; unfold r; by rewrite added_points).
  destruct (Resolve_successor r group (ring_run_sorted _)) as (p & Hp & ->).
  { destruct addrs as [|a addrs]; [done|]. destruct (vnodes_nonempty a) as [h Hh]. intros E.
    assert (h ∈ ring r) as Hin by (apply Hel, list_elem_of_bind; exists a; split; [done|left]).
    rewrite E in Hin. by apply not_elem_of_nil in Hin. }
  assert (p ∈ addrs ≫= vnodes) as (a & Hpa & Ha)%list_elem_of_bind by (apply Hel, Hp).
  destruct (last_owner addrs p) as [b|] eqn:Hl.
  - exists b, p. split_and!; [done| |].
    + eapply successor_shrink; [| |exact Hp]; [intros q; apply Hel|apply Hel, Hp].
    + f_equal. unfold node_at, r. by rewrite added_map, Hl.
  - unfold last_owner in Hl. apply last_None in Hl.
    assert (a ∈ filter (λ a, p ∈ vnodes a) addrs) as Hin by (by apply list_elem_of_filter).
    rewrite Hl in Hin. by apply not_elem_of_nil in Hin.
Qed.

(** ** Claims *)

(** C20: What a ring holds and where it sends groups. Built by AddNode calls alone, as at
    startup, whatever the addresses, repeated ones and colliding virtual nodes included:
    its points are sorted, they are the virtual nodes of the nodes added, and Resolve of
    any group returns, without a panic, the node that has the first of these points at or
    after the group's hash, wrapping around, the last added one if several nodes have it.
    With removals: if nodes are added only when absent and the virtual nodes of the
    addresses used do not collide in 32 bits, the ring represents exactly the set of
    members the same calls compute, and Resolve is as before, for that set. (Without these
    conditions it is not; remove_after_double_add is an example.) *)
Theorem ring_refines_members :
  (∀ addrs, let r := ring_run (RAdd <$> addrs) in
     ring_sorted r ∧ ring r ≡ₚ addrs ≫= vnodes ∧
     ∀ group, addrs ≠ [] → ∃ a h, last_owner addrs h = Some a ∧
       successor (addrs ≫= vnodes) (Sum32 (list_byte_of_string group)) h ∧ Resolve group r = Ret a) ∧
  (∀ U os, collision_free U → ops_ok U ∅ os →
     ring_represents (ring_run os) (members os) ∧
     ∀ group, members os ≠ ∅ → ∃ a h, a ∈ members os ∧ h ∈ vnodes a ∧
       successor (elements (members os) ≫= vnodes) (Sum32 (list_byte_of_string group)) h ∧
       Resolve group (ring_run os) = Ret a).
Proof.
  split.
  - intros addrs r. split; [apply ring_run_sorted|]. split; [apply added_points|apply added_resolve].
  - intros U os HU Hos. pose proof (ring_run_represents U os HU Hos) as Hr.
    split; [done|]. intros group Hne. by apply represents_resolve.
Qed.

(** C31: Servers agree on routing. Two servers that add the same addresses in different
    orders have the same points, and they send every group to the same node, except a
    group whose point is a virtual node of both nodes they send it to (a collision in 32
    bits). With removals: two histories that add nodes only when absent, of addresses
    whose virtual nodes do not collide, and end with the same members end in equal rings,
    so that removing a node undoes adding it. *)
Theorem ring_agreement :
  (∀ l1 l2, l1 ≡ₚ l2 → l1 ≠ [] →
     ring (ring_run (RAdd <$> l1)) = ring (ring_run (RAdd <$> l2)) ∧
     ∀ group, ∃ a b h, Resolve group (ring_run (RAdd <$> l1)) = Ret a ∧
       Resolve group (ring_run (RAdd <$> l2)) = Ret b ∧
       successor (l1 ≫= vnodes) (Sum32 (list_byte_of_string group)) h ∧
       a ∈ l1 ∧ b ∈ l1 ∧ h ∈ vnodes a ∧ h ∈ vnodes b ∧ (collision_free l1 → a = b)) ∧
  (∀ U os1 os2, collision_free U → ops_ok U ∅ os1 → ops_ok U ∅ os2 → members os1 = members os2 →
     ring_run os1 = ring_run os2).
Proof.
  split.
  - intros l1 l2 Hp Hne. split.
    { apply (StronglySorted_unique Z.le); [apply ring_run_sorted..|]. by rewrite !added_points, Hp. }
    intros group. destruct (added_resolve l1 group Hne) as (a & h & Ha & Hh & Ea).
    destruct (added_resolve l2 group) as (b & h' & Hb & Hh' & Eb).
    { intros ->. by apply Permutation_nil_r in Hp. }
    assert (h' = h) as ->.
    { eapply successor_unique; [|exact Hh]. eapply successor_shrink; [| |exact Hh'];
        [intros q; by rewrite Hp|]. rewrite Hp. apply Hh'. }
    apply last_owner_in in Ha as [Ha Hva], Hb as [Hb Hvb]. rewrite <- Hp in Hb. exists a, b, h.
    split_and!; try done. intros HU. by apply (collision_free_elim l1 a b h).
  - intros U os1 os2 HU H1 H2 E. apply (represents_unique _ _ (members os1)).
    + by eapply ring_run_represents.
    + rewrite E. by eapply ring_run_represents.
Qed.

(** C32: Resolve on any ring, collisions and repeated nodes included: it terminates within
    the search's fuel, never indexes out of range, answers the empty string on an empty
    ring and otherwise the map entry of the group's clockwise successor point. *)
Theorem resolve_total os group :
  let r := ring_run os in
  (ring r = [] ∧ Resolve group r = Ret EmptyString) ∨
  (∃ p, successor (ring r) (Sum32 (list_byte_of_string group)) p ∧
        Resolve group r = Ret (node_at (nodeMap r) p)).
Proof.
  intros r. destruct (decide (ring r = [])) as [E|Hne].
  - left. split; [done|]. by apply Resolve_empty.
  - right. apply Resolve_successor; [apply ring_run_sorted|done].
Qed.

(** Adding a node moves a group either to that node or nowhere, on any ring. *)
Lemma add_moves_to_new os addr group :
  Resolve group (AddNode addr (ring_run os)) = Resolve group (ring_run os) ∨
  Resolve group (AddNode addr (ring_run os)) = Ret addr.
Proof.
  set (r := ring_run os).
  destruct (Resolve_successor (AddNode addr r) group) as (p & Hp & ->).
  { apply AddNode_sorted. }
  { intros E. destruct (vnodes_nonempty addr) as [h Hh].
    assert (h ∈ ring (AddNode addr r)) as Hin by (apply AddNode_elem; auto).
    rewrite E in Hin. by apply not_elem_of_nil in Hin. }
  unfold node_at. rewrite AddNode_nodeMap. case_decide as Hd; [by right|left].
  assert (p ∈ ring (AddNode addr r)) as Hin by apply Hp.
  apply AddNode_elem in Hin as [Hin|]; [|done]. symmetry.
  rewrite (Resolve_at r group p); [done|apply ring_run_sorted|].
  eapply successor_shrink; [|exact Hin|exact Hp]. intros h Hh. apply AddNode_elem. auto.
Qed.

(** Removing a node leaves every group of the other nodes where it was, on any ring. *)
Lemma remove_moves_only_its_own os addr group b :
  Resolve group (ring_run os) = Ret b → b ≠ addr →
  Resolve group (RemoveNode addr (ring_run os)) = Ret b.
Proof.
  set (r := ring_run os). intros HR Hb.
  destruct (decide (ring r = [])) as [E|Hne].
  - rewrite Resolve_empty in HR by done. rewrite <- HR. apply Resolve_empty.
    pose proof (RemoveNode_sub addr r) as Hsub. rewrite E in Hsub.
    by apply sublist_nil_r in Hsub.
  - destruct (Resolve_successor r group (ring_run_sorted os) Hne) as (p & Hp & HR').
    rewrite HR in HR'. injection HR' as Hpb.
    assert (p ∈ ring r) as Hin by apply Hp.
    rewrite (Resolve_at _ group p).
    + unfold node_at. rewrite RemoveNode_nodeMap, decide_False by (intros [_ E]; congruence).
      by rewrite Hpb.
    + apply RemoveNode_sorted, ring_run_sorted.
    + eapply successor_shrink; [|by apply RemoveNode_keep; [|congruence]|exact Hp].
      intros h Hh. eapply elem_of_sublist; [done|apply RemoveNode_sub].
Qed.

(** C33: Groups move as little as consistent hashing promises, on a ring with any history,
    collisions and repeated nodes included: after AddNode a group is at the new node or
    where it was, and RemoveNode leaves every group that was not at the removed node where
    it was. *)
Theorem ring_moves_little os addr group :
  (Resolve group (AddNode addr (ring_run os)) = Resolve group (ring_run os) ∨
   Resolve group (AddNode addr (ring_run os)) = Ret addr) ∧
  ∀ b, Resolve group (ring_run os) = Ret b → b ≠ addr → Resolve group (RemoveNode addr (ring_run os)) = Ret b.
Proof.
  split; [apply add_moves_to_new|]. intros b. apply remove_moves_only_its_own.
Qed.

Lemma size_list_to_set_le (l : list Z) : (size (list_to_set l : gset Z) ≤ length l)%nat.
Proof.
  induction l as [|x l IH]; cbn [list_to_set length]; [by rewrite size_empty|].
  rewrite size_union_alt, size_singleton, size_difference_alt. lia.
Qed.

(** Each removal deletes an entry, so at most as many points go as the map has. *)
Lemma RemoveNode_loop_length addr hs keep m :
  addr ≠ EmptyString → (∀ h, h ∈ hs → m !! h = None ∨ m !! h = Some addr) →
  (length keep + length hs ≤
   length (RemoveNode_loop addr hs keep m).1 + size (dom m))%nat.
Proof.
  intros Haddr. revert keep m. induction hs as [|x hs IH]; intros keep m Hm; simpl; [lia|].
  assert (∀ h, h ∈ hs → m !! h = None ∨ m !! h = Some addr) as Hm' by (intros; apply Hm; by right).
  destruct (decide (node_at m x ≠ addr)) as [Hn|Hn].
  - specialize (IH (keep ++ [x]) m Hm'). rewrite length_app in IH. simpl in IH. lia.
  - assert (x ∈ dom m) as Hx.
    { apply elem_of_dom. destruct (Hm x) as [E|E]; [by left| |by eexists].
      destruct Hn. unfold node_at. by rewrite E. }
    specialize (IH keep (delete x m)). rewrite dom_delete_L in IH.
    assert (size (dom m ∖ {[x]}) + 1 = size (dom m))%nat as Hsz.
    { assert (size (dom m) ≠ 0)%nat by (intros Hz%size_empty_inv; set_solver).
      rewrite size_difference, size_singleton by set_solver. lia. }
    assert (∀ h, h ∈ hs → delete x m !! h = None ∨ delete x m !! h = Some addr) as Hd.
    { intros h Hh. destruct (decide (x = h)) as [->|]; [left; by rewrite lookup_delete_eq|].
      rewrite lookup_delete_ne by done. auto. }
    specialize (IH Hd). lia.
Qed.

(** C40: RemoveNode does not undo a repeated AddNode: after adding a node twice and
    removing it once, at least 150 of its points are still in the ring, none of them has
    a map entry, and every group resolves to the empty address. *)
Theorem remove_after_double_add addr group :
  addr ≠ EmptyString →
  let r := ring_run [RAdd addr; RAdd addr; RRemove addr] in
  (150 ≤ length (ring r))%nat ∧ nodeMap r = ∅ ∧ Resolve group r = Ret EmptyString.
Proof.
  intros Haddr r. set (r2 := AddNode addr (AddNode addr New)).
  assert (∀ h, nodeMap r2 !! h = if decide (h ∈ vnodes addr) then Some addr else None) as Hm2.
  { intros h. unfold r2. rewrite !AddNode_nodeMap. by case_decide. }
  assert (∀ h, h ∈ ring r2 ↔ h ∈ vnodes addr) as Hr2.
  { intros h. unfold r2. rewrite !AddNode_elem. simpl. rewrite elem_of_nil. tauto. }
  assert (length (ring r2) = 2 * length (vnodes addr))%nat as Hlen.
  { unfold r2. rewrite AddNode_ring, length_app, AddNode_ring, length_app. simpl. lia. }
  assert (nodeMap r = ∅) as Hempty.
  { apply map_empty. intros h. change r with (RemoveNode addr r2). rewrite RemoveNode_nodeMap.
    case_decide as Hd; [done|]. rewrite Hm2. case_decide as Hv; [|done]. destruct Hd.
    split; [by apply Hr2|]. unfold node_at. by rewrite Hm2, decide_True. }
  split_and!; [|done|].
  - change r with (RemoveNode addr r2). unfold RemoveNode. cbn [ring].
    pose proof (RemoveNode_loop_length addr (ring r2) [] (nodeMap r2) Haddr) as HL.
    assert (dom (nodeMap r2) ⊆ list_to_set (vnodes addr)) as Hdom.
    { intros h [a Ha]%elem_of_dom. rewrite Hm2 in Ha. case_decide; [|done].
      by apply elem_of_list_to_set. }
    apply subseteq_size in Hdom. pose proof (size_list_to_set_le (vnodes addr)) as Hsz.
    assert (length (vnodes addr) = 150)%nat by (unfold vnodes; by rewrite length_fmap, length_seq).
    change (length []) with 0%nat in HL. rewrite Hlen in HL. clearbody r2.
    enough (2 * length (vnodes addr) ≤
      length (RemoveNode_loop addr (ring r2) [] (nodeMap r2)).1 + size (dom (nodeMap r2)))%nat by lia.
    apply HL. intros h Hh. right. by rewrite Hm2, decide_True by (by apply Hr2).
  - destruct (decide (ring r = [])) as [E|Hne]; [by apply Resolve_empty|].
    destruct (Resolve_successor r group (ring_run_sorted _) Hne) as (p & _ & ->).
    unfold node_at. by rewrite Hempty, lookup_empty.
Qed.

End Props.

(** ** The theorems on concrete rings *)

Module ConcreteRing.

(** A hash that keeps the low four bits of each byte; the virtual nodes of short
    addresses do not collide under it. *)
Definition nibbles (b : list byte) : Z :=
  foldl (λ h c, (h * 16 + byte_to_Z c mod 16) mod 2 ^ 32) 0 b.

Lemma nibbles_u32 (b : list byte) : u32 (nibbles b).
Proof.
  unfold nibbles. destruct b as [|c b _] using rev_ind; [done|].
  rewrite foldl_snoc. by apply Z.mod_pos_bound.
Qed.

#[export] Instance nibble_hash : Murmur3 := {
  Sum64 := StandIn.hash (2 ^ 64) 1099511628211;
  Sum32 := nibbles;
  Sum64_u64 b := StandIn.hash_range (2 ^ 64) _ b eq_refl;
  Sum32_u32 := nibbles_u32;
}.

Lemma two_nodes_collision_free : collision_free ["a"; "b"].
Proof. unfold collision_free. apply (bool_decide_unpack _). vm_compute. exact I. Qed.

(** A node comes, another comes, the first goes. *)
Lemma ring_refines_members_witness :
  Resolve "g" (ring_run [RAdd "a"; RAdd "b"; RRemove "a"]) = Ret "b" ∧
  ∃ a, a ∈ ["a"; "a"; "b"]%string ∧ Resolve "g" (ring_run [RAdd "a"; RAdd "a"; RAdd "b"]) = Ret a.
Proof.
  assert (members [RAdd "a"; RAdd "b"; RRemove "a"] = {["b"]}) as E by reflexivity.
  destruct ring_refines_members as [HA HR]. split.
  - destruct (HR ["a"; "b"] [RAdd "a"; RAdd "b"; RRemove "a"]) as [_ HR'].
    + apply two_nodes_collision_free.
    + simpl. set_solver.
    + destruct (HR' "g"%string) as (a & h & Ha & _ & _ & HR'').
      * rewrite E. apply non_empty_singleton_L.
      * rewrite E in Ha. apply elem_of_singleton in Ha. subst a. exact HR''.
  - destruct (HA ["a"; "a"; "b"]%string) as (_ & _ & HG).
    destruct (HG "g"%string) as (a & h & Ha & _ & Ea); [discriminate|].
    exists a. split; [by apply (last_owner_in _ h)|exact Ea].
Defined.

Lemma ring_agreement_witness :
  ring_run [RAdd "a"; RAdd "b"] = ring_run [RAdd "b"; RAdd "a"; RRemove "b"; RAdd "b"] ∧
  Resolve "g" (ring_run [RAdd "a"; RAdd "b"]) = Resolve "g" (ring_run [RAdd "b"; RAdd "a"]).
Proof.
  destruct ring_agreement as [HA HR]. split.
  - apply (HR ["a"; "b"] [RAdd "a"; RAdd "b"] [RAdd "b"; RAdd "a"; RRemove "b"; RAdd "b"]).
    + apply two_nodes_collision_free.
    + simpl. set_solver.
    + simpl. set_solver.
    + reflexivity.
  - destruct (HA ["a"; "b"] ["b"; "a"])%string as [_ HG]; [apply Permutation_swap|discriminate|].
    destruct (HG "g"%string) as (a & b & h & Ea & Eb & _ & _ & _ & _ & _ & Hab).
    rewrite <- (Hab two_nodes_collision_free) in Eb. exact (eq_trans Ea (eq_sym Eb)).
Defined.

Lemma resolve_total_witness :
  ∃ a, Resolve "g" (ring_run [RAdd "a"; RAdd "a"; RRemove "b"]) = Ret a.
Proof.
  destruct (resolve_total [RAdd "a"; RAdd "a"; RRemove "b"] "g") as [[_ E]|(p & _ & E)];
    eexists; exact E.
Defined.

Lemma ring_moves_little_witness :
  Resolve "g" (RemoveNode "b" (ring_run [RAdd "a"; RAdd "b"])) = Ret "a".
Proof. apply (ring_moves_little [RAdd "a"; RAdd "b"] "b" "g"); [vm_compute; reflexivity|discriminate]. Defined.

Lemma remove_after_double_add_witness :
  Resolve "g" (ring_run [RAdd "a"; RAdd "a"; RRemove "a"]) = Ret EmptyString.
Proof. apply (remove_after_double_add "a"). done. Defined.

End ConcreteRing.
