(* ===== verification/RouterLock.v ===== *)
(** * Concurrent calls of the ring (internal/router/router.go)

    The ring's methods as the accesses they make with the ring's lock held: [AddNode] and
    [RemoveNode] for writing, [Resolve] for reading. Between two accesses of [AddNode] the
    slice is not sorted, and between two of [RemoveNode] it has points the map no longer
    knows; the theorem says that no [Resolve] sees either. *)

From S2P Require Import Prelude Code RWMutex External Router RouterProps.
Local Open Scope Z_scope.

Inductive ring_call := RNode (o : ring_op) | RResolve (group : string).

Section Bodies.
Context `{!Murmur3}.

(** The loop of [AddNode]: appending the point, and the write to the map. *)
Fixpoint code_AddNode_loop (addr : string) (ids : list nat) : code Ring unit :=
  match ids with
  | [] => Done tt
  | i :: ids' =>
      let h := vnode addr i in
      do! _ := access (λ r, Ret (tt, mkRing (ring r ++ [h]) (nodeMap r))) in
      do! _ := access (λ r, Ret (tt, mkRing (ring r) (<[h := addr]> (nodeMap r)))) in
      code_AddNode_loop addr ids'
  end.

Definition code_AddNode (addr : string) : code Ring (option string) :=
  do! _ := code_AddNode_loop addr (seq 0 vnodesPerNode) in
  do! _ := access (λ r, Ret (tt, mkRing (merge_sort Z.le (ring r)) (nodeMap r))) in
  Done None.

(** The loop of [RemoveNode] over the points [r.ring] had when the loop began. *)
Fixpoint code_RemoveNode_loop (addr : string) (hs keep : list Z) : code Ring (list Z) :=
  match hs with
  | [] => Done keep
  | h :: hs' =>
      do! a := reading (λ r, node_at (nodeMap r) h) in
      if decide (a ≠ addr) then code_RemoveNode_loop addr hs' (keep ++ [h])
      else
        do! _ := access (λ r, Ret (tt, mkRing (ring r) (delete h (nodeMap r)))) in
        code_RemoveNode_loop addr hs' keep
  end.

Definition code_RemoveNode (addr : string) : code Ring (option string) :=
  do! hs := reading ring in
  do! keep := code_RemoveNode_loop addr hs [] in
  do! _ := access (λ r, Ret (tt, mkRing keep (nodeMap r))) in
  Done None.

(** [sort.Search] with one read of the slice for every comparison. *)
Fixpoint code_Search_loop (fuel : nat) (h : Z) (i j : nat) : code Ring nat :=
  if decide (i < j)%nat then
    match fuel with
    | O => Crash "sort.Search: out of fuel"
    | S fuel' =>
        let mid := Nat.div2 (i + j) in
        do! x := access (λ r, lift (index_slice (ring r) mid) r) in
        if bool_decide (h ≤ x) then code_Search_loop fuel' h i mid
        else code_Search_loop fuel' h (S mid) j
    end
  else Done i.

Definition code_Resolve (group : string) : code Ring (option string) :=
  do! n := reading (λ r, length (ring r)) in
  if decide (n = 0%nat) then Done (Some EmptyString)
  else
    do! idx := code_Search_loop n (Sum32 (list_byte_of_string group)) 0 n in
    let idx := if decide (idx = n) then 0%nat else idx in
    do! p := access (λ r, lift (index_slice (ring r) idx) r) in
    do! a := reading (λ r, node_at (nodeMap r) p) in
    Done (Some a).

Definition ring_plan (c : ring_call) : plan Ring (option string) :=
  match c with
  | RNode (RAdd addr) => Locked Wr (code_AddNode addr)
  | RNode (RRemove addr) => Locked Wr (code_RemoveNode addr)
  | RResolve group => Locked Rd (code_Resolve group)
  end.

(** ** The specification: the methods of [Router], each in one step *)

Definition ring_spec (c : ring_call) (r : Ring) : option string * Ring :=
  match c with
  | RNode (RAdd addr) => (None, AddNode addr r)
  | RNode (RRemove addr) => (None, RemoveNode addr r)
  | RResolve group => (match Resolve group r with Ret a => Some a | Panic _ => None end, r)
  end.

#[local] Opaque vnodesPerNode.

Lemma run_AddNode_loop addr ids r : run_body (code_AddNode_loop addr ids) r = Ret (tt, AddNode_loop addr ids r).
Proof. revert r. induction ids as [|i ids IH]; intros r; [done|]. apply IH. Qed.

Lemma run_AddNode addr r : run_body (code_AddNode addr) r = Ret (None, AddNode addr r).
Proof. unfold code_AddNode. rewrite run_and_then. unfold bind. by rewrite run_AddNode_loop. Qed.

Lemma run_RemoveNode_loop addr hs keep r :
  run_body (code_RemoveNode_loop addr hs keep) r =
    Ret ((RemoveNode_loop addr hs keep (nodeMap r)).1,
         mkRing (ring r) (RemoveNode_loop addr hs keep (nodeMap r)).2).
Proof.
  revert keep r. induction hs as [|h hs IH]; intros keep r; [by destruct r|].
  cbn [code_RemoveNode_loop RemoveNode_loop]. rewrite run_and_then. unfold bind. rewrite run_reading.
  case_decide; [apply IH|]. rewrite run_and_then. unfold bind. rewrite run_access. apply IH.
Qed.

Lemma run_RemoveNode addr r : run_body (code_RemoveNode addr) r = Ret (None, RemoveNode addr r).
Proof.
  unfold code_RemoveNode. rewrite run_and_then. unfold bind. rewrite run_reading, run_and_then.
  unfold bind. by rewrite run_RemoveNode_loop.
Qed.

Lemma run_Search_loop fuel h i j r :
  run_body (code_Search_loop fuel h i j) r =
    lift (sort_Search_loop fuel (λ i,
      match index_slice (ring r) i with Ret x => Ret (bool_decide (h ≤ x)) | Panic msg => Panic msg end) i j) r.
Proof.
  revert i j. induction fuel as [|fuel IH]; intros i j; cbn [code_Search_loop sort_Search_loop].
  { by case_decide. }
  case_decide; [|done]. rewrite run_and_then. unfold bind. rewrite run_access. unfold lift at 1.
  destruct (index_slice (ring r) _) as [x|]; [|done]. case_bool_decide; apply IH.
Qed.

Lemma run_Resolve group r :
  run_body (code_Resolve group) r = (let* a := lift (Resolve group r) in ret (Some a)) r.
Proof.
  unfold code_Resolve, Resolve. rewrite run_and_then. unfold bind. rewrite run_reading.
  case_decide; [done|]. rewrite run_and_then. unfold bind. rewrite run_Search_loop. unfold sort_Search, lift.
  destruct (sort_Search_loop _ _ _ _) as [idx|]; [|done].
  rewrite run_and_then. unfold bind. rewrite run_access. unfold lift.
  by destruct (index_slice (ring r) _) as [p|].
Qed.

Lemma read_only_index i : read_only (access (λ r, lift (index_slice (ring r) i) r)).
Proof. apply read_only_access. intros r a r'. unfold lift. case_match; naive_solver. Qed.

Lemma read_only_Search fuel h i j : read_only (code_Search_loop fuel h i j).
Proof.
  revert i j. induction fuel as [|fuel IH]; intros i j; cbn [code_Search_loop]; case_decide; try done.
  apply read_only_and_then; [apply read_only_index|]. intros x. case_bool_decide; apply IH.
Qed.

Lemma ring_plan_reads c : plan_reads (ring_plan c).
Proof.
  destruct c as [[addr|addr]|group]; [done|done|]. cbn [ring_plan plan_reads].
  apply read_only_and_then; [done|].
  intros n. case_decide; [done|]. apply read_only_and_then; [apply read_only_Search|]. intros idx.
  apply read_only_and_then; [apply read_only_index|done].
Qed.

Lemma Resolve_total group r : ring_sorted r → ∃ a, Resolve group r = Ret a.
Proof.
  intros Hs. destruct (decide (ring r = [])) as [E|E]; [rewrite Resolve_empty by done; eauto|].
  destruct (Resolve_successor r group Hs E) as (p & _ & ->). eauto.
Qed.

Lemma ring_plan_correct c r :
  ring_sorted r → True →
  ∃ x r', plan_run (ring_plan c) r = Ret (x, r') ∧ ring_spec c r = (x, r') ∧ ring_sorted r'.
Proof.
  intros Hs _. destruct c as [[addr|addr]|group]; cbn [ring_plan plan_run ring_spec].
  - eexists _, _. rewrite run_AddNode. auto using AddNode_sorted.
  - eexists _, _. rewrite run_RemoveNode. auto using RemoveNode_sorted.
  - destruct (Resolve_total group r Hs) as [a E]. exists (Some a), r. by rewrite run_Resolve, E.
Qed.

#[export] Instance ring_LockedObject : LockedObject Ring Ring ring_call (option string) := {|
  lo_plan := ring_plan;
  lo_abs r := r;
  lo_spec := ring_spec;
  lo_inv := ring_sorted;
  lo_ok _ := True;
  lo_reads := ring_plan_reads;
  lo_correct := ring_plan_correct;
|}.

(** ** Claims *)

(** A result of a sequential execution comes from the ring its predecessors left. *)
Lemma ring_sequential (cs : list ring_call) os0 rs r' i group x :
  sequential cs (ring_run os0) = (rs, r') → cs !! i = Some (RResolve group) → rs !! i = Some x →
  ∃ os a, x = Some a ∧ Resolve group (ring_run (os0 ++ os)) = Ret a ∧ ∀ o, o ∈ os → RNode o ∈ cs.
Proof.
  revert os0 rs i. induction cs as [|c cs IH]; intros os0 rs i; cbn [sequential]; [done|].
  destruct (lo_spec c (ring_run os0)) as [x1 r1] eqn:E1.
  destruct (sequential cs r1) as [rs1 r2] eqn:E2. intros [= <- ->].
  destruct i as [|i]; cbn; [intros [= ->] [= <-]|intros Hi Hx].
  - cbn in E1. injection E1 as <- _. destruct (Resolve_total group _ (ring_run_sorted os0)) as [a Ha].
    exists [], a. rewrite app_nil_r, Ha. split; [done|]. split; [done|]. by intros o ?%not_elem_of_nil.
  - assert (∃ os1, r1 = ring_run (os0 ++ os1) ∧ ∀ o, o ∈ os1 → RNode o = c) as (os1 & -> & Hos1).
    { unfold ring_run. destruct c as [o|g]; cbn in E1.
      - exists [o]. rewrite foldl_snoc. split; [by destruct o; injection E1 as _ <-|].
        by intros o' ->%list_elem_of_singleton.
      - exists []. rewrite app_nil_r. injection E1 as _ <-. split; [done|]. by intros o ?%not_elem_of_nil. }
    destruct (IH _ _ _ E2 Hi Hx) as (os & a & -> & Ha & Hos). exists (os1 ++ os), a.
    rewrite (assoc_L (++)). split; [done|]. split; [done|]. intros o [?%Hos1|?%Hos]%elem_of_app; set_solver.
Qed.

(** C30: The ring is safe for concurrent use. However AddNode, RemoveNode and Resolve calls
    interleave, access by access, under the ring's lock, there is a sequential execution
    that explains the results and extends the order in real time, and every Resolve that
    has returned gave the answer of a ring made by whole AddNode and RemoveNode calls of
    the execution, never one in the middle of a change. No call panics or waits for ever
    while nothing else can move. *)
Theorem ring_linearizable (tr : list (label ring_call (option string)))
    (s : mstate Ring ring_call (option string)) :
  exec (m_initial New) tr s →
  (∃ log, linearizes New tr s log) ∧
  (∀ t group x, threads s !! t = Some (RResolve group, Returned x) →
     ∃ os a, x = Some a ∧ Resolve group (ring_run os) = Ret a ∧
       ∀ o, o ∈ os → ∃ t', LCall t' (RNode o) ∈ tr) ∧
  (unreturned s → ∃ l s', mstep s l s').
Proof.
  intros He. assert (ring_sorted New) as Hs by constructor.
  destruct (locked_linearizable New tr s) as [log Hlin]; [done..|]. split; [by exists log|]. split.
  - intros t group x Ht%(lin_returns _ _ _ _ Hlin).
    destruct (lin_legal _ _ _ _ Hlin) as (r & Hseq & _).
    apply list_elem_of_lookup_1 in Ht as [i Hi].
    destruct (ring_sequential (hist_calls log) [] _ _ i group x Hseq) as (os & a & -> & Ha & Hos).
    + unfold hist_calls. by rewrite list_lookup_fmap, Hi.
    + unfold hist_results. by rewrite list_lookup_fmap, Hi.
    + exists os, a. split; [done|]. split; [done|]. intros o Ho%Hos.
      apply list_elem_of_fmap in Ho as ([t' [c x']] & E & Hin). cbn in E. subst c.
      exists t'. by apply (lin_calls _ _ _ _ Hlin) in Hin as [? _].
  - by apply (no_deadlock New tr s).
Qed.
End Bodies.

(** ** Witnesses *)

Section Witnesses.
Import StandIn.
#[local] Existing Instance StandIn.murmur3.

(** Two nodes are added and a group is resolved; the Resolve, called first, waits until
    the first node is in. *)
Definition ring_turns_ex : list (turn ring_call) :=
  [TCall 0 (RResolve "g"); TCall 1 (RNode (RAdd "a")); TCall 2 (RNode (RAdd "b"))] ++
  replicate 303 (TGo 1) ++ replicate 13 (TGo 0) ++ [TGo 2].

Definition ring_ex : list (label ring_call (option string)) * mstate Ring ring_call (option string) :=
  scheduled (m_initial New) ring_turns_ex.

Lemma ring_ex_exec : exec (m_initial New) ring_ex.1 ring_ex.2.
Proof. unfold ring_ex. apply scheduled_exec. apply Forall_forall. by intros [] _. Qed.

Lemma ring_linearizable_witness :
  returned_call ring_ex.2 0 = Some (RResolve "g", Some "a") ∧
  ∃ log, linearizes New ring_ex.1 ring_ex.2 log.
Proof.
  split; [vm_compute; reflexivity|].
  apply (ring_linearizable ring_ex.1 ring_ex.2). exact ring_ex_exec.
Defined.
End Witnesses.
