(* ===== verification/Store.v ===== *)
(** * The store (internal/store/badger.go, internal/store/metrics.go)

    [BadgerStore] over an abstract Badger database, with the two counters its write
    path feeds. [store_view] is the store as its callers see it, a map from groups to
    bytes; the theorems say that [Save] is an insertion in that map or nothing,
    [Load] a lookup, and [LoadAll] a traversal of all its entries. *)

From S2P Require Import Prelude External.
Local Open Scope Z_scope.

Section Store.
Context `{!Badger}.

(** [saveObserved] counts the observations of metricSaveDurationSeconds and
    [saveErrors] is metricSaveErrorsTotal. *)
Record BadgerStore := mkStore {
  db : DB;
  saveObserved : Z;
  saveErrors : Z;
}.

Definition Open (dir : string) (observed errors : Z) : result BadgerStore :=
  match db_Open dir with
  | Err err => Err (EStoreOpen err)
  | Ok d => Ok {| db := d; saveObserved := observed; saveErrors := errors |}
  end.

Definition Close : prog BadgerStore (option error) := λ s,
  let r := db_Close (db s) in
  Ret (r.1, {| db := r.2; saveObserved := saveObserved s; saveErrors := saveErrors s |}).

Definition keyPrefix : string := "sketch/".

Definition key (group : string) : list byte := list_byte_of_string (keyPrefix +:+ group).

Definition Save (group : string) (b : list byte) : prog BadgerStore (option error) := λ s,
  let r := db_Update (txn_Set (key group) b) (db s) in
  Ret (r.1, {| db := r.2;
               saveObserved := saveObserved s + 1;
               saveErrors := match r.1 with
                             | Some _ => saveErrors s + 1
                             | None => saveErrors s
                             end |}).

(** The bytes are nil ([]) next to an error. *)
Definition Load (group : string) : prog BadgerStore (list byte * option error) := λ s,
  match txn_Get (key group) (db_View (db s)) with
  | Err err =>
      if decide (err = ErrKeyNotFound) then Ret (([], Some ErrNotFound), s)
      else Ret (([], Some err), s)
  | Ok item =>
      match item_Value item with
      | Err err => Ret (([], Some err), s)
      | Ok val => Ret ((val, None), s)
      end
  end.

(** Go's [bytes.TrimPrefix]. *)
Definition TrimPrefix (s prefix : list byte) : list byte :=
  if has_prefix prefix s then drop (length prefix) s else s.

Fixpoint LoadAll_loop {W} (items : list Item)
    (fn : string → list byte → prog W (option error)) : prog W (option error) :=
  match items with
  | [] => ret None
  | item :: items' =>
      let group := string_of_list_byte
                     (TrimPrefix (item_Key item) (list_byte_of_string keyPrefix)) in
      match item_Value item with
      | Err err => ret (Some err)
      | Ok val =>
          let* err := fn group val in
          match err with
          | Some err => ret (Some err)
          | None => LoadAll_loop items' fn
          end
      end
  end.

(** [fn] runs on its own state [W]. *)
Definition LoadAll {W} (fn : string → list byte → prog W (option error))
    : prog (BadgerStore * W) (option error) := λ st,
  on_snd (LoadAll_loop
    (txn_Items (list_byte_of_string keyPrefix) (db_View (db st.1))) fn) st.

(** ** The store as a map *)

Definition strip (k : list byte) : option string :=
  if has_prefix (list_byte_of_string keyPrefix) k
  then Some (string_of_list_byte (drop (length (list_byte_of_string keyPrefix)) k))
  else None.

Definition store_view (s : BadgerStore) : gmap string (list byte) :=
  list_to_map (omap (λ kv, g ← strip kv.1; Some (g, kv.2)) (map_to_list (db_map (db s)))).

#[global] Arguments key : simpl never.
#[global] Arguments strip : simpl never.

(** Calling [fn] on entries until an error. *)
Fixpoint for_each {W} (fn : string → list byte → prog W (option error))
    (es : list (string * list byte)) : prog W (option error) :=
  match es with
  | [] => ret None
  | (g, b) :: es' =>
      let* err := fn g b in
      match err with Some err => ret (Some err) | None => for_each fn es' end
  end.

Lemma list_byte_of_string_app (s t : string) :
  list_byte_of_string (s +:+ t) = list_byte_of_string s ++ list_byte_of_string t.
Proof.
  unfold list_byte_of_string.
  induction s as [|c s IH]; simpl; [done|]. by rewrite IH.
Qed.

Lemma key_app group : key group = list_byte_of_string keyPrefix ++ list_byte_of_string group.
Proof. apply list_byte_of_string_app. Qed.

Lemma strip_key g k : strip k = Some g ↔ k = key g.
Proof.
  unfold strip, has_prefix. rewrite key_app. case_bool_decide as E; split.
  - intros [= <-]. rewrite list_byte_of_string_of_list_byte.
    rewrite <- (take_drop (length (list_byte_of_string keyPrefix)) k) at 1. by rewrite E.
  - intros ->. by rewrite drop_app_length, string_of_list_byte_of_string.
  - done.
  - intros ->. destruct E. apply take_app_length.
Qed.

Lemma strip_of_key g : strip (key g) = Some g.
Proof. by apply strip_key. Qed.

#[export] Instance key_inj : Inj (=) (=) key.
Proof.
  intros g h E. apply (inj Some). rewrite <- strip_of_key. by apply strip_key.
Qed.

Lemma store_view_lookup s g : store_view s !! g = db_map (db s) !! key g.
Proof.
  unfold store_view. set (L := omap _ _).
  assert (∀ h b, (h, b) ∈ L ↔ db_map (db s) !! key h = Some b) as HL.
  { intros h b. unfold L. rewrite list_elem_of_omap. split.
    - intros ([k v] & Hkv & E). simpl in E. destruct (strip k) as [h'|] eqn:Ek; simplify_eq/=.
      apply strip_key in Ek as ->. by apply elem_of_map_to_list.
    - intros E. exists (key h, b). split; [by apply elem_of_map_to_list|].
      cbn [fst snd]. by rewrite strip_of_key. }
  apply option_eq. intros b. rewrite <- HL. split; [apply elem_of_list_to_map_2|].
  intros E. apply elem_of_list_to_map_1'; [|done]. intros b' E'.
  apply HL in E, E'. congruence.
Qed.

(** ** Reading and writing one group *)

Lemma Save_spec group b s :
  ∃ err s', Save group b s = Ret (err, s') ∧
    store_view s' = (match err with
                     | None => <[group := b]> (store_view s)
                     | Some _ => store_view s
                     end) ∧
    saveObserved s' = saveObserved s + 1 ∧
    saveErrors s' = saveErrors s + (match err with Some _ => 1 | None => 0 end).
Proof.
  unfold Save. destruct (db_Update (txn_Set (key group) b) (db s)) as [err d] eqn:E. simpl.
  eexists _, _. split; [done|]. apply db_Update_Set in E. split_and!.
  - apply map_eq. intros g. rewrite store_view_lookup. simpl. rewrite E.
    destruct err; [by rewrite store_view_lookup|].
    destruct (decide (g = group)) as [->|Hne]; [by rewrite !lookup_insert_eq|].
    rewrite !lookup_insert_ne, store_view_lookup by (congruence || by intros ?%(inj key)). done.
  - done.
  - destruct err; simpl; lia.
Qed.

Lemma Load_spec group s :
  ∃ r, Load group s = Ret (r, s) ∧
    match store_view s !! group with
    | None => r = ([], Some ErrNotFound)
    | Some b => r = (b, None) ∨ ∃ e, r = ([], Some e)
    end.
Proof.
  unfold Load. rewrite store_view_lookup, <- db_View_map.
  pose proof (txn_Get_spec (key group) (db_View (db s))) as HG.
  destruct (txn_map (db_View (db s)) !! key group) as [v|].
  - destruct (txn_Get _ _) as [it|e].
    + destruct (item_Value it) as [v'|e]; [|eauto].
      destruct HG as [[= <-]|[? ?]]; [eauto|done].
    + rewrite decide_False by done. eauto.
  - rewrite HG, decide_True by done. eauto.
Qed.

(** ** Traversing the store *)

Lemma LoadAll_loop_spec (d : DB) (items : list Item) :
  (∀ it, it ∈ items →
    ((∃ e, item_Value it = Err e) ∨
     ∃ v, item_Value it = Ok v ∧ txn_map (db_View d) !! item_Key it = Some v) ∧
    ∃ g, item_Key it = key g) →
  ∃ es err,
    ((∀ it, it ∈ items → ∃ v, item_Value it = Ok v) → err = None) ∧
    (err = None → item_Key <$> items = key <$> es.*1) ∧
    (key <$> es.*1) `prefix_of` (item_Key <$> items) ∧
    Forall (λ gb, db_map d !! key gb.1 = Some gb.2) es ∧
    ∀ W (fn : string → list byte → prog W (option error)) w,
      LoadAll_loop items fn w =
      (let* e := for_each fn es in ret (match e with Some e => Some e | None => err end)) w.
Proof.
  induction items as [|it items IH]; intros Hit.
  - exists [], None. split_and!; [done|done|done|done|]. by intros W fn w.
  - destruct (Hit it) as [HV (g & Hg)]; [by left|].
    pose proof (strip_of_key g) as Hstrip.
    assert (string_of_list_byte (TrimPrefix (key g) (list_byte_of_string keyPrefix)) = g) as Htrim.
    { unfold TrimPrefix. unfold strip in Hstrip. by destruct (has_prefix _ _); simplify_eq. }
    destruct HV as [[e He]|(v & Hv & Hm)].
    + exists [], (Some e). split_and!; [|done|apply prefix_nil|done|].
      { intros HV. destruct (HV it) as [v Hv]; [by left|congruence]. }
      intros W fn w. simpl. by rewrite He.
    + destruct IH as (es & err & Hr & Hk & Hpre & Hes & HL); [intros it' Hit'; apply Hit; by right|].
      exists ((g, v) :: es), err. simpl. rewrite Hg. split_and!.
      * intros HV. apply Hr. intros it' Hit'. apply HV. by right.
      * intros E. f_equal. by apply Hk.
      * by apply prefix_cons.
      * constructor; [|done]. simpl. by rewrite <- Hg, <- db_View_map.
      * intros W fn w. rewrite Hv, Htrim. unfold bind. destruct (fn g v w) as [[[e|] w']|msg]; [done| |done].
        rewrite HL. done.
Qed.

Lemma bytes_leb_app p a b : bytes_leb (p ++ a) (p ++ b) = bytes_leb a b.
Proof.
  induction p as [|x p IH]; simpl; [done|]. by rewrite Z.ltb_irrefl, Z.eqb_refl.
Qed.

Lemma key_order (gs : list string) :
  StronglySorted bytes_le (key <$> gs) → StronglySorted bytes_le (list_byte_of_string <$> gs).
Proof.
  induction gs as [|g gs IH]; intros Hs; [constructor|].
  rewrite fmap_cons in Hs. apply StronglySorted_inv in Hs as [Hs Hx].
  rewrite fmap_cons. constructor; [by apply IH|]. rewrite Forall_fmap in Hx |- *. eapply Forall_impl; [exact Hx|]. intros h. unfold compose, bytes_le.
  by rewrite !key_app, bytes_leb_app.
Qed.

Lemma StronglySorted_prefix {A} (R : relation A) (l k : list A) :
  l `prefix_of` k → StronglySorted R k → StronglySorted R l.
Proof.
  intros [m ->]. induction l as [|x l IH]; intros Hs; [constructor|].
  apply StronglySorted_inv in Hs as [Hs Hx]. apply Forall_app in Hx as [Hx _].
  constructor; auto.
Qed.

(** Every value the traversal reads can be read. *)
Definition readable (s : BadgerStore) : Prop :=
  ∀ it, it ∈ txn_Items (list_byte_of_string keyPrefix) (db_View (db s)) →
  ∃ v, item_Value it = Ok v.

Lemma LoadAll_spec s :
  ∃ es err,
    StronglySorted bytes_le (list_byte_of_string <$> es.*1) ∧
    NoDup es.*1 ∧
    (∀ g b, (g, b) ∈ es → store_view s !! g = Some b) ∧
    (readable s → err = None) ∧
    (err = None → es ≡ₚ map_to_list (store_view s)) ∧
    ∀ W (fn : string → list byte → prog W (option error)) w,
      LoadAll fn (s, w) =
      on_snd (let* e := for_each fn es in
              ret (match e with Some e => Some e | None => err end)) (s, w).
Proof.
  set (pre := list_byte_of_string keyPrefix). set (t := db_View (db s)).
  pose proof (txn_Items_keys pre t) as Hkeys.
  pose proof (txn_Items_order pre t) as Hord.
  assert (∀ k, k ∈ item_Key <$> txn_Items pre t ↔ has_prefix pre k = true ∧ is_Some (db_map (db s) !! k))
    as Hel.
  { intros k. rewrite Hkeys, list_elem_of_filter, list_elem_of_fmap, <- db_View_map.
    split; intros [Hp Hk]; (split; [done|]).
    - destruct Hk as ([k' v] & -> & Hk%elem_of_map_to_list). by exists v.
    - destruct Hk as [v Hv]. exists (k, v). split; [done|]. by apply elem_of_map_to_list. }
  destruct (LoadAll_loop_spec (db s) (txn_Items pre t)) as (es & err & Hr & Hk & Hpre & Hes & HL).
  { intros it Hit. split; [by eapply txn_Items_value|].
    assert (item_Key it ∈ item_Key <$> txn_Items pre t) as [Hp _]%Hel by (by apply list_elem_of_fmap_2).
    eexists. apply strip_key. unfold strip. fold pre. by rewrite Hp. }
  assert (NoDup (item_Key <$> txn_Items pre t)) as Hnd.
  { rewrite Hkeys. apply NoDup_filter, NoDup_fst_map_to_list. }
  assert (NoDup es.*1) as Hnd'.
  { apply (NoDup_fmap_1 key). destruct Hpre as [m E]. rewrite E in Hnd.
    by apply NoDup_app in Hnd as [? _]. }
  rewrite Forall_forall in Hes.
  assert (∀ g b, (g, b) ∈ es → store_view s !! g = Some b) as Hview.
  { intros g b Hgb. rewrite store_view_lookup. by apply (Hes (g, b)). }
  exists es, err. split_and!; [|done|done|done| |].
  - apply key_order. by eapply StronglySorted_prefix.
  - intros E. apply NoDup_Permutation; [by eapply NoDup_fmap_1|apply NoDup_map_to_list|].
    intros [g b]. rewrite elem_of_map_to_list. split; [apply Hview|]. intros Hgb.
    assert (key g ∈ key <$> es.*1) as Hg.
    { rewrite <- (Hk E). apply Hel. rewrite store_view_lookup in Hgb. split; [|by eexists].
      pose proof (strip_of_key g) as Hs. unfold strip in Hs. fold pre in Hs. by destruct (has_prefix pre _). }
    apply list_elem_of_fmap in Hg as (g' & <-%(inj key) & Hg).
    apply list_elem_of_fmap in Hg as ([g'' b'] & -> & Hg). simpl in *.
    pose proof (Hview _ _ Hg). congruence.
  - intros W fn w. unfold LoadAll, on_snd. simpl. by rewrite HL.
Qed.

(** ** Claims *)

(** Save never panics. When it returns nil, loading the group gives the saved bytes
    (or a read error of the database) and no other group's bytes change; when it returns
    an error no group changes and the error counter goes up by one; every call is
    observed once. A group that was never saved loads as ErrNotFound. *)
Lemma store_save_load group b s :
  ∃ err s', Save group b s = Ret (err, s') ∧
    store_view s' = (match err with
                     | None => <[group := b]> (store_view s)
                     | Some _ => store_view s
                     end) ∧
    saveObserved s' = saveObserved s + 1 ∧
    saveErrors s' = saveErrors s + (match err with Some _ => 1 | None => 0 end) ∧
    (err = None → ∃ r, Load group s' = Ret (r, s') ∧ (r = (b, None) ∨ ∃ e, r = ([], Some e))) ∧
    ∀ g, store_view s' !! g = None → Load g s' = Ret (([], Some ErrNotFound), s').
Proof.
  destruct (Save_spec group b s) as (err & s' & E & Hv & Ho & He).
  exists err, s'. split_and!; [done..| |].
  - intros ->. destruct (Load_spec group s') as (r & HL & Hr). exists r. split; [done|].
    by rewrite Hv, lookup_insert_eq in Hr.
  - intros g Hg. destruct (Load_spec g s') as (r & HL & Hr). rewrite Hg in Hr. by rewrite HL, Hr.
Qed.

(** C25: LoadAll calls its callback on distinct saved groups in byte order of their names,
    each with its saved bytes and without the key prefix, stops at the first error of the
    callback or of reading a value and returns it, and when every value can be read and
    the callback accepts them it has gone through all saved groups. *)
Theorem store_load_all s :
  ∃ es err,
    StronglySorted bytes_le (list_byte_of_string <$> es.*1) ∧
    NoDup es.*1 ∧
    (∀ g b, (g, b) ∈ es → store_view s !! g = Some b) ∧
    (readable s → err = None) ∧
    (err = None → es ≡ₚ map_to_list (store_view s)) ∧
    ∀ W (fn : string → list byte → prog W (option error)) w,
      LoadAll fn (s, w) =
      on_snd (let* e := for_each fn es in
              ret (match e with Some e => Some e | None => err end)) (s, w).
Proof. apply LoadAll_spec. Qed.

End Store.

(** ** Witnesses *)

Section Witnesses.
Import StandIn.

Definition empty_store : BadgerStore := mkStore (∅ : @DB StandIn.badger) 0 0.
Definition saved (g : string) (b : list byte) (s : BadgerStore) : BadgerStore :=
  match Save g b s with Ret (_, s') => s' | Panic _ => s end.
Definition two_saved : BadgerStore := saved "a" [x01; x02] (saved "b" [x03] empty_store).

Lemma store_load_all_witness :
  ∃ es, es ≡ₚ map_to_list (store_view two_saved) ∧ length es = 2%nat ∧
    LoadAll (λ g _, λ seen, Ret (None, seen ++ [g])) (two_saved, []) = Ret (None, (two_saved, es.*1)).
Proof.
  destruct (store_load_all two_saved) as (es & err & _ & _ & _ & Hr & Hall & HL).
  assert (err = None) as -> by (apply Hr; intros it _; by eexists).
  pose proof (Hall eq_refl) as Hp. exists es. split; [exact Hp|]. split.
  { rewrite Hp, length_map_to_list. vm_compute. reflexivity. }
  rewrite HL. unfold on_snd, bind. cbn [fst snd].
  assert (∀ seen, for_each (λ g _, λ seen, Ret (None, seen ++ [g])) es seen = Ret (None, seen ++ es.*1)) as ->.
  { clear. induction es as [|[g b] es IH]; intros seen; cbn; [by rewrite app_nil_r|].
    unfold bind. rewrite IH. by rewrite <- (assoc_L (++)). }
  reflexivity.
Defined.

End Witnesses.
