(* ===== verification/RaftLib.v ===== *)
(** * The Raft library and the wire format, as parameters

    [go.etcd.io/etcd/raft/v3], its [raftpb] messages and
    [google.golang.org/protobuf/proto] are outside the repository. Their data types
    are the records the node fills and reads; their operations are fields of type
    classes, with the documented behaviour the node relies on. *)

From S2P Require Import Prelude External Engine Handler.
Local Open Scope Z_scope.

(** ** raftpb *)

Inductive EntryType := EntryNormal | EntryConfChange | EntryConfChangeV2.

#[export] Instance EntryType_eq_dec : EqDecision EntryType.
Proof. solve_decision. Defined.

Record Entry := mkEntry {
  ent_Term : Z;
  ent_Index : Z;
  ent_Type : EntryType;
  ent_Data : list byte;
}.

Record Snapshot := mkSnapshot {
  snap_Data : list byte;
  snap_Index : Z;
  snap_Term : Z;
}.

(** ** proto.Marshal and proto.Unmarshal of a [pb.Command]

    A message with a set field has a non-empty encoding. *)
Class Proto := {
  proto_Marshal : Command → result (list byte);
  proto_Unmarshal : list byte → result Command;
  proto_roundtrip : ∀ c b, proto_Marshal c = Ok b → proto_Unmarshal b = Ok c;
  proto_nonempty : ∀ c b, cmd_Type c ≠ EmptyString → proto_Marshal c = Ok b → b ≠ [];
}.

(** ** etcd raft

    [ApplySnapshot] overwrites the contents of the storage with the snapshot's: the
    snapshot is the one given and the log ends at its index. An error of a storage
    operation leaves the storage as it was. [rn_Propose] is [None] while [Propose] blocks:
    with a context that is never done it waits until the node knows a leader. *)
Record Config := mkConfig {
  cfg_ID : Z;
  cfg_ElectionTick : Z;
  cfg_HeartbeatTick : Z;
  cfg_MaxSizePerMsg : Z;
  cfg_MaxInflightMsgs : Z;
}.

Class EtcdRaft := {
  MemoryStorage : Type;
  NewMemoryStorage : MemoryStorage;
  ms_Append : list Entry → MemoryStorage → option error * MemoryStorage;
  ms_ApplySnapshot : Snapshot → MemoryStorage → option error * MemoryStorage;
  ms_Compact : Z → MemoryStorage → option error * MemoryStorage;
  ErrCompacted : error;
  ms_snapshot : MemoryStorage → option Snapshot;
  ms_LastIndex : MemoryStorage → Z;
  RaftNode : Type;
  StartNode : Config → list Z → MemoryStorage → RaftNode;
  rn_Tick : RaftNode → RaftNode;
  rn_Advance : RaftNode → RaftNode;
  rn_Propose : list byte → RaftNode → option (option error * RaftNode);
  rn_Stop : RaftNode → RaftNode;
  rn_Status : RaftNode → Z * Z;
  ms_ApplySnapshot_ok : ∀ s m m', ms_ApplySnapshot s m = (None, m') →
    ms_snapshot m' = Some s ∧ ms_LastIndex m' = snap_Index s;
  ms_ApplySnapshot_err : ∀ s m e m', ms_ApplySnapshot s m = (Some e, m') → m' = m;
  ms_Compact_keeps : ∀ i m e m', ms_Compact i m = (e, m') →
    ms_snapshot m' = ms_snapshot m ∧ ms_LastIndex m' = ms_LastIndex m;
}.

(** ** Stand-ins *)
Module RaftStandIn.

(** A storage that keeps its snapshot and its last index; a node that keeps what was
    proposed to it and has a leader from the first tick on. *)
#[export] Program Instance etcd : EtcdRaft := {
  MemoryStorage := option Snapshot * Z;
  NewMemoryStorage := (None, 0);
  ms_Append es m := (None, (m.1, foldl (λ _ e, ent_Index e) m.2 es));
  ms_ApplySnapshot s m := (None, (Some s, snap_Index s));
  ms_Compact i m := (Some (EExternal "requested index is unavailable due to compaction"), m);
  ErrCompacted := EExternal "requested index is unavailable due to compaction";
  ms_snapshot := fst;
  ms_LastIndex := snd;
  RaftNode := bool * list (list byte);
  StartNode _ _ _ := (false, []);
  rn_Tick n := (true, n.2);
  rn_Advance n := n;
  rn_Propose d n := if n.1 then Some (None, (true, n.2 ++ [d])) else None;
  rn_Stop n := n;
  rn_Status n := (1, 1);
}.
Next Obligation. by intros s m m' [= <-]. Qed.
Next Obligation. by intros s m e m' [= ]. Qed.
Next Obligation. by intros i m e m' [= _ <-]. Qed.

End RaftStandIn.
