(* ===== verification/Pb.v ===== *)
(** * The service's messages (gen/cardinality/v1/cardinality.pb.go)

    The fields of the generated structs, without the bookkeeping of the protobuf
    runtime, and the getters, which are defined on a nil message too ([None]). *)

From S2P Require Import Prelude Handler.
Local Open Scope Z_scope.

Record AddRequest := mkAddRequest { add_Group : string; add_Id : Z }.
Record BatchAddRequest := mkBatchAddRequest { batch_Group : string; batch_Ids : list Z }.
Record AddResponse := mkAddResponse { resp_Ok : bool }.
Record QueryRequest := mkQueryRequest { query_Group : string; query_StaleOk : bool }.
Record QueryResponse := mkQueryResponse { result_Group : string; result_Cardinality : Z }.

Definition AddRequest_GetGroup (x : option AddRequest) : string :=
  match x with Some x => add_Group x | None => EmptyString end.
Definition AddRequest_GetId (x : option AddRequest) : Z :=
  match x with Some x => add_Id x | None => 0 end.
Definition BatchAddRequest_GetGroup (x : option BatchAddRequest) : string :=
  match x with Some x => batch_Group x | None => EmptyString end.
Definition BatchAddRequest_GetIds (x : option BatchAddRequest) : list Z :=
  match x with Some x => batch_Ids x | None => [] end.
Definition AddResponse_GetOk (x : option AddResponse) : bool :=
  match x with Some x => resp_Ok x | None => false end.
Definition QueryRequest_GetGroup (x : option QueryRequest) : string :=
  match x with Some x => query_Group x | None => EmptyString end.
Definition QueryRequest_GetStaleOk (x : option QueryRequest) : bool :=
  match x with Some x => query_StaleOk x | None => false end.
Definition QueryResponse_GetGroup (x : option QueryResponse) : string :=
  match x with Some x => result_Group x | None => EmptyString end.
Definition QueryResponse_GetCardinality (x : option QueryResponse) : Z :=
  match x with Some x => result_Cardinality x | None => 0 end.
Definition Command_GetType (x : option Command) : string :=
  match x with Some x => cmd_Type x | None => EmptyString end.
Definition Command_GetGroup (x : option Command) : string :=
  match x with Some x => cmd_Group x | None => EmptyString end.
Definition Command_GetPayload (x : option Command) : list byte :=
  match x with Some x => cmd_Payload x | None => [] end.
