(* ===== verification/Messages.v ===== *)
(** * The generated messages at run time (gen/cardinality/v1/*.pb.go)

    The methods every generated message has (Reset, String, ProtoReflect, Descriptor) and
    the registration of the two files with the protobuf runtime, which is the class
    [ProtoImpl]. A message in memory is its fields together with the words the runtime
    keeps in the struct; a pointer to one is [None] when it is nil. *)

From stdpp Require Import pretty.
From S2P Require Import Prelude GoBinary Wire Proto3 Descriptor Handler Pb.
Local Open Scope Z_scope.

(** ** Types *)

(** The Go types of the two files. *)
Inductive GoType :=
  | TAddRequest | TBatchAddRequest | TAddResponse | TQueryRequest | TQueryResponse | TCommand.

#[export] Instance GoType_eq_dec : EqDecision GoType.
Proof. solve_decision. Defined.

Definition go_name (t : GoType) : string :=
  match t with
  | TAddRequest => "AddRequest"
  | TBatchAddRequest => "BatchAddRequest"
  | TAddResponse => "AddResponse"
  | TQueryRequest => "QueryRequest"
  | TQueryResponse => "QueryResponse"
  | TCommand => "Command"
  end.

Definition body (t : GoType) : Type :=
  match t with
  | TAddRequest => AddRequest
  | TBatchAddRequest => BatchAddRequest
  | TAddResponse => AddResponse
  | TQueryRequest => QueryRequest
  | TQueryResponse => QueryResponse
  | TCommand => Command
  end.

Inductive ProtoFile := CardinalityProto | CommandProto.

(** A pointer to an element of one of the files' msgTypes. *)
Record MessageInfo := mkMessageInfo { mi_file : ProtoFile; mi_index : nat }.

(** A message in memory: state, the declared fields, unknownFields and sizeCache. *)
Record Struct (M : Type) := mkStruct {
  st_state : option MessageInfo;
  st_body : M;
  st_unknownFields : list byte;
  st_sizeCache : Z;
}.
Arguments mkStruct {M} _ _ _ _.
Arguments st_state {M} _.
Arguments st_body {M} _.
Arguments st_unknownFields {M} _.
Arguments st_sizeCache {M} _.

(** ** The protobuf runtime *)

Record TypeBuilder := mkTypeBuilder {
  tb_GoPackagePath : string;
  tb_RawDescriptor : list byte;
  tb_NumEnums : nat;
  tb_NumMessages : nat;
  tb_NumExtensions : nat;
  tb_NumServices : nat;
  tb_GoTypes : list GoType;
  tb_DependencyIndexes : list Z;
  tb_MessageInfos : nat;
}.

(** DependencyIndexes holds five lists one after the other (field types, extendees,
    extension types, method inputs, method outputs); where each starts is appended at the
    end, in reverse order. *)
Definition dep_start (idxs : list Z) (k : nat) : option nat :=
  Z.to_nat <$> idxs !! (length idxs - 1 - k)%nat.
Definition dep_list (idxs : list Z) (k : nat) : option (list Z) :=
  lo ← dep_start idxs k;
  hi ← (if decide (k = 4%nat) then Some (length idxs - 5)%nat else dep_start idxs (S k));
  Some (take (hi - lo)%nat (drop lo idxs)).

(** The proto names of the types at some indices. *)
Definition type_names (pkg : string) (types : list GoType) (idxs : list Z) : option (list string) :=
  mapM (λ i, (λ t, "." +:+ pkg +:+ "." +:+ go_name t) <$> types !! Z.to_nat i) idxs.

(** A builder whose tables fit its descriptor, for a file without enums and extensions and
    without messages inside messages. *)
Definition builder_fits (tb : TypeBuilder) (f : FileDescriptorProto) : Prop :=
  let methods := file_Services f ≫= sd_Methods in
  tb_NumEnums tb = 0%nat ∧ tb_NumExtensions tb = 0%nat ∧
  tb_NumMessages tb = length (file_Messages f) ∧ tb_NumServices tb = length (file_Services f) ∧
  tb_MessageInfos tb = tb_NumMessages tb ∧
  go_name <$> tb_GoTypes tb = md_Name <$> file_Messages f ∧
  dep_list (tb_DependencyIndexes tb) 0 = Some [] ∧
  dep_list (tb_DependencyIndexes tb) 1 = Some [] ∧
  dep_list (tb_DependencyIndexes tb) 2 = Some [] ∧
  dep_list (tb_DependencyIndexes tb) 3 ≫= type_names (file_Package f) (tb_GoTypes tb) =
    Some (mt_Input <$> methods) ∧
  dep_list (tb_DependencyIndexes tb) 4 ≫= type_names (file_Package f) (tb_GoTypes tb) =
    Some (mt_Output <$> methods) ∧
  file_GoPackage f = tb_GoPackagePath tb +:+ ";cardinalityv1".

(** What the files call: Build gives a file descriptor for a builder whose tables fit, and
    panics for one whose tables do not; CompressGZIP writes a gzip file with the data. *)
Class ProtoImpl := {
  FileDescriptor : Type;
  Build : TypeBuilder → outcome FileDescriptor;
  fd_proto : FileDescriptor → list byte;
  CompressGZIP : list byte → list byte;
  gunzip : list byte → option (list byte);
  MessageStringOf : ∀ {M : Type}, option (Struct M) → string;
  Build_fits : ∀ tb f, parse_File (tb_RawDescriptor tb) = Some f → builder_fits tb f →
    ∃ fd, Build tb = Ret fd ∧ fd_proto fd = tb_RawDescriptor tb;
  gunzip_Compress : ∀ b, gunzip (CompressGZIP b) = Some b;
}.

(** [X.MessageStateOf] gives the state word of the struct itself. *)
Definition nil_dereference : string := "invalid memory address or nil pointer dereference".

Section State.
Context {M : Type}.

Definition LoadMessageInfo : prog (option (Struct M)) (option MessageInfo) :=
  let* x := get in
  match x with Some m => ret (st_state m) | None => panic nil_dereference end.
Definition StoreMessageInfo (mi : MessageInfo) : prog (option (Struct M)) unit :=
  let* x := get in
  match x with
  | Some m => put (Some (mkStruct (Some mi) (st_body m) (st_unknownFields m) (st_sizeCache m)))
  | None => panic nil_dereference
  end.

(** A protoreflect.Message: a message's own state word, with the type it holds, or the
    empty message of a type. *)
Inductive Reflected := StateOf (info : option MessageInfo) | MessageOf (info : MessageInfo).

(** The bodies of Reset and ProtoReflect, which differ only in the type and its index. *)
Definition reset_with (z : M) (mi : MessageInfo) : prog (option (Struct M)) unit :=
  let* x := get in
  match x with
  | None => panic nil_dereference
  | Some _ =>
      let* _ := put (Some (mkStruct None z [] 0)) in
      StoreMessageInfo mi
  end.

Definition reflect_with (mi : MessageInfo) : prog (option (Struct M)) Reflected :=
  let* x := get in
  match x with
  | Some _ =>
      let* info := LoadMessageInfo in
      let* _ := match info with None => StoreMessageInfo mi | Some _ => ret tt end in
      let* info := LoadMessageInfo in
      ret (StateOf info)
  | None => ret (MessageOf mi)
  end.
End State.

(** ** Package variables and registration *)

Record FileVars `{!ProtoImpl} := mkFileVars {
  File_ : option FileDescriptor;
  goTypes : list GoType;
  depIdxs : list Z;
  rawDescOnce : bool;
  rawDescData : list byte;
}.

Definition file_cardinality_v1_cardinality_proto_msgTypes : nat := 5.
Definition file_cardinality_v1_cardinality_proto_goTypes : list GoType :=
  [TAddRequest; TBatchAddRequest; TAddResponse; TQueryRequest; TQueryResponse].
Definition file_cardinality_v1_cardinality_proto_depIdxs : list Z :=
  [0; 1; 3; 2; 2; 4; 3; 0; 0; 0; 0].

Definition file_cardinality_v1_command_proto_msgTypes : nat := 1.
Definition file_cardinality_v1_command_proto_goTypes : list GoType := [TCommand].
Definition file_cardinality_v1_command_proto_depIdxs : list Z := [0; 0; 0; 0; 0].

(** The import path of the generated package. *)
Definition PkgPath : string :=
  "github.com/BlaCkinkGJ/time-series-cardinality-tracker/gen/cardinality/v1".

Section Files.
Context `{!ProtoImpl}.

(** The variables before the package is initialised. *)
Definition cardinality_vars : FileVars :=
  mkFileVars _ None file_cardinality_v1_cardinality_proto_goTypes
    file_cardinality_v1_cardinality_proto_depIdxs false [].
Definition command_vars : FileVars :=
  mkFileVars _ None file_cardinality_v1_command_proto_goTypes
    file_cardinality_v1_command_proto_depIdxs false [].

Definition file_cardinality_v1_cardinality_proto_init : prog FileVars unit :=
  let* v := get in
  match File_ v with
  | Some _ => ret tt
  | None =>
      let* out := lift (Build (mkTypeBuilder PkgPath file_cardinality_v1_cardinality_proto_rawDesc
        0 5 0 1 (goTypes v) (depIdxs v) file_cardinality_v1_cardinality_proto_msgTypes)) in
      put (mkFileVars _ (Some out) [] [] (rawDescOnce v) (rawDescData v))
  end.

Definition file_cardinality_v1_command_proto_init : prog FileVars unit :=
  let* v := get in
  match File_ v with
  | Some _ => ret tt
  | None =>
      let* out := lift (Build (mkTypeBuilder PkgPath file_cardinality_v1_command_proto_rawDesc
        0 1 0 0 (goTypes v) (depIdxs v) file_cardinality_v1_command_proto_msgTypes)) in
      put (mkFileVars _ (Some out) [] [] (rawDescOnce v) (rawDescData v))
  end.

(** [sync.Once]: the function runs in the first call only. *)
Definition once_Do (f : prog FileVars unit) : prog FileVars unit :=
  let* v := get in
  if rawDescOnce v then ret tt
  else
    let* _ := f in
    let* v := get in
    put (mkFileVars _ (File_ v) (goTypes v) (depIdxs v) true (rawDescData v)).
Definition set_rawDescData (b : list byte) : prog FileVars unit :=
  let* v := get in put (mkFileVars _ (File_ v) (goTypes v) (depIdxs v) (rawDescOnce v) b).

Definition file_cardinality_v1_cardinality_proto_rawDescGZIP : prog FileVars (list byte) :=
  let* _ := once_Do (set_rawDescData (CompressGZIP file_cardinality_v1_cardinality_proto_rawDesc)) in
  let* v := get in ret (rawDescData v).
Definition file_cardinality_v1_command_proto_rawDescGZIP : prog FileVars (list byte) :=
  let* _ := once_Do (set_rawDescData (CompressGZIP file_cardinality_v1_command_proto_rawDesc)) in
  let* v := get in ret (rawDescData v).

(** ** The methods of the messages *)

Definition AddRequest_Reset : prog (option (Struct AddRequest)) unit :=
  reset_with (mkAddRequest EmptyString 0) (mkMessageInfo CardinalityProto 0).
Definition AddRequest_String (x : option (Struct AddRequest)) : string := MessageStringOf x.
Definition AddRequest_ProtoReflect : prog (option (Struct AddRequest)) Reflected :=
  reflect_with (mkMessageInfo CardinalityProto 0).
Definition AddRequest_Descriptor : prog FileVars (list byte * list Z) :=
  let* gz := file_cardinality_v1_cardinality_proto_rawDescGZIP in ret (gz, [0]).

Definition BatchAddRequest_Reset : prog (option (Struct BatchAddRequest)) unit :=
  reset_with (mkBatchAddRequest EmptyString []) (mkMessageInfo CardinalityProto 1).
Definition BatchAddRequest_String (x : option (Struct BatchAddRequest)) : string := MessageStringOf x.
Definition BatchAddRequest_ProtoReflect : prog (option (Struct BatchAddRequest)) Reflected :=
  reflect_with (mkMessageInfo CardinalityProto 1).
Definition BatchAddRequest_Descriptor : prog FileVars (list byte * list Z) :=
  let* gz := file_cardinality_v1_cardinality_proto_rawDescGZIP in ret (gz, [1]).

Definition AddResponse_Reset : prog (option (Struct AddResponse)) unit :=
  reset_with (mkAddResponse false) (mkMessageInfo CardinalityProto 2).
Definition AddResponse_String (x : option (Struct AddResponse)) : string := MessageStringOf x.
Definition AddResponse_ProtoReflect : prog (option (Struct AddResponse)) Reflected :=
  reflect_with (mkMessageInfo CardinalityProto 2).
Definition AddResponse_Descriptor : prog FileVars (list byte * list Z) :=
  let* gz := file_cardinality_v1_cardinality_proto_rawDescGZIP in ret (gz, [2]).

Definition QueryRequest_Reset : prog (option (Struct QueryRequest)) unit :=
  reset_with (mkQueryRequest EmptyString false) (mkMessageInfo CardinalityProto 3).
Definition QueryRequest_String (x : option (Struct QueryRequest)) : string := MessageStringOf x.
Definition QueryRequest_ProtoReflect : prog (option (Struct QueryRequest)) Reflected :=
  reflect_with (mkMessageInfo CardinalityProto 3).
Definition QueryRequest_Descriptor : prog FileVars (list byte * list Z) :=
  let* gz := file_cardinality_v1_cardinality_proto_rawDescGZIP in ret (gz, [3]).

Definition QueryResponse_Reset : prog (option (Struct QueryResponse)) unit :=
  reset_with (mkQueryResponse EmptyString 0) (mkMessageInfo CardinalityProto 4).
Definition QueryResponse_String (x : option (Struct QueryResponse)) : string := MessageStringOf x.
Definition QueryResponse_ProtoReflect : prog (option (Struct QueryResponse)) Reflected :=
  reflect_with (mkMessageInfo CardinalityProto 4).
Definition QueryResponse_Descriptor : prog FileVars (list byte * list Z) :=
  let* gz := file_cardinality_v1_cardinality_proto_rawDescGZIP in ret (gz, [4]).

Definition Command_Reset : prog (option (Struct Command)) unit :=
  reset_with (mkCommand EmptyString EmptyString []) (mkMessageInfo CommandProto 0).
Definition Command_String (x : option (Struct Command)) : string := MessageStringOf x.
Definition Command_ProtoReflect : prog (option (Struct Command)) Reflected :=
  reflect_with (mkMessageInfo CommandProto 0).
Definition Command_Descriptor : prog FileVars (list byte * list Z) :=
  let* gz := file_cardinality_v1_command_proto_rawDescGZIP in ret (gz, [0]).

(** The same methods by type. *)
Definition type_Reset (t : GoType) : prog (option (Struct (body t))) unit :=
  match t with
  | TAddRequest => AddRequest_Reset
  | TBatchAddRequest => BatchAddRequest_Reset
  | TAddResponse => AddResponse_Reset
  | TQueryRequest => QueryRequest_Reset
  | TQueryResponse => QueryResponse_Reset
  | TCommand => Command_Reset
  end.
Definition type_String (t : GoType) : option (Struct (body t)) → string :=
  match t with
  | TAddRequest => AddRequest_String
  | TBatchAddRequest => BatchAddRequest_String
  | TAddResponse => AddResponse_String
  | TQueryRequest => QueryRequest_String
  | TQueryResponse => QueryResponse_String
  | TCommand => Command_String
  end.
Definition type_ProtoReflect (t : GoType) : prog (option (Struct (body t))) Reflected :=
  match t with
  | TAddRequest => AddRequest_ProtoReflect
  | TBatchAddRequest => BatchAddRequest_ProtoReflect
  | TAddResponse => AddResponse_ProtoReflect
  | TQueryRequest => QueryRequest_ProtoReflect
  | TQueryResponse => QueryResponse_ProtoReflect
  | TCommand => Command_ProtoReflect
  end.
Definition type_Descriptor (t : GoType) : prog FileVars (list byte * list Z) :=
  match t with
  | TAddRequest => AddRequest_Descriptor
  | TBatchAddRequest => BatchAddRequest_Descriptor
  | TAddResponse => AddResponse_Descriptor
  | TQueryRequest => QueryRequest_Descriptor
  | TQueryResponse => QueryResponse_Descriptor
  | TCommand => Command_Descriptor
  end.
End Files.
