(* ===== verification/MessagesProps.v ===== *)
(** * The generated messages: descriptors, registration and encoding

    That the tables of the two generated files fit the descriptors they carry, that
    their registration succeeds and that a message always presents itself as its own type.

    [Marshal] and [Unmarshal] stand in for google.golang.org/protobuf, which is not part of
    the repository: the documented proto3 encoding, driven by the schema of the generated
    descriptors. The program is verified against the classes [RaftLib.Proto] and
    [Rpc.ProtoWire]; the codec here shows that their laws can be met and lets the
    witnesses run ([messages_roundtrip]). *)

From stdpp Require Import pretty.
From S2P Require Import Prelude GoBinary Wire Proto3 Descriptor Handler RaftLib Pb Messages.
Local Open Scope Z_scope.

(** ** Types and their descriptors *)

Definition type_info (t : GoType) : MessageInfo :=
  match t with
  | TAddRequest => mkMessageInfo CardinalityProto 0
  | TBatchAddRequest => mkMessageInfo CardinalityProto 1
  | TAddResponse => mkMessageInfo CardinalityProto 2
  | TQueryRequest => mkMessageInfo CardinalityProto 3
  | TQueryResponse => mkMessageInfo CardinalityProto 4
  | TCommand => mkMessageInfo CommandProto 0
  end.

Definition type_struct (t : GoType) : list StructField :=
  match t with
  | TAddRequest => AddRequest_struct
  | TBatchAddRequest => BatchAddRequest_struct
  | TAddResponse => AddResponse_struct
  | TQueryRequest => QueryRequest_struct
  | TQueryResponse => QueryResponse_struct
  | TCommand => Command_struct
  end.

Definition raw_descriptor (f : ProtoFile) : list byte :=
  match f with
  | CardinalityProto => file_cardinality_v1_cardinality_proto_rawDesc
  | CommandProto => file_cardinality_v1_command_proto_rawDesc
  end.

Definition descriptor_of (mi : MessageInfo) : option MessageDescriptor :=
  parse_File (raw_descriptor (mi_file mi)) ≫= λ f, file_Messages f !! mi_index mi.

(** ** Fields by number *)

Definition body_zero (t : GoType) : body t :=
  match t with
  | TAddRequest => mkAddRequest EmptyString 0
  | TBatchAddRequest => mkBatchAddRequest EmptyString []
  | TAddResponse => mkAddResponse false
  | TQueryRequest => mkQueryRequest EmptyString false
  | TQueryResponse => mkQueryResponse EmptyString 0
  | TCommand => mkCommand EmptyString EmptyString []
  end.

Definition body_fields (t : GoType) : body t → fields :=
  match t with
  | TAddRequest => λ x, [(1, VString (add_Group x)); (2, VUint64 (add_Id x))]
  | TBatchAddRequest => λ x, [(1, VString (batch_Group x)); (2, VUint64s (batch_Ids x))]
  | TAddResponse => λ x, [(1, VBool (resp_Ok x))]
  | TQueryRequest => λ x, [(1, VString (query_Group x)); (2, VBool (query_StaleOk x))]
  | TQueryResponse => λ x, [(1, VString (result_Group x)); (2, VUint64 (result_Cardinality x))]
  | TCommand => λ x, [(1, VString (cmd_Type x)); (2, VString (cmd_Group x)); (3, VBytes (cmd_Payload x))]
  end.

Definition of_fields (t : GoType) (l : fields) : option (body t) :=
  match t with
  | TAddRequest => match l with [(_, VString g); (_, VUint64 i)] => Some (mkAddRequest g i) | _ => None end
  | TBatchAddRequest => match l with [(_, VString g); (_, VUint64s i)] => Some (mkBatchAddRequest g i) | _ => None end
  | TAddResponse => match l with [(_, VBool b)] => Some (mkAddResponse b) | _ => None end
  | TQueryRequest => match l with [(_, VString g); (_, VBool b)] => Some (mkQueryRequest g b) | _ => None end
  | TQueryResponse => match l with [(_, VString g); (_, VUint64 n)] => Some (mkQueryResponse g n) | _ => None end
  | TCommand =>
      match l with [(_, VString t); (_, VString g); (_, VBytes p)] => Some (mkCommand t g p) | _ => None end
  end.

(** Everything the sources say about a type agrees: the message at its index has its name,
    generates its struct tags and has its fields. *)
Lemma type_described t :
  ∃ md, descriptor_of (type_info t) = Some md ∧ md_Name md = go_name t ∧
    struct_field <$> md_Fields md = type_struct t ∧ message_zero md = Some (body_fields t (body_zero t)).
Proof.
  destruct t; eexists; (split; [vm_compute; reflexivity|]); split_and!; vm_compute; reflexivity.
Qed.

Lemma of_body_fields t (x : body t) : of_fields t (body_fields t x) = Some x.
Proof. by destruct t, x. Qed.

Lemma zero_body_fields t (x : body t) : zero_fields (body_fields t x) = body_fields t (body_zero t).
Proof. by destruct t, x. Qed.

Lemma body_schema_ok t (x : body t) : schema_ok (body_fields t x).
Proof.
  split.
  - destruct t; cbn; repeat (apply NoDup_cons; split; [set_solver|]); apply NoDup_nil_2.
  - destruct t; cbn; repeat (constructor; [unfold MaxFieldNumber; lia|]); constructor.
Qed.

(** ** Encoding by descriptor *)

Definition schema (t : GoType) : option fields := descriptor_of (type_info t) ≫= message_zero.

Lemma schema_type t : schema t = Some (body_fields t (body_zero t)).
Proof. destruct (type_described t) as (md & Hd & _ & _ & Hz). unfold schema. by rewrite Hd. Qed.

Definition Marshal (t : GoType) (x : body t) : result (list byte) := marshal (body_fields t x).

Definition Unmarshal (t : GoType) (b : list byte) : result (body t) :=
  match schema t with
  | None => Err errDecode
  | Some z =>
      match unmarshal z b with
      | Err e => Err e
      | Ok l => match of_fields t l with Some x => Ok x | None => Err errDecode end
      end
  end.

Lemma Unmarshal_extended t x b fs :
  Marshal t x = Ok b → Forall wire_field_ok fs → Forall (λ f, f.1 ∉ (body_fields t x).*1) fs →
  Unmarshal t (b ++ append_fields fs) = Ok x.
Proof.
  unfold Marshal, Unmarshal. intros Hb Hfs Hnew. rewrite schema_type.
  rewrite (unmarshal_marshal (body_fields t x) _ b fs); [by rewrite of_body_fields|apply body_schema_ok| |done..].
  by rewrite !zero_body_fields.
Qed.

Lemma Unmarshal_Marshal t x b : Marshal t x = Ok b → Unmarshal t b = Ok x.
Proof. intros Hb. rewrite <- (app_nil_r b). by apply (Unmarshal_extended t x b []). Qed.

(** [proto.Marshal] and [proto.Unmarshal] of the Raft commands. *)
#[export] Program Instance wire_proto : Proto := {
  proto_Marshal := Marshal TCommand;
  proto_Unmarshal := Unmarshal TCommand;
}.
Next Obligation. intros c b. apply (Unmarshal_Marshal TCommand). Qed.
Next Obligation.
  intros c b Ht. apply (marshal_nonempty _ b 1 (VString (cmd_Type c)) (body_schema_ok TCommand c)); [left|].
  intros [= E]. done.
Qed.

(** ** A message over its life *)

(** What the program and the runtime do with a message behind a pointer; [CallWrite] are
    assignments to its fields. *)
Inductive message_call (t : GoType) :=
  | CallReset
  | CallReflect
  | CallString
  | CallWrite (x : body t) (unknown : list byte) (size : Z).
Arguments CallReset {t}.
Arguments CallReflect {t}.
Arguments CallString {t}.
Arguments CallWrite {t} _ _ _.

Section Life.
Context `{!ProtoImpl} {t : GoType}.
Implicit Types (p : option (Struct (body t))).

Definition run_call (c : message_call t) : prog (option (Struct (body t))) unit :=
  match c with
  | CallReset => type_Reset t
  | CallReflect => let* _ := type_ProtoReflect t in ret tt
  | CallString => let* p := get in let _ := type_String t p in ret tt
  | CallWrite x u n =>
      let* p := get in
      match p with
      | Some m => put (Some (mkStruct (st_state m) x u n))
      | None => panic nil_dereference
      end
  end.

Fixpoint run_calls (cs : list (message_call t)) : prog (option (Struct (body t))) unit :=
  match cs with
  | [] => ret tt
  | c :: cs' => let* _ := run_call c in run_calls cs'
  end.

(** The state word is empty or holds the message's own type. *)
Definition own_info p : Prop :=
  match p with Some m => st_state m = None ∨ st_state m = Some (type_info t) | None => True end.

Lemma type_Reset_with : type_Reset t = reset_with (body_zero t) (type_info t).
Proof. by destruct t. Qed.
Lemma type_ProtoReflect_with : type_ProtoReflect t = reflect_with (type_info t).
Proof. by destruct t. Qed.

(** ProtoReflect leaves the state word filled and everything else as it was. *)
Definition reflected p : option (Struct (body t)) :=
  (λ m, mkStruct (Some (type_info t)) (st_body m) (st_unknownFields m) (st_sizeCache m)) <$> p.
Definition reflection p : Reflected :=
  match p with Some _ => StateOf (Some (type_info t)) | None => MessageOf (type_info t) end.

Lemma reflect_spec p : own_info p → type_ProtoReflect t p = Ret (reflection p, reflected p).
Proof.
  rewrite type_ProtoReflect_with. destruct p as [[s b u n]|]; [|done].
  cbn [own_info st_state]. by intros [-> | ->].
Qed.

Lemma run_call_own c p p' u : own_info p → run_call c p = Ret (u, p') → own_info p' ∧ (p' = None ↔ p = None).
Proof.
  intros Hp. destruct c as [| | |x b n]; cbn [run_call].
  - rewrite type_Reset_with. destruct p; [|done]. intros [= <- <-]. split; [by right|done].
  - unfold bind. rewrite reflect_spec by done. intros [= <- <-]. destruct p; split; [by right|done..].
  - by intros [= <- <-].
  - destruct p as [m|]; [|done]. intros [= <- <-]. by split.
Qed.

Lemma run_calls_own cs p p' u :
  own_info p → run_calls cs p = Ret (u, p') → own_info p' ∧ (p' = None ↔ p = None).
Proof.
  revert p. induction cs as [|c cs IH]; intros p Hp; cbn [run_calls]; [by intros [= <- <-]|].
  unfold bind. destruct (run_call c p) as [[v p1]|] eqn:E; [|done].
  apply run_call_own in E as [Hp1 Hn]; [|done]. intros [? ?]%IH; [|done]. split; [done|]. by rewrite <- Hn.
Qed.
End Life.

(** ** The package's variables *)

Section Package.
Context `{!ProtoImpl}.

Lemma cardinality_builder_fits :
  ∃ f, parse_File file_cardinality_v1_cardinality_proto_rawDesc = Some f ∧
    builder_fits (mkTypeBuilder PkgPath file_cardinality_v1_cardinality_proto_rawDesc 0 5 0 1
      file_cardinality_v1_cardinality_proto_goTypes file_cardinality_v1_cardinality_proto_depIdxs
      file_cardinality_v1_cardinality_proto_msgTypes) f.
Proof. eexists; split; [vm_compute; reflexivity|]. unfold builder_fits. split_and!; vm_compute; reflexivity. Qed.

Lemma command_builder_fits :
  ∃ f, parse_File file_cardinality_v1_command_proto_rawDesc = Some f ∧
    builder_fits (mkTypeBuilder PkgPath file_cardinality_v1_command_proto_rawDesc 0 1 0 0
      file_cardinality_v1_command_proto_goTypes file_cardinality_v1_command_proto_depIdxs
      file_cardinality_v1_command_proto_msgTypes) f.
Proof. eexists; split; [vm_compute; reflexivity|]. unfold builder_fits. split_and!; vm_compute; reflexivity. Qed.

Definition file_vars (f : ProtoFile) : FileVars :=
  match f with CardinalityProto => cardinality_vars | CommandProto => command_vars end.
Definition file_init (f : ProtoFile) : prog FileVars unit :=
  match f with
  | CardinalityProto => file_cardinality_v1_cardinality_proto_init
  | CommandProto => file_cardinality_v1_command_proto_init
  end.
Definition file_GZIP (f : ProtoFile) : prog FileVars (list byte) :=
  match f with
  | CardinalityProto => file_cardinality_v1_cardinality_proto_rawDescGZIP
  | CommandProto => file_cardinality_v1_command_proto_rawDescGZIP
  end.

Lemma file_init_fresh f :
  ∃ fd, file_init f (file_vars f) = Ret (tt, mkFileVars _ (Some fd) [] [] false []) ∧ fd_proto fd = raw_descriptor f.
Proof.
  destruct f; cbn [file_init file_vars raw_descriptor];
    [destruct cardinality_builder_fits as (d & Hd & Hf)|destruct command_builder_fits as (d & Hd & Hf)];
    (edestruct Build_fits as (fd & Hfd & Hraw); [|exact Hf|]; [exact Hd|]); exists fd; (split; [|done]).
  - unfold file_cardinality_v1_cardinality_proto_init, bind, get. cbn [File_ cardinality_vars goTypes depIdxs].
    by rewrite Hfd.
  - unfold file_cardinality_v1_command_proto_init, bind, get. cbn [File_ command_vars goTypes depIdxs].
    by rewrite Hfd.
Qed.

Lemma file_init_again f v fd : File_ v = Some fd → file_init f v = Ret (tt, v).
Proof.
  intros Hv. destruct f; cbn [file_init];
    unfold file_cardinality_v1_cardinality_proto_init, file_cardinality_v1_command_proto_init, bind, get;
    by rewrite Hv.
Qed.

(** The compressed descriptor is there once it was asked for. *)
Definition gzip_inv (f : ProtoFile) (v : FileVars) : Prop :=
  rawDescOnce v = true → rawDescData v = CompressGZIP (raw_descriptor f).
Definition gzipped (f : ProtoFile) (v : FileVars) : FileVars :=
  mkFileVars _ (File_ v) (goTypes v) (depIdxs v) true (CompressGZIP (raw_descriptor f)).

Lemma file_GZIP_spec f v :
  gzip_inv f v → file_GZIP f v = Ret (CompressGZIP (raw_descriptor f), gzipped f v).
Proof.
  destruct v as [fl ts ds [] data]; unfold gzip_inv, gzipped; cbn [rawDescOnce rawDescData File_ goTypes depIdxs].
  - intros ->; [|done]. by destruct f.
  - intros _. by destruct f.
Qed.

Lemma type_Descriptor_spec t v :
  let f := mi_file (type_info t) in
  gzip_inv f v → type_Descriptor t v =
    Ret ((CompressGZIP (raw_descriptor f), [Z.of_nat (mi_index (type_info t))]), gzipped f v).
Proof.
  intros f Hv. assert (type_Descriptor t =
    let* gz := file_GZIP f in ret (gz, [Z.of_nat (mi_index (type_info t))])) as -> by (by destruct t).
  unfold bind. by rewrite file_GZIP_spec.
Qed.

(** Calls of Descriptor on types of one file. *)
Fixpoint describe (ts : list GoType) : prog FileVars unit :=
  match ts with
  | [] => ret tt
  | t :: ts' => let* _ := type_Descriptor t in describe ts'
  end.

Lemma describe_spec f ts v :
  Forall (λ t, mi_file (type_info t) = f) ts → gzip_inv f v →
  describe ts v = Ret (tt, match ts with [] => v | _ => gzipped f v end).
Proof.
  intros Hts. revert v. induction Hts as [|t ts <- Hts IH]; intros v Hv; cbn [describe]; [done|].
  unfold bind. rewrite type_Descriptor_spec by done. rewrite IH by done. by destruct ts.
Qed.
End Package.

(** ** Properties *)

(** The runtime with a file descriptor that is its raw bytes, and gzip files that store
    their data as it is. *)
Module ProtoStandIn.
#[export] Instance builder_fits_dec tb f : Decision (builder_fits tb f).
Proof. unfold builder_fits. apply _. Defined.

Definition build (tb : TypeBuilder) : outcome (list byte) :=
  match parse_File (tb_RawDescriptor tb) with
  | Some f => if decide (builder_fits tb f) then Ret (tb_RawDescriptor tb) else Panic "mismatching tables"
  | None => Panic "invalid descriptor"
  end.

#[export] Program Instance protoimpl : ProtoImpl := {
  FileDescriptor := list byte;
  Build := build;
  fd_proto := id;
  CompressGZIP := id;
  gunzip := Some;
  MessageStringOf M p := EmptyString;
}.
Next Obligation.
  intros tb f Hf Hfit. exists (tb_RawDescriptor tb). unfold build. rewrite Hf. by rewrite decide_True.
Qed.
Next Obligation. done. Qed.
End ProtoStandIn.

(** C19: Initialising the generated package succeeds: the Go types, the dependency indices
    and the counts of each file fit the descriptor it carries, so the runtime builds a
    descriptor from it; the tables are released and a second initialisation does
    nothing. After any calls of Descriptor, the pair that Descriptor of a type returns
    leads to the message of that name in the decompressed descriptor. *)
Theorem generated_files_register `{!ProtoImpl} (f : ProtoFile) (ts : list GoType) :
  Forall (λ t, mi_file (type_info t) = f) ts →
  ∃ fd v v', file_init f (file_vars f) = Ret (tt, v) ∧ File_ v = Some fd ∧ fd_proto fd = raw_descriptor f ∧
    goTypes v = [] ∧ depIdxs v = [] ∧ file_init f v = Ret (tt, v) ∧
    describe ts v = Ret (tt, v') ∧ File_ v' = Some fd ∧
    ∀ t, mi_file (type_info t) = f → ∃ gz i v'' d md,
      type_Descriptor t v' = Ret ((gz, [i]), v'') ∧ gunzip gz ≫= parse_File = Some d ∧
      file_Messages d !! Z.to_nat i = Some md ∧ md_Name md = go_name t.
Proof.
  intros Hts. destruct (file_init_fresh f) as (fd & Hi & Hraw).
  set (v := mkFileVars _ (Some fd) [] [] false []) in *.
  assert (gzip_inv f v) as Hv by done. pose proof (describe_spec f ts v Hts Hv) as Hd.
  eexists fd, v, _. do 5 (split; [done|]). split; [by eapply file_init_again|]. split; [exact Hd|].
  split; [by destruct ts|]. intros t Ht. destruct (type_described t) as (md & Hmd & Hn & _).
  unfold descriptor_of in Hmd. apply bind_Some in Hmd as (d & Hp & Hl). rewrite Ht in Hp.
  eexists _, _, _, d, md. split; [apply type_Descriptor_spec; rewrite Ht; by destruct ts|].
  rewrite gunzip_Compress, Nat2Z.id, Ht. done.
Qed.

(** Whatever was done with a message before, it reflects as its own type: its state
    word is empty or holds that type, ProtoReflect fills it, changes no field and gives
    the same view when repeated, on a nil pointer too, and the descriptor it leads to has
    the name and the struct tags of the Go type. Reset makes every field zero, drops the
    unknown fields and keeps the type; on a nil pointer it panics. *)
Lemma messages_self_describing `{!ProtoImpl} (t : GoType) (cs : list (message_call t))
    (p p' : option (Struct (body t))) u :
  own_info p → run_calls cs p = Ret (u, p') →
  (∃ view q md, type_ProtoReflect t p' = Ret (view, q) ∧ type_ProtoReflect t q = Ret (view, q) ∧
    st_body <$> q = st_body <$> p' ∧ st_unknownFields <$> q = st_unknownFields <$> p' ∧
    match view with StateOf i => p ≠ None ∧ i = Some (type_info t) | MessageOf i => p = None ∧ i = type_info t end ∧
    descriptor_of (type_info t) = Some md ∧ md_Name md = go_name t ∧
    struct_field <$> md_Fields md = type_struct t) ∧
  type_Reset t p' =
    match p with
    | Some _ => Ret (tt, Some (mkStruct (Some (type_info t)) (body_zero t) [] 0))
    | None => Panic nil_dereference
    end.
Proof.
  intros Hp Hcs. apply run_calls_own in Hcs as [Hp' Hnil]; [|done]. split.
  - destruct (type_described t) as (md & Hmd & Hn & Hs & _). exists (reflection p'), (reflected p'), md.
    split; [by apply reflect_spec|]. split; [|destruct p', p; naive_solver].
    rewrite reflect_spec; [by destruct p'|]. destruct p'; [by right|done].
  - rewrite type_Reset_with. destruct p' as [m|].
    + destruct p; [done|]. by destruct Hnil as [_ Hnil]; specialize (Hnil eq_refl).
    + by destruct Hnil as [-> _].
Qed.

(** The stand-in codec is lossless: every message of every generated type whose
    strings are UTF-8 is written, and reading what was written with the schema of the
    type's descriptor gives the message back, also when fields of a newer schema follow; a
    string that is not UTF-8 is refused. *)
Lemma messages_roundtrip (t : GoType) (x : body t) (fs : list (Z * wire_value)) :
  forallb (λ f, go_value f.2) (body_fields t x) = true →
  Forall wire_field_ok fs → Forall (λ f, f.1 ∉ (body_fields t x).*1) fs →
  if forallb (λ f, valid_text f.2) (body_fields t x)
  then ∃ b, Marshal t x = Ok b ∧ Unmarshal t b = Ok x ∧ Unmarshal t (b ++ append_fields fs) = Ok x
  else Marshal t x = Err errInvalidUTF8.
Proof.
  intros Hg Hfs Hnew. pose proof (marshal_result (body_fields t x) Hg) as Hm.
  destruct (forallb (λ f, valid_text f.2) _); [|done]. destruct Hm as [b Hb]. exists b.
  split; [done|]. split; [by apply Unmarshal_Marshal|by apply Unmarshal_extended].
Qed.

Section Witnesses.
Import ProtoStandIn.

Lemma generated_files_register_witness :
  ∃ v v' gz i w d md, file_init CardinalityProto (file_vars CardinalityProto) = Ret (tt, v) ∧
    describe [TQueryRequest; TAddRequest] v = Ret (tt, v') ∧
    type_Descriptor TQueryResponse v' = Ret ((gz, [i]), w) ∧ gunzip gz ≫= parse_File = Some d ∧
    file_Messages d !! Z.to_nat i = Some md ∧ md_Name md = "QueryResponse"%string.
Proof.
  destruct (generated_files_register CardinalityProto [TQueryRequest; TAddRequest])
    as (fd & v & v' & Hi & _ & _ & _ & _ & _ & Hd & _ & Ht); [by repeat constructor|].
  destruct (Ht TQueryResponse eq_refl) as (gz & i & w & d & md & Hrest).
  exists v, v', gz, i, w, d, md. split; [exact Hi|]. split; [exact Hd|exact Hrest].
Defined.

(** A group name that is not UTF-8 cannot be proposed. *)
Lemma invalid_text_refused :
  proto_Marshal (mkCommand "ADD" (string_of_list_byte [xff]) [x2a]) = Err errInvalidUTF8.
Proof. vm_compute. reflexivity. Qed.
End Witnesses.
