(* ===== verification/Raft.v ===== *)
(** * The Raft node (internal/raft/node.go)

    [Node] holds what the Go struct holds, except the engine and the store, which it
    shares with the server and the metrics collector: its methods run on the node
    together with that shared state ([Backend]). [applyEntries] is the state machine:
    it dispatches each committed command and persists the group it touched. The event
    loop holds no lock around it, so it is written as a [code] ([apply_code]): queries can
    run between any two calls of the engine. [applyEntries] is that code run alone.
    [log_calls] reads a log as the engine calls it stands for, and
    [applyEntries_spec] says that applying the log performs exactly those.

    Log output ([slog]) is not modelled. *)

From S2P Require Import Prelude GoBinary Code External Sketch Engine Handler RaftLib Store.
Local Open Scope Z_scope.

Definition snapshotThreshold : Z := 10000.

Record Peer := mkPeer { peer_ID : Z; peer_Addr : string }.

(** The channel for the answer of a proposal, by number. *)
Record propose := mkPropose { prop_data : list byte; prop_resultC : nat }.

Section Raft.
Context {Sk : Type} `{!Sketch Sk, !Algorithm Sk, !Badger, !Proto, !EtcdRaft, !MapRange, !Gob}.

Definition Backend : Type := Engine Sk * BadgerStore.

(** [stopC] and [doneC] are true when the channel is closed; [proposeC] is the buffer
    of the channel. *)
Record Node := mkNode {
  id : Z;
  node : RaftNode;
  storage : MemoryStorage;
  registry : Registry (Engine Sk);
  proposeC : list propose;
  stopC : bool;
  doneC : bool;
  appliedIdx : Z;
  snapCount : Z;
}.

Definition NewNode (nid : Z) (peers : list Peer) : Node :=
  let st := NewMemoryStorage in
  let cfg := {| cfg_ID := nid; cfg_ElectionTick := 10; cfg_HeartbeatTick := 1;
                cfg_MaxSizePerMsg := 4096; cfg_MaxInflightMsgs := 256 |} in
  let rpeers := peer_ID <$> peers in
  {| id := nid;
     node := StartNode cfg rpeers st;
     storage := st;
     registry := DefaultRegistry (Engine Sk);
     proposeC := [];
     stopC := false;
     doneC := false;
     appliedIdx := 0;
     snapCount := 0 |}.

(** ** Field updates *)

Definition set_node (x : RaftNode) (n : Node) : Node :=
  mkNode (id n) x (storage n) (registry n) (proposeC n) (stopC n) (doneC n)
    (appliedIdx n) (snapCount n).
Definition set_storage (x : MemoryStorage) (n : Node) : Node :=
  mkNode (id n) (node n) x (registry n) (proposeC n) (stopC n) (doneC n)
    (appliedIdx n) (snapCount n).
Definition set_applied (idx count : Z) (n : Node) : Node :=
  mkNode (id n) (node n) (storage n) (registry n) (proposeC n) (stopC n) (doneC n) idx count.

Definition update {T} (f : Node → Node) : prog (Node * T) unit :=
  λ st, Ret (tt, (f st.1, st.2)).

(** ** Applying committed entries *)

Fixpoint apply_code (entries : list Entry) : code (Node * Backend) unit :=
  match entries with
  | [] => Done tt
  | e :: entries' =>
      if decide (ent_Type e ≠ EntryNormal ∨ length (ent_Data e) = 0%nat) then apply_code entries'
      else match proto_Unmarshal (ent_Data e) with
      | Err _ => apply_code entries'
      | Ok cmd =>
          do! reg := reading (λ st, registry st.1) in
          do! err := at_snd (at_fst (dispatch_code reg (Some cmd) (Some engine_Adder))) in
          match err with
          | Some _ => apply_code entries'
          | None =>
              do! _ := access (on_snd (engine_Persist (cmd_Group cmd)
                                         (λ b, Save (cmd_Group cmd) b))) in
              do! _ := access (update (λ n, set_applied (ent_Index e) (wrap64 (snapCount n + 1)) n)) in
              apply_code entries'
          end
      end
  end.

Definition applyEntries (entries : list Entry) : prog (Node * Backend) unit := run_body (apply_code entries).

(** ** Snapshots *)

Definition apply_snapshot (snap : Snapshot) : prog (Node * Backend) (option error) := λ st,
  let r := ms_ApplySnapshot snap (storage st.1) in Ret (r.1, (set_storage r.2 st.1, st.2)).

Definition snapshot_code : code (Node * Backend) unit :=
  do! counters := reading (λ st, (snapCount st.1, appliedIdx st.1)) in
  let '(count, idx) := counters in
  if decide (count < snapshotThreshold) then Done tt
  else
    do! r := access (on_snd (on_fst engine_Marshal)) in
    match r with
    | Err _ => Done tt
    | Ok data =>
        do! err := access (apply_snapshot {| snap_Data := data; snap_Index := idx; snap_Term := 1 |}) in
        match err with
        | Some _ => Done tt
        | None =>
            do! _ := access (update (λ n, set_storage (ms_Compact idx (storage n)).2 n)) in
            access (update (λ n, set_applied (appliedIdx n) 0 n))
        end
    end.

Definition maybeSnapshot : prog (Node * Backend) unit := run_body snapshot_code.

(** The [Ready] case of the loop of [Run]. *)
Definition ready_code (entries committed : list Entry) : code (Node * Backend) unit :=
  do! _ := access (update (λ n, set_storage (ms_Append entries (storage n)).2 n)) in
  do! _ := apply_code committed in
  do! _ := access (update (λ n, set_node (rn_Advance (node n)) n)) in
  snapshot_code.

Definition handleReady (entries committed : list Entry) : prog (Node * Backend) unit :=
  run_body (ready_code entries committed).

(** ** Proposals and status *)

(** The command [ProposeAdd] builds, and its bytes. *)
Definition add_command (group : string) (i : Z) : Command :=
  {| cmd_Type := TypeAdd; cmd_Group := group; cmd_Payload := AppendUvarint [] i |}.

Definition Status (n : Node) : Z * bool * Z :=
  let '(term, lead) := rn_Status (node n) in
  (term, bool_decide (lead ≠ 0 ∧ lead = id n), appliedIdx n).

End Raft.
Arguments Node Sk {_}.
Arguments Backend Sk {_}.

(** ** The log as engine calls *)

Section Log.
Context {Sk : Type} `{AlgorithmLaws Sk, !Badger, !Proto, !EtcdRaft, !MapRange, !Gob}.
Implicit Types (e : Engine Sk) (s : BadgerStore) (n : Node Sk) (t : Entry) (es : list Entry).

(** The command of an entry that is not skipped. *)
Definition entry_cmd t : option Command :=
  if decide (ent_Type t ≠ EntryNormal ∨ length (ent_Data t) = 0%nat) then None
  else match proto_Unmarshal (ent_Data t) with Err _ => None | Ok cmd => Some cmd end.

Definition entry_calls t : list call :=
  match entry_cmd t with Some cmd => (cmd_calls cmd).1 | None => [] end.
Definition log_calls es : list call := es ≫= entry_calls.

(** The entries that dispatch without error. *)
Definition applied t : Prop :=
  match entry_cmd t with Some cmd => cmd_result (Sk := Sk) cmd = None | None => False end.
#[export] Instance applied_dec t : Decision (applied t).
Proof. unfold applied. destruct (entry_cmd t); apply _. Defined.

Definition meta_step n t : Node Sk :=
  if decide (applied t) then set_applied (ent_Index t) (wrap64 (snapCount n + 1)) n else n.

(** What one entry does to the store: the bytes of the group it touched, or an error. *)
Definition persist_step (cmd : Command) e s s' : Prop :=
  match view e !! cmd_Group cmd with
  | None => s' = s
  | Some sk => ∃ err, Save (cmd_Group cmd) (sk_Bytes sk) s = Ret (err, s')
  end.

Lemma persist_step_exists cmd e s :
  engine_ok e → ∃ r s', persist_step cmd e s s' ∧
    engine_Persist (cmd_Group cmd) (λ b, Save (cmd_Group cmd) b) (e, s) = Ret (r, (e, s')).
Proof.
  intros Hok. rewrite engine_Persist_spec by done. unfold persist_step.
  destruct (view e !! cmd_Group cmd) as [sk|]; [|by eauto].
  destruct (Save_spec (cmd_Group cmd) (sk_Bytes sk) s) as (err & s' & E & _). rewrite E. eauto.
Qed.

(** One entry: what it does to the node, the engine and the store. *)
Lemma applyEntry_spec t es n e s :
  engine_ok e → registry n = DefaultRegistry _ →
  ∃ e' s', applyEntries (t :: es) (n, (e, s)) = applyEntries es (meta_step n t, (e', s')) ∧
    engine_ok e' ∧ view e' = spec_calls (entry_calls t) (view e) ∧
    match entry_cmd t with
    | Some cmd => if decide (applied t) then persist_step cmd e' s s' else s' = s
    | None => s' = s
    end.
Proof.
  intros Hok Hreg. unfold applyEntries at 1. cbn [apply_code]. fold (applyEntries es).
  unfold meta_step, entry_calls.
  destruct (entry_cmd t) as [cmd|] eqn:Ecmd.
  2:{ exists e, s. rewrite (decide_False (P := applied t)) by (unfold applied; rewrite Ecmd; tauto).
      unfold entry_cmd in Ecmd. destruct (decide _); [done|]. by destruct (proto_Unmarshal _). }
  pose proof Ecmd as Ec. unfold entry_cmd in Ec.
  destruct (decide _) as [|Hskip]; [done|]. destruct (proto_Unmarshal _) as [c|]; [injection Ec as ->|done].
  destruct (Dispatch_refines cmd e Hok) as (e' & Ed & Hok' & Hv & _).
  unfold Dispatch in Ed. rewrite run_and_then. unfold bind. rewrite run_reading. cbn [fst snd]. rewrite Hreg.
  rewrite run_and_then. unfold bind. rewrite run_at_snd. unfold on_snd. cbn [fst snd].
  unfold Backend. rewrite run_at_fst. unfold on_fst. cbn [fst snd]. rewrite Ed.
  assert (applied t ↔ cmd_result (Sk := Sk) cmd = None) as Ha by (unfold applied; by rewrite Ecmd).
  destruct (cmd_result cmd) as [err|].
  - exists e', s. by rewrite !(decide_False (P := applied t)) by naive_solver.
  - destruct (persist_step_exists cmd e' s Hok') as (r & s' & Hp & Es').
    exists e', s'. rewrite !(decide_True (P := applied t)) by naive_solver.
    rewrite run_and_then. unfold bind. rewrite run_access. unfold on_snd. cbn [fst snd]. by rewrite Es'.
Qed.

Lemma meta_step_registry n t : registry (meta_step n t) = registry n.
Proof. unfold meta_step. by case_decide. Qed.

Lemma spec_calls_app cs cs' (m : gmap string Sk) :
  spec_calls (cs ++ cs') m = spec_calls cs' (spec_calls cs m).
Proof. apply foldl_app. Qed.

(** A run of the log with the store's intermediate states, for inductions. *)
Lemma applyEntries_spec es n e s :
  engine_ok e → registry n = DefaultRegistry _ →
  ∃ e' s', applyEntries es (n, (e, s)) = Ret (tt, (foldl meta_step n es, (e', s'))) ∧
    engine_ok e' ∧ view e' = spec_calls (log_calls es) (view e).
Proof.
  revert n e s. induction es as [|t es IH]; intros n e s Hok Hreg; [by exists e, s|].
  destruct (applyEntry_spec t es n e s Hok Hreg) as (e1 & s1 & -> & Hok1 & Hv1 & _).
  destruct (IH (meta_step n t) e1 s1 Hok1) as (e' & s' & E & Hok' & Hv).
  { by rewrite meta_step_registry. }
  exists e', s'. split_and_go; [done|done|]. rewrite Hv, Hv1.
  change (log_calls (t :: es)) with (entry_calls t ++ log_calls es). by rewrite spec_calls_app.
Qed.

Lemma log_calls_ok es : Forall call_ok (log_calls es).
Proof.
  unfold log_calls. apply Forall_bind. apply Forall_forall. intros t _. simpl.
  unfold entry_calls. destruct (entry_cmd t); [apply cmd_calls_ok|constructor].
Qed.

(** *** The node's counters *)

Lemma meta_fields es n :
  foldl meta_step n es =
  set_applied (default (appliedIdx n) (ent_Index <$> last (filter applied es)))
    (Nat.iter (length (filter applied es)) (λ c, wrap64 (c + 1)) (snapCount n)) n.
Proof.
  induction es as [|t es IH] using rev_ind; [by destruct n|].
  rewrite foldl_snoc, IH, filter_app, filter_cons, filter_nil.
  unfold meta_step. case_decide; [|by rewrite app_nil_r].
  rewrite last_snoc, length_app. cbn [length]. rewrite Nat.add_1_r. done.
Qed.

Lemma iter_wrap (k : nat) (c : Z) : u64 c → Nat.iter k (λ c, wrap64 (c + 1)) c = wrap64 (c + Z.of_nat k).
Proof.
  intros Hc. induction k as [|k IH]; simpl.
  - rewrite Z.add_0_r. unfold wrap64. by rewrite Z.mod_small.
  - rewrite IH. unfold wrap64. rewrite Zplus_mod_idemp_l. f_equal. lia.
Qed.

(** *** What is persisted *)

(** The store holds exactly the bytes of the engine's sketches. *)
Definition persisted e s : Prop := store_view s = sk_Bytes <$> view e.

(** An entry that either dispatches without error or fails before it changes
    anything; only a batch cut short is neither. *)
Definition clean t : Prop :=
  match entry_cmd t with
  | Some cmd => cmd_result (Sk := Sk) cmd = None ∨ cmd_Type cmd ≠ TypeBatchAdd
  | None => True
  end.

Definition call_group (c : call) : string := match c with CAdd g _ => g | CMerge g _ _ => g end.

Lemma cmd_calls_group cmd : Forall (λ c, call_group c = cmd_Group cmd) (cmd_calls cmd).1.
Proof.
  unfold cmd_calls. destruct (Uvarint (cmd_Payload cmd)) as [x k].
  repeat case_decide; try (by repeat constructor).
  destruct (batch_ids _ _ _ _) as [ids err]. cbn [fst]. apply Forall_fmap.
  by apply Forall_forall.
Qed.

Lemma spec_call_ne c (m : gmap string Sk) g :
  call_group c ≠ g → spec_call c m !! g = m !! g.
Proof.
  destruct c as [g' i|g' algo b]; simpl; intros Hne.
  - unfold spec_Add. by rewrite lookup_insert_ne.
  - case_decide; [done|]. destruct (alg_Parse b); [|done].
    unfold spec_Merge. by rewrite lookup_insert_ne.
Qed.

Lemma spec_calls_ne cs (m : gmap string Sk) g g' :
  Forall (λ c, call_group c = g) cs → g ≠ g' → spec_calls cs m !! g' = m !! g'.
Proof.
  intros Hcs Hne. revert m. induction Hcs as [|c cs Hc Hcs IH]; intros m; simpl; [done|].
  rewrite IH. apply spec_call_ne. congruence.
Qed.

(** A call present in a group keeps the group. *)
Lemma spec_calls_Some cs (m : gmap string Sk) g : is_Some (m !! g) → is_Some (spec_calls cs m !! g).
Proof.
  revert m. induction cs as [|c cs IH]; intros m Hm; simpl; [done|]. apply IH.
  destruct (decide (call_group c = g)) as [E|]; [|by rewrite spec_call_ne].
  destruct c as [g' i|g' algo b]; simpl in *; subst.
  - unfold spec_Add. rewrite lookup_insert_eq. by eexists.
  - case_decide; [done|]. destruct (alg_Parse b); [|done].
    unfold spec_Merge. rewrite lookup_insert_eq. by eexists.
Qed.

(** A command that fails, a batch apart, changes nothing. *)
Lemma failed_cmd_nop cmd (m : gmap string Sk) :
  cmd_result (Sk := Sk) cmd ≠ None → cmd_Type cmd ≠ TypeBatchAdd →
  spec_calls (cmd_calls cmd).1 m = m.
Proof.
  unfold cmd_result, cmd_calls. destruct (Uvarint (cmd_Payload cmd)) as [x k].
  intros Hr Hb. rewrite (decide_False (P := cmd_Type cmd = TypeBatchAdd)) in * by done.
  destruct (decide (cmd_Type cmd = TypeAdd)).
  { destruct (decide _); [done|]. by destruct Hr. }
  destruct (decide (cmd_Type cmd = TypeMergeSketch)); [|done].
  destruct (decide (k ≤ 0)); [done|]. destruct (decide (_ < x)); [done|].
  cbn [fst spec_calls foldl spec_call] in *. unfold spec_calls. simpl.
  destruct (decide _); [done|]. destruct (alg_Parse _) eqn:Hp; [|done].
  destruct Hr. simpl. rewrite decide_False by done. by rewrite Hp.
Qed.

Lemma saveErrors_mono g b s err s' :
  Save g b s = Ret (err, s') → saveErrors s ≤ saveErrors s' ∧
  (saveErrors s' = saveErrors s → err = None) ∧
  store_view s' = (match err with None => <[g := b]> (store_view s) | Some _ => store_view s end).
Proof.
  intros E. destruct (Save_spec g b s) as (err' & s'' & E' & Hv & _ & He).
  rewrite E in E'. simplify_eq. destruct err'; (split; [lia|]); split; try done; lia.
Qed.

Lemma persist_step_errors cmd e s s' :
  persist_step cmd e s s' → saveErrors s ≤ saveErrors s'.
Proof.
  unfold persist_step. destruct (view e !! cmd_Group cmd); [|by intros ->].
  intros [err Hs]. by apply saveErrors_mono in Hs as [? _].
Qed.

(** Persisting the touched group after a command keeps the store in step. *)
Lemma persist_step_keeps cmd e e' s s' :
  persisted e s → view e' = spec_calls (cmd_calls cmd).1 (view e) →
  persist_step cmd e' s s' → saveErrors s' = saveErrors s → persisted e' s'.
Proof.
  unfold persisted, persist_step. intros Hp Hv Hs E.
  assert (∀ g, cmd_Group cmd ≠ g → view e' !! g = view e !! g) as Hne.
  { intros g Hg. rewrite Hv. eapply spec_calls_ne; [apply cmd_calls_group|done]. }
  destruct (view e' !! cmd_Group cmd) as [sk|] eqn:Eg.
  - destruct Hs as [err Hs]. apply saveErrors_mono in Hs as (_ & Hok & Hsv).
    rewrite Hsv, (Hok E), Hp. apply map_eq. intros g.
    destruct (decide (cmd_Group cmd = g)) as [<-|Hg].
    + by rewrite lookup_insert_eq, lookup_fmap, Eg.
    + by rewrite lookup_insert_ne, !lookup_fmap, Hne.
  - subst s'. rewrite Hp. apply map_eq. intros g. rewrite !lookup_fmap.
    destruct (decide (cmd_Group cmd = g)) as [<-|Hg]; [|by rewrite Hne].
    rewrite Eg. destruct (view e !! cmd_Group cmd) as [sk|] eqn:Ev; [|done].
    destruct (spec_calls_Some (cmd_calls cmd).1 (view e) (cmd_Group cmd)) as [x Hx]; [by rewrite Ev|].
    rewrite <- Hv in Hx. congruence.
Qed.

(** One clean entry. *)
Lemma clean_entry_keeps t e e' s s' :
  clean t → view e' = spec_calls (entry_calls t) (view e) →
  match entry_cmd t with
  | Some cmd => if decide (applied t) then persist_step cmd e' s s' else s' = s
  | None => s' = s
  end →
  persisted e s → saveErrors s' = saveErrors s → persisted e' s'.
Proof.
  unfold clean, entry_calls. intros Ht Hv Hs Hp E.
  destruct (entry_cmd t) as [cmd|] eqn:Ec; [|subst; unfold persisted; by rewrite Hv].
  destruct (decide (applied t)) as [Ha|Ha]; unfold applied in Ha; rewrite Ec in Ha.
  - by eapply persist_step_keeps.
  - subst s'. unfold persisted. rewrite Hv, failed_cmd_nop; [done|done|]. by destruct Ht.
Qed.

(** Applying a clean log keeps engine and store in step, unless a write failed. *)
Lemma applyEntries_persisted es n e s :
  engine_ok e → registry n = DefaultRegistry _ → Forall clean es →
  ∃ e' s', applyEntries es (n, (e, s)) = Ret (tt, (foldl meta_step n es, (e', s'))) ∧
    engine_ok e' ∧ view e' = spec_calls (log_calls es) (view e) ∧
    saveErrors s ≤ saveErrors s' ∧
    (persisted e s → saveErrors s' = saveErrors s → persisted e' s').
Proof.
  revert n e s. induction es as [|t es IH]; intros n e s Hok Hreg Hcl; [by exists e, s|].
  apply Forall_cons in Hcl as [Ht Hcl].
  destruct (applyEntry_spec t es n e s Hok Hreg) as (e1 & s1 & -> & Hok1 & Hv1 & Hs1).
  assert (saveErrors s ≤ saveErrors s1) as Hle1.
  { destruct (entry_cmd t); [|by subst]. case_decide; [|by subst]. by eapply persist_step_errors. }
  destruct (IH (meta_step n t) e1 s1 Hok1) as (e' & s' & E & Hok' & Hv & Hle & Hp);
    [by rewrite meta_step_registry|done|].
  exists e', s'. split_and_go; [done|done| |lia|].
  - rewrite Hv, Hv1. change (log_calls (t :: es)) with (entry_calls t ++ log_calls es).
    by rewrite spec_calls_app.
  - intros Hpe Es. apply Hp; [|lia]. apply (clean_entry_keeps t e e1 s s1); auto with lia.
Qed.
End Log.
