(* ===== verification/Main.v ===== *)
(** * Startup (cmd/server/main.go)

    The part of [run] that computes: opening the store, rebuilding the engine from
    it, building the ring from the peer list, choosing the node's own address and
    creating the Raft node. The listeners, the gateway and the shutdown sequence
    that follow are in [Serve]. *)

From S2P Require Import Prelude External Sketch Engine Handler RaftLib Router Store Raft.
Local Open Scope Z_scope.

(** ** Go's [strings.Split] on a one-byte separator, and [int] of a [uint64] *)

Fixpoint strings_Split (s : string) (sep : ascii) : list string :=
  match s with
  | EmptyString => [EmptyString]
  | String c s' =>
      if decide (c = sep) then EmptyString :: strings_Split s' sep
      else match strings_Split s' sep with
           | [] => [String c EmptyString]
           | w :: ws => String c w :: ws
           end
  end.

Definition int_of_u64 (x : Z) : Z := if decide (x < 2 ^ 63) then x else x - 2 ^ 64.

(** The flags that startup reads. *)
Record Flags := mkFlags {
  dataDir : string;
  nodeID : Z;
  peersFlag : string;
  metricsMaxGroups : Z;
}.

Section Main.
Context {Sk : Type} `{!Sketch Sk, !Algorithm Sk, !Badger, !Proto, !EtcdRaft, !Murmur3}.

(** ** Rebuilding the engine *)

(** The callback given to [LoadAll]: the engine and the count of restored groups. *)
Definition restore_fn (group : string) (b : list byte) : prog (Engine Sk * Z) (option error) :=
  let* err := on_fst (engine_Restore group b) in
  match err with
  | Some e => ret (Some e)
  | None => let* st := get in let* _ := put (st.1, st.2 + 1) in ret None
  end.

Definition restore : prog (BadgerStore * (Engine Sk * Z)) (option error) := LoadAll restore_fn.

(** ** The ring and the own address *)

(** [peerAddrs[*nodeID-1]] under its guard. *)
Definition self_addr (nid : Z) (peerAddrs : list string) : outcome string :=
  if decide (nid > 0 ∧ int_of_u64 nid ≤ Z.of_nat (length peerAddrs)) then
    match peerAddrs !! Z.to_nat (nid - 1) with
    | Some a => Ret a
    | None => Panic "index out of range"
    end
  else Ret EmptyString.

Definition build_ring (peerAddrs : list string) : Ring :=
  foldl (λ r addr, AddNode addr r) Router.New peerAddrs.

(** ** [run], up to the server *)

Record System := mkSystem {
  sys_backend : Backend Sk;
  sys_node : Node Sk;
  sys_ring : option Ring;
  sys_selfAddr : string;
  sys_maxGroups : Z;
  sys_restored : Z;
}.

Definition startup (f : Flags) (observed errors : Z) : outcome (result System) :=
  match Open (dataDir f) observed errors with
  | Err err => Ret (Err (EOpenStore err))
  | Ok st =>
      match restore (st, (NewEngine ∅, 0)) with
      | Panic msg => Panic msg
      | Ret (Some err, _) => Ret (Err (ERestore err))
      | Ret (None, (st, (eng, restored))) =>
          let mk ring self :=
            Ret (Ok {| sys_backend := (eng, st);
                       sys_node := NewNode (nodeID f) [mkPeer (nodeID f) EmptyString];
                       sys_ring := ring;
                       sys_selfAddr := self;
                       sys_maxGroups := metricsMaxGroups f;
                       sys_restored := restored |}) in
          if decide (peersFlag f ≠ EmptyString) then
            let peerAddrs := strings_Split (peersFlag f) "," in
            match self_addr (nodeID f) peerAddrs with
            | Panic msg => Panic msg
            | Ret self => mk (Some (build_ring peerAddrs)) self
            end
          else mk None EmptyString
      end
  end.

(** The readiness predicate. *)
Definition ready (n : Node Sk) : bool := let '(_, isLeader, _) := Status n in isLeader.

End Main.
Arguments System Sk {_ _}.

(** ** What [restore] leaves *)

Section Restore.
Context {Sk : Type} `{AlgorithmLaws Sk, !Badger}.
Implicit Types (e : Engine Sk) (s : BadgerStore).

Lemma restore_fn_ok g b sk e k :
  engine_ok e → alg_Parse b = Ok sk →
  ∃ e', restore_fn g b (e, k) = Ret (None, (e', k + 1)) ∧ engine_ok e' ∧
    view e' = <[g := sk]> (view e).
Proof.
  intros Hok Hp. destruct (engine_Restore_refines e g b sk Hok Hp) as (e' & E & Hok' & Hv & _).
  exists e'. unfold restore_fn, bind, on_fst. cbn [fst snd]. by rewrite E.
Qed.

Lemma restore_fn_error g b err e k :
  alg_Parse b = Err err → restore_fn g b (e, k) = Ret (Some (ErrParse g err), (e, k)).
Proof.
  intros Hp. unfold restore_fn, bind, on_fst. cbn [fst snd]. by rewrite (engine_Restore_error e g b err).
Qed.

(** Entries that all parse are all installed. *)
Lemma for_each_restore es e k :
  engine_ok e → NoDup es.*1 → Forall (λ p, ∃ sk : Sk, alg_Parse p.2 = Ok sk) es →
  ∃ e', for_each restore_fn es (e, k) = Ret (None, (e', k + Z.of_nat (length es))) ∧
    engine_ok e' ∧
    (∀ g b sk, (g, b) ∈ es → alg_Parse b = Ok sk → view e' !! g = Some sk) ∧
    (∀ g, g ∉ es.*1 → view e' !! g = view e !! g).
Proof.
  revert e k. induction es as [|[g b] es IH]; intros e k Hok Hnd Hp.
  { exists e. rewrite Z.add_0_r. split_and_go; try done. by intros g b sk []%not_elem_of_nil. }
  apply Forall_cons in Hp as [[sk Hsk] Hp]. simpl in Hsk.
  rewrite fmap_cons in Hnd. apply NoDup_cons in Hnd as [Hg Hnd].
  destruct (restore_fn_ok g b sk e k Hok Hsk) as (e1 & E1 & Hok1 & Hv1).
  destruct (IH e1 (k + 1) Hok1 Hnd Hp) as (e' & E & Hok' & Hin & Hout).
  exists e'. cbn [for_each]. rewrite (bind_Ret _ _ _ _ _ E1), E.
  split_and_go; [do 3 f_equal; cbn [length]; lia|done| |].
  - intros g' b' sk' [Heq|Hin']%elem_of_cons Hs'; [|by eapply Hin].
    simplify_eq. rewrite Hout, Hv1 by done. rewrite lookup_insert_eq. congruence.
  - intros g' [Hne Hn']%not_elem_of_cons. by rewrite Hout, Hv1, lookup_insert_ne by done.
Qed.

(** An entry that does not parse stops the traversal with its error. *)
Lemma for_each_restore_fails es e k :
  engine_ok e → Exists (λ p, ∃ err, alg_Parse (Sk := Sk) p.2 = Err err) es →
  ∃ g err e' k', for_each restore_fn es (e, k) = Ret (Some (ErrParse g err), (e', k')).
Proof.
  intros Hok He. revert e k Hok. induction es as [|[g b] es IH]; intros e k Hok.
  { by apply Exists_nil in He. }
  destruct (alg_Parse (Sk := Sk) b) as [sk|err] eqn:Hp.
  - destruct (restore_fn_ok g b sk e k Hok Hp) as (e1 & E1 & Hok1 & _).
    cbn [for_each]. rewrite (bind_Ret _ _ _ _ _ E1). apply IH; [|done].
    apply Exists_cons in He as [[err Herr]|He]; [|done]. simpl in Herr. congruence.
  - exists g, err, e, k. cbn [for_each].
    by rewrite (bind_Ret _ _ _ _ _ (restore_fn_error g b err e k Hp)).
Qed.

(** Restoring from a store in which every sketch parses. *)
Lemma restore_ok s (m : gmap string Sk) :
  readable s →
  (∀ g, match store_view s !! g, m !! g with
        | Some b, Some sk => ∃ sk', alg_Parse b = Ok sk' ∧ sk' ≡ sk
        | None, None => True
        | _, _ => False
        end) →
  ∃ e', restore (s, (NewEngine ∅, 0)) =
      Ret (None, (s, (e', Z.of_nat (size (store_view s))))) ∧
    engine_ok e' ∧ view e' ≡ m.
Proof.
  intros Hr Hm. destruct (LoadAll_spec s) as (es & err & _ & Hnd & Hin & Herr & Hall & HL).
  rewrite Herr in HL by done. specialize (Hall (Herr Hr)).
  destruct (for_each_restore es (NewEngine ∅) 0) as (e' & E & Hok & Hv & Hn).
  - apply empty_engine_ok.
  - done.
  - apply Forall_forall. intros [g b] Hgb. specialize (Hm g). rewrite (Hin g b Hgb) in Hm.
    destruct (m !! g); [|done]. destruct Hm as (sk' & Hp & _). eauto.
  - exists e'. split_and_go; [|done|].
    + unfold restore. rewrite HL. unfold on_snd, bind. cbn [fst snd]. rewrite E. simpl.
      do 4 f_equal. rewrite <- length_map_to_list. by rewrite <- Hall.
    + intros g. specialize (Hm g). destruct (store_view s !! g) as [b|] eqn:Eb.
      * destruct (m !! g) as [sk|]; [|done]. destruct Hm as (sk' & Hp & Heq).
        rewrite (Hv g b sk'); [by constructor| |done]. rewrite Hall. by apply elem_of_map_to_list.
      * destruct (m !! g); [done|]. rewrite Hn.
        { rewrite view_lookup. simpl. by rewrite lookup_empty. }
        intros ([g' b] & -> & Hgb)%list_elem_of_fmap. apply Hin in Hgb. simpl in Eb. congruence.
Qed.

Lemma restore_fails s g b err :
  readable s → store_view s !! g = Some b → alg_Parse (Sk := Sk) b = Err err →
  ∃ g' err' st, restore (Sk := Sk) (s, (NewEngine ∅, 0)) = Ret (Some (ErrParse g' err'), st).
Proof.
  intros Hr Hb Hp. destruct (LoadAll_spec s) as (es & err0 & _ & _ & _ & Herr & Hall & HL).
  specialize (Hall (Herr Hr)).
  destruct (for_each_restore_fails es (NewEngine ∅) 0) as (g' & err' & e' & k' & E).
  - apply empty_engine_ok.
  - apply Exists_exists. exists (g, b). split; [|by eauto]. rewrite Hall.
    by apply elem_of_map_to_list.
  - exists g', err', (s, (e', k')). unfold restore. rewrite HL. unfold on_snd, bind.
    cbn [fst snd]. by rewrite E.
Qed.

(** A store in step with an engine restores to an equivalent engine. *)
Lemma restore_persisted e s :
  engine_ok e → persisted e s → readable s →
  ∃ e' k, restore (s, (NewEngine ∅, 0)) = Ret (None, (s, (e', k))) ∧
    engine_ok e' ∧ view e' ≡ view e.
Proof.
  intros Hok Hp Hr. destruct (restore_ok s (view e) Hr) as (e' & E & Hok' & Hv); [|by eauto].
  intros g. rewrite Hp, lookup_fmap. destruct (view e !! g) as [sk|] eqn:Eg; simpl; [|done].
  by apply law_roundtrip; eapply view_ok.
Qed.

End Restore.
