(* ===== verification/RaftProps.v ===== *)
(** * Theorems on the Raft node

    Applying a log refines its engine calls; replicas that applied the same commands
    agree; the store stays in step with the engine as long as no write fails and no
    batch is cut short, so that a restart recovers the state; a snapshot holds the
    state it was taken from. *)

From S2P Require Import Prelude GoBinary Code External Sketch SketchValue Float64.
From S2P Require Import Hll Estimate Bitmap Algorithms Engine EngineProps Handler HandlerProps.
From S2P Require Import RaftLib Router Store Raft Main MessagesProps.
Local Open Scope Z_scope.

Section Props.
Context {Sk : Type} `{AlgorithmLaws Sk, !Badger, !Proto, !EtcdRaft, !MapRange, !Gob}.
Implicit Types (e : Engine Sk) (s : BadgerStore) (n : Node Sk) (es : list Entry).

(** ** Snapshots on every branch *)

Lemma maybeSnapshot_spec n e s :
  engine_ok e →
  maybeSnapshot (n, (e, s)) =
  Ret (tt, (
    if decide (snapCount n < snapshotThreshold) then n
    else match gob_Encode (sk_Bytes <$> view e) with
    | Err _ => n
    | Ok data =>
        match ms_ApplySnapshot (mkSnapshot data (appliedIdx n) 1) (storage n) with
        | (Some _, ms) => set_storage ms n
        | (None, ms) => set_applied (appliedIdx n) 0 (set_storage (ms_Compact (appliedIdx n) ms).2 n)
        end
    end, (e, s))).
Proof.
  intros Hok. unfold maybeSnapshot, snapshot_code. rewrite run_and_then. unfold bind. rewrite run_reading.
  cbn [fst snd]. destruct (decide _); [done|]. rewrite run_and_then. unfold bind. rewrite run_access.
  unfold on_snd, on_fst. cbn [fst snd]. rewrite engine_Marshal_spec by done.
  destruct (gob_Encode _) as [data|]; [|done]. rewrite run_and_then. unfold bind. rewrite run_access.
  unfold apply_snapshot. cbn [fst snd]. by destruct (ms_ApplySnapshot _ _) as [[err|] ms].
Qed.

Lemma gob_snapshot_restores e e2 data :
  engine_ok e → gob_Encode (sk_Bytes <$> view e) = Ok data →
  ∃ e3, engine_Unmarshal data e2 = Ret (None, e3) ∧ engine_ok e3 ∧ view e3 ≡ view e.
Proof.
  intros Hok Hd. destruct (engine_Unmarshal_ok e2 data (sk_Bytes <$> view e) (gob_roundtrip _ _ Hd))
    as (e3 & E & Hok3 & Hin & Hout).
  - intros g b Hb. rewrite lookup_fmap in Hb.
    destruct (view e !! g) as [sk|] eqn:Eg; simplify_eq/=. destruct (law_roundtrip sk) as (sk' & Hp & _); [by eapply (view_ok e)|eauto].
  - exists e3. split_and_go; [done|done|]. intros g.
    destruct (view e !! g) as [sk|] eqn:Eg.
    + destruct (law_roundtrip sk) as (sk' & Hp & Heq); [by eapply (view_ok e)|].
      rewrite (Hin g (sk_Bytes sk) sk'); [by constructor| |done]. by rewrite lookup_fmap, Eg.
    + rewrite Hout; [done|]. by rewrite lookup_fmap, Eg.
Qed.

Lemma proto_add_cmd g i data t :
  proto_Marshal (add_command g i) = Ok data → ent_Type t = EntryNormal → ent_Data t = data →
  entry_cmd t = Some (add_command g i).
Proof.
  intros Hm Ht Hd. unfold entry_cmd. rewrite Hd, decide_False.
  - by rewrite (proto_roundtrip _ _ Hm).
  - intros [?|Hl]; [done|]. apply length_zero_iff_nil in Hl.
    by eapply (proto_nonempty (add_command g i)).
Qed.

(** ** Claims *)

(** C21: Applying any committed entries terminates without a panic, whatever their bytes:
    configuration changes, empty and undecodable entries are skipped, and the engine ends
    where the calls of the commands, in log order, take it. The applied index is the index
    of the last entry that dispatched without error, and the snapshot counter goes up by
    the number of these, modulo 2^64; nothing else of the node changes. *)
Theorem raft_apply_refines es n e s :
  engine_ok e → registry n = DefaultRegistry _ → u64 (snapCount n) →
  ∃ e' s', applyEntries es (n, (e, s)) =
    Ret (tt, (set_applied
                (default (appliedIdx n) (ent_Index <$> last (filter (applied (Sk := Sk)) es)))
                (wrap64 (snapCount n + Z.of_nat (length (filter (applied (Sk := Sk)) es)))) n,
              (e', s'))) ∧
    engine_ok e' ∧ view e' = spec_calls (log_calls es) (view e).
Proof.
  intros Hok Hreg Hu. destruct (applyEntries_spec es n e s Hok Hreg) as (e' & s' & E & Hok' & Hv).
  exists e', s'. by rewrite E, meta_fields, iter_wrap.
Qed.

(** Two replicas whose logs hold the same commands, in any order, with any
    repetitions and split into any batches, end with equivalent engines: they know the
    same groups and report the same cardinalities. *)
Lemma raft_replicas_agree es1 es2 n1 n2 s1 s2 :
  registry n1 = DefaultRegistry _ → registry n2 = DefaultRegistry _ →
  (∀ c, c ∈ log_calls es1 ↔ c ∈ log_calls es2) →
  ∃ m1 e1 t1 m2 e2 t2,
    applyEntries es1 (n1, (NewEngine ∅, s1)) = Ret (tt, (m1, (e1, t1))) ∧
    applyEntries es2 (n2, (NewEngine ∅, s2)) = Ret (tt, (m2, (e2, t2))) ∧
    view (Sk := Sk) e1 ≡ view e2 ∧
    ∀ g, ∃ r, engine_Cardinality g e1 = Ret (r, e1) ∧ engine_Cardinality g e2 = Ret (r, e2).
Proof.
  intros Hr1 Hr2 Hset.
  destruct (applyEntries_spec es1 n1 (NewEngine ∅) s1) as (e1 & t1 & E1 & Hok1 & Hv1);
    [apply empty_engine_ok|done|].
  destruct (applyEntries_spec es2 n2 (NewEngine ∅) s2) as (e2 & t2 & E2 & Hok2 & Hv2);
    [apply empty_engine_ok|done|].
  assert (view e1 ≡ view e2) as Hv.
  { rewrite Hv1, Hv2. apply spec_calls_set; [apply log_calls_ok|done|].
    apply engine_ok_view, empty_engine_ok. }
  eexists _, e1, t1, _, e2, t2. split_and_go; [done|done|done|]. intros g.
  rewrite !engine_Cardinality_spec by done. eexists. split; [done|].
  specialize (Hv g). inversion Hv as [a b Hab Ea Eb|Ea Eb]; [|done].
  by rewrite (law_cardinality a b).
Qed.

(** C5: Restart: a node applies a log from an empty store; if no store write failed (the
    error counter did not move) and no batch was cut short, then restoring a new engine
    from the store succeeds with sketches equivalent to those before the restart, and
    applying again any commands of that log changes nothing. *)
Theorem restart_recovers es n s :
  registry n = DefaultRegistry _ → store_view s = ∅ → Forall (clean (Sk := Sk)) es →
  ∃ n' e' s', applyEntries es (n, (NewEngine ∅, s)) = Ret (tt, (n', (e', s'))) ∧
    (saveErrors s' = saveErrors s → readable s' →
     ∃ e'' k, restore (s', (NewEngine ∅, 0)) = Ret (None, (s', (e'', k))) ∧
       view (Sk := Sk) e'' ≡ view e' ∧
       ∀ es2 n2 t2, registry n2 = DefaultRegistry _ →
         (∀ c, c ∈ log_calls es2 → c ∈ log_calls es) →
         ∃ n3 e3 t3, applyEntries es2 (n2, (e'', t2)) = Ret (tt, (n3, (e3, t3))) ∧
           view e3 ≡ view e').
Proof.
  intros Hreg Hs Hcl.
  destruct (applyEntries_persisted es n (NewEngine ∅) s) as (e' & s' & E & Hok' & Hv & _ & Hp);
    [apply empty_engine_ok|done|done|].
  eexists _, e', s'. split; [done|]. intros Herr Hread.
  assert (persisted e' s') as Hpe by (apply Hp; [by unfold persisted; rewrite Hs|done]).
  destruct (restore_persisted e' s' Hok' Hpe Hread) as (e'' & k & Er & Hok'' & Heq).
  exists e'', k. split_and_go; [done|done|]. intros es2 n2 t2 Hr2 Hsub.
  destruct (applyEntries_spec es2 n2 e'' t2 Hok'' Hr2) as (e3 & t3 & E3 & Hok3 & Hv3).
  eexists _, e3, t3. split; [done|]. rewrite Hv3.
  assert (map_ok (view (NewEngine (Sk := Sk) ∅))) as Hm0 by apply engine_ok_view, empty_engine_ok.
  trans (spec_calls (log_calls es2) (view e')).
  - apply (fold_proper (≡) map_ok call_ok);
      auto using log_calls_ok, engine_ok_view, spec_call_proper, spec_call_ok.
  - rewrite Hv. apply spec_calls_replay; auto using log_calls_ok.
Qed.

(** C23: When the counter has reached the threshold and the encoding and the storage
    succeed, a snapshot is taken: it carries the applied index and the encoded sketches,
    the counter is reset, and any engine that loads its data gets sketches equivalent to
    the node's. In every other case (the counter is below the threshold, the encoding
    fails, the storage refuses) the node is as before, so the next batch tries again. The
    engine and the store are never changed. *)
Theorem snapshot_holds_state n e s :
  engine_ok e →
  ∃ n', maybeSnapshot (n, (e, s)) = Ret (tt, (n', (e, s))) ∧
    (∀ data ms, snapshotThreshold ≤ snapCount n → gob_Encode (sk_Bytes <$> view e) = Ok data →
       ms_ApplySnapshot (mkSnapshot data (appliedIdx n) 1) (storage n) = (None, ms) →
       snapCount n' = 0 ∧ appliedIdx n' = appliedIdx n ∧
       ms_snapshot (storage n') = Some (mkSnapshot data (appliedIdx n) 1) ∧
       ∀ e2, ∃ e3, engine_Unmarshal data e2 = Ret (None, e3) ∧ view e3 ≡ view e) ∧
    (snapCount n < snapshotThreshold ∨ (∃ err, gob_Encode (sk_Bytes <$> view e) = Err err) ∨
     (∃ data err ms, gob_Encode (sk_Bytes <$> view e) = Ok data ∧
        ms_ApplySnapshot (mkSnapshot data (appliedIdx n) 1) (storage n) = (Some err, ms)) → n' = n).
Proof.
  intros Hok. rewrite maybeSnapshot_spec by done. eexists. split; [done|]. split.
  - intros data ms Hc Hd Ha. rewrite decide_False by lia. rewrite Hd, Ha. split_and_go; [done|done| |].
    + destruct (ms_Compact (appliedIdx n) ms) as [err ms'] eqn:Ec. simpl.
      apply ms_Compact_keeps in Ec as [-> _]. by apply ms_ApplySnapshot_ok in Ha as [-> _].
    + intros e2. destruct (gob_snapshot_restores e e2 data Hok Hd) as (e3 & E & _ & Hv). eauto.
  - intros [Hc|[[err Hd]|(data & err & ms & Hd & Ha)]]; [by rewrite decide_True|by rewrite Hd; case_decide|].
    rewrite Hd, Ha. case_decide; [done|]. apply ms_ApplySnapshot_err in Ha as ->. by destruct n.
Qed.

(** C39: Taking a snapshot cuts the log at the applied index: entries that were appended
    to the storage but not yet applied are gone from it. *)
Theorem snapshot_drops_tail n e s data ms :
  engine_ok e → snapshotThreshold ≤ snapCount n →
  gob_Encode (sk_Bytes <$> view e) = Ok data →
  ms_ApplySnapshot (mkSnapshot data (appliedIdx n) 1) (storage n) = (None, ms) →
  appliedIdx n < ms_LastIndex (storage n) →
  ∃ n', maybeSnapshot (n, (e, s)) = Ret (tt, (n', (e, s))) ∧
    ms_LastIndex (storage n') < ms_LastIndex (storage n).
Proof.
  intros Hok Hc Hd Ha Hlt. rewrite maybeSnapshot_spec by done. rewrite Hd.
  eexists. split; [done|]. rewrite decide_False by lia. rewrite Ha.
  destruct (ms_Compact (appliedIdx n) ms) as [err ms'] eqn:Ec. simpl.
  apply ms_Compact_keeps in Ec as [_ ->]. apply ms_ApplySnapshot_ok in Ha as [_ ->]. done.
Qed.

(** What ProposeAdd encodes is what the state machine applies: a committed entry with
    the proposed bytes adds exactly that id to that group, records the entry's index and
    counts it. *)
Lemma propose_apply_roundtrip g i data t n e s :
  engine_ok e → registry n = DefaultRegistry _ → u64 i →
  proto_Marshal (add_command g i) = Ok data → ent_Type t = EntryNormal → ent_Data t = data →
  ∃ e' s', applyEntries [t] (n, (e, s)) =
      Ret (tt, (set_applied (ent_Index t) (wrap64 (snapCount n + 1)) n, (e', s'))) ∧
    engine_ok e' ∧ view e' = spec_Add g i (view e).
Proof.
  intros Hok Hreg Hi Hm Ht Hd. pose proof (proto_add_cmd g i data t Hm Ht Hd) as Hcmd.
  pose proof (cmd_calls_add g i Hi) as Hc.
  destruct (applyEntries_spec [t] n e s Hok Hreg) as (e' & s' & E & Hok' & Hv).
  exists e', s'. rewrite E. split_and_go; [|done|].
  - simpl. unfold meta_step. rewrite decide_True; [done|]. unfold applied. rewrite Hcmd.
    unfold cmd_result, add_command. unfold encode_add in Hc. by rewrite Hc.
  - rewrite Hv. unfold log_calls, entry_calls. simpl. rewrite Hcmd. unfold add_command.
    unfold encode_add in Hc. by rewrite Hc.
Qed.

(** C38: A committed BATCH_ADD entry that announces more ids than it holds changes the
    engine but not the store: the ids it does hold are counted until the next restart and
    then lost, and the applied index does not advance. *)
Theorem batch_cut_short_not_persisted g (ids : list Z) (k : Z) t n e s :
  engine_ok e → registry n = DefaultRegistry _ → Forall u64 ids → u64 k →
  Z.of_nat (length ids) < k →
  entry_cmd t = Some (mkCommand TypeBatchAdd g (AppendUvarint [] k ++ concat (AppendUvarint [] <$> ids))) →
  ∃ e', applyEntries [t] (n, (e, s)) = Ret (tt, (n, (e', s))) ∧
    view e' = spec_calls (CAdd g <$> ids) (view e).
Proof.
  intros Hok Hreg Hids Hk Hlt Hcmd.
  pose proof (cmd_calls_batch g ids k Hids Hk ltac:(lia)) as Hc.
  destruct (applyEntry_spec t [] n e s Hok Hreg) as (e' & s' & E & Hok' & Hv & Hs).
  assert (¬ applied (Sk := Sk) t) as Hna.
  { unfold applied. rewrite Hcmd. unfold cmd_result. rewrite Hc, first_error_adds.
    by rewrite decide_True. }
  rewrite Hcmd in Hs. rewrite decide_False in Hs by done. subst s'.
  exists e'. split.
  - rewrite E. unfold meta_step. by rewrite decide_False.
  - rewrite Hv. unfold entry_calls. by rewrite Hcmd, Hc.
Qed.

(** A store write that fails is counted but does not stop the entry from being
    applied: the applied index and the snapshot counter advance, the engine has the id,
    and the store still has what it had. *)
Theorem failed_save_still_applied g i data t n e s err s1 :
  engine_ok e → registry n = DefaultRegistry _ → u64 i →
  proto_Marshal (add_command g i) = Ok data → ent_Type t = EntryNormal → ent_Data t = data →
  Save g (sk_Bytes (sk_insert (spec_sketch g (view e)) i)) s = Ret (Some err, s1) →
  ∃ e' s', applyEntries [t] (n, (e, s)) =
      Ret (tt, (set_applied (ent_Index t) (wrap64 (snapCount n + 1)) n, (e', s'))) ∧
    view e' = spec_Add g i (view e) ∧ store_view s' = store_view s ∧
    saveErrors s' = saveErrors s + 1.
Proof.
  intros Hok Hreg Hi Hm Ht Hd Hs. pose proof (proto_add_cmd g i data t Hm Ht Hd) as Hcmd.
  pose proof (cmd_calls_add g i Hi) as Hc. unfold encode_add in Hc.
  destruct (applyEntry_spec t [] n e s Hok Hreg) as (e' & s' & E & Hok' & Hv & Hp).
  assert (applied (Sk := Sk) t) as Ha.
  { unfold applied. rewrite Hcmd. unfold cmd_result, add_command. by rewrite Hc. }
  assert (view e' = spec_Add g i (view e)) as Hv'.
  { rewrite Hv. unfold entry_calls. rewrite Hcmd. unfold add_command. by rewrite Hc. }
  rewrite Hcmd in Hp. rewrite decide_True in Hp by done. unfold persist_step in Hp.
  cbn [add_command cmd_Group] in Hp. rewrite Hv' in Hp. unfold spec_Add in Hp.
  rewrite lookup_insert_eq in Hp. destruct Hp as [err' Hp].
  rewrite Hs in Hp. injection Hp as <- <-.
  destruct (Save_spec g (sk_Bytes (sk_insert (spec_sketch g (view e)) i)) s)
    as (err' & s' & Es & Hsv & _ & He). rewrite Hs in Es. injection Es as <- <-.
  exists e', s1. split_and_go; [|done|done|done].
  rewrite E. unfold meta_step. by rewrite decide_True.
Qed.

End Props.

(** ** Witnesses *)

Section Witnesses.
Import Concrete StandIn RaftStandIn.

Definition node_ex : Node SketchV := NewNode 1 [mkPeer 1 EmptyString].
Definition store_ex : BadgerStore := mkStore (∅ : @DB StandIn.badger) 0 0.

Definition add_data (g : string) (i : Z) : list byte :=
  match proto_Marshal (add_command g i) with Ok d => d | Err _ => [] end.
Definition add_entry (idx : Z) (g : string) (i : Z) : Entry := mkEntry 1 idx EntryNormal (add_data g i).
Definition log_ex : list Entry :=
  [mkEntry 1 1 EntryConfChange []; add_entry 2 "a" 7; add_entry 3 "b" 300; mkEntry 1 4 EntryNormal []].

Lemma raft_apply_refines_witness :
  ∃ e' s', applyEntries log_ex (node_ex, (NewEngine ∅, store_ex)) =
    Ret (tt, (set_applied 3 2 node_ex, (e', s'))).
Proof.
  destruct (raft_apply_refines log_ex node_ex (NewEngine ∅) store_ex) as (e' & s' & E & _).
  - apply empty_engine_ok.
  - reflexivity.
  - split; [discriminate|reflexivity].
  - exists e', s'. exact E.
Defined.

Lemma log_ex_clean : Forall (clean (Sk := SketchV)) log_ex.
Proof. unfold log_ex. repeat apply Forall_cons_2; [vm_compute; auto..|apply Forall_nil_2]. Qed.

(** No write fails on the way. *)
Lemma log_ex_saved :
  match applyEntries log_ex (node_ex, (NewEngine ∅, store_ex)) with
  | Ret (_, (_, (_, s))) => saveErrors s
  | Panic _ => -1
  end = 0.
Proof. vm_compute. reflexivity. Qed.

Lemma restart_recovers_witness :
  ∃ n' e' s' e'' k, applyEntries log_ex (node_ex, (NewEngine ∅, store_ex)) = Ret (tt, (n', (e', s'))) ∧
    restore (s', (NewEngine ∅, 0)) = Ret (None, (s', (e'', k))) ∧ view (Sk := SketchV) e'' ≡ view e'.
Proof.
  destruct (restart_recovers log_ex node_ex store_ex) as (n' & e' & s' & E & HR).
  - reflexivity.
  - reflexivity.
  - apply log_ex_clean.
  - pose proof log_ex_saved as Hs. rewrite E in Hs.
    destruct HR as (e'' & k & Er & Hv & _); [exact Hs|intros it _; by eexists|].
    exists n', e', s', e'', k. split; [exact E|]. split; [exact Er|exact Hv].
Defined.

Definition due_ex : Node SketchV := set_storage (None, 12000) (set_applied 11000 10000 node_ex).

Lemma snapshot_holds_state_witness :
  ∃ n', maybeSnapshot (due_ex, (NewEngine ∅, store_ex)) = Ret (tt, (n', (NewEngine ∅, store_ex))) ∧
    snapCount n' = 0 ∧ ms_snapshot (storage n') = Some (mkSnapshot marshalled_ex 11000 1).
Proof.
  destruct (snapshot_holds_state due_ex (NewEngine ∅) store_ex) as (n' & E & Ht & _).
  - apply empty_engine_ok.
  - destruct (Ht marshalled_ex (Some (mkSnapshot marshalled_ex 11000 1), 11000)) as (Hc & _ & Hs & _);
      [discriminate|reflexivity|reflexivity|].
    exists n'. split; [exact E|]. split; [exact Hc|exact Hs].
Defined.

Lemma snapshot_drops_tail_witness :
  ∃ n', maybeSnapshot (due_ex, (NewEngine ∅, store_ex)) = Ret (tt, (n', (NewEngine ∅, store_ex))) ∧
    ms_LastIndex (storage n') < ms_LastIndex (storage due_ex).
Proof.
  eapply (snapshot_drops_tail due_ex (NewEngine ∅) store_ex marshalled_ex).
  - apply empty_engine_ok.
  - discriminate.
  - reflexivity.
  - reflexivity.
  - reflexivity.
Defined.

(** Five ids announced, two present. *)
Definition cut_cmd : Command :=
  mkCommand TypeBatchAdd "a" (AppendUvarint [] 5 ++ concat (AppendUvarint [] <$> [7; 8])).
Definition cut_entry : Entry :=
  mkEntry 1 5 EntryNormal (match proto_Marshal cut_cmd with Ok d => d | Err _ => [] end).

Lemma batch_cut_short_not_persisted_witness :
  ∃ e', applyEntries [cut_entry] (node_ex, (NewEngine ∅, store_ex)) =
      Ret (tt, (node_ex, (e', store_ex))) ∧
    view e' = spec_calls (CAdd "a" <$> [7; 8]) (view (NewEngine ∅)).
Proof.
  apply (batch_cut_short_not_persisted "a" [7; 8] 5 cut_entry node_ex (NewEngine ∅) store_ex).
  - apply empty_engine_ok.
  - reflexivity.
  - repeat constructor; done.
  - split; [discriminate|reflexivity].
  - reflexivity.
  - reflexivity.
Defined.

(** A database that refuses keys of more than three bytes. *)
Definition full_store : @BadgerStore (StandIn.badger_limit 3) := @mkStore (StandIn.badger_limit 3) ∅ 0 0.

Lemma failed_save_ex :
  ∃ e' s', applyEntries (H := StandIn.badger_limit 3) [add_entry 5 "a" 7] (node_ex, (NewEngine ∅, full_store)) =
      Ret (tt, (set_applied 5 (wrap64 (snapCount node_ex + 1)) node_ex, (e', s'))) ∧
    view e' = spec_Add "a" 7 (view (NewEngine ∅)) ∧ store_view s' = store_view full_store ∧
    saveErrors s' = saveErrors full_store + 1.
Proof.
  eapply (failed_save_still_applied "a" 7 (add_data "a" 7) (add_entry 5 "a" 7) node_ex (NewEngine ∅) full_store).
  - apply empty_engine_ok.
  - reflexivity.
  - split; [discriminate|reflexivity].
  - reflexivity.
  - reflexivity.
  - reflexivity.
  - reflexivity.
Defined.

End Witnesses.
