(* ===== verification/Server.v ===== *)
(** * The gRPC service (internal/server/grpc.go, internal/server/metrics.go)

    A [Server] is the Go struct with the process's metrics. The handlers run on any
    state [St] in which the server can be read and written ([lens]), because a
    handler that forwards a request changes more than its own server: the peers it
    calls are operations on the same [St] ([Peers]). A single server is
    [St := Server]; [Cluster] instantiates [St] with all servers.

    Durations are not modelled; the histogram of durations is the number of its
    observations. *)

From S2P Require Import Prelude External Sketch Engine Handler Router Store Pb.
Local Open Scope Z_scope.

(** ** google.golang.org/grpc, as far as the server calls it *)

Definition codes_Unknown : Z := 2.
Definition codes_InvalidArgument : Z := 3.
Definition codes_Internal : Z := 13.

(** A connection knows the target it was dialled with. *)
Class Grpc := {
  Conn : Type;
  DialOption : Type;
  insecure_credentials : DialOption;
  grpc_Dial : string → list DialOption → result Conn;
  conn_Close : Conn → option error;
  conn_Target : Conn → string;
  grpc_Dial_target : ∀ addr opts c, grpc_Dial addr opts = Ok c → conn_Target c = addr;
}.

(** A service client on a connection. *)
Record Peers (St : Type) `{!Grpc} := mkPeers {
  client_Add : Conn → AddRequest → prog St (result AddResponse);
  client_BatchAdd : Conn → BatchAddRequest → prog St (result AddResponse);
  client_Query : Conn → QueryRequest → prog St (result QueryResponse);
}.
Arguments client_Add {St _} _ _ _.
Arguments client_BatchAdd {St _} _ _ _.
Arguments client_Query {St _} _ _ _.

(** The RaftNode interface. *)
Class RaftNodeI (N : Type) := {
  raft_ProposeAdd : string → Z → prog N (option error);
}.

(** ** Metrics *)

Record Metrics := mkMetrics {
  requestsTotal : gmap (string * string) Z;
  requestDuration : gmap string Z;
  raftProposalsTotal : gmap string Z;
  forwardedRequestsTotal : gmap (string * string) Z;
  forwardedErrorsTotal : gmap (string * string) Z;
  batchSize : list Z;
}.

Definition NewMetrics : Metrics := mkMetrics ∅ ∅ ∅ ∅ ∅ [].

(** [Inc] on a labelled counter. *)
Definition inc `{Countable K} (k : K) (m : gmap K Z) : gmap K Z := <[k := default 0 (m !! k) + 1]> m.

Definition count_request (method status : string) (m : Metrics) : Metrics :=
  mkMetrics (inc (method, status) (requestsTotal m)) (inc method (requestDuration m))
    (raftProposalsTotal m) (forwardedRequestsTotal m) (forwardedErrorsTotal m) (batchSize m).
Definition count_proposal (status : string) (m : Metrics) : Metrics :=
  mkMetrics (requestsTotal m) (requestDuration m) (inc status (raftProposalsTotal m))
    (forwardedRequestsTotal m) (forwardedErrorsTotal m) (batchSize m).
Definition count_forward (peer method : string) (m : Metrics) : Metrics :=
  mkMetrics (requestsTotal m) (requestDuration m) (raftProposalsTotal m)
    (inc (peer, method) (forwardedRequestsTotal m)) (forwardedErrorsTotal m) (batchSize m).
Definition count_forward_error (peer method : string) (m : Metrics) : Metrics :=
  mkMetrics (requestsTotal m) (requestDuration m) (raftProposalsTotal m)
    (forwardedRequestsTotal m) (inc (peer, method) (forwardedErrorsTotal m)) (batchSize m).
Definition observe_batch (n : Z) (m : Metrics) : Metrics :=
  mkMetrics (requestsTotal m) (requestDuration m) (raftProposalsTotal m)
    (forwardedRequestsTotal m) (forwardedErrorsTotal m) (batchSize m ++ [n]).

(** ** The server *)

Section Server.
Context {Sk N : Type} `{!Sketch Sk, !Algorithm Sk, !Badger, !Murmur3, !Grpc, !RaftNodeI N}.

(** A nil [node] or [router] is [None]. *)
Record Server := mkServer {
  engine : Engine Sk;
  store : BadgerStore;
  node : option N;
  router : option Ring;
  selfAddr : string;
  dialOpts : list DialOption;
  conns : gmap string Conn;
  metrics : Metrics;
}.

Definition New (eng : Engine Sk) (st : BadgerStore) (nd : option N) (ring : option Ring)
    (self : string) : Server :=
  mkServer eng st nd ring self [] ∅ NewMetrics.

Definition SetDialOptions (opts : list DialOption) (s : Server) : Server :=
  mkServer (engine s) (store s) (node s) (router s) (selfAddr s) opts (conns s) (metrics s).
Definition set_backend (b : Engine Sk * BadgerStore) (s : Server) : Server :=
  mkServer b.1 b.2 (node s) (router s) (selfAddr s) (dialOpts s) (conns s) (metrics s).
Definition set_node (n : N) (s : Server) : Server :=
  mkServer (engine s) (store s) (Some n) (router s) (selfAddr s) (dialOpts s) (conns s) (metrics s).
Definition set_conns (c : gmap string Conn) (s : Server) : Server :=
  mkServer (engine s) (store s) (node s) (router s) (selfAddr s) (dialOpts s) c (metrics s).
Definition set_metrics (m : Metrics) (s : Server) : Server :=
  mkServer (engine s) (store s) (node s) (router s) (selfAddr s) (dialOpts s) (conns s) m.

(** Closing every connection; the errors are dropped. *)
Definition Close `{!MapRange} (s : Server) : list (option error) :=
  (λ kc, conn_Close kc.2) <$> map_range (conns s).

Section Handlers.
Context {St : Type} (look : St → Server) (write : Server → St → St) (peers : Peers St).

Definition get_server : prog St Server := λ st, Ret (look st, st).
Definition modify (f : Server → Server) : prog St unit := λ st, Ret (tt, write (f (look st)) st).
Definition metric (f : Metrics → Metrics) : prog St unit :=
  modify (λ s, set_metrics (f (metrics s)) s).

(** The connection to a peer, dialled on first use; its client is [client_Add] and the
    other operations of [peers] on it. *)
Definition getPeerClient (addr : string) : prog St (result Conn) :=
  let* s := get_server in
  match conns s !! addr with
  | Some conn => ret (Ok conn)
  | None =>
      match grpc_Dial addr (insecure_credentials :: dialOpts s) with
      | Err err => ret (Err err)
      | Ok conn =>
          let* _ := modify (λ s, set_conns (<[addr := conn]> (conns s)) s) in
          ret (Ok conn)
      end
  end.

(** The owner of a group when it is another node: the guard shared by [addID],
    [BatchAdd] and [Query]. *)
Definition foreign_owner (group : string) : prog St (option string) :=
  let* s := get_server in
  match router s with
  | Some r =>
      if decide (selfAddr s ≠ EmptyString) then
        let* owner := lift (Resolve group r) in
        if decide (owner ≠ EmptyString ∧ owner ≠ selfAddr s) then ret (Some owner) else ret None
      else ret None
  | None => ret None
  end.

Definition dial_error (owner : string) (err : error) : error :=
  EStatusf codes_Internal ("dial peer " +:+ owner) err.

Definition addID (method group : string) (id : Z) : prog St (option error) :=
  let* foreign := foreign_owner group in
  match foreign with
  | Some owner =>
      let* _ := metric (count_forward owner method) in
      let* c := getPeerClient owner in
      match c with
      | Err err =>
          let* _ := metric (count_forward_error owner method) in
          ret (Some (dial_error owner err))
      | Ok conn =>
          let* r := client_Add peers conn (mkAddRequest group id) in
          match r with
          | Err err => let* _ := metric (count_forward_error owner method) in ret (Some err)
          | Ok _ => ret None
          end
      end
  | None =>
      let* s := get_server in
      match node s with
      | Some n =>
          let* p := lift (raft_ProposeAdd group id n) in
          let* _ := modify (set_node p.2) in
          match p.1 with
          | Some err =>
              let* _ := metric (count_proposal "error") in
              ret (Some (EStatusf codes_Internal "raft propose" err))
          | None => let* _ := metric (count_proposal "success") in ret None
          end
      | None =>
          let* p := lift (engine_AddAndPersist group id (λ b, Save group b) (engine s, store s)) in
          let* _ := modify (set_backend p.2) in
          match p.1 with
          | Some err => ret (Some (EStatusf codes_Internal "engine add" err))
          | None => ret None
          end
      end
  end.

(** Each handler's body returns the metric status it set with its result; the deferred
    function counts the request under that status. *)
Definition finish {A} (method : string) (body : prog St (string * result A)) : prog St (result A) :=
  let* r := body in
  let* _ := metric (count_request method r.1) in
  ret r.2.

Definition group_required : error := EStatus codes_InvalidArgument "group required".

Definition Add (req : AddRequest) : prog St (result AddResponse) :=
  finish "Add" (
    if decide (add_Group req = EmptyString) then ret ("error"%string, Err group_required)
    else
      let* err := addID "Add" (add_Group req) (add_Id req) in
      match err with
      | Some err => ret ("error"%string, Err err)
      | None => ret ("success"%string, Ok (mkAddResponse true))
      end).

Fixpoint BatchAdd_loop (group : string) (ids : list Z) : prog St (option error) :=
  match ids with
  | [] => ret None
  | v :: ids' =>
      let* err := addID "BatchAdd" group v in
      match err with
      | Some err => ret (Some err)
      | None => BatchAdd_loop group ids'
      end
  end.

Definition BatchAdd (req : BatchAddRequest) : prog St (result AddResponse) :=
  finish "BatchAdd" (
    if decide (batch_Group req = EmptyString) then ret ("error"%string, Err group_required)
    else
      let* foreign := foreign_owner (batch_Group req) in
      match foreign with
      | Some owner =>
          let* _ := metric (count_forward owner "BatchAdd") in
          let* c := getPeerClient owner in
          match c with
          | Err err =>
              let* _ := metric (count_forward_error owner "BatchAdd") in
              ret ("error"%string, Err (dial_error owner err))
          | Ok conn =>
              let* r := client_BatchAdd peers conn req in
              match r with
              | Err err =>
                  let* _ := metric (count_forward_error owner "BatchAdd") in
                  ret ("error"%string, Err err)
              | Ok resp => ret ("success"%string, Ok resp)
              end
          end
      | None =>
          let* _ := metric (observe_batch (Z.of_nat (length (batch_Ids req)))) in
          let* err := BatchAdd_loop (batch_Group req) (batch_Ids req) in
          match err with
          | Some err => ret ("error"%string, Err err)
          | None => ret ("success"%string, Ok (mkAddResponse true))
          end
      end).

Definition Query (req : QueryRequest) : prog St (result QueryResponse) :=
  finish "Query" (
    if decide (query_Group req = EmptyString) then ret ("error"%string, Err group_required)
    else
      let* foreign := foreign_owner (query_Group req) in
      match foreign with
      | Some owner =>
          let* _ := metric (count_forward owner "Query") in
          let* c := getPeerClient owner in
          match c with
          | Err err =>
              let* _ := metric (count_forward_error owner "Query") in
              ret ("error"%string, Err (dial_error owner err))
          | Ok conn =>
              let* r := client_Query peers conn req in
              match r with
              | Err err =>
                  let* _ := metric (count_forward_error owner "Query") in
                  ret ("error"%string, Err err)
              | Ok resp => ret ("success"%string, Ok resp)
              end
          end
      | None =>
          let* s := get_server in
          let* p := lift (engine_Cardinality (query_Group req) (engine s)) in
          let card := match p.1 with Ok c => c | Err _ => 0 end in
          ret ("success"%string, Ok (mkQueryResponse (query_Group req) card))
      end).

End Handlers.
End Server.
Arguments Server Sk N {_ _}.
