(* ===== verification/ServerProps.v ===== *)
(** * Theorems on one server

    The handlers on each of their branches: a request this node owns in standalone
    and in Raft mode, a request it forwards, and a rejected one. Everything is proved
    for any state a server can be read from and written to. *)

From S2P Require Import Prelude External Sketch SketchValue Float64 Hll Estimate Bitmap Algorithms.
From S2P Require Import Engine EngineProps Handler Router Store Pb Server.
Local Open Scope Z_scope.

Section Props.
Context {Sk N : Type} `{AlgorithmLaws Sk, !Badger, !Murmur3, !Grpc, !RaftNodeI N}.
Context {St : Type} (look : St → Server Sk N) (write : Server Sk N → St → St) (peers : Peers St).
Context (look_write : ∀ s st, look (write s st) = s).
Context (write_write : ∀ s s' st, write s (write s' st) = write s st).
Implicit Types (st : St) (s : Server Sk N) (g : string).

(** ** The pieces *)

(** Where a server sends a group: [None] is here. *)
Definition owner_of s g : outcome (option string) :=
  match router s with
  | Some r =>
      if decide (selfAddr s ≠ EmptyString) then
        match Resolve g r with
        | Ret owner => Ret (if decide (owner ≠ EmptyString ∧ owner ≠ selfAddr s) then Some owner else None)
        | Panic msg => Panic msg
        end
      else Ret None
  | None => Ret None
  end.

Lemma foreign_owner_eq g st o :
  owner_of (look st) g = Ret o → foreign_owner look g st = Ret (o, st).
Proof.
  unfold owner_of, foreign_owner, bind, get_server, lift.
  destruct (router (look st)); [|by intros [= <-]].
  destruct (decide (selfAddr (look st) ≠ EmptyString)); [|by intros [= <-]].
  destruct (Resolve g _) as [owner|]; [|done]. intros [= <-]. by destruct (decide _).
Qed.

Lemma metric_eq f st : metric look write f st = Ret (tt, write (set_metrics (f (metrics (look st))) (look st)) st).
Proof. done. Qed.

(** What a local [addID] does to the server. *)
Definition add_error (err : option error) : option error :=
  match err with Some e => Some (EStatusf codes_Internal "engine add" e) | None => None end.

Lemma addID_local method g i st :
  owner_of (look st) g = Ret None → node (look st) = None →
  engine_ok (engine (look st)) → u64 i →
  ∃ err e' t',
    addID look write peers method g i st = Ret (add_error err, write (set_backend (e', t') (look st)) st) ∧
    engine_ok e' ∧ view e' = spec_Add g i (view (engine (look st))) ∧
    Save g (sk_Bytes (sk_insert (spec_sketch g (view (engine (look st)))) i)) (store (look st)) =
      Ret (err, t').
Proof.
  intros Ho Hn Hok Hi. unfold addID. rewrite (bind_Ret _ _ _ _ _ (foreign_owner_eq _ _ _ Ho)).
  unfold bind at 1, get_server. rewrite Hn.
  destruct (engine_AddAndPersist_spec (engine (look st)) (store (look st)) g i (λ b, Save g b) Hok Hi)
    as (e' & _ & Hok' & Hv & _ & E).
  destruct (Save_spec g (sk_Bytes (sk_insert (spec_sketch g (view (engine (look st)))) i)) (store (look st)))
    as (err & t' & Es & _).
  rewrite Es in E. exists err, e', t'. unfold bind, lift, modify. rewrite E. by destruct err.
Qed.

Lemma Add_local g i st :
  g ≠ EmptyString → owner_of (look st) g = Ret None → node (look st) = None →
  engine_ok (engine (look st)) → u64 i →
  ∃ err e' t',
    Add look write peers (mkAddRequest g i) st =
      Ret (match err with
           | None => Ok (mkAddResponse true)
           | Some x => Err (EStatusf codes_Internal "engine add" x)
           end,
           write (set_metrics (count_request "Add" (match err with None => "success" | Some _ => "error" end)
                                 (metrics (look st)))
                    (set_backend (e', t') (look st))) st) ∧
    engine_ok e' ∧ view e' = spec_Add g i (view (engine (look st))) ∧
    Save g (sk_Bytes (sk_insert (spec_sketch g (view (engine (look st)))) i)) (store (look st)) =
      Ret (err, t').
Proof.
  intros Hg Ho Hn Hok Hi.
  destruct (addID_local "Add" g i st Ho Hn Hok Hi) as (err & e' & t' & E & Hok' & Hv & Es).
  exists err, e', t'. split_and_go; [|done|done|done]. unfold Add, finish.
  cbn [add_Group add_Id]. rewrite decide_False by done. unfold bind. rewrite E.
  unfold metric, modify. destruct err; cbn; by rewrite look_write, write_write.
Qed.

Lemma Query_local g b st :
  g ≠ EmptyString → owner_of (look st) g = Ret None → engine_ok (engine (look st)) →
  Query look write peers (mkQueryRequest g b) st =
    Ret (Ok (mkQueryResponse g
               (match view (engine (look st)) !! g with Some sk => sk_Cardinality sk | None => 0 end)),
         write (set_metrics (count_request "Query" "success" (metrics (look st))) (look st)) st).
Proof.
  intros Hg Ho Hok. unfold Query, finish, bind. cbn [query_Group]. rewrite decide_False by done.
  rewrite (foreign_owner_eq _ _ _ Ho). unfold get_server, lift.
  rewrite engine_Cardinality_spec by done. cbn [fst snd]. by destruct (view _ !! g).
Qed.

(** ** Forwarding *)

(** The server after it has a connection to [owner] and has counted the forward. *)
Definition forwarding owner method conn s : Server Sk N :=
  set_conns (<[owner := conn]> (conns s)) (set_metrics (count_forward owner method (metrics s)) s).

Definition peer_conn s owner : result Conn :=
  match conns s !! owner with
  | Some c => Ok c
  | None => grpc_Dial owner (insecure_credentials :: dialOpts s)
  end.

Lemma getPeerClient_eq owner s st :
  getPeerClient look write owner (write s st) =
  match peer_conn s owner with
  | Ok c => Ret (Ok c, write (set_conns (<[owner := c]> (conns s)) s) st)
  | Err e => Ret (Err e, write s st)
  end.
Proof.
  unfold getPeerClient, bind, get_server, modify, peer_conn. rewrite look_write.
  destruct (conns s !! owner) as [c|] eqn:Ec.
  - rewrite insert_id by done. by destruct s.
  - destruct (grpc_Dial _ _); [|done]. by rewrite look_write, write_write.
Qed.

(** The start of a forwarded request, up to the call on the peer. *)
Lemma forward_start owner method conn st :
  peer_conn (look st) owner = Ok conn →
  (let* _ := metric look write (count_forward owner method) in
   getPeerClient look write owner) st =
  Ret (Ok conn, write (forwarding owner method conn (look st)) st).
Proof.
  intros Hc. rewrite (bind_Ret _ _ _ _ _ (metric_eq _ _)), getPeerClient_eq.
  unfold peer_conn in *. cbn [conns dialOpts set_metrics]. by rewrite Hc.
Qed.

Lemma Add_forward g i st owner conn :
  g ≠ EmptyString → owner_of (look st) g = Ret (Some owner) →
  peer_conn (look st) owner = Ok conn →
  Add look write peers (mkAddRequest g i) st =
  match client_Add peers conn (mkAddRequest g i) (write (forwarding owner "Add" conn (look st)) st) with
  | Ret (Ok _, st') =>
      Ret (Ok (mkAddResponse true),
           write (set_metrics (count_request "Add" "success" (metrics (look st'))) (look st')) st')
  | Ret (Err err, st') =>
      Ret (Err err,
           write (set_metrics (count_request "Add" "error"
                    (count_forward_error owner "Add" (metrics (look st')))) (look st')) st')
  | Panic msg => Panic msg
  end.
Proof.
  intros Hg Ho Hc. unfold Add, finish. cbn [add_Group add_Id]. rewrite decide_False by done.
  pose proof (forward_start owner "Add" conn st Hc) as HF. unfold bind in HF.
  unfold addID, bind. rewrite (foreign_owner_eq _ _ _ Ho).
  destruct (metric look write (count_forward owner "Add") st) as [[[] st1]|]; [|done].
  rewrite HF. destruct (client_Add _ _ _ _) as [[[r|err] st']|]; [done| |done].
  unfold ret, metric, modify. cbn [fst snd]. by rewrite look_write, write_write.
Qed.

Lemma Query_forward g b st owner conn :
  g ≠ EmptyString → owner_of (look st) g = Ret (Some owner) →
  peer_conn (look st) owner = Ok conn →
  Query look write peers (mkQueryRequest g b) st =
  match client_Query peers conn (mkQueryRequest g b) (write (forwarding owner "Query" conn (look st)) st) with
  | Ret (Ok r, st') =>
      Ret (Ok r,
           write (set_metrics (count_request "Query" "success" (metrics (look st'))) (look st')) st')
  | Ret (Err err, st') =>
      Ret (Err err,
           write (set_metrics (count_request "Query" "error"
                    (count_forward_error owner "Query" (metrics (look st')))) (look st')) st')
  | Panic msg => Panic msg
  end.
Proof.
  intros Hg Ho Hc. unfold Query, finish. cbn [query_Group]. rewrite decide_False by done.
  pose proof (forward_start owner "Query" conn st Hc) as HF. unfold bind in HF.
  unfold bind. rewrite (foreign_owner_eq _ _ _ Ho).
  destruct (metric look write (count_forward owner "Query") st) as [[[] st1]|]; [|done].
  rewrite HF. destruct (client_Query _ _ _ _) as [[[r|err] st']|]; [done| |done].
  unfold ret, metric, modify. cbn [fst snd]. by rewrite look_write, write_write.
Qed.

Lemma BatchAdd_forward g ids st owner conn :
  g ≠ EmptyString → owner_of (look st) g = Ret (Some owner) →
  peer_conn (look st) owner = Ok conn →
  BatchAdd look write peers (mkBatchAddRequest g ids) st =
  match client_BatchAdd peers conn (mkBatchAddRequest g ids)
          (write (forwarding owner "BatchAdd" conn (look st)) st) with
  | Ret (Ok r, st') =>
      Ret (Ok r,
           write (set_metrics (count_request "BatchAdd" "success" (metrics (look st'))) (look st')) st')
  | Ret (Err err, st') =>
      Ret (Err err,
           write (set_metrics (count_request "BatchAdd" "error"
                    (count_forward_error owner "BatchAdd" (metrics (look st')))) (look st')) st')
  | Panic msg => Panic msg
  end.
Proof.
  intros Hg Ho Hc. unfold BatchAdd, finish. cbn [batch_Group]. rewrite decide_False by done.
  pose proof (forward_start owner "BatchAdd" conn st Hc) as HF. unfold bind in HF.
  unfold bind. rewrite (foreign_owner_eq _ _ _ Ho).
  destruct (metric look write (count_forward owner "BatchAdd") st) as [[[] st1]|]; [|done].
  rewrite HF. destruct (client_BatchAdd _ _ _ _) as [[[r|err] st']|]; [done| |done].
  unfold ret, metric, modify. cbn [fst snd]. by rewrite look_write, write_write.
Qed.

(** The peer cannot be dialled: the forward, its failure and the request are counted. *)
Definition undialed owner method s : Server Sk N :=
  set_metrics (count_request method "error" (count_forward_error owner method
    (count_forward owner method (metrics s)))) s.

Lemma undialed_start owner method e st :
  peer_conn (look st) owner = Err e →
  (let* _ := metric look write (count_forward owner method) in
   getPeerClient look write owner) st =
  Ret (Err e, write (set_metrics (count_forward owner method (metrics (look st))) (look st)) st).
Proof.
  intros Hc. rewrite (bind_Ret _ _ _ _ _ (metric_eq _ _)), getPeerClient_eq.
  unfold peer_conn in *. cbn [conns dialOpts set_metrics]. by rewrite Hc.
Qed.

Lemma forward_undialed g st owner e :
  g ≠ EmptyString → owner_of (look st) g = Ret (Some owner) → peer_conn (look st) owner = Err e →
  (∀ i, Add look write peers (mkAddRequest g i) st =
     Ret (Err (dial_error owner e), write (undialed owner "Add" (look st)) st)) ∧
  (∀ ids, BatchAdd look write peers (mkBatchAddRequest g ids) st =
     Ret (Err (dial_error owner e), write (undialed owner "BatchAdd" (look st)) st)) ∧
  (∀ b, Query look write peers (mkQueryRequest g b) st =
     Ret (Err (dial_error owner e), write (undialed owner "Query" (look st)) st)).
Proof.
  intros Hg Ho Hc. unfold Add, BatchAdd, Query, addID, finish.
  cbn [add_Group add_Id batch_Group query_Group].
  split_and!; intros; rewrite decide_False by done; unfold bind; rewrite (foreign_owner_eq _ _ _ Ho).
  - pose proof (undialed_start owner "Add" e st Hc) as HF. unfold bind in HF.
    destruct (metric look write (count_forward owner "Add") st) as [[[] st1]|]; [|done].
    rewrite HF. unfold ret, metric, modify. cbn [fst snd]. by rewrite !look_write, !write_write.
  - pose proof (undialed_start owner "BatchAdd" e st Hc) as HF. unfold bind in HF.
    destruct (metric look write (count_forward owner "BatchAdd") st) as [[[] st1]|]; [|done].
    rewrite HF. unfold ret, metric, modify. cbn [fst snd]. by rewrite !look_write, !write_write.
  - pose proof (undialed_start owner "Query" e st Hc) as HF. unfold bind in HF.
    destruct (metric look write (count_forward owner "Query") st) as [[[] st1]|]; [|done].
    rewrite HF. unfold ret, metric, modify. cbn [fst snd]. by rewrite !look_write, !write_write.
Qed.

(** ** The owner's own handlers

    A server that owns the group serves the request alone: whatever surrounds it, the
    handler does what it does on the server by itself. *)
Definition lone : Peers (Server Sk N) :=
  mkPeers _ _ (λ _ _, ret (Err (EExternal "no peers"))) (λ _ _, ret (Err (EExternal "no peers")))
    (λ _ _, ret (Err (EExternal "no peers"))).
Definition itself s : Server Sk N := s.
Definition instead s (_ : Server Sk N) : Server Sk N := s.
Definition own_Add : AddRequest → prog (Server Sk N) (result AddResponse) := Add itself instead lone.
Definition own_BatchAdd : BatchAddRequest → prog (Server Sk N) (result AddResponse) := BatchAdd itself instead lone.
Definition own_Query : QueryRequest → prog (Server Sk N) (result QueryResponse) := Query itself instead lone.

(** A run on the server, put back where the server is. *)
Definition put_back {A} st (r : outcome (A * Server Sk N)) : outcome (A * St) :=
  match r with Ret (a, s) => Ret (a, write s st) | Panic msg => Panic msg end.

(** The routing of a server: who it is, its ring and its connections. *)
Definition same_place s s' : Prop :=
  router s' = router s ∧ selfAddr s' = selfAddr s ∧ conns s' = conns s ∧ dialOpts s' = dialOpts s.

#[local] Instance same_place_trans : Transitive same_place.
Proof. intros s1 s2 s3 (? & ? & ? & ?) (? & ? & ? & ?). unfold same_place. split_and!; congruence. Qed.

Lemma same_place_owner s s' g : same_place s s' → owner_of s' g = owner_of s g.
Proof. intros (E1 & E2 & _). unfold owner_of. by rewrite E1, E2. Qed.

Lemma own_foreign_owner s g : owner_of s g = Ret None → foreign_owner itself g s = Ret (None, s).
Proof.
  intros Ho. unfold foreign_owner, bind, get_server, lift, itself. unfold owner_of in Ho.
  destruct (router s); [|done]. case_decide; [|done]. destruct (Resolve g _); [|done].
  by case_decide.
Qed.

Lemma addID_alone method g i s st :
  owner_of s g = Ret None →
  addID look write peers method g i (write s st) = put_back st (addID itself instead lone method g i s) ∧
  ∀ r s', addID itself instead lone method g i s = Ret (r, s') → same_place s s'.
Proof.
  intros Ho. assert (owner_of (look (write s st)) g = Ret None) as Ho' by (by rewrite look_write).
  unfold addID, bind. rewrite (foreign_owner_eq g _ _ Ho').
  rewrite (own_foreign_owner s g Ho).
  unfold get_server, lift, metric, modify, instead, itself. rewrite look_write. destruct (node s) as [n|].
  - destruct (raft_ProposeAdd g i n) as [[err n']|]; [|done]. cbn [fst snd]. rewrite write_write.
    destruct err; cbn [put_back]; rewrite ?look_write, ?write_write; (split; [done|]); by intros r s' [= <- <-].
  - destruct (engine_AddAndPersist _ _ _ _) as [[err [e' t']]|]; [|done]. cbn [fst snd]. rewrite write_write.
    destruct err; unfold ret; cbn [put_back]; rewrite ?look_write; (split; [done|]); by intros r s' [= <- <-].
Qed.

Lemma BatchAdd_loop_alone g ids s st :
  owner_of s g = Ret None →
  BatchAdd_loop look write peers g ids (write s st) = put_back st (BatchAdd_loop itself instead lone g ids s) ∧
  ∀ r s', BatchAdd_loop itself instead lone g ids s = Ret (r, s') → same_place s s'.
Proof.
  revert s. induction ids as [|i ids IH]; intros s Ho; cbn [BatchAdd_loop].
  { split; [done|]. by intros r s' [= <- <-]. }
  destruct (addID_alone "BatchAdd" g i s st Ho) as [E Hk]. unfold bind. rewrite E.
  destruct (addID itself instead lone "BatchAdd" g i s) as [[[err|] s1]|]; cbn [put_back]; [| |done].
  - split; [done|]. intros r s' [= <- <-]. by apply (Hk (Some err)).
  - pose proof (Hk None s1 eq_refl) as Hs1. destruct (IH s1) as [E1 Hk1]; [by rewrite (same_place_owner s s1)|].
    split; [done|]. intros r s' Er. etrans; [exact Hs1|]. by apply (Hk1 r).
Qed.

Lemma same_place_metrics s s' f : same_place s s' → same_place s (set_metrics f s').
Proof. done. Qed.

(** The end of a handler: one request is counted. *)
Lemma finish_alone {A} method (body : prog St (string * result A)) (own : prog (Server Sk N) (string * result A)) s st :
  body (write s st) = put_back st (own s) → (∀ r s', own s = Ret (r, s') → same_place s s') →
  finish look write method body (write s st) = put_back st (finish itself instead method own s) ∧
  ∀ r s', finish itself instead method own s = Ret (r, s') → same_place s s'.
Proof.
  intros E Hk. unfold finish, bind. rewrite E. destruct (own s) as [[r s1]|]; [|done].
  cbn [put_back]. unfold metric, modify, itself, instead, ret. rewrite look_write, write_write.
  split; [done|]. intros r' s' [= <- <-]. by apply same_place_metrics, (Hk r).
Qed.

Lemma own_metric f s : metric itself instead f s = Ret (tt, set_metrics (f (metrics s)) s).
Proof. done. Qed.

Lemma Add_alone g i s st :
  owner_of s g = Ret None →
  Add look write peers (mkAddRequest g i) (write s st) = put_back st (own_Add (mkAddRequest g i) s) ∧
  ∀ r s', own_Add (mkAddRequest g i) s = Ret (r, s') → same_place s s'.
Proof.
  intros Ho. destruct (addID_alone "Add" g i s st Ho) as [E Hk]. apply finish_alone;
    cbn [add_Group add_Id]; (case_decide; [first [done|by intros r s' [= <- <-]]|]); unfold bind; rewrite ?E.
  - by destruct (addID itself instead lone "Add" g i s) as [[[err|] s1]|].
  - intros r s'. destruct (addID itself instead lone "Add" g i s) as [[[err|] s1]|] eqn:E1; [| |done];
      intros [= <- <-]; by eapply Hk.
Qed.

Lemma BatchAdd_alone g ids s st :
  owner_of s g = Ret None →
  BatchAdd look write peers (mkBatchAddRequest g ids) (write s st) =
    put_back st (own_BatchAdd (mkBatchAddRequest g ids) s) ∧
  ∀ r s', own_BatchAdd (mkBatchAddRequest g ids) s = Ret (r, s') → same_place s s'.
Proof.
  intros Ho. set (s1 := set_metrics (observe_batch (Z.of_nat (length ids)) (metrics s)) s).
  destruct (BatchAdd_loop_alone g ids s1 st Ho) as [E Hk]. apply finish_alone;
    cbn [batch_Group batch_Ids]; (case_decide; [first [done|by intros r s' [= <- <-]]|]); unfold bind.
  - rewrite (foreign_owner_eq g (write s st) None) by (by rewrite look_write).
    rewrite own_foreign_owner, metric_eq, own_metric, look_write, write_write by done.
    fold s1. rewrite E. by destruct (BatchAdd_loop itself instead lone g ids s1) as [[[err|] s2]|].
  - rewrite own_foreign_owner, own_metric by done. fold s1. intros r s'.
    destruct (BatchAdd_loop itself instead lone g ids s1) as [[[err|] s2]|] eqn:E1; [| |done];
      intros [= <- <-]; by eapply Hk.
Qed.

Lemma Query_alone g b s st :
  owner_of s g = Ret None →
  Query look write peers (mkQueryRequest g b) (write s st) = put_back st (own_Query (mkQueryRequest g b) s) ∧
  ∀ r s', own_Query (mkQueryRequest g b) s = Ret (r, s') → same_place s s'.
Proof.
  intros Ho. apply finish_alone; cbn [query_Group]; (case_decide; [first [done|by intros r s' [= <- <-]]|]); unfold bind.
  - rewrite (foreign_owner_eq g (write s st) None) by (by rewrite look_write).
    rewrite own_foreign_owner by done. unfold get_server, lift, itself. rewrite look_write.
    by destruct (engine_Cardinality g (engine s)) as [[r e']|].
  - rewrite own_foreign_owner by done. unfold get_server, lift, itself. intros r s'.
    destruct (engine_Cardinality g (engine s)) as [[x e']|]; [|done]. by intros [= <- <-].
Qed.

(** The owner acknowledges with ok. *)
Lemma own_Add_ok req s x s' : own_Add req s = Ret (Ok x, s') → x = mkAddResponse true.
Proof.
  unfold own_Add, Add, finish, bind. case_decide; [done|].
  destruct (addID _ _ _ _ _ _ _) as [[[err|] s1]|]; by intros [= <- _].
Qed.

(** ** Batches *)

Lemma owner_of_backend s bk g : owner_of (set_backend bk s) g = owner_of s g.
Proof. done. Qed.

Lemma BatchAdd_loop_local g ids s st :
  owner_of s g = Ret None → node s = None → engine_ok (engine s) → Forall u64 ids →
  ∃ k err e' t',
    BatchAdd_loop look write peers g ids (write s st) =
      Ret (add_error err, write (set_backend (e', t') s) st) ∧
    (k ≤ length ids)%nat ∧ (err = None → k = length ids) ∧
    engine_ok e' ∧ view e' = spec_calls (CAdd g <$> take k ids) (view (engine s)) ∧
    (err = None → ids ≠ [] → store_view t' !! g = sk_Bytes <$> view e' !! g).
Proof.
  intros Ho Hn Hok Hids. revert s Ho Hn Hok.
  induction Hids as [|i ids Hi Hids IH]; intros s Ho Hn Hok.
  { exists 0%nat, None, (engine s), (store s). split_and_go; try done. by destruct s. }
  destruct (addID_local "BatchAdd" g i (write s st)) as (err & e1 & t1 & E & Hok1 & Hv1 & Es);
    rewrite ?look_write in *; try done.
  rewrite write_write in E. cbn [BatchAdd_loop]. rewrite (bind_Ret _ _ _ _ _ E).
  destruct err as [x|].
  { exists 1%nat, (Some x), e1, t1. split_and_go; try done. simpl. lia. }
  destruct (IH (set_backend (e1, t1) s)) as (k & err & e' & t' & El & Hk & Hall & Hok' & Hv & Hst);
    [done|done|done|].
  exists (S k), err, e', t'. simpl in Hv, El. rewrite Hv1 in Hv. split_and_go.
  - exact El.
  - simpl. lia.
  - intros Herr. simpl. by rewrite (Hall Herr).
  - done.
  - done.
  - intros Herr _. destruct (decide (ids = [])) as [->|Hne]; [|by apply Hst].
    simpl in El. injection El as _ Ew. cbn in Ew.
    assert (set_backend (e', t') s = set_backend (e1, t1) s) as Eq.
    { by rewrite <- (look_write (set_backend (e', t') s) st), <- (look_write (set_backend (e1, t1) s) st), Ew. }
    injection Eq as -> ->.
    destruct (Save_spec g (sk_Bytes (sk_insert (spec_sketch g (view (engine s))) i)) (store s))
      as (err' & t'' & Es' & Hsv & _). rewrite Es in Es'. injection Es' as <- <-.
    rewrite Hsv, Hv1. unfold spec_Add. by rewrite !lookup_insert_eq.
Qed.

(** ** Claims *)

(** C24: Standalone, a group this node owns: Add terminates without a panic. It answers ok
    exactly when the store took the write, and then the stored bytes are those of the
    sketch that includes the id; on a store error it answers Internal although the id
    is counted. One request is counted under the status it reports, and a Query that
    follows sees the id. *)
Theorem add_acknowledged g i b st :
  g ≠ EmptyString → owner_of (look st) g = Ret None → node (look st) = None →
  engine_ok (engine (look st)) → u64 i →
  let sk := sk_insert (spec_sketch g (view (engine (look st)))) i in
  ∃ r st' st'', Add look write peers (mkAddRequest g i) st = Ret (r, st') ∧
    view (engine (look st')) = spec_Add g i (view (engine (look st))) ∧
    metrics (look st') =
      count_request "Add" (match r with Ok _ => "success" | Err _ => "error" end) (metrics (look st)) ∧
    match r with
    | Ok _ => store_view (store (look st')) = <[g := sk_Bytes sk]> (store_view (store (look st)))
    | Err _ => store_view (store (look st')) = store_view (store (look st))
    end ∧
    Query look write peers (mkQueryRequest g b) st' =
      Ret (Ok (mkQueryResponse g (sk_Cardinality sk)), st'').
Proof.
  intros Hg Ho Hn Hok Hi sk.
  destruct (Add_local g i st Hg Ho Hn Hok Hi) as (err & e' & t' & E & Hok' & Hv & Es).
  destruct (Save_spec g (sk_Bytes sk) (store (look st))) as (err' & t'' & Es' & Hsv & _).
  unfold sk in Es'. rewrite Es in Es'. injection Es' as <- <-.
  eexists _, _, _. split; [exact E|]. rewrite look_write. split_and_go.
  - done.
  - by destruct err.
  - cbn [store set_metrics set_backend snd]. by destruct err.
  - rewrite Query_local; rewrite ?look_write; try done.
    cbn [engine set_metrics set_backend fst]. rewrite Hv. unfold spec_Add.
    by rewrite lookup_insert_eq.
Qed.

(** Standalone, a batch for a group this node owns adds its ids in order and stops at
    the first failure: the ids up to and including the one whose write failed are
    counted, and the answer is the error; without failure all ids are counted, the store
    has the resulting sketch and the answer is ok. Whatever its length, a batch is one
    request and one observation of the batch-size histogram, and no Add request. *)
Lemma batch_add_local g ids st :
  g ≠ EmptyString → owner_of (look st) g = Ret None → node (look st) = None →
  engine_ok (engine (look st)) → Forall u64 ids →
  ∃ k r st', BatchAdd look write peers (mkBatchAddRequest g ids) st = Ret (r, st') ∧
    (k ≤ length ids)%nat ∧ router (look st') = router (look st) ∧ node (look st') = None ∧
    engine_ok (engine (look st')) ∧
    view (engine (look st')) = spec_calls (CAdd g <$> take k ids) (view (engine (look st))) ∧
    metrics (look st') =
      count_request "BatchAdd" (match r with Ok _ => "success" | Err _ => "error" end)
        (observe_batch (Z.of_nat (length ids)) (metrics (look st))) ∧
    (∀ x, r = Ok x → x = mkAddResponse true ∧ k = length ids ∧
       (ids ≠ [] → store_view (store (look st')) !! g = sk_Bytes <$> view (engine (look st')) !! g)).
Proof.
  intros Hg Ho Hn Hok Hids.
  set (s1 := set_metrics (observe_batch (Z.of_nat (length ids)) (metrics (look st))) (look st)).
  destruct (BatchAdd_loop_local g ids s1 st) as (k & err & e' & t' & E & Hk & Hall & Hok' & Hv & Hst);
    [done|done|done|done|].
  exists k. unfold BatchAdd, finish, bind. cbn [batch_Group batch_Ids]. rewrite decide_False by done.
  rewrite (foreign_owner_eq _ _ _ Ho), metric_eq. fold s1. rewrite E.
  destruct err as [x|]; cbn; rewrite look_write, write_write; eexists _, _; (split; [reflexivity|]);
    rewrite look_write; split_and_go; try done.
  intros x [= <-]. auto.
Qed.

(** Query never fails on a group this node owns: it answers the engine's estimate, or
    zero for a group that was never written, and changes nothing but the request
    metrics. *)
Lemma query_local g b st :
  g ≠ EmptyString → owner_of (look st) g = Ret None → engine_ok (engine (look st)) →
  ∃ st', Query look write peers (mkQueryRequest g b) st =
      Ret (Ok (mkQueryResponse g
        (match view (engine (look st)) !! g with Some sk => sk_Cardinality sk | None => 0 end)), st') ∧
    look st' = set_metrics (count_request "Query" "success" (metrics (look st))) (look st).
Proof.
  intros Hg Ho Hok. rewrite Query_local by done. eexists. split; [done|]. by rewrite look_write.
Qed.

(** With a Raft node a request this node owns is proposed once, with the request's
    group and id, and neither the engine nor the store is touched by the handler. The
    outcome of the proposal is counted, and an error of it is answered as Internal. *)
Lemma add_proposes g i st n err n' :
  g ≠ EmptyString → owner_of (look st) g = Ret None → node (look st) = Some n →
  raft_ProposeAdd g i n = Ret (err, n') →
  ∃ st', Add look write peers (mkAddRequest g i) st =
      Ret (match err with
           | None => Ok (mkAddResponse true)
           | Some x => Err (EStatusf codes_Internal "raft propose" x)
           end, st') ∧
    node (look st') = Some n' ∧ engine (look st') = engine (look st) ∧
    store (look st') = store (look st) ∧
    let status := (match err with None => "success" | Some _ => "error" end)%string in
    metrics (look st') = count_request "Add" status (count_proposal status (metrics (look st))).
Proof.
  intros Hg Ho Hn Hp. unfold Add, finish, bind. cbn [add_Group add_Id]. rewrite decide_False by done.
  unfold addID, bind. rewrite (foreign_owner_eq _ _ _ Ho). unfold get_server. rewrite Hn.
  unfold lift. rewrite Hp. unfold modify, metric. cbn [fst snd].
  destruct err; cbn; rewrite ?look_write, ?write_write, ?look_write; eexists; (split; [reflexivity|]);
    by rewrite ?look_write.
Qed.

End Props.

(** ** Witnesses *)

Module ConcreteServer.

(** A dialler that refuses the empty target; a Raft node that records what it was
    proposed. *)
#[export] Program Instance grpc : Grpc := {
  Conn := string;
  DialOption := unit;
  insecure_credentials := tt;
  grpc_Dial a _ := if decide (a = EmptyString) then Err (EExternal "missing address") else Ok a;
  conn_Close _ := None;
  conn_Target c := c;
}.
Next Obligation. intros a o c. simpl. by case_decide; intros [= <-]. Qed.

#[export] Instance recorder : RaftNodeI (list (string * Z)) := {
  raft_ProposeAdd g i n := Ret (None, n ++ [(g, i)]);
}.

End ConcreteServer.

Section Witnesses.
Import Concrete StandIn ConcreteServer.

Definition the_server : Server SketchV (list (string * Z)) → Server SketchV (list (string * Z)) := λ s, s.
Definition replace (s _ : Server SketchV (list (string * Z))) : Server SketchV (list (string * Z)) := s.

(** No peers. *)
Definition no_peers : Peers (Server SketchV (list (string * Z))) :=
  mkPeers _ _ (λ _ _, ret (Err (EExternal "unavailable"))) (λ _ _, ret (Err (EExternal "unavailable")))
    (λ _ _, ret (Err (EExternal "unavailable"))).

Definition alone : Server SketchV (list (string * Z)) :=
  New (NewEngine ∅) (mkStore (∅ : @DB StandIn.badger) 0 0) None None EmptyString.
Definition raft_member : Server SketchV (list (string * Z)) :=
  New (NewEngine ∅) (mkStore (∅ : @DB StandIn.badger) 0 0) (Some []) None EmptyString.

Lemma add_acknowledged_witness :
  ∃ r st' st'', Add the_server replace no_peers (mkAddRequest "a" 7) alone = Ret (r, st') ∧
    Query the_server replace no_peers (mkQueryRequest "a" true) st' =
      Ret (Ok (mkQueryResponse "a" 1), st'').
Proof.
  destruct (add_acknowledged the_server replace no_peers ltac:(done) ltac:(done) "a" 7 true alone)
    as (r & st' & st'' & E & _ & _ & _ & Q).
  - discriminate.
  - reflexivity.
  - reflexivity.
  - apply empty_engine_ok.
  - split; [discriminate|reflexivity].
  - exists r, st', st''. split; [exact E|]. rewrite Q. reflexivity.
Defined.

End Witnesses.
