(* ===== verification/ServerTypes.v ===== *)
(** * The handlers are total and keep their types

    On every branch of Add, BatchAdd and Query (local, proposed, forwarded, rejected,
    failed): the handler returns, the server stays well formed and the response is a
    value of its message type, a cardinality in particular a [uint64]. Proved with the
    triples of [Prelude] against what a server promises its peers; [Cluster] discharges the
    promise for peers that are such servers. *)

From S2P Require Import Prelude External Sketch SketchValue Float64 Hll Estimate Bitmap Algorithms.
From S2P Require Import Engine EngineProps Handler Router RouterProps Store Pb Server ServerProps.
Local Open Scope Z_scope.

Section Types.
Context {Sk N : Type} `{AlgorithmLaws Sk, !Badger, !Murmur3, !Grpc, !RaftNodeI N}.
Context {St : Type} (look : St → Server Sk N) (write : Server Sk N → St → St) (peers : Peers St).

(** ** Well-formed servers and messages *)

Record server_typed (s : Server Sk N) : Prop := {
  typed_engine : engine_ok (engine s);
  typed_ring r : router s = Some r → ring_sorted r;
}.

(** The states the handlers run in: this server is well formed in them, and writing a
    well-formed server leaves such a state. *)
Context (typed_state : St → Prop).
Context (typed_look : ∀ st, typed_state st → server_typed (look st)).
Context (typed_write : ∀ s st, typed_state st → server_typed s → typed_state (write s st)).

Definition AddRequest_typed (r : AddRequest) : Prop := u64 (add_Id r).
Definition BatchAddRequest_typed (r : BatchAddRequest) : Prop := Forall u64 (batch_Ids r).

(** An answer to a query names the group asked for and holds a [uint64]. *)
Definition query_result_typed (req : QueryRequest) (r : result QueryResponse) : Prop :=
  ∀ resp, r = Ok resp → result_Group resp = query_Group req ∧ u64 (result_Cardinality resp).

(** What the code relies on: peers keep the state well formed, as this server does, and a
    Raft node answers. *)
Record peers_typed : Prop := {
  peer_Add conn req : AddRequest_typed req →
    triple typed_state (client_Add peers conn req) (λ _ st, typed_state st);
  peer_BatchAdd conn req : BatchAddRequest_typed req →
    triple typed_state (client_BatchAdd peers conn req) (λ _ st, typed_state st);
  peer_Query conn req :
    triple typed_state (client_Query peers conn req) (λ r st, typed_state st ∧ query_result_typed req r);
}.
Definition node_total : Prop := ∀ g i (n : N), u64 i → ∃ err n', raft_ProposeAdd g i n = Ret (err, n').

Context (Hpeers : peers_typed) (Hnode : node_total).

(** ** The pieces *)

Lemma typed_modify f :
  (∀ s, server_typed s → server_typed (f s)) →
  triple typed_state (modify look write f) (λ _ st, typed_state st).
Proof using typed_look typed_write.
  intros Hf st Hst. exists tt, (write (f (look st)) st). split; [done|]. auto.
Qed.

Lemma typed_metric f : triple typed_state (metric look write f) (λ _ st, typed_state st).
Proof using typed_look typed_write. apply typed_modify. intros s []. by split. Qed.

Lemma typed_foreign_owner g : triple typed_state (foreign_owner look g) (λ _ st, typed_state st).
Proof using typed_look.
  intros st Hst.
  assert (∃ o, owner_of (look st) g = Ret o) as [o Ho].
  { unfold owner_of. destruct (router (look st)) as [r|] eqn:Er; [|by eexists].
    case_decide; [|by eexists]. destruct (decide (ring r = [])) as [En|Hne].
    - rewrite (Resolve_empty r g En). by eexists.
    - destruct (Resolve_successor r g (typed_ring _ (typed_look _ Hst) r Er) Hne) as (p & _ & ->). by eexists. }
  exists o, st. split; [by apply foreign_owner_eq|done].
Qed.

Lemma typed_getPeerClient addr : triple typed_state (getPeerClient look write addr) (λ _ st, typed_state st).
Proof using typed_look typed_write.
  unfold getPeerClient. intros st Hst. unfold bind at 1, get_server.
  destruct (conns (look st) !! addr) as [c|]; [by exists (Ok c), st|].
  destruct (grpc_Dial _ _) as [conn|err]; [|by exists (Err err), st].
  revert st Hst. apply (triple_bind _ (λ _ st, typed_state st)); [|intros _; by apply triple_ret].
  apply typed_modify. intros s []. by split.
Qed.

(** A forwarded call: count it, connect, call, count a failure. *)
Lemma typed_forward {A B} method owner (call : Conn → prog St (result A)) (good : result A → Prop)
    (on_err : error → B) (on_reply : result A → B) (Q : B → Prop) :
  (∀ conn, triple typed_state (call conn) (λ r st, typed_state st ∧ good r)) →
  (∀ err, Q (on_err err)) → (∀ r, good r → Q (on_reply r)) →
  triple typed_state
    (let* _ := metric look write (count_forward owner method) in
     let* c := getPeerClient look write owner in
     match c with
     | Err err => let* _ := metric look write (count_forward_error owner method) in ret (on_err err)
     | Ok conn =>
         let* r := call conn in
         match r with
         | Err err => let* _ := metric look write (count_forward_error owner method) in ret (on_reply (Err err))
         | Ok a => ret (on_reply (Ok a))
         end
     end) (λ b st, typed_state st ∧ Q b).
Proof using typed_look typed_write.
  intros Hcall Herr Hrep. apply (triple_bind _ (λ _ st, typed_state st)); [apply typed_metric|]. intros _.
  apply (triple_bind _ (λ _ st, typed_state st)); [apply typed_getPeerClient|]. intros [conn|err].
  - apply (triple_bind _ (λ r st, typed_state st ∧ good r)); [apply Hcall|]. intros [a|err].
    + apply triple_ret. intros st [Hst Hg]. auto.
    + intros st [Hst Hg]. revert st Hst. apply (triple_bind _ (λ _ st, typed_state st)); [apply typed_metric|].
      intros _. apply triple_ret. auto.
  - apply (triple_bind _ (λ _ st, typed_state st)); [apply typed_metric|]. intros _. apply triple_ret. auto.
Qed.
Lemma typed_propose g i n :
  u64 i →
  triple typed_state
    (let* p := lift (raft_ProposeAdd g i n) in
     let* _ := modify look write (set_node p.2) in
     match p.1 with
     | Some err =>
         let* _ := metric look write (count_proposal "error") in
         ret (Some (EStatusf codes_Internal "raft propose" err))
     | None => let* _ := metric look write (count_proposal "success") in ret None
     end) (λ _ st, typed_state st).
Proof using Hnode typed_look typed_write.
  intros Hi. destruct (Hnode g i n Hi) as (err & n' & E). unfold lift. rewrite E.
  apply (triple_bind _ (λ p st, typed_state st)); [intros st Hst; by exists (err, n'), st|]. intros p.
  apply (triple_bind _ (λ _ st, typed_state st)); [apply typed_modify; intros s []; by split|]. intros _.
  destruct p.1; (apply (triple_bind _ (λ _ st, typed_state st)); [apply typed_metric|]); intros _;
    by apply triple_ret.
Qed.

Lemma typed_addID method g i : u64 i → triple typed_state (addID look write peers method g i) (λ _ st, typed_state st).
Proof using Hnode Hpeers typed_look typed_write.
  intros Hi. unfold addID.
  apply (triple_bind _ (λ _ st, typed_state st)); [apply typed_foreign_owner|]. intros [owner|].
  - eapply triple_consequence;
      [apply (typed_forward method owner (λ conn, client_Add peers conn (mkAddRequest g i)) (λ _, True)
         (λ err, Some (dial_error owner err)) (λ r, match r with Err e => Some e | Ok _ => None end) (λ _, True))
      | |]; try done; [|by intros a st []].
    intros conn. eapply triple_consequence; [by apply (peer_Add Hpeers)|done|done].
  - intros st Hst. unfold bind at 1, get_server. destruct (node (look st)) as [n|] eqn:En.
    { by apply typed_propose. }
    destruct (engine_AddAndPersist_spec (engine (look st)) (store (look st)) g i (λ b, Save g b)
      (typed_engine _ (typed_look _ Hst)) Hi) as (e' & _ & Hok' & _ & _ & E).
    destruct (Save_spec g (sk_Bytes (sk_insert (spec_sketch g (view (engine (look st)))) i)) (store (look st)))
      as (err & t' & Es & _).
    rewrite Es in E. unfold bind, lift, modify. rewrite E.
    assert (typed_state (write (set_backend (e', t') (look st)) st)) as Hst'.
    { apply typed_write; [done|]. split; [done|]. by apply typed_look. }
    destruct err as [err|]; cbn [fst snd]; eexists _, _; by split.
Qed.

Lemma typed_loop g ids :
  Forall u64 ids → triple typed_state (BatchAdd_loop look write peers g ids) (λ _ st, typed_state st).
Proof using Hnode Hpeers typed_look typed_write.
  intros Hids. induction Hids as [|v ids Hv Hids IH]; cbn [BatchAdd_loop]; [by apply triple_ret|].
  apply (triple_bind _ (λ _ st, typed_state st)); [by apply typed_addID|].
  intros [err|]; [by apply triple_ret|done].
Qed.

Lemma typed_finish {A} method (body : prog St (string * result A)) (Q : result A → Prop) :
  triple typed_state body (λ r st, typed_state st ∧ Q r.2) →
  triple typed_state (finish look write method body) (λ r st, typed_state st ∧ Q r).
Proof using typed_look typed_write.
  intros Hb. unfold finish. eapply triple_bind; [exact Hb|]. intros [status r]. intros st [Hst HQ].
  revert st Hst. apply (triple_bind _ (λ _ st, typed_state st)); [apply typed_metric|]. intros _.
  apply triple_ret. auto.
Qed.

(** A handler without a promise on its result. *)
Lemma typed_any {A} (m : prog St A) :
  triple typed_state m (λ _ st, typed_state st) → triple typed_state m (λ _ st, typed_state st ∧ True).
Proof. intros Hm. by eapply triple_consequence; [exact Hm|done|]. Qed.

(** ** The handlers *)

Lemma typed_Add req :
  AddRequest_typed req → triple typed_state (Add look write peers req) (λ _ st, typed_state st ∧ True).
Proof using Hnode Hpeers typed_look typed_write.
  intros Hr. apply typed_finish, typed_any. case_decide; [by apply triple_ret|].
  apply (triple_bind _ (λ _ st, typed_state st)); [by apply typed_addID|].
  intros [err|]; by apply triple_ret.
Qed.

Lemma typed_BatchAdd req :
  BatchAddRequest_typed req → triple typed_state (BatchAdd look write peers req) (λ _ st, typed_state st ∧ True).
Proof using Hnode Hpeers typed_look typed_write.
  intros Hr. apply typed_finish. case_decide; [by apply triple_ret|].
  apply (triple_bind _ (λ _ st, typed_state st)); [apply typed_foreign_owner|]. intros [owner|].
  - apply (typed_forward "BatchAdd" owner (λ conn, client_BatchAdd peers conn req) (λ _, True)
      (λ err, ("error"%string, Err (dial_error owner err)))
      (λ r, match r with Err e => ("error"%string, Err e) | Ok x => ("success"%string, Ok x) end) (λ _, True)); try done.
    intros conn. apply typed_any. by apply (peer_BatchAdd Hpeers).
  - apply typed_any. apply (triple_bind _ (λ _ st, typed_state st)); [apply typed_metric|]. intros _.
    apply (triple_bind _ (λ _ st, typed_state st)); [by apply typed_loop|].
    intros [err|]; by apply triple_ret.
Qed.

Lemma typed_Query req :
  triple typed_state (Query look write peers req) (λ r st, typed_state st ∧ query_result_typed req r).
Proof using Hpeers typed_look typed_write.
  apply (typed_finish "Query" _ (query_result_typed req)). case_decide; [by apply triple_ret|].
  apply (triple_bind _ (λ _ st, typed_state st)); [apply typed_foreign_owner|]. intros [owner|].
  - apply (typed_forward "Query" owner (λ conn, client_Query peers conn req) (query_result_typed req)
      (λ err, ("error"%string, Err (dial_error owner err)))
      (λ r, match r with Err e => ("error"%string, Err e) | Ok x => ("success"%string, Ok x) end)
      (λ r, query_result_typed req r.2)); [|done|].
    + intros conn. apply (peer_Query Hpeers).
    + by intros [x|e].
  - intros st Hst. unfold bind, get_server, lift. rewrite engine_Cardinality_spec by (by apply typed_look).
    cbn [fst snd]. eexists _, st. split; [done|]. split; [done|]. intros resp [= <-]. split; [done|].
    destruct (view _ !! _); [apply law_cardinality_u64|done].
Qed.

End Types.
