(* ===== verification/Cluster.v ===== *)
(** * Servers that forward to each other

    A cluster is a map from addresses to servers; a server's peers are the handlers
    of the other servers, run on the same cluster. A call over a connection reaches the
    peer, or the request or the reply is lost ([trip], chosen by [link]). A forwarded
    request is handled by a server that could forward it again, so the calls nest:
    [cluster_peers hops] allows [hops] of them before the caller's deadline passes.

    [requests_reach_owner] shows what a request for a group does through any member, with
    or without Raft nodes: it takes one hop, and at the owner it does exactly what the
    owner's own handler does. [handlers_typed] is totality, with any rings. A cluster
    without Raft nodes and with reliable connections behaves like one engine
    ([standalone_cluster_is_one_engine]). *)

From S2P Require Import Prelude External Sketch SketchValue Float64 Hll Estimate Bitmap Algorithms.
From S2P Require Import Engine EngineProps Handler Router RouterProps Store Pb Server ServerProps ServerTypes.
Local Open Scope Z_scope.

(** What becomes of a call on a peer. *)
Inductive trip :=
  | Reached
  | Unreached (e : error)
  | ReplyLost (e : error).

Section Cluster.
Context {Sk N : Type} `{AlgorithmLaws Sk, !Badger, !Murmur3, !Grpc, !RaftNodeI N}.

(** What an address without a server reads as; no theorem depends on it. *)
Context (nobody : Server Sk N).
Context (link : Conn → trip).
Implicit Types (c : gmap string (Server Sk N)) (a b o g : string) (s : Server Sk N) (r : Ring)
  (M : gset string) (m : gmap string Sk).

Definition look_at a c : Server Sk N := default nobody (c !! a).
Definition write_at a s c : gmap string (Server Sk N) := <[a := s]> c.

Definition carry {A} conn (call : prog (gmap string (Server Sk N)) (result A))
    : prog (gmap string (Server Sk N)) (result A) :=
  match link conn with
  | Reached => call
  | Unreached e => ret (Err e)
  | ReplyLost e => let* _ := call in ret (Err e)
  end.

Fixpoint cluster_peers (hops : nat) : Peers (gmap string (Server Sk N)) :=
  match hops with
  | O => mkPeers _ _ (λ _ _, ret (Err (EExternal "deadline exceeded")))
           (λ _ _, ret (Err (EExternal "deadline exceeded")))
           (λ _ _, ret (Err (EExternal "deadline exceeded")))
  | S hops' =>
      let at_ := conn_Target in
      mkPeers _ _
        (λ conn req, carry conn (Add (look_at (at_ conn)) (write_at (at_ conn)) (cluster_peers hops') req))
        (λ conn req, carry conn (BatchAdd (look_at (at_ conn)) (write_at (at_ conn)) (cluster_peers hops') req))
        (λ conn req, carry conn (Query (look_at (at_ conn)) (write_at (at_ conn)) (cluster_peers hops') req))
  end.

Definition add_via (hops : nat) a (req : AddRequest) : prog (gmap string (Server Sk N)) (result AddResponse) :=
  Add (look_at a) (write_at a) (cluster_peers hops) req.
Definition batch_via (hops : nat) a (req : BatchAddRequest) : prog (gmap string (Server Sk N)) (result AddResponse) :=
  BatchAdd (look_at a) (write_at a) (cluster_peers hops) req.
Definition query_via (hops : nat) a (req : QueryRequest) : prog (gmap string (Server Sk N)) (result QueryResponse) :=
  Query (look_at a) (write_at a) (cluster_peers hops) req.

(** A server set up as startup does: it knows the shared ring and its own address. *)
Record member_ok r a s : Prop := {
  mem_self : selfAddr s = a;
  mem_named : a ≠ EmptyString;
  mem_router : router s = Some r;
  mem_conns b conn : conns s !! b = Some conn → conn_Target conn = b;
}.

Definition shared r M c : Prop := ∀ a, a ∈ M → ∃ s, c !! a = Some s ∧ member_ok r a s.

(** ** The state *)

Lemma look_write_eq a s c : look_at a (write_at a s c) = s.
Proof. unfold look_at, write_at. by rewrite lookup_insert_eq. Qed.

Lemma look_write_ne a b s c : a ≠ b → look_at b (write_at a s c) = look_at b c.
Proof. intros. unfold look_at, write_at. by rewrite lookup_insert_ne. Qed.

Lemma write_write_at a s s' c : write_at a s (write_at a s' c) = write_at a s c.
Proof. apply insert_insert_eq. Qed.

Lemma shared_at r M c a :
  shared r M c → a ∈ M → member_ok r a (look_at a c) ∧ c = write_at a (look_at a c) c.
Proof.
  intros Hc Ha. destruct (Hc a Ha) as (s & Es & Hs). unfold look_at, write_at. rewrite Es. simpl.
  by rewrite insert_id.
Qed.

Lemma shared_write r M a s c : shared r M c → member_ok r a s → shared r M (write_at a s c).
Proof.
  intros Hc Hs b Hb. unfold write_at. destruct (decide (a = b)) as [->|Hne].
  - exists s. by rewrite lookup_insert_eq.
  - rewrite lookup_insert_ne by done. by apply Hc.
Qed.

Lemma member_ok_metrics r a s f : member_ok r a s → member_ok r a (set_metrics f s).
Proof. intros []. by split. Qed.

Lemma member_ok_place r a s s' : member_ok r a s → same_place s s' → member_ok r a s'.
Proof. intros [] (E1 & E2 & E3 & E4). split; by rewrite ?E1, ?E2, ?E3. Qed.

Lemma member_ok_forwarding r a s o method conn :
  member_ok r a s → conn_Target conn = o → member_ok r a (forwarding o method conn s).
Proof.
  intros [] Hc. split; try done. intros b conn'. simpl. rewrite lookup_insert.
  case_decide; [|auto]. intros [= <-]. congruence.
Qed.

(** ** Routing *)

Lemma owner_here r o s g :
  member_ok r o s → Resolve g r = Ret o → owner_of s g = Ret None.
Proof.
  intros Hs HR. unfold owner_of. rewrite (mem_router _ _ _ Hs), HR, (mem_self _ _ _ Hs).
  rewrite decide_True by apply Hs. rewrite decide_False; [done|]. naive_solver.
Qed.

Lemma owner_there r a o s g :
  member_ok r a s → Resolve g r = Ret o → o ≠ a → o ≠ EmptyString →
  owner_of s g = Ret (Some o).
Proof.
  intros Hs HR Hoa Ho. unfold owner_of. rewrite (mem_router _ _ _ Hs), HR, (mem_self _ _ _ Hs).
  by rewrite !decide_True by (apply Hs || done).
Qed.

Lemma peer_conn_target r a o s conn :
  member_ok r a s → peer_conn s o = Ok conn → conn_Target conn = o.
Proof.
  intros Hs. unfold peer_conn. destruct (conns s !! o) as [conn'|] eqn:Ec.
  - intros [= <-]. by eapply mem_conns.
  - apply grpc_Dial_target.
Qed.

(** ** What a request does *)

(** How a request at [a] for a group of [o] gets there. *)
Definition trip_to a o c : trip :=
  if decide (a = o) then Reached
  else match peer_conn (look_at a c) o with
       | Err e => Unreached (dial_error o e)
       | Ok conn => link conn
       end.

(** A server that forwarded a request has counted the request, the forward and its
    failure, and has maybe a new connection; nothing else is different. *)
Definition forwarded {A} method o (res : result A) s s' : Prop :=
  engine s' = engine s ∧ store s' = store s ∧ node s' = node s ∧ router s' = router s ∧
  selfAddr s' = selfAddr s ∧
  metrics s' =
    match res with
    | Ok _ => count_request method "success" (count_forward o method (metrics s))
    | Err _ => count_request method "error" (count_forward_error o method (count_forward o method (metrics s)))
    end.

(** A request at [a] for a group of [o], against the handler [own] of [o] itself. *)
Definition routed {A} method a o (own : prog (Server Sk N) (result A)) c (res : result A) c' : Prop :=
  match trip_to a o c with
  | Reached => own (look_at o c) = Ret (res, look_at o c')
  | ReplyLost e => res = Err e ∧ ∃ lost, own (look_at o c) = Ret (lost, look_at o c')
  | Unreached e => res = Err e ∧ look_at o c' = look_at o c
  end ∧
  (a ≠ o → forwarded method o res (look_at a c) (look_at a c')) ∧
  ∀ b, b ≠ a → b ≠ o → look_at b c' = look_at b c.

Section Routed.
Context {A : Type} (method : string) (r : Ring) (M : gset string) (g a o : string)
  (c : gmap string (Server Sk N)).
Context (Hc : shared r M c) (Ha : a ∈ M) (Ho : o ∈ M) (HR : Resolve g r = Ret o).
Context (own : prog (Server Sk N) (result A)) (x : result A) (s' : Server Sk N).
Context (Hown : own (look_at o c) = Ret (x, s')) (Hplace : same_place (look_at o c) s').

(** The member owns the group. *)
Lemma routed_here via :
  a = o → (∀ s, owner_of s g = Ret None → via (write_at o s c) = put_back (write_at o) c (own s)) →
  ∃ res c', via c = Ret (res, c') ∧ routed method a o own c res c' ∧ shared r M c'.
Proof using All.
  intros Eao Hvia. destruct (shared_at r M c o Hc Ho) as [Hs Ec].
  exists x, (write_at o s' c). split.
  { rewrite Ec at 1. rewrite Hvia by (by eapply owner_here). by rewrite Hown. }
  split; [|apply shared_write; [done|by eapply member_ok_place]].
  unfold routed, trip_to. rewrite decide_True by done. rewrite look_write_eq. split; [done|].
  split; [done|]. intros b _ Hb. by rewrite look_write_ne.
Qed.

(** The owner cannot be dialled. *)
Lemma routed_undialed via e :
  a ≠ o → peer_conn (look_at a c) o = Err e →
  via c = Ret (Err (dial_error o e), write_at a (undialed o method (look_at a c)) c) →
  ∃ res c', via c = Ret (res, c') ∧ routed (A := A) method a o own c res c' ∧ shared r M c'.
Proof using Hc Ha.
  intros Hao Hp Hvia. destruct (shared_at r M c a Hc Ha) as [Hs _]. eexists _, _. split; [exact Hvia|].
  split; [|apply shared_write; [done|by apply member_ok_metrics]].
  unfold routed, trip_to. rewrite decide_False, Hp by done. rewrite look_write_eq, look_write_ne by done.
  split; [done|]. split; [done|]. intros b Hb _. by rewrite look_write_ne.
Qed.

(** The forwarder's last write. *)
Lemma forward_tail conn c2 mt (res : result A) :
  a ≠ o → shared r M c2 → look_at a c2 = forwarding o method conn (look_at a c) →
  (∀ b, b ≠ a → b ≠ o → look_at b c2 = look_at b c) →
  mt = match res with
       | Ok _ => count_request method "success" (metrics (look_at a c2))
       | Err _ => count_request method "error" (count_forward_error o method (metrics (look_at a c2)))
       end →
  let c' := write_at a (set_metrics mt (look_at a c2)) c2 in
  look_at o c' = look_at o c2 ∧ shared r M c' ∧
  (a ≠ o → forwarded method o res (look_at a c) (look_at a c')) ∧
  ∀ b, b ≠ a → b ≠ o → look_at b c' = look_at b c.
Proof using Ha.
  intros Hao Hc2 Ea Hb -> c'. subst c'. split; [by rewrite look_write_ne|]. split; [|split].
  - apply shared_write; [done|]. by apply member_ok_metrics, (shared_at r M c2 a).
  - intros _. rewrite look_write_eq, Ea. by destruct res.
  - intros b Hba Hbo. rewrite look_write_ne by done. by apply Hb.
Qed.

(** One hop. *)
Lemma routed_there via call conn (f : A → A) :
  a ≠ o → peer_conn (look_at a c) o = Ok conn →
  (∀ s c1, owner_of s g = Ret None → call (write_at o s c1) = put_back (write_at o) c1 (own s)) →
  (∀ y, x = Ok y → f y = y) →
  via c = match carry conn call (write_at a (forwarding o method conn (look_at a c)) c) with
    | Ret (Ok y, c2) =>
        Ret (Ok (f y), write_at a (set_metrics (count_request method "success" (metrics (look_at a c2))) (look_at a c2)) c2)
    | Ret (Err err, c2) =>
        Ret (Err err, write_at a (set_metrics (count_request method "error"
          (count_forward_error o method (metrics (look_at a c2)))) (look_at a c2)) c2)
    | Panic msg => Panic msg
    end →
  ∃ res c', via c = Ret (res, c') ∧ routed method a o own c res c' ∧ shared r M c'.
Proof using All.
  intros Hao Hp Hcall Hf Hvia. destruct (shared_at r M c a Hc Ha) as [Hs _].
  set (c1 := write_at a (forwarding o method conn (look_at a c)) c) in *.
  assert (shared r M c1) as Hc1.
  { apply shared_write; [done|]. apply member_ok_forwarding; [done|by eapply peer_conn_target]. }
  destruct (shared_at r M c1 o Hc1 Ho) as [Hs1 Ec1].
  assert (look_at o c1 = look_at o c) as Eo by (by apply look_write_ne).
  assert (call c1 = Ret (x, write_at o s' c1)) as Ecall.
  { rewrite Ec1 at 1. rewrite Hcall by (by eapply owner_here). by rewrite Eo, Hown. }
  assert (shared r M (write_at o s' c1)) as Hc2.
  { apply shared_write; [done|]. rewrite Eo in Hs1. by eapply member_ok_place. }
  assert (look_at a c1 = forwarding o method conn (look_at a c)) as Ea1 by apply look_write_eq.
  assert (look_at a (write_at o s' c1) = forwarding o method conn (look_at a c)) as Ea by (by rewrite look_write_ne).
  assert (∀ b, b ≠ a → b ≠ o → look_at b c1 = look_at b c) as Hb1 by (intros; by apply look_write_ne).
  assert (∀ b, b ≠ a → b ≠ o → look_at b (write_at o s' c1) = look_at b c) as Hb
    by (intros; rewrite look_write_ne by done; auto).
  unfold routed, trip_to. rewrite decide_False, Hp by done. rewrite Hvia. unfold carry.
  destruct (link conn) as [|e|e]; unfold bind, ret; rewrite ?Ecall; [destruct x as [y|err]| |].
  - destruct (forward_tail conn _ _ (Ok (f y)) Hao Hc2 Ea Hb eq_refl) as (E1 & ? & ? & ?).
    eexists _, _. split; [reflexivity|]. rewrite E1, look_write_eq, (Hf y eq_refl). by rewrite (Hf y eq_refl) in *.
  - destruct (forward_tail conn _ _ (Err err) Hao Hc2 Ea Hb eq_refl) as (E1 & ? & ? & ?).
    eexists _, _. split; [reflexivity|]. by rewrite E1, look_write_eq.
  - destruct (forward_tail conn _ _ (Err e) Hao Hc1 Ea1 Hb1 eq_refl) as (E1 & ? & ? & ?).
    eexists _, _. split; [reflexivity|]. by rewrite E1, Eo.
  - destruct (forward_tail conn _ _ (Err e) Hao Hc2 Ea Hb eq_refl) as (E1 & ? & ? & ?).
    eexists _, _. split; [reflexivity|]. rewrite E1, look_write_eq. split_and!; try done. by exists x.
Qed.
End Routed.

(** ** The three requests *)

Section Requests.
Context (r : Ring) (M : gset string) (hops : nat) (g a o : string) (c : gmap string (Server Sk N)).
Context (Hc : shared r M c) (Ha : a ∈ M) (Ho : o ∈ M) (HR : Resolve g r = Ret o) (Hg : g ≠ EmptyString).

Lemma owner_foreign : a ≠ o → owner_of (look_at a c) g = Ret (Some o).
Proof using Hc Ha Ho HR.
  intros Hao. destruct (shared_at r M c a Hc Ha) as [Hs _]. destruct (shared_at r M c o Hc Ho) as [Hso _].
  eapply owner_there; [done|done|done|]. apply (mem_named _ _ _ Hso).
Qed.

Lemma owner_place {A} (own : prog (Server Sk N) (result A)) x s' :
  (∀ s, owner_of s g = Ret None → ∀ y s1, own s = Ret (y, s1) → same_place s s1) →
  own (look_at o c) = Ret (x, s') → same_place (look_at o c) s'.
Proof using Hc Ho HR.
  intros Hp E. destruct (shared_at r M c o Hc Ho) as [Hso _]. eapply Hp; [by eapply owner_here|exact E].
Qed.

Lemma routed_add i x s' :
  own_Add (mkAddRequest g i) (look_at o c) = Ret (x, s') →
  ∃ res c', add_via (S hops) a (mkAddRequest g i) c = Ret (res, c') ∧
    routed "Add" a o (own_Add (mkAddRequest g i)) c res c' ∧ shared r M c'.
Proof using All.
  intros E. pose proof (λ s c1, Add_alone (look_at o) (write_at o) (cluster_peers hops) (look_write_eq o)
    (write_write_at o) g i s c1) as Hal.
  assert (same_place (look_at o c) s') as Hp by (eapply owner_place; [intros s; apply (Hal s c)|exact E]).
  destruct (decide (a = o)) as [Hao|Hao].
  { apply (routed_here "Add" r M g a o c Hc Ha Ho HR _ x s' E Hp); [done|]. intros s Hs. subst a.
    by apply (Add_alone (look_at o) (write_at o) (cluster_peers (S hops)) (look_write_eq o) (write_write_at o)). }
  destruct (peer_conn (look_at a c) o) as [conn|e] eqn:Hd.
  - apply (routed_there "Add" r M g a o c Hc Ha Ho HR _ x s' E Hp _
      (Add (look_at o) (write_at o) (cluster_peers hops) (mkAddRequest g i)) conn (λ _, mkAddResponse true)); try done.
    + intros s c1 Hs. by apply Hal.
    + intros y ->. symmetry. by eapply own_Add_ok.
    + unfold add_via.
      rewrite (Add_forward _ _ _ (look_write_eq a) (write_write_at a) g i c o conn Hg (owner_foreign Hao) Hd).
      cbn [cluster_peers client_Add]. destruct (shared_at r M c a Hc Ha) as [Hs _].
      by rewrite (peer_conn_target r a o _ conn Hs Hd).
  - apply (routed_undialed "Add" r M a o c Hc Ha _ _ e Hao Hd).
    by apply (forward_undialed (look_at a) (write_at a) _ (look_write_eq a) (write_write_at a) g c o e Hg
      (owner_foreign Hao) Hd).
Qed.

Lemma routed_batch ids x s' :
  own_BatchAdd (mkBatchAddRequest g ids) (look_at o c) = Ret (x, s') →
  ∃ res c', batch_via (S hops) a (mkBatchAddRequest g ids) c = Ret (res, c') ∧
    routed "BatchAdd" a o (own_BatchAdd (mkBatchAddRequest g ids)) c res c' ∧ shared r M c'.
Proof using All.
  intros E. pose proof (λ s c1, BatchAdd_alone (look_at o) (write_at o) (cluster_peers hops) (look_write_eq o)
    (write_write_at o) g ids s c1) as Hal.
  assert (same_place (look_at o c) s') as Hp by (eapply owner_place; [intros s; apply (Hal s c)|exact E]).
  destruct (decide (a = o)) as [Hao|Hao].
  { apply (routed_here "BatchAdd" r M g a o c Hc Ha Ho HR _ x s' E Hp); [done|]. intros s Hs. subst a.
    by apply (BatchAdd_alone (look_at o) (write_at o) (cluster_peers (S hops)) (look_write_eq o) (write_write_at o)). }
  destruct (peer_conn (look_at a c) o) as [conn|e] eqn:Hd.
  - apply (routed_there "BatchAdd" r M g a o c Hc Ha Ho HR _ x s' E Hp _
      (BatchAdd (look_at o) (write_at o) (cluster_peers hops) (mkBatchAddRequest g ids)) conn (λ y, y)); try done.
    + intros s c1 Hs. by apply Hal.
    + unfold batch_via.
      rewrite (BatchAdd_forward _ _ _ (look_write_eq a) (write_write_at a) g ids c o conn Hg (owner_foreign Hao) Hd).
      cbn [cluster_peers client_BatchAdd]. destruct (shared_at r M c a Hc Ha) as [Hs _].
      by rewrite (peer_conn_target r a o _ conn Hs Hd).
  - apply (routed_undialed "BatchAdd" r M a o c Hc Ha _ _ e Hao Hd).
    by apply (forward_undialed (look_at a) (write_at a) _ (look_write_eq a) (write_write_at a) g c o e Hg
      (owner_foreign Hao) Hd).
Qed.

Lemma routed_query stale x s' :
  own_Query (mkQueryRequest g stale) (look_at o c) = Ret (x, s') →
  ∃ res c', query_via (S hops) a (mkQueryRequest g stale) c = Ret (res, c') ∧
    routed "Query" a o (own_Query (mkQueryRequest g stale)) c res c' ∧ shared r M c'.
Proof using All.
  intros E. pose proof (λ s c1, Query_alone (look_at o) (write_at o) (cluster_peers hops) (look_write_eq o)
    (write_write_at o) g stale s c1) as Hal.
  assert (same_place (look_at o c) s') as Hp by (eapply owner_place; [intros s; apply (Hal s c)|exact E]).
  destruct (decide (a = o)) as [Hao|Hao].
  { apply (routed_here "Query" r M g a o c Hc Ha Ho HR _ x s' E Hp); [done|]. intros s Hs. subst a.
    by apply (Query_alone (look_at o) (write_at o) (cluster_peers (S hops)) (look_write_eq o) (write_write_at o)). }
  destruct (peer_conn (look_at a c) o) as [conn|e] eqn:Hd.
  - apply (routed_there "Query" r M g a o c Hc Ha Ho HR _ x s' E Hp _
      (Query (look_at o) (write_at o) (cluster_peers hops) (mkQueryRequest g stale)) conn (λ y, y)); try done.
    + intros s c1 Hs. by apply Hal.
    + unfold query_via.
      rewrite (Query_forward _ _ _ (look_write_eq a) (write_write_at a) g stale c o conn Hg (owner_foreign Hao) Hd).
      cbn [cluster_peers client_Query]. destruct (shared_at r M c a Hc Ha) as [Hs _].
      by rewrite (peer_conn_target r a o _ conn Hs Hd).
  - apply (routed_undialed "Query" r M a o c Hc Ha _ _ e Hao Hd).
    by apply (forward_undialed (look_at a) (write_at a) _ (look_write_eq a) (write_write_at a) g c o e Hg
      (owner_foreign Hao) Hd).
Qed.
End Requests.

(** C3: Routing is transparent. In a cluster whose members share a ring and know their own
    addresses, with or without Raft nodes, a request for a group can be sent to any
    member: with hops to spare, it takes one, to the member the ring assigns the group to.
    If it arrives there, that server's handler runs once, so the owner (its engine, store, Raft
    node and metrics) is exactly as after its own handler and the answer is the owner's,
    or an error when the reply was lost; if it does not arrive, because the owner could not be
    dialled or the request was lost, the answer is that error and the owner is untouched.
    The forwarding member counts the request and keeps its engine, store and Raft node,
    every other member is untouched, and the members still share the ring. *)
Theorem requests_reach_owner r M hops g a o c :
  shared r M c → a ∈ M → o ∈ M → Resolve g r = Ret o → g ≠ EmptyString →
  (∀ i x s', own_Add (mkAddRequest g i) (look_at o c) = Ret (x, s') →
     ∃ res c', add_via (S hops) a (mkAddRequest g i) c = Ret (res, c') ∧
       routed "Add" a o (own_Add (mkAddRequest g i)) c res c' ∧ shared r M c') ∧
  (∀ ids x s', own_BatchAdd (mkBatchAddRequest g ids) (look_at o c) = Ret (x, s') →
     ∃ res c', batch_via (S hops) a (mkBatchAddRequest g ids) c = Ret (res, c') ∧
       routed "BatchAdd" a o (own_BatchAdd (mkBatchAddRequest g ids)) c res c' ∧ shared r M c') ∧
  (∀ stale x s', own_Query (mkQueryRequest g stale) (look_at o c) = Ret (x, s') →
     ∃ res c', query_via (S hops) a (mkQueryRequest g stale) c = Ret (res, c') ∧
       routed "Query" a o (own_Query (mkQueryRequest g stale)) c res c' ∧ shared r M c').
Proof.
  intros Hc Ha Ho HR Hg. split_and!; intros.
  - by eapply routed_add.
  - by eapply routed_batch.
  - by eapply routed_query.
Qed.

(** ** Totality, with any rings

    Servers that disagree on the ring may forward a request in circles; it still ends, in
    an answer or in an error, and every server stays well formed. *)

Definition cluster_typed c : Prop := ∀ a, server_typed (look_at a c).

Lemma cluster_typed_write a s c : cluster_typed c → server_typed s → cluster_typed (write_at a s c).
Proof.
  intros Hc Hs b. destruct (decide (a = b)) as [->|Hne]; [by rewrite look_write_eq|by rewrite look_write_ne].
Qed.

Lemma typed_carry {A} conn (call : prog (gmap string (Server Sk N)) (result A)) (Q : result A → Prop) :
  (∀ e, Q (Err e)) → triple cluster_typed call (λ x c, cluster_typed c ∧ Q x) →
  triple cluster_typed (carry conn call) (λ x c, cluster_typed c ∧ Q x).
Proof.
  intros HQ Hcall. unfold carry. destruct (link conn) as [|e|e]; [done| |].
  - apply triple_ret. auto.
  - eapply triple_bind; [exact Hcall|]. intros x. apply triple_ret. by intros c [].
Qed.

Lemma cluster_peers_typed hops : node_total (N := N) → peers_typed (cluster_peers hops) cluster_typed.
Proof.
  intros Hn. induction hops as [|hops IH]; split; intros; cbn [cluster_peers client_Add client_BatchAdd client_Query].
  1-3: apply triple_ret; done.
  - eapply triple_consequence; [apply (typed_carry _ _ (λ _, True)); [done|]|done|by intros r st []].
    apply (typed_Add _ _ _ cluster_typed); auto using cluster_typed_write.
  - eapply triple_consequence; [apply (typed_carry _ _ (λ _, True)); [done|]|done|by intros r st []].
    apply (typed_BatchAdd _ _ _ cluster_typed); auto using cluster_typed_write.
  - apply typed_carry; [done|]. apply (typed_Query _ _ _ cluster_typed); auto using cluster_typed_write.
Qed.


(** ** A cluster without Raft nodes as one engine

    Standalone servers, every one of which can be dialled, and connections that lose
    nothing. *)
Definition standalone_cluster M c : Prop :=
  ∀ a, a ∈ M → node (look_at a c) = None ∧ engine_ok (engine (look_at a c)).
Definition reliable M : Prop :=
  (∀ a opts, a ∈ M → ∃ conn, grpc_Dial a opts = Ok conn) ∧ ∀ conn, link conn = Reached.

(** The group's sketch, where the ring says it is. *)
Definition cluster_lookup r c g : option Sk :=
  match Resolve g r with
  | Ret o => view (engine (look_at o c)) !! g
  | Panic _ => None
  end.

Lemma reliable_trip M a o c : reliable M → o ∈ M → trip_to a o c = Reached.
Proof.
  intros [Hd Hl] Ho. unfold trip_to. case_decide; [done|]. unfold peer_conn.
  destruct (conns _ !! o); [apply Hl|]. by destruct (Hd o (insecure_credentials :: dialOpts (look_at a c)) Ho) as [conn ->].
Qed.

(** Every member but the owner keeps its engine and its node. *)
Lemma routed_others {A} method a o (own : prog (Server Sk N) (result A)) c res c' b :
  routed method a o own c res c' → b ≠ o →
  engine (look_at b c') = engine (look_at b c) ∧ node (look_at b c') = node (look_at b c).
Proof.
  intros (_ & Hf & Hb) Hbo. destruct (decide (b = a)) as [->|Hba]; [|by rewrite Hb].
  by destruct (Hf Hbo) as (? & _ & ? & _).
Qed.

Lemma add_standalone r M hops g i a o c :
  shared r M c → standalone_cluster M c → reliable M → a ∈ M → o ∈ M → Resolve g r = Ret o →
  g ≠ EmptyString → u64 i →
  ∃ res c', add_via (S hops) a (mkAddRequest g i) c = Ret (res, c') ∧ shared r M c' ∧ standalone_cluster M c' ∧
    view (engine (look_at o c')) = spec_Add g i (view (engine (look_at o c))) ∧
    ∀ b, b ≠ o → engine (look_at b c') = engine (look_at b c).
Proof.
  intros Hc Hst Hrel Ha Ho HR Hg Hi. destruct (Hst o Ho) as [Hn Hok].
  destruct (shared_at r M c o Hc Ho) as [Hso _].
  destruct (Add_local itself instead lone ltac:(done) ltac:(done) g i (look_at o c) Hg
    (owner_here r o _ g Hso HR) Hn Hok Hi) as (err & e' & t' & E & Hok' & Hv & _).
  destruct (routed_add r M hops g a o c Hc Ha Ho HR Hg i _ _ E) as (res & c' & Evia & Hrt & Hc').
  exists res, c'. pose proof Hrt as (Hown & _). rewrite (reliable_trip M) in Hown by done.
  unfold own_Add in Hown. rewrite E in Hown. injection Hown as _ Eo. unfold instead, itself in Eo.
  split_and!; [done|done| |by rewrite <- Eo|by intros b Hb; apply (routed_others _ _ _ _ _ _ _ b Hrt)].
  intros b Hb. destruct (decide (b = o)) as [->|Hbo]; [by rewrite <- Eo|].
  destruct (routed_others _ _ _ _ _ _ _ b Hrt Hbo) as [-> ->]. by apply Hst.
Qed.

(** Adds sent one after the other, each through a server of its own choice. *)
Fixpoint adds_via (hops : nat) (reqs : list (string * (string * Z)))
    : prog (gmap string (Server Sk N)) (list (result AddResponse)) :=
  match reqs with
  | [] => ret []
  | (a, (g, i)) :: reqs' =>
      let* x := add_via hops a (mkAddRequest g i) in
      let* xs := adds_via hops reqs' in
      ret (x :: xs)
  end.

Definition req_ok M (q : string * (string * Z)) : Prop :=
  q.1 ∈ M ∧ q.2.1 ≠ EmptyString ∧ u64 q.2.2.

Lemma represents_owner r M g :
  ring_represents r M → M ≠ ∅ → ∃ o, o ∈ M ∧ Resolve g r = Ret o.
Proof.
  intros Hr Hne. destruct (represents_resolve r M g Hr Hne) as (o & h & Ho & _ & _ & HR). eauto.
Qed.

Lemma add_lookup r g i o c c' m :
  (∀ h, cluster_lookup r c h = m !! h) → Resolve g r = Ret o →
  view (engine (look_at o c')) = spec_Add g i (view (engine (look_at o c))) →
  (∀ b, b ≠ o → engine (look_at b c') = engine (look_at b c)) →
  ∀ h, cluster_lookup r c' h = spec_Add g i m !! h.
Proof.
  intros Hm HR Hv Hne h. unfold cluster_lookup in *. unfold spec_Add.
  assert (spec_sketch g (view (engine (look_at o c))) = spec_sketch g m) as Esk.
  { unfold spec_sketch. specialize (Hm g). rewrite HR in Hm. by rewrite Hm. }
  specialize (Hm h). destruct (decide (g = h)) as [<-|Hgh].
  - rewrite HR, Hv, lookup_insert_eq. unfold spec_Add. by rewrite lookup_insert_eq, Esk.
  - rewrite lookup_insert_ne by done. rewrite <- Hm. destruct (Resolve h r) as [o'|]; [|done].
    destruct (decide (o' = o)) as [->|Hoo]; [|by rewrite Hne].
    rewrite Hv. unfold spec_Add. by rewrite lookup_insert_ne.
Qed.

(** After any adds, each sent to any member, the sketches found where the ring places
    the groups are those of a single engine given the same adds. *)
Lemma standalone_cluster_is_one_engine r M hops reqs c m :
  ring_represents r M → M ≠ ∅ → reliable M → shared r M c → standalone_cluster M c →
  (∀ g, cluster_lookup r c g = m !! g) → Forall (req_ok M) reqs →
  ∃ xs c', adds_via (S hops) reqs c = Ret (xs, c') ∧ shared r M c' ∧ standalone_cluster M c' ∧
    ∀ g, cluster_lookup r c' g = spec_calls ((λ q, CAdd q.2.1 q.2.2) <$> reqs) m !! g.
Proof.
  intros Hr Hne Hrel Hc Hst Hm Hq. revert c m Hc Hst Hm.
  induction Hq as [|[a [g i]] reqs (Ha & Hg & Hi) Hq IH]; intros c m Hc Hst Hm; [by exists [], c|].
  destruct (represents_owner r M g Hr Hne) as (o & Ho & HR).
  destruct (add_standalone r M hops g i a o c Hc Hst Hrel Ha Ho HR Hg Hi) as (x & c1 & E1 & Hc1 & Hst1 & Hv & Hb).
  destruct (IH c1 (spec_Add g i m) Hc1 Hst1) as (xs & c' & E & Hc' & Hst' & Hl); [by eapply add_lookup|].
  exists (x :: xs), c'. cbn [adds_via]. rewrite (bind_Ret _ _ _ _ _ E1), (bind_Ret _ _ _ _ _ E). done.
Qed.

End Cluster.

(** ** Witnesses

    Two servers with Raft nodes on one ring; the group "x" is that of "a", and the
    requests are sent to "b". *)

Section Witnesses.
Import Concrete StandIn ConcreteServer ConcreteRing.

Definition two_ring : Ring := ring_run [RAdd "a"; RAdd "b"].
Definition member_ex (a : string) : Server SketchV (list (string * Z)) :=
  New (NewEngine ∅) (mkStore (∅ : @DB StandIn.badger) 0 0) (Some []) (Some two_ring) a.
Definition pair_ex : gmap string (Server SketchV (list (string * Z))) :=
  {[ "a"%string := member_ex "a"; "b"%string := member_ex "b" ]}.
Definition both : gset string := {["b"; "a"]}.
Definition all_pass (_ : Conn) : trip := Reached.
Definition replies_lost (_ : Conn) : trip := ReplyLost (EExternal "timeout").

Lemma pair_ex_shared : shared two_ring both pair_ex.
Proof.
  intros a Ha. exists (member_ex a).
  apply elem_of_union in Ha as [Ha|Ha]; apply elem_of_singleton in Ha; subst; by repeat split.
Qed.

(** What "a" does by itself: it proposes. *)
Lemma own_ex :
  ∃ s', own_Add (mkAddRequest "x" 7) (member_ex "a") = Ret (Ok (mkAddResponse true), s') ∧
    node s' = Some [("x"%string, 7)].
Proof.
  destruct (add_proposes itself instead lone ltac:(done) ltac:(done) "x" 7 (member_ex "a") [] None [("x"%string, 7)])
    as (s' & E & Hn & _); [done|vm_compute; reflexivity|done|done|]. eauto.
Qed.

Lemma requests_reach_owner_witness :
  (∃ c', add_via (member_ex "a") all_pass 1 "b" (mkAddRequest "x" 7) pair_ex = Ret (Ok (mkAddResponse true), c') ∧
     node (look_at (member_ex "a") "a" c') = Some [("x"%string, 7)] ∧
     node (look_at (member_ex "a") "b" c') = Some []) ∧
  (∃ c', add_via (member_ex "a") replies_lost 1 "b" (mkAddRequest "x" 7) pair_ex =
       Ret (Err (EExternal "timeout"), c') ∧
     node (look_at (member_ex "a") "a" c') = Some [("x"%string, 7)]).
Proof.
  destruct own_ex as (s' & Eown & Hn). split.
  - destruct (requests_reach_owner (member_ex "a") all_pass two_ring both 0 "x" "b" "a" pair_ex pair_ex_shared)
      as [HA _]; [set_solver|set_solver|vm_compute; reflexivity|discriminate|].
    destruct (HA 7 _ s' Eown) as (res & c' & E & (Hown & Hf & _) & _).
    change (own_Add (mkAddRequest "x" 7) (member_ex "a") = Ret (res, look_at (member_ex "a") "a" c')) in Hown.
    rewrite Eown in Hown. injection Hown as <- ->. exists c'. split; [exact E|]. split; [exact Hn|].
    destruct (Hf ltac:(discriminate)) as (_ & _ & -> & _). reflexivity.
  - destruct (requests_reach_owner (member_ex "a") replies_lost two_ring both 0 "x" "b" "a" pair_ex pair_ex_shared)
      as [HA _]; [set_solver|set_solver|vm_compute; reflexivity|discriminate|].
    destruct (HA 7 _ s' Eown) as (res & c' & E & (Hown & _) & _).
    change (res = Err (EExternal "timeout") ∧ ∃ lost, own_Add (mkAddRequest "x" 7) (member_ex "a") =
      Ret (lost, look_at (member_ex "a") "a" c')) in Hown.
    destruct Hown as [-> [lost Hown]]. rewrite Eown in Hown. injection Hown as _ ->.
    exists c'. split; [exact E|exact Hn].
Defined.

Lemma pair_ex_typed : cluster_typed (member_ex "a") pair_ex.
Proof.
  intros a. assert (∀ b, server_typed (member_ex b)) as Hm.
  { intros b. split; [apply empty_engine_ok|]. intros r [= <-]. apply ring_run_sorted. }
  unfold look_at, pair_ex. destruct ({[ _ := _; _ := _ ]} !! a) as [s|] eqn:E; [|apply Hm].
  apply lookup_insert_Some in E as [[_ <-]|[_ E]]; [apply Hm|].
  apply lookup_singleton_Some in E as [_ <-]. apply Hm.
Qed.

(** Forwarded by "b", answered by "a". *)
Lemma query_ex_ok :
  match query_via (member_ex "a") all_pass 1 "b" (mkQueryRequest "x" false) pair_ex with
  | Ret (Ok _, _) => true
  | _ => false
  end = true.
Proof. vm_compute. reflexivity. Qed.


End Witnesses.
