(* ===== verification/Observe.v ===== *)
(** * What operators see (internal/server/collector.go, health.go, interceptor.go)

    The two Prometheus collectors, the health endpoints and the gRPC interceptor. A
    collector's channel is the list of what it sends. *)

From stdpp Require Import pretty.
From S2P Require Import Prelude External Sketch SketchValue Float64 Hll Estimate Bitmap Algorithms.
From S2P Require Import Engine EngineProps Handler RaftLib Store Raft Main Proto3 Server MessagesProps.
Local Open Scope Z_scope.

(** ** Metrics sent by the collectors *)

Inductive Desc := groupCardinalityDesc | groupsDroppedDesc | engineGroupsDesc
  | raftTermDesc | raftIsLeaderDesc | raftAppliedIndexDesc.

Record Metric := mkMetric { m_desc : Desc; m_value : f64; m_labels : list string }.

(** [prometheus.MustNewConstMetric] panics on a label value that is not UTF-8. *)
Definition valid_label (v : string) : Prop := utf8_Valid (list_byte_of_string v) = true.
Definition bad_label : string := "label value is not valid UTF-8".
Definition MustNewConstMetric {S} (d : Desc) (v : f64) (labels : list string) : prog S Metric :=
  if decide (Forall valid_label labels) then ret (mkMetric d v labels) else panic bad_label.

(** ** The order of the export: larger estimates first, then by name

    Go compares strings byte by byte. *)
Definition string_le (g h : string) : Prop :=
  bytes_le (list_byte_of_string g) (list_byte_of_string h).
#[export] Instance string_le_dec : RelDecision string_le.
Proof. intros g h. unfold string_le. apply _. Defined.

Definition before (all : gmap string Z) (g h : string) : Prop :=
  let x := default 0 (all !! g) in
  let y := default 0 (all !! h) in
  if decide (x ≠ y) then x > y else string_le g h.
#[export] Instance before_dec all : RelDecision (before all).
Proof. intros g h. unfold before. case_decide; apply _. Defined.

Section Collectors.
Context {Sk : Type} `{!Sketch Sk, !Algorithm Sk, !MapRange}.

Record EngineCollector := mkEngineCollector { ec_maxGroups : Z }.

Definition NewEngineCollector (maxGroups : Z) : EngineCollector := {| ec_maxGroups := maxGroups |}.

Definition EngineCollector_Describe : list Desc :=
  [groupCardinalityDesc; groupsDroppedDesc; engineGroupsDesc].

(** The groups to export and how many are left out. *)
Definition select_groups (maxGroups : Z) (all : gmap string Z) : list string * Z :=
  let groups := (map_range all).*1 in
  if decide (maxGroups > 0 ∧ Z.of_nat (length groups) > maxGroups) then
    (take (Z.to_nat maxGroups) (merge_sort (before all) groups),
     Z.of_nat (length groups) - maxGroups)
  else (groups, 0).

Fixpoint group_metrics {S} (all : gmap string Z) (groups : list string) : prog S (list Metric) :=
  match groups with
  | [] => ret []
  | g :: groups' =>
      let* m := MustNewConstMetric groupCardinalityDesc (f64_of_Z (default 0 (all !! g))) [g] in
      let* ms := group_metrics all groups' in
      ret (m :: ms)
  end.

Definition EngineCollector_Collect (c : EngineCollector) : prog (Engine Sk) (list Metric) :=
  let* all := engine_CardinalityAll in
  let '(groups, dropped) := select_groups (ec_maxGroups c) all in
  let* d := MustNewConstMetric groupsDroppedDesc (f64_of_Z dropped) [] in
  let* n := MustNewConstMetric engineGroupsDesc (f64_of_Z (Z.of_nat (size all))) [] in
  let* ms := group_metrics all groups in
  ret (d :: n :: ms).

Record RaftCollector `{!EtcdRaft} := mkRaftCollector { rc_node : Node Sk }.

Definition NewRaftCollector `{!EtcdRaft} (n : Node Sk) : RaftCollector := {| rc_node := n |}.

Definition RaftCollector_Describe : list Desc :=
  [raftTermDesc; raftIsLeaderDesc; raftAppliedIndexDesc].

Definition RaftCollector_Collect `{!EtcdRaft} (c : RaftCollector) : list Metric :=
  let '(term, leader, applied) := Status (rc_node c) in
  let leaderVal := if (leader : bool) then f64_of_Z 1 else f64_of_Z 0 in
  [mkMetric raftTermDesc (f64_of_Z term) [];
   mkMetric raftIsLeaderDesc leaderVal [];
   mkMetric raftAppliedIndexDesc (f64_of_Z applied) []].

End Collectors.

(** ** Health *)

Record Response := mkResponse { rs_code : Z; rs_body : string }.
Definition newline : string := String (Ascii.ascii_of_nat 10) EmptyString.

Definition HealthzHandler : Response := mkResponse 200 ("ok" +:+ newline).

(** [http.Error] ends its message with a line feed of its own. *)
Definition ReadyzHandler (ready : bool) : Response :=
  if negb ready then mkResponse 503 ("not ready" +:+ newline +:+ newline)
  else mkResponse 200 ("ready" +:+ newline).

(** ** The interceptor *)

(** [status.Code]: OK for nil, the code of a status error, Unknown for others. *)
Definition status_Code (err : option error) : Z :=
  match err with
  | None => 0
  | Some (EStatus code _) => code
  | Some (EStatusf code _ _) => code
  | Some _ => codes_Unknown
  end.

(** [String] of a code. *)
Definition code_names : list string :=
  ["OK"; "Canceled"; "Unknown"; "InvalidArgument"; "DeadlineExceeded"; "NotFound"; "AlreadyExists";
   "PermissionDenied"; "ResourceExhausted"; "FailedPrecondition"; "Aborted"; "OutOfRange"; "Unimplemented";
   "Internal"; "Unavailable"; "DataLoss"; "Unauthenticated"].
Definition code_String (code : Z) : string :=
  match (if decide (0 ≤ code) then code_names !! Z.to_nat code else None) with
  | Some name => name
  | None => "Code(" +:+ pretty code +:+ ")"
  end.

Record GrpcMetrics := mkGrpcMetrics {
  grpcRequestsTotal : gmap (string * string) Z;
  grpcDuration : gmap (string * string) Z;
}.

Definition count_call (fullMethod code : string) (m : GrpcMetrics) : GrpcMetrics :=
  mkGrpcMetrics (inc (fullMethod, code) (grpcRequestsTotal m)) (inc (fullMethod, code) (grpcDuration m)).

Definition UnaryMetricsInterceptor {St A} (fullMethod : string)
    (handler : prog (St * GrpcMetrics) (result A)) : prog (St * GrpcMetrics) (result A) :=
  let* r := handler in
  let code := code_String (status_Code (match r with Ok _ => None | Err e => Some e end)) in
  λ st, Ret (r, (st.1, count_call fullMethod code st.2)).

(** ** The order is total *)

Lemma list_byte_of_string_eq (g h : string) :
  string_le g h → string_le h g → g = h.
Proof.
  unfold string_le, bytes_le. intros Hgh Hhg. apply list_byte_of_string_inj. revert Hgh Hhg.
  generalize (list_byte_of_string g) (list_byte_of_string h).
  induction l as [|x a IH]; intros [|y b]; simpl; try done.
  rewrite !orb_true_iff, !andb_true_iff, !Z.ltb_lt, !Z.eqb_eq.
  intros [?|[E Hab]] [?|[E' Hba]]; try lia. f_equal; [by apply (inj byte_to_Z)|by apply IH].
Qed.

#[export] Instance before_total all : Total (before all).
Proof.
  intros g h. unfold before. repeat case_decide; try lia. apply bytes_le_total.
Qed.

#[export] Instance before_trans all : Transitive (before all).
Proof.
  intros g h k. unfold before. repeat case_decide; try lia. apply bytes_le_trans.
Qed.

#[export] Instance before_antisymm all : AntiSymm (=) (before all).
Proof.
  intros g h. unfold before. repeat case_decide; try lia. apply list_byte_of_string_eq.
Qed.

Lemma StronglySorted_app_le {A} (R : relation A) (l k : list A) x y :
  StronglySorted R (l ++ k) → x ∈ l → y ∈ k → R x y.
Proof.
  induction l as [|z l IH]; intros Hs Hx Hy; [by apply not_elem_of_nil in Hx|].
  apply StronglySorted_inv in Hs as [Hs Hz]. apply elem_of_cons in Hx as [->|Hx]; [|by apply IH].
  rewrite Forall_forall in Hz. apply Hz, elem_of_app. by right.
Qed.

Section Props.
Context `{!MapRange}.
Implicit Types (all : gmap string Z).

Lemma map_range_fst all : (map_range all).*1 ≡ₚ (map_to_list all).*1.
Proof. by rewrite map_range_perm. Qed.

Lemma map_range_length all : length (map_range all).*1 = size all.
Proof. by rewrite map_range_fst, length_fmap, length_map_to_list. Qed.

Lemma map_range_elem all g : g ∈ (map_range all).*1 ↔ is_Some (all !! g).
Proof.
  rewrite map_range_fst, list_elem_of_fmap. split.
  - intros ([g' v] & -> & Hin%elem_of_map_to_list). by exists v.
  - intros [v Hv]. exists (g, v). split; [done|]. by apply elem_of_map_to_list.
Qed.

Lemma map_range_NoDup all : NoDup (map_range all).*1.
Proof. rewrite map_range_fst. apply NoDup_fst_map_to_list. Qed.

Lemma select_groups_spec maxGroups all :
  let '(gs, dropped) := select_groups maxGroups all in
  NoDup gs ∧ (∀ g, g ∈ gs → is_Some (all !! g)) ∧
  Z.of_nat (length gs) + dropped = Z.of_nat (size all) ∧ 0 ≤ dropped ∧
  (maxGroups ≤ 0 → dropped = 0) ∧ (maxGroups > 0 → Z.of_nat (length gs) ≤ maxGroups) ∧
  (dropped > 0 → Z.of_nat (length gs) = maxGroups) ∧
  (∀ g h, g ∈ gs → is_Some (all !! h) → h ∉ gs → before all g h).
Proof.
  unfold select_groups. set (groups := (map_range all).*1).
  pose proof (map_range_length all) as Hlen. fold groups in Hlen.
  case_decide as Hd.
  - set (sorted := merge_sort (before all) groups).
    assert (sorted ≡ₚ groups) as Hperm by apply merge_sort_Permutation.
    assert (length sorted = length groups) as Hls by (by rewrite Hperm).
    assert (∀ g, g ∈ sorted ↔ is_Some (all !! g)) as Hel by (intros g; rewrite Hperm; apply map_range_elem).
    assert (StronglySorted (before all) sorted) as Hs by (apply StronglySorted_merge_sort; apply _).
    set (k := Z.to_nat maxGroups).
    assert (length (take k sorted) = k) as Hk by (rewrite length_take; lia).
    assert (NoDup sorted) as Hnd by (rewrite Hperm; apply map_range_NoDup).
    rewrite <- (take_drop k sorted) in Hnd, Hs, Hel. rewrite Hk.
    apply NoDup_app in Hnd as (Hnd & _ & _).
    split_and!; try lia; [done| |].
    + intros g Hg. apply Hel, elem_of_app. by left.
    + intros g h Hg Hh Hn. apply (StronglySorted_app_le _ _ _ _ _ Hs Hg).
      apply Hel, elem_of_app in Hh as [Hh|Hh]; done.
  - split_and!; try lia; [apply map_range_NoDup|by intros g; apply map_range_elem|].
    intros g h _ Hh Hn. destruct Hn. by apply map_range_elem.
Qed.
End Props.

Lemma group_metrics_spec {S} (all : gmap string Z) gs (st : S) :
  group_metrics all gs st =
  if decide (Forall valid_label gs)
  then Ret ((λ g, mkMetric groupCardinalityDesc (f64_of_Z (default 0 (all !! g))) [g]) <$> gs, st)
  else Panic bad_label.
Proof.
  induction gs as [|g gs IH]; [done|]. cbn [group_metrics]. unfold bind, MustNewConstMetric.
  destruct (decide (Forall valid_label [g])) as [Hg|Hg].
  - apply Forall_cons in Hg as [Hg _]. unfold ret at 1. rewrite IH. destruct (decide (Forall valid_label gs)) as [Hgs|Hgs].
    + rewrite decide_True; [reflexivity|]. by apply Forall_cons_2.
    + rewrite decide_False; [done|]. by intros [_ ?]%Forall_cons.
  - rewrite decide_False; [done|]. intros [? _]%Forall_cons. apply Hg. by apply Forall_singleton.
Qed.

(** ** Claims *)

Section Claims.
Context {Sk : Type} `{AlgorithmLaws Sk, !MapRange, !EtcdRaft}.

(** C34: A scrape sends the number of dropped groups, the number of groups of the engine,
    and one sample with the estimate of each exported group, each group once. Exported
    and dropped add up to all groups; with a cap at most that many are exported, and none
    is dropped unless the cap is used up; a dropped group never has a larger estimate
    than an exported one, and among equal estimates the names decide. Without a cap (zero
    or negative) nothing is dropped. The engine is not changed. A scrape panics exactly
    if the name of an exported group is not UTF-8, which requests cannot bring about,
    since protobuf refuses such names. *)
Theorem collector_exports_top (c : EngineCollector) (e : Engine Sk) :
  engine_ok e →
  ∃ gs dropped,
    let all := sk_Cardinality <$> view e in
    EngineCollector_Collect c e =
      (if decide (Forall valid_label gs)
       then Ret (mkMetric groupsDroppedDesc (f64_of_Z dropped) [] ::
                 mkMetric engineGroupsDesc (f64_of_Z (Z.of_nat (size (view e)))) [] ::
                 ((λ g, mkMetric groupCardinalityDesc (f64_of_Z (default 0 (all !! g))) [g]) <$> gs), e)
       else Panic bad_label) ∧
    NoDup gs ∧ (∀ g, g ∈ gs → is_Some (view e !! g)) ∧
    Z.of_nat (length gs) + dropped = Z.of_nat (size (view e)) ∧ 0 ≤ dropped ∧
    (ec_maxGroups c ≤ 0 → dropped = 0) ∧
    (ec_maxGroups c > 0 → Z.of_nat (length gs) ≤ ec_maxGroups c) ∧
    (dropped > 0 → Z.of_nat (length gs) = ec_maxGroups c) ∧
    (∀ g h, g ∈ gs → is_Some (view e !! h) → h ∉ gs → before all g h).
Proof.
  intros Hok. pose proof (select_groups_spec (ec_maxGroups c) (sk_Cardinality <$> view e)) as HS.
  unfold EngineCollector_Collect, engine_CardinalityAll.
  destruct (select_groups _ _) as [gs dropped] eqn:Es. exists gs, dropped. cbn zeta.
  destruct HS as (S1 & S2 & S3 & S4 & S5 & S6 & S7 & S8). rewrite map_size_fmap in S3.
  split_and!; try done.
  - unfold bind, get. rewrite (engine_collect_all sk_Cardinality e Hok). rewrite Es.
    unfold ret, MustNewConstMetric. rewrite !(decide_True (P := Forall valid_label [])) by constructor.
    unfold ret. rewrite group_metrics_spec, map_size_fmap. by case_decide.
  - intros g Hg. apply S2 in Hg. by rewrite lookup_fmap, fmap_is_Some in Hg.
  - intros g h Hg Hh. apply S8; [done|]. by rewrite lookup_fmap, fmap_is_Some.
Qed.

(** Readiness, the leadership metric and the node's status tell the same story:
    /readyz answers 200 exactly when the exported raft_is_leader sample is one, that is
    when the library reports a leader and it is this node; otherwise it answers 503. *)
Lemma ready_iff_leader (n : Node Sk) :
  let lead := (rn_Status (Raft.node n)).2 in
  (rs_code (ReadyzHandler (ready n)) = 200 ↔ lead ≠ 0 ∧ lead = Raft.id n) ∧
  (rs_code (ReadyzHandler (ready n)) = 200 ↔
     mkMetric raftIsLeaderDesc (f64_of_Z 1) [] ∈ RaftCollector_Collect (NewRaftCollector n)) ∧
  (rs_code (ReadyzHandler (ready n)) ≠ 200 → rs_code (ReadyzHandler (ready n)) = 503).
Proof.
  unfold ready, RaftCollector_Collect, Status. cbn [rc_node NewRaftCollector].
  destruct (rn_Status (Raft.node n)) as [term lead]. cbn [snd].
  case_bool_decide as Hl; simpl; (split_and!; [naive_solver| |naive_solver]); split; try done.
  - intros _. right. left.
  - intros Hin. exfalso.
    apply elem_of_cons in Hin as [Hin|Hin]; [done|].
    apply elem_of_cons in Hin as [Hin|Hin]; [done|].
    apply elem_of_cons in Hin as [Hin|[]%not_elem_of_nil]. done.
Qed.

End Claims.

(** One counter goes up by one, that of the method and the code. *)
Lemma count_call_total fullMethod code m k :
  default 0 (grpcRequestsTotal (count_call fullMethod code m) !! k) =
  default 0 (grpcRequestsTotal m !! k) + (if decide (k = (fullMethod, code)) then 1 else 0).
Proof.
  unfold count_call, inc. cbn [grpcRequestsTotal]. case_decide as Hk.
  - subst. by rewrite lookup_insert_eq.
  - rewrite lookup_insert_ne by done. by rewrite Z.add_0_r.
Qed.

(** ** Witnesses *)

Section Witnesses.
Import Concrete StandIn RaftStandIn.

(** Two groups and a cap of one. *)
Definition two_groups : gmap string SketchV := spec_calls [CAdd "a" 1; CAdd "a" 2; CAdd "b" 1] ∅.

Lemma two_groups_engine : ∃ e : Engine SketchV, engine_ok e ∧ view e = two_groups.
Proof.
  destruct (engine_calls_refines (NewEngine ∅) [CAdd "a" 1; CAdd "a" 2; CAdd "b" 1]) as (e & _ & Hok & Hv & _).
  - apply empty_engine_ok.
  - by repeat constructor.
  - by exists e.
Qed.

Lemma collector_exports_top_witness :
  ∃ (e : Engine SketchV) m, engine_ok e ∧ view e = two_groups ∧
    EngineCollector_Collect (NewEngineCollector 1) e =
      Ret ([mkMetric groupsDroppedDesc (f64_of_Z 1) []; mkMetric engineGroupsDesc (f64_of_Z 2) []; m], e).
Proof.
  destruct (two_groups_engine) as (e & Hok & Hv).
  destruct (collector_exports_top (NewEngineCollector 1) e Hok)
    as (gs & dropped & E & _ & Hin & Hsum & H0 & _ & Hcap & Hfull & _).
  assert (size (view e) = 2%nat) as Hsize by (rewrite Hv; vm_compute; reflexivity).
  rewrite Hsize in Hsum, E. cbn [ec_maxGroups NewEngineCollector] in *.
  assert (dropped = 1 ∧ length gs = 1%nat) as [-> Hlen] by (specialize (Hcap ltac:(lia)); lia).
  destruct gs as [|g [|? ?]]; [discriminate| |discriminate].
  rewrite decide_True in E; [exists e; eexists; split; [exact Hok|split; [exact Hv|exact E]]|].
  apply Forall_singleton. destruct (Hin g ltac:(left)) as [sk Hg]. rewrite Hv in Hg.
  unfold two_groups, spec_calls in Hg. cbn [foldl spec_call] in Hg. unfold spec_Add in Hg.
  repeat (apply lookup_insert_Some in Hg as [[<- _]|[_ Hg]]; [reflexivity|]). discriminate Hg.
Defined.

End Witnesses.
