(* ===== verification/Telemetry.v ===== *)
(** * The registered metrics (internal/server/metrics.go, internal/server/collector.go,
    internal/store/metrics.go)

    Names and label names of every metric, their registration (a name that is taken makes
    [MustRegister] and [promauto] panic) and the agreement of what the collectors send
    with what they describe, without which [MustNewConstMetric] panics. *)

From S2P Require Import Prelude External Sketch SketchValue Float64 Hll Estimate Bitmap Algorithms.
From S2P Require Import Engine EngineProps Handler RaftLib Store Raft Main Server Observe.
Local Open Scope Z_scope.

Record MetricDesc := mkDesc { md_name : string; md_labels : list string }.

(** ** Descriptors *)

Definition metricSaveDurationSeconds : MetricDesc :=
  mkDesc "cardinality_tracker_store_save_duration_seconds" [].
Definition metricSaveErrorsTotal : MetricDesc :=
  mkDesc "cardinality_tracker_store_save_errors_total" [].

Definition metricRequestsTotal : MetricDesc :=
  mkDesc "cardinality_tracker_requests_total" ["method"; "status"]%string.
Definition metricRequestDurationSeconds : MetricDesc :=
  mkDesc "cardinality_tracker_request_duration_seconds" ["method"]%string.
Definition metricRaftProposalsTotal : MetricDesc :=
  mkDesc "cardinality_tracker_raft_proposals_total" ["status"]%string.
Definition metricForwardedRequestsTotal : MetricDesc :=
  mkDesc "cardinality_tracker_forwarded_requests_total" ["peer"; "method"]%string.
Definition metricForwardedErrorsTotal : MetricDesc :=
  mkDesc "cardinality_tracker_forwarded_errors_total" ["peer"; "method"]%string.
Definition metricBatchSize : MetricDesc := mkDesc "cardinality_tracker_batch_size" [].
Definition metricGRPCRequestsTotal : MetricDesc :=
  mkDesc "cardinality_tracker_grpc_requests_total" ["method"; "code"]%string.
Definition metricGRPCDurationSeconds : MetricDesc :=
  mkDesc "cardinality_tracker_grpc_request_duration_seconds" ["method"; "code"]%string.

Definition desc_info (d : Desc) : MetricDesc :=
  match d with
  | groupCardinalityDesc => mkDesc "cardinality_tracker_group_cardinality" ["group"]%string
  | groupsDroppedDesc => mkDesc "cardinality_tracker_groups_dropped" []
  | engineGroupsDesc => mkDesc "cardinality_tracker_engine_groups" []
  | raftTermDesc => mkDesc "cardinality_tracker_raft_term" []
  | raftIsLeaderDesc => mkDesc "cardinality_tracker_raft_is_leader" []
  | raftAppliedIndexDesc => mkDesc "cardinality_tracker_raft_applied_index" []
  end.

(** ** Registration *)

(** Registering a collector's descriptors with the names taken so far. *)
Definition MustRegister (descs : list MetricDesc) : prog (list string) unit := λ taken,
  if decide (NoDup (md_name <$> descs) ∧ Forall (λ d, md_name d ∉ taken) descs)
  then Ret (tt, taken ++ (md_name <$> descs))
  else Panic "duplicate metrics collector registration attempted".

(** The package variables, each registered by [promauto] when the program starts. *)
Definition register_vars : prog (list string) unit :=
  foldr (λ d k, let* _ := MustRegister [d] in k) (ret tt)
    [metricSaveDurationSeconds; metricSaveErrorsTotal; metricRequestsTotal; metricRequestDurationSeconds;
     metricRaftProposalsTotal; metricForwardedRequestsTotal; metricForwardedErrorsTotal; metricBatchSize;
     metricGRPCRequestsTotal; metricGRPCDurationSeconds].

(** The call in [run]. *)
Definition register_collectors : prog (list string) unit :=
  let* _ := MustRegister (desc_info <$> EngineCollector_Describe) in
  MustRegister (desc_info <$> RaftCollector_Describe).

(** From an empty registry both succeed, and sixteen names are taken. *)
Lemma registration_succeeds :
  ∃ taken, (let* _ := register_vars in register_collectors) [] = Ret (tt, taken) ∧ length taken = 16%nat.
Proof. eexists. split; [vm_compute; reflexivity|reflexivity]. Qed.

(** ** What the collectors send *)

(** The metric is one of the described ones and has a value for each label. *)
Definition described (ds : list Desc) (m : Metric) : Prop :=
  m_desc m ∈ ds ∧ length (m_labels m) = length (md_labels (desc_info (m_desc m))).

Section Collect.
Context {Sk : Type} `{AlgorithmLaws Sk, !MapRange, !EtcdRaft}.

Lemma engine_collect_described (c : EngineCollector) (e : Engine Sk) ms e' :
  EngineCollector_Collect c e = Ret (ms, e') → Forall (described EngineCollector_Describe) ms.
Proof.
  unfold EngineCollector_Collect, bind. destruct (engine_CardinalityAll e) as [[all e1]|]; [|done].
  destruct (select_groups _ all) as [gs dropped]. unfold MustNewConstMetric.
  rewrite !(decide_True (P := Forall valid_label [])) by constructor. unfold ret.
  rewrite group_metrics_spec. case_decide; [|done]. intros [= <- _].
  repeat (apply Forall_cons; split); [split; [|done]; set_solver..|].
  apply Forall_fmap, Forall_forall. intros g _. split; [|done]. cbn. set_solver.
Qed.

Lemma raft_collect_described (n : Node Sk) : Forall (described RaftCollector_Describe) (RaftCollector_Collect (NewRaftCollector n)).
Proof.
  unfold RaftCollector_Collect. cbn [rc_node NewRaftCollector]. destruct (Status n) as [[term leader] applied].
  repeat (apply Forall_cons; split); [split; [|done]; set_solver..|]. constructor.
Qed.
End Collect.
