(* ===== verification/Rpc.v ===== *)
(** * The generated gRPC stubs (gen/cardinality/v1/cardinality_grpc.pb.go)

    The client, the server interface, the method handlers and the service descriptor.
    What lies between them is google.golang.org/grpc: a connection's [Invoke] is a
    parameter, and [serves] states what a unary call over it does when a server with
    the descriptor's handlers listens at the other end: the request may get lost, or
    the reply, or neither ([fate]), and a handler runs at most once.

    [remote] is the abstract remote procedure call, which runs the callee at most once and
    counts it ([counted_once]); [client_calls_server] shows that the stubs, with the
    interceptor of internal/server around the handlers, implement it. *)

From S2P Require Import Prelude External Sketch SketchValue Float64 Hll Estimate Bitmap Algorithms.
From S2P Require Import Engine EngineProps Handler RaftLib Router Store Raft Main Proto3 Pb Messages MessagesProps Server ServerProps Observe.
Local Open Scope Z_scope.

(** ** Messages as [interface{}] values

    [to_message] stores a typed message in an interface, [of_message] is the type
    assertion back, [zero] is [new]. *)
Inductive message :=
  | MAddRequest (x : AddRequest)
  | MBatchAddRequest (x : BatchAddRequest)
  | MAddResponse (x : AddResponse)
  | MQueryRequest (x : QueryRequest)
  | MQueryResponse (x : QueryResponse).

(** The dynamic type of the value in an interface. *)
Definition message_type (m : message) : GoType :=
  match m with
  | MAddRequest _ => TAddRequest
  | MBatchAddRequest _ => TBatchAddRequest
  | MAddResponse _ => TAddResponse
  | MQueryRequest _ => TQueryRequest
  | MQueryResponse _ => TQueryResponse
  end.

Class ProtoMessage (A : Type) := {
  to_message : A → message;
  of_message : message → option A;
  zero : A;
  of_to_message : ∀ a, of_message (to_message a) = Some a;
  to_message_type : ∀ a, message_type (to_message a) = message_type (to_message zero);
}.

#[export] Instance AddRequest_message : ProtoMessage AddRequest := {
  to_message := MAddRequest;
  of_message m := match m with MAddRequest x => Some x | _ => None end;
  zero := mkAddRequest EmptyString 0;
  of_to_message a := eq_refl;
  to_message_type a := eq_refl;
}.
#[export] Instance BatchAddRequest_message : ProtoMessage BatchAddRequest := {
  to_message := MBatchAddRequest;
  of_message m := match m with MBatchAddRequest x => Some x | _ => None end;
  zero := mkBatchAddRequest EmptyString [];
  of_to_message a := eq_refl;
  to_message_type a := eq_refl;
}.
#[export] Instance AddResponse_message : ProtoMessage AddResponse := {
  to_message := MAddResponse;
  of_message m := match m with MAddResponse x => Some x | _ => None end;
  zero := mkAddResponse false;
  of_to_message a := eq_refl;
  to_message_type a := eq_refl;
}.
#[export] Instance QueryRequest_message : ProtoMessage QueryRequest := {
  to_message := MQueryRequest;
  of_message m := match m with MQueryRequest x => Some x | _ => None end;
  zero := mkQueryRequest EmptyString false;
  of_to_message a := eq_refl;
  to_message_type a := eq_refl;
}.
#[export] Instance QueryResponse_message : ProtoMessage QueryResponse := {
  to_message := MQueryResponse;
  of_message m := match m with MQueryResponse x => Some x | _ => None end;
  zero := mkQueryResponse EmptyString 0;
  of_to_message a := eq_refl;
  to_message_type a := eq_refl;
}.

(** ** Method names *)

Definition CardinalityService_Add_FullMethodName : string := "/cardinality.v1.CardinalityService/Add".
Definition CardinalityService_BatchAdd_FullMethodName : string := "/cardinality.v1.CardinalityService/BatchAdd".
Definition CardinalityService_Query_FullMethodName : string := "/cardinality.v1.CardinalityService/Query".

Definition codes_Unimplemented : Z := 12.

(** ** google.golang.org/grpc and google.golang.org/protobuf, as the stubs call them *)

(** [metadata.MD], and the header and trailer that the call options receive. *)
Definition MD : Type := gmap string (list string).
Record ServerMetadata := mkServerMetadata { HeaderMD : MD; TrailerMD : MD }.
Definition no_metadata : ServerMetadata := mkServerMetadata ∅ ∅.

(** [Invoke] fills the message it is given for the reply. *)
Class ClientConnInterface (C St : Type) := {
  Invoke : ∀ {A B : Type} `{!ProtoMessage A} `{!ProtoMessage B},
    C → string → A → B → prog St (option error * B * ServerMetadata);
}.

(** The wire: unmarshalling resets the target, so it inverts marshalling; an error
    returned by a handler arrives with the same status code. *)
Class ProtoWire := {
  Wire : Type;
  wire_Marshal : message → result Wire;
  wire_Unmarshal : ∀ {A : Type} `{!ProtoMessage A}, Wire → A → option error * A;
  wire_roundtrip : ∀ (A : Type) (PA : ProtoMessage A) (a out : A) w,
    wire_Marshal (to_message a) = Ok w → wire_Unmarshal w out = (None, a);
  status_over_wire : error → error;
  status_over_wire_code : ∀ e, status_Code (Some (status_over_wire e)) = status_Code (Some e);
}.

(** ** Client *)

Record CardinalityServiceClient (St : Type) := mkClient {
  cl_Add : AddRequest → prog St (result AddResponse * ServerMetadata);
  cl_BatchAdd : BatchAddRequest → prog St (result AddResponse * ServerMetadata);
  cl_Query : QueryRequest → prog St (result QueryResponse * ServerMetadata);
}.
Arguments cl_Add {St} _ _.
Arguments cl_BatchAdd {St} _ _.
Arguments cl_Query {St} _ _.

Section Client.
Context {C St : Type} `{!ClientConnInterface C St}.

Definition client_Add_rpc (cc : C) (req : AddRequest) : prog St (result AddResponse * ServerMetadata) :=
  let* ' (err, out, md) := Invoke cc CardinalityService_Add_FullMethodName req (zero : AddResponse) in
  match err with
  | Some e => ret (Err e, md)
  | None => ret (Ok out, md)
  end.

Definition client_BatchAdd_rpc (cc : C) (req : BatchAddRequest)
    : prog St (result AddResponse * ServerMetadata) :=
  let* ' (err, out, md) := Invoke cc CardinalityService_BatchAdd_FullMethodName req (zero : AddResponse) in
  match err with
  | Some e => ret (Err e, md)
  | None => ret (Ok out, md)
  end.

Definition client_Query_rpc (cc : C) (req : QueryRequest)
    : prog St (result QueryResponse * ServerMetadata) :=
  let* ' (err, out, md) := Invoke cc CardinalityService_Query_FullMethodName req (zero : QueryResponse) in
  match err with
  | Some e => ret (Err e, md)
  | None => ret (Ok out, md)
  end.

Definition NewCardinalityServiceClient (cc : C) : CardinalityServiceClient St :=
  mkClient St (client_Add_rpc cc) (client_BatchAdd_rpc cc) (client_Query_rpc cc).
End Client.

(** ** Server interface *)

Record CardinalityServiceServer (St : Type) := mkService {
  server_Add : AddRequest → prog St (result AddResponse);
  server_BatchAdd : BatchAddRequest → prog St (result AddResponse);
  server_Query : QueryRequest → prog St (result QueryResponse);
}.
Arguments server_Add {St} _ _.
Arguments server_BatchAdd {St} _ _.
Arguments server_Query {St} _ _.

Definition UnimplementedCardinalityServiceServer {St : Type} : CardinalityServiceServer St :=
  mkService St
    (λ _, ret (Err (EStatus codes_Unimplemented "method Add not implemented")))
    (λ _, ret (Err (EStatus codes_Unimplemented "method BatchAdd not implemented")))
    (λ _, ret (Err (EStatus codes_Unimplemented "method Query not implemented"))).

(** ** Method handlers and the descriptor *)

Definition decoder : Type := ∀ A : Type, ProtoMessage A → A → option error * A.
Definition UnaryServerInterceptor (St : Type) : Type :=
  message → string → (message → prog St (result message)) → prog St (result message).

Section Handlers.
Context {St : Type}.
Implicit Types (srv : CardinalityServiceServer St) (interceptor : option (UnaryServerInterceptor St)).

Definition bad_assertion : string := "interface conversion".

Definition _CardinalityService_Add_Handler srv (dec : decoder) interceptor : prog St (result message) :=
  let '(err, req) := dec AddRequest _ zero in
  match err with
  | Some e => ret (Err e)
  | None =>
      match interceptor with
      | None => let* r := server_Add srv req in ret (result_map to_message r)
      | Some ic =>
          ic (to_message req) CardinalityService_Add_FullMethodName (λ m,
            match of_message m with
            | Some req => let* r := server_Add srv req in ret (result_map to_message r)
            | None => panic bad_assertion
            end)
      end
  end.

Definition _CardinalityService_BatchAdd_Handler srv (dec : decoder) interceptor : prog St (result message) :=
  let '(err, req) := dec BatchAddRequest _ zero in
  match err with
  | Some e => ret (Err e)
  | None =>
      match interceptor with
      | None => let* r := server_BatchAdd srv req in ret (result_map to_message r)
      | Some ic =>
          ic (to_message req) CardinalityService_BatchAdd_FullMethodName (λ m,
            match of_message m with
            | Some req => let* r := server_BatchAdd srv req in ret (result_map to_message r)
            | None => panic bad_assertion
            end)
      end
  end.

Definition _CardinalityService_Query_Handler srv (dec : decoder) interceptor : prog St (result message) :=
  let '(err, req) := dec QueryRequest _ zero in
  match err with
  | Some e => ret (Err e)
  | None =>
      match interceptor with
      | None => let* r := server_Query srv req in ret (result_map to_message r)
      | Some ic =>
          ic (to_message req) CardinalityService_Query_FullMethodName (λ m,
            match of_message m with
            | Some req => let* r := server_Query srv req in ret (result_map to_message r)
            | None => panic bad_assertion
            end)
      end
  end.

Record ServiceDesc := mkServiceDesc {
  ServiceName : string;
  Methods : list (string *
    (CardinalityServiceServer St → decoder → option (UnaryServerInterceptor St) → prog St (result message)));
}.

Definition CardinalityService_ServiceDesc : ServiceDesc :=
  mkServiceDesc "cardinality.v1.CardinalityService"
    [("Add"%string, _CardinalityService_Add_Handler);
     ("BatchAdd"%string, _CardinalityService_BatchAdd_Handler);
     ("Query"%string, _CardinalityService_Query_Handler)].

(** A server with the descriptor answers "/<service>/<method>". *)
Definition method_handler (desc : ServiceDesc) (full : string) :=
  (λ found, found.2.2) <$> list_find (λ m, full = "/" +:+ ServiceName desc +:+ "/" +:+ m.1) (Methods desc).
End Handlers.
Arguments ServiceDesc St : clear implicits.

(** A request that cannot be decoded is answered before the interceptor sees it, so the
    transport metrics do not count it. *)
Lemma undecoded_not_counted {St} srv (dec : decoder) (ic : UnaryServerInterceptor St) e req st :
  dec AddRequest _ zero = (Some e, req) →
  _CardinalityService_Add_Handler srv dec (Some ic) st = Ret (Err e, st).
Proof. intros Hd. unfold _CardinalityService_Add_Handler. by rewrite Hd. Qed.

(** The service that internal/server registers. *)
Definition ServerService {Sk N : Type} `{!Sketch Sk, !Algorithm Sk, !Badger, !Murmur3, !Grpc, !RaftNodeI N}
    {St : Type} (look : St → Server Sk N) (write : Server Sk N → St → St) (peers : Peers St)
    : CardinalityServiceServer St :=
  mkService St (Add look write peers) (BatchAdd look write peers) (Query look write peers).

(** The interceptor as the handlers take it, and a service on the state with the
    interceptor's counters. *)
Definition metrics_interceptor {St} : UnaryServerInterceptor (St * GrpcMetrics) :=
  λ req info handler, UnaryMetricsInterceptor info (handler req).
Definition with_metrics {St} (svc : CardinalityServiceServer St) : CardinalityServiceServer (St * GrpcMetrics) :=
  mkService _ (λ r, on_fst (server_Add svc r)) (λ r, on_fst (server_BatchAdd svc r))
    (λ r, on_fst (server_Query svc r)).

(** ** A unary call

    What becomes of a call. *)
Inductive fate :=
  | Delivered (md : ServerMetadata)
  | RequestLost (e : error)
  | ReplyLost (e : error).

Section Calls.
Context {St : Type} `{!ProtoWire}.

Definition wire_decoder (w : Wire) : decoder := λ A PA out, wire_Unmarshal w out.

Definition unary_call {B} `{!ProtoMessage B} (desc : ServiceDesc St) (srv : CardinalityServiceServer St)
    (ic : option (UnaryServerInterceptor St)) (f : fate) (method : string) (req : message) (out : B)
    : prog St (option error * B * ServerMetadata) :=
  match wire_Marshal req, f with
  | Err e, _ | Ok _, RequestLost e => ret (Some e, out, no_metadata)
  | Ok w, _ =>
      match method_handler desc method with
      | None => ret (Some (EStatus codes_Unimplemented "unknown method"), out, no_metadata)
      | Some h =>
          let* r := h srv (wire_decoder w) ic in
          match f, r with
          | Delivered md, Ok m =>
              match wire_Marshal m with
              | Err e => ret (Some e, out, md)
              | Ok w' => ret (wire_Unmarshal w' out, md)
              end
          | Delivered md, Err e => ret (Some (status_over_wire e), out, md)
          | ReplyLost e, _ | RequestLost e, _ => ret (Some e, out, no_metadata)
          end
      end
  end.

(** The connection's other end is a server with these handlers; [fates] is what becomes
    of a call to a method in a state. *)
Definition serves {C} `{!ClientConnInterface C St} (cc : C) (fates : string → St → fate)
    (desc : ServiceDesc St) (srv : CardinalityServiceServer St)
    (ic : option (UnaryServerInterceptor St)) : Prop :=
  ∀ (A B : Type) (PA : ProtoMessage A) (PB : ProtoMessage B) method (req : A) (out : B) st,
    Invoke cc method req out st =
    unary_call desc srv ic (fates method st) method (to_message req) out st.
End Calls.

(** ** The abstract remote call *)

Section Remote.
Context {C St : Type} `{!ProtoWire, !ClientConnInterface C (St * GrpcMetrics)}.
Context (cc : C) (fates : string → St * GrpcMetrics → fate).
Implicit Types (svc : CardinalityServiceServer St).

(** What the caller sees of the callee's result. *)
Definition reply {B} `{!ProtoMessage B} (r : result B) : result B :=
  match r with
  | Err e => Err (status_over_wire e)
  | Ok b => match wire_Marshal (to_message b) with Ok _ => Ok b | Err e => Err e end
  end.

(** A label's counter goes up by one. *)
Definition one_more (k : string * string) (m : gmap (string * string) Z) : gmap (string * string) Z :=
  partial_alter (λ n, Some (default 0 n + 1)) k m.

(** The callee runs once on its own state, and one request and one duration are counted
    under the method and the name of the status code it ended with. *)
Definition counted_once {B} (full : string) (call : prog St (result B)) : prog (St * GrpcMetrics) (result B) := λ st,
  match call st.1 with
  | Panic msg => Panic msg
  | Ret (r, s) =>
      let label := (full, match r with Ok _ => "OK"%string | Err e => code_String (status_Code (Some e)) end) in
      Ret (r, (s, mkGrpcMetrics (one_more label (grpcRequestsTotal st.2)) (one_more label (grpcDuration st.2))))
  end.

Definition remote {B} `{!ProtoMessage B} (f : fate) (full : string) (req : message)
    (call : prog St (result B)) : prog (St * GrpcMetrics) (result B * ServerMetadata) :=
  match wire_Marshal req, f with
  | Err e, _ | Ok _, RequestLost e => ret (Err e, no_metadata)
  | Ok _, ReplyLost e => let* _ := counted_once full call in ret (Err e, no_metadata)
  | Ok _, Delivered md => let* r := counted_once full call in ret (reply r, md)
  end.

(** A handler on a marshalled request is the method under the interceptor. *)
Definition handles {A B} `{!ProtoMessage A, !ProtoMessage B} svc (full : string)
    (call : A → prog St (result B))
    (h : CardinalityServiceServer (St * GrpcMetrics) → decoder →
         option (UnaryServerInterceptor (St * GrpcMetrics)) → prog (St * GrpcMetrics) (result message)) : Prop :=
  ∀ req w st, wire_Marshal (to_message req) = Ok w →
    h (with_metrics svc) (wire_decoder w) (Some metrics_interceptor) st =
    UnaryMetricsInterceptor full
      (let* r := on_fst (call req) in ret (result_map to_message r)) st.

Lemma Add_Handler_handles svc :
  handles svc CardinalityService_Add_FullMethodName (server_Add svc) _CardinalityService_Add_Handler.
Proof.
  intros req w st Hw. unfold _CardinalityService_Add_Handler, wire_decoder.
  by rewrite (wire_roundtrip AddRequest _ req zero w Hw).
Qed.

Lemma BatchAdd_Handler_handles svc :
  handles svc CardinalityService_BatchAdd_FullMethodName (server_BatchAdd svc) _CardinalityService_BatchAdd_Handler.
Proof.
  intros req w st Hw. unfold _CardinalityService_BatchAdd_Handler, wire_decoder.
  by rewrite (wire_roundtrip BatchAddRequest _ req zero w Hw).
Qed.

Lemma Query_Handler_handles svc :
  handles svc CardinalityService_Query_FullMethodName (server_Query svc) _CardinalityService_Query_Handler.
Proof.
  intros req w st Hw. unfold _CardinalityService_Query_Handler, wire_decoder.
  by rewrite (wire_roundtrip QueryRequest _ req zero w Hw).
Qed.

Lemma inc_one_more (k : string * string) m : inc k m = one_more k m.
Proof.
  apply map_eq. intros k'. unfold inc, one_more. destruct (decide (k = k')) as [<-|Hk].
  - by rewrite lookup_insert_eq, lookup_partial_alter_eq.
  - by rewrite lookup_insert_ne, lookup_partial_alter_ne.
Qed.

(** The interceptor runs the handler once and counts it once, whatever its result is
    turned into. *)
Lemma interceptor_once {A B} full (call : prog St (result A)) (f : A → B) st :
  UnaryMetricsInterceptor full (let* r := on_fst call in ret (result_map f r)) st =
  match counted_once full call st with
  | Ret (r, st') => Ret (result_map f r, st')
  | Panic msg => Panic msg
  end.
Proof.
  destruct st as [s m]. unfold UnaryMetricsInterceptor, counted_once, bind, on_fst, ret, count_call. cbn [fst snd].
  destruct (call s) as [[[a|e] s']|]; cbn [result_map fst snd]; [| |done]; by rewrite !inc_one_more.
Qed.

(** [Invoke] on a method that is in the descriptor, seen through the client stub. *)
Lemma stub_remote {A B} `{!ProtoMessage A, !ProtoMessage B} svc full (call : A → prog St (result B)) h req out st :
  serves cc fates CardinalityService_ServiceDesc (with_metrics svc) (Some metrics_interceptor) →
  method_handler CardinalityService_ServiceDesc full = Some h → handles svc full call h →
  (let* ' (err, out, md) := Invoke cc full req out in
   match err with Some e => ret (Err e, md) | None => ret (Ok out, md) end) st =
  remote (fates full st) full (to_message req) (call req) st.
Proof.
  intros Hs Hm Hh. unfold bind at 1. rewrite Hs. unfold unary_call, remote. rewrite Hm.
  destruct (wire_Marshal (to_message req)) as [w|e] eqn:Ew; [|done].
  destruct (fates full st) as [md|e|e]; [|done|].
  - unfold bind at 1. rewrite (Hh req w st Ew), interceptor_once. unfold bind at 1.
    destruct (counted_once full (call req) st) as [[[b|e] st']|]; [|done|done].
    cbn [result_map reply]. destruct (wire_Marshal (to_message b)) as [w'|e] eqn:Ew'; [|done].
    unfold ret. by rewrite (wire_roundtrip B _ b out w' Ew').
  - unfold bind at 1. rewrite (Hh req w st Ew), interceptor_once. unfold bind at 1.
    by destruct (counted_once full (call req) st) as [[[b|e'] st']|].
Qed.

Lemma client_Add_remote svc req st :
  serves cc fates CardinalityService_ServiceDesc (with_metrics svc) (Some metrics_interceptor) →
  cl_Add (NewCardinalityServiceClient cc) req st =
  remote (fates CardinalityService_Add_FullMethodName st)
    CardinalityService_Add_FullMethodName (to_message req) (server_Add svc req) st.
Proof.
  intros Hs. exact (stub_remote svc CardinalityService_Add_FullMethodName _ _ req zero st Hs
    eq_refl (Add_Handler_handles svc)).
Qed.

Lemma client_BatchAdd_remote svc req st :
  serves cc fates CardinalityService_ServiceDesc (with_metrics svc) (Some metrics_interceptor) →
  cl_BatchAdd (NewCardinalityServiceClient cc) req st =
  remote (fates CardinalityService_BatchAdd_FullMethodName st)
    CardinalityService_BatchAdd_FullMethodName (to_message req) (server_BatchAdd svc req) st.
Proof.
  intros Hs. exact (stub_remote svc CardinalityService_BatchAdd_FullMethodName _ _ req zero st Hs
    eq_refl (BatchAdd_Handler_handles svc)).
Qed.

Lemma client_Query_remote svc req st :
  serves cc fates CardinalityService_ServiceDesc (with_metrics svc) (Some metrics_interceptor) →
  cl_Query (NewCardinalityServiceClient cc) req st =
  remote (fates CardinalityService_Query_FullMethodName st)
    CardinalityService_Query_FullMethodName (to_message req) (server_Query svc req) st.
Proof.
  intros Hs. exact (stub_remote svc CardinalityService_Query_FullMethodName _ _ req zero st Hs
    eq_refl (Query_Handler_handles svc)).
Qed.

(** C17: The generated client and the generated method handlers together are a remote call:
    over a connection to a server that registered the service with the metrics
    interceptor, each client method runs the service's method of the same name on the
    same request, once if the request arrives; the caller gets the method's result (an
    error with the same status code) when the reply arrives and an error otherwise; a
    request that cannot be encoded or is lost changes nothing. Every call that ran, also
    one whose reply is lost, is counted once, in the counter and in the histogram of its
    method and of the name of the status code it ended with. *)
Theorem client_calls_server svc st :
  serves cc fates CardinalityService_ServiceDesc (with_metrics svc) (Some metrics_interceptor) →
  (∀ req, cl_Add (NewCardinalityServiceClient cc) req st =
     remote (fates CardinalityService_Add_FullMethodName st)
       CardinalityService_Add_FullMethodName (to_message req) (server_Add svc req) st) ∧
  (∀ req, cl_BatchAdd (NewCardinalityServiceClient cc) req st =
     remote (fates CardinalityService_BatchAdd_FullMethodName st)
       CardinalityService_BatchAdd_FullMethodName (to_message req) (server_BatchAdd svc req) st) ∧
  (∀ req, cl_Query (NewCardinalityServiceClient cc) req st =
     remote (fates CardinalityService_Query_FullMethodName st)
       CardinalityService_Query_FullMethodName (to_message req) (server_Query svc req) st).
Proof.
  intros Hs. split_and!; intros req.
  - by apply client_Add_remote.
  - by apply client_BatchAdd_remote.
  - by apply client_Query_remote.
Qed.
End Remote.

(** ** A loopback connection

    A connection whose calls are handled by the given service, with the messages in the
    wire format of their descriptors. *)
Module ConcreteRpc.
Definition encode (m : message) : result (list byte) :=
  match m with
  | MAddRequest x => Marshal TAddRequest x
  | MBatchAddRequest x => Marshal TBatchAddRequest x
  | MAddResponse x => Marshal TAddResponse x
  | MQueryRequest x => Marshal TQueryRequest x
  | MQueryResponse x => Marshal TQueryResponse x
  end.
Definition decode (t : GoType) (b : list byte) : result message :=
  match t with
  | TAddRequest => result_map MAddRequest (Unmarshal TAddRequest b)
  | TBatchAddRequest => result_map MBatchAddRequest (Unmarshal TBatchAddRequest b)
  | TAddResponse => result_map MAddResponse (Unmarshal TAddResponse b)
  | TQueryRequest => result_map MQueryRequest (Unmarshal TQueryRequest b)
  | TQueryResponse => result_map MQueryResponse (Unmarshal TQueryResponse b)
  | TCommand => Err errDecode
  end.
Definition decode_into {A} `{!ProtoMessage A} (b : list byte) (out : A) : option error * A :=
  match decode (message_type (to_message zero)) b with
  | Err e => (Some e, out)
  | Ok m => match of_message m with Some a => (None, a) | None => (Some errDecode, out) end
  end.

Lemma decode_encode m b : encode m = Ok b → decode (message_type m) b = Ok m.
Proof. destruct m; intros E; cbn [decode message_type]; by rewrite (Unmarshal_Marshal _ _ _ E). Qed.

#[export] Program Instance wire : ProtoWire := {
  Wire := list byte;
  wire_Marshal := encode;
  wire_Unmarshal A PA w out := decode_into w out;
  status_over_wire e := EStatus (status_Code (Some e)) "remote";
}.
Next Obligation.
  intros A PA a out w E. unfold decode_into. rewrite <- (to_message_type a), (decode_encode _ _ E).
  by rewrite of_to_message.
Qed.
Next Obligation. done. Qed.

Definition loopback {St} (fates : string → St → fate) (desc : ServiceDesc St)
    (srv : CardinalityServiceServer St) (ic : option (UnaryServerInterceptor St))
    : ClientConnInterface unit St :=
  {| Invoke A B PA PB _ method req out st :=
       unary_call desc srv ic (fates method st) method (to_message req) out st |}.

Lemma loopback_serves {St} fates desc srv ic :
  serves (St := St) (ClientConnInterface0 := loopback fates desc srv ic) tt fates desc srv ic.
Proof. done. Qed.
End ConcreteRpc.

Section Witnesses.
Import Concrete StandIn ConcreteServer ConcreteRpc.

Definition alone_service : CardinalityServiceServer (Server SketchV (list (string * Z))) :=
  ServerService the_server replace no_peers.
Definition all_delivered {St} : string → St → fate := λ _ _, Delivered no_metadata.
Definition alone_conn : ClientConnInterface unit (Server SketchV (list (string * Z)) * GrpcMetrics) :=
  loopback all_delivered CardinalityService_ServiceDesc (with_metrics alone_service) (Some metrics_interceptor).
#[local] Existing Instance alone_conn.

Lemma client_calls_server_witness :
  ∃ st m, cl_Add (NewCardinalityServiceClient tt) (mkAddRequest EmptyString 7) (alone, mkGrpcMetrics ∅ ∅) =
    Ret ((Err (EStatus codes_InvalidArgument "remote"), no_metadata), (st, m)) ∧
  default 0 (grpcRequestsTotal m !! (CardinalityService_Add_FullMethodName, "InvalidArgument"%string)) = 1.
Proof.
  destruct (client_calls_server tt all_delivered alone_service (alone, mkGrpcMetrics ∅ ∅)
    (loopback_serves _ _ _ _)) as [HA _].
  eexists _, _. split; [rewrite HA; reflexivity|reflexivity].
Defined.
End Witnesses.
