(* ===== verification/GoNet.v ===== *)
(** * net/url and net/http, as far as the program uses them

    Requests, the parsing of a query string, and the request multiplexer of Go 1.21:
    paths are cleaned first and an unclean one is redirected; an exact pattern wins,
    otherwise the longest pattern that ends in a slash and is a prefix of the path. *)

From S2P Require Import Prelude Main.
Local Open Scope Z_scope.

(** ** Strings *)

Definition slash : ascii := "/".
Definition slash_s : string := "/".

(** [strings.Cut]: the part before the first separator and the part after it. *)
Fixpoint strings_Cut (s : string) (sep : ascii) : string * string :=
  match s with
  | EmptyString => (EmptyString, EmptyString)
  | String c s' =>
      if decide (c = sep) then (EmptyString, s')
      else let '(a, b) := strings_Cut s' sep in (String c a, b)
  end.

Fixpoint contains (s : string) (c : ascii) : bool :=
  match s with
  | EmptyString => false
  | String d s' => bool_decide (d = c) || contains s' c
  end.

Fixpoint HasPrefix (s p : string) {struct p} : bool :=
  match p, s with
  | EmptyString, _ => true
  | String _ _, EmptyString => false
  | String d p', String c s' => bool_decide (c = d) && HasPrefix s' p'
  end.

(** A path with a leading slash and these segments. *)
Fixpoint rooted (segs : list string) : string :=
  match segs with
  | [] => EmptyString
  | w :: ws => String slash (w +:+ rooted ws)
  end.

(** ** Query strings *)

Definition Values : Type := gmap string (list string).

Definition unhex (c : ascii) : option Z :=
  let n := Z.of_N (Ascii.N_of_ascii c) in
  if decide (48 ≤ n ≤ 57) then Some (n - 48)
  else if decide (97 ≤ n ≤ 102) then Some (n - 87)
  else if decide (65 ≤ n ≤ 70) then Some (n - 55)
  else None.

Definition EscapeError : error := EExternal "invalid URL escape".
Definition space : ascii := " ".

(** [url.QueryUnescape]. *)
Fixpoint QueryUnescape (s : string) : result string :=
  match s with
  | EmptyString => Ok EmptyString
  | String "%" (String a (String b s')) =>
      match unhex a, unhex b, QueryUnescape s' with
      | Some x, Some y, Ok t => Ok (String (Ascii.ascii_of_N (Z.to_N (16 * x + y))) t)
      | _, _, _ => Err EscapeError
      end
  | String "%" _ => Err EscapeError
  | String "+" s' => match QueryUnescape s' with Ok t => Ok (String space t) | Err e => Err e end
  | String c s' => match QueryUnescape s' with Ok t => Ok (String c t) | Err e => Err e end
  end.

(** [err] unless an error was recorded before. *)
Definition first_error (old new : option error) : option error :=
  match old with Some e => Some e | None => new end.

Definition append_value (k v : string) (m : Values) : Values := <[k := default [] (m !! k) ++ [v]]> m.

(** [url.ParseQuery] over the pairs between ampersands; bad pairs are skipped, the error
    is reported at the end. *)
Fixpoint parseQuery (pairs : list string) (m : Values) (err : option error) : Values * option error :=
  match pairs with
  | [] => (m, err)
  | kv :: pairs' =>
      if contains kv ";" then
        parseQuery pairs' m (Some (EExternal "invalid semicolon separator in query"))
      else if decide (kv = EmptyString) then parseQuery pairs' m err
      else
        let '(key, value) := strings_Cut kv "=" in
        match QueryUnescape key with
        | Err e => parseQuery pairs' m (first_error err (Some e))
        | Ok key =>
            match QueryUnescape value with
            | Err e => parseQuery pairs' m (first_error err (Some e))
            | Ok value => parseQuery pairs' (append_value key value m) err
            end
        end
  end.

(** ** Requests

    [rq_PostForm] is what reading the body as a form gives, [rq_Override] the header
    X-HTTP-Method-Override; both are set by the client. *)
Record Request := mkRequest {
  rq_Method : string;
  rq_Path : string;
  rq_RawQuery : string;
  rq_Override : string;
  rq_Body : list byte;
  rq_PostForm : Values * option error;
}.

Definition copyValues (dst src : Values) : Values := union_with (λ a b, Some (a ++ b)) dst src.

(** [Request.ParseForm]: the form and the first error. *)
Definition ParseForm (req : Request) : Values * option error :=
  let '(post, err) :=
    if decide (rq_Method req = "POST" ∨ rq_Method req = "PUT" ∨ rq_Method req = "PATCH")%string
    then rq_PostForm req else (∅, None) in
  let '(query, e) := parseQuery (strings_Split (rq_RawQuery req) "&") ∅ None in
  (copyValues post query, first_error err e).

(** ** Cleaning a path *)

(** [path.Clean] on the segments of a rooted path; [acc] holds those kept, last first. *)
Fixpoint clean_segs (acc segs : list string) : list string :=
  match segs with
  | [] => reverse acc
  | w :: segs' =>
      if decide (w = EmptyString ∨ w = "."%string) then clean_segs acc segs'
      else if decide (w = ".."%string) then clean_segs (tail acc) segs'
      else clean_segs (w :: acc) segs'
  end.

(** [cleanPath] of net/http: a trailing slash is kept. *)
Definition cleanPath (p : string) : string :=
  if decide (p = EmptyString) then slash_s
  else
    let p := if HasPrefix p slash_s then p else slash_s +:+ p in
    let segs := strings_Split p slash in
    match clean_segs [] segs with
    | [] => slash_s
    | np => if decide (last segs = Some EmptyString) then rooted np +:+ slash_s else rooted np
    end.

(** ** The multiplexer *)

Section Mux.
Context {H : Type}.

Definition ends_in_slash (p : string) : bool :=
  bool_decide (last (strings_Split p slash) = Some EmptyString).

(** The longer of two matching patterns. *)
Definition longer (a b : option (string * H)) : option (string * H) :=
  match a, b with
  | Some (p, h), Some (q, k) => if decide (String.length p < String.length q)%nat then Some (q, k) else Some (p, h)
  | None, b => b
  | a, None => a
  end.

Definition subtree_match (path : string) (table : list (string * H)) : option (string * H) :=
  foldl longer None ((λ e, if ends_in_slash e.1 && HasPrefix path e.1 then Some e else None) <$> table).

Definition mux_match (table : list (string * H)) (path : string) : option H :=
  match list_find (λ e, e.1 = path) table with
  | Some (_, e) => Some e.2
  | None => snd <$> subtree_match path table
  end.

Inductive mux_result :=
  | Handle (h : H)
  | Redirect (path : string)
  | NotFound.

Definition registered (table : list (string * H)) (p : string) : bool :=
  bool_decide (p ∈ table.*1).

(** [redirectToPathSlash]: a subtree's root without its slash. *)
Definition shouldRedirect (table : list (string * H)) (path : string) : bool :=
  negb (registered table path) && negb (bool_decide (path = EmptyString)) &&
  registered table (path +:+ slash_s) && negb (ends_in_slash path).

(** [ServeMux.Handler]; CONNECT requests are not cleaned. *)
Definition mux_Handler (table : list (string * H)) (req : Request) : mux_result :=
  let connect := bool_decide (rq_Method req = "CONNECT"%string) in
  let path := if connect then rq_Path req else cleanPath (rq_Path req) in
  if shouldRedirect table path then Redirect (path +:+ slash_s)
  else if decide (path ≠ rq_Path req) then Redirect path
  else match mux_match table path with Some h => Handle h | None => NotFound end.
End Mux.
Arguments mux_result H : clear implicits.

(** ** Lemmas on paths *)

#[local] Instance string_app_assoc : Assoc (=) String.append.
Proof. intros s t u. induction s as [|c s IH]; [done|]. exact (f_equal (String c) IH). Qed.

#[local] Instance string_app_nil_r : RightId (=) EmptyString String.append.
Proof. intros s. induction s as [|c s IH]; [done|]. exact (f_equal (String c) IH). Qed.

Lemma split_ne s c : strings_Split s c ≠ [].
Proof. destruct s; simpl; [done|]. case_decide; [done|]. by destruct (strings_Split s c). Qed.

Lemma split_word w s c :
  contains w c = false → strings_Split (w +:+ String c s) c = w :: strings_Split s c.
Proof.
  induction w as [|d w IH]; simpl; intros Hc.
  - by rewrite decide_True.
  - apply orb_false_iff in Hc as [Hd Hc]. apply bool_decide_eq_false in Hd.
    rewrite decide_False by done. by rewrite IH.
Qed.

Lemma split_last w c : contains w c = false → strings_Split w c = [w].
Proof.
  induction w as [|d w IH]; simpl; intros Hc; [done|].
  apply orb_false_iff in Hc as [Hd Hc]. apply bool_decide_eq_false in Hd.
  rewrite decide_False by done. by rewrite IH.
Qed.

Lemma split_contains s c : Forall (λ w, contains w c = false) (strings_Split s c).
Proof.
  induction s as [|d s IH]; simpl; [by constructor|]. case_decide as Hd; [by constructor|].
  destruct IH as [|w ws Hw Hws]; constructor; try done; simpl;
    rewrite bool_decide_eq_false_2 by done; done.
Qed.

Lemma split_rooted_app segs s :
  Forall (λ w, contains w slash = false) segs →
  strings_Split (rooted segs +:+ String slash s) slash = EmptyString :: segs ++ strings_Split s slash.
Proof.
  intros Hs. induction Hs as [|w ws Hw Hws IH]; [done|].
  cbn [rooted app]. change (String slash (w +:+ rooted ws) +:+ String slash s) with
    (String slash ((w +:+ rooted ws) +:+ String slash s)).
  cbn [strings_Split]. rewrite decide_True by done. f_equal. rewrite <- (assoc_L String.append).
  destruct ws as [|x ws].
  - cbn [rooted]. by apply split_word.
  - change (rooted (x :: ws) +:+ String slash s) with
      (String slash ((x +:+ rooted ws) +:+ String slash s)) in IH |- *.
    rewrite split_word by done. cbn [strings_Split] in IH. rewrite decide_True in IH by done.
    injection IH as IH. by rewrite IH.
Qed.

Lemma split_rooted segs :
  segs ≠ [] → Forall (λ w, contains w slash = false) segs →
  strings_Split (rooted segs) slash = EmptyString :: segs.
Proof.
  intros Hne Hs. induction Hs as [|w ws Hw Hws IH]; [done|].
  cbn [rooted strings_Split]. rewrite decide_True by done. f_equal. destruct ws as [|x ws].
  - cbn [rooted]. rewrite (right_id_L EmptyString String.append). by apply split_last.
  - specialize (IH ltac:(done)). cbn [rooted] in IH |- *. rewrite split_word by done.
    cbn [strings_Split] in IH. rewrite decide_True in IH by done. injection IH as IH. by rewrite IH.
Qed.

(** A segment that cleaning keeps. *)
Definition plain (w : string) : Prop :=
  w ≠ EmptyString ∧ w ≠ "."%string ∧ w ≠ ".."%string ∧ contains w slash = false.

Lemma clean_segs_plain acc segs :
  Forall plain acc → Forall (λ w, contains w slash = false) segs → Forall plain (clean_segs acc segs).
Proof.
  intros Hacc Hs. revert acc Hacc. induction Hs as [|w ws Hw Hws IH]; intros acc Hacc; simpl.
  - by apply Forall_reverse.
  - repeat case_decide; apply IH; [done|by apply Forall_tail|]. constructor; [|done].
    unfold plain. naive_solver.
Qed.

Lemma clean_segs_id acc segs : Forall plain segs → clean_segs acc segs = reverse acc ++ segs.
Proof.
  intros Hs. revert acc. induction Hs as [|w ws (H1 & H2 & H3 & _) Hws IH]; intros acc; simpl.
  - by rewrite app_nil_r.
  - rewrite !decide_False by naive_solver. rewrite IH, reverse_cons, <- (assoc_L (++)). done.
Qed.

Lemma clean_segs_rooted np : Forall plain np → clean_segs [] (EmptyString :: np) = np.
Proof.
  intros Hp. change (clean_segs [] (EmptyString :: np)) with (clean_segs [] np).
  by rewrite clean_segs_id.
Qed.

Lemma clean_segs_nil acc segs : clean_segs acc (segs ++ [EmptyString]) = clean_segs acc segs.
Proof.
  revert acc. induction segs as [|w ws IH]; intros acc; simpl.
  - done.
  - repeat case_decide; apply IH.
Qed.

Lemma plain_slash segs : Forall plain segs → Forall (λ w, contains w slash = false) segs.
Proof. intros Hs. apply (Forall_impl _ _ _ Hs). by intros w (_ & _ & _ & ?). Qed.

(** What a cleaned path looks like. *)
Lemma cleanPath_form p :
  cleanPath p = slash_s ∨ ∃ np, np ≠ [] ∧ Forall plain np ∧
    (cleanPath p = rooted np ∨ cleanPath p = rooted np +:+ slash_s).
Proof.
  unfold cleanPath. case_decide; [by left|]. cbn zeta.
  set (q := if HasPrefix p slash_s then p else slash_s +:+ p).
  pose proof (clean_segs_plain [] (strings_Split q slash) (Forall_nil_2 _) (split_contains q slash)) as Hp.
  destruct (clean_segs [] (strings_Split q slash)) as [|w ws]; [by left|].
  right. exists (w :: ws). split; [done|]. split; [done|]. case_decide; auto.
Qed.

Lemma cleanPath_rooted np : np ≠ [] → Forall plain np → cleanPath (rooted np) = rooted np.
Proof.
  intros Hne Hp. unfold cleanPath. destruct np as [|w ws]; [done|].
  rewrite decide_False by done. cbn zeta.
  replace (HasPrefix (rooted (w :: ws)) slash_s) with true by done.
  rewrite split_rooted by (done || by apply plain_slash).
  rewrite clean_segs_rooted by done.
  rewrite decide_False; [done|]. rewrite last_cons.
  destruct (last (w :: ws)) as [x|] eqn:El; [|by apply last_None in El]. intros [= ->].
  apply last_Some_elem_of in El. rewrite Forall_forall in Hp. by destruct (Hp _ El).
Qed.

Lemma cleanPath_rooted_slash np :
  np ≠ [] → Forall plain np → cleanPath (rooted np +:+ slash_s) = rooted np +:+ slash_s.
Proof.
  intros Hne Hp. unfold cleanPath. destruct np as [|w ws]; [done|].
  rewrite decide_False by done. cbn zeta.
  replace (HasPrefix (rooted (w :: ws) +:+ slash_s) slash_s) with true by done.
  assert (strings_Split (rooted (w :: ws) +:+ slash_s) slash = (EmptyString :: w :: ws) ++ [EmptyString]) as ->.
  { exact (split_rooted_app (w :: ws) EmptyString (plain_slash _ Hp)). }
  rewrite clean_segs_nil.
  rewrite clean_segs_rooted by done.
  rewrite decide_True; [done|]. by rewrite last_snoc.
Qed.

(** A redirect leads to a path that is not redirected again. *)
Lemma cleanPath_idem p : cleanPath (cleanPath p) = cleanPath p.
Proof.
  destruct (cleanPath_form p) as [->|(np & Hne & Hp & [-> | ->])]; [done| |].
  - by apply cleanPath_rooted.
  - by apply cleanPath_rooted_slash.
Qed.

(** ** Lemmas on the multiplexer *)

Lemma split_snoc_slash p : strings_Split (p +:+ slash_s) slash = strings_Split p slash ++ [EmptyString].
Proof.
  induction p as [|c p IH]; [done|].
  change (String c p +:+ slash_s) with (String c (p +:+ slash_s)). cbn [strings_Split]. rewrite IH.
  case_decide; [done|]. pose proof (split_ne p slash). by destruct (strings_Split p slash).
Qed.

Lemma ends_in_slash_app p : ends_in_slash (p +:+ slash_s) = true.
Proof. unfold ends_in_slash. rewrite split_snoc_slash. by rewrite last_snoc. Qed.

(** No redirect to a subtree when the only subtree registered is the root. *)
Lemma shouldRedirect_root {H} (table : list (string * H)) path :
  (∀ p, p ∈ table.*1 → ends_in_slash p = true → p = slash_s) →
  shouldRedirect table path = false.
Proof.
  intros Ht. unfold shouldRedirect. apply not_true_iff_false.
  rewrite !andb_true_iff, !negb_true_iff. intros [[[_ Hne%bool_decide_eq_false] Hr] _].
  apply bool_decide_eq_true in Hr. pose proof (Ht _ Hr (ends_in_slash_app path)) as E.
  destruct path as [|c path]; [done|]. injection E as _ E. by destruct path.
Qed.

(** The three answers of a multiplexer. *)
Lemma mux_Handler_unclean {H} (table : list (string * H)) req :
  (∀ p, p ∈ table.*1 → ends_in_slash p = true → p = slash_s) →
  rq_Method req ≠ "CONNECT"%string → cleanPath (rq_Path req) ≠ rq_Path req →
  mux_Handler table req = Redirect (cleanPath (rq_Path req)).
Proof.
  intros Ht Hm Hc. unfold mux_Handler. rewrite bool_decide_eq_false_2 by done.
  by rewrite shouldRedirect_root, decide_True by done.
Qed.

Lemma mux_Handler_clean {H} (table : list (string * H)) req :
  (∀ p, p ∈ table.*1 → ends_in_slash p = true → p = slash_s) →
  rq_Method req ≠ "CONNECT"%string → cleanPath (rq_Path req) = rq_Path req →
  mux_Handler table req = match mux_match table (rq_Path req) with Some h => Handle h | None => NotFound end.
Proof.
  intros Ht Hm Hc. unfold mux_Handler. rewrite bool_decide_eq_false_2 by done.
  by rewrite shouldRedirect_root, Hc, decide_False by (done || congruence).
Qed.

(** A cleaned path starts with a slash. *)
Lemma cleanPath_prefix p : cleanPath p = p → HasPrefix p slash_s = true.
Proof.
  intros <-. destruct (cleanPath_form p) as [->|(np & Hne & _ & [-> | ->])]; [done| |]; by destruct np.
Qed.
