(* ===== verification/Gateway.v ===== *)
(** * The HTTP gateway (gen/cardinality/v1/cardinality.pb.gw.go)

    A reverse proxy: each route decodes an HTTP request, takes the group from the path
    and calls the service, over a connection or directly. The package
    grpc-gateway/v2/runtime that the generated code calls is the class
    [GatewayRuntime]; contexts carry no data the service reads and are left out, so
    annotating one only succeeds or fails. *)

From S2P Require Import Prelude External Sketch SketchValue Float64 Hll Estimate Bitmap Algorithms.
From S2P Require Import Engine EngineProps Handler RaftLib Router Store Raft Main Pb Server ServerProps.
From S2P Require Import Observe Rpc GoNet.
Local Open Scope Z_scope.

(** ** The runtime package *)

(** A decoder reports the end of an empty body as [io.EOF]. *)
Inductive decode_error := DecodeEOF | DecodeFailed (e : error).

(** [utilities.DoubleArray], a trie of field paths. *)
Record DoubleArray := mkDoubleArray { Encoding : gmap string Z; Base : list Z; Check_ : list Z }.

(** The arguments of [runtime.NewPattern]: a program for a small stack machine. *)
Record Pattern := mkPattern { pat_version : Z; pat_ops : list Z; pat_pool : list string; pat_verb : string }.

Definition OpPush : Z := 1.
Definition OpLitPush : Z := 2.
Definition OpConcatN : Z := 4.
Definition OpCapture : Z := 5.

Fixpoint strings_Join (ws : list string) : string :=
  match ws with
  | [] => EmptyString
  | [w] => w
  | w :: ws' => w +:+ slash_s +:+ strings_Join ws'
  end.

(** The documented meaning of the operations the patterns use: OpPush pushes the next
    path component, OpLitPush does so if it is the literal, OpConcatN joins the top N
    items, OpCapture pops an item and binds it. *)
Fixpoint pattern_run (unescape : string → result string) (pool : list string) (ops : list Z)
    (comps stack : list string) (binds : gmap string string) : option (gmap string string) :=
  match ops with
  | op :: arg :: ops' =>
      if decide (op = OpPush) then
        match comps with
        | c :: comps' =>
            match unescape c with
            | Ok c => pattern_run unescape pool ops' comps' (c :: stack) binds
            | Err _ => None
            end
        | [] => None
        end
      else if decide (op = OpLitPush) then
        match comps, pool !! Z.to_nat arg with
        | c :: comps', Some lit =>
            if decide (c = lit) then pattern_run unescape pool ops' comps' (c :: stack) binds else None
        | _, _ => None
        end
      else if decide (op = OpConcatN) then
        let n := Z.to_nat arg in
        pattern_run unescape pool ops' comps (strings_Join (reverse (take n stack)) :: drop n stack) binds
      else if decide (op = OpCapture) then
        match stack, pool !! Z.to_nat arg with
        | v :: stack', Some name => pattern_run unescape pool ops' comps stack' (<[name := v]> binds)
        | _, _ => None
        end
      else None
  | _ => if decide (comps = []) then Some binds else None
  end.

(** The components of a path after its leading slash. *)
Definition path_components (p : string) : option (list string) :=
  match p with
  | String c p' => if decide (c = slash) then Some (strings_Split p' slash) else None
  | EmptyString => None
  end.

(** A mux is the list of what was registered with [Handle]. *)
Record Route (St : Type) := mkRoute {
  rt_Method : string;
  rt_Pattern : Pattern;
  rt_Handler : Request → gmap string string → prog St Response;
}.
Arguments mkRoute {St} _ _ _.
Arguments rt_Method {St} _.
Arguments rt_Pattern {St} _.
Arguments rt_Handler {St} _ _ _.
Definition ServeMux (St : Type) : Type := list (Route St).
Definition mux_Handle {St} (meth : string) (pat : Pattern) (h : Request → gmap string string → prog St Response)
    (mux : ServeMux St) : ServeMux St := mux ++ [mkRoute meth pat h].

Definition path_match (unescape : string → result string) (pat : Pattern) (path : string)
    : option (gmap string string) :=
  match path_components path with
  | Some comps => pattern_run unescape (pat_pool pat) (pat_ops pat) comps [] ∅
  | None => None
  end.
Definition route_match {St} (unescape : string → result string) (rt : Route St) (req : Request)
    : option (gmap string string) :=
  if decide (rt_Method rt = rq_Method req) then path_match unescape (rt_Pattern rt) (rq_Path req) else None.

(** The field paths a query string may not set: the group. *)
Definition filter_CardinalityService_Query_0 : DoubleArray :=
  mkDoubleArray {[ "group"%string := 0 ]} [1; 1; 0] [0; 1; 2].

Class GatewayRuntime := {
  Marshaler : Type;
  MarshalerForRequest : Request → Marshaler * Marshaler;
  Decode : ∀ {A : Type} `{!ProtoMessage A}, Marshaler → list byte → A → option decode_error * A;
  runtime_String : string → result string;
  PopulateQueryParameters : QueryRequest → Values → DoubleArray → result QueryRequest;
  AnnotateContext : Request → string → string → option error;
  AnnotateIncomingContext : Request → string → string → option error;
  HTTPError : Marshaler → Request → ServerMetadata → error → Response;
  ForwardResponseMessage : Marshaler → Request → ServerMetadata → message → Response;
  HTTPStatusFromCode : Z → Z;
  metadata_Join : MD → MD → MD;
  component_unescape : string → result string;
  mux_ServeHTTP : ∀ {St : Type}, ServeMux St → Request → prog St Response;
  runtime_String_id : ∀ v, runtime_String v = Ok v;
  HTTPError_code : ∀ m req md e, rs_code (HTTPError m req md e) = HTTPStatusFromCode (status_Code (Some e));
  HTTPStatus_InvalidArgument : HTTPStatusFromCode codes_InvalidArgument = 400;
  Populate_filtered : ∀ q form q',
    PopulateQueryParameters q form filter_CardinalityService_Query_0 = Ok q' → query_Group q' = query_Group q;
  metadata_Join_empty : metadata_Join ∅ ∅ = ∅;
  component_unescape_plain : ∀ s, contains s "%" = false → component_unescape s = Ok s;
  mux_hit : ∀ St (mux : ServeMux St) req i rt binds,
    rq_Override req = EmptyString → mux !! i = Some rt →
    route_match component_unescape rt req = Some binds →
    (∀ j rt', mux !! j = Some rt' → j ≠ i → route_match component_unescape rt' req = None) →
    mux_ServeHTTP mux req = rt_Handler rt req binds;
  mux_miss : ∀ St (mux : ServeMux St) req st,
    contains (rq_Path req) "%" = false → HasPrefix (rq_Path req) slash_s = true →
    (∀ rt, rt ∈ mux → path_match component_unescape (rt_Pattern rt) (rq_Path req) = None) →
    ∃ r, mux_ServeHTTP mux req st = Ret (r, st) ∧ rs_code r = 404;
}.

(** ** Errors of the generated code *)

Definition decode_failed (e : error) : error := EStatusf codes_InvalidArgument "%v" e.
Definition missing_parameter : error := EStatus codes_InvalidArgument "missing parameter group".
Definition type_mismatch (e : error) : error :=
  EStatusf codes_InvalidArgument "type mismatch, parameter: group, error: %v" e.

(** ** The requests *)

Section Requests.
Context {St : Type} `{!GatewayRuntime}.
Implicit Types (marshaler : Marshaler) (client : CardinalityServiceClient St)
  (server : CardinalityServiceServer St) (req : Request) (pathParams : gmap string string).

Definition request_CardinalityService_Add_0 marshaler client req pathParams
    : prog St (result message * ServerMetadata) :=
  let '(err, protoReq) := Decode marshaler (rq_Body req) (zero : AddRequest) in
  match err with
  | Some (DecodeFailed e) => ret (Err (decode_failed e), no_metadata)
  | Some DecodeEOF | None =>
      match pathParams !! "group"%string with
      | None => ret (Err missing_parameter, no_metadata)
      | Some val =>
          match runtime_String val with
          | Err e => ret (Err (type_mismatch e), no_metadata)
          | Ok group =>
              let* ' (msg, metadata) := cl_Add client (mkAddRequest group (add_Id protoReq)) in
              ret (result_map to_message msg, metadata)
          end
      end
  end.

Definition local_request_CardinalityService_Add_0 marshaler server req pathParams
    : prog St (result message * ServerMetadata) :=
  let '(err, protoReq) := Decode marshaler (rq_Body req) (zero : AddRequest) in
  match err with
  | Some (DecodeFailed e) => ret (Err (decode_failed e), no_metadata)
  | Some DecodeEOF | None =>
      match pathParams !! "group"%string with
      | None => ret (Err missing_parameter, no_metadata)
      | Some val =>
          match runtime_String val with
          | Err e => ret (Err (type_mismatch e), no_metadata)
          | Ok group =>
              let* msg := server_Add server (mkAddRequest group (add_Id protoReq)) in
              ret (result_map to_message msg, no_metadata)
          end
      end
  end.

Definition request_CardinalityService_BatchAdd_0 marshaler client req pathParams
    : prog St (result message * ServerMetadata) :=
  let '(err, protoReq) := Decode marshaler (rq_Body req) (zero : BatchAddRequest) in
  match err with
  | Some (DecodeFailed e) => ret (Err (decode_failed e), no_metadata)
  | Some DecodeEOF | None =>
      match pathParams !! "group"%string with
      | None => ret (Err missing_parameter, no_metadata)
      | Some val =>
          match runtime_String val with
          | Err e => ret (Err (type_mismatch e), no_metadata)
          | Ok group =>
              let* ' (msg, metadata) := cl_BatchAdd client (mkBatchAddRequest group (batch_Ids protoReq)) in
              ret (result_map to_message msg, metadata)
          end
      end
  end.

Definition local_request_CardinalityService_BatchAdd_0 marshaler server req pathParams
    : prog St (result message * ServerMetadata) :=
  let '(err, protoReq) := Decode marshaler (rq_Body req) (zero : BatchAddRequest) in
  match err with
  | Some (DecodeFailed e) => ret (Err (decode_failed e), no_metadata)
  | Some DecodeEOF | None =>
      match pathParams !! "group"%string with
      | None => ret (Err missing_parameter, no_metadata)
      | Some val =>
          match runtime_String val with
          | Err e => ret (Err (type_mismatch e), no_metadata)
          | Ok group =>
              let* msg := server_BatchAdd server (mkBatchAddRequest group (batch_Ids protoReq)) in
              ret (result_map to_message msg, no_metadata)
          end
      end
  end.

Definition request_CardinalityService_Query_0 marshaler client req pathParams
    : prog St (result message * ServerMetadata) :=
  match pathParams !! "group"%string with
  | None => ret (Err missing_parameter, no_metadata)
  | Some val =>
      match runtime_String val with
      | Err e => ret (Err (type_mismatch e), no_metadata)
      | Ok group =>
          let protoReq := mkQueryRequest group (query_StaleOk zero) in
          match ParseForm req with
          | (_, Some e) => ret (Err (decode_failed e), no_metadata)
          | (form, None) =>
              match PopulateQueryParameters protoReq form filter_CardinalityService_Query_0 with
              | Err e => ret (Err (decode_failed e), no_metadata)
              | Ok protoReq =>
                  let* ' (msg, metadata) := cl_Query client protoReq in
                  ret (result_map to_message msg, metadata)
              end
          end
      end
  end.

Definition local_request_CardinalityService_Query_0 marshaler server req pathParams
    : prog St (result message * ServerMetadata) :=
  match pathParams !! "group"%string with
  | None => ret (Err missing_parameter, no_metadata)
  | Some val =>
      match runtime_String val with
      | Err e => ret (Err (type_mismatch e), no_metadata)
      | Ok group =>
          let protoReq := mkQueryRequest group (query_StaleOk zero) in
          match ParseForm req with
          | (_, Some e) => ret (Err (decode_failed e), no_metadata)
          | (form, None) =>
              match PopulateQueryParameters protoReq form filter_CardinalityService_Query_0 with
              | Err e => ret (Err (decode_failed e), no_metadata)
              | Ok protoReq =>
                  let* msg := server_Query server protoReq in
                  ret (result_map to_message msg, no_metadata)
              end
          end
      end
  end.
End Requests.

(** ** Patterns and routes *)

Definition pattern_CardinalityService_Add_0 : Pattern :=
  mkPattern 1 [2; 0; 2; 1; 1; 0; 4; 1; 5; 1; 2; 2] ["v1"; "group"; "add"]%string EmptyString.
Definition pattern_CardinalityService_BatchAdd_0 : Pattern :=
  mkPattern 1 [2; 0; 2; 1; 1; 0; 4; 1; 5; 1; 2; 2] ["v1"; "group"; "batch"]%string EmptyString.
Definition pattern_CardinalityService_Query_0 : Pattern :=
  mkPattern 1 [2; 0; 2; 1; 1; 0; 4; 1; 5; 1; 2; 2] ["v1"; "group"; "cardinality"]%string EmptyString.

Section Register.
Context {St : Type} `{!GatewayRuntime}.
Implicit Types (client : CardinalityServiceClient St) (server : CardinalityServiceServer St) (req : Request)
  (pathParams : gmap string string) (mux : ServeMux St).

Definition forward_CardinalityService_Add_0 := ForwardResponseMessage.
Definition forward_CardinalityService_BatchAdd_0 := ForwardResponseMessage.
Definition forward_CardinalityService_Query_0 := ForwardResponseMessage.

(** The body of a handler that calls the service over a client. *)
Definition client_handler (fullMethod pathPattern : string)
    (request : Marshaler → Request → gmap string string → prog St (result message * ServerMetadata))
    (forward : Marshaler → Request → ServerMetadata → message → Response) req pathParams
    : prog St Response :=
  let '(inboundMarshaler, outboundMarshaler) := MarshalerForRequest req in
  match AnnotateContext req fullMethod pathPattern with
  | Some err => ret (HTTPError outboundMarshaler req no_metadata err)
  | None =>
      let* ' (resp, md) := request inboundMarshaler req pathParams in
      match resp with
      | Err err => ret (HTTPError outboundMarshaler req md err)
      | Ok resp => ret (forward outboundMarshaler req md resp)
      end
  end.

(** The body of a handler that calls the service directly; the service sets no headers
    on the stream. *)
Definition server_handler (fullMethod pathPattern : string)
    (local_request : Marshaler → Request → gmap string string → prog St (result message * ServerMetadata))
    (forward : Marshaler → Request → ServerMetadata → message → Response) req pathParams
    : prog St Response :=
  let '(inboundMarshaler, outboundMarshaler) := MarshalerForRequest req in
  match AnnotateIncomingContext req fullMethod pathPattern with
  | Some err => ret (HTTPError outboundMarshaler req no_metadata err)
  | None =>
      let* ' (resp, md) := local_request inboundMarshaler req pathParams in
      let md := mkServerMetadata (metadata_Join (HeaderMD md) ∅) (metadata_Join (TrailerMD md) ∅) in
      match resp with
      | Err err => ret (HTTPError outboundMarshaler req md err)
      | Ok resp => ret (forward outboundMarshaler req md resp)
      end
  end.

Definition RegisterCardinalityServiceHandlerServer server mux : ServeMux St * option error :=
  let mux := mux_Handle "POST" pattern_CardinalityService_Add_0
    (server_handler "/cardinality.v1.CardinalityService/Add" "/v1/group/{group}/add"
      (λ m, local_request_CardinalityService_Add_0 m server) forward_CardinalityService_Add_0) mux in
  let mux := mux_Handle "POST" pattern_CardinalityService_BatchAdd_0
    (server_handler "/cardinality.v1.CardinalityService/BatchAdd" "/v1/group/{group}/batch"
      (λ m, local_request_CardinalityService_BatchAdd_0 m server) forward_CardinalityService_BatchAdd_0) mux in
  let mux := mux_Handle "GET" pattern_CardinalityService_Query_0
    (server_handler "/cardinality.v1.CardinalityService/Query" "/v1/group/{group}/cardinality"
      (λ m, local_request_CardinalityService_Query_0 m server) forward_CardinalityService_Query_0) mux in
  (mux, None).

Definition RegisterCardinalityServiceHandlerClient client mux : ServeMux St * option error :=
  let mux := mux_Handle "POST" pattern_CardinalityService_Add_0
    (client_handler "/cardinality.v1.CardinalityService/Add" "/v1/group/{group}/add"
      (λ m, request_CardinalityService_Add_0 m client) forward_CardinalityService_Add_0) mux in
  let mux := mux_Handle "POST" pattern_CardinalityService_BatchAdd_0
    (client_handler "/cardinality.v1.CardinalityService/BatchAdd" "/v1/group/{group}/batch"
      (λ m, request_CardinalityService_BatchAdd_0 m client) forward_CardinalityService_BatchAdd_0) mux in
  let mux := mux_Handle "GET" pattern_CardinalityService_Query_0
    (client_handler "/cardinality.v1.CardinalityService/Query" "/v1/group/{group}/cardinality"
      (λ m, request_CardinalityService_Query_0 m client) forward_CardinalityService_Query_0) mux in
  (mux, None).

Definition RegisterCardinalityServiceHandler {C} `{!ClientConnInterface C St} (conn : C) mux
    : ServeMux St * option error :=
  RegisterCardinalityServiceHandlerClient (NewCardinalityServiceClient conn) mux.

(** The connections that were closed at once, with the result of closing, and the one
    that is closed when the context is done. *)
Record Registered `{!Grpc} := mkRegistered {
  reg_mux : ServeMux St;
  reg_err : option error;
  reg_closed : list (Conn * option error);
  reg_watched : option Conn;
}.

(** [grpc.NewClient] is the dialler of [Grpc]. *)
Definition RegisterCardinalityServiceHandlerFromEndpoint `{!Grpc, !ClientConnInterface Conn St}
    (endpoint : string) (opts : list DialOption) mux : Registered :=
  match grpc_Dial endpoint opts with
  | Err err => mkRegistered _ mux (Some err) [] None
  | Ok conn =>
      let '(mux, err) := RegisterCardinalityServiceHandler conn mux in
      match err with
      | Some e => mkRegistered _ mux (Some e) [(conn, conn_Close conn)] None
      | None => mkRegistered _ mux None [] (Some conn)
      end
  end.
End Register.
Arguments Registered St {_}.
