(* ===== verification/GatewayProps.v ===== *)
(** * Theorems on the gateway

    Which request reaches which method of the service, with which arguments, and which
    requests never reach it. *)

From stdpp Require Import pretty.
From S2P Require Import Prelude External Sketch SketchValue Float64 Hll Estimate Bitmap Algorithms.
From S2P Require Import Engine EngineProps Handler RaftLib Router Store Raft Main Pb Server ServerProps.
From S2P Require Import Observe Rpc GoNet Gateway.
Local Open Scope Z_scope.

(** ** Paths and patterns *)

(** "/v1/group/<w>/<k>" *)
Definition rest_path (w k : string) : string := rooted ["v1"; "group"; w; k]%string.

(** The program of the three patterns. *)
Definition rest_pattern (k : string) : Pattern :=
  mkPattern 1 [2; 0; 2; 1; 1; 0; 4; 1; 5; 1; 2; 2] ["v1"; "group"; k]%string EmptyString.

Lemma path_components_rooted segs :
  segs ≠ [] → Forall (λ w, contains w slash = false) segs → path_components (rooted segs) = Some segs.
Proof.
  intros Hne Hs. destruct segs as [|w ws]; [done|]. pose proof (split_rooted _ Hne Hs) as E.
  cbn [rooted strings_Split] in E. rewrite decide_True in E by done. injection E as E.
  cbn [rooted path_components]. rewrite decide_True by done. by rewrite E.
Qed.

(** The machine accepts four components and binds the third. *)
Lemma rest_pattern_run U k w k' g :
  U w = Ok g →
  pattern_run U (pat_pool (rest_pattern k)) (pat_ops (rest_pattern k)) ["v1"; "group"; w; k']%string [] ∅ =
  if decide (k' = k) then Some {[ "group"%string := g ]} else None.
Proof. intros Hw. simpl. rewrite Hw. simpl. by destruct (decide (k' = k)). Qed.

Lemma rest_path_match U k w k' g :
  contains w slash = false → contains k' slash = false → U w = Ok g →
  path_match U (rest_pattern k) (rest_path w k') =
  if decide (k' = k) then Some {[ "group"%string := g ]} else None.
Proof.
  intros Hw Hk Hg. unfold path_match, rest_path. rewrite path_components_rooted; [|done|by repeat constructor].
  by apply rest_pattern_run.
Qed.

Section Gateway.
Context {St : Type} `{!GatewayRuntime}.
Implicit Types (client : CardinalityServiceClient St) (svc : CardinalityServiceServer St) (req : Request)
  (w g k : string).

(** ** Routing *)

Lemma equal_f {A B} {f h : A → B} : f = h → ∀ x, f x = h x.
Proof. by intros ->. Qed.

(** A request for the route [k] with the group [g]. *)
Record rest_request (meth k w g : string) req : Prop := {
  rest_method : rq_Method req = meth;
  rest_override : rq_Override req = EmptyString;
  rest_is_path : rq_Path req = rest_path w k;
  rest_segment : contains w slash = false;
  rest_group : component_unescape w = Ok g;
}.

Lemma rest_route_match k' meth k w g req meth' (h : Request → gmap string string → prog St Response) :
  rest_request meth k w g req → contains k slash = false →
  route_match component_unescape (mkRoute meth' (rest_pattern k') h) req =
  if decide (meth' = meth ∧ k = k') then Some {[ "group"%string := g ]} else None.
Proof.
  intros [Hm _ Hp Hw Hg] Hk. unfold route_match. cbn [rt_Method rt_Pattern]. rewrite Hm, Hp.
  destruct (decide (meth' = meth)); [|by rewrite decide_False by naive_solver].
  rewrite (rest_path_match _ _ _ _ g) by done.
  destruct (decide (k = k')); [by rewrite decide_True|by rewrite decide_False by naive_solver].
Qed.

(** A mux with the three routes hands a request to its route. *)
Lemma rest_dispatch (h1 h2 h3 : Request → gmap string string → prog St Response) w g req :
  let mux := [mkRoute "POST" (rest_pattern "add") h1; mkRoute "POST" (rest_pattern "batch") h2;
              mkRoute "GET" (rest_pattern "cardinality") h3] in
  (rest_request "POST" "add" w g req → mux_ServeHTTP mux req = h1 req {[ "group"%string := g ]}) ∧
  (rest_request "POST" "batch" w g req → mux_ServeHTTP mux req = h2 req {[ "group"%string := g ]}) ∧
  (rest_request "GET" "cardinality" w g req → mux_ServeHTTP mux req = h3 req {[ "group"%string := g ]}).
Proof.
  intros mux. split_and!; intros Hr.
  - apply (mux_hit _ mux req 0 _ _ (rest_override _ _ _ _ _ Hr) eq_refl).
    + by rewrite (rest_route_match _ _ _ _ _ _ _ _ Hr).
    + intros [|[|[|]]] rt' [= <-] Hj; try done; by rewrite (rest_route_match _ _ _ _ _ _ _ _ Hr).
  - apply (mux_hit _ mux req 1 _ _ (rest_override _ _ _ _ _ Hr) eq_refl).
    + by rewrite (rest_route_match _ _ _ _ _ _ _ _ Hr).
    + intros [|[|[|]]] rt' [= <-] Hj; try done; by rewrite (rest_route_match _ _ _ _ _ _ _ _ Hr).
  - apply (mux_hit _ mux req 2 _ _ (rest_override _ _ _ _ _ Hr) eq_refl).
    + by rewrite (rest_route_match _ _ _ _ _ _ _ _ Hr).
    + intros [|[|[|]]] rt' [= <-] Hj; try done; by rewrite (rest_route_match _ _ _ _ _ _ _ _ Hr).
Qed.
(** The routes of the mux that the gateway builds. *)
Definition gateway client : ServeMux St := (RegisterCardinalityServiceHandlerClient client []).1.

(** ** What the handlers do with a request of their route *)

(** The body was decoded, or was empty and left the message as it is. *)
Definition decoded {A} `{!ProtoMessage A} req (a : A) : Prop :=
  let r := Decode (MarshalerForRequest req).1 (rq_Body req) zero in r = (None, a) ∨ r = (Some DecodeEOF, a).

Definition respond req (r : result message) (md : ServerMetadata) : Response :=
  match r with
  | Err e => HTTPError (MarshalerForRequest req).2 req md e
  | Ok m => ForwardResponseMessage (MarshalerForRequest req).2 req md m
  end.

(** A call of the service answered over HTTP. *)
Definition answered {B} `{!ProtoMessage B} req (call : prog St (result B * ServerMetadata)) : prog St Response :=
  let* ' (r, md) := call in ret (respond req (result_map to_message r) md).

Definition group_param g : gmap string string := {[ "group"%string := g ]}.

Lemma client_handler_answered {B} `{!ProtoMessage B} full pat
    (request : Marshaler → Request → gmap string string → prog St (result message * ServerMetadata))
    (call : prog St (result B * ServerMetadata)) req params st :
  AnnotateContext req full pat = None →
  (∀ m, m = (MarshalerForRequest req).1 →
    request m req params = (let* ' (r, md) := call in ret (result_map to_message r, md))) →
  client_handler full pat request ForwardResponseMessage req params st = answered req call st.
Proof.
  intros Ha Hr. unfold client_handler, answered. rewrite Ha.
  destruct (MarshalerForRequest req) as [inm outm] eqn:Em. rewrite (Hr inm) by (by rewrite ?Em).
  unfold bind, respond. rewrite ?Em. cbn [snd].
  destruct (call st) as [[[[b|e] md] st']|]; done.
Qed.

Lemma request_Add_eq client req g a :
  decoded req a →
  request_CardinalityService_Add_0 (MarshalerForRequest req).1 client req (group_param g) =
  (let* ' (r, md) := cl_Add client (mkAddRequest g (add_Id a)) in ret (result_map to_message r, md)).
Proof.
  intros Hd. unfold request_CardinalityService_Add_0, group_param.
  rewrite lookup_singleton_eq, runtime_String_id. by destruct Hd as [-> | ->].
Qed.

Lemma request_BatchAdd_eq client req g a :
  decoded req a →
  request_CardinalityService_BatchAdd_0 (MarshalerForRequest req).1 client req (group_param g) =
  (let* ' (r, md) := cl_BatchAdd client (mkBatchAddRequest g (batch_Ids a)) in ret (result_map to_message r, md)).
Proof.
  intros Hd. unfold request_CardinalityService_BatchAdd_0, group_param.
  rewrite lookup_singleton_eq, runtime_String_id. by destruct Hd as [-> | ->].
Qed.

(** The query string was parsed and set [stale_ok]. *)
Definition queried req g (stale : bool) : Prop :=
  ∃ form, ParseForm req = (form, None) ∧
    PopulateQueryParameters (mkQueryRequest g false) form filter_CardinalityService_Query_0 =
      Ok (mkQueryRequest g stale).

Lemma request_Query_eq m client req g stale :
  queried req g stale →
  request_CardinalityService_Query_0 m client req (group_param g) =
  (let* ' (r, md) := cl_Query client (mkQueryRequest g stale) in ret (result_map to_message r, md)).
Proof.
  intros (form & Hf & Hp). unfold request_CardinalityService_Query_0, group_param.
  rewrite lookup_singleton_eq, runtime_String_id. cbn [query_StaleOk zero QueryRequest_message].
  by rewrite Hf, Hp.
Qed.

Lemma gateway_dispatch client req w g st :
  (rest_request "POST" "add" w g req → mux_ServeHTTP (gateway client) req st =
     client_handler CardinalityService_Add_FullMethodName "/v1/group/{group}/add"
       (λ m, request_CardinalityService_Add_0 m client) ForwardResponseMessage req (group_param g) st) ∧
  (rest_request "POST" "batch" w g req → mux_ServeHTTP (gateway client) req st =
     client_handler CardinalityService_BatchAdd_FullMethodName "/v1/group/{group}/batch"
       (λ m, request_CardinalityService_BatchAdd_0 m client) ForwardResponseMessage req (group_param g) st) ∧
  (rest_request "GET" "cardinality" w g req → mux_ServeHTTP (gateway client) req st =
     client_handler CardinalityService_Query_FullMethodName "/v1/group/{group}/cardinality"
       (λ m, request_CardinalityService_Query_0 m client) ForwardResponseMessage req (group_param g) st).
Proof.
  split_and!; intros Hr.
  - exact (equal_f (proj1 (rest_dispatch _ _ _ w g req) Hr) st).
  - exact (equal_f (proj1 (proj2 (rest_dispatch _ _ _ w g req)) Hr) st).
  - exact (equal_f (proj2 (proj2 (rest_dispatch _ _ _ w g req)) Hr) st).
Qed.

Lemma gateway_Add client req w g a st :
  rest_request "POST" "add" w g req → decoded req a →
  AnnotateContext req CardinalityService_Add_FullMethodName "/v1/group/{group}/add" = None →
  mux_ServeHTTP (gateway client) req st = answered req (cl_Add client (mkAddRequest g (add_Id a))) st.
Proof.
  intros Hr Hd Ha. rewrite (proj1 (gateway_dispatch client req w g st) Hr).
  apply client_handler_answered; [done|]. intros m ->. by apply request_Add_eq.
Qed.

Lemma gateway_BatchAdd client req w g a st :
  rest_request "POST" "batch" w g req → decoded req a →
  AnnotateContext req CardinalityService_BatchAdd_FullMethodName "/v1/group/{group}/batch" = None →
  mux_ServeHTTP (gateway client) req st = answered req (cl_BatchAdd client (mkBatchAddRequest g (batch_Ids a))) st.
Proof.
  intros Hr Hd Ha. rewrite (proj1 (proj2 (gateway_dispatch client req w g st)) Hr).
  apply client_handler_answered; [done|]. intros m ->. by apply request_BatchAdd_eq.
Qed.

Lemma gateway_Query client req w g stale st :
  rest_request "GET" "cardinality" w g req → queried req g stale →
  AnnotateContext req CardinalityService_Query_FullMethodName "/v1/group/{group}/cardinality" = None →
  mux_ServeHTTP (gateway client) req st = answered req (cl_Query client (mkQueryRequest g stale)) st.
Proof.
  intros Hr Hd Ha. rewrite (proj2 (proj2 (gateway_dispatch client req w g st)) Hr).
  apply client_handler_answered; [done|]. intros m _. by apply request_Query_eq.
Qed.

End Gateway.

(** ** Claims *)

Section Claims.
Context {C S : Type} `{!GatewayRuntime, !ProtoWire, !ClientConnInterface C (S * GrpcMetrics)}.
Implicit Types (svc : CardinalityServiceServer S) (req : Request) (w g : string).

(** C14: The gateway is the service over HTTP: with the routes registered on a connection to
    the gRPC server, POST /v1/group/<g>/add and /batch and GET /v1/group/<g>/cardinality
    run Add, BatchAdd and Query of the service as one remote call and answer with its
    reply or its error. The group is the path's, whatever the body or the query string
    says; ids come from the body (an empty body is the zero message) and stale_ok from
    the query string. *)
Theorem gateway_serves (cc : C) fates svc req w g st :
  serves cc fates CardinalityService_ServiceDesc (with_metrics svc) (Some metrics_interceptor) →
  let mux := (RegisterCardinalityServiceHandler cc []).1 in
  (∀ a, rest_request "POST" "add" w g req → decoded req a →
     AnnotateContext req CardinalityService_Add_FullMethodName "/v1/group/{group}/add" = None →
     let r := mkAddRequest g (add_Id a) in
     mux_ServeHTTP mux req st =
     answered req (remote (fates CardinalityService_Add_FullMethodName st)
       CardinalityService_Add_FullMethodName (MAddRequest r) (server_Add svc r)) st) ∧
  (∀ a, rest_request "POST" "batch" w g req → decoded req a →
     AnnotateContext req CardinalityService_BatchAdd_FullMethodName "/v1/group/{group}/batch" = None →
     let r := mkBatchAddRequest g (batch_Ids a) in
     mux_ServeHTTP mux req st =
     answered req (remote (fates CardinalityService_BatchAdd_FullMethodName st)
       CardinalityService_BatchAdd_FullMethodName (MBatchAddRequest r) (server_BatchAdd svc r)) st) ∧
  (∀ form q, rest_request "GET" "cardinality" w g req → ParseForm req = (form, None) →
     PopulateQueryParameters (mkQueryRequest g false) form filter_CardinalityService_Query_0 = Ok q →
     AnnotateContext req CardinalityService_Query_FullMethodName "/v1/group/{group}/cardinality" = None →
     let r := mkQueryRequest g (query_StaleOk q) in
     mux_ServeHTTP mux req st =
     answered req (remote (fates CardinalityService_Query_FullMethodName st)
       CardinalityService_Query_FullMethodName (MQueryRequest r) (server_Query svc r)) st).
Proof.
  intros Hs mux. split_and!.
  - intros a Hr Hd Ha r. etrans; [exact (gateway_Add _ _ _ _ _ st Hr Hd Ha)|].
    unfold answered, bind. by rewrite (client_Add_remote cc fates svc).
  - intros a Hr Hd Ha r. etrans; [exact (gateway_BatchAdd _ _ _ _ _ st Hr Hd Ha)|].
    unfold answered, bind. by rewrite (client_BatchAdd_remote cc fates svc).
  - intros form q Hr Hf Hp Ha r.
    assert (queried req g (query_StaleOk q)) as Hq.
    { exists form. split; [done|]. rewrite Hp. f_equal. pose proof (Populate_filtered _ _ _ Hp) as Hg.
      destruct q. simpl in *. by subst. }
    etrans; [exact (gateway_Query _ _ _ _ _ st Hr Hq Ha)|].
    unfold answered, bind. by rewrite (client_Query_remote cc fates svc).
Qed.

End Claims.

Section Rejects.
Context {St : Type} `{!GatewayRuntime}.
Implicit Types (client : CardinalityServiceClient St) (svc : CardinalityServiceServer St) (req : Request).

(** What the client of a rejected request gets. *)
Definition rejected req (o : outcome (Response * St)) (st : St) : Prop :=
  ∃ e, o = Ret (HTTPError (MarshalerForRequest req).2 req no_metadata (decode_failed e), st) ∧
    rs_code (HTTPError (MarshalerForRequest req).2 req no_metadata (decode_failed e)) = 400.

Lemma client_handler_rejects full pat forward
    (request : Marshaler → Request → gmap string string → prog St (result message * ServerMetadata)) req params e st :
  AnnotateContext req full pat = None →
  request (MarshalerForRequest req).1 req params = ret (Err (decode_failed e), no_metadata) →
  rejected req (client_handler full pat request forward req params st) st.
Proof.
  intros Ha Hr. exists e. unfold client_handler. rewrite Ha.
  destruct (MarshalerForRequest req) as [inm outm]. cbn [fst snd] in *. rewrite Hr. split; [done|].
  rewrite HTTPError_code. apply HTTPStatus_InvalidArgument.
Qed.

(** C28: A malformed request never reaches the service: whatever client the routes were
    registered with, a body that cannot be decoded, a query string that cannot be parsed,
    or one that does not fit the message is answered with 400 and changes nothing. *)
Theorem gateway_rejects client req w g st :
  (∀ e a, rest_request "POST" "add" w g req →
     AnnotateContext req CardinalityService_Add_FullMethodName "/v1/group/{group}/add" = None →
     Decode (MarshalerForRequest req).1 (rq_Body req) (zero : AddRequest) = (Some (DecodeFailed e), a) →
     rejected req (mux_ServeHTTP (gateway client) req st) st) ∧
  (∀ e a, rest_request "POST" "batch" w g req →
     AnnotateContext req CardinalityService_BatchAdd_FullMethodName "/v1/group/{group}/batch" = None →
     Decode (MarshalerForRequest req).1 (rq_Body req) (zero : BatchAddRequest) = (Some (DecodeFailed e), a) →
     rejected req (mux_ServeHTTP (gateway client) req st) st) ∧
  (∀ form err, rest_request "GET" "cardinality" w g req →
     AnnotateContext req CardinalityService_Query_FullMethodName "/v1/group/{group}/cardinality" = None →
     ParseForm req = (form, err) →
     (is_Some err ∨
      ∃ e, PopulateQueryParameters (mkQueryRequest g false) form filter_CardinalityService_Query_0 = Err e) →
     rejected req (mux_ServeHTTP (gateway client) req st) st).
Proof.
  split_and!.
  - intros e a Hr Ha Hd. rewrite (proj1 (gateway_dispatch client req w g st) Hr).
    apply (client_handler_rejects _ _ _ _ _ _ e); [done|].
    unfold request_CardinalityService_Add_0. by rewrite Hd.
  - intros e a Hr Ha Hd. rewrite (proj1 (proj2 (gateway_dispatch client req w g st)) Hr).
    apply (client_handler_rejects _ _ _ _ _ _ e); [done|].
    unfold request_CardinalityService_BatchAdd_0. by rewrite Hd.
  - intros form err Hr Ha Hf Hbad. rewrite (proj2 (proj2 (gateway_dispatch client req w g st)) Hr).
    destruct err as [e|].
    + apply (client_handler_rejects _ _ _ _ _ _ e); [done|]. unfold request_CardinalityService_Query_0, group_param.
      by rewrite lookup_singleton_eq, runtime_String_id, Hf.
    + destruct Hbad as [[? [=]]|[e He]].
      apply (client_handler_rejects _ _ _ _ _ _ e); [done|]. unfold request_CardinalityService_Query_0, group_param.
      rewrite lookup_singleton_eq, runtime_String_id, Hf. cbn [query_StaleOk zero QueryRequest_message].
      by rewrite He.
Qed.

(** ** Direct and remote registration *)

(** A client that calls the service in the same process. *)
Definition direct_client svc : CardinalityServiceClient St :=
  mkClient St (λ r, let* x := server_Add svc r in ret (x, no_metadata))
    (λ r, let* x := server_BatchAdd svc r in ret (x, no_metadata))
    (λ r, let* x := server_Query svc r in ret (x, no_metadata)).

Definition same_route (x y : Route St) : Prop :=
  rt_Method x = rt_Method y ∧ rt_Pattern x = rt_Pattern y ∧
  ∀ req params st, rt_Handler x req params st = rt_Handler y req params st.

Lemma handlers_agree full pat forward req params st
    (f h : Marshaler → Request → gmap string string → prog St (result message * ServerMetadata)) :
  AnnotateContext req full pat = AnnotateIncomingContext req full pat →
  (∀ m st, f m req params st = h m req params st) →
  (∀ m st r md st', h m req params st = Ret ((r, md), st') → md = no_metadata) →
  server_handler full pat h forward req params st = client_handler full pat f forward req params st.
Proof.
  intros Ha Hf Hmd. unfold server_handler, client_handler. rewrite Ha.
  destruct (MarshalerForRequest req) as [inm outm].
  destruct (AnnotateIncomingContext req full pat); [done|]. unfold bind. rewrite Hf.
  destruct (h inm req params st) as [[[r md] st']|] eqn:E; [|done].
  rewrite (Hmd _ _ _ _ _ E). cbn [HeaderMD TrailerMD no_metadata]. by rewrite metadata_Join_empty.
Qed.
(** A direct call, as the client stub and as the local request make it. *)
Lemma direct_call {B} `{!ProtoMessage B} (call : prog St (result B)) st :
  (let* ' (r, md) := (let* x := call in ret (x, no_metadata)) in ret (result_map to_message r, md)) st =
  (let* r := call in ret (result_map to_message r, no_metadata)) st.
Proof. unfold bind, ret. by destruct (call st) as [[r st']|]. Qed.

Lemma local_Add_agrees svc m req params st :
  request_CardinalityService_Add_0 m (direct_client svc) req params st =
  local_request_CardinalityService_Add_0 m svc req params st.
Proof.
  unfold request_CardinalityService_Add_0, local_request_CardinalityService_Add_0.
  destruct (Decode _ _ _) as [[[|e]|] a]; try done; destruct (params !! _); try done;
    destruct (runtime_String _); try done; apply (direct_call (server_Add svc _)).
Qed.

Lemma local_BatchAdd_agrees svc m req params st :
  request_CardinalityService_BatchAdd_0 m (direct_client svc) req params st =
  local_request_CardinalityService_BatchAdd_0 m svc req params st.
Proof.
  unfold request_CardinalityService_BatchAdd_0, local_request_CardinalityService_BatchAdd_0.
  destruct (Decode _ _ _) as [[[|e]|] a]; try done; destruct (params !! _); try done;
    destruct (runtime_String _); try done; apply (direct_call (server_BatchAdd svc _)).
Qed.

Lemma local_Query_agrees svc m req params st :
  request_CardinalityService_Query_0 m (direct_client svc) req params st =
  local_request_CardinalityService_Query_0 m svc req params st.
Proof.
  unfold request_CardinalityService_Query_0, local_request_CardinalityService_Query_0.
  destruct (params !! _); [|done]. destruct (runtime_String _); [|done]. cbn zeta.
  destruct (ParseForm req) as [form [e|]]; [done|]. destruct (PopulateQueryParameters _ _ _); [|done].
  apply (direct_call (server_Query svc _)).
Qed.

(** Local requests return no metadata. *)
Lemma no_md_bind {B} (call : prog St B) (f : B → result message) st r md st' :
  (let* x := call in ret (f x, no_metadata)) st = Ret ((r, md), st') → md = no_metadata.
Proof. unfold bind, ret. destruct (call st) as [[x s]|]; [|done]. by intros [= _ <-]. Qed.

Lemma ret_md (e : error) (st : St) (r : result message) md st' :
  ret (Err e, no_metadata) st = Ret ((r, md), st') → md = no_metadata.
Proof. unfold ret. by intros [= _ <-]. Qed.

Ltac no_md :=
  repeat match goal with
  | |- context [match ?x with _ => _ end] => destruct x
  end; (eapply ret_md || eapply no_md_bind).

Lemma local_Add_md svc m req params st r md st' :
  local_request_CardinalityService_Add_0 m svc req params st = Ret ((r, md), st') → md = no_metadata.
Proof. unfold local_request_CardinalityService_Add_0. no_md. Qed.

Lemma local_BatchAdd_md svc m req params st r md st' :
  local_request_CardinalityService_BatchAdd_0 m svc req params st = Ret ((r, md), st') → md = no_metadata.
Proof. unfold local_request_CardinalityService_BatchAdd_0. no_md. Qed.

Lemma local_Query_md svc m req params st r md st' :
  local_request_CardinalityService_Query_0 m svc req params st = Ret ((r, md), st') → md = no_metadata.
Proof. unfold local_request_CardinalityService_Query_0. no_md. Qed.

(** Registering the service itself and registering a client of it give the same
    gateway: when incoming and outgoing contexts are annotated alike, the two
    registrations have the same methods and patterns in the same order, and their
    handlers do the same on every request, every path parameter map and every state. *)
Lemma gateway_local_agrees svc :
  (∀ req full pat, AnnotateContext req full pat = AnnotateIncomingContext req full pat) →
  let '(local, e1) := RegisterCardinalityServiceHandlerServer svc [] in
  let '(viaclient, e2) := RegisterCardinalityServiceHandlerClient (direct_client svc) [] in
  Forall2 same_route local viaclient ∧ length local = 3%nat ∧ e1 = None ∧ e2 = None.
Proof.
  intros Ha. cbn [RegisterCardinalityServiceHandlerServer RegisterCardinalityServiceHandlerClient].
  split_and!; [|done..]. unfold mux_Handle. cbn [app].
  repeat constructor; intros req params st; apply handlers_agree; auto.
  - intros. by apply local_Add_agrees.
  - intros m s r md s'. apply local_Add_md.
  - intros. by apply local_BatchAdd_agrees.
  - intros m s r md s'. apply local_BatchAdd_md.
  - intros. by apply local_Query_agrees.
  - intros m s r md s'. apply local_Query_md.
Qed.
End Rejects.

(** ** A stand-in for the runtime package

    Bodies are a tag byte and one byte per id; the mux takes the first route that
    matches. *)
Module ConcreteGateway.
Definition decode_body (body : list byte) : option message :=
  match body with
  | x00 :: b :: _ => Some (MAddRequest (mkAddRequest "body" (byte_to_Z b)))
  | x01 :: bs => Some (MBatchAddRequest (mkBatchAddRequest "body" (byte_to_Z <$> bs)))
  | _ => None
  end.

Definition show_message (m : message) : string :=
  match m with
  | MQueryResponse x => result_Group x +:+ "=" +:+ pretty (Z.to_N (result_Cardinality x))
  | _ => "forwarded"
  end.

Fixpoint serve {St} (mux : ServeMux St) (req : Request) : prog St Response :=
  match mux with
  | [] => ret (mkResponse 404 "not found")
  | rt :: mux' =>
      match route_match Ok rt req with
      | Some binds => rt_Handler rt req binds
      | None => serve mux' req
      end
  end.

Lemma serve_hit St (mux : ServeMux St) req i rt binds :
  mux !! i = Some rt → route_match Ok rt req = Some binds →
  (∀ j rt', mux !! j = Some rt' → j ≠ i → route_match Ok rt' req = None) →
  serve mux req = rt_Handler rt req binds.
Proof.
  revert i. induction mux as [|x mux IH]; intros [|i] Hi Hm Hu; try done; simpl.
  - injection Hi as ->. by rewrite Hm.
  - rewrite (Hu 0%nat x eq_refl ltac:(done)). apply (IH i Hi Hm).
    intros j rt' Hj Hne. apply (Hu (S j) rt' Hj). lia.
Qed.

Lemma serve_miss St (mux : ServeMux St) req :
  (∀ rt, rt ∈ mux → path_match Ok (rt_Pattern rt) (rq_Path req) = None) →
  serve mux req = ret (mkResponse 404 "not found").
Proof.
  induction mux as [|x mux IH]; intros Hm; [done|]. simpl. unfold route_match.
  rewrite (Hm x) by left. rewrite IH by (intros rt Hrt; apply Hm; by right). by destruct (decide _).
Qed.

#[export] Program Instance runtime : GatewayRuntime := {
  Marshaler := unit;
  MarshalerForRequest _ := (tt, tt);
  Decode A PA _ body out :=
    if decide (body = []) then (Some DecodeEOF, out)
    else match option_bind _ _ of_message (decode_body body) with
         | Some a => (None, a)
         | None => (Some (DecodeFailed (EExternal "json")), out)
         end;
  runtime_String v := Ok v;
  PopulateQueryParameters q form _ :=
    match form !! "stale_ok"%string with
    | None => Ok q
    | Some v => if decide (v = ["true"%string]) then Ok (mkQueryRequest (query_Group q) true)
                else Err (EExternal "parsing field")
    end;
  AnnotateContext _ _ _ := None;
  AnnotateIncomingContext _ _ _ := None;
  HTTPStatusFromCode c := if decide (c = 0) then 200 else if decide (c = 3) then 400 else 500;
  HTTPError _ _ _ e := mkResponse (let c := status_Code (Some e) in
    if decide (c = 0) then 200 else if decide (c = 3) then 400 else 500) "error";
  ForwardResponseMessage _ _ _ m := mkResponse 200 (show_message m);
  metadata_Join := copyValues;
  component_unescape := Ok;
  mux_ServeHTTP St := serve;
}.
Next Obligation. done. Qed.
Next Obligation. done. Qed.
Next Obligation. done. Qed.
Next Obligation. intros q form q'. simpl. destruct (form !! _); [case_decide|]; by intros [= <-]. Qed.
Next Obligation. done. Qed.
Next Obligation. done. Qed.
Next Obligation. intros St mux req i rt binds _. apply serve_hit. Qed.
Next Obligation. intros St mux req st _ _ Hm. simpl. rewrite serve_miss by done. eexists. by split. Qed.
End ConcreteGateway.

Section Witnesses.
Import Concrete StandIn ConcreteServer ConcreteRpc ConcreteGateway.
#[local] Existing Instance alone_conn.

Definition post_add (body : list byte) : Request :=
  mkRequest "POST" "/v1/group/eu/add" EmptyString EmptyString body (∅, None).

Lemma post_add_rest body : rest_request "POST" "add" "eu" "eu" (post_add body).
Proof. by split. Qed.

(** The body names another group and the id 7; the engine counts it for "eu". *)
Lemma gateway_serves_witness :
  ∃ st m, mux_ServeHTTP (RegisterCardinalityServiceHandler tt []).1 (post_add [x00; x07])
    (alone, mkGrpcMetrics ∅ ∅) = Ret (mkResponse 200 "forwarded", (st, m)) ∧
    dom (view (engine st)) = {["eu"%string]}.
Proof.
  destruct (gateway_serves (C := unit) tt all_delivered alone_service (post_add [x00; x07]) "eu" "eu"
    (alone, mkGrpcMetrics ∅ ∅) (loopback_serves _ _ _ _)) as [HA _].
  specialize (HA (mkAddRequest "body" 7) (post_add_rest _) (or_introl eq_refl) eq_refl).
  eexists _, _. split; [etrans; [exact HA|reflexivity]|]. vm_compute. reflexivity.
Defined.

Lemma gateway_rejects_witness :
  rejected (post_add [xff]) (mux_ServeHTTP (gateway (direct_client alone_service)) (post_add [xff]) alone) alone.
Proof.
  destruct (gateway_rejects (direct_client alone_service) (post_add [xff]) "eu" "eu" alone) as [HA _].
  exact (HA _ _ (post_add_rest _) eq_refl eq_refl).
Defined.

End Witnesses.
