(* ===== verification/Generated.v ===== *)
(** * The generated files describe one service

    Messages, stubs and gateway are three generated files. That they agree is shown
    against the descriptor in the first: service and method names, message types and
    routes of the other two are the ones it declares. *)

From S2P Require Import Prelude External Sketch SketchValue Float64 Hll Estimate Bitmap Algorithms.
From S2P Require Import Engine EngineProps Handler RaftLib Router Store Raft Main Wire Proto3 Descriptor.
From S2P Require Import Pb Messages MessagesProps Server ServerProps Observe Rpc GoNet Gateway GatewayProps.
Local Open Scope Z_scope.

(** ** Paths of HTTP rules

    A template is compiled to a program for the gateway's matcher: a literal is pushed if
    the path has it, a variable takes a component and is captured under its name;
    literals and names share a pool. *)

Definition intern (pool : list string) (s : string) : nat * list string :=
  match list_find (s =.) pool with
  | Some (i, _) => (i, pool)
  | None => (length pool, pool ++ [s])
  end.

(** The name in a component [{name}]. *)
Definition variable_name (seg : string) : option string :=
  match seg with
  | String c s => if decide (c = "{"%char) then Some (String.substring 0 (String.length s - 1) s) else None
  | EmptyString => None
  end.

Definition compile_segment (acc : list Z * list string) (seg : string) : list Z * list string :=
  let '(ops, pool) := acc in
  match variable_name seg with
  | Some name =>
      let '(i, pool) := intern pool name in
      (ops ++ [OpPush; 0; OpConcatN; 1; OpCapture; Z.of_nat i], pool)
  | None => let '(i, pool) := intern pool seg in (ops ++ [OpLitPush; Z.of_nat i], pool)
  end.

Definition compile_template (path : string) : Pattern :=
  let '(ops, pool) := foldl compile_segment ([], []) (default [] (path_components path)) in
  mkPattern 1 ops pool EmptyString.

(** ** Names and routes by the descriptor *)

Definition type_name (d : FileDescriptorProto) (t : GoType) : string :=
  "." +:+ file_Package d +:+ "." +:+ go_name t.
Definition service_name (d : FileDescriptorProto) (sd : ServiceDescriptor) : string :=
  file_Package d +:+ "." +:+ sd_Name sd.
Definition full_name (d : FileDescriptorProto) (sd : ServiceDescriptor) (m : MethodDescriptor) : string :=
  "/" +:+ service_name d sd +:+ "/" +:+ mt_Name m.

Definition rule_verb (r : HttpRule) : string := if decide (hr_Get r = EmptyString) then "POST" else "GET".
Definition rule_path (r : HttpRule) : string := if decide (hr_Get r = EmptyString) then hr_Post r else hr_Get r.

Section Routes.
Context {St : Type} `{!GatewayRuntime}.

(** The routes of the annotated methods, given the function that serves each. *)
Definition described_routes
    (handler : string → string →
       (Marshaler → Request → gmap string string → prog St (result message * ServerMetadata)) →
       (Marshaler → Request → ServerMetadata → message → Response) →
       Request → gmap string string → prog St Response)
    (d : FileDescriptorProto) (sd : ServiceDescriptor)
    (requests : list (Marshaler → Request → gmap string string → prog St (result message * ServerMetadata)))
    : list (Route St) :=
  omap (λ mr : MethodDescriptor * _,
    (λ r, mkRoute (rule_verb r) (compile_template (rule_path r))
            (handler (full_name d sd mr.1) (rule_path r) mr.2 ForwardResponseMessage)) <$> mt_Http mr.1)
    (zip (sd_Methods sd) requests).
End Routes.

(** ** Message types by the stubs *)

(** The method handlers as the service descriptor lists them. *)
Definition MethodHandler (St : Type) : Type :=
  CardinalityServiceServer St → decoder → option (UnaryServerInterceptor St) → prog St (result message).

(** The handler decodes a message of type [t]: it answers the decoder's error on that type,
    whatever the decoder does with others, and does nothing else. *)
Definition decodes {St} (h : MethodHandler St) (t : GoType) : Prop :=
  ∀ srv (dec : decoder) ic st e,
    (∀ (A : Type) (PA : ProtoMessage A) (out : A), message_type (to_message out) = t → (dec A PA out).1 = Some e) →
    h srv dec ic st = Ret (Err e, st).

(** What the handler returns without an interceptor is a message of type [t]. *)
Definition returns_message {St} (h : MethodHandler St) (t : GoType) : Prop :=
  ∀ srv dec st m st', h srv dec None st = Ret (Ok m, st') → message_type m = t.

(** A connection that notes the method of each call and the types of its messages. *)
Definition probe : ClientConnInterface unit (list (string * GoType * GoType)) :=
  {| Invoke A B PA PB _ method req out log :=
       Ret ((Some (EExternal "probe"), out, no_metadata),
            log ++ [(method, message_type (to_message req), message_type (to_message out))]) |}.
#[local] Existing Instance probe.

(** The calls the client makes for one request to each of its methods. *)
Definition client_calls (a : AddRequest) (b : BatchAddRequest) (q : QueryRequest)
    : outcome (list (string * GoType * GoType)) :=
  let client := NewCardinalityServiceClient (St := list (string * GoType * GoType)) tt in
  match (let* _ := cl_Add client a in let* _ := cl_BatchAdd client b in cl_Query client q) [] with
  | Ret (_, log) => Ret log
  | Panic msg => Panic msg
  end.

Ltac stub_types :=
  repeat split; intros srv dec;
  [ intros ic st e Hdec; unfold _CardinalityService_Add_Handler, _CardinalityService_BatchAdd_Handler,
      _CardinalityService_Query_Handler;
    match goal with |- context [dec ?A ?P ?z] =>
      pose proof (Hdec A P z eq_refl) as Hd; destruct (dec A P z) as [err x]; cbn [fst] in Hd; by subst err
    end
  | intros st m st'; unfold _CardinalityService_Add_Handler, _CardinalityService_BatchAdd_Handler,
      _CardinalityService_Query_Handler, bind;
    match goal with |- context [dec ?A ?P ?z] => destruct (dec A P z) as [[err|] x]; [done|] end;
    match goal with |- context [?f srv ?x st] => by destruct (f srv x st) as [[[y|err] st1]|]; intros [= <- _] end ].

Lemma Add_Handler_types {St} :
  decodes (_CardinalityService_Add_Handler (St := St)) TAddRequest ∧
  returns_message (_CardinalityService_Add_Handler (St := St)) TAddResponse.
Proof. stub_types. Qed.

Lemma BatchAdd_Handler_types {St} :
  decodes (_CardinalityService_BatchAdd_Handler (St := St)) TBatchAddRequest ∧
  returns_message (_CardinalityService_BatchAdd_Handler (St := St)) TAddResponse.
Proof. stub_types. Qed.

Lemma Query_Handler_types {St} :
  decodes (_CardinalityService_Query_Handler (St := St)) TQueryRequest ∧
  returns_message (_CardinalityService_Query_Handler (St := St)) TQueryResponse.
Proof. stub_types. Qed.

(** The stub of a method by its descriptor: the name, and the types of its messages. *)
Definition stub_described {St} (d : FileDescriptorProto) (m : MethodDescriptor) (stub : string * MethodHandler St) : Prop :=
  stub.1 = mt_Name m ∧ ∃ input output, mt_Input m = type_name d input ∧ mt_Output m = type_name d output ∧
    decodes stub.2 input ∧ returns_message stub.2 output.


Section Witnesses.
Import Concrete StandIn ConcreteServer ConcreteRpc ConcreteGateway.

End Witnesses.
