(* ===== verification/EndToEnd.v ===== *)
(** * From HTTP requests to counts

    The layers composed for a standalone node: gateway, client stub, transport, method
    handler, interceptor, server, engine and store. A client that adds ids over HTTP and
    then asks for a group gets the estimate for the ids that were added, whatever requests
    and replies the transport loses in between. *)

From stdpp Require Import pretty.
From S2P Require Import Prelude External Sketch SketchValue Float64 Hll Estimate Bitmap Algorithms.
From S2P Require Import Engine EngineProps Handler RaftLib Router Store Raft Main Proto3 Pb Messages MessagesProps.
From S2P Require Import Server ServerProps Observe Rpc GoNet Gateway GatewayProps.
Local Open Scope Z_scope.

(** ** Adds to a map of sketches, by group *)

Section Adds.
Context {Sk : Type} `{AlgorithmLaws Sk}.

(** The ids that calls add to a group. *)
Definition group_ids (g : string) (cs : list (string * Z)) : list Z :=
  omap (λ c, if decide (c.1 = g) then Some c.2 else None) cs.

Definition adds (cs : list (string * Z)) : list call := (λ c, CAdd c.1 c.2) <$> cs.

Lemma spec_adds_lookup g cs (m : gmap string Sk) :
  spec_calls (adds cs) m !! g =
  match group_ids g cs with [] => m !! g | ids => Some (foldl sk_insert (spec_sketch g m) ids) end.
Proof.
  revert m. induction cs as [|[g' i] cs IH]; intros m; [done|].
  change (spec_calls (adds ((g', i) :: cs)) m) with (spec_calls (adds cs) (spec_Add g' i m)).
  rewrite IH. cbn [group_ids omap list_omap fst snd]. fold (group_ids g cs). unfold spec_Add.
  destruct (decide (g' = g)) as [->|Hne].
  - assert (spec_sketch g (<[g := sk_insert (spec_sketch g m) i]> m) = sk_insert (spec_sketch g m) i) as ->
      by (unfold spec_sketch at 1; by rewrite lookup_insert_eq).
    rewrite lookup_insert_eq. by destruct (group_ids g cs).
  - assert (spec_sketch g (<[g' := sk_insert (spec_sketch g' m) i]> m) = spec_sketch g m) as ->
      by (unfold spec_sketch at 1; by rewrite lookup_insert_ne).
    by rewrite lookup_insert_ne by done.
Qed.

(** The estimate of a group nobody added to is zero. *)
Definition estimate (ids : list Z) : Z :=
  match ids with [] => 0 | _ => sk_Cardinality (sk_of_ids ids : Sk) end.

Lemma estimate_lookup g cs (m : gmap string Sk) :
  m = ∅ → match spec_calls (adds cs) m !! g with Some sk => sk_Cardinality sk | None => 0 end =
  estimate (group_ids g cs).
Proof. intros ->. rewrite spec_adds_lookup. by destruct (group_ids g cs). Qed.

Lemma estimate_u64 ids : u64 (estimate ids).
Proof. destruct ids; [unfold u64; cbn; lia|apply law_cardinality_u64]. Qed.
End Adds.

(** ** Messages that can be sent *)

(** The values are Go values and the text is UTF-8. *)
Definition message_fields (m : message) : fields :=
  match m with
  | MAddRequest x => body_fields TAddRequest x
  | MBatchAddRequest x => body_fields TBatchAddRequest x
  | MAddResponse x => body_fields TAddResponse x
  | MQueryRequest x => body_fields TQueryRequest x
  | MQueryResponse x => body_fields TQueryResponse x
  end.
Definition sendable (m : message) : bool := forallb (λ f, value_ok f.2) (message_fields m).

(** A wire that takes every message it should. *)
Definition wire_total `{!ProtoWire} : Prop := ∀ m, sendable m = true → ∃ w, wire_Marshal m = Ok w.

(** ** A session *)

(** A POST to the add or the batch route: the request, the group as written in the path and
    as decoded, and the message in the body. *)
Inductive post_body := AddBody (a : AddRequest) | BatchBody (b : BatchAddRequest).
Record post := mkPost { p_req : Request; p_segment : string; p_group : string; p_body : post_body }.

(** The ids it asks to add. *)
Definition p_ids (p : post) : list Z :=
  match p_body p with AddBody a => [add_Id a] | BatchBody b => batch_Ids b end.
Definition p_calls (p : post) : list (string * Z) := pair (p_group p) <$> p_ids p.

Section Session.
Context {Sk N C : Type} `{AlgorithmLaws Sk, !Badger, !Murmur3, !Grpc, !RaftNodeI N, !GatewayRuntime, !ProtoWire}.
Context `{!ClientConnInterface C (Server Sk N * GrpcMetrics)}.
Context (peers : Peers (Server Sk N)) (cc : C) (fates : string → Server Sk N * GrpcMetrics → fate).
Implicit Types (st : Server Sk N * GrpcMetrics) (p : post) (req : Request).

Definition node_service : CardinalityServiceServer (Server Sk N) := ServerService (λ s, s) (λ s _, s) peers.
Definition front : ServeMux (Server Sk N * GrpcMetrics) := (RegisterCardinalityServiceHandler cc []).1.

Fixpoint serve_each (reqs : list Request) : prog (Server Sk N * GrpcMetrics) (list Response) :=
  match reqs with
  | [] => ret []
  | req :: reqs' =>
      let* r := mux_ServeHTTP front req in
      let* rs := serve_each reqs' in
      ret (r :: rs)
  end.

(** The message that goes to the service. *)
Definition p_message p : message :=
  match p_body p with
  | AddBody a => MAddRequest (mkAddRequest (p_group p) (add_Id a))
  | BatchBody b => MBatchAddRequest (mkBatchAddRequest (p_group p) (batch_Ids b))
  end.

Record post_ok p : Prop := {
  post_rest :
    rest_request "POST" (match p_body p with AddBody _ => "add" | BatchBody _ => "batch" end)
      (p_segment p) (p_group p) (p_req p);
  post_decoded : match p_body p with AddBody a => decoded (p_req p) a | BatchBody b => decoded (p_req p) b end;
  post_context :
    match p_body p with
    | AddBody _ => AnnotateContext (p_req p) CardinalityService_Add_FullMethodName "/v1/group/{group}/add" = None
    | BatchBody _ =>
        AnnotateContext (p_req p) CardinalityService_BatchAdd_FullMethodName "/v1/group/{group}/batch" = None
    end;
  post_group : p_group p ≠ EmptyString;
  post_ids : Forall u64 (p_ids p);
  post_sendable : sendable (p_message p) = true;
}.

(** What a POST is answered, and what it added: everything, when it is answered ok, or
    else the ids up to some point. *)
Inductive post_outcome p : Response → list (string * Z) → Prop :=
  | Acknowledged md :
      post_outcome p (ForwardResponseMessage (MarshalerForRequest (p_req p)).2 (p_req p) md
        (MAddResponse (mkAddResponse true))) (p_calls p)
  | Failed md e k :
      post_outcome p (HTTPError (MarshalerForRequest (p_req p)).2 (p_req p) md e) (take k (p_calls p)).

(** A node that owns every group and has no Raft node. *)
Record standalone (s : Server Sk N) : Prop := {
  alone_router : router s = None;
  alone_node : node s = None;
  alone_engine : engine_ok (engine s);
}.

Lemma standalone_owner s g : standalone s → owner_of s g = Ret None.
Proof. intros [Hr _ _]. unfold owner_of. by rewrite Hr. Qed.

(** One call of the service, under the interceptor. *)
Definition p_method p : string :=
  match p_body p with
  | AddBody _ => CardinalityService_Add_FullMethodName
  | BatchBody _ => CardinalityService_BatchAdd_FullMethodName
  end.
Definition p_service p : prog (Server Sk N) (result AddResponse) :=
  match p_body p with
  | AddBody a => server_Add node_service (mkAddRequest (p_group p) (add_Id a))
  | BatchBody b => server_BatchAdd node_service (mkBatchAddRequest (p_group p) (batch_Ids b))
  end.

Lemma adds_group g ids : adds (pair g <$> ids) = CAdd g <$> ids.
Proof. unfold adds. by rewrite <- list_fmap_compose. Qed.

Lemma service_adds p s :
  post_ok p → standalone s →
  ∃ k r s', p_service p s = Ret (r, s') ∧ standalone s' ∧
    view (engine s') = spec_calls (adds (take k (p_calls p))) (view (engine s)) ∧
    (∀ x, r = Ok x → x = mkAddResponse true ∧ take k (p_calls p) = p_calls p).
Proof.
  intros Hp Hs. pose proof (post_group p Hp) as Hg. pose proof (post_ids p Hp) as Hids.
  pose proof (standalone_owner s (p_group p) Hs) as Ho.
  unfold p_service, p_calls, p_ids in *. destruct (p_body p) as [a|b].
  - apply (Forall_singleton u64) in Hids.
    destruct (Add_local (λ s, s) (λ s _, s) peers ltac:(done) ltac:(done) (p_group p) (add_Id a) s)
      as (err & e' & t' & E & Hok & Hv & _); [done|done|apply Hs|apply Hs|exact Hids|].
    eexists 1%nat, _, _. split; [exact E|]. split; [split; [apply Hs|apply Hs|exact Hok]|].
    split; [exact Hv|]. destruct err; [done|]. intros x [= <-]. done.
  - destruct (batch_add_local (λ s, s) (λ s _, s) peers ltac:(done) ltac:(done) (p_group p) (batch_Ids b) s)
      as (k & r & s' & E & Hk & Hr & Hn & Hok & Hv & _ & Hx); [done|done|apply Hs|apply Hs|done|].
    exists k, r, s'. split; [exact E|]. split; [split; [rewrite Hr; apply Hs|done|done]|].
    rewrite <- fmap_take, adds_group. split; [exact Hv|]. intros x Er. destruct (Hx x Er) as (-> & -> & _).
    by rewrite firstn_all.
Qed.

(** A POST is a remote call of the service. *)
Lemma post_remote p st :
  serves cc fates CardinalityService_ServiceDesc (with_metrics node_service) (Some metrics_interceptor) →
  post_ok p →
  mux_ServeHTTP front (p_req p) st =
  answered (p_req p) (remote (fates (p_method p) st) (p_method p) (p_message p) (p_service p)) st.
Proof.
  intros Hs Hp. change (mux_ServeHTTP front (p_req p) st) with
    (mux_ServeHTTP (gateway (NewCardinalityServiceClient cc)) (p_req p) st).
  pose proof (post_rest p Hp) as Hrest. pose proof (post_decoded p Hp) as Hdec.
  pose proof (post_context p Hp) as Hctx. unfold p_method, p_message, p_service.
  destruct (p_body p) as [a|b].
  - rewrite (gateway_Add _ _ _ _ _ st Hrest Hdec Hctx). unfold answered, bind.
    by rewrite (client_Add_remote cc fates node_service).
  - rewrite (gateway_BatchAdd _ _ _ _ _ st Hrest Hdec Hctx). unfold answered, bind.
    by rewrite (client_BatchAdd_remote cc fates node_service).
Qed.

(** One POST. *)
Lemma served_post p st :
  wire_total →
  serves cc fates CardinalityService_ServiceDesc (with_metrics node_service) (Some metrics_interceptor) →
  post_ok p → standalone st.1 →
  ∃ r added st', mux_ServeHTTP front (p_req p) st = Ret (r, st') ∧ post_outcome p r added ∧ standalone st'.1 ∧
    view (engine st'.1) = spec_calls (adds added) (view (engine st.1)).
Proof.
  intros Hw Hs Hp Halone. rewrite post_remote by done. unfold answered, bind at 1, remote.
  destruct (Hw _ (post_sendable p Hp)) as [w ->]. destruct st as [s m]. cbn [fst] in *.
  destruct (service_adds p s Hp Halone) as (k & r & s' & E & Halone' & Hv & Hr).
  destruct (fates _ _) as [md|e|e].
  - unfold counted_once, bind. cbn [fst snd]. rewrite E.
    eexists _, (take k (p_calls p)), _. split; [reflexivity|]. split; [|by split].
    destruct r as [x|e]; cbn [reply]; [|apply Failed]. destruct (Hr x eq_refl) as [-> ->].
    destruct (wire_Marshal (to_message (mkAddResponse true))); [apply Acknowledged|].
    rewrite <- (firstn_all (p_calls p)). apply Failed.
  - eexists _, [], (s, m). split; [reflexivity|]. split; [apply (Failed p _ _ 0)|by split].
  - unfold counted_once, bind. cbn [fst snd]. rewrite E.
    eexists _, (take k (p_calls p)), _. split; [reflexivity|]. split; [apply Failed|by split].
Qed.

Lemma served_all posts st :
  wire_total →
  serves cc fates CardinalityService_ServiceDesc (with_metrics node_service) (Some metrics_interceptor) →
  Forall post_ok posts → standalone st.1 →
  ∃ rs added st', serve_each (p_req <$> posts) st = Ret (rs, st') ∧ Forall3 post_outcome posts rs added ∧
    standalone st'.1 ∧ view (engine st'.1) = spec_calls (adds (concat added)) (view (engine st.1)).
Proof.
  intros Hw Hs Hposts. revert st. induction Hposts as [|p posts Hp _ IH]; intros st Halone.
  { eexists [], [], st. split; [reflexivity|]. split; [constructor|by split]. }
  destruct (served_post p st Hw Hs Hp Halone) as (r & a & st1 & E1 & Ho & Halone1 & Hv1).
  destruct (IH st1 Halone1) as (rs & added & st2 & E2 & Hos & Halone2 & Hv2).
  exists (r :: rs), (a :: added), st2. cbn [fmap list_fmap serve_each]. unfold bind at 1. rewrite E1.
  unfold bind. rewrite E2. split; [reflexivity|]. split; [by constructor|]. split; [done|].
  rewrite Hv2, Hv1. unfold spec_calls, adds. cbn [concat]. by rewrite fmap_app, foldl_app.
Qed.

(** The GET of a group. *)
Record get_ok (seg g : string) req (stale : bool) : Prop := {
  get_rest : rest_request "GET" "cardinality" seg g req;
  get_queried : queried req g stale;
  get_context : AnnotateContext req CardinalityService_Query_FullMethodName "/v1/group/{group}/cardinality" = None;
  get_group : g ≠ EmptyString;
  get_sendable : sendable (MQueryRequest (mkQueryRequest g stale)) = true;
}.

Lemma served_Query seg g req stale st md n :
  wire_total →
  serves cc fates CardinalityService_ServiceDesc (with_metrics node_service) (Some metrics_interceptor) →
  get_ok seg g req stale → standalone st.1 → fates CardinalityService_Query_FullMethodName st = Delivered md →
  n = match view (engine st.1) !! g with Some sk => sk_Cardinality sk | None => 0 end →
  ∃ st', mux_ServeHTTP front req st =
      Ret (ForwardResponseMessage (MarshalerForRequest req).2 req md (MQueryResponse (mkQueryResponse g n)), st') ∧
    engine st'.1 = engine st.1.
Proof.
  intros Hw Hs Hg Halone Hf Hn. destruct st as [s m]. cbn [fst] in *.
  pose proof (gateway_Query (NewCardinalityServiceClient cc) req seg g stale (s, m) (get_rest _ _ _ _ Hg)
    (get_queried _ _ _ _ Hg) (get_context _ _ _ _ Hg)) as E.
  change (mux_ServeHTTP front req (s, m)) with
    (mux_ServeHTTP (gateway (NewCardinalityServiceClient cc)) req (s, m)). rewrite E. clear E.
  unfold answered, bind at 1. rewrite (client_Query_remote cc fates node_service _ _ Hs), Hf. unfold remote.
  destruct (Hw _ (get_sendable _ _ _ _ Hg)) as [w Ew]. cbn [to_message QueryRequest_message] in *. rewrite Ew.
  unfold counted_once, bind. cbn [fst snd server_Query node_service ServerService].
  rewrite Query_local; [|apply Hg|by apply standalone_owner|apply Halone]. rewrite <- Hn. cbn [reply].
  destruct (Hw (MQueryResponse (mkQueryResponse g n))) as [w' Ew'].
  { assert (u64 n) as Hu. { rewrite Hn. destruct (_ !! g); [apply law_cardinality_u64|unfold u64; lia]. }
    pose proof (get_sendable _ _ _ _ Hg) as Hsend. unfold sendable in *. cbn in Hsend |- *.
    unfold value_ok in *. cbn [valid_text go_value] in *. rewrite !andb_true_r in *. rewrite Hsend. cbn.
    by apply bool_decide_eq_true. }
  cbn [to_message QueryResponse_message]. rewrite Ew'. eexists. by split.
Qed.

(** C4: Counting over HTTP, end to end: on a standalone node that starts empty, any number of
    POSTs to the add and batch routes, with requests and replies lost by the transport at
    will, are all answered without a panic; a POST answered with ok added its ids, one
    answered with an error added a prefix of them. A GET of a group that is delivered then answers with the
    estimate for exactly the ids that were added to that group, which is zero if none
    were. *)
Theorem rest_counts (posts : list post) seg g req stale st :
  wire_total →
  serves cc fates CardinalityService_ServiceDesc (with_metrics node_service) (Some metrics_interceptor) →
  Forall post_ok posts → get_ok seg g req stale → standalone st.1 → view (engine st.1) = ∅ →
  ∃ rs added st', serve_each (p_req <$> posts) st = Ret (rs, st') ∧
    Forall3 post_outcome posts rs added ∧
    ∀ md, fates CardinalityService_Query_FullMethodName st' = Delivered md →
      ∃ st'', mux_ServeHTTP front req st' =
        Ret (ForwardResponseMessage (MarshalerForRequest req).2 req md
               (MQueryResponse (mkQueryResponse g (estimate (Sk := Sk) (group_ids g (concat added))))), st'').
Proof.
  intros Hw Hs Hposts Hget Halone Hempty.
  destruct (served_all posts st Hw Hs Hposts Halone) as (rs & added & st' & E & Ho & Halone' & Hv).
  exists rs, added, st'. split; [done|]. split; [done|]. intros md Hmd.
  destruct (served_Query seg g req stale st' md (estimate (Sk := Sk) (group_ids g (concat added))))
    as (st'' & Eq & _); [done|done|done|done|done| |eauto].
  rewrite Hv. symmetry. by apply estimate_lookup.
Qed.
End Session.

Section Witnesses.
Import Concrete StandIn ConcreteServer ConcreteRpc ConcreteGateway.

Lemma concrete_wire_total : wire_total.
Proof.
  intros m Hm. unfold sendable in Hm. cbn [wire_Marshal wire].
  destruct m; cbn [encode message_fields] in *; unfold Marshal, marshal; rewrite Hm; eauto.
Qed.

(** Of each kind of write the first is delivered, the reply to the second is lost, and every
    later one is lost on its way; queries are delivered. *)
Definition lossy (method : string) (st : Server SketchV (list (string * Z)) * GrpcMetrics) : fate :=
  if decide (method = CardinalityService_Query_FullMethodName) then Delivered no_metadata
  else
    let k := default 0 (grpcRequestsTotal st.2 !! (method, "OK"%string)) in
    if decide (k = 0) then Delivered no_metadata
    else if decide (k = 1) then ReplyLost (EStatus 14 "connection reset")
    else RequestLost (EStatus 14 "connection refused").
Definition lossy_conn : ClientConnInterface unit (Server SketchV (list (string * Z)) * GrpcMetrics) :=
  loopback lossy CardinalityService_ServiceDesc (with_metrics (node_service no_peers)) (Some metrics_interceptor).
#[local] Existing Instance lossy_conn.

Definition post_batch (body : list byte) : Request :=
  mkRequest "POST" "/v1/group/eu/batch" EmptyString EmptyString body (∅, None).
Definition four_posts : list post :=
  ((λ b, mkPost (post_add [x00; b]) "eu" "eu" (AddBody (mkAddRequest "body" (byte_to_Z b)))) <$> [x07; x2a; x63]) ++
  [mkPost (post_batch [x01; x07; x05; x06]) "eu" "eu" (BatchBody (mkBatchAddRequest "body" [7; 5; 6]))].
Definition get_eu : Request :=
  mkRequest "GET" "/v1/group/eu/cardinality" EmptyString EmptyString [] (∅, None).
Definition start : Server SketchV (list (string * Z)) * GrpcMetrics := (alone, mkGrpcMetrics ∅ ∅).

(** What the session computes to. *)
Lemma session_computes :
  match serve_each (Sk := SketchV) tt (p_req <$> four_posts) start with
  | Ret (rs, st') =>
      match mux_ServeHTTP (front tt) get_eu st' with
      | Ret (r, _) => (rs_code <$> rs, rs_code r, rs_body r) = ([200; 500; 500; 200], 200, "eu=4"%string)
      | Panic _ => False
      end
  | Panic _ => False
  end.
Proof. vm_compute. reflexivity. Qed.

(** Of three ids posted one is acknowledged, one is added with the reply lost, one never
    arrives; a batch repeats the first and brings two more: the estimate is four. *)
Lemma rest_counts_witness :
  ∃ rs added st' st'', serve_each (Sk := SketchV) tt (p_req <$> four_posts) start = Ret (rs, st') ∧
    rs_code <$> rs = [200; 500; 500; 200] ∧ Forall3 post_outcome four_posts rs added ∧
    mux_ServeHTTP (front tt) get_eu st' = Ret (mkResponse 200 "eu=4", st'') ∧
    ("eu=" +:+ pretty (Z.to_N (estimate (Sk := SketchV) (group_ids "eu" (concat added)))) = "eu=4")%string.
Proof.
  destruct (rest_counts no_peers tt lossy four_posts "eu" "eu" get_eu false start) as (rs & added & st' & E & Ho & HQ).
  - exact concrete_wire_total.
  - exact (loopback_serves _ _ _ _).
  - repeat (apply Forall_cons_2; [split; [by split|by left|done|done|by repeat constructor|vm_compute; reflexivity]|]). apply Forall_nil_2.
  - split; [by split|by eexists|done|done|vm_compute; reflexivity].
  - split; [done|done|apply empty_engine_ok].
  - reflexivity.
  - destruct (HQ no_metadata eq_refl) as [st'' EQ]. pose proof session_computes as Hc. rewrite E, EQ in Hc.
    exists rs, added, st', st''. split; [exact E|]. split; [exact (f_equal (λ x, x.1.1) Hc)|].
    split; [exact Ho|]. split; [|exact (f_equal snd Hc)]. rewrite EQ.
    exact (f_equal (λ body, Ret (mkResponse 200 body, st'')) (f_equal snd Hc)).
Defined.
End Witnesses.
