(* ===== verification/Serve.v ===== *)
(** * Serving and shutting down (cmd/server/main.go, after the components exist)

    The two HTTP multiplexers, the registration of the gateway, and [run] as the
    sequence of its effects: what it opens, what it defers and in which order the
    deferred calls happen on each way out. *)

From S2P Require Import Prelude External Sketch SketchValue Float64 Hll Estimate Bitmap Algorithms.
From S2P Require Import Engine EngineProps Handler RaftLib Router Store Raft Main Pb Server ServerProps.
From S2P Require Import Observe Rpc GoNet Gateway GatewayProps MessagesProps.
From stdpp Require Import pretty.
Local Open Scope Z_scope.

(** ** The HTTP listeners *)

(** [http.ServeMux.ServeHTTP]: the answer to a redirected request carries the new path. *)
Definition http_serve {St} (table : list (string * (Request → prog St Response))) (req : Request)
    : prog St Response :=
  if decide (rq_Path req = "*"%string) then ret (mkResponse 400 EmptyString)
  else
    match mux_Handler table req with
    | Handle h => h req
    | Redirect path => ret (mkResponse 301 path)
    | NotFound => ret (mkResponse 404 ("404 page not found" +:+ newline))
    end.

Section Muxes.
Context {Sk St : Type} `{!Sketch Sk, !Algorithm Sk, !MapRange, !EtcdRaft, !GatewayRuntime}.

(** What the handlers reach: the engine and the Raft node. *)
Context (look_engine : St → Engine Sk) (write_engine : Engine Sk → St → St) (look_node : St → Node Sk).

Definition readyz (req : Request) : prog St Response := λ st, Ret (ReadyzHandler (ready (look_node st)), st).
Definition healthz (req : Request) : prog St Response := ret HealthzHandler.

(** [promhttp.Handler]: a page from what the registered collectors send. *)
Context (promhttp_Handler : list Metric → Response).

Definition gather (maxGroups : Z) : prog St (list Metric) := λ st,
  match EngineCollector_Collect (NewEngineCollector maxGroups) (look_engine st) with
  | Ret (ms, e) => Ret (ms ++ RaftCollector_Collect (NewRaftCollector (look_node st)), write_engine e st)
  | Panic msg => Panic msg
  end.
Definition scrape (maxGroups : Z) (req : Request) : prog St Response :=
  let* ms := gather maxGroups in ret (promhttp_Handler ms).

Definition mainMux (mux : ServeMux St) : list (string * (Request → prog St Response)) :=
  [("/healthz"%string, healthz); ("/readyz"%string, readyz); ("/"%string, mux_ServeHTTP mux)].

Definition metricsMux (maxGroups : Z) : list (string * (Request → prog St Response)) :=
  [("/metrics"%string, scrape maxGroups); ("/healthz"%string, healthz); ("/readyz"%string, readyz)].
End Muxes.

(** ** [run] *)

Record Ports := mkPorts { grpcPort : Z; httpPort : Z; metricsPort : Z }.

(** The flags' defaults. *)
Definition default_Ports : Ports := mkPorts 9090 8080 8081.
Definition default_Flags : Flags := mkFlags "/tmp/cardinality-data" 1 EmptyString 1000.

(** What [run] does to the world, in order. *)
Inductive event :=
  | EvStoreOpen
  | EvNodeRun
  | EvRegisterCollectors
  | EvNewServer
  | EvGrpcListen
  | EvGrpcServe
  | EvGatewayDial
  | EvHttpServe
  | EvMetricsServe
  | EvSignal
  | EvGrpcGracefulStop
  | EvHttpShutdown
  | EvMetricsShutdown
  | EvShutdownCancel
  | EvGatewayCancel
  | EvServerClose
  | EvNodeStop
  | EvStoreClose.

#[export] Instance event_eq_dec : EqDecision event.
Proof. solve_decision. Defined.

(** The events of a call and how it ends; a deferred call happens last, also when the
    body panics. *)
Definition act : Type := list event * outcome (option error).
Definition emit (ev : event) (k : act) : act := (ev :: k.1, k.2).
Definition defer (ev : event) (body : act) : act := (body.1 ++ [ev], body.2).
Definition return_ (err : option error) : act := ([], Ret err).
Definition panicking (msg : string) : act := ([], Panic msg).

(** What the operating system answers to opening a listener. The listeners of the HTTP
    servers are opened in goroutines of their own; an error there, as an error of
    [Shutdown], is logged and changes nothing else. *)
Record World := mkWorld { net_Listen : string → option error }.

Section Run.
Context {Sk St : Type} `{!Sketch Sk, !Algorithm Sk, !Badger, !Proto, !EtcdRaft, !Murmur3, !Grpc}.
Context `{!GatewayRuntime, !ClientConnInterface Conn St}.

(** The addresses made with [fmt.Sprintf]. *)
Definition listen_addr (port : Z) : string := ":" +:+ pretty port.
Definition gateway_endpoint (port : Z) : string := "localhost:" +:+ pretty port.

Definition new_server `{!RaftNodeI (Node Sk)} (sys : System Sk) : Server Sk (Node Sk) :=
  Server.New (sys_backend sys).1 (sys_backend sys).2 (Some (sys_node sys)) (sys_ring sys) (sys_selfAddr sys).

Definition register_gateway (p : Ports) : Registered St :=
  RegisterCardinalityServiceHandlerFromEndpoint (gateway_endpoint (grpcPort p)) [insecure_credentials] [].

(** After the signal. *)
Definition shutdown : act :=
  emit EvSignal (emit EvGrpcGracefulStop (defer EvShutdownCancel (
    emit EvHttpShutdown (emit EvMetricsShutdown (return_ None))))).

Definition serve_all (w : World) (p : Ports) : act :=
  match net_Listen w (listen_addr (grpcPort p)) with
  | Some err => return_ (Some (EListenGrpc err))
  | None =>
      emit EvGrpcListen (emit EvGrpcServe (defer EvGatewayCancel (
        match reg_err (register_gateway p) with
        | Some err => return_ (Some (ERegisterGateway err))
        | None => emit EvGatewayDial (emit EvHttpServe (emit EvMetricsServe shutdown))
        end)))
  end.

Definition run (w : World) (f : Flags) (p : Ports) (observed errors : Z) : act :=
  match Open (dataDir f) observed errors with
  | Err err => return_ (Some (EOpenStore err))
  | Ok _ =>
      emit EvStoreOpen (defer EvStoreClose (
        match startup (Sk := Sk) f observed errors with
        | Panic msg => panicking msg
        | Ret (Err err) => return_ (Some err)
        | Ret (Ok sys) =>
            emit EvNodeRun (defer EvNodeStop (
              emit EvRegisterCollectors (
                emit EvNewServer (defer EvServerClose (serve_all w p)))))
        end))
  end.

(** The exit code of [main]; a panic exits with 2. *)
Definition main (w : World) (f : Flags) (p : Ports) (observed errors : Z) : Z :=
  match (run w f p observed errors).2 with
  | Ret None => 0
  | Ret (Some _) => 1
  | Panic _ => 2
  end.
End Run.

(** ** The order of events *)

(** Started and not yet stopped, after the events so far. *)
Definition live (start stop : event) (so_far : list event) : bool :=
  bool_decide (start ∈ so_far) && negb (bool_decide (stop ∈ so_far)).

Fixpoint inits (tr : list event) : list (list event) :=
  match tr with
  | [] => [[]]
  | ev :: tr' => [] :: (cons ev <$> inits tr')
  end.

Lemma inits_prefix pre tr : pre `prefix_of` tr → pre ∈ inits tr.
Proof.
  revert pre. induction tr as [|ev tr IH]; intros pre Hp.
  - apply prefix_nil_inv in Hp as ->. by left.
  - destruct pre as [|ev' pre]; [by left|].
    pose proof (prefix_cons_inv_1 _ _ _ _ Hp) as ->. apply prefix_cons_inv_2 in Hp.
    simpl. right. apply list_elem_of_fmap. eauto.
Qed.

(** A check of all prefixes by evaluation. *)
Lemma always_prefix (P : list event → bool) pre tr :
  forallb P (inits tr) = true → pre `prefix_of` tr → P pre = true.
Proof.
  intros Hall Hp. rewrite forallb_forall in Hall. apply Hall, list_elem_of_In. by apply inits_prefix.
Qed.

(** What is opened and what closes it. *)
Definition resources : list (event * event) :=
  [(EvStoreOpen, EvStoreClose); (EvNodeRun, EvNodeStop); (EvNewServer, EvServerClose);
   (EvGatewayDial, EvGatewayCancel); (EvHttpServe, EvHttpShutdown); (EvMetricsServe, EvMetricsShutdown)].

(** Nothing is done twice, a thing is closed after it was opened, and everything opened is
    closed in the end. *)
Definition balanced (tr : list event) : bool :=
  bool_decide (NoDup tr) &&
  forallb (λ r, negb (live r.1 r.2 tr) &&
    forallb (λ pre, negb (bool_decide (r.2 ∈ pre)) || bool_decide (r.1 ∈ pre) || bool_decide (r.1 ∉ tr))
      (inits tr)) resources.

(** The Raft node outlives the server's connections and the store outlives the node. *)
Definition nested (pre : list event) : bool :=
  implb (live EvNodeRun EvNodeStop pre) (live EvStoreOpen EvStoreClose pre) &&
  implb (live EvNewServer EvServerClose pre) (live EvNodeRun EvNodeStop pre) &&
  implb (live EvHttpServe EvHttpShutdown pre) (live EvNewServer EvServerClose pre).

(** Requests are served only while all of it is there. *)
Definition serving_ok (pre : list event) : bool :=
  implb (live EvGrpcServe EvGrpcGracefulStop pre) (live EvNewServer EvServerClose pre).

Section RunProps.
Context {Sk St : Type} `{!Sketch Sk, !Algorithm Sk, !Badger, !Proto, !EtcdRaft, !Murmur3, !Grpc}.
Context `{!GatewayRuntime, !ClientConnInterface Conn St}.

(** The ways through [run]. *)
Definition full_trace : list event :=
  [EvStoreOpen; EvNodeRun; EvRegisterCollectors; EvNewServer; EvGrpcListen; EvGrpcServe; EvGatewayDial;
   EvHttpServe; EvMetricsServe; EvSignal; EvGrpcGracefulStop; EvHttpShutdown; EvMetricsShutdown;
   EvShutdownCancel; EvGatewayCancel; EvServerClose; EvNodeStop; EvStoreClose].
Definition gateway_failed_trace : list event :=
  [EvStoreOpen; EvNodeRun; EvRegisterCollectors; EvNewServer; EvGrpcListen; EvGrpcServe; EvGatewayCancel;
   EvServerClose; EvNodeStop; EvStoreClose].
Definition listen_failed_trace : list event :=
  [EvStoreOpen; EvNodeRun; EvRegisterCollectors; EvNewServer; EvServerClose; EvNodeStop; EvStoreClose].

Lemma run_cases w f p observed errors :
  let r := run (Sk := Sk) (St := St) w f p observed errors in
  (∃ e, r = ([], Ret (Some (EOpenStore e)))) ∨
  (r.1 = [EvStoreOpen; EvStoreClose] ∧ r.2 ≠ Ret None) ∨
  (∃ e, r = (listen_failed_trace, Ret (Some (EListenGrpc e)))) ∨
  (∃ e, reg_err (register_gateway (St := St) p) = Some e ∧
     r = (gateway_failed_trace, Ret (Some (ERegisterGateway e)))) ∨
  (r = (full_trace, Ret None)).
Proof.
  cbn zeta. unfold run. destruct (Open _ _ _) as [t|e]; [|left; by exists e].
  destruct (startup f observed errors) as [[sys|e]|msg]; [|by right; left..].
  unfold serve_all. destruct (net_Listen w _) as [e|]; [by right; right; left; exists e|].
  destruct (reg_err _) as [e|] eqn:Eg; [by right; right; right; left; exists e|].
  by right; right; right; right.
Qed.

(** C16: [run] cleans up on every way out, in the order its comments and defers intend: no
    effect happens twice; whatever was opened (store, Raft node, peer connections,
    gateway connection, HTTP servers) is closed by the time [run] returns or panics and
    not before it was opened; at every moment a running node has an open store and an
    open server a running node; and if the gateway could be registered, gRPC requests
    are served only while the server is open. [run] returns no error only after the full
    sequence from opening to the graceful stop. *)
Theorem run_cleans_up w f p observed errors :
  let r := run (Sk := Sk) (St := St) w f p observed errors in
  balanced r.1 = true ∧
  (∀ pre, pre `prefix_of` r.1 → nested pre = true) ∧
  (reg_err (register_gateway (St := St) p) = None →
     ∀ pre, pre `prefix_of` r.1 → serving_ok pre = true) ∧
  (r.2 = Ret None → r.1 = full_trace).
Proof.
  cbn zeta.
  destruct (run_cases w f p observed errors) as [[e E]|[[E1 E2]|[[e E]|[(e & Eg & E)|E]]]].
  5: rewrite E. 4: rewrite E. 3: rewrite E. 2: rewrite E1. 1: rewrite E.
  all: split; [vm_compute; reflexivity|]; split;
    [intros pre Hp; eapply (always_prefix nested); [|exact Hp]; vm_compute; reflexivity|].
  all: split; [|try done].
  4: by rewrite Eg.
  all: intros _ pre Hp; eapply (always_prefix serving_ok); [|exact Hp]; vm_compute; reflexivity.
Qed.

(** The converse of its hypothesis: when the gateway cannot be registered the gRPC server
    is not stopped, and it still serves when the store has been closed. *)
Lemma gateway_failure_leaves_grpc w f p observed errors sys t e :
  Open (dataDir f) observed errors = Ok t → startup (Sk := Sk) f observed errors = Ret (Ok sys) →
  net_Listen w (listen_addr (grpcPort p)) = None →
  reg_err (register_gateway (St := St) p) = Some e →
  live EvGrpcServe EvGrpcGracefulStop (run (Sk := Sk) (St := St) w f p observed errors).1 = true ∧
  live EvStoreOpen EvStoreClose (run (Sk := Sk) (St := St) w f p observed errors).1 = false.
Proof. intros Ho Es El Eg. unfold run, serve_all. by rewrite Ho, Es, El, Eg. Qed.
End RunProps.

(** ** The surface of the two listeners *)

Section Surface.
Context {Sk St : Type} `{!Sketch Sk, !Algorithm Sk, !MapRange, !EtcdRaft, !GatewayRuntime}.
Context (look_engine : St → Engine Sk) (write_engine : Engine Sk → St → St) (look_node : St → Node Sk).
Context (promhttp_Handler : list Metric → Response).
Implicit Types (req : Request) (st : St) (mux : ServeMux St).

(** The handlers of httpSrv and metricsSrv. *)
Definition public mux : Request → prog St Response := http_serve (mainMux look_node mux).
Definition metrics_port k : Request → prog St Response :=
  http_serve (metricsMux look_engine write_engine look_node promhttp_Handler k).

Lemma mainMux_root mux p :
  p ∈ (mainMux look_node mux).*1 → ends_in_slash p = true → p = slash_s.
Proof.
  cbn [mainMux fmap list_fmap fst].
  intros [->|[->|[->|[]%not_elem_of_nil]%elem_of_cons]%elem_of_cons]%elem_of_cons; done.
Qed.

Lemma metricsMux_root k p :
  p ∈ (metricsMux look_engine write_engine look_node promhttp_Handler k).*1 →
  ends_in_slash p = true → p = slash_s.
Proof.
  cbn [metricsMux fmap list_fmap fst].
  intros [->|[->|[->|[]%not_elem_of_nil]%elem_of_cons]%elem_of_cons]%elem_of_cons; done.
Qed.

Lemma clean_not_star p : cleanPath p = p → p ≠ "*"%string.
Proof. by intros Hc ->. Qed.

(** A clean path that is no health endpoint goes to the gateway. *)
Lemma public_gateway mux req :
  rq_Method req ≠ "CONNECT"%string → cleanPath (rq_Path req) = rq_Path req →
  rq_Path req ≠ "/healthz"%string → rq_Path req ≠ "/readyz"%string →
  public mux req = mux_ServeHTTP mux req.
Proof.
  intros Hm Hc Hh Hr. unfold public, http_serve. rewrite decide_False by (by apply clean_not_star).
  rewrite mux_Handler_clean by (done || apply mainMux_root).
  assert (mux_match (mainMux look_node mux) (rq_Path req) = Some (mux_ServeHTTP mux)) as ->; [|done].
  pose proof (cleanPath_prefix _ Hc) as Hp. revert Hh Hr Hp. generalize (rq_Path req). intros path Hh Hr Hp.
  unfold mux_match. cbn [mainMux list_find].
  rewrite !decide_False by (cbn; congruence). cbn [list_find fst].
  destruct (decide _) as [E|E]; [done|]. cbn [fmap option_fmap option_map].
  unfold subtree_match, mainMux. rewrite !fmap_cons, fmap_nil. cbn [fst].
  change (ends_in_slash "/healthz") with false. change (ends_in_slash "/readyz") with false.
  change (ends_in_slash "/") with true. cbn [andb]. change "/"%string with slash_s. by rewrite Hp.
Qed.

Lemma metrics_other k req :
  rq_Method req ≠ "CONNECT"%string → cleanPath (rq_Path req) = rq_Path req →
  rq_Path req ∉ ["/metrics"; "/healthz"; "/readyz"]%string →
  metrics_port k req = ret (mkResponse 404 ("404 page not found" +:+ newline)).
Proof.
  intros Hm Hc Hn. unfold metrics_port, http_serve. rewrite decide_False by (by apply clean_not_star).
  rewrite mux_Handler_clean by (done || apply metricsMux_root).
  assert (mux_match (metricsMux look_engine write_engine look_node promhttp_Handler k) (rq_Path req) = None)
    as ->; [|done].
  unfold mux_match. rewrite !not_elem_of_cons in Hn. destruct Hn as (Ha & Hb & Hd & _).
  cbn [metricsMux list_find]. by rewrite !decide_False by (cbn; congruence).
Qed.
Lemma rest_path_clean w k : plain w → plain k → cleanPath (rest_path w k) = rest_path w k.
Proof. intros Hw Hk. apply cleanPath_rooted; [done|]. by repeat (apply Forall_cons; split). Qed.

(** The gateway has no route for "/metrics". *)
Lemma gateway_no_metrics client req st :
  rq_Path req = "/metrics"%string →
  ∃ r, mux_ServeHTTP (gateway client) req st = Ret (r, st) ∧ rs_code r = 404.
Proof.
  intros Hp. apply mux_miss; rewrite ?Hp; try done. intros rt Hrt.
  unfold gateway, RegisterCardinalityServiceHandlerClient, mux_Handle in Hrt. cbn [app fst] in Hrt.
  rewrite !elem_of_cons in Hrt. destruct Hrt as [->|[->|[->|[]%not_elem_of_nil]]]; done.
Qed.

(** C26: What answers where, as main.go builds its two muxes: both ports answer /healthz with
    200 and /readyz from the Raft status (the README says that they are served on the
    metrics port only); /metrics is the scrape on the metrics port and 404 on the public
    port, as the comment in main.go promises; the REST routes are on the public port only, for every
    group that is a plain path segment; a path with empty, "." or ".." segments is
    redirected once to its cleaned form, so such groups cannot be named over HTTP. *)
Theorem listeners_surface client k req st :
  rq_Method req ≠ "CONNECT"%string →
  let path := rq_Path req in
  (path = "/healthz"%string → public (gateway client) req st = Ret (HealthzHandler, st) ∧
     metrics_port k req st = Ret (HealthzHandler, st)) ∧
  (path = "/readyz"%string → public (gateway client) req st = Ret (ReadyzHandler (ready (look_node st)), st) ∧
     metrics_port k req st = Ret (ReadyzHandler (ready (look_node st)), st)) ∧
  (path = "/metrics"%string →
     (∃ r, public (gateway client) req st = Ret (r, st) ∧ rs_code r = 404) ∧
     metrics_port k req st = scrape look_engine write_engine look_node promhttp_Handler k req st) ∧
  (∀ w r, plain w → plain r → path = rest_path w r →
     public (gateway client) req st = mux_ServeHTTP (gateway client) req st ∧
     ∃ r', metrics_port k req st = Ret (r', st) ∧ rs_code r' = 404) ∧
  (cleanPath path ≠ path → path ≠ "*"%string →
     public (gateway client) req st = Ret (mkResponse 301 (cleanPath path), st) ∧
     cleanPath (cleanPath path) = cleanPath path).
Proof.
  intros Hm path. subst path. split_and!.
  - intros Hp. unfold public, metrics_port, http_serve, mux_Handler. rewrite Hp.
    by rewrite bool_decide_eq_false_2.
  - intros Hp. unfold public, metrics_port, http_serve, mux_Handler. rewrite Hp.
    by rewrite bool_decide_eq_false_2.
  - intros Hp. split.
    + rewrite public_gateway by (done || by rewrite Hp). by apply gateway_no_metrics.
    + unfold metrics_port, http_serve, mux_Handler. rewrite Hp. by rewrite bool_decide_eq_false_2.
  - intros w r Hw Hr Hp. pose proof (rest_path_clean w r Hw Hr) as Hc. split.
    + rewrite public_gateway; rewrite ?Hp; done.
    + eexists. rewrite metrics_other; rewrite ?Hp; [by split|done|done|].
      rewrite !not_elem_of_cons. split_and!; try done. apply not_elem_of_nil.
  - intros Hc Hs. split; [|apply cleanPath_idem]. unfold public, http_serve. rewrite decide_False by done.
    rewrite mux_Handler_unclean by (done || apply mainMux_root). done.
Qed.
End Surface.

(** ** Witnesses *)

Section Witnesses.
Import Concrete StandIn RaftStandIn ConcreteServer ConcreteRpc ConcreteGateway.

(** A connection nobody answers on. *)
#[local] Instance deaf : ClientConnInterface string unit :=
  {| Invoke A B PA PB _ _ _ out := ret (Some (EExternal "unavailable"), out, no_metadata) |}.

Lemma run_cleans_up_witness :
  let tr := (run (Sk := SketchV) (St := unit) (mkWorld (λ _, None)) default_Flags default_Ports 0 0).1 in
  tr = full_trace ∧ serving_ok (take 10 tr) = true ∧ live EvGrpcServe EvGrpcGracefulStop (take 10 tr) = true.
Proof.
  destruct (run_cleans_up (Sk := SketchV) (St := unit) (mkWorld (λ _, None)) default_Flags default_Ports 0 0)
    as (_ & _ & HS & HF).
  split; [apply HF; reflexivity|]. split; [|reflexivity].
  apply HS; [reflexivity|]. eexists. symmetry. apply take_drop.
Defined.

(** A GET for "/metrics" on the public port, with the leader's own node as the state. *)
Lemma listeners_surface_witness :
  ∃ r, public (St := Engine SketchV * Node SketchV) snd (gateway (direct_client UnimplementedCardinalityServiceServer))
    (mkRequest "GET" "/metrics" EmptyString EmptyString [] (∅, None))
    (NewEngine ∅, NewNode 1 [mkPeer 1 EmptyString]) =
    Ret (r, (NewEngine ∅, NewNode 1 [mkPeer 1 EmptyString])) ∧ rs_code r = 404.
Proof.
  destruct (listeners_surface (St := Engine SketchV * Node SketchV) fst (λ e st, (e, st.2)) snd
    (λ _, mkResponse 200 EmptyString) (direct_client UnimplementedCardinalityServiceServer) 10
    (mkRequest "GET" "/metrics" EmptyString EmptyString [] (∅, None))
    (NewEngine ∅, NewNode 1 [mkPeer 1 EmptyString])) as (_ & _ & HM & _).
  - discriminate.
  - apply HM. reflexivity.
Defined.
End Witnesses.
