(* ===== verification/MainProps.v ===== *)
(** * Theorems on startup

    What the server starts with: the engine rebuilt from the store, the ring of the
    peer list and the node's own address; and when it does not start. *)

From S2P Require Import Prelude External Sketch SketchValue Float64 Hll Estimate Bitmap Algorithms.
From S2P Require Import Engine EngineProps Handler RaftLib Router Store Raft Main MessagesProps.
Local Open Scope Z_scope.

(** ** The own address *)

Lemma self_addr_in_range nid (peers : list string) a :
  0 < nid < 2 ^ 63 → peers !! Z.to_nat (nid - 1) = Some a → self_addr nid peers = Ret a.
Proof.
  intros Hn Ha. unfold self_addr, int_of_u64. apply lookup_lt_Some in Ha as Hlt.
  rewrite (decide_True (P := nid < 2 ^ 63)) by lia. rewrite decide_True by lia. by rewrite Ha.
Qed.

Lemma self_addr_out_of_range nid (peers : list string) :
  0 ≤ nid < 2 ^ 63 → (nid = 0 ∨ Z.of_nat (length peers) < nid) → self_addr nid peers = Ret EmptyString.
Proof.
  intros Hn Ho. unfold self_addr, int_of_u64. rewrite (decide_True (P := nid < 2 ^ 63)) by lia.
  rewrite decide_False; [done|]. lia.
Qed.

(** C37: A node id of 2^63 or more becomes negative as an [int], passes the guard and
    indexes far out of the peer list: startup panics. *)
Theorem self_addr_panics nid (peers : list string) :
  2 ^ 63 ≤ nid < 2 ^ 64 → Z.of_nat (length peers) < 2 ^ 62 →
  self_addr nid peers = Panic "index out of range".
Proof.
  intros Hn Hl. unfold self_addr, int_of_u64. rewrite (decide_False (P := nid < 2 ^ 63)) by lia.
  rewrite decide_True by lia. rewrite lookup_ge_None_2; [done|]. lia.
Qed.

(** The pieces of the peer list, joined with the separator, are the list. *)
Fixpoint join (sep : ascii) (ws : list string) : string :=
  match ws with
  | [] => EmptyString
  | [w] => w
  | w :: ws' => w +:+ String sep (join sep ws')
  end.

Lemma strings_Split_nonempty s sep : strings_Split s sep ≠ [].
Proof. destruct s; simpl; [done|]. case_decide; [done|]. by destruct (strings_Split s sep). Qed.

Lemma join_Split s sep : join sep (strings_Split s sep) = s.
Proof.
  induction s as [|c s IH]; simpl; [done|].
  pose proof (strings_Split_nonempty s sep) as Hne.
  case_decide as E.
  - subst. destruct (strings_Split s sep) as [|w ws]; [done|]. simpl in *. by rewrite IH.
  - destruct (strings_Split s sep) as [|w [|w' ws]]; [done| |]; rewrite <- IH; reflexivity.
Qed.

Section Startup.
Context {Sk : Type} `{AlgorithmLaws Sk, !Badger, !Proto, !EtcdRaft, !Murmur3}.

Definition parsed (s : BadgerStore) : gmap string Sk :=
  omap (λ b, match alg_Parse b with Ok sk => Some sk | Err _ => None end) (store_view s).

(** ** Claims *)

(** C27: Startup from a readable store in which every sketch parses, with a node id below
    2^63, succeeds: the engine holds exactly the stored groups, each with its parsed
    sketch, their number is what is reported as restored, the store is as it was, the
    Raft node is new, there is a ring exactly when peers were given, built from all of
    them in order (the pieces of the flag between its commas), and the own address is the peer
    at the node id, counted from one, or empty when there is none. *)
Theorem startup_restores f observed errors s :
  Open (dataDir f) observed errors = Ok s → readable s → 0 ≤ nodeID f < 2 ^ 63 →
  (∀ g b, store_view s !! g = Some b → ∃ sk : Sk, alg_Parse b = Ok sk) →
  let ps := strings_Split (peersFlag f) "," in
  ∃ sys e, startup f observed errors = Ret (Ok sys) ∧
    sys_backend sys = (e, s) ∧ engine_ok e ∧ view e ≡ parsed s ∧
    sys_restored sys = Z.of_nat (size (store_view s)) ∧
    sys_node sys = NewNode (nodeID f) [mkPeer (nodeID f) EmptyString] ∧
    join "," ps = peersFlag f ∧
    sys_ring sys = (if decide (peersFlag f = EmptyString) then None else Some (build_ring ps)) ∧
    sys_selfAddr sys =
      (if decide (peersFlag f = EmptyString ∨ nodeID f = 0) then EmptyString
       else default EmptyString (ps !! Z.to_nat (nodeID f - 1))).
Proof.
  intros Ho Hr Hn Hp ps. destruct (restore_ok s (parsed s) Hr) as (e & E & Hok & Hv).
  { intros g. unfold parsed. rewrite lookup_omap. destruct (store_view s !! g) as [b|] eqn:Eb; [|done].
    simpl. destruct (Hp g b Eb) as [sk Hsk]. rewrite Hsk. by exists sk. }
  assert (peersFlag f ≠ EmptyString → self_addr (nodeID f) ps =
    Ret (if decide (peersFlag f = EmptyString ∨ nodeID f = 0) then EmptyString
         else default EmptyString (ps !! Z.to_nat (nodeID f - 1)))) as Hself.
  { intros Hne. case_decide as Hd.
    - apply self_addr_out_of_range; [done|]. naive_solver.
    - destruct (ps !! Z.to_nat (nodeID f - 1)) as [a|] eqn:Ea; simpl.
      + apply self_addr_in_range; [|done]. lia.
      + apply lookup_ge_None_1 in Ea. apply self_addr_out_of_range; [done|]. lia. }
  unfold startup. rewrite Ho, E. fold ps.
  destruct (decide (peersFlag f ≠ EmptyString)) as [Hne|Hemp].
  - rewrite (Hself Hne). eexists _, e. split; [reflexivity|]. split_and_go; try done.
    + apply join_Split.
    + cbn [sys_ring]. by rewrite decide_False.
  - apply dec_stable in Hemp. eexists _, e. split; [reflexivity|].
    rewrite !decide_True by auto. split_and_go; try done. apply join_Split.
Qed.

(** Startup refuses a store it cannot understand: if any stored sketch does not parse
    the server does not start with part of its data but returns the error, naming a
    group. *)
Lemma startup_fails_closed f observed errors s g b err :
  Open (dataDir f) observed errors = Ok s → readable s →
  store_view s !! g = Some b → alg_Parse (Sk := Sk) b = Err err →
  ∃ g' err', startup (Sk := Sk) f observed errors = Ret (Err (ERestore (ErrParse g' err'))).
Proof.
  intros Ho Hr Hb Hp. destruct (restore_fails s g b err Hr Hb Hp) as (g' & err' & st & E).
  exists g', err'. unfold startup. by rewrite Ho, E.
Qed.

End Startup.

(** ** Witnesses *)

(** A stand-in database that holds one key when it is opened. *)
Module ConcreteDisk.
Program Definition disk (k v : list byte) : Badger := {|
  DB := @DB StandIn.badger;
  Txn := @Txn StandIn.badger;
  Item := @Item StandIn.badger;
  db_Open _ := Ok ({[ k := v ]} : gmap (list byte) (list byte));
  db_Close := @db_Close StandIn.badger;
  db_Update := @db_Update StandIn.badger;
  db_View := @db_View StandIn.badger;
  ErrKeyNotFound := @ErrKeyNotFound StandIn.badger;
  txn_Set := @txn_Set StandIn.badger;
  txn_Get := @txn_Get StandIn.badger;
  txn_Items := @txn_Items StandIn.badger;
  item_Key := @item_Key StandIn.badger;
  item_Value := @item_Value StandIn.badger;
  db_map := @db_map StandIn.badger;
  txn_map := @txn_map StandIn.badger;
|}.
Next Obligation. intros. apply (@db_View_map StandIn.badger). Qed.
Next Obligation. intros k v k' v' d err d' E. by apply (@db_Update_Set StandIn.badger) in E. Qed.
Next Obligation. intros k v k' t. apply (@txn_Get_spec StandIn.badger). Qed.
Next Obligation. intros k v p t. apply (@txn_Items_keys StandIn.badger). Qed.
Next Obligation. intros k v p t. apply (@txn_Items_order StandIn.badger). Qed.
Next Obligation. intros k v p t it Hit. by apply (@txn_Items_value StandIn.badger p). Qed.
End ConcreteDisk.

Section Witnesses.
Import Concrete StandIn RaftStandIn ConcreteDisk.

Lemma self_addr_panics_witness : self_addr (2 ^ 63) ["h1:1"; "h2:2"] = Panic "index out of range".
Proof. apply (self_addr_panics (2 ^ 63) ["h1:1"; "h2:2"]); [split; [discriminate|reflexivity]|reflexivity]. Defined.

Definition group_key : list byte := list_byte_of_string "sketch/a".
Definition good_bytes : list byte := sk_Bytes (SBitmap (bitmap_Add bitmap_New 7)).
Definition flags_ex : Flags := mkFlags "/data" 2 "h1:1,h2:2" 1000.

Lemma startup_restores_witness :
  ∃ sys e, startup (Sk := SketchV) (H := disk group_key good_bytes) flags_ex 0 0 = Ret (Ok sys) ∧
    sys_selfAddr sys = "h2:2"%string ∧ 
    sys_backend sys = (e, @mkStore (disk group_key good_bytes) {[ group_key := good_bytes ]} 0 0).
Proof.
  destruct (startup_restores (Sk := SketchV) (H0 := disk group_key good_bytes) flags_ex 0 0
    (@mkStore (disk group_key good_bytes) {[ group_key := good_bytes ]} 0 0))
    as (sys & e & E & Hb & _ & _ & _ & _ & _ & _ & Hself).
  - reflexivity.
  - intros it _. by eexists.
  - split; [discriminate|reflexivity].
  - intros g b Hb. rewrite store_view_lookup in Hb. simpl in Hb.
    destruct (decide (group_key = key g)) as [Eg|Eg].
    + rewrite <- Eg, lookup_singleton_eq in Hb. injection Hb as <-.
      exists (SBitmap (bitmap_Add bitmap_New 7)). reflexivity.
    + rewrite lookup_singleton_ne in Hb by done. discriminate Hb.
  - exists sys, e. split; [exact E|]. split; [rewrite Hself; reflexivity|exact Hb].
Defined.

End Witnesses.
