(* ===== verification/RaftRun.v ===== *)
(** * The node's event loop and its clients (internal/raft/node.go, Run, ProposeAdd, Stop)

    [step] is the interleaving of the goroutine running [Run], the goroutines it starts
    for proposals, the callers of [ProposeAdd] and of [Stop], and the Raft library,
    which delivers any entries at any time. Each case of the [select] of [Run] is one
    rule, except the [Ready] case: while the loop appends, applies and takes a snapshot it
    makes one access at a time ([step_apply]), and the others run in between. A call of
    [ProposeAdd] goes through the states of [client], one rule for each of its blocking
    operations; a goroutine that calls the library's [Propose] is blocked as long as that
    is. The theorems are invariants over all reachable states. *)

From S2P Require Import Prelude GoBinary Code External Sketch SketchValue Float64 Hll Estimate Bitmap.
From S2P Require Import Algorithms Engine EngineProps Handler HandlerProps RaftLib Router Store Raft Main RaftProps MessagesProps.
Local Open Scope Z_scope.

(** The capacity of [proposeC]. *)
Definition proposeC_cap : nat := 128.

(** A call of [ProposeAdd]: before the send on [proposeC], waiting for the answer, and
    returned. *)
Inductive client :=
  | CSend (data : list byte)
  | CWait
  | CReturned (err : option error).

Section Run.
Context {Sk : Type} `{!Sketch Sk, !Algorithm Sk, !Badger, !Proto, !EtcdRaft, !MapRange, !Gob}.

(** [busy] is what the loop still has to do for the [Ready] it is in, [goroutines] are the
    proposals taken from [proposeC] whose answer is not there yet, [results] the answers in
    the result channels. The last four fields record the history: the entries delivered as
    committed, those of them whose [Ready] is done with, the arguments of each call, and
    the bytes each accepted proposal handed to the library. *)
Record RunState := mkRun {
  run_node : Node Sk;
  run_backend : Backend Sk;
  busy : option (code (Node Sk * Backend Sk) unit);
  goroutines : list propose;
  results : gmap nat (option error);
  clients : gmap nat client;
  committed : list Entry;
  finished : list Entry;
  calls : gmap nat (string * Z);
  accepted : gmap nat (list byte);
}.

(** The loop moves: the node, the engine and the store, and what is left of a [Ready]. *)
Definition loop_step (r : RunState) (st : Node Sk * Backend Sk)
    (k : option (code (Node Sk * Backend Sk) unit)) : RunState :=
  mkRun st.1 st.2 k (goroutines r) (results r) (clients r) (committed r) (finished r) (calls r) (accepted r).

Definition run_state (r : RunState) : Node Sk * Backend Sk := (run_node r, run_backend r).

Definition set_proposeC (q : list propose) (n : Node Sk) : Node Sk :=
  mkNode (Raft.id n) (Raft.node n) (storage n) (registry n) q (stopC n) (doneC n)
    (appliedIdx n) (snapCount n).

(** [close(n.stopC)]; closing a closed channel panics. *)
Definition close_stopC (n : Node Sk) : outcome (Node Sk) :=
  if stopC n then Panic "close of closed channel"
  else Ret (mkNode (Raft.id n) (Raft.node n) (storage n) (registry n) (proposeC n) true (doneC n)
              (appliedIdx n) (snapCount n)).

(** The end of [Run]: [n.node.Stop()] and the deferred [close(n.doneC)]. *)
Definition finish_Run (n : Node Sk) : Node Sk :=
  mkNode (Raft.id n) (rn_Stop (Raft.node n)) (storage n) (registry n) (proposeC n) (stopC n) true
    (appliedIdx n) (snapCount n).

(** The first statements of [ProposeAdd]: the command and its bytes. *)
Definition start_ProposeAdd (group : string) (i : Z) : client :=
  match proto_Marshal (add_command group i) with
  | Err err => CReturned (Some err)
  | Ok data => CSend data
  end.

(** The loop is at its [select]. *)
Definition selecting (r : RunState) : Prop := busy r = None ∧ doneC (run_node r) = false.

Inductive step (r : RunState) : RunState → Prop :=
  | step_stop :
      selecting r → stopC (run_node r) = true →
      step r (loop_step r (finish_Run (run_node r), run_backend r) None)
  | step_tick :
      selecting r →
      step r (loop_step r (set_node (rn_Tick (Raft.node (run_node r))) (run_node r), run_backend r) None)
  | step_take p q :
      selecting r → proposeC (run_node r) = p :: q →
      step r (mkRun (set_proposeC q (run_node r)) (run_backend r) None (p :: goroutines r) (results r)
                (clients r) (committed r) (finished r) (calls r) (accepted r))
  | step_ready entries cs :
      selecting r →
      step r (mkRun (run_node r) (run_backend r) (Some (ready_code entries cs)) (goroutines r) (results r)
                (clients r) (committed r ++ cs) (finished r) (calls r) (accepted r))
  | step_apply write next :
      busy r = Some (Access write next) →
      step r (loop_step r (write (run_state r)) (Some (next (run_state r))))
  | step_applied u :
      busy r = Some (Done u) →
      step r (mkRun (run_node r) (run_backend r) None (goroutines r) (results r) (clients r) (committed r)
                (committed r) (calls r) (accepted r))
  | step_propose p gs err rn :
      goroutines r ≡ₚ p :: gs →
      rn_Propose (prop_data p) (Raft.node (run_node r)) = Some (err, rn) →
      step r (mkRun (set_node rn (run_node r)) (run_backend r) (busy r) gs
                (<[prop_resultC p := err]> (results r)) (clients r) (committed r) (finished r) (calls r)
                (match err with
                 | None => <[prop_resultC p := prop_data p]> (accepted r)
                 | Some _ => accepted r
                 end))
  | step_close n' :
      close_stopC (run_node r) = Ret n' →
      step r (loop_step r (n', run_backend r) (busy r))
  | step_call k group i :
      clients r !! k = None → calls r !! k = None → u64 i →
      step r (mkRun (run_node r) (run_backend r) (busy r) (goroutines r) (results r)
                (<[k := start_ProposeAdd group i]> (clients r)) (committed r) (finished r)
                (<[k := (group, i)]> (calls r)) (accepted r))
  | step_send k data :
      clients r !! k = Some (CSend data) →
      (length (proposeC (run_node r)) < proposeC_cap)%nat →
      step r (mkRun (set_proposeC (proposeC (run_node r) ++ [mkPropose data k]) (run_node r))
                (run_backend r) (busy r) (goroutines r) (results r) (<[k := CWait]> (clients r))
                (committed r) (finished r) (calls r) (accepted r))
  | step_cancel k c :
      clients r !! k = Some c → (∀ err, c ≠ CReturned err) →
      step r (mkRun (run_node r) (run_backend r) (busy r) (goroutines r) (results r)
                (<[k := CReturned (Some ECtxDone)]> (clients r)) (committed r) (finished r) (calls r)
                (accepted r))
  | step_receive k err :
      clients r !! k = Some CWait → results r !! k = Some err →
      step r (mkRun (run_node r) (run_backend r) (busy r) (goroutines r) (delete k (results r))
                (<[k := CReturned err]> (clients r)) (committed r) (finished r) (calls r) (accepted r)).

(** A node created by [NewNode], before anything happened. *)
Definition initial (nid : Z) (peers : list Peer) (b : Backend Sk) : RunState :=
  mkRun (NewNode nid peers) b None [] ∅ ∅ [] [] ∅ ∅.

End Run.
Arguments RunState Sk {_ _}.

(** ** Codes that perform engine calls *)

Section Performs.
Context {S : Type} (good : S → Prop) (effect : option call → S → S → Prop).

(** From good states, whatever happens between the accesses as long as they stay good,
    [k] makes the calls [todo], one per access at most, never panics, and ends with a
    result that satisfies [Q]. *)
Fixpoint performs {R} (k : code S R) (todo : list call) (Q : R → Prop) : Prop :=
  match k with
  | Done r => todo = [] ∧ Q r
  | Crash _ => False
  | Access write next =>
      ∀ s, good s → ∃ c todo', todo = option_list c ++ todo' ∧ good (write s) ∧ effect c s (write s) ∧
        performs (next s) todo' Q
  end.

Lemma performs_and_then {A R} (k : code S A) (f : A → code S R) todo todo' Q Q' :
  performs k todo Q → (∀ a, Q a → performs (f a) todo' Q') → performs (and_then k f) (todo ++ todo') Q'.
Proof.
  revert todo. induction k as [a|msg|write next IH]; intros todo; cbn.
  - intros [-> Ha] Hf. by apply Hf.
  - done.
  - intros Hk Hf s Hs. destruct (Hk s Hs) as (c & rest & -> & Hg & He & Hn).
    exists c, (rest ++ todo'). rewrite (assoc_L (++)). auto.
Qed.

Lemma performs_access {A} (op : prog S A) c (Q : A → Prop) :
  (∀ s, good s → ∃ a s', op s = Ret (a, s') ∧ good s' ∧ effect c s s' ∧ Q a) →
  performs (access op) (option_list c) Q.
Proof.
  intros Hop s Hs. destruct (Hop s Hs) as (a & s' & E & Hg & He & HQ). rewrite E.
  exists c, []. by rewrite app_nil_r.
Qed.

Lemma performs_reading {A} (f : S → A) (Q : A → Prop) :
  (∀ s, good s → effect None s s ∧ Q (f s)) → performs (reading f) [] Q.
Proof. intros Hf s Hs. destruct (Hf s Hs). by exists None, []. Qed.

Lemma performs_weaken {R} (k : code S R) todo (Q Q' : R → Prop) :
  performs k todo Q → (∀ r, Q r → Q' r) → performs k todo Q'.
Proof.
  intros Hk HQ. revert todo Hk. induction k as [r|msg|write next IH]; intros todo; cbn; [naive_solver|done|].
  intros Hk s Hs. destruct (Hk s Hs) as (c & rest & ? & ? & ? & ?). eauto 10.
Qed.
End Performs.

Section Calls.
Context {Sk : Type} `{AlgorithmLaws Sk, !Badger, !Proto, !EtcdRaft, !MapRange, !Gob}.
Implicit Types (e : Engine Sk) (n : Node Sk) (st : Node Sk * Backend Sk).

(** The calls of an engine, and of a node with its engine and store. *)
Definition engine_effect (c : option call) e e' : Prop := view e' = spec_calls (option_list c) (view e).

Definition node_good st : Prop := engine_ok st.2.1 ∧ registry st.1 = DefaultRegistry _.
Definition node_effect (c : option call) st st' : Prop :=
  engine_effect c st.2.1 st'.2.1 ∧ proposeC st'.1 = proposeC st.1 ∧ stopC st'.1 = stopC st.1 ∧
  doneC st'.1 = doneC st.1.

Lemma performs_call c (op : prog (Engine Sk) (option error)) :
  (∀ e, engine_ok e → implements op (spec_result (Sk := Sk) c) (spec_call c) e) →
  performs engine_ok engine_effect (access op) [c] (λ r, r = spec_result (Sk := Sk) c).
Proof.
  intros Hop. apply (performs_access _ _ op (Some c)). intros e Hok.
  destruct (Hop e Hok) as (e' & E & Hok' & Hv & _). eauto 10.
Qed.

Lemma performs_batch fuel g i N buf :
  (length buf < fuel)%nat →
  performs engine_ok engine_effect (applyBatchAdd_loop fuel (engine_Adder (Sk := Sk)) g i N buf)
    (CAdd g <$> (batch_ids fuel i N buf).1) (λ _, True).
Proof.
  revert i buf. induction fuel as [|fuel IH]; intros i buf Hf; [lia|].
  cbn [applyBatchAdd_loop batch_ids]. case_decide; [|done].
  destruct (Uvarint buf) as [id m] eqn:E. case_decide; [done|].
  destruct (Uvarint_bounds buf id m E ltac:(lia)) as (Hid & Hm & Hl).
  pose proof (IH (i + 1) (drop (Z.to_nat m) buf)) as Hrest. rewrite length_drop in Hrest.
  specialize (Hrest ltac:(lia)). destruct (batch_ids fuel _ _ _) as [ids err]. cbn [fst] in *.
  change (CAdd g <$> id :: ids) with ([CAdd g id] ++ (CAdd g <$> ids)).
  apply (performs_and_then _ _ (access (engine_Add g id)) _ _ _ (λ r, r = None)).
  - apply (performs_call (CAdd g id)). intros e Hok. by apply engine_Add_refines.
  - intros a ->. by rewrite (bind_of_outcome _ _ _ (slice_from_ok buf m ltac:(lia))).
Qed.

Lemma performs_dispatch cmd :
  performs engine_ok engine_effect
    (dispatch_code (DefaultRegistry _) (Some cmd) (Some (engine_Adder (Sk := Sk)))) (cmd_calls cmd).1 (λ _, True).
Proof.
  unfold dispatch_code. cbv beta iota. rewrite lookup_DefaultRegistry.
  unfold cmd_calls. destruct (Uvarint (cmd_Payload cmd)) as [x k] eqn:E.
  case_decide as T1; [|case_decide as T2; [|case_decide as T3]]; [| | |done].
  - unfold applyAdd. rewrite E. case_decide as Hk; [done|].
    destruct (Uvarint_bounds _ _ _ E ltac:(lia)) as (Hx & _).
    eapply performs_weaken; [apply (performs_call (CAdd (cmd_Group cmd) x))|done].
    intros e Hok. by apply engine_Add_refines.
  - unfold applyBatchAdd. rewrite E. case_decide as Hk; [done|].
    destruct (Uvarint_bounds _ _ _ E ltac:(lia)) as (_ & _ & Hk').
    rewrite (bind_of_outcome _ _ _ (slice_from_ok (cmd_Payload cmd) k ltac:(lia))).
    set (rest := drop (Z.to_nat k) (cmd_Payload cmd)).
    pose proof (performs_batch (Datatypes.S (length rest)) (cmd_Group cmd) 0 x rest ltac:(lia)) as Hb.
    by destruct (batch_ids _ _ _ _) as [ids err].
  - unfold applyMergeSketch. rewrite E. case_decide as Hk; [done|].
    destruct (Uvarint_bounds _ _ _ E ltac:(lia)) as (Hx & _ & Hk').
    rewrite (bind_of_outcome _ _ _ (slice_from_ok (cmd_Payload cmd) k ltac:(lia))).
    case_decide as Hl; [done|]. set (rest := drop (Z.to_nat k) (cmd_Payload cmd)) in *. unfold u64 in Hx.
    rewrite (bind_of_outcome _ _ _ (slice_to_ok rest x ltac:(lia))).
    rewrite (bind_of_outcome _ _ _ (slice_from_ok rest x ltac:(lia))).
    set (c := CMerge _ _ _). eapply performs_weaken; [apply (performs_call c)|done].
    intros e Hok. by apply (engine_call_refines e c).
Qed.

Lemma performs_engine {R} (k : code (Engine Sk) R) todo Q :
  performs engine_ok engine_effect k todo Q → performs node_good node_effect (at_snd (at_fst k)) todo Q.
Proof.
  revert todo. induction k as [r|msg|write next IH]; intros todo; cbn; [done|done|].
  intros Hk [n [e s]] [Hok Hreg]. destruct (Hk e Hok) as (c & rest & -> & Hg & He & Hn).
  exists c, rest. split; [done|]. split; [by split|]. split; [|by apply IH]. done.
Qed.

(** An access that leaves the sketches and the channels alone. *)
Lemma performs_quiet {A} (op : prog (Node Sk * Backend Sk) A) :
  (∀ st, node_good st → ∃ a st', op st = Ret (a, st') ∧ engine_ok st'.2.1 ∧ view st'.2.1 = view st.2.1 ∧
     registry st'.1 = registry st.1 ∧ proposeC st'.1 = proposeC st.1 ∧ stopC st'.1 = stopC st.1 ∧
     doneC st'.1 = doneC st.1) →
  performs node_good node_effect (access op) [] (λ _, True).
Proof.
  intros Hop. apply (performs_access _ _ op None). intros st Hst.
  destruct (Hop st Hst) as (a & st' & E & Hok & Hv & Hreg & Hq). exists a, st'.
  split; [done|]. split; [split; [done|]; destruct Hst; congruence|]. split; [split; done|done].
Qed.

Lemma performs_update f :
  (∀ n, registry (f n) = registry n ∧ proposeC (f n) = proposeC n ∧ stopC (f n) = stopC n ∧ doneC (f n) = doneC n) →
  performs node_good node_effect (access (update (T := Backend Sk) f)) [] (λ _, True).
Proof.
  intros Hf. apply performs_quiet. intros [n b] [Hok _]. destruct (Hf n) as (? & ? & ? & ?).
  by exists tt, (f n, b).
Qed.

Lemma performs_apply es : performs node_good node_effect (apply_code es) (log_calls es) (λ _, True).
Proof.
  induction es as [|t es IH]; [done|].
  change (log_calls (t :: es)) with (entry_calls t ++ log_calls es). cbn [apply_code].
  unfold entry_calls, entry_cmd. case_decide; [done|]. destruct (proto_Unmarshal (ent_Data t)) as [cmd|]; [|done].
  apply (performs_and_then _ _ _ _ [] _ (λ reg, reg = DefaultRegistry _)).
  { apply performs_reading. intros st [_ Hreg]. done. }
  intros reg ->. apply (performs_and_then _ _ _ _ _ _ (λ _, True)); [apply performs_engine, performs_dispatch|].
  intros [err|] _; [done|]. apply (performs_and_then _ _ _ _ [] _ (λ _, True)).
  { apply performs_quiet. intros [n [e s]] [Hok _].
    destruct (persist_step_exists cmd e s Hok) as (r & s' & _ & E). exists r, (n, (e, s')).
    unfold on_snd. cbn [fst snd] in *. by rewrite E. }
  intros _ _. apply (performs_and_then _ _ _ _ [] _ (λ _, True)); [by apply performs_update|done].
Qed.

Lemma performs_snapshot : performs node_good node_effect snapshot_code [] (λ _, True).
Proof.
  apply (performs_and_then _ _ _ _ [] [] (λ _, True)); [by apply performs_reading|]. intros [count idx] _.
  case_decide; [done|]. apply (performs_and_then _ _ _ _ [] [] (λ _, True)).
  { apply performs_quiet. intros [n [e s]] [Hok _]. eexists _, (n, (e, s)).
    unfold on_snd, on_fst. cbn [fst snd] in *. by rewrite engine_Marshal_spec. }
  intros [data|err] _; [|done]. apply (performs_and_then _ _ _ _ [] [] (λ _, True)).
  { apply performs_quiet. intros [n b] [Hok _]. by eexists _, _. }
  intros [err|] _; [done|]. apply (performs_and_then _ _ _ _ [] [] (λ _, True)); [by apply performs_update|].
  intros _ _. by apply performs_update.
Qed.

(** The [Ready] case makes exactly the calls of the entries it is given. *)
Lemma performs_ready entries cs :
  performs node_good node_effect (ready_code entries cs) (log_calls cs) (λ _, True).
Proof.
  apply (performs_and_then _ _ _ _ [] (log_calls cs) (λ _, True)); [by apply performs_update|]. intros _ _.
  rewrite <- (app_nil_r (log_calls cs)).
  apply (performs_and_then _ _ (apply_code cs) _ (log_calls cs) [] (λ _, True)); [apply performs_apply|]. intros _ _.
  apply (performs_and_then _ _ _ _ [] [] (λ _, True)); [by apply performs_update|]. intros _ _.
  apply performs_snapshot.
Qed.
End Calls.

Section Invariant.
Context {Sk : Type} `{AlgorithmLaws Sk, !Badger, !Proto, !EtcdRaft, !MapRange, !Gob}.
Implicit Types (r : RunState Sk) (n : Node Sk) (b : Backend Sk).

(** The bytes are those [ProposeAdd] made for the call [k]. *)
Definition encodes r (k : nat) (data : list byte) : Prop :=
  ∃ g i, calls r !! k = Some (g, i) ∧ u64 i ∧ proto_Marshal (add_command g i) = Ok data.

(** The engine calls of the delivered entries split into those [before] now and those
    [after]: the loop has made the first and will make the second, and it has made at
    least those of the entries it is done with. *)
Record progress_inv (m0 : gmap string Sk) r (before after : list call) : Prop := {
  pr_calls : log_calls (committed r) = before ++ after;
  pr_view : view (run_backend r).1 = spec_calls before m0;
  pr_finished : log_calls (finished r) `prefix_of` before;
  pr_busy :
    match busy r with
    | None => after = [] ∧ finished r = committed r
    | Some k => performs node_good node_effect k after (λ _, True) ∧ doneC (run_node r) = false
    end;
}.

Record run_inv (m0 : gmap string Sk) r : Prop := {
  inv_good : node_good (run_state r);
  inv_progress : ∃ before after, progress_inv m0 r before after;
  inv_queue : Forall (λ p, encodes r (prop_resultC p) (prop_data p)) (proposeC (run_node r));
  inv_goroutines : Forall (λ p, encodes r (prop_resultC p) (prop_data p)) (goroutines r);
  inv_send k data : clients r !! k = Some (CSend data) → encodes r k data;
  inv_accepted k data : accepted r !! k = Some data → encodes r k data;
  inv_results k : results r !! k = Some None → is_Some (accepted r !! k);
  inv_returned k : clients r !! k = Some (CReturned None) → is_Some (accepted r !! k);
}.

(** New calls do not change what earlier bytes encode. *)
Lemma encodes_call r k k' g i data r' :
  calls r !! k' = None → calls r' = <[k' := (g, i)]> (calls r) → encodes r k data → encodes r' k data.
Proof.
  intros Hk Hc (g0 & i0 & Hl & Hi & Hm). exists g0, i0. rewrite Hc.
  rewrite lookup_insert_ne; [done|]. intros ->. congruence.
Qed.

(** The parts of the state the progress of the loop is about. *)
Lemma progress_same m0 r r' before after :
  progress_inv m0 r before after → committed r' = committed r → finished r' = finished r →
  view (run_backend r').1 = view (run_backend r).1 → busy r' = busy r →
  doneC (run_node r') = doneC (run_node r) → progress_inv m0 r' before after.
Proof. intros [Hc Hv Hf Hb] E1 E2 E3 E4 E5. split; by rewrite ?E1, ?E2, ?E3, ?E4, ?E5. Qed.

(** The loop moves, and callers and goroutines do not. *)
Lemma loop_inv m0 r r' before after :
  run_inv m0 r → node_good (run_state r') → progress_inv m0 r' before after →
  proposeC (run_node r') = proposeC (run_node r) →
  goroutines r' = goroutines r → results r' = results r → clients r' = clients r →
  calls r' = calls r → accepted r' = accepted r → run_inv m0 r'.
Proof.
  intros [_ _ Hq Hg Hs Ha Hr Hret] Hgood Hp Eq Eg Er Ec Eca Ea.
  assert (∀ k data, encodes r k data → encodes r' k data) as Henc by (intros k data; unfold encodes; by rewrite Eca).
  split; [done|eauto|..]; rewrite ?Eq, ?Eg, ?Er, ?Ec, ?Ea; eauto using Forall_impl.
Qed.

(** One access of the loop inside a [Ready]. *)
Lemma step_apply_inv m0 r write next :
  run_inv m0 r → busy r = Some (Access write next) →
  run_inv m0 (loop_step r (write (run_state r)) (Some (next (run_state r)))) ∧
  proposeC (write (run_state r)).1 = proposeC (run_node r).
Proof.
  intros Hinv Hbusy. destruct (inv_progress _ _ Hinv) as (before & after & [Hc Hv Hf Hb]).
  rewrite Hbusy in Hb. destruct Hb as [Hperf Hd].
  destruct (Hperf (run_state r) (inv_good _ _ Hinv)) as (c & rest & -> & Hgood & (He & Hq & _ & Hd') & Hn).
  split; [|done]. apply (loop_inv m0 r _ (before ++ option_list c) rest Hinv); try done.
  split; cbn [loop_step committed run_backend finished busy run_node].
  - by rewrite Hc, (assoc_L (++)).
  - rewrite spec_calls_app, <- Hv. exact He.
  - etrans; [exact Hf|]. by apply prefix_app_r.
  - split; [done|]. rewrite Hd'. exact Hd.
Qed.

(** An answer arrives: [Propose] returned. *)
Lemma step_propose_inv m0 r p gs err rn :
  run_inv m0 r → goroutines r ≡ₚ p :: gs →
  run_inv m0 (mkRun (set_node rn (run_node r)) (run_backend r) (busy r) gs
    (<[prop_resultC p := err]> (results r)) (clients r) (committed r) (finished r) (calls r)
    (match err with
     | None => <[prop_resultC p := prop_data p]> (accepted r)
     | Some _ => accepted r
     end)).
Proof.
  intros [Hgood (before & after & Hpr) Hq Hg Hs Ha Hr Hret] Eg. rewrite Eg in Hg. apply Forall_cons in Hg as [Hp Hg].
  split; [done|exists before, after; by apply (progress_same m0 r)|done|done|done|..];
    cbn [results accepted clients calls].
  - intros k data. destruct err; [apply Ha|]. rewrite lookup_insert. case_decide; [|apply Ha].
    subst. by intros [= <-].
  - intros k. rewrite lookup_insert. case_decide as Hk.
    + subst. intros [= ->]. rewrite lookup_insert_eq. by eexists.
    + intros Hn%Hr. destruct err; [done|]. by rewrite lookup_insert_ne.
  - intros k Hn%Hret. destruct err; [done|]. rewrite lookup_insert. case_decide; [by eexists|done].
Qed.

(** [ProposeAdd] is called. *)
Lemma step_call_inv m0 r k g i :
  run_inv m0 r → calls r !! k = None → u64 i →
  run_inv m0 (mkRun (run_node r) (run_backend r) (busy r) (goroutines r) (results r)
    (<[k := start_ProposeAdd g i]> (clients r)) (committed r) (finished r) (<[k := (g, i)]> (calls r))
    (accepted r)).
Proof.
  intros [Hgood (before & after & Hpr) Hq Hg Hs Ha Hr Hret] Hc Hi. set (r' := mkRun _ _ _ _ _ _ _ _ _ _).
  assert (∀ k' data, encodes r k' data → encodes r' k' data) as Henc
    by (intros k' data; by apply encodes_call with k g i).
  split; [done|exists before, after; by apply (progress_same m0 r)|..]; cbn [clients].
  - eapply Forall_impl; [exact Hq|]. intros p. apply Henc.
  - eapply Forall_impl; [exact Hg|]. intros p. apply Henc.
  - intros k' data. unfold r'. cbn [clients]. rewrite lookup_insert.
    case_decide as Hkk; [|by intros; apply Henc, Hs].
    subst. unfold start_ProposeAdd. destruct (proto_Marshal _) as [d|] eqn:Em; [|done].
    intros [= <-]. exists g, i. cbn [calls]. by rewrite lookup_insert_eq.
  - intros k' data Hk'. by apply Henc, Ha.
  - done.
  - intros k'. unfold r'. cbn [clients]. rewrite lookup_insert. case_decide as Hkk; [|apply Hret].
    unfold start_ProposeAdd. by destruct (proto_Marshal _).
Qed.

(** A caller moves on to a state in which it has nothing to send; the proposals in the
    channel and the results not yet received may change with it. *)
Lemma client_step_inv m0 r k c q rs :
  run_inv m0 r → (∀ data, c ≠ CSend data) → (c = CReturned None → is_Some (accepted r !! k)) →
  Forall (λ p, encodes r (prop_resultC p) (prop_data p)) q →
  (∀ k', rs !! k' = Some None → results r !! k' = Some None) →
  run_inv m0 (mkRun (set_proposeC q (run_node r)) (run_backend r) (busy r) (goroutines r) rs
    (<[k := c]> (clients r)) (committed r) (finished r) (calls r) (accepted r)).
Proof.
  intros [Hgood (before & after & Hpr) Hq Hg Hs Ha Hr Hret] Hns Hc Hq' Hrs.
  split; [done|exists before, after; by apply (progress_same m0 r)|done|done|..]; cbn [clients results].
  - intros k' d. rewrite lookup_insert. case_decide; [|apply Hs]. intros [= ->]. by destruct (Hns d).
  - done.
  - intros k' Hk'. by apply Hr, Hrs.
  - intros k'. rewrite lookup_insert. case_decide; [|apply Hret]. intros [= ->]. subst. by apply Hc.
Qed.

Lemma set_proposeC_id n : set_proposeC (proposeC n) n = n.
Proof. by destruct n. Qed.

(** At its [select] the loop has made the calls of everything delivered. *)
Lemma selecting_progress m0 r before after :
  progress_inv m0 r before after → busy r = None →
  after = [] ∧ finished r = committed r ∧ before = log_calls (committed r).
Proof.
  intros [Hc _ _ Hb] E. rewrite E in Hb. destruct Hb as [-> Hf]. split_and!; [done|done|].
  by rewrite Hc, app_nil_r.
Qed.

(** Every rule preserves the invariant. *)
Lemma step_inv m0 r r' : run_inv m0 r → step r r' → run_inv m0 r'.
Proof.
  intros Hinv Hstep. pose proof Hinv as [Hgood (before & after & Hpr) Hq Hg Hs Ha Hr Hret].
  destruct Hstep as [[Hb Hd] Hst|[Hb Hd]|p q [Hb Hd] Ep|entries cs [Hb Hd]|write next Hb|u Hb|p gs err rn Eg Ep
    |n' Ec|k g i Hk Hc Hi|k data Hk Hlen|k c Hk Hc|k err Hk Hres].
  - apply (loop_inv m0 r _ before after Hinv); try done. destruct Hpr as [? ? ? Hp]. split; try done.
    by rewrite Hb in Hp.
  - apply (loop_inv m0 r _ before after Hinv); try done. by apply (progress_same m0 r).
  - rewrite Ep in Hq. apply Forall_cons in Hq as [Hp Hq].
    split; try done; [|by constructor]. exists before, after. by apply (progress_same m0 r).
  - destruct (selecting_progress _ _ _ _ Hpr Hb) as (-> & Hf & ->).
    apply (loop_inv m0 r _ (log_calls (committed r)) (log_calls cs) Hinv); try done.
    split; cbn [committed run_backend finished busy run_node]; [|apply Hpr|by rewrite Hf|].
    + unfold log_calls. by rewrite bind_app.
    + split; [apply performs_ready|done].
  - by apply step_apply_inv.
  - apply (loop_inv m0 r _ before after Hinv); try done. pose proof Hpr as [Hc Hv Hf Hp].
    rewrite Hb in Hp. destruct Hp as [[-> _] _]. split; try done; cbn [committed finished].
    by rewrite Hc, app_nil_r.
  - by apply step_propose_inv.
  - unfold close_stopC in Ec. destruct (stopC (run_node r)); [done|]. simplify_eq.
    apply (loop_inv m0 r _ before after Hinv); try done. by apply (progress_same m0 r).
  - by apply step_call_inv.
  - apply client_step_inv; try done. apply Forall_app. split; [done|].
    apply Forall_singleton. by apply (Hs k).
  - rewrite <- (set_proposeC_id (run_node r)). by apply client_step_inv.
  - rewrite <- (set_proposeC_id (run_node r)). apply client_step_inv; try done.
    + intros [= ->]. by apply Hr.
    + intros k'. rewrite lookup_delete. by case_decide.
Qed.

Lemma initial_inv nid peers b : engine_ok b.1 → run_inv (view b.1) (initial nid peers b).
Proof.
  intros Hok. split; try done; [by exists [], []|..];
    cbn [initial proposeC run_node NewNode goroutines clients accepted results];
    try constructor; intros k; by rewrite ?lookup_empty.
Qed.

Lemma reach_inv m0 r r' : run_inv m0 r → rtc step r r' → run_inv m0 r'.
Proof. intros Hr Hs. induction Hs; [done|]. eauto using step_inv. Qed.

(** A call that returned nil was accepted, and its entry adds its id. *)
Lemma run_returned m0 r : run_inv m0 r → ∀ k, clients r !! k = Some (CReturned None) →
  ∃ g i data, calls r !! k = Some (g, i) ∧ accepted r !! k = Some data ∧
    ∀ t, ent_Type t = EntryNormal → ent_Data t = data → log_calls [t] = [CAdd g i].
Proof.
  intros [_ _ _ _ _ Ha _ Hret] k Hk. destruct (Hret k Hk) as [data Hd].
  destruct (Ha k data Hd) as (g & i & Hc & Hi & Hm). exists g, i, data.
  split_and!; [done|done|]. intros t Ht Hdata.
  pose proof (proto_add_cmd g i data t Hm Ht Hdata) as Hcmd.
  pose proof (cmd_calls_add g i Hi) as Hcalls. unfold encode_add in Hcalls.
  unfold log_calls, entry_calls. simpl. rewrite Hcmd. unfold add_command. by rewrite Hcalls.
Qed.

(** The engine is at a prefix of the calls of the log. *)
Lemma run_prefix m0 r :
  run_inv m0 r → ∃ done_, view (run_backend r).1 = spec_calls done_ m0 ∧
    log_calls (finished r) `prefix_of` done_ ∧ done_ `prefix_of` log_calls (committed r).
Proof.
  intros Hinv. destruct (inv_progress _ _ Hinv) as (before & after & Hpr).
  exists before. split; [apply Hpr|]. split; [apply Hpr|]. rewrite (pr_calls _ _ _ _ Hpr). by apply prefix_app_r.
Qed.

(** ** Claims *)


Lemma stopped_step r r' :
  doneC (run_node r) = true → busy r = None → step r r' →
  doneC (run_node r') = true ∧ busy r' = None ∧ run_backend r' = run_backend r ∧
  (∀ p, p ∈ proposeC (run_node r) → p ∈ proposeC (run_node r')) ∧
  (∀ p, p ∈ goroutines r' → p ∈ goroutines r) ∧
  (∀ k err, results r' !! k = Some err →
     results r !! k = Some err ∨ ∃ p, p ∈ goroutines r ∧ prop_resultC p = k).
Proof.
  intros Hd Hb Hstep.
  destruct Hstep as [[_ Hd'] _|[_ Hd']|p q [_ Hd'] _|entries cs [_ Hd']|write next Hb'|u Hb'|p gs err rn Eg Ep
    |n' Ec|k g i Hk Hc Hi|k data Hk Hlen|k c Hk Hc|k err Hk Hres]; try congruence;
    cbn [loop_step run_node run_backend busy goroutines results set_proposeC proposeC doneC fst snd].
  - split_and!; try done.
    + intros p' Hp'. rewrite Eg. by right.
    + intros k err'. rewrite lookup_insert. case_decide; [|by left].
      intros _. right. exists p. split; [rewrite Eg; left|done].
  - unfold close_stopC in Ec. destruct (stopC (run_node r)); [done|]. simplify_eq/=.
    split_and!; auto.
  - split_and!; auto.
  - split_and!; auto. intros p Hp. apply elem_of_app. by left.
  - split_and!; auto.
  - split_and!; auto. intros k' err'. rewrite lookup_delete. case_decide; [done|by left].
Qed.

(** C36: Once Run has returned nothing reaches the state machine: in every state a node can
    reach afterwards the engine and the store are as they were, and a proposal that was
    waiting in the channel is never answered, so its caller returns only when its context
    is done. *)
Theorem stopped_node_is_frozen nid peers b r r' :
  engine_ok b.1 → rtc step (initial nid peers b) r → doneC (run_node r) = true → rtc step r r' →
  run_backend r' = run_backend r ∧
  ∀ p, p ∈ proposeC (run_node r) → results r !! prop_resultC p = None →
    (∀ q, q ∈ goroutines r → prop_resultC q ≠ prop_resultC p) → results r' !! prop_resultC p = None.
Proof.
  intros Hok Hreach0 Hd.
  assert (busy r = None) as Hb.
  { pose proof (reach_inv _ _ _ (initial_inv nid peers b Hok) Hreach0) as Hinv.
    destruct (inv_progress _ _ Hinv) as (before & after & Hpr). pose proof (pr_busy _ _ _ _ Hpr) as Hp.
    destruct (busy r); [destruct Hp; congruence|done]. }
  clear Hreach0. intros Hreach. induction Hreach as [r|r r1 r' Hstep Hreach IH]; [done|].
  destruct (stopped_step r r1 Hd Hb Hstep) as (Hd1 & Hb1 & Hs1 & Hq1 & Hg1 & Hr1).
  destruct (IH Hd1 Hb1) as [Hs Hn]. split; [congruence|]. intros p Hp Hres Hg.
  apply Hn; [by apply Hq1| |by intros q Hq; apply Hg, Hg1].
  destruct (results r1 !! prop_resultC p) as [err|] eqn:E; [|done].
  destruct (Hr1 _ _ E) as [?|(q & Hq & Eq)]; [congruence|]. by apply Hg in Hq.
Qed.

End Invariant.

(** ** Witnesses *)

Section Witnesses.
Import Concrete StandIn RaftStandIn.

Definition back_ex : Backend SketchV := (NewEngine ∅, store_ex).
Definition r0 : RunState SketchV := initial 1 [mkPeer 1 EmptyString] back_ex.

(** A call, from its start to its return, in six steps: it is made, sent and taken, and the
    goroutine is blocked until a tick has brought a leader; then it is proposed and the
    answer received. *)
Definition call_data : list byte := add_data "a" 7.
Definition a1 : RunState SketchV :=
  mkRun (run_node r0) back_ex None [] ∅ (<[0%nat := start_ProposeAdd "a" 7]> ∅) [] []
    (<[0%nat := ("a"%string, 7)]> ∅) ∅.
Definition a2 : RunState SketchV :=
  mkRun (set_proposeC [mkPropose call_data 0] (run_node r0)) back_ex None [] ∅ (<[0%nat := CWait]> (clients a1)) []
    [] (calls a1) ∅.
Definition a3 : RunState SketchV :=
  mkRun (set_proposeC [] (run_node a2)) back_ex None [mkPropose call_data 0] ∅ (clients a2) [] [] (calls a1) ∅.
Definition a4 : RunState SketchV :=
  loop_step a3 (set_node (rn_Tick (Raft.node (run_node a3))) (run_node a3), run_backend a3) None.
Definition a5 : RunState SketchV :=
  mkRun (set_node (true, [call_data]) (run_node a4)) back_ex None [] (<[0%nat := None]> ∅) (clients a2) [] []
    (calls a1) (<[0%nat := call_data]> ∅).
Definition a6 : RunState SketchV :=
  mkRun (run_node a5) back_ex None [] (delete 0%nat (results a5)) (<[0%nat := CReturned None]> (clients a2)) [] []
    (calls a1) (accepted a5).
Definition one_call (i : nat) : RunState SketchV :=
  match i with 0 => r0 | 1 => a1 | 2 => a2 | 3 => a3 | 4 => a4 | 5 => a5 | _ => a6 end%nat.

Lemma one_call_step i : (i < 6)%nat → step (one_call i) (one_call (S i)).
Proof.
  intros Hi. destruct i as [|[|[|[|[|[|i]]]]]]; [..|lia]; cbn [one_call].
  - apply (step_call r0 0 "a" 7); [done|done|split; [discriminate|reflexivity]].
  - apply (step_send a1 0); [reflexivity|vm_compute; lia].
  - by apply (step_take a2).
  - by apply (step_tick a3).
  - apply (step_propose a4 (mkPropose call_data 0) []); reflexivity.
  - by apply (step_receive a5 0).
Qed.

Lemma one_call_reach i : (i ≤ 6)%nat → rtc step r0 (one_call i).
Proof.
  induction i as [|i IH]; intros Hi; [apply rtc_refl|].
  eapply rtc_r; [apply IH; lia|apply one_call_step; lia].
Qed.


(** A call is sent, the node is stopped before the loop takes it, and another call comes. *)
Definition closed_ex : RunState SketchV :=
  loop_step a2 (mkNode 1 (Raft.node (run_node r0)) (storage (run_node r0)) (registry (run_node r0))
    [mkPropose call_data 0] true false 0 0, back_ex) None.
Definition stopped_ex : RunState SketchV :=
  loop_step closed_ex (finish_Run (run_node closed_ex), run_backend closed_ex) None.
Definition later_ex : RunState SketchV :=
  mkRun (run_node stopped_ex) back_ex None [] ∅ (<[9%nat := start_ProposeAdd "a" 8]> (clients stopped_ex)) [] []
    (<[9%nat := ("a"%string, 8)]> (calls stopped_ex)) ∅.

Lemma stopped_ex_reached : rtc step r0 stopped_ex.
Proof.
  apply (rtc_trans _ (one_call 2)); [apply (one_call_reach 2); lia|].
  eapply (rtc_l _ _ closed_ex); [refine (step_close a2 (run_node closed_ex) _); reflexivity|].
  apply rtc_once, (step_stop closed_ex); [by split|reflexivity].
Qed.

Lemma stopped_node_is_frozen_witness :
  rtc step stopped_ex later_ex ∧ run_backend later_ex = run_backend stopped_ex ∧
  results later_ex !! 0%nat = None.
Proof.
  assert (rtc step stopped_ex later_ex) as Hr.
  { apply rtc_once, (step_call stopped_ex 9 "a" 8); [done|done|split; [discriminate|reflexivity]]. }
  split; [exact Hr|].
  destruct (stopped_node_is_frozen 1 [mkPeer 1 EmptyString] back_ex stopped_ex later_ex) as [Hb Hp].
  - apply empty_engine_ok.
  - exact stopped_ex_reached.
  - reflexivity.
  - exact Hr.
  - split; [exact Hb|]. apply (Hp (mkPropose call_data 0)).
    + left.
    + reflexivity.
    + intros q []%not_elem_of_nil.
Defined.
End Witnesses.
