(* ===== verification/RaftLive.v ===== *)
(** * Progress of proposals (internal/raft/node.go, Run and ProposeAdd)

    An execution is an infinite sequence of states in which each state follows from the
    one before by a rule of [RaftRun.step] or is the same. [fair] is what the Go scheduler
    owes the program: the loop moves on, its [select] takes a proposal if it finds one again
    and again, a sender gets its turn when there is room again and again, a goroutine
    whose [Propose] can return again and again returns, and a caller whose answer is there
    receives it. Whether [Propose] can return is up to the Raft library, which blocks while
    there is no leader: [leader_again] is the assumption that it does not do so for good,
    and [blocked_without_leader] shows what happens if it does. *)

From S2P Require Import Prelude GoBinary Code External Sketch SketchValue Float64 Hll Estimate Bitmap.
From S2P Require Import Algorithms Engine EngineProps Handler HandlerProps RaftLib Router Store Raft Main RaftProps.
From S2P Require Import RaftRun MessagesProps.
Local Open Scope Z_scope.

Section Live.
Context {Sk : Type} `{AlgorithmLaws Sk, !Badger, !Proto, !EtcdRaft, !MapRange, !Gob}.
Implicit Types (r : RunState Sk) (k : nat) (p : propose) (tr : nat → RunState Sk).

(** ** A proposal is somewhere *)

Definition for_call k p : Prop := prop_resultC p = k.
#[local] Instance for_call_dec k p : Decision (for_call k p).
Proof. unfold for_call. apply _. Defined.

Definition queued r k : Prop := Exists (for_call k) (proposeC (run_node r)).
Definition in_flight r k : Prop := Exists (for_call k) (goroutines r).
Definition answered_call r k : Prop := is_Some (results r !! k).

(** A caller that waits has a proposal in the channel, in a goroutine, or an answer; and
    the channel is not over its capacity. *)
Record track_inv r : Prop := {
  track_wait k : clients r !! k = Some CWait → queued r k ∨ in_flight r k ∨ answered_call r k;
  track_cap : (length (proposeC (run_node r)) ≤ proposeC_cap)%nat;
}.

Lemma track_initial nid peers b : track_inv (initial nid peers b).
Proof. split; [done|]. cbn. unfold proposeC_cap. lia. Qed.

(** Removing the proposal of one call from the goroutines keeps those of others. *)
Lemma in_flight_other r k p gs :
  goroutines r ≡ₚ p :: gs → in_flight r k → prop_resultC p = k ∨ Exists (for_call k) gs.
Proof. intros E Hf. unfold in_flight in Hf. rewrite E in Hf. by apply Exists_cons in Hf. Qed.

Lemma track_step m0 r r' : run_inv m0 r → track_inv r → step r r' → track_inv r'.
Proof.
  intros Hinv [Hw Hc] Hstep.
  destruct Hstep as [Hd Hst|Hd|p q Hd Ep|entries cs Hd|write next Hb|u Hb|p gs err rn Eg Ep|n' Ec
    |k g i Hk Hca Hi|k data Hk Hlen|k c Hk Hcr|k err Hk Hres]; split; try done;
    unfold queued, in_flight, answered_call in *; cbn [run_node proposeC goroutines results clients set_proposeC].
  - intros k Hk. destruct (Hw k Hk) as [Hq|[Hf|Ha]]; [|right; left; by right|by right; right].
    rewrite Ep in Hq. apply Exists_cons in Hq as [Hq|Hq]; [right; left; by left|by left].
  - rewrite Ep in Hc. simpl in Hc. lia.
  - cbn [loop_step run_node]. by rewrite (proj2 (step_apply_inv m0 r write next Hinv Hb)).
  - cbn [loop_step run_node]. by rewrite (proj2 (step_apply_inv m0 r write next Hinv Hb)).
  - intros k Hk. rewrite lookup_insert. case_decide; [right; right; by eexists|].
    destruct (Hw k Hk) as [Hq|[Hf|Ha]]; [by left| |by right; right].
    destruct (in_flight_other _ _ _ _ Eg Hf); [done|by right; left].
  - unfold close_stopC in Ec. destruct (stopC (run_node r)); [done|]. by simplify_eq.
  - unfold close_stopC in Ec. destruct (stopC (run_node r)); [done|]. by simplify_eq.
  - intros k'. rewrite lookup_insert. case_decide; [|apply Hw].
    unfold start_ProposeAdd. by destruct (proto_Marshal _).
  - intros k'. rewrite lookup_insert. case_decide as Hkk.
    + intros _. left. apply Exists_app. right. left. by rewrite <- Hkk.
    + intros Hk'. destruct (Hw k' Hk') as [Hq|?]; [|by right]. left. apply Exists_app. by left.
  - rewrite length_app. simpl. lia.
  - intros k'. rewrite lookup_insert. case_decide; [done|apply Hw].
  - intros k'. rewrite lookup_insert. case_decide as Hkk; [done|]. intros Hk'.
    rewrite lookup_delete_ne by done. by apply Hw.
Qed.
(** ** A call only moves forward *)

Definition returned r k : Prop := ∃ err, clients r !! k = Some (CReturned err).

Lemma client_step r r' k c :
  step r r' → clients r !! k = Some c →
  clients r' !! k = Some c ∨ (c ≠ CWait ∧ clients r' !! k = Some CWait ∧ ∃ data, c = CSend data) ∨ returned r' k.
Proof.
  intros Hstep Hc. unfold returned.
  destruct Hstep as [| | | | | | |n' Ec|k' g i Hk Hca Hi|k' data Hk Hlen|k' c' Hk Hcr|k' err Hk Hres];
    cbn [clients]; try by left.
  all: rewrite !lookup_insert; case_decide as Hkk; [subst k'|by left].
  - congruence.
  - right. left. assert (c = CSend data) as -> by congruence. eauto.
  - right. right. eauto.
  - right. right. eauto.
Qed.

Lemma wait_step r r' k :
  step r r' → clients r !! k = Some CWait → clients r' !! k = Some CWait ∨ returned r' k.
Proof.
  intros Hstep Hc. destruct (client_step r r' k CWait Hstep Hc) as [?|[[Hn _]|?]]; [by left|done|by right].
Qed.

Lemma returned_step r r' k : step r r' → returned r k → returned r' k.
Proof.
  intros Hstep [err He]. destruct (client_step r r' k _ Hstep He) as [?|[(_ & _ & d & [=])|?]]; [by exists err|done].
Qed.

(** The answer waits for its caller. *)
Lemma answer_stays r r' k :
  step r r' → clients r' !! k = Some CWait → answered_call r k → answered_call r' k.
Proof.
  intros Hstep Hc Ha. unfold answered_call in *. destruct Hstep; cbn [results loop_step clients] in *; try done.
  - rewrite lookup_insert. case_decide; [by eexists|done].
  - rewrite lookup_insert in Hc. case_decide; [done|]. by rewrite lookup_delete_ne.
Qed.

(** The tail of the channel from position [m] on has no proposal of the call. *)
Definition clear_from r k (m : nat) : Prop := Forall (λ p, ¬ for_call k p) (drop m (proposeC (run_node r))).

Lemma clear_zero r k : clear_from r k 0 ↔ ¬ queued r k.
Proof. unfold clear_from, queued. rewrite drop_0. apply Forall_Exists_neg. Qed.

(** While the call waits, other proposals only come in behind. *)
Lemma clear_step m0 r r' k m :
  run_inv m0 r → step r r' → clients r !! k = Some CWait → clear_from r k m → clear_from r' k m.
Proof.
  intros Hinv Hstep Hk Hcl. unfold clear_from in *.
  destruct Hstep as [Hd Hst|Hd|p q Hd Ep|entries cs Hd|write next Hb|u Hb|p gs err rn Eg Ep|n' Ec
    |k' g i Hk' Hca Hi|k' data Hk' Hlen|k' c Hk' Hcr|k' err Hk' Hres];
    cbn [run_node proposeC set_proposeC]; try done.
  - rewrite Ep in Hcl. destruct m as [|m]; [by apply Forall_cons in Hcl as [_ ?]|].
    cbn [drop] in Hcl. replace (S m) with (m + 1)%nat by lia. rewrite <- drop_drop. by apply Forall_drop.
  - cbn [loop_step run_node]. by rewrite (proj2 (step_apply_inv m0 r write next Hinv Hb)).
  - unfold close_stopC in Ec. destruct (stopC (run_node r)); [done|]. by simplify_eq.
  - rewrite skipn_app. apply Forall_app. split; [done|]. apply Forall_drop, Forall_singleton.
    unfold for_call. simpl. intros ->. congruence.
Qed.
(** The goroutines of the call; once its proposal has left the channel they only get fewer. *)
Definition flight r k : list propose := filter (for_call k) (goroutines r).

Lemma flight_nil r k : flight r k = [] → ¬ in_flight r k.
Proof.
  unfold flight, in_flight. intros Hf. apply Forall_Exists_neg, Forall_forall. intros p Hp Hk.
  assert (p ∈ filter (for_call k) (goroutines r)) as Hin by (by apply list_elem_of_filter).
  rewrite Hf in Hin. by apply not_elem_of_nil in Hin.
Qed.

Lemma flight_step r r' k : step r r' → ¬ queued r k → flight r' k ⊆+ flight r k.
Proof.
  intros Hstep Hq. unfold flight.
  destruct Hstep as [Hd Hst|Hd|p q Hd Ep|entries cs Hd|write next Hb|u Hb|p gs err rn Eg Ep|n' Ec
    |k' g i Hk' Hca Hi|k' data Hk' Hlen|k' c Hk' Hcr|k' err Hk' Hres]; cbn [goroutines]; try done.
  - rewrite filter_cons_False; [done|]. intros Hp. apply Hq. unfold queued. rewrite Ep. by left.
  - rewrite Eg, filter_cons. case_decide; [by apply submseteq_cons|done].
Qed.

(** ** Executions *)

Record execution m0 tr : Prop := {
  exec_inv : run_inv m0 (tr 0%nat);
  exec_track : track_inv (tr 0%nat);
  exec_step i : step (tr i) (tr (S i)) ∨ tr (S i) = tr i;
}.

Definition queue tr (i : nat) : list propose := proposeC (run_node (tr i)).

(** What is enabled again and again happens again and again: from every moment on it
    happens, or from some moment on it is never enabled. *)
Definition strongly_fair (enabled happens : nat → Prop) : Prop :=
  ∀ i, ∃ j, (i ≤ j)%nat ∧ (happens j ∨ ∀ j', (j ≤ j')%nat → ¬ enabled j').

(** The loop makes its next access of a [Ready], or is done with it. *)
Definition loop_moves r r' : Prop :=
  match busy r with
  | Some (Access write next) => busy r' = Some (next (run_state r))
  | Some (Done _) => busy r' = None
  | _ => False
  end.

(** The library would let a proposal through. *)
Definition can_propose r (data : list byte) : Prop := is_Some (rn_Propose data (Raft.node (run_node r))).

Record fair tr : Prop := {
  fair_loop : strongly_fair (λ j, busy (tr j) ≠ None) (λ j, loop_moves (tr j) (tr (S j)));
  fair_take : strongly_fair (λ j, selecting (tr j) ∧ queue tr j ≠ [])
    (λ j, ∃ p, queue tr j = p :: queue tr (S j));
  fair_send k : strongly_fair
    (λ j, (∃ data, clients (tr j) !! k = Some (CSend data)) ∧ (length (queue tr j) < proposeC_cap)%nat)
    (λ j, ∀ data, clients (tr j) !! k ≠ Some (CSend data));
  fair_propose p : strongly_fair (λ j, p ∈ goroutines (tr j) ∧ can_propose (tr j) (prop_data p))
    (λ j, p ∉ goroutines (tr j));
  fair_receive k : strongly_fair (λ j, clients (tr j) !! k = Some CWait ∧ answered_call (tr j) k)
    (λ j, clients (tr j) !! k ≠ Some CWait);
}.

(** Again and again the library has a leader to hand a proposal to. *)
Definition leader_again tr : Prop := ∀ data i, ∃ j, (i ≤ j)%nat ∧ can_propose (tr j) data.

(** Without one a goroutine stays in its call of [Propose]. *)
Lemma blocked_without_leader r r' p :
  step r r' → p ∈ goroutines r → ¬ can_propose r (prop_data p) → p ∈ goroutines r'.
Proof.
  intros Hstep Hp Hn. destruct Hstep; cbn [goroutines loop_step]; try done; [by right|].
  rename select (_ ≡ₚ _) into Eg. rewrite Eg in Hp. apply elem_of_cons in Hp as [->|?]; [|done].
  destruct Hn. by eexists.
Qed.

(** Inside a [Ready] only the loop decides what is left to do. *)
Lemma busy_step r r' todo :
  busy r = Some todo → step r r' → busy r' = Some todo ∨ loop_moves r r'.
Proof.
  intros Hb Hstep. unfold loop_moves. rewrite Hb. destruct Hstep; unfold selecting in *;
    cbn [busy loop_step]; try (by left); try naive_solver; simplify_eq; by right.
Qed.

Section Execution.
Context (m0 : gmap string Sk) (tr : nat → RunState Sk) (Hex : execution m0 tr) (Hfair : fair tr).
Context (Hrun : ∀ i, doneC (run_node (tr i)) = false) (Hleader : leader_again tr).

Lemma exec_run_inv i : run_inv m0 (tr i).
Proof using Hex.
  induction i as [|i IH]; [apply Hex|]. destruct (exec_step _ _ Hex i) as [Hs| ->]; [|done].
  by apply (step_inv m0 (tr i)).
Qed.

Lemma exec_track_inv i : track_inv (tr i).
Proof using Hex.
  induction i as [|i IH]; [apply Hex|]. destruct (exec_step _ _ Hex i) as [Hs| ->]; [|done].
  apply (track_step m0 (tr i)); auto using exec_run_inv.
Qed.

(** What every rule keeps until the call returns holds until it returns. *)
Lemma until_returned (P : RunState Sk → Prop) k i j :
  (∀ r r', run_inv m0 r → step r r' → P r → P r' ∨ returned r' k) →
  (i ≤ j)%nat → P (tr i) → P (tr j) ∨ returned (tr j) k.
Proof using Hex.
  intros HP Hij Hi. induction Hij as [|j Hij IH]; [by left|].
  destruct (exec_step _ _ Hex j) as [Hs| ->]; [|done]. destruct IH as [IH|IH].
  - by apply (HP (tr j)); auto using exec_run_inv.
  - right. by eapply returned_step.
Qed.

Definition waits k m r : Prop := clients r !! k = Some CWait ∧ clear_from r k m.

Lemma waits_stays k m i j :
  (i ≤ j)%nat → waits k m (tr i) → waits k m (tr j) ∨ returned (tr j) k.
Proof using Hex.
  apply until_returned. intros r r' Hinv Hs [Hk Hc].
  destruct (wait_step r r' k Hs Hk) as [Hk'|?]; [|by right]. left. split; [done|].
  by apply (clear_step m0 r).
Qed.

Lemma loop_moves_next i todo :
  busy (tr i) = Some todo → ∃ j, (i ≤ j)%nat ∧ busy (tr j) = Some todo ∧ loop_moves (tr j) (tr (S j)).
Proof using Hex Hfair.
  intros Hb. destruct (fair_loop _ Hfair i) as (j & Hij & Hm).
  assert (∀ d, busy (tr (i + d)) = Some todo ∨
    ∃ j, (i ≤ j)%nat ∧ busy (tr j) = Some todo ∧ loop_moves (tr j) (tr (S j))) as Hstay.
  { induction d as [|d IH]; [left; by rewrite Nat.add_0_r|]. destruct IH as [IH|?]; [|by right].
    rewrite Nat.add_succ_r. destruct (exec_step _ _ Hex (i + d)) as [Hs| ->]; [|by left].
    destruct (busy_step _ _ todo IH Hs); [by left|right]. exists (i + d)%nat. split; [lia|done]. }
  destruct (Hstay (j - i)%nat) as [Hj|?]; [|done]. replace (i + (j - i))%nat with j in Hj by lia.
  destruct Hm as [Hm|Hnever]; [by exists j|]. destruct (Hnever j (le_n _)). by rewrite Hj.
Qed.

(** The loop comes back to its [select]. *)
Lemma loop_returns i : ∃ j, (i ≤ j)%nat ∧ selecting (tr j).
Proof using Hex Hfair Hrun.
  destruct (busy (tr i)) as [k|] eqn:Hb; [|exists i; by repeat split].
  revert i Hb. induction k as [u|msg|write next IH]; intros i Hb.
  all: destruct (loop_moves_next i _ Hb) as (j & Hij & Hbj & Hm); unfold loop_moves in Hm; rewrite Hbj in Hm.
  - exists (S j). split; [lia|by split].
  - done.
  - destruct (IH _ (S j) Hm) as (j' & Hj' & ?). exists j'. split; [lia|done].
Qed.

(** A proposal is taken from the channel, or the channel is empty. *)
Lemma channel_drains i : ∃ j, (i ≤ j)%nat ∧ (queue tr j = [] ∨ ∃ p, queue tr j = p :: queue tr (S j)).
Proof using Hex Hfair Hrun.
  destruct (fair_take _ Hfair i) as (j & Hij & [Ht|Hnever]); [eauto|].
  destruct (loop_returns j) as (j' & Hj' & Hsel). exists j'. split; [lia|]. left.
  destruct (queue tr j') as [|p q] eqn:E; [done|]. destruct (Hnever j' Hj'). by rewrite E.
Qed.

(** The channel drains: the proposal is taken. *)
Lemma leaves_queue k m i :
  waits k m (tr i) → ∃ j, (i ≤ j)%nat ∧ (returned (tr j) k ∨ waits k 0 (tr j)).
Proof using Hex Hfair Hrun Hleader.
  revert i. induction m as [|m IH]; intros i Hw; [exists i; auto|].
  destruct (channel_drains i) as (j & Hij & Ht).
  destruct (waits_stays k (S m) i j Hij Hw) as [[Hk Hc]|?]; [|exists j; auto].
  destruct Ht as [Hq|[p Hq]].
  - exists j. split; [done|]. right. split; [done|]. unfold clear_from. unfold queue in Hq. by rewrite Hq.
  - assert (clear_from (tr (S j)) k m) as Hc'.
    { unfold clear_from in Hc |- *. unfold queue in Hq. by rewrite Hq in Hc. }
    assert (clients (tr (S j)) !! k = Some CWait ∨ returned (tr (S j)) k) as [Hk'|?].
    { destruct (exec_step _ _ Hex j) as [Hs| ->]; [by apply (wait_step (tr j))|by left]. }
    + destruct (IH (S j)) as (j' & Hj' & Hr); [by split|]. exists j'. split; [lia|done].
    + exists (S j). split; [lia|by left].
Qed.

(** A goroutine gets through to the library. *)
Lemma proposal_leaves p i : ∃ j, (i ≤ j)%nat ∧ p ∉ goroutines (tr j).
Proof using Hfair Hleader.
  destruct (fair_propose _ Hfair p i) as (j & Hij & [Hgone|Hnever]); [eauto|].
  destruct (Hleader (prop_data p) j) as (j' & Hj' & Hl). exists j'. split; [lia|].
  intros Hp. by destruct (Hnever j' Hj').
Qed.

(** The goroutine answers. *)
Lemma leaves_flight k n i :
  waits k 0 (tr i) → (length (flight (tr i) k) ≤ n)%nat →
  ∃ j, (i ≤ j)%nat ∧ (returned (tr j) k ∨ (waits k 0 (tr j) ∧ ¬ in_flight (tr j) k)).
Proof using Hex Hfair Hrun Hleader.
  revert i. induction n as [|n IH]; intros i Hw Hn.
  { exists i. split; [done|]. right. split; [done|]. apply flight_nil, nil_length_inv. lia. }
  destruct (flight (tr i) k) as [|p fl] eqn:Ef; [exists i; auto using flight_nil|].
  assert (p ∈ flight (tr i) k) as Hp by (rewrite Ef; left).
  destruct (proposal_leaves p i) as (j & Hij & Hgone).
  destruct (until_returned (λ r, waits k 0 r ∧ flight r k ⊆+ flight (tr i) k) k i j) as [[Hw' Hsub]|?];
    [|done|done| |exists j; auto].
  - intros r r' Hinv Hs [[Hk Hc] Hfl]. destruct (wait_step r r' k Hs Hk) as [Hk'|?]; [|by right]. left.
    split; [split; [done|by apply (clear_step m0 r)]|].
    etrans; [apply flight_step; [exact Hs|by apply clear_zero]|done].
  - assert (¬ (length (flight (tr i) k) ≤ length (flight (tr j) k))%nat) as Hlt.
    { intros Hle. apply (submseteq_length_Permutation _ _ Hsub) in Hle. rewrite <- Hle in Hp.
      by apply list_elem_of_filter in Hp as [_ ?]. }
    destruct (IH j Hw') as (j' & Hj' & Hr); [rewrite Ef in Hlt; simpl in *; lia|].
    exists j'. split; [lia|done].
Qed.

Lemma answer_received k i :
  clients (tr i) !! k = Some CWait → answered_call (tr i) k →
  ∃ j, (i ≤ j)%nat ∧ clients (tr j) !! k ≠ Some CWait.
Proof using Hex Hfair Hrun Hleader.
  intros Hk Ha. destruct (fair_receive _ Hfair k i) as (j & Hij & [Hn|Hnever]); [eauto|].
  exists j. split; [done|]. intros Hj. destruct (Hnever j (le_n _)). split; [done|].
  destruct (until_returned (λ r, clients r !! k = Some CWait ∧ answered_call r k) k i j) as [[_ ?]|[err ?]];
    [|done|done|done|congruence].
  intros r r' _ Hs [Hc Hr]. destruct (wait_step r r' k Hs Hc) as [Hc'|?]; [|by right].
  left. split; [done|]. by apply (answer_stays r).
Qed.

Lemma waiting_returns k i : clients (tr i) !! k = Some CWait → ∃ j, (i ≤ j)%nat ∧ returned (tr j) k.
Proof using Hex Hfair Hrun Hleader.
  intros Hk. destruct (leaves_queue k (length (queue tr i)) i) as (j1 & Hj1 & [?|Hw1]); [|eauto|].
  { split; [done|]. unfold clear_from. by rewrite drop_ge. }
  destruct (leaves_flight k _ j1 Hw1 (le_n _)) as (j2 & Hj2 & [?|[Hw2 Hnf]]); [exists j2; split; [lia|done]|].
  destruct Hw2 as [Hk2 Hc2]. destruct (track_wait _ (exec_track_inv j2) k Hk2) as [Hq|[Hf|Ha]];
    [by apply clear_zero in Hc2|done|].
  destruct (answer_received k j2 Hk2 Ha) as (j3 & Hj3 & Hn).
  destruct (waits_stays k 0 j2 j3 Hj3 (conj Hk2 Hc2)) as [[Hk3 _]|?]; [done|].
  exists j3. split; [lia|done].
Qed.

(** There is room in the channel again and again. *)
Lemma room_again i : ∃ j, (i ≤ j)%nat ∧ (length (queue tr j) < proposeC_cap)%nat.
Proof using Hex Hfair Hrun Hleader.
  destruct (channel_drains i) as (j & Hij & [Hq|[p Hq]]).
  - exists j. rewrite Hq. split; [done|]. unfold proposeC_cap. simpl. lia.
  - exists (S j). split; [lia|]. pose proof (track_cap _ (exec_track_inv j)) as Hc.
    fold (queue tr j) in Hc. rewrite Hq in Hc. simpl in Hc. lia.
Qed.

Lemma sender_leaves k i : ∃ j, (i ≤ j)%nat ∧ ∀ data, clients (tr j) !! k ≠ Some (CSend data).
Proof using Hex Hfair Hrun Hleader.
  destruct (fair_send _ Hfair k i) as (j & Hij & [Hn|Hnever]); [eauto|].
  destruct (room_again j) as (j' & Hj' & Hroom). exists j'. split; [lia|].
  intros data Hs. destruct (Hnever j' Hj'). eauto.
Qed.

Lemma sending_returns k i data :
  clients (tr i) !! k = Some (CSend data) → ∃ j, (i ≤ j)%nat ∧ returned (tr j) k.
Proof using Hex Hfair Hrun Hleader.
  intros Hk. destruct (sender_leaves k i) as (j & Hij & Hn).
  destruct (until_returned (λ r, clients r !! k = Some (CSend data) ∨ clients r !! k = Some CWait) k i j)
    as [[Hs|Hw]|?]; [|done|by left|by destruct (Hn data)| |eauto].
  - intros r r' _ Hs [Hc|Hc]; destruct (client_step r r' k _ Hs Hc) as [?|[(_ & ? & _)|?]]; auto.
  - destruct (waiting_returns k j Hw) as (j' & Hj' & ?). exists j'. split; [lia|done].
Qed.
End Execution.

(** C13: No proposal hangs on a node that keeps running and whose Raft library again and again has a
    leader to hand proposals to: in every fair execution, from any state the node can
    reach, a call of ProposeAdd that has started returns after finitely many steps, even if
    its context is never cancelled. The loop comes back from every Ready to its select, the
    channel drains in order, so a full channel delays but does not starve a sender, the
    goroutine of the proposal puts the answer in its result channel, and the caller takes
    it. Without a leader Propose blocks (blocked_without_leader), and after Stop nobody
    answers: there only the caller's context ends the call. *)
Theorem proposals_return nid peers b (tr : nat → RunState Sk) k i c :
  engine_ok b.1 → rtc step (initial nid peers b) (tr 0%nat) →
  (∀ i, step (tr i) (tr (S i)) ∨ tr (S i) = tr i) → fair tr →
  (∀ i, doneC (run_node (tr i)) = false) → leader_again tr →
  clients (tr i) !! k = Some c →
  ∃ j err, (i ≤ j)%nat ∧ clients (tr j) !! k = Some (CReturned err).
Proof.
  intros Hok Hreach Hstep Hfair Hrun Hleader Hk.
  assert (run_inv (view b.1) (tr 0%nat) ∧ track_inv (tr 0%nat)) as [Hi Ht].
  { assert (∀ r r', rtc step r r' → run_inv (view b.1) r ∧ track_inv r → run_inv (view b.1) r' ∧ track_inv r')
      as Hind by (induction 1; intros []; eauto using step_inv, track_step).
    apply (Hind _ _ Hreach). split; [by apply initial_inv|apply track_initial]. }
  assert (execution (view b.1) tr) as Hex by (by split).
  destruct c as [data| |err].
  - destruct (sending_returns _ _ Hex Hfair Hrun Hleader k i data Hk) as (j & Hj & err & ?). eauto.
  - destruct (waiting_returns _ _ Hex Hfair Hrun Hleader k i Hk) as (j & Hj & err & ?). eauto.
  - exists i, err. auto.
Qed.
End Live.

(** ** Witness: one call, from its start to its return, and nothing after it *)

Section Witness.
Import Concrete StandIn RaftStandIn.

Lemma one_call_done i : (6 ≤ i)%nat → one_call i = a6.
Proof. intros. destruct i as [|[|[|[|[|[|i]]]]]]; try lia. done. Qed.

Lemma one_call_steps i : step (one_call i) (one_call (S i)) ∨ one_call (S i) = one_call i.
Proof.
  destruct (decide (i < 6)%nat); [left; by apply one_call_step|right].
  by rewrite !one_call_done by lia.
Qed.

Lemma a6_clients k c : clients a6 !! k = Some c → c = CReturned None.
Proof.
  destruct k as [|k]; [by intros [= <-]|]. unfold a6, a2, a1. cbn [clients].
  by rewrite !lookup_insert_ne.
Qed.

Lemma one_call_fair : fair one_call.
Proof.
  split; [..|intros k|intros p|intros k]; intros i; exists (i + 6)%nat; (split; [lia|]).
  - right. intros j' Hj'. rewrite one_call_done by lia. intros Hb. by apply Hb.
  - right. intros j' Hj'. unfold queue. rewrite one_call_done by lia. intros [_ Hq]. by apply Hq.
  - left. rewrite one_call_done by lia. intros data Hk. by apply a6_clients in Hk.
  - left. rewrite one_call_done by lia. apply not_elem_of_nil.
  - left. rewrite one_call_done by lia. intros Hk. by apply a6_clients in Hk.
Qed.

Lemma one_call_running i : doneC (run_node (one_call i)) = false.
Proof. by destruct i as [|[|[|[|[|[|i]]]]]]. Qed.

Lemma one_call_leader : leader_again one_call.
Proof. intros data i. exists (i + 6)%nat. split; [lia|]. rewrite one_call_done by lia. by eexists. Qed.

Lemma proposals_return_witness :
  ∃ j err, (1 ≤ j)%nat ∧ clients (one_call j) !! 0%nat = Some (CReturned err).
Proof.
  apply (proposals_return 1 [mkPeer 1 EmptyString] back_ex one_call 0 1 (start_ProposeAdd "a" 7)).
  - apply empty_engine_ok.
  - apply rtc_refl.
  - exact one_call_steps.
  - exact one_call_fair.
  - exact one_call_running.
  - exact one_call_leader.
  - reflexivity.
Defined.
End Witness.
