(* ===== verification/NodeSystem.v ===== *)
(** * A server on its Raft node (internal/server/grpc.go over internal/raft/node.go)

    main.go gives every server a Raft node, so a handler that owns its group blocks in
    [ProposeAdd] while the node's loop, other handlers and other callers run.
    [sys_step] interleaves the handlers of one server with the steps of [RaftRun]: a
    handler is a thread that waits for a call of [ProposeAdd], makes the next one, or
    answers. Add is the batch of one id, as in [addID]. Requests for groups of other
    nodes are forwarded without touching this node and are left to [Cluster]. The engine is
    shared: each of its calls is one access under its lock, so a query runs between any
    two accesses of the loop, also between two ids of one BATCH_ADD entry.

    The theorems say what an answer means under every interleaving. *)

From S2P Require Import Prelude GoBinary Code External Sketch SketchValue Float64 Hll Estimate Bitmap.
From S2P Require Import Algorithms Engine EngineProps Handler HandlerProps RaftLib Router Store Raft Main RaftProps.
From S2P Require Import Pb Server ServerProps RaftRun RaftLive MessagesProps.
Local Open Scope Z_scope.

(** ** Handlers as threads *)

Inductive request :=
  | ReqAdds (group : string) (ids : list Z)
  | ReqQuery (group : string).

(** [Wait g k rest]: blocked in the call [k], with the ids [rest] still to propose. *)
Inductive rpc_thread :=
  | Wait (group : string) (k : nat) (rest : list Z)
  | AddDone (r : result AddResponse)
  | QueryDone (r : result QueryResponse).

Section System.
Context {Sk : Type} `{!Sketch Sk, !Algorithm Sk, !Badger, !Proto, !EtcdRaft, !MapRange, !Gob}.

(** The history: what each handler was asked, the calls it made, oldest first, and for a
    query the entries the loop was done with and those it had been given. *)
Record NodeSys := mkSys {
  ns_run : RunState Sk;
  threads : gmap nat rpc_thread;
  requests : gmap nat request;
  made : gmap nat (list nat);
  seen : gmap nat (list Entry * list Entry);
}.

Definition called (r : RunState Sk) (k : nat) (g : string) (i : Z) : RunState Sk :=
  mkRun (run_node r) (run_backend r) (busy r) (goroutines r) (results r)
    (<[k := start_ProposeAdd g i]> (RaftRun.clients r)) (committed r) (finished r) (<[k := (g, i)]> (calls r)) (accepted r).

Definition fresh_call (r : RunState Sk) (k : nat) : Prop := RaftRun.clients r !! k = None ∧ calls r !! k = None.

(** The answer of [addID] to an error of [ProposeAdd]. *)
Definition propose_failed (err : error) : result AddResponse :=
  Err (EStatusf codes_Internal "raft propose" err).

Context (is_local : string → Prop).

Inductive sys_step (s : NodeSys) : NodeSys → Prop :=
  | sys_run r' :
      step (ns_run s) r' →
      sys_step s (mkSys r' (threads s) (requests s) (made s) (seen s))
  | sys_reject j ids :
      threads s !! j = None →
      sys_step s (mkSys (ns_run s) (<[j := AddDone (Err group_required)]> (threads s))
        (<[j := ReqAdds EmptyString ids]> (requests s)) (<[j := []]> (made s)) (seen s))
  | sys_empty j g :
      threads s !! j = None → g ≠ EmptyString → is_local g →
      sys_step s (mkSys (ns_run s) (<[j := AddDone (Ok (mkAddResponse true))]> (threads s))
        (<[j := ReqAdds g []]> (requests s)) (<[j := []]> (made s)) (seen s))
  | sys_start j k g i rest :
      threads s !! j = None → g ≠ EmptyString → is_local g → fresh_call (ns_run s) k → Forall u64 (i :: rest) →
      sys_step s (mkSys (called (ns_run s) k g i) (<[j := Wait g k rest]> (threads s))
        (<[j := ReqAdds g (i :: rest)]> (requests s)) (<[j := [k]]> (made s)) (seen s))
  | sys_next j k k' g i rest ks :
      threads s !! j = Some (Wait g k (i :: rest)) → made s !! j = Some ks →
      RaftRun.clients (ns_run s) !! k = Some (CReturned None) → fresh_call (ns_run s) k' → u64 i →
      sys_step s (mkSys (called (ns_run s) k' g i) (<[j := Wait g k' rest]> (threads s))
        (requests s) (<[j := ks ++ [k']]> (made s)) (seen s))
  | sys_done j k g :
      threads s !! j = Some (Wait g k []) → RaftRun.clients (ns_run s) !! k = Some (CReturned None) →
      sys_step s (mkSys (ns_run s) (<[j := AddDone (Ok (mkAddResponse true))]> (threads s))
        (requests s) (made s) (seen s))
  | sys_failed j k g rest err :
      threads s !! j = Some (Wait g k rest) → RaftRun.clients (ns_run s) !! k = Some (CReturned (Some err)) →
      sys_step s (mkSys (ns_run s) (<[j := AddDone (propose_failed err)]> (threads s))
        (requests s) (made s) (seen s))
  | sys_query_reject j :
      threads s !! j = None →
      sys_step s (mkSys (ns_run s) (<[j := QueryDone (Err group_required)]> (threads s))
        (<[j := ReqQuery EmptyString]> (requests s)) (made s) (seen s))
  | sys_query j g r e' :
      threads s !! j = None → g ≠ EmptyString → is_local g →
      engine_Cardinality g (run_backend (ns_run s)).1 = Ret (r, e') →
      let card := match r with Ok c => c | Err _ => 0 end in
      sys_step s (mkSys (ns_run s) (<[j := QueryDone (Ok (mkQueryResponse g card))]> (threads s))
        (<[j := ReqQuery g]> (requests s)) (made s)
        (<[j := (finished (ns_run s), committed (ns_run s))]> (seen s))).

Definition sys_initial (nid : Z) (peers : list Peer) (b : Backend Sk) : NodeSys :=
  mkSys (initial nid peers b) ∅ ∅ ∅ ∅.
End System.
Arguments NodeSys Sk {_ _}.

Section Invariant.
Context {Sk : Type} `{AlgorithmLaws Sk, !Badger, !Proto, !EtcdRaft, !MapRange, !Gob}.
Context (is_local : string → Prop).
Implicit Types (s : NodeSys Sk) (r : RunState Sk) (j k : nat) (g : string).

(** ** What the history of a run keeps *)

Record extends r r' : Prop := {
  ext_calls k c : calls r !! k = Some c → calls r' !! k = Some c;
  ext_returned k : RaftRun.clients r !! k = Some (CReturned None) → RaftRun.clients r' !! k = Some (CReturned None);
  ext_committed : committed r `prefix_of` committed r';
}.

Lemma extends_refl r : extends r r.
Proof. by split. Qed.

Lemma extends_called r k g i : fresh_call r k → extends r (called r k g i).
Proof.
  intros [Hc Hk]. split; [| |done]; intros k' x Hx || intros k' Hx; cbn [called calls RaftRun.clients] in *;
    rewrite lookup_insert_ne; [done| |done|]; congruence.
Qed.

Lemma step_extends r r' : step r r' → extends r r'.
Proof.
  intros Hs. split.
  - intros k c Hc. destruct Hs as [| | | | | | | |k' g i Hk Hn Hi| | |]; try done; cbn [calls].
    rewrite lookup_insert_ne; [done|]. congruence.
  - intros k Hk. destruct Hs; try done; cbn [RaftRun.clients];
      rewrite lookup_insert_ne; try done; intros ->; naive_solver congruence.
  - destruct Hs; try done; cbn [committed]. by apply prefix_app_r.
Qed.

(** ** The invariant *)

(** The calls [ks] are those for [g] and the ids, in order. *)
Definition calls_for r g (ks : list nat) (ids : list Z) : Prop :=
  Forall2 (λ k i, calls r !! k = Some (g, i)) ks ids.
Definition all_returned r (ks : list nat) : Prop :=
  Forall (λ k, RaftRun.clients r !! k = Some (CReturned None)) ks.

Definition add_ok r g (ids : list Z) (ks : list nat) (t : rpc_thread) : Prop :=
  match t with
  | Wait g' k rest => g' = g ∧ ∃ before done_, ks = before ++ [k] ∧ ids = done_ ++ rest ∧
      calls_for r g ks done_ ∧ all_returned r before
  | AddDone (Ok x) => x = mkAddResponse true ∧ calls_for r g ks ids ∧ all_returned r ks
  | AddDone (Err _) => True
  | QueryDone _ => False
  end.

(** The estimate of a group in a state of the log. *)
Definition estimate (m : gmap string Sk) g : Z :=
  match m !! g with Some sk => sk_Cardinality sk | None => 0 end.

(** An answer from the state some calls of the log lead to, the calls of [fin] and maybe
    more, but none beyond those of [com]. *)
Definition answers_from (m0 : gmap string Sk) g (fin com : list Entry) (x : QueryResponse) : Prop :=
  ∃ done_, log_calls fin `prefix_of` done_ ∧ done_ `prefix_of` log_calls com ∧
    x = mkQueryResponse g (estimate (spec_calls done_ m0) g).

Definition query_ok (m0 : gmap string Sk) r g (at_ : option (list Entry * list Entry)) (t : rpc_thread) : Prop :=
  match t with
  | QueryDone (Ok x) => ∃ fin com, at_ = Some (fin, com) ∧ com `prefix_of` committed r ∧
      answers_from m0 g fin com x
  | QueryDone (Err _) => True
  | _ => False
  end.

Record sys_inv (m0 : gmap string Sk) s : Prop := {
  sys_run_inv : run_inv m0 (ns_run s);
  sys_known j : threads s !! j = None ↔ requests s !! j = None;
  sys_adds j g ids t : requests s !! j = Some (ReqAdds g ids) → threads s !! j = Some t →
    ∃ ks, made s !! j = Some ks ∧ add_ok (ns_run s) g ids ks t;
  sys_queries j g t : requests s !! j = Some (ReqQuery g) → threads s !! j = Some t →
    query_ok m0 (ns_run s) g (seen s !! j) t;
}.

Lemma calls_for_extends r r' g ks ids : extends r r' → calls_for r g ks ids → calls_for r' g ks ids.
Proof. intros He Hc. eapply Forall2_impl; [exact Hc|]. intros k i. apply He. Qed.

Lemma all_returned_extends r r' ks : extends r r' → all_returned r ks → all_returned r' ks.
Proof. intros He Hr. eapply Forall_impl; [exact Hr|]. intros k. apply He. Qed.

Lemma add_ok_extends r r' g ids ks t : extends r r' → add_ok r g ids ks t → add_ok r' g ids ks t.
Proof.
  intros He. destruct t as [g' k rest|[x|e]|]; simpl; try done.
  - intros (-> & before & done_ & ? & ? & Hc & Hr). split; [done|]. exists before, done_.
    split_and!; eauto using calls_for_extends, all_returned_extends.
  - intros (? & ? & ?). split_and!; eauto using calls_for_extends, all_returned_extends.
Qed.

Lemma query_ok_extends m0 r r' g n t : extends r r' → query_ok m0 r g n t → query_ok m0 r' g n t.
Proof.
  intros He. destruct t as [| |[x|e]]; simpl; try done. intros (fin & com & -> & Hc & Hx).
  exists fin, com. split_and!; [done| |done]. etrans; [exact Hc|apply He].
Qed.

(** ** Every rule keeps it *)

Lemma sys_inv_run m0 s r' :
  sys_inv m0 s → run_inv m0 r' → extends (ns_run s) r' →
  sys_inv m0 (mkSys r' (threads s) (requests s) (made s) (seen s)).
Proof.
  intros [Hr Hk Ha Hq] Hr' He. split; try done; cbn [threads requests made seen ns_run].
  - intros j g ids t Hj Ht. destruct (Ha j g ids t Hj Ht) as (ks & ? & ?). eauto using add_ok_extends.
  - intros j g t Hj Ht. eauto using query_ok_extends.
Qed.

(** A thread of an add request is new or moves on. *)
Lemma sys_inv_add m0 s j g ids t ks :
  sys_inv m0 s → (threads s !! j = None ∨ requests s !! j = Some (ReqAdds g ids)) →
  add_ok (ns_run s) g ids ks t →
  sys_inv m0 (mkSys (ns_run s) (<[j := t]> (threads s)) (<[j := ReqAdds g ids]> (requests s))
    (<[j := ks]> (made s)) (seen s)).
Proof.
  intros [Hr Hk Ha Hq] Hj Hok. split; try done; cbn [threads requests made seen ns_run].
  - intros j'. rewrite !lookup_insert. case_decide; [done|apply Hk].
  - intros j' g' ids' t'. rewrite !lookup_insert. case_decide; [|apply Ha].
    intros [= <- <-] [= <-]. eauto.
  - intros j' g' t'. rewrite !lookup_insert. by case_decide; [|apply Hq].
Qed.

Lemma sys_inv_query m0 s j g t n :
  sys_inv m0 s → threads s !! j = None → query_ok m0 (ns_run s) g (n !! j) t →
  (∀ j', j' ≠ j → n !! j' = seen s !! j') →
  sys_inv m0 (mkSys (ns_run s) (<[j := t]> (threads s)) (<[j := ReqQuery g]> (requests s)) (made s) n).
Proof.
  intros [Hr Hk Ha Hq] Hj Hok Hn. split; try done; cbn [threads requests made seen ns_run].
  - intros j'. rewrite !lookup_insert. case_decide; [done|apply Hk].
  - intros j' g' ids' t'. rewrite !lookup_insert. by case_decide; [|apply Ha].
  - intros j' g' t'. rewrite !lookup_insert. case_decide as Hjj.
    + subst. by intros [= <-] [= <-].
    + rewrite Hn by done. apply Hq.
Qed.

(** A thread in flight has its request recorded. *)
Lemma sys_request m0 s j t :
  sys_inv m0 s → threads s !! j = Some t → ∃ q, requests s !! j = Some q.
Proof.
  intros Hi Ht. destruct (requests s !! j) as [q|] eqn:E; [eauto|]. by apply (sys_known _ _ Hi) in E as E'; congruence.
Qed.

Lemma sys_wait m0 s j g k rest :
  sys_inv m0 s → threads s !! j = Some (Wait g k rest) →
  ∃ ids ks, requests s !! j = Some (ReqAdds g ids) ∧ made s !! j = Some ks ∧
    add_ok (ns_run s) g ids ks (Wait g k rest).
Proof.
  intros Hi Ht. destruct (sys_request m0 s j _ Hi Ht) as [[g' ids|g'] Hq].
  - destruct (sys_adds _ _ Hi j g' ids _ Hq Ht) as (ks & Hm & Hok). pose proof Hok as [<- _]. eauto.
  - by pose proof (sys_queries _ _ Hi j g' _ Hq Ht).
Qed.

(** The pieces of a state put back as they are. *)
Lemma insert_request s j q : requests s !! j = Some q → <[j := q]> (requests s) = requests s.
Proof. intros. by apply insert_id. Qed.

Lemma called_inv m0 s k g i :
  sys_inv m0 s → fresh_call (ns_run s) k → u64 i →
  sys_inv m0 (mkSys (called (ns_run s) k g i) (threads s) (requests s) (made s) (seen s)).
Proof.
  intros Hs Hf Hi. apply sys_inv_run; [done| |by apply extends_called].
  apply step_call_inv; [apply Hs|apply Hf|done].
Qed.

Lemma called_for r k g i : calls (called r k g i) !! k = Some (g, i).
Proof. apply lookup_insert_eq. Qed.

Lemma sys_next_inv m0 s j k k' g i rest ks :
  sys_inv m0 s → threads s !! j = Some (Wait g k (i :: rest)) → made s !! j = Some ks →
  RaftRun.clients (ns_run s) !! k = Some (CReturned None) → fresh_call (ns_run s) k' → u64 i →
  sys_inv m0 (mkSys (called (ns_run s) k' g i) (<[j := Wait g k' rest]> (threads s))
    (requests s) (<[j := ks ++ [k']]> (made s)) (seen s)).
Proof.
  intros Hs Ht Hm Hk Hf Hi.
  destruct (sys_wait m0 s j g k (i :: rest) Hs Ht) as (ids & ks' & Hq & Hm' & Hok).
  rewrite Hm in Hm'. injection Hm' as <-.
  destruct Hok as (_ & before & done_ & -> & -> & Hc & Hr).
  rewrite <- (insert_request s j _ Hq).
  apply (sys_inv_add m0 (mkSys (called (ns_run s) k' g i) (threads s) (requests s) (made s) (seen s)));
    [by apply called_inv|by right|].
  pose proof (extends_called (ns_run s) k' g i Hf) as He. split; [done|].
  exists (before ++ [k]), (done_ ++ [i]). split; [done|]. split; [by rewrite <- (assoc_L (++))|]. split.
  - apply Forall2_app; [by eapply calls_for_extends|]. constructor; [apply called_for|constructor].
  - apply (all_returned_extends _ _ _ He). apply Forall_app. split; [done|]. by apply Forall_singleton.
Qed.

Lemma sys_end_inv m0 s j k g rest t :
  sys_inv m0 s → threads s !! j = Some (Wait g k rest) →
  (∀ ids ks, add_ok (ns_run s) g ids ks (Wait g k rest) → add_ok (ns_run s) g ids ks t) →
  sys_inv m0 (mkSys (ns_run s) (<[j := t]> (threads s)) (requests s) (made s) (seen s)).
Proof.
  intros Hs Ht Hok. destruct (sys_wait m0 s j g k rest Hs Ht) as (ids & ks & Hq & Hm & Hw).
  rewrite <- (insert_request s j _ Hq), <- (insert_id (made s) j ks Hm).
  apply sys_inv_add; [done|by right|by apply Hok].
Qed.

Lemma sys_query_inv m0 s j g (r : result Z) e' :
  sys_inv m0 s → threads s !! j = None →
  engine_Cardinality g (run_backend (ns_run s)).1 = Ret (r, e') →
  sys_inv m0 (mkSys (ns_run s)
    (<[j := QueryDone (Ok (mkQueryResponse g (match r with Ok c => c | Err _ => 0 end)))]> (threads s))
    (<[j := ReqQuery g]> (requests s)) (made s) (<[j := (finished (ns_run s), committed (ns_run s))]> (seen s))).
Proof.
  intros Hs Hj E. destruct (sys_run_inv _ _ Hs) as [[Hok _] _ _ _ _ _ _ _].
  destruct (run_prefix m0 _ (sys_run_inv _ _ Hs)) as (done_ & Hv & Hfin & Hcom).
  rewrite engine_Cardinality_spec in E by done.
  apply sys_inv_query; [done|done| |intros; by rewrite lookup_insert_ne].
  rewrite lookup_insert_eq. exists (finished (ns_run s)), (committed (ns_run s)). split_and!; [done|done|].
  exists done_. split_and!; [done|done|]. f_equal. unfold estimate. rewrite <- Hv. injection E as <- _.
  by destruct (view _ !! g).
Qed.

Lemma sys_step_inv m0 s s' : sys_inv m0 s → sys_step is_local s s' → sys_inv m0 s'.
Proof.
  intros Hs Hstep. destruct Hstep as [r' Hr|j ids Hj|j g Hj Hg Hl|j k g i rest Hj Hg Hl Hf Hi
    |j k k' g i rest ks Ht Hm Hk Hf Hi|j k g Ht Hk|j k g rest err Ht Hk|j Hj|j g r e' Hj Hg Hl E].
  - apply sys_inv_run; [done| |by apply step_extends]. eapply step_inv; [apply Hs|done].
  - apply sys_inv_add; [done|by left|done].
  - apply sys_inv_add; [done|by left|]. split_and!; [done|constructor|constructor].
  - apply Forall_cons in Hi as [Hi _].
    apply (sys_inv_add m0 (mkSys (called (ns_run s) k g i) (threads s) (requests s) (made s) (seen s)));
      [by apply called_inv|by left|]. split; [done|]. exists [], [i].
    split_and!; [done|done| |constructor]. constructor; [apply called_for|constructor].
  - by eapply sys_next_inv.
  - eapply sys_end_inv; [done|done|]. intros ids ks (_ & before & done_ & -> & -> & Hc & Hr).
    rewrite app_nil_r. split_and!; [done|done|]. apply Forall_app. split; [done|]. by apply Forall_singleton.
  - by eapply sys_end_inv.
  - apply sys_inv_query; done.
  - by eapply sys_query_inv.
Qed.

Lemma sys_initial_inv nid peers b : engine_ok b.1 → sys_inv (view b.1) (sys_initial nid peers b).
Proof. intros Hok. split; [by apply initial_inv|done..]. Qed.

Lemma sys_reach_inv m0 s s' : sys_inv m0 s → rtc (sys_step is_local) s s' → sys_inv m0 s'.
Proof. intros Hs Hr. induction Hr; [done|]. eauto using sys_step_inv. Qed.

(** C12: What an answer of a server on a Raft node means, whatever the interleaving of its
    handlers with the single accesses of the node's loop, with other callers and the
    library: a successful Add or BatchAdd had the ADD command of every one of its ids
    accepted by the library, and the entry of each adds exactly that id to that group; and
    a query answered with the estimate of its group after a prefix of the calls of the
    committed log: all calls of the Readys the loop was done with when the query ran, and of
    the Ready it was in any number of calls, be it in the middle of a BATCH_ADD entry. *)
Theorem raft_answers nid peers b s j :
  engine_ok b.1 → rtc (sys_step is_local) (sys_initial nid peers b) s →
  (∀ g ids x, requests s !! j = Some (ReqAdds g ids) → threads s !! j = Some (AddDone (Ok x)) →
     x = mkAddResponse true ∧
     Forall (λ i, ∃ k data, calls (ns_run s) !! k = Some (g, i) ∧ accepted (ns_run s) !! k = Some data ∧
       ∀ t, ent_Type t = EntryNormal → ent_Data t = data → log_calls [t] = [CAdd g i]) ids) ∧
  (∀ g x, requests s !! j = Some (ReqQuery g) → threads s !! j = Some (QueryDone (Ok x)) →
     ∃ fin com, seen s !! j = Some (fin, com) ∧ com `prefix_of` committed (ns_run s) ∧
       answers_from (view b.1) g fin com x).
Proof.
  intros Hok Hreach. pose proof (sys_reach_inv _ _ _ (sys_initial_inv nid peers b Hok) Hreach) as Hs. split.
  - intros g ids x Hq Ht. destruct (sys_adds _ _ Hs j g ids _ Hq Ht) as (ks & _ & -> & Hc & Hr).
    split; [done|]. apply Forall_forall. intros i Hi. apply list_elem_of_lookup_1 in Hi as [a Ha].
    destruct (Forall2_lookup_r _ _ _ _ _ Hc Ha) as (k & Hk & Hcall).
    pose proof (Forall_lookup_1 _ _ _ _ Hr Hk) as Hret. exists k.
    destruct (run_returned _ _ (sys_run_inv _ _ Hs) k Hret) as (g' & i' & data & Hc' & Ha' & Ht').
    rewrite Hcall in Hc'. injection Hc' as <- <-. eauto.
  - intros g x Hq Ht. apply (sys_queries _ _ Hs j g _ Hq Ht).
Qed.
End Invariant.

(** ** Witness

    A call is accepted and answered, then the library delivers one BATCH_ADD entry of two
    ids, and a query runs after the first of them: the answer is 1, a state that no prefix
    of the entries has. *)
Section Witness.
Import Concrete StandIn RaftStandIn.

Definition anywhere (g : string) : Prop := True.
Definition s_of (r : RunState SketchV) (t : rpc_thread) : NodeSys SketchV :=
  mkSys r (<[0%nat := t]> ∅) (<[0%nat := ReqAdds "a" [7]]> ∅) (<[0%nat := [0%nat]]> ∅) ∅.
Definition acked (r : RunState SketchV) : NodeSys SketchV :=
  mkSys r (<[0%nat := AddDone (Ok (mkAddResponse true))]> (threads (s_of r (Wait "a" 0 []))))
    (requests (s_of r (Wait "a" 0 []))) (made (s_of r (Wait "a" 0 []))) ∅.
Definition queried (r : RunState SketchV) (card : Z) : NodeSys SketchV :=
  mkSys r (<[1%nat := QueryDone (Ok (mkQueryResponse "a" card))]> (threads (acked r)))
    (<[1%nat := ReqQuery "a"]> (requests (acked r))) (made (acked r))
    (<[1%nat := (finished r, committed r)]> ∅).

Lemma acked_reached :
  rtc (sys_step anywhere) (sys_initial 1 [mkPeer 1 EmptyString] back_ex) (acked a6).
Proof.
  eapply rtc_l; [apply (sys_start anywhere (sys_initial 1 [mkPeer 1 EmptyString] back_ex) 0 0 "a" 7 []);
    [done|done|done|done|by repeat constructor]|].
  eapply (rtc_l _ _ (s_of a2 (Wait "a" 0 []))); [apply sys_run, (one_call_step 1); lia|].
  eapply (rtc_l _ _ (s_of a3 (Wait "a" 0 []))); [apply sys_run, (one_call_step 2); lia|].
  eapply (rtc_l _ _ (s_of a4 (Wait "a" 0 []))); [apply sys_run, (one_call_step 3); lia|].
  eapply (rtc_l _ _ (s_of a5 (Wait "a" 0 []))); [apply sys_run, (one_call_step 4); lia|].
  eapply (rtc_l _ _ (s_of a6 (Wait "a" 0 []))); [apply sys_run, (one_call_step 5); lia|].
  apply rtc_once. by apply (sys_done anywhere (s_of a6 (Wait "a" 0 [])) 0 0 "a").
Qed.

(** The add is acknowledged, its entry is not delivered yet, and a query does not see it. *)
Lemma ack_before_apply :
  rtc (sys_step anywhere) (sys_initial 1 [mkPeer 1 EmptyString] back_ex) (queried a6 0).
Proof.
  eapply rtc_r; [exact acked_reached|].
  by apply (sys_query anywhere (acked a6) 1 "a" (Err (ErrUnknownGroup "a")) (NewEngine ∅)).
Qed.

(** The loop makes its next access. *)
Definition advance (r : RunState SketchV) : RunState SketchV :=
  match busy r with
  | Some (Access write next) => loop_step r (write (run_state r)) (Some (next (run_state r)))
  | _ => r
  end.
Definition accessing (r : RunState SketchV) : bool :=
  match busy r with Some (Access _ _) => true | _ => false end.

Lemma advance_step r : accessing r = true → step r (advance r).
Proof.
  unfold accessing, advance. destruct (busy r) as [[| |write next]|] eqn:Hb; try done.
  intros _. by apply (step_apply r write next).
Qed.

(** Both ids of the batch are in the entry; four accesses into the [Ready] the first is in
    the engine and the second is not. *)
Definition batch_entry : Entry :=
  mkEntry 1 1 EntryNormal
    (match proto_Marshal (mkCommand TypeBatchAdd "a" (AppendUvarint [] 2 ++ concat (AppendUvarint [] <$> [7; 8])))
     with Ok d => d | Err _ => [] end).
Definition ready_ex : RunState SketchV :=
  mkRun (run_node a6) (run_backend a6) (Some (ready_code [] [batch_entry])) [] (results a6) (RaftRun.clients a6)
    [batch_entry] [] (calls a6) (accepted a6).
Definition half (n : nat) : RunState SketchV := Nat.iter n advance ready_ex.

Lemma half_reached n :
  (n ≤ 3)%nat → rtc (sys_step anywhere) (sys_initial 1 [mkPeer 1 EmptyString] back_ex) (acked (half n)).
Proof.
  induction n as [|n IH]; intros Hn.
  - eapply rtc_r; [exact acked_reached|]. apply (sys_run anywhere (acked a6) ready_ex).
    by apply (step_ready a6 [] [batch_entry]).
  - eapply rtc_r; [apply IH; lia|]. apply (sys_run anywhere (acked (half n)) (half (S n))), advance_step.
    destruct n as [|[|[|n]]]; [vm_compute; reflexivity..|lia].
Qed.

Lemma query_after r card :
  rtc (sys_step anywhere) (sys_initial 1 [mkPeer 1 EmptyString] back_ex) (acked r) →
  sk_Cardinality <$> view (run_backend r).1 !! "a" = Some card →
  rtc (sys_step anywhere) (sys_initial 1 [mkPeer 1 EmptyString] back_ex) (queried r card).
Proof.
  intros Hr Hv. eapply rtc_r; [exact Hr|].
  pose proof (sys_reach_inv anywhere _ _ _ (sys_initial_inv 1 [mkPeer 1 EmptyString] back_ex (empty_engine_ok _)) Hr)
    as Hinv. destruct (sys_run_inv _ _ Hinv) as [[Hok _] _ _ _ _ _ _ _].
  apply (sys_query anywhere (acked r) 1 "a" (Ok card) (run_backend r).1); [done..|].
  rewrite engine_Cardinality_spec by exact Hok. cbn [acked s_of ns_run].
  destruct (view _ !! _); simplify_eq/=. done.
Qed.

Lemma queried_half :
  rtc (sys_step anywhere) (sys_initial 1 [mkPeer 1 EmptyString] back_ex) (queried (half 3) 1).
Proof. apply query_after; [by apply half_reached|vm_compute; reflexivity]. Qed.

Lemma raft_answers_witness :
  answers_from (view back_ex.1) "a" [] [batch_entry] (mkQueryResponse "a" 1) ∧
  ∀ n, estimate (spec_calls (log_calls (take n [batch_entry])) (view back_ex.1)) "a" ≠ 1.
Proof.
  split; [|by intros [|[|n]]; vm_compute].
  destruct (raft_answers anywhere 1 [mkPeer 1 EmptyString] back_ex (queried (half 3) 1) 1) as [_ Hq].
  - apply empty_engine_ok.
  - exact queried_half.
  - destruct (Hq "a"%string (mkQueryResponse "a" 1) eq_refl eq_refl) as (fin & com & Hs & _ & Ha).
    assert (seen (queried (half 3) 1) !! 1%nat = Some ([], [batch_entry])) as E by (vm_compute; reflexivity).
    rewrite E in Hs. injection Hs as <- <-. exact Ha.
Defined.
End Witness.
