(* ===== verification/EngineLock.v ===== *)
(** * Concurrent calls of the engine (internal/cardinality/engine.go)

    Servers handle requests concurrently, and every method of the engine takes its lock.
    Here each method is the sequence of accesses to groups, sketches and store that it
    makes with the lock held, for reading or for writing, and what it does before it takes
    the lock; the accesses of different calls interleave as the lock allows. [eplan] is the
    method; [eplan_run] shows that uninterrupted it is the method of [Engine].

    A sketch handed to Merge is the caller's, who leaves it alone during the call.

    The engine is then an instance of [LockedObject] whose specification works on the map
    from groups to sketches and the store: every concurrent execution is explained by a
    sequential one. For servers whose writes go through [AddAndPersist], the theorem on
    what the store holds follows from that. *)

From S2P Require Import Prelude Code RWMutex External Sketch SketchValue Float64 Hll Estimate Bitmap Algorithms.
From S2P Require Import Engine EngineProps Handler RaftLib Store Raft Router Main.
Local Open Scope Z_scope.

(** ** The methods as accesses *)

Inductive ecall {Sk : Type} :=
  | EAdd (g : string) (i : Z)
  | ECardinality (g : string)
  | ECardinalityAll
  | EAddAndPersist (g : string) (i : Z)
  | EPersist (g : string)
  | ERestore (g : string) (b : list byte)
  | EMerge (g : string) (remote : option Sk)
  | EMergeBytes (g algo : string) (b : list byte)
  | EMarshal
  | EUnmarshal (data : list byte).
Arguments ecall : clear implicits.

Inductive eresult :=
  | RErr (err : option error)
  | RCard (n : result Z)
  | RAll (ns : gmap string Z)
  | RBytes (b : result (list byte)).

Section Bodies.
Context {Sk : Type} `{!Sketch Sk, !Algorithm Sk, !Badger, !MapRange, !Gob}.
Implicit Types (g : string) (l : loc).

(** [sk, ok := e.groups[group]], with a new sketch if absent, and [sk.Add(id)]. *)
Definition code_insert g (i : Z) : code (Engine Sk) loc :=
  do! found := reading (λ e, groups e !! g) in
  do! l := match found with
           | Some l => Done l
           | None => do! l := access (alloc alg_New) in do! _ := access (set_group g l) in Done l
           end in
  do! sk := access (load l) in
  do! sk' := access (lift (sk_Add sk i)) in
  do! _ := access (store l sk') in
  Done l.

Definition code_Add g (i : Z) : code (Engine Sk) eresult :=
  do! _ := code_insert g i in Done (RErr None).

Definition code_Cardinality g : code (Engine Sk) eresult :=
  do! found := reading (λ e, groups e !! g) in
  match found with
  | None => Done (RCard (Err (ErrUnknownGroup g)))
  | Some l => do! sk := access (load l) in Done (RCard (Ok (sk_Cardinality sk)))
  end.

Fixpoint code_collect {V} (f : Sk → V) (es : list (string * loc)) (out : gmap string V)
    : code (Engine Sk) (gmap string V) :=
  match es with
  | [] => Done out
  | (g, l) :: es' => do! sk := access (load l) in code_collect f es' (<[g := f sk]> out)
  end.

Definition code_CardinalityAll : code (Engine Sk) eresult :=
  do! es := reading (λ e, map_range (groups e)) in
  do! out := code_collect sk_Cardinality es ∅ in
  Done (RAll out).

Definition code_Marshal : code (Engine Sk) eresult :=
  do! es := reading (λ e, map_range (groups e)) in
  do! wire := code_collect sk_Bytes es ∅ in
  Done (RBytes (gob_Encode wire)).

(** [save] is the closure the server and the Raft node pass: [store.Save] of the group. *)
Definition code_save g l : code (Engine Sk * BadgerStore) eresult :=
  do! sk := at_fst (access (load l)) in
  do! err := access (on_snd (Save g (sk_Bytes sk))) in
  Done (RErr err).

Definition code_AddAndPersist g (i : Z) : code (Engine Sk * BadgerStore) eresult :=
  do! l := at_fst (code_insert g i) in code_save g l.

Definition code_Persist g : code (Engine Sk * BadgerStore) eresult :=
  do! found := at_fst (reading (λ e, groups e !! g)) in
  match found with
  | None => Done (RErr (Some (ErrUnknownGroup g)))
  | Some l => code_save g l
  end.

(** A sketch made before the lock is taken is not shared until the method stores its
    pointer; its allocation is the first access here. *)
Definition code_Restore g (sk : Sk) : code (Engine Sk) eresult :=
  do! l := access (alloc sk) in
  do! _ := access (set_group g l) in
  Done (RErr None).

Definition code_Merge g (remote : Sk) : code (Engine Sk) eresult :=
  do! r := access (alloc remote) in
  do! found := reading (λ e, groups e !! g) in
  match found with
  | None =>
      do! o := access (load r) in
      do! l := access (alloc (sk_Clone o)) in
      do! _ := access (set_group g l) in
      Done (RErr None)
  | Some l =>
      do! sk := access (load l) in
      do! o := access (load r) in
      do! sk' := access (lift (sk_Merge sk o)) in
      do! _ := access (store l sk') in
      Done (RErr None)
  end.

Definition code_replace (wire : list (string * list byte)) : code (Engine Sk) eresult :=
  do! r := access (engine_parse_all wire ∅) in
  match r with
  | Err err => Done (RErr (Some err))
  | Ok gs => do! _ := access (λ e, Ret (tt, mkEngine (mem e) gs)) in Done (RErr None)
  end.

(** The first entry that does not parse, in iteration order. *)
Fixpoint wire_error (wire : list (string * list byte)) : option error :=
  match wire with
  | [] => None
  | (g, b) :: wire' =>
      match alg_Parse (Sk := Sk) b with
      | Err err => Some (ErrParse g err)
      | Ok _ => wire_error wire'
      end
  end.

(** The methods: what happens before the lock, which lock, and the accesses under it. *)
Definition eplan (c : ecall Sk) : plan (Engine Sk * BadgerStore) eresult :=
  match c with
  | EAdd g i => Locked Wr (at_fst (code_Add g i))
  | ECardinality g => Locked Rd (at_fst (code_Cardinality g))
  | ECardinalityAll => Locked Rd (at_fst code_CardinalityAll)
  | EAddAndPersist g i => Locked Wr (code_AddAndPersist g i)
  | EPersist g => Locked Wr (code_Persist g)
  | ERestore g b =>
      match alg_Parse b with
      | Err err => Immediate (RErr (Some (ErrParse g err)))
      | Ok sk => Locked Wr (at_fst (code_Restore g sk))
      end
  | EMerge g None => Immediate (RErr (Some ErrNilRemote))
  | EMerge g (Some sk) =>
      if decide (sk_AlgoName sk ≠ alg_Name Sk) then
        Immediate (RErr (Some (ErrAlgoMismatch (alg_Name Sk) (sk_AlgoName sk))))
      else Locked Wr (at_fst (code_Merge g sk))
  | EMergeBytes g algo b =>
      if decide (algo ≠ alg_Name Sk) then
        Immediate (RErr (Some (ErrAlgoMismatch (alg_Name Sk) algo)))
      else match alg_Parse b with
           | Err err => Immediate (RErr (Some (ErrParse g err)))
           | Ok sk =>
               if decide (sk_AlgoName sk ≠ alg_Name Sk) then
                 Immediate (RErr (Some (ErrAlgoMismatch (alg_Name Sk) (sk_AlgoName sk))))
               else Locked Wr (at_fst (code_Merge g sk))
           end
  | EMarshal => Locked Rd (at_fst code_Marshal)
  | EUnmarshal data =>
      match gob_Decode data with
      | Err err => Immediate (RErr (Some err))
      | Ok wire =>
          match wire_error (map_range wire) with
          | Some err => Immediate (RErr (Some err))
          | None => Locked Wr (at_fst (code_replace (map_range wire)))
          end
      end
  end.

(** [Merge] of a sketch of the caller's, which is somewhere in memory. *)
Definition merge_sketch g (sk : Sk) : prog (Engine Sk) (option error) :=
  let* r := alloc sk in engine_Merge g (Some r).

(** The method of [Engine] behind a call. *)
Definition emethod (c : ecall Sk) : prog (Engine Sk * BadgerStore) eresult :=
  match c with
  | EAdd g i => let* r := on_fst (engine_Add g i) in ret (RErr r)
  | ECardinality g => let* r := on_fst (engine_Cardinality g) in ret (RCard r)
  | ECardinalityAll => let* r := on_fst engine_CardinalityAll in ret (RAll r)
  | EAddAndPersist g i => let* r := engine_AddAndPersist g i (Save g) in ret (RErr r)
  | EPersist g => let* r := engine_Persist g (Save g) in ret (RErr r)
  | ERestore g b => let* r := on_fst (engine_Restore g b) in ret (RErr r)
  | EMerge g None => let* r := on_fst (engine_Merge g None) in ret (RErr r)
  | EMerge g (Some sk) => let* r := on_fst (merge_sketch g sk) in ret (RErr r)
  | EMergeBytes g algo b => let* r := on_fst (engine_MergeBytes g algo b) in ret (RErr r)
  | EMarshal => let* r := on_fst engine_Marshal in ret (RBytes r)
  | EUnmarshal data => let* r := on_fst (engine_Unmarshal data) in ret (RErr r)
  end.
End Bodies.

(** ** The bodies are the methods *)

Section Sequential.
Context {Sk : Type} `{AlgorithmLaws Sk, !Badger, !MapRange, !Gob}.
Implicit Types (e : Engine Sk) (w : BadgerStore) (m : gmap string Sk) (g : string).

Lemma bind_ext {S A B} (op op' : prog S A) (k k' : A → prog S B) s :
  op s = op' s → (∀ a s', op' s = Ret (a, s') → k a s' = k' a s') → bind op k s = bind op' k' s.
Proof. unfold bind. intros -> Hk. destruct (op' s) as [[a s']|msg]; auto. Qed.

Ltac run_steps :=
  repeat first
    [ rewrite run_and_then | rewrite run_access | rewrite run_reading
    | apply bind_ext; [|intros ? ? _] | progress cbn [run_body] | reflexivity ].

Lemma run_insert g i e :
  run_body (code_insert g i) e =
    (let* l := engine_sketch g in let* sk := load l in let* sk' := lift (sk_Add sk i) in
     let* _ := store l sk' in ret l) e.
Proof.
  unfold code_insert. rewrite run_and_then. unfold bind at 1. rewrite run_reading. cbn beta iota.
  rewrite run_and_then. apply bind_ext; [|intros l e1 _; by run_steps].
  unfold engine_sketch. destruct (groups e !! g); by run_steps.
Qed.

Lemma run_Add g i e : run_body (code_Add g i) e = (let* r := engine_Add g i in ret (RErr r)) e.
Proof.
  unfold code_Add. rewrite run_and_then. unfold bind at 1. rewrite run_insert.
  unfold engine_Add, bind, ret, lift. by repeat case_match; simplify_eq.
Qed.

Lemma bind_reading {B R} (f : Engine Sk → B) (k : B → code (Engine Sk) R) e :
  run_body (and_then (reading f) k) e = run_body (k (f e)) e.
Proof. done. Qed.

Lemma run_Cardinality g e :
  run_body (code_Cardinality g) e = (let* r := engine_Cardinality g in ret (RCard r)) e.
Proof.
  unfold code_Cardinality, engine_Cardinality. rewrite bind_reading. unfold bind at 1.
  destruct (groups e !! g) as [l|]; [|done]. rewrite run_and_then. unfold bind. rewrite run_access.
  by destruct (load l e) as [[sk e']|].
Qed.

Lemma run_collect {V} (f : Sk → V) es out e : run_body (code_collect f es out) e = engine_collect f es out e.
Proof.
  revert out e. induction es as [|[g l] es IH]; intros out e; cbn [code_collect engine_collect]; [done|].
  rewrite run_and_then. apply bind_ext; [apply run_access|]. intros sk e' _. apply IH.
Qed.

Lemma run_CardinalityAll e :
  run_body code_CardinalityAll e = (let* r := engine_CardinalityAll in ret (RAll r)) e.
Proof.
  unfold code_CardinalityAll, engine_CardinalityAll. rewrite bind_reading, run_and_then.
  apply bind_ext; [apply run_collect|done].
Qed.

Lemma run_Marshal e : run_body code_Marshal e = (let* r := engine_Marshal in ret (RBytes r)) e.
Proof.
  unfold code_Marshal, engine_Marshal. rewrite bind_reading, run_and_then. unfold bind, get.
  rewrite run_collect. by destruct (engine_collect _ _ _ _) as [[wire e']|].
Qed.

Lemma run_Restore g b sk e :
  alg_Parse b = Ok sk → run_body (code_Restore g sk) e = (let* r := engine_Restore g b in ret (RErr r)) e.
Proof. intros Hp. unfold engine_Restore. by rewrite Hp. Qed.

Lemma run_merge_sketch g sk e :
  sk_AlgoName sk = alg_Name Sk →
  run_body (code_Merge g sk) e = (let* r := merge_sketch g sk in ret (RErr r)) e.
Proof.
  intros Hname. unfold code_Merge, merge_sketch.
  set (r := fresh (dom (mem e))). set (e1 := mkEngine (<[r := sk]> (mem e)) (groups e)).
  assert (alloc sk e = Ret (r, e1)) as Ea by done.
  assert (load r e1 = Ret (sk, e1)) as Er by (apply load_Ret; cbn; apply lookup_insert_eq).
  rewrite (bind_access _ _ _ _ _ Ea), bind_reading. unfold bind at 1 2. rewrite Ea.
  unfold engine_Merge, bind at 1. rewrite Er.
  case_decide as Hn; [done|]. destruct (groups e1 !! g) as [l|].
  - rewrite run_and_then. unfold bind, ret. rewrite run_access.
    destruct (load l e1) as [[sk1 e2]|] eqn:El; [|done].
    assert (e2 = e1) as -> by (unfold load in El; by case_match; simplify_eq).
    rewrite (bind_access _ _ _ _ _ Er), run_and_then. unfold bind. rewrite run_access.
    by destruct (lift _ _) as [[sk' e2]|].
  - by rewrite (bind_access _ _ _ _ _ Er).
Qed.

Lemma run_Merge g b sk e :
  alg_Parse b = Ok sk →
  run_body (code_Merge g sk) e = (let* r := engine_MergeBytes g (alg_Name Sk) b in ret (RErr r)) e.
Proof.
  intros Hp. unfold engine_MergeBytes. rewrite decide_False, Hp by naive_solver.
  apply run_merge_sketch. by destruct (law_parse _ _ Hp).
Qed.

Lemma run_replace wire e data :
  gob_Decode data = Ok wire →
  run_body (code_replace (map_range wire)) e = (let* r := engine_Unmarshal data in ret (RErr r)) e.
Proof.
  intros Hd. unfold code_replace, engine_Unmarshal. rewrite Hd, run_and_then. unfold bind at 1 2 3.
  rewrite run_access. by destruct (engine_parse_all _ _ _) as [[[gs|err] e']|].
Qed.

Lemma run_save g l e w sk :
  mem e !! l = Some sk →
  run_body (code_save g l) (e, w) = (let* r := on_snd (Save g (sk_Bytes sk)) in ret (RErr r)) (e, w).
Proof.
  intros Hl. unfold code_save. rewrite run_and_then. unfold bind at 1. rewrite run_at_fst. unfold on_fst.
  cbn [fst snd]. rewrite run_access, (load_Ret _ _ _ Hl), run_and_then. by run_steps.
Qed.

Lemma run_Persist g e w :
  engine_ok e → run_body (code_Persist g) (e, w) = (let* r := engine_Persist g (Save g) in ret (RErr r)) (e, w).
Proof.
  intros Hok. unfold code_Persist, engine_Persist. rewrite run_and_then. unfold bind at 1.
  rewrite run_at_fst. unfold on_fst at 1, bind at 1. rewrite run_reading. cbn [fst snd].
  destruct (groups e !! g) as [l|] eqn:Hg; [|done].
  destruct (ok_ptr _ Hok _ _ Hg) as (sk & Hm & _). rewrite (run_save _ _ _ _ _ Hm).
  unfold bind, on_fst. cbn [fst snd]. by rewrite (load_Ret _ _ _ Hm).
Qed.

Lemma run_AddAndPersist g i e w :
  run_body (code_AddAndPersist g i) (e, w) = (let* r := engine_AddAndPersist g i (Save g) in ret (RErr r)) (e, w).
Proof.
  unfold code_AddAndPersist, engine_AddAndPersist. rewrite run_and_then. unfold bind at 1.
  rewrite run_at_fst. unfold on_fst at 1. cbn [fst snd]. rewrite run_insert.
  unfold bind, on_fst, lift. cbn [fst snd]. destruct (engine_sketch g e) as [[l e1]|]; [|done].
  cbn [fst snd]. destruct (load l e1) as [[sk e2]|]; [|done].
  destruct (sk_Add sk i) as [sk'|]; [|done].
  cbn [store ret]. erewrite run_save; [|cbn; apply lookup_insert_eq]. done.
Qed.
End Sequential.

(** ** The specification *)

Section Specification.
Context {Sk : Type} `{AlgorithmLaws Sk, !Badger, !MapRange, !Gob}.
Implicit Types (e : Engine Sk) (w : BadgerStore) (m : gmap string Sk) (g : string) (c : ecall Sk).

Definition spec_save g (s : Sk) m w : eresult * (gmap string Sk * BadgerStore) :=
  match Save g (sk_Bytes s) w with
  | Ret (err, w') => (RErr err, (m, w'))
  | Panic _ => (RErr None, (m, w))
  end.

(** What each call promises on the map from groups to sketches and the store. *)
Definition espec c (st : gmap string Sk * BadgerStore) : eresult * (gmap string Sk * BadgerStore) :=
  let '(m, w) := st in
  match c with
  | EAdd g i => (RErr None, (spec_Add g i m, w))
  | ECardinality g =>
      (RCard match m !! g with Some s => Ok (sk_Cardinality s) | None => Err (ErrUnknownGroup g) end, st)
  | ECardinalityAll => (RAll (sk_Cardinality <$> m), st)
  | EAddAndPersist g i => spec_save g (sk_insert (spec_sketch g m) i) (spec_Add g i m) w
  | EPersist g =>
      match m !! g with
      | Some s => spec_save g s m w
      | None => (RErr (Some (ErrUnknownGroup g)), st)
      end
  | ERestore g b =>
      match alg_Parse b with
      | Ok s => (RErr None, (<[g := s]> m, w))
      | Err err => (RErr (Some (ErrParse g err)), st)
      end
  | EMerge g None => (RErr (Some ErrNilRemote), st)
  | EMerge g (Some s) =>
      if decide (sk_AlgoName s ≠ alg_Name Sk) then
        (RErr (Some (ErrAlgoMismatch (alg_Name Sk) (sk_AlgoName s))), st)
      else (RErr None, (spec_Merge g s m, w))
  | EMergeBytes g algo b =>
      (RErr (spec_result (Sk := Sk) (CMerge g algo b)), (spec_call (CMerge g algo b) m, w))
  | EMarshal => (RBytes (gob_Encode (sk_Bytes <$> m)), st)
  | EUnmarshal data =>
      match gob_Decode data with
      | Err err => (RErr (Some err), st)
      | Ok wire =>
          match wire_error (Sk := Sk) (map_range wire) with
          | Some err => (RErr (Some err), st)
          | None =>
              (RErr None, (omap (λ b, match alg_Parse b with Ok s => Some s | Err _ => None end) wire, w))
          end
      end
  end.

Definition eabs (st : Engine Sk * BadgerStore) : gmap string Sk * BadgerStore := (view st.1, st.2).

(** Ids are uint64s; a sketch the caller hands to [Merge] is a valid one. *)
Definition ecall_ok c : Prop :=
  match c with
  | EAdd _ i | EAddAndPersist _ i => u64 i
  | EMerge _ (Some s) => sk_valid s
  | _ => True
  end.

(** From [st], [op] returns what the specification of [c] says. *)
Definition meets c (op : prog (Engine Sk * BadgerStore) eresult) (st : Engine Sk * BadgerStore) : Prop :=
  ∃ r st', op st = Ret (r, st') ∧ espec c (eabs st) = (r, eabs st') ∧ engine_ok st'.1.

(** A method of the engine alone. *)
Lemma meets_fst {A} c (k : code (Engine Sk) eresult) (op : prog (Engine Sk) A) F e w r f :
  run_body k e = (let* x := op in ret (F x)) e → implements op r f e →
  espec c (view e, w) = (F r, (f (view e), w)) → meets c (run_body (at_fst k)) (e, w).
Proof.
  intros Hrun (e' & E & Hok & Hv & _) Hspec. exists (F r), (e', w).
  rewrite run_at_fst. unfold on_fst. cbn [fst snd].
  rewrite Hrun, (bind_Ret _ _ _ _ _ E). unfold eabs. cbn [fst snd]. by rewrite Hspec, Hv.
Qed.

Lemma implements_get {A} (op : prog (Engine Sk) A) r e :
  engine_ok e → op e = Ret (r, e) → implements op r (λ m, m) e.
Proof. intros. by apply implements_id. Qed.

Lemma Persist_meets g e w : engine_ok e → meets (EPersist g) (run_body (code_Persist g)) (e, w).
Proof.
  intros Hok. unfold meets. rewrite run_Persist by done. unfold bind, eabs, espec. cbn [fst snd].
  rewrite engine_Persist_spec by done. destruct (view e !! g) as [s|]; [|by eexists _, _].
  unfold spec_save. destruct (Save_spec g (sk_Bytes s) w) as (err & w' & E & _). rewrite E.
  by exists (RErr err), (e, w').
Qed.

Lemma AddAndPersist_meets g i e w :
  engine_ok e → u64 i → meets (EAddAndPersist g i) (run_body (code_AddAndPersist g i)) (e, w).
Proof.
  intros Hok Hi. unfold meets. rewrite run_AddAndPersist. unfold bind, eabs, espec. cbn [fst snd].
  destruct (engine_AddAndPersist_spec e w g i (Save g) Hok Hi) as (e' & _ & Hok' & Hv & _ & Es).
  rewrite Es. unfold spec_save. destruct (Save_spec g (sk_Bytes (sk_insert (spec_sketch g (view e)) i)) w)
    as (err & w' & E & _). rewrite E. exists (RErr err), (e', w'). by rewrite <- Hv.
Qed.

Lemma wire_error_None wire :
  wire_error (Sk := Sk) wire = None → ∀ g b, (g, b) ∈ wire → ∃ s : Sk, alg_Parse b = Ok s.
Proof.
  induction wire as [|[g b] wire IH]; cbn; [set_solver|]. destruct (alg_Parse b) as [s|err] eqn:E; [|done].
  intros Hw g' b' [[= -> ->]|Hin]%elem_of_cons; eauto.
Qed.

Lemma replace_meets data wire e w :
  gob_Decode data = Ok wire → wire_error (Sk := Sk) (map_range wire) = None →
  meets (EUnmarshal data) (run_body (at_fst (code_replace (map_range wire)))) (e, w).
Proof.
  intros Hd Hw. unfold meets. rewrite run_at_fst. unfold on_fst. cbn [fst snd].
  rewrite (run_replace wire e data Hd).
  destruct (engine_Unmarshal_ok e data wire Hd) as (e' & E & Hok & Hin & Hout).
  { intros g b Hg. apply (wire_error_None _ Hw g b). rewrite map_range_perm. by apply elem_of_map_to_list. }
  rewrite (bind_Ret _ _ _ _ _ E). exists (RErr None), (e', w). split; [done|]. split; [|done].
  unfold eabs, espec. cbn [fst snd]. rewrite Hd, Hw. repeat f_equal. apply map_eq. intros g.
  rewrite lookup_omap. destruct (wire !! g) as [b|] eqn:Hg; cbn; [|by rewrite Hout].
  destruct (alg_Parse b) as [s|err] eqn:Hp; [by rewrite (Hin g b s)|].
  destruct (wire_error_None _ Hw g b) as [s Hs]; [|congruence].
  rewrite map_range_perm. by apply elem_of_map_to_list.
Qed.

Lemma MergeBytes_meets g algo b e w :
  engine_ok e → meets (EMergeBytes g algo b) (plan_run (eplan (EMergeBytes g algo b))) (e, w).
Proof.
  intros Hok. cbn [eplan]. case_decide as Hn.
  { eexists _, (e, w). split; [done|]. split; [|done].
    unfold eabs, espec, spec_result, spec_call. by rewrite !decide_True. }
  destruct (alg_Parse b) as [sk|err] eqn:Hp.
  - rewrite decide_False by (destruct (law_parse _ _ Hp); naive_solver).
    eapply meets_fst; [by apply run_Merge|by apply engine_MergeBytes_refines|].
    unfold espec, spec_result, spec_call. by rewrite !decide_False, Hp by naive_solver.
  - eexists _, (e, w). split; [done|]. split; [|done].
    unfold eabs, espec, spec_result, spec_call. by rewrite !decide_False, Hp by naive_solver.
Qed.

Lemma merge_sketch_refines e g s :
  engine_ok e → sk_ok s → implements (merge_sketch g s) None (spec_Merge g s) e.
Proof.
  intros Hok Hs. unfold merge_sketch, implements.
  destruct (alloc_spec e s Hok) as (l & e1 & E1 & Hok1 & Hv1 & Hg1 & Hm1 & Hfr & Hl & F1).
  destruct (engine_Merge_refines e1 g l s Hok1) as (e2 & E2 & Hok2 & Hv2 & F2); [|done|].
  { rewrite Hm1. apply lookup_insert_eq. }
  exists e2. rewrite (bind_Ret _ _ _ _ _ E1). split_and_go; try done; [by rewrite Hv2, Hv1|].
  by eapply frame_trans.
Qed.

Lemma Merge_meets g s e w :
  engine_ok e → sk_valid s → meets (EMerge g (Some s)) (plan_run (eplan (EMerge g (Some s)))) (e, w).
Proof.
  intros Hok Hs. cbn [eplan]. case_decide as Hn.
  - eexists _, (e, w). split; [done|]. cbn. by rewrite decide_True.
  - eapply meets_fst; [by apply run_merge_sketch|by apply merge_sketch_refines|]. cbn.
    by rewrite decide_False by naive_solver.
Qed.

Lemma eplan_meets c st : engine_ok st.1 → ecall_ok c → meets c (plan_run (eplan c)) st.
Proof.
  destruct st as [e w]. cbn [fst]. intros Hok Hc. destruct c as [g i|g| |g i|g|g b|g [sk|]|g algo b| |data].
  - eapply meets_fst; [apply run_Add|by apply engine_Add_refines|done].
  - eapply meets_fst; [apply run_Cardinality|by apply implements_get, engine_Cardinality_spec|done].
  - eapply meets_fst; [apply run_CardinalityAll|by apply implements_get, engine_collect_all|done].
  - by apply AddAndPersist_meets.
  - by apply Persist_meets.
  - cbn [eplan]. destruct (alg_Parse b) as [sk|err] eqn:Hp.
    + eapply meets_fst; [by apply run_Restore|by apply engine_Restore_refines|]. cbn. by rewrite Hp.
    + eexists _, (e, w). split; [done|]. cbn. by rewrite Hp.
  - by apply Merge_meets.
  - by eexists _, (e, w).
  - by apply MergeBytes_meets.
  - eapply meets_fst; [apply run_Marshal|by apply implements_get, engine_Marshal_spec|done].
  - cbn [eplan]. destruct (gob_Decode data) as [wire|err] eqn:Hd.
    + destruct (wire_error (map_range wire)) as [err|] eqn:Hw; [|by apply replace_meets].
      eexists _, (e, w). split; [done|]. cbn. by rewrite Hd, Hw.
    + eexists _, (e, w). split; [done|]. cbn. by rewrite Hd.
Qed.

(** *** The methods of [Engine] *)

Lemma on_fst_bind_ret {S W A B} (op : prog S A) (F : A → B) (st : S * W) :
  (let* r := on_fst op in ret (F r)) st = on_fst (let* r := op in ret (F r)) st.
Proof. unfold bind, on_fst. by destruct (op st.1) as [[a s']|]. Qed.

(** The entries of a snapshot that parse: what the method does before it takes the lock
    cannot be seen afterwards. *)
Definition parses c : Prop :=
  match c with
  | EUnmarshal data => ∀ wire, gob_Decode data = Ok wire → wire_error (Sk := Sk) (map_range wire) = None
  | EMerge _ (Some s) => sk_AlgoName s = alg_Name Sk
  | _ => True
  end.

(** A body on the engine alone. *)
Lemma run_engine {A} (k : code (Engine Sk) eresult) (op : prog (Engine Sk) A) F e w :
  run_body k e = (let* r := op in ret (F r)) e →
  run_body (at_fst k) (e, w) = (let* r := on_fst op in ret (F r)) (e, w).
Proof. intros Hk. rewrite on_fst_bind_ret, run_at_fst. unfold on_fst. cbn [fst]. by rewrite Hk. Qed.

Lemma eplan_run c e w : engine_ok e → parses c → plan_run (eplan c) (e, w) = emethod c (e, w).
Proof.
  intros Hok Hc. destruct c as [g i|g| |g i|g|g b|g [sk|]|g algo b| |data]; cbn [eplan emethod].
  - apply run_engine, run_Add.
  - apply run_engine, run_Cardinality.
  - apply run_engine, run_CardinalityAll.
  - apply run_AddAndPersist.
  - by apply run_Persist.
  - destruct (alg_Parse b) as [sk|err] eqn:Hp; [by apply run_engine, run_Restore|].
    unfold engine_Restore. by rewrite Hp.
  - rewrite decide_False by naive_solver. by apply run_engine, run_merge_sketch.
  - done.
  - destruct (decide (algo ≠ alg_Name Sk)) as [Hn|Hn%dec_stable].
    { unfold engine_MergeBytes. by rewrite decide_True. }
    subst algo. destruct (alg_Parse b) as [sk|err] eqn:Hp.
    + rewrite decide_False by (destruct (law_parse _ _ Hp); naive_solver). by apply run_engine, run_Merge.
    + unfold engine_MergeBytes. by rewrite decide_False, Hp by naive_solver.
  - apply run_engine, run_Marshal.
  - destruct (gob_Decode data) as [wire|err] eqn:Hd; [|unfold engine_Unmarshal; by rewrite Hd].
    rewrite (Hc wire Hd). by apply run_engine, run_replace.
Qed.

Lemma engine_parse_all_error wire gs e err :
  engine_ok e → wire_error (Sk := Sk) wire = Some err →
  ∃ e', engine_parse_all wire gs e = Ret (Err err, e') ∧ engine_ok e' ∧ view e' = view e.
Proof.
  intros Hok Hw. destruct (engine_parse_all_view e wire gs Hok) as (r & e' & E & Hok' & Hv & _).
  exists e'. split; [|done]. rewrite E. repeat f_equal. clear Hok Hok' Hv. revert gs e E Hw.
  induction wire as [|[g b] wire IH]; intros gs e; cbn; [done|].
  destruct (alg_Parse b) as [s|err']; [|by intros [= <- _] [= <-]]. eapply IH.
Qed.

Lemma Merge_mismatch_meets g s e w :
  engine_ok e → sk_AlgoName s ≠ alg_Name Sk →
  meets (EMerge g (Some s)) (emethod (EMerge g (Some s))) (e, w).
Proof.
  intros Hok Hn. destruct (alloc_spec e s Hok) as (l & e1 & E1 & Hok1 & Hv1 & Hg1 & Hm1 & _).
  exists (RErr (Some (ErrAlgoMismatch (alg_Name Sk) (sk_AlgoName s)))), (e1, w).
  cbn [emethod]. rewrite on_fst_bind_ret. unfold on_fst, merge_sketch. cbn [fst snd].
  unfold bind. rewrite E1. rewrite (engine_Merge_mismatch e1 g l s); [|by rewrite Hm1; apply lookup_insert_eq|done].
  split; [done|]. split; [|done]. unfold eabs, espec. cbn [fst snd]. by rewrite decide_True, Hv1.
Qed.

Lemma emethod_meets c st : engine_ok st.1 → ecall_ok c → meets c (emethod c) st.
Proof.
  destruct st as [e w]. intros Hok Hc. destruct (eplan_meets c (e, w) Hok Hc) as (r & st' & E & Hs).
  destruct c as [g i|g| |g i|g|g b|g [sk|]|g algo b| |data]; try by (exists r, st'; rewrite <- eplan_run).
  { destruct (decide (sk_AlgoName sk = alg_Name Sk)) as [Hn|Hn]; [by exists r, st'; rewrite <- eplan_run|].
    by apply Merge_mismatch_meets. }
  cbn [eplan] in E. destruct (gob_Decode data) as [wire|err] eqn:Hd.
  - destruct (wire_error (map_range wire)) as [err|] eqn:Hw.
    + destruct (engine_parse_all_error (map_range wire) ∅ e err Hok Hw) as (e' & Ep & Hok' & Hv).
      exists (RErr (Some err)), (e', w). unfold emethod. rewrite on_fst_bind_ret.
      unfold on_fst, bind, engine_Unmarshal.
      cbn [fst snd]. rewrite Hd. unfold bind. rewrite Ep. split; [done|]. split; [|done].
      unfold eabs, espec. cbn [fst snd]. by rewrite Hd, Hw, Hv.
    + exists r, st'. rewrite <- eplan_run; [|done|intros ? Hd'; congruence].
      split; [|done]. cbn [eplan]. by rewrite Hd, Hw.
  - exists r, st'. rewrite <- eplan_run; [|done|intros ? Hd'; congruence].
    split; [|done]. cbn [eplan]. by rewrite Hd.
Qed.

(** ** The instance *)

Lemma read_only_load l : read_only (access (load (Sk := Sk) l)).
Proof. apply read_only_access. intros e sk e'. unfold load. case_match; naive_solver. Qed.

Lemma read_only_collect {V} (f : Sk → V) es out : read_only (code_collect f es out).
Proof.
  revert out. induction es as [|[g l] es IH]; intros out; cbn [code_collect]; [done|].
  apply read_only_and_then; [apply read_only_load|auto].
Qed.

Lemma eplan_reads c : plan_reads (eplan (Sk := Sk) c).
Proof.
  destruct c as [g i|g| |g i|g|g b|g [sk|]|g algo b| |data]; cbn [eplan]; try (by repeat case_match);
    apply read_only_at_fst; (apply read_only_and_then; [apply read_only_reading|]).
  - intros [l|]; [|done]. apply read_only_and_then; [apply read_only_load|done].
  - intros es. apply read_only_and_then; [apply read_only_collect|done].
  - intros es. apply read_only_and_then; [apply read_only_collect|done].
Qed.

#[export] Instance engine_LockedObject :
  LockedObject (Engine Sk * BadgerStore) (gmap string Sk * BadgerStore) (ecall Sk) eresult := {|
  lo_plan := eplan;
  lo_abs := eabs;
  lo_spec := espec;
  lo_inv st := engine_ok st.1;
  lo_ok := ecall_ok;
  lo_reads := eplan_reads;
  lo_correct c st := eplan_meets c st;
|}.
End Specification.

(** ** What the store holds *)

Section Persistence.
Context {Sk : Type} `{AlgorithmLaws Sk, !Badger, !MapRange, !Gob}.
Implicit Types (m : gmap string Sk) (w : BadgerStore) (c : ecall Sk).

(** The calls of a standalone server: every write is saved before it returns. *)
Definition saves c : Prop :=
  match c with
  | EAddAndPersist _ _ | EPersist _ | ECardinality _ | ECardinalityAll | EMarshal => True
  | _ => False
  end.

Definition added_id c : option call :=
  match c with EAddAndPersist g i => Some (CAdd g i) | _ => None end.

Lemma spec_save_stored g (s : Sk) m m' w r w' :
  spec_save g s m w = (r, (m', w')) →
  m' = m ∧ saveErrors w ≤ saveErrors w' ∧
  (saveErrors w' = saveErrors w → store_view w' = <[g := sk_Bytes s]> (store_view w)).
Proof.
  unfold spec_save. destruct (Save_spec g (sk_Bytes s) w) as (err & w1 & E & _). rewrite E.
  intros [= _ <- <-]. apply saveErrors_mono in E as (Hle & Hnone & Hv). split; [done|]. split; [done|].
  intros Herr. by rewrite Hv, (Hnone Herr).
Qed.

(** One call of the specification keeps engine and store in step. *)
Lemma standalone_step c m w r m' w' :
  saves c → espec c (m, w) = (r, (m', w')) →
  m' = spec_calls (option_list (added_id c)) m ∧ saveErrors w ≤ saveErrors w' ∧
  (saveErrors w' = saveErrors w → store_view w = sk_Bytes <$> m → store_view w' = sk_Bytes <$> m').
Proof.
  destruct c as [g i|g| |g i|g|g b|g [sk|]|g algo b| |data]; intros Hc; try done; cbn [espec added_id option_list].
  - intros [= _ <- <-]. done.
  - intros [= _ <- <-]. done.
  - intros (-> & Hle & Hv)%spec_save_stored. split; [done|]. split; [done|]. intros Herr Hp.
    rewrite (Hv Herr), Hp. unfold spec_Add. by rewrite fmap_insert.
  - destruct (m !! g) as [s|] eqn:Hg; [|by intros [= _ <- <-]].
    intros (-> & Hle & Hv)%spec_save_stored. split; [done|]. split; [done|]. intros Herr Hp.
    rewrite (Hv Herr), Hp. apply insert_id. by rewrite lookup_fmap, Hg.
  - intros [= _ <- <-]. done.
Qed.

Lemma standalone_sequential cs m w rs m' w' :
  Forall saves cs → sequential cs (m, w) = (rs, (m', w')) →
  m' = spec_calls (omap added_id cs) m ∧ saveErrors w ≤ saveErrors w' ∧
  (saveErrors w' = saveErrors w → store_view w = sk_Bytes <$> m → store_view w' = sk_Bytes <$> m').
Proof.
  revert m w rs. induction cs as [|c cs IH]; intros m w rs; cbn [sequential].
  { by intros _ [= _ <- <-]. }
  intros [Hc Hcs]%Forall_cons. destruct (lo_spec c (m, w)) as [r [m1 w1]] eqn:E1.
  destruct (sequential cs (m1, w1)) as [rs1 [m2 w2]] eqn:E2. intros [= _ <- <-].
  destruct (standalone_step c m w r m1 w1 Hc E1) as (-> & Hle1 & Hv1).
  destruct (IH _ _ _ Hcs E2) as (-> & Hle2 & Hv2).
  split; [by destruct c|]. split; [lia|]. intros Herr Hp. apply Hv2; [lia|]. apply Hv1; [lia|done].
Qed.

(** The history of an execution whose calls are those of a standalone server. *)
Lemma standalone_history (e : Engine Sk) w tr s (log : list (entry (ecall Sk) eresult)) :
  linearizes (e, w) tr s log → (∀ t c, LCall t c ∈ tr → saves c) →
  Forall saves (hist_calls log) ∧ Forall call_ok (omap added_id (hist_calls log)).
Proof.
  intros Hlin Htr. split; apply Forall_forall.
  - intros c ([t [c' r]] & -> & Hin)%list_elem_of_fmap. eapply Htr, (lin_calls _ _ _ _ Hlin), Hin.
  - intros c ([] & Hin & Hc)%list_elem_of_omap; try done. injection Hc as <-.
    apply list_elem_of_fmap in Hin as ([t [c' r]] & E & Hin). cbn in E. subst.
    apply (lin_calls _ _ _ _ Hlin) in Hin as [_ Hi]. apply Hi.
Qed.

(** ** Claims *)


(** C10: Concurrent writers: start from an engine and a store in step and run any number of
    AddAndPersist, Persist, Cardinality, CardinalityAll and Marshal calls, interleaved
    access by access under the engine's lock. Whenever no writer is inside and no write
    failed, the store holds exactly the bytes of the engine's sketches, and every
    AddAndPersist that has returned is counted: the stored sketches parse to an engine in
    which adding its id again changes nothing. *)
Theorem concurrent_adds_persisted (e : Engine Sk) w (tr : list (label (ecall Sk) eresult))
    (s : mstate (Engine Sk * BadgerStore) (ecall Sk) eresult) :
  engine_ok e → persisted e w → exec (m_initial (e, w)) tr s → (∀ t c, LCall t c ∈ tr → saves c) →
  writer s = None → saveErrors (shared s).2 = saveErrors w →
  persisted (shared s).1 (shared s).2 ∧
  (readable (shared s).2 →
   ∃ e' n, restore ((shared s).2, (NewEngine ∅, 0)) = Ret (None, ((shared s).2, (e', n))) ∧
     ∀ t g i r, threads s !! t = Some (EAddAndPersist g i, Returned r) → spec_Add g i (view e') ≡ view e').
Proof.
  intros Hok Hp He Htr Hw Herr. destruct (locked_linearizable (e, w) tr s) as [log Hlin]; [done..|].
  destruct (standalone_history _ _ _ _ _ Hlin Htr) as [Hst Hcalls].
  destruct (lin_legal _ _ _ _ Hlin) as ([e1 w1] & Hseq & Hok1 & Hsh). rewrite (Hsh Hw) in *. cbn [fst snd] in *.
  destruct (standalone_sequential _ _ _ _ _ _ Hst Hseq) as (Hv & _ & Hstore). cbn [fst snd] in *.
  assert (persisted e1 w1) as Hp1 by by apply Hstore.
  split; [done|]. intros Hread. destruct (restore_persisted _ _ Hok1 Hp1 Hread) as (e' & n & E & Hok2 & Heq).
  exists e', n. split; [done|]. intros t g i r Ht%(lin_returns _ _ _ _ Hlin).
  assert (CAdd g i ∈ omap added_id (hist_calls log)) as Hin.
  { apply list_elem_of_omap. exists (EAddAndPersist g i). split; [|done].
    by apply (list_elem_of_fmap_2 (λ h, h.2.1) _ _ Ht). }
  assert (call_ok (CAdd g i)) as Hi by by eapply Forall_forall in Hcalls.
  trans (view e1); [|done]. trans (spec_call (CAdd g i) (view e1)).
  { apply (spec_call_proper (CAdd g i)); auto using engine_ok_view. }
  rewrite Hv. apply (spec_calls_replay _ [CAdd g i]); [done| |by apply engine_ok_view].
  by intros c ->%list_elem_of_singleton.
Qed.
End Persistence.

(** ** Witnesses *)

Section Witnesses.
Import Concrete StandIn.

Definition disk_ex : BadgerStore := mkStore (∅ : @DB StandIn.badger) 0 0.
Definition start_ex : mstate (Engine SketchV * BadgerStore) (ecall SketchV) eresult := m_initial (NewEngine ∅, disk_ex).

(** A Cardinality and an AddAndPersist are called; the writer gets the lock first, and
    returns while the reader, called before it, is inside. *)
Definition turns_ex : list (turn (ecall SketchV)) :=
  [TCall 1 (ECardinality "a"); TCall 0 (EAddAndPersist "a" 7); TGo 0; TGo 0; TGo 0] ++
  replicate 7 (TGo 0) ++ [TGo 1; TGo 0; TGo 1; TGo 1; TGo 1; TGo 1].

Definition lock_ex : list (label (ecall SketchV) eresult) * mstate (Engine SketchV * BadgerStore) (ecall SketchV) eresult :=
  scheduled start_ex turns_ex.

Lemma lock_ex_exec : exec start_ex lock_ex.1 lock_ex.2.
Proof.
  unfold lock_ex. apply scheduled_exec. unfold turns_ex. repeat constructor; discriminate.
Qed.

Lemma lock_ex_calls :
  forallb (λ l, match l with
                | LCall _ c => match c with ECardinality _ | EAddAndPersist _ _ => true | _ => false end
                | _ => true
                end) lock_ex.1 = true.
Proof. vm_compute. reflexivity. Qed.

Lemma lock_ex_saves t c : LCall t c ∈ lock_ex.1 → saves c.
Proof.
  intros Hin%list_elem_of_In. pose proof (proj1 (forallb_forall _ _) lock_ex_calls _ Hin) as Hc.
  by destruct c.
Qed.

Lemma lock_ex_reader : returned_call lock_ex.2 1 = Some (ECardinality "a", RCard (Ok 1)).
Proof. vm_cast_no_check (eq_refl (Some (ECardinality (Sk := SketchV) "a", RCard (Ok 1)))). Qed.

Lemma lock_ex_writer : returned_call lock_ex.2 0 = Some (EAddAndPersist "a" 7, RErr None).
Proof. vm_cast_no_check (eq_refl (Some (EAddAndPersist (Sk := SketchV) "a" 7, RErr None))). Qed.


Lemma concurrent_adds_persisted_witness :
  returned_call lock_ex.2 0 = Some (EAddAndPersist "a" 7, RErr None) ∧
  persisted (shared lock_ex.2).1 (shared lock_ex.2).2.
Proof.
  split; [exact lock_ex_writer|].
  apply (concurrent_adds_persisted (NewEngine ∅) disk_ex lock_ex.1 lock_ex.2).
  - apply empty_engine_ok.
  - reflexivity.
  - exact lock_ex_exec.
  - exact lock_ex_saves.
  - vm_compute. reflexivity.
  - vm_compute. reflexivity.
Defined.
End Witnesses.
